(* ===== verification/_CoqProject ===== *)
-Q . S2P
Prelude.v
Types.v
Head.v
Samples.v
LogSpec.v
Cbor.v
Rfc8949.v
Wire.v
Format.v
Derive.v
FormatEnvelope.v
FormatNode.v
FormatPlan.v
FormatRecords.v
FormatHead.v
FormatToken.v
Typed.v
FormatWitness.v
Prog.v
Wp.v
Store.v
StoreProps.v
Log.v
LogOps.v
LogMaintain.v
History.v
ByteStream.v
Protocol.v
ProtocolSpecs.v
Progress.v
CommitProtocol.v
GraphProps.v
TailProps.v
CollectProps.v
MaintainProtocol.v
World.v
Linear.v
Agreement.v
Fence.v
Reclaim.v
Sim.v
SimProps.v
SimAccounting.v
WalTransport.v
WalExchange.v
WalExecutor.v
WalFutures.v
WalSession.v
Conclusive.v
WalProps.v
ByteWriterProps.v
ByteReaderProps.v
Memory.v
MemoryWorld.v
Scenario.v
ByteScenario.v
SystemScenario.v
ReclaimScenario.v
SimScenario.v
WalScenario.v
FutureScenario.v
