(* ===== verification/Prelude.v ===== *)
(** * object-log: a verification of the commit-log crate

    object-log keeps a write-ahead log in a plain object store.  All the mutable state of
    a log is one small object, the head, replaced by conditional writes; commits,
    checkpoints, blobs, reference nodes and collection plans are immutable objects named
    by digest and a random storage id.  Clients share nothing but the store, requests may
    fail after they took effect, and answers may be lost.  This library models the Rust
    crate under [src/src] and proves what makes it correct: published heads are the
    states of one append-only log, outcomes reported to callers are justified by what
    storage said, collection deletes only unreachable objects, and every durable format
    has exactly one encoding.

    ** The program and its model

    - [Prelude]: results, checked machine integers, chunking and list lemmas.
    - [Types]: the data of [lib.rs] (digests, ids, references, errors) and of [log.rs]
      (options), and the immutable keys of [store.rs].  [Head]: the head of [format.rs],
      its validation, and every head update of [log.rs] as a function on heads
      ([candidate_head], [checkpoint_head], [retention_apply], [install_plan_head],
      [clear_plan_head]) with the classification of uncertain outcomes.
    - [LogSpec]: the abstract append-only log, the step relation of heads, and the
      refinement between them.
    - [Cbor], [Rfc8949], [Derive]: minicbor's encoder, decoder and derived decoders as
      interfaces with laws, an RFC 8949 implementation that satisfies them, and derived
      decoders that do.  [Wire]: the wire structs of [format.rs].  [Format]: its encoders
      and decoders.  [FormatEnvelope], [FormatNode], [FormatPlan], [FormatRecords],
      [FormatHead], [FormatToken]: their round trips and uniqueness; [FormatWitness]:
      concrete encodings.
    - [Prog]: asynchronous code as a program tree over requests, related to traces of
      requests and answers.  [Wp]: a weakest precondition over such programs against a
      policy of allowed requests.
    - [Store]: [store.rs]: layout, admission, safe reads, conditional writes, listing,
      deletion, the capability probe.  [StoreProps]: their properties.
    - [Log]: the private half of [log.rs] (verified reads, the object-graph walk, fresh
      objects, bounded head publication).  [LogOps]: opening, staging, commits and their
      recovery.  [LogMaintain]: checkpoints, live marking, collection.  [History]: the
      cursor of [history.rs].
    - [Protocol], [ProtocolSpecs], [CommitProtocol], [MaintainProtocol], [Conclusive]: the
      policy every operation follows and what its outcomes mean.  [GraphProps],
      [TailProps], [CollectProps]: the object-graph walk, authenticated reading,
      collection.
    - [Typed]: heads whose digests, identifiers and counters fit their Rust types.
    - [ByteStream]: [byte_stream.rs], chunked byte streams over blobs and reference nodes.
      [ByteWriterProps], [ByteReaderProps]: capacity, failure, round trip, safety.
    - [Progress]: a commit succeeds when its environment grants every request.
    - [World]: one object store shared by any number of concurrent clients, as a step
      relation over running operations: a step starts an operation, makes its next
      request, loses it, or lets a write that was answered with an error take effect late.
      [Linear]: the invariant of that system; [Agreement]: what clients can rely on.
      [Fence], [Reclaim]: collection in that system: installed plans never schedule what can be
      reached from a head at or after their installation.
      [MemoryWorld]: runs of the in-memory backend are runs of the system.
    - [Sim]: [sim.rs], the fault-injecting store, as programs over its critical sections;
      [SimProps], [SimAccounting]: what a request reports, and the bookkeeping under every
      interleaving.
    - [WalTransport]: [transport.rs] and [request_retry.rs] of [examples/wal-component]
      (budget, replay, transfers, digest contexts).  [WalExchange]: whole exchanges and
      calls.  [WalExecutor]: [executor.rs], the loop that polls a future and waits for the
      host, against its specification.  [WalFutures]: the futures of an exchange, which it
      runs to completion.
      [WalSession]: [lib.rs] and [maintenance.rs], the resources of the component and their
      functions.  [WalProps]: they keep the log's protocol.
    - [ByteScenario], [SystemScenario], [ReclaimScenario], [SimScenario], [WalScenario],
      [FutureScenario]: executed instances.
    - [Memory], [Scenario]: an in-memory backend and a full life of a log executed on it,
      which instantiates the hypotheses of the theorems.

    ** What the theorems show

    - Refinement and agreement ([LogSpec]): each head update keeps the durable invariant
      and simulates an abstract step; heads of one log never disagree on a commit; a
      reported outcome is exact and never contradicted later.
    - Protocol ([CommitProtocol], [MaintainProtocol], [Conclusive]): under every answer to
      every request, a head is only replaced conditionally by the next head of the log
      after what it names is durable; objects are deleted only on the authority of the
      installed plan, whose fence clears after every deletion was acknowledged; errors
      and negative outcomes are conclusive.
    - Collection and reading ([GraphProps], [CollectProps], [TailProps]): the walk
      terminates and is complete under every completion order, plans are disjoint from
      the live set, tails and histories are authentic and exact.
    - Formats: decoding inverts encoding and accepts nothing else, sizes are exact,
      decoded plans and nodes are inside their limits.
    - Store ([StoreProps]): keys never collide across logs, listing inverts the layout,
      every request is admitted first, reads are bounded, deletion is exact.
    - Concurrency ([Agreement]): the heads ever stored form one growing chain, any two
      observed views are on it, a commit reported as committed stays in the published log,
      and no head names an object that was never stored.
    - Reclamation ([Reclaim]): whatever clients stage, commit, checkpoint and collect at
      once, the durable head's tail commits, its checkpoint and every blob and node that
      can be reached from them are in the store, and so are those of a retained view;
      given that identities are fresh, listings list stored objects, the digests of what
      was stored do not collide, and clients publish objects in the collection epoch in
      which they created them or read them from a head.
    - Progress ([Progress]): unhindered, a commit takes two writes and is committed.
    - Types ([Typed]): decoding and every head update stay within the Rust types.
    - Byte streams: what was written is what is read, and no read panics.
    - Fault store: answers match recorded outcomes, counters account for every request,
      faults fire once.
    - WAL component: a session's view is always an observed head and its answers are true
      of it, publication needs a fully delivered history, a candidate is published at most
      once, a request is replayed at most once and the budget is never exceeded.
    - Executor ([WalExecutor], [WalFutures]): its slots, reference counts and waiting list
      implement a list of armed subscriptions; an exchange never panics, completes with a
      host that makes awaited resources ready, and leaves nothing armed; a chunk is written
      as if the stream's calls blocked.

    ** Modelling decisions

    - A trace carries arbitrary answers, so a theorem about all traces covers faults, lost
      acknowledgements and every interleaving with other clients.  Theorems that need more
      of the environment say so: [fresh_arcs] (an allocation is not an existing one), the
      caller's earlier observations ([Caller]), fresh identities and truthful listings
      ([honest]).
    - Integers are [Z] with the checks, saturation and conversions of the source written
      out; [usize] is the target's width (class [Target]).
    - Loops the source bounds keep their bounds (three safe reads, sixteen publication or
      creation attempts).  The graph walk has fuel one above the durable object limit;
      [graph_walk_terminates] shows it is never used up.  The CBOR item decoder recurses on
      the input's length.
      The executor's loop takes the number of polls it may make; one more than the waits
      the host needs is enough ([exchange_completes]).
    - Concurrent reads run one at a time, in an order the environment picks
      ([ENextRead]); a listing is delivered as a whole; the once-set caches of a view are
      requests to the environment; [Arc] identity is a number.
    - Third-party code is an interface with documented laws: BLAKE3 (a function), minicbor,
      paths of object_store, uuid and hex text, the target's word size.  No law says that
      digests are injective: where it matters a theorem's conclusion names the collision, or
      a hypothesis excludes one among what was stored ([collision_free]).

    ** Not modelled

    Benchmarks, tests and the Go example under [examples/git]; [Display], [Debug] and
    accessor methods; the WASI host and the SHA-256 and HMAC crates, which are parameters.
    A future cancelled half way is a lost operation of [World].  In the system of
    [Reclaim] a client publishes objects it created, or that it reached by reading from a
    head of the epoch; references of other origin that [stage_objects] verified by a walk
    are covered by the protocol theorems and not by those of [Reclaim]. *)

From Stdlib Require Import Strings.Byte.
From stdpp Require Export base tactics list gmap strings sorting.
From Stdlib Require Export ZArith Lia.

#[global] Open Scope Z_scope.

(** ** Results

    Rust's [Result<T, E>], with the [?] operator written [let?]. *)

Inductive Result (A E : Type) : Type :=
  | Ok (a : A)
  | Err (e : E).
Arguments Ok {A E} a.
Arguments Err {A E} e.

#[global] Instance Result_eq_dec {A E} `{EqDecision A, EqDecision E} : EqDecision (Result A E).
Proof. solve_decision. Defined.

Definition result_bind {A B E} (r : Result A E) (k : A → Result B E) : Result B E :=
  match r with Ok a => k a | Err e => Err e end.

Definition ok_or {A E} (o : option A) (e : E) : Result A E :=
  match o with Some a => Ok a | None => Err e end.

Definition result_ok {A E} (r : Result A E) : option A :=
  match r with Ok a => Some a | Err _ => None end.

Definition map_err {A E F} (r : Result A E) (f : E → F) : Result A F :=
  match r with Ok a => Ok a | Err e => Err (f e) end.

Declare Scope rust_scope.
Delimit Scope rust_scope with rust.
Notation "'let?' x := e 'in' k" := (result_bind e (fun x => k))
  (at level 10, x name, e at level 200, k at level 200) : rust_scope.
Notation "'let?' ' p := e 'in' k" := (result_bind e (fun x => match x with p => k end))
  (at level 10, p pattern, e at level 200, k at level 200) : rust_scope.
Notation "'do?' e ; k" := (result_bind e (fun _ => k))
  (at level 10, e at level 200, k at level 200) : rust_scope.
#[global] Open Scope rust_scope.

(** [collect::<Result<Vec<_>, _>>()] over a fallible map. *)
Fixpoint try_map {A B E} (f : A → Result B E) (l : list A) : Result (list B) E :=
  match l with
  | [] => Ok []
  | x :: l => let? y := f x in let? ys := try_map f l in Ok (y :: ys)
  end.

(** [Iterator::try_fold]. *)
Fixpoint try_fold {A B E} (f : B → A → Result B E) (b : B) (l : list A) : Result B E :=
  match l with
  | [] => Ok b
  | x :: l => let? b := f b x in try_fold f b l
  end.

(** [Option::map(f).transpose()?]. *)
Definition try_option {A B E} (f : A → Result B E) (o : option A) : Result (option B) E :=
  match o with None => Ok None | Some a => let? b := f a in Ok (Some b) end.

(** ** Machine integers

    Unsigned integers are [Z]; every checked operation of the source is written
    with its width.  [usize] has the width of the compilation target, 32 bits for
    [wasm32-wasip2] and 64 bits for native targets. *)

Definition u8_max : Z := 255.
Definition u32_max : Z := 4294967295.
Definition u64_max : Z := 18446744073709551615.

Class Target := {
  usize_max : Z;
  usize_max_cases : usize_max = u32_max ∨ usize_max = u64_max
}.

Definition wasm32 : Target := {| usize_max := u32_max; usize_max_cases := or_introl eq_refl |}.
Definition native64 : Target := {| usize_max := u64_max; usize_max_cases := or_intror eq_refl |}.

Definition in_u64 (z : Z) : bool := (0 <=? z) && (z <=? u64_max).
Definition in_usize `{Target} (z : Z) : bool := (0 <=? z) && (z <=? usize_max).

(** [u64::try_from] and [usize::try_from]. *)
Definition u64_try_from (z : Z) : option Z := if in_u64 z then Some z else None.
Definition usize_try_from `{Target} (z : Z) : option Z := if in_usize z then Some z else None.

Definition checked_add_within (max a b : Z) : option Z := if a + b <=? max then Some (a + b) else None.
Abbreviation u64_checked_add := (checked_add_within u64_max).
Abbreviation usize_checked_add := (checked_add_within usize_max).

(** [u64::saturating_add], and [saturating_sub] for any unsigned type. *)
Definition u64_saturating_add (a b : Z) : Z := Z.min (a + b) u64_max.
Definition saturating_sub (a b : Z) : Z := Z.max 0 (a - b).

(** The length of a vector as a [usize] value. *)
Definition len {A} (l : list A) : Z := Z.of_nat (length l).

(** ** Bytes *)

Abbreviation byte := Init.Byte.byte.
Abbreviation bytes := (list Init.Byte.byte).

Definition byte_val (b : byte) : Z := Z.of_N (Byte.to_N b).

#[global] Instance byte_eq_decision : EqDecision byte := Byte.byte_eq_dec.
#[global] Instance byte_countable : Countable byte :=
  inj_countable Byte.to_N Byte.of_N Byte.of_to_N.

(** The UTF-8 bytes of a string literal. *)
Definition str (s : string) : bytes := String.list_byte_of_string s.

Lemma byte_val_inj x y : byte_val x = byte_val y → x = y.
Proof.
  unfold byte_val. intros H%N2Z.inj.
  pose proof (Byte.of_to_N x) as Hx. rewrite H, Byte.of_to_N in Hx. congruence.
Qed.

Lemma byte_val_range b : 0 ≤ byte_val b ≤ 255.
Proof. unfold byte_val. pose proof (Byte.to_N_bounded b). lia. Qed.

(** ** Total orders: Rust's [Ord] *)

Class Ord (A : Type) := cmp : A → A → comparison.

Class OrdLaws (A : Type) `{Ord A} := {
  cmp_eq (x y : A) : cmp x y = Eq → x = y;
  cmp_refl (x : A) : cmp x x = Eq;
  cmp_anti (x y : A) : cmp y x = CompOpp (cmp x y);
  cmp_lt_trans (x y z : A) : cmp x y = Lt → cmp y z = Lt → cmp x z = Lt
}.

Definition ord_lt `{Ord A} (x y : A) : bool := match cmp x y with Lt => true | _ => false end.
Definition ord_le `{Ord A} (x y : A) : Prop := cmp x y ≠ Gt.

#[global] Instance Z_ord : Ord Z := Z.compare.
#[global] Instance byte_ord : Ord byte := λ x y, Z.compare (byte_val x) (byte_val y).

(** Slices and arrays compare lexicographically. *)
Fixpoint list_cmp `{Ord A} (l k : list A) : comparison :=
  match l, k with
  | [], [] => Eq
  | [], _ :: _ => Lt
  | _ :: _, [] => Gt
  | x :: l, y :: k => match cmp x y with Eq => list_cmp l k | c => c end
  end.
#[global] Instance list_ord `{Ord A} : Ord (list A) := list_cmp.

(** Derived [Ord] on a struct compares its fields in declaration order. *)
Definition then_cmp (c d : comparison) : comparison := match c with Eq => d | _ => c end.
#[global] Instance pair_ord `{Ord A, Ord B} : Ord (A * B) :=
  λ x y, then_cmp (cmp x.1 y.1) (cmp x.2 y.2).

(** A newtype compares by its projection. *)
Definition proj_ord {A B} `{Ord B} (f : A → B) : Ord A := λ x y, cmp (f x) (f y).

Section ord_laws.
Context `{OrdLaws A}.

Lemma ord_lt_irrefl (x : A) : ord_lt x x = false.
Proof. unfold ord_lt. by rewrite cmp_refl. Qed.

Lemma ord_lt_trans (x y z : A) : ord_lt x y = true → ord_lt y z = true → ord_lt x z = true.
Proof.
  unfold ord_lt. destruct (cmp x y) eqn:E1, (cmp y z) eqn:E2; try done.
  by rewrite (cmp_lt_trans _ _ _ E1 E2).
Qed.

#[global] Instance ord_le_dec : RelDecision (@ord_le A _).
Proof. intros x y. unfold ord_le. destruct (cmp x y); [left|left|right]; congruence. Defined.

#[global] Instance ord_le_total : Total (@ord_le A _).
Proof. intros x y. unfold ord_le. rewrite (cmp_anti x y). destruct (cmp x y); simpl; [left|left|right]; done. Qed.

#[global] Instance ord_le_antisymm : AntiSymm (=) (@ord_le A _).
Proof.
  intros x y. unfold ord_le. rewrite (cmp_anti x y).
  destruct (cmp x y) eqn:E; simpl; try done. intros; by apply cmp_eq.
Qed.

#[global] Instance ord_le_trans : Transitive (@ord_le A _).
Proof.
  intros x y z. unfold ord_le.
  destruct (cmp x y) eqn:E1; [apply cmp_eq in E1 as ->; done| |done].
  destruct (cmp y z) eqn:E2; [apply cmp_eq in E2 as <-; by rewrite E1| |done].
  by rewrite (cmp_lt_trans _ _ _ E1 E2).
Qed.
End ord_laws.

#[global] Instance Z_ord_laws : OrdLaws Z.
Proof.
  split; unfold cmp, Z_ord; intros.
  - by apply Z.compare_eq.
  - apply Z.compare_refl.
  - apply Z.compare_antisym.
  - rewrite Z.compare_lt_iff in *. lia.
Qed.

Lemma proj_ord_laws {A B} `{OrdLaws B} (f : A → B) :
  (∀ x y, f x = f y → x = y) → @OrdLaws A (proj_ord f).
Proof.
  intros Hinj. split; unfold cmp, proj_ord; intros.
  - by apply Hinj, cmp_eq.
  - apply cmp_refl.
  - apply cmp_anti.
  - by eapply cmp_lt_trans.
Qed.

#[global] Instance byte_ord_laws : OrdLaws byte := proj_ord_laws byte_val byte_val_inj.

#[global] Instance pair_ord_laws `{OrdLaws A, OrdLaws B} : OrdLaws (A * B).
Proof.
  split; unfold cmp, pair_ord, then_cmp.
  - intros [a b] [c d]; simpl. destruct (cmp a c) eqn:E; [|done..].
    intros E2. by rewrite (cmp_eq _ _ E), (cmp_eq _ _ E2).
  - intros [a b]; simpl. by rewrite !cmp_refl.
  - intros [a b] [c d]; simpl. rewrite (cmp_anti a c). destruct (cmp a c); simpl; [|done..].
    apply cmp_anti.
  - intros [a b] [c d] [e f]; simpl.
    destruct (cmp a c) eqn:E1; [apply cmp_eq in E1 as ->| |done];
      destruct (cmp c e) eqn:E2; try done; try apply cmp_lt_trans.
    + apply cmp_eq in E2 as <-. by rewrite E1.
    + by rewrite (cmp_lt_trans _ _ _ E1 E2).
Qed.

#[global] Instance list_ord_laws `{OrdLaws A} : OrdLaws (list A).
Proof.
  split; unfold cmp, list_ord.
  - induction x as [|x l IH]; intros [|y k]; simpl; try done.
    destruct (cmp x y) eqn:E; [|done..]. intros ?. by rewrite (cmp_eq _ _ E), (IH k).
  - induction x as [|x l IH]; simpl; [done|]. by rewrite cmp_refl.
  - induction x as [|x l IH]; intros [|y k]; simpl; try done.
    rewrite (cmp_anti x y). destruct (cmp x y); simpl; [apply IH|done..].
  - induction x as [|x l IH]; intros [|y k] [|z m]; simpl; try done.
    destruct (cmp x y) eqn:E1; [apply cmp_eq in E1 as ->| |done];
      destruct (cmp y z) eqn:E2; try done; try apply IH.
    + apply cmp_eq in E2 as <-. by rewrite E1.
    + by rewrite (cmp_lt_trans _ _ _ E1 E2).
Qed.

(** ** Ordered collections

    [BTreeSet] and [BTreeMap] are finite sets and maps whose iteration is in key
    order. *)

Section btree.
Context `{Countable A} `{!Ord A}.

Definition btree_iter `{!OrdLaws A} (s : gset A) : list A := merge_sort ord_le (elements s).
End btree.

(** [slice::windows(2).all(p)]. *)
Fixpoint windows2_all {A} (p : A → A → bool) (l : list A) : bool :=
  match l with
  | x :: (y :: _) as k => p x y && windows2_all p k
  | _ => true
  end.

(** [slice::binary_search_by_key(..).is_ok()]: the half-open interval
    [lo, lo + size) shrinks until the key is met or the interval is empty. *)
Fixpoint binary_search {A K} `{Ord K} (fuel : nat) (key : A → K) (l : list A) (k : K)
    (lo size : nat) : option nat :=
  match fuel with
  | O => None
  | S fuel =>
      match size with
      | O => None
      | S _ =>
          let half := Nat.div2 size in
          match l !! (lo + half)%nat with
          | None => None
          | Some x =>
              match cmp (key x) k with
              | Eq => Some (lo + half)%nat
              | Lt => binary_search fuel key l k (S (lo + half)) (size - half - 1)
              | Gt => binary_search fuel key l k lo half
              end
          end
      end
  end.

(** [slice::strip_prefix]. *)
Fixpoint strip_prefix `{EqDecision A} (prefix l : list A) : option (list A) :=
  match prefix, l with
  | [], l => Some l
  | x :: prefix, y :: l => if decide (x = y) then strip_prefix prefix l else None
  | _ :: _, [] => None
  end.

(** [Iterator::position]. *)
Fixpoint position {A} (p : A → bool) (l : list A) : option nat :=
  match l with
  | [] => None
  | x :: l => if p x then Some O else S <$> position p l
  end.

(** [slice::chunks(n)], for a positive [n]. *)
Fixpoint chunks_fuel {A} (fuel n : nat) (l : list A) : list (list A) :=
  match fuel, l with
  | S fuel, _ :: _ => take n l :: chunks_fuel fuel n (drop n l)
  | _, _ => []
  end.
Definition chunks {A} (n : nat) (l : list A) : list (list A) := chunks_fuel (length l) n l.

(** ** Proof automation *)

Lemma result_bind_Ok {A B E} (r : Result A E) (k : A → Result B E) b :
  result_bind r k = Ok b → ∃ a, r = Ok a ∧ k a = Ok b.
Proof. destruct r; simpl; [eauto|done]. Qed.

Lemma ok_or_Ok {A E} (o : option A) (e : E) a : ok_or o e = Ok a → o = Some a.
Proof. destruct o; simpl; congruence. Qed.

(** [inv_ok] breaks a hypothesis [r = Ok a] about a chain of [let?]s, early
    returns and [ok_or]s into the facts each of its steps established. *)
Ltac inv_ok_step :=
  match goal with
  | H : result_bind _ _ = Ok _ |- _ =>
      let E := fresh "Hok" in
      apply result_bind_Ok in H as (? & E & H)
  | H : ok_or _ _ = Ok _ |- _ => apply ok_or_Ok in H
  | H : Ok _ = Ok _ |- _ => injection H as H; subst
  | H : Err _ = Ok _ |- _ => discriminate H
  | H : Some _ = Some _ |- _ => injection H as H; subst
  | H : None = Some _ |- _ => discriminate H
  | H : (if ?b then Err _ else _) = Ok _ |- _ => destruct b eqn:?; [discriminate H|]
  | H : (if ?b then _ else Err _) = Ok _ |- _ => destruct b eqn:?; [|discriminate H]
  | u : unit |- _ => destruct u
  end.
Ltac inv_ok := repeat (inv_ok_step; cbv beta iota in *).

(** [bool_hyps] turns boolean facts into propositions. *)
Ltac bool_hyps :=
  repeat match goal with
  | H : (_ && _)%bool = true |- _ => apply andb_prop in H as [? ?]
  | H : (_ || _)%bool = false |- _ => apply orb_false_elim in H as [? ?]
  | H : negb _ = true |- _ => apply negb_true_iff in H
  | H : negb _ = false |- _ => apply negb_false_iff in H
  | H : bool_decide _ = true |- _ => apply bool_decide_eq_true_1 in H
  | H : bool_decide _ = false |- _ => apply bool_decide_eq_false_1 in H
  end.

(** [solve_sub] proves an inclusion between concatenations. *)
Ltac solve_sub := let x := fresh "x" in intros x; rewrite ?elem_of_app; tauto.

Create HintDb object_log.
#[export] Hint Unfold in_u64 : object_log.

(** ** Shared lemmas *)

Lemma len_nonneg {A} (l : list A) : 0 ≤ len l.
Proof. unfold len. lia. Qed.

Lemma len_app {A} (l k : list A) : len (l ++ k) = len l + len k.
Proof. unfold len. rewrite length_app. lia. Qed.

Lemma len_cons {A} (x : A) l : len (x :: l) = 1 + len l.
Proof. unfold len. simpl. lia. Qed.

Lemma forallb_Forall {A} (f : A → bool) l : forallb f l = true ↔ Forall (λ x, f x = true) l.
Proof. rewrite forallb_forall, Forall_forall. by setoid_rewrite list_elem_of_In. Qed.

Lemma checked_add_Some max a b c : checked_add_within max a b = Some c → c = a + b ∧ a + b ≤ max.
Proof. unfold checked_add_within. destruct (_ <=? _) eqn:E; [|done]. intros [= <-]. lia. Qed.

Lemma u64_try_from_Some z y : u64_try_from z = Some y → y = z ∧ 0 ≤ z ≤ u64_max.
Proof. unfold u64_try_from, in_u64. destruct (_ && _) eqn:E; [|done]. intros [= ->]. lia. Qed.

Lemma usize_try_from_Some `{Target} z y : usize_try_from z = Some y → y = z ∧ 0 ≤ z ≤ usize_max.
Proof. unfold usize_try_from, in_usize. destruct (_ && _) eqn:E; [|done]. intros [= ->]. lia. Qed.

Lemma usize_max_le_u64 `{Target} : usize_max ≤ u64_max.
Proof. destruct usize_max_cases as [->| ->]; unfold u32_max, u64_max; lia. Qed.

Lemma strip_prefix_Some `{EqDecision A} (p l k : list A) :
  strip_prefix p l = Some k ↔ l = p ++ k.
Proof.
  revert l. induction p as [|x p IH]; intros l; simpl; [split; congruence|].
  destruct l as [|y l]; [split; congruence|]. case_decide as Hd.
  - subst. rewrite IH. split; congruence.
  - split; congruence.
Qed.

Lemma position_Some {A} (p : A → bool) l i :
  position p l = Some i ↔
  ∃ x, l !! i = Some x ∧ p x = true ∧ ∀ j y, (j < i)%nat → l !! j = Some y → p y = false.
Proof.
  revert i. induction l as [|x l IH]; intros i; simpl.
  { split; [done|]. by intros (? & ? & _). }
  destruct (p x) eqn:Ep.
  - split.
    + intros [= <-]. exists x. split_and!; try done. lia.
    + intros (y & Hy & Hpy & Hb). destruct i as [|i]; [done|].
      specialize (Hb 0%nat x ltac:(lia) eq_refl). congruence.
  - rewrite fmap_Some. setoid_rewrite IH. split.
    + intros (j & (y & Hy & Hpy & Hb) & ->). exists y. split_and!; try done.
      intros [|j'] z ? Hz; simpl in Hz; [congruence|]. eapply Hb; [|done]. lia.
    + intros (y & Hy & Hpy & Hb). destruct i as [|i]; simpl in Hy; [congruence|].
      exists i. split; [|done]. exists y. split_and!; try done.
      intros j z ? Hz. apply (Hb (S j) z); [lia|done].
Qed.

Lemma try_map_Ok {A B E} (f : A → Result B E) l k :
  try_map f l = Ok k ↔ Forall2 (λ x y, f x = Ok y) l k.
Proof.
  revert k. induction l as [|x l IH]; intros k; simpl.
  - split; [intros [= <-]; constructor|]. by intros ->%Forall2_nil_inv_l.
  - split.
    + intros H. inv_ok. constructor; [done|]. by apply IH.
    + intros H. inversion H as [|? y ? ys Hx Hl]; subst. rewrite Hx; simpl.
      by rewrite (proj2 (IH _) Hl).
Qed.

Lemma try_map_fmap {A B C E} (f : B → Result C E) (g : A → B) (h : A → C) l :
  (∀ x, x ∈ l → f (g x) = Ok (h x)) → try_map f (g <$> l) = Ok (h <$> l).
Proof.
  intros Hf. rewrite try_map_Ok. induction l as [|x l IH]; simpl; constructor.
  - apply Hf. left.
  - apply IH. intros y Hy. apply Hf. by right.
Qed.

Lemma concat_chunks {A} n (l : list A) : (0 < n)%nat → concat (chunks n l) = l.
Proof.
  intros Hn. unfold chunks.
  assert (∀ (fuel : nat) (k : list A), (length k ≤ fuel)%nat → concat (chunks_fuel fuel n k) = k) as Hf; [|by apply Hf].
  clear l. induction fuel as [|fuel IH]; intros [|x l] Hl; simpl in *; try done; [lia|].
  destruct n as [|n]; [lia|]. simpl. f_equal. rewrite IH, take_drop; [done|]. rewrite length_drop. lia.
Qed.

Lemma chunks_bound {A} n (l c : list A) : c ∈ chunks n l → (length c ≤ n)%nat.
Proof.
  unfold chunks. generalize (length l). intros fuel. revert l.
  induction fuel as [|fuel IH]; intros [|x l]; simpl; try (by intros ?%elem_of_nil).
  intros [->|Hc]%elem_of_cons; [rewrite length_take; lia|by eapply IH].
Qed.

(** *** Sorting *)

Section sorting.
Context `{OrdLaws A}.

Definition strictly_sorted (l : list A) : Prop := StronglySorted (λ x y, ord_lt x y = true) l.

Lemma ord_lt_le (x y : A) : ord_lt x y = true → ord_le x y.
Proof. unfold ord_lt, ord_le. by destruct (cmp x y). Qed.

Lemma windows2_all_sorted {B} (key : B → A) (l : list B) :
  windows2_all (λ x y, ord_lt (key x) (key y)) l = true ↔ strictly_sorted (key <$> l).
Proof.
  unfold strictly_sorted. induction l as [|x l IH]; simpl; [split; [constructor|done]|].
  destruct l as [|y l]; [split; [repeat constructor|done]|].
  rewrite andb_true_iff, IH. split.
  - intros [Hxy Hs]. constructor; [done|]. simpl in *.
    inversion_clear Hs as [|? ? Hs' Hall]. constructor; [done|].
    eapply Forall_impl; [done|]. intros z Hz. by eapply ord_lt_trans.
  - intros Hs. inversion_clear Hs as [|? ? Hs' Hall]. split; [|done].
    by inversion_clear Hall.
Qed.

Lemma strictly_sorted_le (l : list A) : strictly_sorted l → StronglySorted ord_le l.
Proof.
  induction 1 as [|x l Hs IH Hall]; constructor; [done|].
  eapply Forall_impl; [done|]. intros. by apply ord_lt_le.
Qed.

Lemma strictly_sorted_unique (l k : list A) :
  strictly_sorted l → strictly_sorted k → l ≡ₚ k → l = k.
Proof.
  intros Hl Hk Hp.
  by eapply (StronglySorted_unique ord_le); [apply strictly_sorted_le..|].
Qed.

Lemma strictly_sorted_NoDup (l : list A) : strictly_sorted l → NoDup l.
Proof.
  induction 1 as [|x l Hs IH Hall]; constructor; [|done].
  intros Hin. rewrite Forall_forall in Hall. specialize (Hall x Hin).
  by rewrite ord_lt_irrefl in Hall.
Qed.

Lemma sorted_NoDup_strictly (l : list A) : Sorted ord_le l → NoDup l → strictly_sorted l.
Proof.
  intros Hs%Sorted_StronglySorted Hnd; [|apply _].
  induction Hs as [|x l Hs IH Hall]; [constructor|].
  apply NoDup_cons in Hnd as [Hx Hnd]. constructor; [by apply IH|].
  rewrite Forall_forall in *. intros y Hy. specialize (Hall y Hy).
  unfold ord_lt, ord_le in *. destruct (cmp x y) eqn:E; try done.
  apply cmp_eq in E as ->. done.
Qed.

Context `{!EqDecision A, !Countable A}.

Lemma btree_iter_elements (s : gset A) : btree_iter s ≡ₚ elements s.
Proof. apply merge_sort_Permutation. Qed.

Lemma btree_iter_sorted (s : gset A) : strictly_sorted (btree_iter s).
Proof.
  apply sorted_NoDup_strictly.
  - apply Sorted_merge_sort, _.
  - rewrite btree_iter_elements. apply NoDup_elements.
Qed.

(** Building a set from its own sorted iteration gives it back, and iterating a
    set built from a strictly sorted list gives the list back. *)
Lemma btree_iter_list (l : list A) :
  strictly_sorted l → btree_iter (list_to_set l : gset A) = l.
Proof.
  intros Hs. apply strictly_sorted_unique; [apply btree_iter_sorted|done|].
  rewrite btree_iter_elements. apply elements_list_to_set. by apply strictly_sorted_NoDup.
Qed.

Lemma list_to_set_btree_iter (s : gset A) : list_to_set (btree_iter s) = s.
Proof. apply set_eq. intros x. rewrite elem_of_list_to_set, btree_iter_elements. apply elem_of_elements. Qed.
End sorting.

(** ** Big-endian integers: [to_be_bytes] and [from_be_bytes] *)

Definition byte_of (z : Z) : byte := default x00 (Byte.of_N (Z.to_N (z mod 256))).

Fixpoint be_bytes (k : nat) (n : Z) : bytes :=
  match k with
  | O => []
  | S k => byte_of (n / 256 ^ Z.of_nat k) :: be_bytes k n
  end.

Definition of_be_bytes (b : bytes) : Z := foldl (λ acc x, acc * 256 + byte_val x) 0 b.

Lemma byte_val_of z : byte_val (byte_of z) = z mod 256.
Proof.
  unfold byte_of, byte_val. pose proof (Z.mod_pos_bound z 256 ltac:(lia)).
  destruct (Byte.of_N (Z.to_N (z mod 256))) as [b|] eqn:E; simpl.
  - apply Byte.to_of_N in E. rewrite E. lia.
  - apply Byte.of_N_None_iff in E. lia.
Qed.

Lemma length_be_bytes k n : length (be_bytes k n) = k.
Proof. induction k; simpl; congruence. Qed.

Lemma of_be_bytes_foldl b acc :
  foldl (λ acc x, acc * 256 + byte_val x) acc b = acc * 256 ^ len b + of_be_bytes b.
Proof.
  unfold of_be_bytes. revert acc. induction b as [|x b IH]; intros acc; cbn [foldl]; [unfold len; simpl; lia|].
  rewrite (IH (acc * 256 + _)), (IH (0 * 256 + _)), len_cons.
  rewrite Z.pow_add_r by (pose proof (len_nonneg b); lia). lia.
Qed.

Lemma of_be_bytes_bounds b : 0 ≤ of_be_bytes b < 256 ^ len b.
Proof.
  induction b as [|x b IH]; [done|]. unfold of_be_bytes. cbn [foldl].
  rewrite of_be_bytes_foldl, len_cons.
  rewrite Z.pow_add_r by (pose proof (len_nonneg b); lia).
  pose proof (byte_val_range x). nia.
Qed.

Lemma of_be_bytes_be k n : of_be_bytes (be_bytes k n) = n mod 256 ^ Z.of_nat k.
Proof.
  induction k as [|k IH]; simpl be_bytes.
  { by rewrite Z.mod_1_r. }
  unfold of_be_bytes. cbn [foldl].
  rewrite of_be_bytes_foldl, IH, byte_val_of. unfold len. rewrite length_be_bytes.
  replace (Z.of_nat (S k)) with (Z.of_nat k + 1) by lia.
  rewrite Z.pow_add_r, Z.pow_1_r by lia.
  rewrite (Z.rem_mul_r n (256 ^ Z.of_nat k) 256) by lia. lia.
Qed.
