(* ===== verification/Types.v ===== *)
(** * Data types of the crate root

    The identifiers, references, limits and errors of [src/lib.rs], the durable
    [Options] of [src/log.rs] and the physical keys of [src/store.rs], with the
    validation each of them carries.  BLAKE3 is third-party code and is a parameter
    of the model. *)

From S2P Require Import Prelude.

(** ** Errors *)

(** The variants of [object_store::Error] that the crate distinguishes. *)
Inductive StoreError :=
  | SGeneric
  | SNotFound
  | SAlreadyExists
  | SPrecondition
  | SNotModified
  | SNotSupported
  | SNotImplemented
  | SOther.

Inductive Error :=
  | LogNotFound
  | InvalidLogId
  | InvalidDigest
  | InvalidFormat (message : string)
  | CorruptObject
  | ViewExpired
  | InvalidStagedObject
  | CollectionFence
  | UnsupportedBackend (name : string)
  | LimitExceeded (name : string)
  | ConfigurationMismatch (name : string)
  | ERequestDenied
  | EStore (e : StoreError).

Definition invalid (message : string) : Error := InvalidFormat message.

#[global] Instance StoreError_eq_dec : EqDecision StoreError.
Proof. solve_decision. Defined.
#[global] Instance Error_eq_dec : EqDecision Error.
Proof. solve_decision. Defined.

(** ** Digests *)

Definition DIGEST_LEN : Z := 32.
Definition UUID_LEN : Z := 16.
Definition MAX_LOG_ID_LEN : Z := 128.

Record Digest := MkDigest { digest_bytes : bytes }.

(** BLAKE3 maps any bytes to a 32-byte digest. *)
Class Blake3 := {
  blake3_hash : bytes → bytes;
  blake3_hash_len b : len (blake3_hash b) = DIGEST_LEN
}.

(** [Digest::of]. *)
Definition digest_of `{Blake3} (b : bytes) : Digest := MkDigest (blake3_hash b).

#[global] Instance Digest_eq_dec : EqDecision Digest.
Proof. solve_decision. Defined.
#[global] Instance Digest_countable : Countable Digest :=
  inj_countable' digest_bytes MkDigest (λ '(MkDigest _), eq_refl).
#[global] Instance Digest_ord : Ord Digest := proj_ord digest_bytes.
#[global] Instance Digest_ord_laws : OrdLaws Digest.
Proof. apply proj_ord_laws. by intros [] []; simpl; intros ->. Qed.

(** ** Identifiers *)

(** A [uuid::Uuid] is 16 bytes, compared as a byte array. *)
Record Uuid := MkUuid { uuid_bytes : bytes }.

#[global] Instance Uuid_eq_dec : EqDecision Uuid.
Proof. solve_decision. Defined.
#[global] Instance Uuid_countable : Countable Uuid :=
  inj_countable' uuid_bytes MkUuid (λ '(MkUuid _), eq_refl).
#[global] Instance Uuid_ord : Ord Uuid := proj_ord uuid_bytes.
#[global] Instance Uuid_ord_laws : OrdLaws Uuid.
Proof. apply proj_ord_laws. by intros [] []; simpl; intros ->. Qed.

Record TransactionId := MkTransactionId { transaction_uuid : Uuid }.
Record RetentionId := MkRetentionId { retention_uuid : Uuid }.
Record StorageId := MkStorageId { storage_uuid : Uuid }.

#[global] Instance TransactionId_eq_dec : EqDecision TransactionId.
Proof. solve_decision. Defined.
#[global] Instance TransactionId_countable : Countable TransactionId :=
  inj_countable' transaction_uuid MkTransactionId (λ '(MkTransactionId _), eq_refl).
#[global] Instance RetentionId_eq_dec : EqDecision RetentionId.
Proof. solve_decision. Defined.
#[global] Instance RetentionId_countable : Countable RetentionId :=
  inj_countable' retention_uuid MkRetentionId (λ '(MkRetentionId _), eq_refl).
#[global] Instance RetentionId_ord : Ord RetentionId := proj_ord retention_uuid.
#[global] Instance RetentionId_ord_laws : OrdLaws RetentionId.
Proof. apply proj_ord_laws. by intros [] []; simpl; intros ->. Qed.
#[global] Instance StorageId_eq_dec : EqDecision StorageId.
Proof. solve_decision. Defined.
#[global] Instance StorageId_countable : Countable StorageId :=
  inj_countable' storage_uuid MkStorageId (λ '(MkStorageId _), eq_refl).
#[global] Instance StorageId_ord : Ord StorageId := proj_ord storage_uuid.
#[global] Instance StorageId_ord_laws : OrdLaws StorageId.
Proof. apply proj_ord_laws. by intros [] []; simpl; intros ->. Qed.

(** A log identifier is a [String]; its validation works on the UTF-8 bytes. *)
Record LogId := MkLogId { log_id_str : bytes }.

#[global] Instance LogId_eq_dec : EqDecision LogId.
Proof. solve_decision. Defined.

Definition is_ascii_alphanumeric (b : byte) : bool :=
  let v := byte_val b in
  ((48 <=? v) && (v <=? 57)) || ((65 <=? v) && (v <=? 90)) || ((97 <=? v) && (v <=? 122)).

(** [byte.is_ascii_alphanumeric() || matches!(byte, b'-' | b'_' | b'.')]. *)
Definition log_id_byte (b : byte) : bool :=
  is_ascii_alphanumeric b
  || (byte_val b =? 45) || (byte_val b =? 95) || (byte_val b =? 46).

(** The byte [b'.']. *)
Definition dot : byte := Init.Byte.x2e.

(** [LogId::new]. *)
Definition log_id_new (value : bytes) : Result LogId Error :=
  let valid :=
    negb (bool_decide (value = []))
    && (len value <=? MAX_LOG_ID_LEN)
    && forallb log_id_byte value in
  if negb valid || bool_decide (value = [dot]) || bool_decide (value = [dot; dot])
  then Err InvalidLogId
  else Ok (MkLogId value).

(** ** References *)

Inductive ObjectKind := Blob | Node | Checkpoint.

#[global] Instance ObjectKind_eq_dec : EqDecision ObjectKind.
Proof. solve_decision. Defined.

Record ObjectRef := MkObjectRef {
  obj_kind : ObjectKind;
  obj_storage_id : StorageId;
  obj_digest : Digest;
  obj_len : Z;
  obj_subtree_objects : Z
}.

#[global] Instance ObjectRef_eq_dec : EqDecision ObjectRef.
Proof. solve_decision. Defined.

(** [ObjectRef::validate_count]. *)
Definition validate_count (o : ObjectRef) : Result () Error :=
  if (obj_subtree_objects o =? 0)
     || (bool_decide (obj_kind o = Blob) && negb (obj_subtree_objects o =? 1))
  then Err CorruptObject
  else Ok ().

Record CommitRef := MkCommitRef {
  commit_sequence : Z;
  commit_transaction_id : TransactionId;
  commit_storage_id : StorageId;
  commit_digest : Digest;
  commit_len : Z
}.

#[global] Instance CommitRef_eq_dec : EqDecision CommitRef.
Proof. solve_decision. Defined.

Record CheckpointRef := MkCheckpointRef {
  through_sequence : Z;
  through_commit : Digest;
  checkpoint_object : ObjectRef
}.

#[global] Instance CheckpointRef_eq_dec : EqDecision CheckpointRef.
Proof. solve_decision. Defined.

(** ** Options *)

Record Options := MkOptions {
  max_tail_entries : Z;
  resolution_window : Z;
  max_inline_operation_bytes : Z;
  max_inline_result_bytes : Z;
  max_object_refs : Z;
  max_object_bytes : Z;
  max_commit_bytes : Z;
  max_head_bytes : Z;
  max_checkpoint_bytes : Z;
  max_retention_ids : Z;
  max_collection_objects : Z;
  max_collection_plan_bytes : Z
}.

#[global] Instance Options_eq_dec : EqDecision Options.
Proof. solve_decision. Defined.

(** [Options::default]. *)
Definition options_default : Options := {|
  max_tail_entries := 1024;
  resolution_window := 1024;
  max_inline_operation_bytes := 64 * 1024;
  max_inline_result_bytes := 4 * 1024;
  max_object_refs := 1024;
  max_object_bytes := 64 * 1024 * 1024;
  max_commit_bytes := 1024 * 1024;
  max_head_bytes := 256 * 1024;
  max_checkpoint_bytes := 16 * 1024 * 1024;
  max_retention_ids := 1024;
  max_collection_objects := 100000;
  max_collection_plan_bytes := 16 * 1024 * 1024
|}.

(** ** Physical keys *)

Inductive ImmutableKind := KCommit | KBlob | KNode | KCheckpoint | KCollectionPlan.

#[global] Instance ImmutableKind_eq_dec : EqDecision ImmutableKind.
Proof. solve_decision. Defined.

(** Derived [Ord] on an enum compares the declaration order of its variants. *)
Definition immutable_kind_rank (k : ImmutableKind) : Z :=
  match k with KCommit => 0 | KBlob => 1 | KNode => 2 | KCheckpoint => 3 | KCollectionPlan => 4 end.
#[global] Instance ImmutableKind_ord : Ord ImmutableKind := proj_ord immutable_kind_rank.
#[global] Instance ImmutableKind_ord_laws : OrdLaws ImmutableKind.
Proof. apply proj_ord_laws. by intros [] []. Qed.
#[global] Instance ImmutableKind_countable : Countable ImmutableKind.
Proof.
  refine (inj_countable immutable_kind_rank
    (λ z, match z with 0 => Some KCommit | 1 => Some KBlob | 2 => Some KNode
                     | 3 => Some KCheckpoint | 4 => Some KCollectionPlan | _ => None end) _).
  by intros [].
Defined.

Record ImmutableKey := MkImmutableKey {
  key_incarnation : Uuid;
  key_kind : ImmutableKind;
  key_storage_id : StorageId;
  key_digest : Digest
}.

#[global] Instance ImmutableKey_eq_dec : EqDecision ImmutableKey.
Proof. solve_decision. Defined.

Definition immutable_key_tuple (k : ImmutableKey) : Uuid * (ImmutableKind * (StorageId * Digest)) :=
  (key_incarnation k, (key_kind k, (key_storage_id k, key_digest k))).
#[global] Instance ImmutableKey_ord : Ord ImmutableKey := proj_ord immutable_key_tuple.
#[global] Instance ImmutableKey_ord_laws : OrdLaws ImmutableKey.
Proof. apply proj_ord_laws. by intros [] []; unfold immutable_key_tuple; simpl; intros [= -> -> -> ->]. Qed.
#[global] Instance ImmutableKey_countable : Countable ImmutableKey :=
  inj_countable' immutable_key_tuple (λ '(i, (k, (s, d))), MkImmutableKey i k s d)
    (λ '(MkImmutableKey _ _ _ _), eq_refl).

Inductive StoreKey := HeadKey | Immutable (key : ImmutableKey).

#[global] Instance StoreKey_eq_dec : EqDecision StoreKey.
Proof. solve_decision. Defined.

(** ** Collection plans *)

Record CollectionPlanRef := MkCollectionPlanRef {
  plan_storage_id : StorageId;
  plan_digest : Digest;
  plan_len : Z
}.

#[global] Instance CollectionPlanRef_eq_dec : EqDecision CollectionPlanRef.
Proof. solve_decision. Defined.

Record CollectionCandidate := MkCollectionCandidate {
  candidate_key : ImmutableKey;
  candidate_size : Z
}.

#[global] Instance CollectionCandidate_eq_dec : EqDecision CollectionCandidate.
Proof. solve_decision. Defined.

Record CollectionPlan := MkCollectionPlan {
  plan_log_id : LogId;
  plan_collection_epoch : Z;
  plan_candidates : list CollectionCandidate
}.

#[global] Instance CollectionPlan_eq_dec : EqDecision CollectionPlan.
Proof. solve_decision. Defined.

(** ** Widths

    What Rust's types guarantee of every value: fixed array lengths and unsigned
    ranges. *)

Definition digest_wf (d : Digest) : bool := len (digest_bytes d) =? DIGEST_LEN.
Definition uuid_wf (u : Uuid) : bool := len (uuid_bytes u) =? UUID_LEN.
Definition log_id_wf (id : LogId) : bool :=
  match log_id_new (log_id_str id) with Ok _ => true | Err _ => false end.
Definition object_ref_wf (o : ObjectRef) : bool :=
  uuid_wf (storage_uuid (obj_storage_id o)) && digest_wf (obj_digest o)
  && in_u64 (obj_len o) && in_u64 (obj_subtree_objects o).
Definition commit_ref_wf (c : CommitRef) : bool :=
  in_u64 (commit_sequence c) && uuid_wf (transaction_uuid (commit_transaction_id c))
  && uuid_wf (storage_uuid (commit_storage_id c)) && digest_wf (commit_digest c)
  && in_u64 (commit_len c).
Definition checkpoint_ref_wf (c : CheckpointRef) : bool :=
  in_u64 (through_sequence c) && digest_wf (through_commit c) && object_ref_wf (checkpoint_object c).
Definition plan_ref_wf (p : CollectionPlanRef) : bool :=
  uuid_wf (storage_uuid (plan_storage_id p)) && digest_wf (plan_digest p) && in_u64 (plan_len p).
Definition immutable_key_wf (k : ImmutableKey) : bool :=
  uuid_wf (key_incarnation k) && uuid_wf (storage_uuid (key_storage_id k)) && digest_wf (key_digest k).
Definition candidate_wf (c : CollectionCandidate) : bool :=
  immutable_key_wf (candidate_key c) && in_u64 (candidate_size c).
Definition options_wf `{Target} (o : Options) : bool :=
  in_usize (max_tail_entries o) && in_usize (resolution_window o)
  && in_usize (max_inline_operation_bytes o) && in_usize (max_inline_result_bytes o)
  && in_usize (max_object_refs o) && in_usize (max_object_bytes o)
  && in_usize (max_commit_bytes o) && in_usize (max_head_bytes o)
  && in_usize (max_checkpoint_bytes o) && in_usize (max_retention_ids o)
  && in_usize (max_collection_objects o) && in_usize (max_collection_plan_bytes o).

(** ** Lemmas *)

(** A valid identifier is a safe path segment: 1 to 128 bytes from a fixed
    alphabet, never a relative directory. *)
Lemma log_id_new_Ok value id :
  log_id_new value = Ok id ↔
  id = MkLogId value ∧ 1 ≤ len value ≤ MAX_LOG_ID_LEN
  ∧ Forall (λ b, log_id_byte b = true) value
  ∧ value ≠ [dot] ∧ value ≠ [dot; dot].
Proof.
  unfold log_id_new. rewrite (Forall_forall _ value).
  assert (Hall : forallb log_id_byte value = true ↔ ∀ x, x ∈ value → log_id_byte x = true).
  { rewrite forallb_forall. by setoid_rewrite list_elem_of_In. }
  split.
  - intros H. inv_ok. bool_hyps. rewrite <-Hall. split_and!; try done; try lia.
    destruct value; [done|]. rewrite len_cons. pose proof (len_nonneg value). lia.
  - intros (-> & Hlen & Hb & H1 & H2). apply Hall in Hb. rewrite Hb.
    assert (value ≠ []) by (intros ->; unfold len in Hlen; simpl in Hlen; lia).
    rewrite !bool_decide_eq_false_2 by done.
    by rewrite (proj2 (Z.leb_le _ _)) by lia.
Qed.

Lemma log_id_new_same value id : log_id_new value = Ok id → log_id_str id = value.
Proof. by intros [-> _]%log_id_new_Ok. Qed.

Lemma validate_count_Ok o :
  validate_count o = Ok () ↔
  obj_subtree_objects o ≠ 0 ∧ (obj_kind o = Blob → obj_subtree_objects o = 1).
Proof.
  unfold validate_count. split.
  - intros H. inv_ok. bool_hyps. split; [lia|]. intros HB.
    rewrite (bool_decide_eq_true_2 _ HB) in *. simpl in *. bool_hyps. lia.
  - intros [H1 H2]. destruct (decide (obj_kind o = Blob)) as [HB|HB].
    + rewrite H2 by done. by rewrite andb_false_r.
    + rewrite (bool_decide_eq_false_2 _ HB). simpl. by rewrite orb_false_r, (proj2 (Z.eqb_neq _ _)).
Qed.

Lemma digest_of_wf `{Blake3} b : digest_wf (digest_of b) = true.
Proof. unfold digest_wf, digest_of. simpl. by rewrite blake3_hash_len. Qed.
#[export] Hint Resolve digest_of_wf : object_log.

Lemma log_id_wf_new id : log_id_wf id = true → log_id_new (log_id_str id) = Ok id.
Proof.
  unfold log_id_wf. destruct (log_id_new _) as [id'|] eqn:E; [|done]. intros _.
  apply log_id_new_Ok in E as [-> _]. by destruct id.
Qed.

Lemma log_id_new_wf value id : log_id_new value = Ok id → log_id_wf id = true.
Proof. intros Hn. unfold log_id_wf. by rewrite (log_id_new_same _ _ Hn), Hn. Qed.
