(* ===== verification/Head.v ===== *)
(** * The mutable head

    The decoded index [Head] of [src/format.rs] with its validation, and the pure
    head transformations of [src/log.rs]: appending a commit, installing a
    checkpoint, retention changes, installing and clearing a collection fence, and
    the classification of an uncertain publication against a later head. *)

From S2P Require Import Prelude Types.

Record Head := MkHead {
  head_log_id : LogId;
  head_incarnation : Uuid;
  head_options : Options;
  head_generation : Z;
  head_next_sequence : Z;
  head_checkpoint : option CheckpointRef;
  head_tail : list CommitRef;
  head_recent_outcomes : list CommitRef;
  head_collection_epoch : Z;
  head_active_plan : option CollectionPlanRef;
  head_retention_ids : gset RetentionId
}.

#[global] Instance Head_eq_dec : EqDecision Head.
Proof. solve_decision. Defined.

(** Field assignments [head.field = value]. *)
Definition set_generation (g : Z) (h : Head) : Head :=
  MkHead (head_log_id h) (head_incarnation h) (head_options h) g (head_next_sequence h)
    (head_checkpoint h) (head_tail h) (head_recent_outcomes h) (head_collection_epoch h)
    (head_active_plan h) (head_retention_ids h).
Definition set_active_plan (p : option CollectionPlanRef) (h : Head) : Head :=
  MkHead (head_log_id h) (head_incarnation h) (head_options h) (head_generation h)
    (head_next_sequence h) (head_checkpoint h) (head_tail h) (head_recent_outcomes h)
    (head_collection_epoch h) p (head_retention_ids h).
Definition set_collection_epoch (e : Z) (h : Head) : Head :=
  MkHead (head_log_id h) (head_incarnation h) (head_options h) (head_generation h)
    (head_next_sequence h) (head_checkpoint h) (head_tail h) (head_recent_outcomes h)
    e (head_active_plan h) (head_retention_ids h).
Definition set_retention_ids (ids : gset RetentionId) (h : Head) : Head :=
  MkHead (head_log_id h) (head_incarnation h) (head_options h) (head_generation h)
    (head_next_sequence h) (head_checkpoint h) (head_tail h) (head_recent_outcomes h)
    (head_collection_epoch h) (head_active_plan h) ids.
Definition set_log (next : Z) (checkpoint : option CheckpointRef) (tail outcomes : list CommitRef)
    (h : Head) : Head :=
  MkHead (head_log_id h) (head_incarnation h) (head_options h) (head_generation h)
    next checkpoint tail outcomes (head_collection_epoch h) (head_active_plan h)
    (head_retention_ids h).

(** [Head::empty]. *)
Definition head_empty (log_id : LogId) (incarnation : Uuid) (options : Options) : Head := {|
  head_log_id := log_id;
  head_incarnation := incarnation;
  head_options := options;
  head_generation := 0;
  head_next_sequence := 0;
  head_checkpoint := None;
  head_tail := [];
  head_recent_outcomes := [];
  head_collection_epoch := 0;
  head_active_plan := None;
  head_retention_ids := ∅
|}.

(** [Head::tip]. *)
Definition tip (h : Head) : option Digest :=
  match last (head_tail h) with
  | Some commit => Some (commit_digest commit)
  | None => through_commit <$> head_checkpoint h
  end.

(** [Head::has_same_publication_base]. *)
Definition has_same_publication_base (self other : Head) : bool :=
  bool_decide (head_log_id self = head_log_id other)
  && bool_decide (head_incarnation self = head_incarnation other)
  && bool_decide (head_options self = head_options other)
  && (head_next_sequence self =? head_next_sequence other)
  && bool_decide (head_checkpoint self = head_checkpoint other)
  && bool_decide (head_tail self = head_tail other)
  && bool_decide (head_recent_outcomes self = head_recent_outcomes other)
  && (head_collection_epoch self =? head_collection_epoch other)
  && bool_decide (head_active_plan self = head_active_plan other).

(** [Head::has_checkpoint_append_base]. *)
Definition has_checkpoint_append_base (self other : Head) : bool :=
  match strip_prefix (head_tail self) (head_tail other) with
  | None => false
  | Some appended =>
      bool_decide (head_log_id self = head_log_id other)
      && bool_decide (head_incarnation self = head_incarnation other)
      && bool_decide (head_options self = head_options other)
      && bool_decide (head_checkpoint self = head_checkpoint other)
      && bool_decide (head_recent_outcomes self = head_recent_outcomes other)
      && (head_collection_epoch self =? head_collection_epoch other)
      && bool_decide (head_active_plan self = head_active_plan other)
      && bool_decide
           ((u64_try_from (len appended) ≫= u64_checked_add (head_next_sequence self))
            = Some (head_next_sequence other))
  end.

(** [Head::advance_generation]. *)
Definition advance_generation (h : Head) : Result Head Error :=
  let? g := ok_or (u64_checked_add (head_generation h) 1) (LimitExceeded "head generation") in
  Ok (set_generation g h).

(** ** Validation *)

(** [validate_commit_sequence], from offset [offset] of the slice. *)
Fixpoint validate_commit_sequence (commits : list CommitRef) (start offset : Z)
    (transaction_ids : gset TransactionId) : Result (gset TransactionId) Error :=
  match commits with
  | [] => Ok transaction_ids
  | commit :: rest =>
      let? off := ok_or (u64_try_from offset) (invalid "commit offset exceeds u64") in
      let? expected := ok_or (u64_checked_add start off)
                         (invalid "head commit sequence cannot advance") in
      if negb (commit_sequence commit =? expected)
      then Err (invalid "head commits are not contiguous")
      else if bool_decide (commit_transaction_id commit ∈ transaction_ids)
      then Err (invalid "head contains a duplicate transaction")
      else validate_commit_sequence rest start (offset + 1)
             ({[commit_transaction_id commit]} ∪ transaction_ids)
  end.

Section validate.
Context `{Target}.

(** [Head::validate_collection_state]. *)
Definition validate_collection_state (h : Head) : Result () Error :=
  if head_generation h <? head_collection_epoch h
  then Err (invalid "head collection epoch exceeds its generation")
  else if max_retention_ids (head_options h) <? Z.of_nat (size (head_retention_ids h))
  then Err (invalid "head retention IDs exceed their durable limit")
  else if bool_decide (is_Some (head_active_plan h)) && negb (bool_decide (head_retention_ids h = ∅))
  then Err (invalid "head has an active plan and active retentions")
  else match head_active_plan h with
  | None => Ok ()
  | Some plan =>
      let? plan_len := ok_or (usize_try_from (plan_len plan))
                         (invalid "collection plan length exceeds usize") in
      if head_collection_epoch h =? 0
      then Err (invalid "head has an active plan before the first collection epoch")
      else if max_collection_plan_bytes (head_options h) <? plan_len
      then Err (invalid "head collection plan exceeds its durable byte limit")
      else Ok ()
  end.

(** The sequence that follows the base checkpoint. *)
Definition expected_start (h : Head) : Result Z Error :=
  match head_checkpoint h with
  | Some checkpoint =>
      if negb (bool_decide (obj_kind (checkpoint_object checkpoint) = Checkpoint))
      then Err (invalid "head base names a non-checkpoint object")
      else ok_or (u64_checked_add (through_sequence checkpoint) 1)
             (invalid "head base sequence cannot advance")
  | None => Ok 0
  end.

(** The first retained outcome, when there is a base checkpoint. *)
Definition expected_outcome_start (h : Head) (available : Z) : Result (option Z) Error :=
  match head_checkpoint h with
  | None =>
      if bool_decide (head_recent_outcomes h = [])
      then Ok None
      else Err (invalid "head outcomes exist without a base checkpoint")
  | Some checkpoint =>
      let? window := ok_or (u64_try_from (resolution_window (head_options h)))
                       (invalid "outcome window exceeds u64") in
      let? retained := ok_or (u64_try_from (len (head_recent_outcomes h)))
                         (invalid "outcome count exceeds u64") in
      if negb (retained =? Z.min available window)
      then Err (invalid "head does not retain the required outcome suffix")
      else if match last (head_recent_outcomes h) with
              | Some commit => negb (bool_decide (commit_digest commit = through_commit checkpoint))
              | None => false
              end
      then Err (invalid "head outcome suffix does not match its checkpoint")
      else Ok (Some (available - retained))
  end.

(** [Head::validate]. *)
Definition validate (h : Head) : Result () Error :=
  if max_tail_entries (head_options h) <? len (head_tail h)
  then Err (invalid "head tail exceeds its durable limit")
  else if resolution_window (head_options h) <? len (head_recent_outcomes h)
  then Err (invalid "head outcomes exceed their durable limit")
  else if head_generation h <? head_next_sequence h
  then Err (invalid "head generation precedes its commit sequence")
  else
    do? validate_collection_state h;
    let? start := expected_start h in
    let? transaction_ids := validate_commit_sequence (head_tail h) start 0 ∅ in
    let? tail_len := ok_or (u64_try_from (len (head_tail h))) (invalid "tail length exceeds u64") in
    let? expected_next := ok_or (u64_checked_add start tail_len)
                            (invalid "head next sequence cannot advance") in
    if negb (head_next_sequence h =? expected_next)
    then Err (invalid "head next sequence does not follow its base and tail")
    else
      let? outcome_start := expected_outcome_start h start in
      do? validate_commit_sequence (head_recent_outcomes h) (default 0 outcome_start) 0 transaction_ids;
      Ok ().

End validate.

(** ** Head transformations *)

(** [Log::candidate_head]. *)
Definition candidate_head (head : Head) (commit_ref : CommitRef) : Result Head Error :=
  let? head := advance_generation head in
  let? next := ok_or (u64_checked_add (head_next_sequence head) 1) (LimitExceeded "commit sequence") in
  Ok (set_log next (head_checkpoint head) (head_tail head ++ [commit_ref])
        (head_recent_outcomes head) head).

(** [Log::checkpoint_head]. *)
Definition checkpoint_head (head : Head) (through : CommitRef) (object : ObjectRef) : Result Head Error :=
  let? through_index := ok_or (position (λ entry, bool_decide (entry = through)) (head_tail head))
                          (invalid "the checkpoint entry is not in the active tail") in
  let recent := head_recent_outcomes head ++ take (S through_index) (head_tail head) in
  let tail := drop (S through_index) (head_tail head) in
  let window := resolution_window (head_options head) in
  let recent :=
    if window <? len recent
    then drop (Z.to_nat (saturating_sub (len recent) window)) recent
    else recent in
  let checkpoint := MkCheckpointRef (commit_sequence through) (commit_digest through) object in
  advance_generation (set_log (head_next_sequence head) (Some checkpoint) tail recent head).

Inductive RetentionChange :=
  | Acquire (id : RetentionId)
  | Release (id : RetentionId)
  | ClearAfterDrain.

Inductive RetentionHeadState := Applied | ActiveCollection | Conflict.

#[global] Instance RetentionHeadState_eq_dec : EqDecision RetentionHeadState.
Proof. solve_decision. Defined.

(** [RetentionChange::classify]. *)
Definition retention_classify (change : RetentionChange) (head : Head) : RetentionHeadState :=
  match change with
  | Acquire id =>
      if bool_decide (id ∈ head_retention_ids head) then Applied
      else if bool_decide (is_Some (head_active_plan head)) then ActiveCollection
      else Conflict
  | Release id =>
      if negb (bool_decide (id ∈ head_retention_ids head)) then Applied else Conflict
  | ClearAfterDrain =>
      if bool_decide (head_retention_ids head = ∅) then Applied else Conflict
  end.

(** [RetentionChange::apply]. *)
Definition retention_apply (change : RetentionChange) (head : Head) : Head :=
  match change with
  | Acquire id => set_retention_ids ({[id]} ∪ head_retention_ids head) head
  | Release id => set_retention_ids (head_retention_ids head ∖ {[id]}) head
  | ClearAfterDrain => set_retention_ids ∅ head
  end.

Definition is_acquire (change : RetentionChange) : bool :=
  match change with Acquire _ => true | _ => false end.

(** The head [start_collection_with_limit] builds to install a fence: a new epoch
    naming [plan_ref]. *)
Definition install_plan_head (head : Head) (epoch : Z) (plan_ref : CollectionPlanRef) : Result Head Error :=
  let? head := advance_generation head in
  Ok (set_active_plan (Some plan_ref) (set_collection_epoch epoch head)).

(** The head [clear_collection_plan] builds to clear the fence. *)
Definition clear_plan_head (head : Head) : Result Head Error :=
  advance_generation (set_active_plan None head).

(** ** Views and classification *)

(** [object_store::UpdateVersion]; its strings are UTF-8 bytes. *)
Record UpdateVersion := MkUpdateVersion {
  e_tag : option bytes;
  version_id : option bytes
}.

#[global] Instance UpdateVersion_eq_dec : EqDecision UpdateVersion.
Proof. solve_decision. Defined.

(** A [View] shares one [Arc<ObservedState>]; [view_id] is the identity of that
    allocation, which its set-once caches are keyed by. *)
Record View := MkView {
  view_id : Z;
  view_head : Head;
  view_version : UpdateVersion
}.

(** [View::collection_plan_bytes]. *)
Definition collection_plan_bytes (v : View) : option Z := plan_len <$> head_active_plan (view_head v).

Definition head_entries (h : Head) : list CommitRef := head_tail h ++ head_recent_outcomes h.

(** [Log::contains_commit]. *)
Definition contains_commit (v : View) (target : CommitRef) : bool :=
  existsb (λ entry, bool_decide (entry = target)) (head_entries (view_head v)).

(** [Log::tail_contains]. *)
Definition tail_contains (v : View) (target : CommitRef) : bool :=
  existsb (λ entry, bool_decide (entry = target)) (head_tail (view_head v)).

(** The in-memory outcomes of [Log::classify_resolution]; its fourth variant,
    [StillPending], carries recovery evidence and is never built here. *)
Inductive Classified :=
  | Committed (v : View)
  | NotCommitted (v : View)
  | Expired (v : View).

(** [Log::classify_resolution]. *)
Definition classify_resolution (target : CommitRef) (current : View) : Result Classified Error :=
  let head := view_head current in
  if contains_commit current target then Ok (Committed current)
  else if commit_sequence target <? head_next_sequence head then
    let exact_sequence_is_retained :=
      existsb (λ entry, commit_sequence entry =? commit_sequence target) (head_entries head) in
    if exact_sequence_is_retained then Ok (NotCommitted current) else Ok (Expired current)
  else if head_next_sequence head <? commit_sequence target
  then Err (invalid "the head precedes the pending commit position")
  else Ok (NotCommitted current).

Inductive CheckpointEvidence :=
  | EvidencePublished (v : View)
  | EvidenceNotPublished (v : View)
  | EvidenceExpired (v : View).

(** [Log::classify_checkpoint], given the checkpoint of the pending evidence. *)
Definition classify_checkpoint (checkpoint : CheckpointRef) (current : View)
    (attempted_generation : Z) : Result CheckpointEvidence Error :=
  if bool_decide (head_checkpoint (view_head current) = Some checkpoint)
  then Ok (EvidencePublished current)
  else
    let? next_generation := ok_or (u64_checked_add attempted_generation 1)
                              (LimitExceeded "head generation") in
    match Z.compare (head_generation (view_head current)) next_generation with
    | Lt => Err (invalid "the head precedes pending checkpoint evidence")
    | Eq => Ok (EvidenceNotPublished current)
    | Gt => Ok (EvidenceExpired current)
    end.

(** [Log::compatible_publication_view]. *)
Definition compatible_publication_view (source current : View) (compatible : Head → Head → bool)
    : Result (option View) Error :=
  if bool_decide (view_head current = view_head source)
     && bool_decide (view_version current = view_version source)
  then Ok (Some current)
  else if negb (compatible (view_head source) (view_head current)) then Ok None
  else if head_generation (view_head current) <=? head_generation (view_head source)
  then Err (invalid "head version changed without a monotonic head change")
  else Ok (Some current).

(** [Log::retention_publication_view]. *)
Definition retention_publication_view (source current : View) : Result (option View) Error :=
  compatible_publication_view source current has_same_publication_base.

(** [Log::checkpoint_publication_view]. *)
Definition checkpoint_publication_view (source current : View) : Result (option View) Error :=
  compatible_publication_view source current has_checkpoint_append_base.

(** What the field types of [Head] guarantee. *)
Definition head_wf `{Target} (h : Head) : bool :=
  log_id_wf (head_log_id h)
  && uuid_wf (head_incarnation h) && options_wf (head_options h)
  && in_u64 (head_generation h) && in_u64 (head_next_sequence h)
  && match head_checkpoint h with Some c => checkpoint_ref_wf c | None => true end
  && forallb commit_ref_wf (head_tail h) && forallb commit_ref_wf (head_recent_outcomes h)
  && in_u64 (head_collection_epoch h)
  && match head_active_plan h with Some p => plan_ref_wf p | None => true end
  && forallb (λ id, uuid_wf (retention_uuid id)) (elements (head_retention_ids h)).

(** ** What validation establishes *)

Definition base_start (h : Head) : Z :=
  match head_checkpoint h with Some c => through_sequence c + 1 | None => 0 end.

(** Consecutive sequence numbers from [start]. *)
Definition contiguous (start : Z) (l : list CommitRef) : Prop :=
  ∀ (i : nat) c, l !! i = Some c → commit_sequence c = start + Z.of_nat i.

Definition tids (l : list CommitRef) : list TransactionId := commit_transaction_id <$> l.

Record collection_ok `{Target} (h : Head) : Prop := {
  ok_epoch : head_collection_epoch h ≤ head_generation h;
  ok_retentions : Z.of_nat (size (head_retention_ids h)) ≤ max_retention_ids (head_options h);
  ok_exclusive : is_Some (head_active_plan h) → head_retention_ids h = ∅;
  ok_plan p : head_active_plan h = Some p →
    0 ≤ plan_len p ≤ usize_max ∧ head_collection_epoch h ≠ 0
    ∧ plan_len p ≤ max_collection_plan_bytes (head_options h)
}.

Record base_ok (h : Head) (c : CheckpointRef) : Prop := {
  ok_base_kind : obj_kind (checkpoint_object c) = Checkpoint;
  ok_base_window : 0 ≤ resolution_window (head_options h) ≤ u64_max;
  ok_retained : len (head_recent_outcomes h)
                = Z.min (base_start h) (resolution_window (head_options h));
  ok_retained_last e : last (head_recent_outcomes h) = Some e → commit_digest e = through_commit c
}.

Record head_ok `{Target} (h : Head) : Prop := {
  ok_tail_limit : len (head_tail h) ≤ max_tail_entries (head_options h);
  ok_outcome_limit : len (head_recent_outcomes h) ≤ resolution_window (head_options h);
  ok_generation : head_next_sequence h ≤ head_generation h;
  ok_collection : collection_ok h;
  ok_next : head_next_sequence h = base_start h + len (head_tail h);
  ok_next_u64 : head_next_sequence h ≤ u64_max;
  ok_tail : contiguous (base_start h) (head_tail h);
  ok_no_base : head_checkpoint h = None → head_recent_outcomes h = [];
  ok_base c : head_checkpoint h = Some c → base_ok h c;
  ok_outcomes : contiguous (base_start h - len (head_recent_outcomes h)) (head_recent_outcomes h);
  ok_tids : NoDup (tids (head_tail h ++ head_recent_outcomes h))
}.

Lemma contiguous_nil start : contiguous start [].
Proof. by intros i c. Qed.

Lemma contiguous_start start start' l : contiguous start l → start = start' → contiguous start' l.
Proof. by intros ? <-. Qed.

Lemma contiguous_cons start c l :
  contiguous start (c :: l) ↔ commit_sequence c = start ∧ contiguous (start + 1) l.
Proof.
  unfold contiguous. split.
  - intros Hc. split; [rewrite (Hc 0%nat c eq_refl); lia|].
    intros i d Hd. rewrite (Hc (S i) d Hd). lia.
  - intros [Hc Hl] [|i] d Hd; simpl in Hd; [simplify_eq; lia|]. rewrite (Hl i d Hd). lia.
Qed.

Lemma contiguous_app start l k :
  contiguous start (l ++ k) ↔ contiguous start l ∧ contiguous (start + len l) k.
Proof.
  revert start. induction l as [|c l IH]; intros start; simpl.
  - replace (start + len []) with start by (unfold len; simpl; lia).
    pose proof (contiguous_nil start). tauto.
  - rewrite !contiguous_cons, IH, len_cons.
    replace (start + 1 + len l) with (start + (1 + len l)) by lia. tauto.
Qed.

Lemma contiguous_drop start n l : contiguous start l → contiguous (start + Z.of_nat n) (drop n l).
Proof. intros Hl i c Hc. rewrite lookup_drop in Hc. rewrite (Hl _ _ Hc). lia. Qed.

Lemma contiguous_take start n l : contiguous start l → contiguous start (take n l).
Proof. intros Hl i c [Hc _]%lookup_take_Some. by apply Hl. Qed.

(** Two entries of a contiguous list at the same sequence are the same entry. *)
Lemma contiguous_sequence_inj start l c d :
  contiguous start l → c ∈ l → d ∈ l → commit_sequence c = commit_sequence d → c = d.
Proof.
  intros Hl [i Hi]%list_elem_of_lookup [j Hj]%list_elem_of_lookup Heq.
  rewrite (Hl _ _ Hi), (Hl _ _ Hj) in Heq. assert (i = j) as -> by lia. congruence.
Qed.

Lemma validate_commit_sequence_Ok l : ∀ start offset ids ids',
  validate_commit_sequence l start offset ids = Ok ids' →
  contiguous (start + offset) l ∧ NoDup (tids l)
  ∧ (∀ x, x ∈ tids l → x ∉ ids) ∧ ids' = list_to_set (tids l) ∪ ids.
Proof.
  induction l as [|c l IH]; intros start offset ids ids'; simpl.
  - intros [= <-]. split_and!; [apply contiguous_nil|constructor|by intros ? ?%not_elem_of_nil|set_solver].
  - intros Hv. inv_ok. bool_hyps. apply IH in Hv as (Hc & Hnd & Hdis & ->).
    apply u64_try_from_Some in Hok as [-> ?]. apply checked_add_Some in Hok0 as [-> ?].
    split_and!.
    + apply contiguous_cons. replace (start + offset + 1) with (start + (offset + 1)) by lia.
      split; [lia|done].
    + constructor; [|done]. intros Hin. apply (Hdis _ Hin). set_solver.
    + intros x [->|Hx]%elem_of_cons; [done|]. specialize (Hdis _ Hx). set_solver.
    + unfold tids. simpl. set_solver.
Qed.

Lemma validate_commit_sequence_complete l : ∀ start offset ids,
  0 ≤ start → 0 ≤ offset → start + offset + len l ≤ u64_max + 1 →
  contiguous (start + offset) l → NoDup (tids l) → (∀ x, x ∈ tids l → x ∉ ids) →
  validate_commit_sequence l start offset ids = Ok (list_to_set (tids l) ∪ ids).
Proof.
  induction l as [|c l IH]; intros start offset ids Hs Ho Hb Hc Hnd Hdis; simpl.
  - f_equal. set_solver.
  - apply contiguous_cons in Hc as [Hc Hl]. apply NoDup_cons in Hnd as [Hnin Hnd].
    rewrite len_cons in Hb. pose proof (len_nonneg l).
    unfold u64_try_from, checked_add_within, in_u64.
    rewrite !(proj2 (Z.leb_le _ _)) by lia. simpl.
    rewrite (proj2 (Z.leb_le _ _)) by lia. simpl.
    rewrite (proj2 (Z.eqb_eq _ _)) by lia. simpl.
    rewrite bool_decide_eq_false_2 by (apply Hdis; unfold tids; simpl; left).
    rewrite IH; try lia; try done.
    + f_equal. unfold tids. simpl. set_solver.
    + by replace (start + (offset + 1)) with (start + offset + 1) by lia.
    + intros x Hx. assert (x ≠ commit_transaction_id c) by (by intros ->).
      specialize (Hdis x). unfold tids in Hdis. simpl in Hdis. set_solver.
Qed.

Section validate_spec.
Context `{Target}.

Lemma validate_collection_state_Ok h : validate_collection_state h = Ok () ↔ collection_ok h.
Proof.
  unfold validate_collection_state. split.
  - intros Hv. inv_ok.
    assert (is_Some (head_active_plan h) → head_retention_ids h = ∅) as Hex.
    { intros Hp. rewrite (bool_decide_eq_true_2 _ Hp) in *. simpl in *. by bool_hyps. }
    split; [lia|lia|done|].
    intros p Hp. rewrite Hp in *. inv_ok. apply usize_try_from_Some in Hok as [-> ?]. lia.
  - intros [He Hr Hex Hp].
    rewrite !(proj2 (Z.ltb_ge _ _)) by lia.
    destruct (head_active_plan h) as [p|] eqn:E; [|done].
    rewrite Hex by done. destruct (Hp p eq_refl) as (? & ? & ?).
    rewrite (bool_decide_eq_true_2 (∅ = ∅)) by done. rewrite andb_false_r.
    unfold usize_try_from, in_usize. rewrite !(proj2 (Z.leb_le _ _)) by lia. simpl.
    rewrite (proj2 (Z.eqb_neq _ _)) by done. by rewrite (proj2 (Z.ltb_ge _ _)) by lia.
Qed.

Lemma expected_start_Ok h start :
  expected_start h = Ok start →
  start = base_start h ∧ ∀ c, head_checkpoint h = Some c → obj_kind (checkpoint_object c) = Checkpoint.
Proof.
  unfold expected_start, base_start. destruct (head_checkpoint h) as [c|]; intros Hv; inv_ok; bool_hyps.
  - apply checked_add_Some in Hv as [-> ?]. split; [done|]. by intros ? [= <-].
  - done.
Qed.

Lemma expected_outcome_start_Ok h o :
  (∀ c, head_checkpoint h = Some c → obj_kind (checkpoint_object c) = Checkpoint) →
  expected_outcome_start h (base_start h) = Ok o →
  default 0 o = base_start h - len (head_recent_outcomes h)
  ∧ (head_checkpoint h = None → head_recent_outcomes h = [])
  ∧ ∀ c, head_checkpoint h = Some c → base_ok h c.
Proof.
  intros Hkind. unfold expected_outcome_start.
  destruct (head_checkpoint h) as [c|] eqn:E; intros Hv; inv_ok; bool_hyps; simpl.
  - apply u64_try_from_Some in Hok as [-> ?], Hok0 as [-> ?].
    split_and!; [done|done|]. intros ? [= <-]. split; [by apply Hkind|lia|lia|].
    intros e He. rewrite He in *. by bool_hyps.
  - unfold base_start. rewrite E. match goal with H : _ = [] |- _ => rewrite H end. done.
Qed.

(** Validation accepts exactly the heads that satisfy the durable invariant. *)
Lemma validate_Ok_head_ok h : validate h = Ok () → head_ok h.
Proof.
  unfold validate. intros Hv. inv_ok. bool_hyps.
  apply expected_start_Ok in Hok0 as [-> Hkind].
  apply validate_commit_sequence_Ok in Hok1 as (Htail & Hnd1 & _ & ->).
  apply u64_try_from_Some in Hok2 as [-> ?]. apply checked_add_Some in Hok3 as [-> ?].
  apply expected_outcome_start_Ok in Hok4 as (Hstart & Hnone & Hbase); [|done].
  rewrite Hstart in Hok5.
  apply validate_commit_sequence_Ok in Hok5 as (Hout & Hnd2 & Hdis & _).
  rewrite Z.add_0_r in Htail, Hout.
  split; try done; try lia.
  - by apply validate_collection_state_Ok.
  - unfold tids in *. rewrite fmap_app. apply NoDup_app. split_and!; [done| |done].
    intros x Hx Hx'. apply (Hdis x Hx'). set_solver.
Qed.

Lemma head_ok_validate h : 0 ≤ base_start h → head_ok h → validate h = Ok ().
Proof.
  intros Hpos [Htl Hol Hgen Hcol Hnext Hnext64 Htail Hnone Hbase Hout Htids].
  pose proof (len_nonneg (head_tail h)). pose proof (len_nonneg (head_recent_outcomes h)).
  unfold tids in Htids. rewrite fmap_app in Htids.
  apply NoDup_app in Htids as (Hnd1 & Hdis & Hnd2).
  unfold validate. rewrite !(proj2 (Z.ltb_ge _ _)) by lia.
  rewrite (proj2 (validate_collection_state_Ok h) Hcol). simpl.
  assert (expected_start h = Ok (base_start h)) as ->.
  { unfold expected_start, base_start in *. destruct (head_checkpoint h) as [c|] eqn:E; [|done].
    rewrite bool_decide_eq_true_2 by (by apply (Hbase c eq_refl)). simpl.
    unfold checked_add_within. by rewrite (proj2 (Z.leb_le _ _)) by lia. }
  simpl. rewrite validate_commit_sequence_complete;
    try lia; try done; try (by rewrite Z.add_0_r); try (by intros ? ? ?%not_elem_of_empty).
  simpl. unfold u64_try_from, checked_add_within, in_u64.
  rewrite !(proj2 (Z.leb_le _ _)) by lia. simpl.
  rewrite (proj2 (Z.leb_le _ _)) by lia. simpl.
  rewrite (proj2 (Z.eqb_eq _ _)) by lia. simpl.
  assert (∃ o, expected_outcome_start h (base_start h) = Ok o
          ∧ default 0 o = base_start h - len (head_recent_outcomes h)) as (o & -> & Ho).
  { unfold expected_outcome_start. destruct (head_checkpoint h) as [c|] eqn:E.
    - destruct (Hbase c eq_refl) as [Hk Hw Hr Hlast].
      assert (base_start h ≤ u64_max) by lia.
      unfold u64_try_from, in_u64. rewrite !(proj2 (Z.leb_le _ _)) by lia. simpl.
      rewrite (proj2 (Z.eqb_eq _ _)) by lia. simpl.
      destruct (last (head_recent_outcomes h)) as [e|] eqn:El.
      + rewrite bool_decide_eq_true_2 by (by apply Hlast). eauto.
      + eauto.
    - exists None. unfold base_start. rewrite E, Hnone by done. done. }
  simpl. rewrite Ho. rewrite validate_commit_sequence_complete; try done; try lia.
  - destruct (head_checkpoint h) as [c|] eqn:E.
    + destruct (Hbase c eq_refl) as [_ ? Hr _]. lia.
    + rewrite Hnone by done. unfold len. simpl. lia.
  - by rewrite Z.add_0_r.
  - intros x Hx Hx'. apply (Hdis x); [|done]. set_solver.
Qed.

End validate_spec.

Lemma head_wf_base_start `{Target} h : head_wf h = true → 0 ≤ base_start h.
Proof.
  unfold head_wf, base_start. intros Hwf. bool_hyps.
  destruct (head_checkpoint h) as [c|]; [|done].
  unfold checkpoint_ref_wf, in_u64 in *. bool_hyps. lia.
Qed.

Lemma head_wf_window `{Target} h : head_wf h = true → 0 ≤ resolution_window (head_options h) ≤ u64_max.
Proof.
  unfold head_wf, options_wf, in_usize. intros Hwf. bool_hyps. pose proof usize_max_le_u64. lia.
Qed.
