(* ===== verification/Samples.v ===== *)
(** * Concrete values

    Small identifiers, references, options and heads on which the witnesses of the
    development evaluate. *)

From Stdlib Require Import Strings.Byte.
From S2P Require Import Prelude Types Head.

Definition sample_uuid (b : byte) : Uuid := MkUuid (replicate 16 b).
Definition sample_digest (b : byte) : Digest := MkDigest (replicate 32 b).
Definition sample_log_id : LogId := MkLogId [x6c; x6f; x67].

Definition sample_options : Options := {|
  max_tail_entries := 4;
  resolution_window := 2;
  max_inline_operation_bytes := 64;
  max_inline_result_bytes := 64;
  max_object_refs := 4;
  max_object_bytes := 4096;
  max_commit_bytes := 1024;
  max_head_bytes := 4096;
  max_checkpoint_bytes := 2048;
  max_retention_ids := 2;
  max_collection_objects := 16;
  max_collection_plan_bytes := 2048
|}.

Definition sample_commit (seq : Z) (b : byte) : CommitRef :=
  MkCommitRef seq (MkTransactionId (sample_uuid b)) (MkStorageId (sample_uuid b)) (sample_digest b) 100.

Definition sample_checkpoint_object : ObjectRef :=
  MkObjectRef Checkpoint (MkStorageId (sample_uuid x0a)) (sample_digest x0a) 200 1.

Definition sample_plan_ref : CollectionPlanRef :=
  MkCollectionPlanRef (MkStorageId (sample_uuid x0b)) (sample_digest x0b) 300.

Definition or_head (r : Result Head Error) (h : Head) : Head :=
  match r with Ok h' => h' | Err _ => h end.

(** An empty log, then three commits, then a checkpoint through the second. *)
Definition head0 : Head := head_empty sample_log_id (sample_uuid x01) sample_options.
Definition commit0 : CommitRef := sample_commit 0 x10.
Definition commit1 : CommitRef := sample_commit 1 x11.
Definition commit2 : CommitRef := sample_commit 2 x12.
Definition commit3 : CommitRef := sample_commit 3 x13.
Definition head1 : Head := or_head (candidate_head head0 commit0) head0.
Definition head2 : Head := or_head (candidate_head head1 commit1) head0.
Definition head3 : Head := or_head (candidate_head head2 commit2) head0.
Definition head4 : Head := or_head (checkpoint_head head3 commit1 sample_checkpoint_object) head0.
Definition head5 : Head := or_head (candidate_head head4 commit3) head0.

Definition sample_version (b : byte) : UpdateVersion := MkUpdateVersion (Some [b]) None.
Definition view4 : View := MkView 4 head4 (sample_version x34).
Definition view5 : View := MkView 5 head5 (sample_version x35).

(** A stand-in for BLAKE3: 32 bytes that depend on the input. *)
Definition sample_hash (b : bytes) : bytes :=
  let sum := foldl (λ acc x, (acc * 257 + byte_val x + 1) mod 4294967291) 7 b in
  (λ i, default x00 (Byte.of_N (Z.to_N ((sum / 2 ^ (Z.of_nat i)) mod 256)))) <$> seq 0 32.

Definition sample_blake3 : Blake3 :=
  {| blake3_hash := sample_hash; blake3_hash_len b := eq_refl |}.

Definition or_bytes (r : Result bytes Error) : bytes := match r with Ok b => b | Err _ => [] end.

Definition sample_blob : ObjectRef :=
  MkObjectRef Blob (MkStorageId (sample_uuid x21)) (sample_digest x22) 11 1.
Definition sample_node_ref : ObjectRef :=
  MkObjectRef Node (MkStorageId (sample_uuid x23)) (sample_digest x24) 300 2.
