(* ===== verification/LogSpec.v ===== *)
(** * Abstract log and head refinement

    The specification the head implements: an append-only sequence of commits with
    a compaction point.  Every head update that [src/log.rs] publishes simulates one
    abstract step; reachable heads retain a suffix of one totally ordered log, which
    makes the classification of uncertain publications exact. *)

From S2P Require Import Prelude Types Head Samples.

(** ** The abstract log *)

Record AbsLog := MkAbsLog {
  abs_entries : list CommitRef;
  abs_compacted : Z
}.

Inductive abs_step : AbsLog → AbsLog → Prop :=
  | abs_append L s c :
      commit_sequence c = len L →
      abs_step (MkAbsLog L s) (MkAbsLog (L ++ [c]) s)
  | abs_compact L s s' :
      s < s' ≤ len L →
      abs_step (MkAbsLog L s) (MkAbsLog L s')
  | abs_stutter a : abs_step a a.

(** ** Head updates

    One constructor per caller of [Log::update_head]: the candidate it builds, the
    guards it passed, and the validation [encode_head] performs before the
    conditional write. *)

Section head_step.
Context `{Target}.

Inductive head_step : Head → Head → Prop :=
  | step_commit h c h' :
      commit_sequence c = head_next_sequence h →
      candidate_head h c = Ok h' →
      validate h' = Ok () →
      head_step h h'
  | step_checkpoint h through object h' :
      checkpoint_head h through object = Ok h' →
      validate h' = Ok () →
      head_step h h'
  | step_retention h change h' :
      retention_classify change h = Conflict →
      advance_generation (retention_apply change h) = Ok h' →
      validate h' = Ok () →
      head_step h h'
  | step_install h plan_ref h' :
      head_active_plan h = None →
      head_retention_ids h = ∅ →
      install_plan_head h (head_collection_epoch h + 1) plan_ref = Ok h' →
      validate h' = Ok () →
      head_step h h'
  | step_clear h plan_ref h' :
      head_active_plan h = Some plan_ref →
      clear_plan_head h = Ok h' →
      validate h' = Ok () →
      head_step h h'.

End head_step.

(** ** The refinement relation *)

Definition retained (h : Head) : list CommitRef := head_recent_outcomes h ++ head_tail h.

Record represents (h : Head) (a : AbsLog) : Prop := {
  rep_contiguous : contiguous 0 (abs_entries a);
  rep_next : head_next_sequence h = len (abs_entries a);
  rep_base : base_start h = abs_compacted a;
  rep_base_pos : 0 ≤ base_start h;
  rep_retained : retained h `suffix_of` abs_entries a;
  rep_through c : head_checkpoint h = Some c →
    ∃ e, abs_entries a !! Z.to_nat (through_sequence c) = Some e
         ∧ commit_sequence e = through_sequence c ∧ commit_digest e = through_commit c
}.

Lemma advance_generation_Ok h h' :
  advance_generation h = Ok h' →
  h' = set_generation (head_generation h + 1) h ∧ head_generation h + 1 ≤ u64_max.
Proof. unfold advance_generation. intros Hv. inv_ok. by apply checked_add_Some in Hok as [-> ?]. Qed.

Lemma candidate_head_Ok h c h' :
  candidate_head h c = Ok h' →
  h' = set_generation (head_generation h + 1)
         (set_log (head_next_sequence h + 1) (head_checkpoint h) (head_tail h ++ [c])
            (head_recent_outcomes h) h)
  ∧ head_generation h + 1 ≤ u64_max ∧ head_next_sequence h + 1 ≤ u64_max.
Proof.
  unfold candidate_head. intros Hv. inv_ok.
  apply advance_generation_Ok in Hok as [-> ?]. by apply checked_add_Some in Hok0 as [-> ?].
Qed.

(** The outcome window kept by [checkpoint_head]. *)
Definition keep_window (window : Z) (l : list CommitRef) : list CommitRef :=
  if window <? len l then drop (Z.to_nat (saturating_sub (len l) window)) l else l.

Lemma keep_window_drop window l :
  0 ≤ window →
  keep_window window l = drop (length l - Z.to_nat window) l
  ∧ len (keep_window window l) = Z.min (len l) window.
Proof.
  intros Hw. unfold keep_window, saturating_sub, len.
  destruct (Z.ltb_spec window (Z.of_nat (length l))).
  - replace (Z.to_nat (Z.max 0 (Z.of_nat (length l) - window)))
      with (length l - Z.to_nat window)%nat by lia.
    rewrite length_drop. split; [done|lia].
  - replace (length l - Z.to_nat window)%nat with 0%nat by lia. rewrite drop_0. split; [done|lia].
Qed.

Lemma checkpoint_head_Ok h through object h' :
  checkpoint_head h through object = Ok h' →
  ∃ i, head_tail h !! i = Some through
  ∧ h' = set_generation (head_generation h + 1)
           (set_log (head_next_sequence h)
              (Some (MkCheckpointRef (commit_sequence through) (commit_digest through) object))
              (drop (S i) (head_tail h))
              (keep_window (resolution_window (head_options h))
                 (head_recent_outcomes h ++ take (S i) (head_tail h))) h)
  ∧ head_generation h + 1 ≤ u64_max.
Proof.
  unfold checkpoint_head. intros Hv. inv_ok.
  apply position_Some in Hok as (e & He & Heq & _). bool_hyps. subst e.
  apply advance_generation_Ok in Hv as [-> ?]. eauto.
Qed.

Lemma take_S_last {A} (l : list A) i x : l !! i = Some x → take (S i) l = take i l ++ [x].
Proof. apply take_S_r. Qed.

Section refinement.
Context `{Target}.

Lemma represents_same_log h h' a :
  represents h a →
  head_next_sequence h' = head_next_sequence h →
  head_checkpoint h' = head_checkpoint h →
  head_tail h' = head_tail h →
  head_recent_outcomes h' = head_recent_outcomes h →
  represents h' a.
Proof.
  intros [Hc Hn Hb Hp Hr Ht] E1 E2 E3 E4.
  assert (base_start h' = base_start h) as E5 by (unfold base_start; by rewrite E2).
  split; unfold retained in *; rewrite ?E1, ?E3, ?E4, ?E5; try done.
  intros c Hcp. apply Ht. congruence.
Qed.

Lemma represents_empty id inc options : represents (head_empty id inc options) (MkAbsLog [] 0).
Proof. split; try done. Qed.

Lemma represents_commit h c h' L s :
  represents h (MkAbsLog L s) → commit_sequence c = head_next_sequence h →
  candidate_head h c = Ok h' → represents h' (MkAbsLog (L ++ [c]) s).
Proof.
  intros [Hc Hn Hb Hp [pre Hr] Ht] Hseq Hcand. simpl in *.
  apply candidate_head_Ok in Hcand as (-> & _ & _).
  split; unfold base_start, retained in *; simpl in *; try done.
  - apply contiguous_app. split; [done|]. apply contiguous_cons. split; [lia|apply contiguous_nil].
  - rewrite len_app. unfold len at 2. simpl. lia.
  - exists pre. rewrite Hr. by rewrite !app_assoc.
  - intros d Hd. destruct (Ht d Hd) as (e & He & ?). exists e. split; [|done].
    by apply lookup_app_l_Some.
Qed.

Lemma represents_checkpoint h through object h' L s :
  head_ok h → represents h (MkAbsLog L s) → checkpoint_head h through object = Ok h' →
  represents h' (MkAbsLog L (commit_sequence through + 1))
  ∧ s < commit_sequence through + 1 ≤ len L.
Proof.
  intros Hok [Hc Hn Hb Hp [pre Hr] Ht] Hcp. simpl in *.
  apply checkpoint_head_Ok in Hcp as (i & Hi & -> & _).
  pose proof (ok_tail _ Hok _ _ Hi) as Hseq. pose proof (lookup_lt_Some _ _ _ Hi) as Hlt.
  pose proof (ok_next _ Hok) as Hnext. unfold len in Hnext, Hn.
  assert (L !! Z.to_nat (commit_sequence through) = Some through) as HL.
  { assert (Hin : through ∈ L).
    { rewrite Hr. unfold retained. rewrite !elem_of_app. right. right.
      apply list_elem_of_lookup. eauto. }
    apply list_elem_of_lookup in Hin as [j Hj]. pose proof (Hc _ _ Hj).
    by replace (Z.to_nat (commit_sequence through)) with j by lia. }
  pose proof (Hc _ _ HL) as Hpos. pose proof (lookup_lt_Some _ _ _ HL).
  split; [|unfold len; lia].
  split; simpl; try done.
  - unfold base_start. simpl. lia.
  - unfold retained. simpl.
    set (rec := head_recent_outcomes h ++ take (S i) (head_tail h)).
    assert (retained h = rec ++ drop (S i) (head_tail h)) as Hret.
    { unfold retained, rec. by rewrite <-app_assoc, take_drop. }
    unfold keep_window. destruct (_ <? _).
    + exists (pre ++ take (Z.to_nat (saturating_sub (len rec) (resolution_window (head_options h)))) rec).
      rewrite Hr, Hret, <-!app_assoc. f_equal. by rewrite app_assoc, take_drop.
    + exists pre. by rewrite Hr, Hret.
  - intros c [= <-]. simpl. eauto.
Qed.

(** Every published head update simulates one step of the abstract log. *)
Lemma head_step_simulates h h' a :
  head_ok h → represents h a → head_step h h' →
  head_ok h' ∧ ∃ a', abs_step a a' ∧ represents h' a'.
Proof.
  intros Hok Hrep Hstep. destruct a as [L s].
  destruct Hstep as [h c h' Hseq Hc Hv|h through object h' Hc Hv|h change h' Hcl Hc Hv
                    |h p h' Hp Hr Hc Hv|h p h' Hp Hc Hv].
  all: split; [by apply validate_Ok_head_ok|].
  - eexists. split; [|by eapply represents_commit]. constructor.
    pose proof (rep_next _ _ Hrep). simpl in *. congruence.
  - eapply represents_checkpoint in Hrep as [? ?]; [|done..].
    eexists. split; [by constructor|done].
  - exists (MkAbsLog L s). split; [apply abs_stutter|]. apply advance_generation_Ok in Hc as [-> _].
    by eapply represents_same_log; [done|destruct change..].
  - exists (MkAbsLog L s). split; [apply abs_stutter|]. unfold install_plan_head in *. inv_ok.
    apply advance_generation_Ok in Hok0 as [-> _]. by eapply represents_same_log.
  - exists (MkAbsLog L s). split; [apply abs_stutter|]. apply advance_generation_Ok in Hc as [-> _].
    by eapply represents_same_log.
Qed.

End refinement.

(** ** Reachable heads *)

Section reachable.
Context `{Target}.

Definition reachable (h : Head) : Prop :=
  ∃ id incarnation options,
    validate (head_empty id incarnation options) = Ok ()
    ∧ rtc head_step (head_empty id incarnation options) h.

Lemma abs_step_prefix a a' : abs_step a a' → abs_entries a `prefix_of` abs_entries a'.
Proof. destruct 1; simpl; try done. by apply prefix_app_r. Qed.

Lemma head_steps_simulate h h' :
  rtc head_step h h' → ∀ a, head_ok h → represents h a →
  head_ok h' ∧ ∃ a', rtc abs_step a a' ∧ represents h' a'.
Proof.
  induction 1 as [h|h h1 h' Hstep _ IH]; intros a Hok Hrep; [by eauto using rtc_refl|].
  destruct (head_step_simulates _ _ _ Hok Hrep Hstep) as (Hok1 & a1 & Ha1 & Hrep1).
  destruct (IH a1 Hok1 Hrep1) as (Hok' & a' & Ha' & Hrep').
  split; [done|]. exists a'. split; [by eapply rtc_l|done].
Qed.

Lemma abs_steps_prefix a a' : rtc abs_step a a' → abs_entries a `prefix_of` abs_entries a'.
Proof. induction 1; [done|]. etrans; [by eapply abs_step_prefix|done]. Qed.

Lemma reachable_refines h :
  reachable h → head_ok h ∧ ∃ a, rtc abs_step (MkAbsLog [] 0) a ∧ represents h a.
Proof.
  intros (id & inc & options & Hv & Hsteps).
  eapply head_steps_simulate; [done|by apply validate_Ok_head_ok|apply represents_empty].
Qed.

Lemma head_step_generation h h' : head_step h h' → head_generation h' = head_generation h + 1.
Proof.
  destruct 1 as [h c h' _ Hc _|h through object h' Hc _|h change h' _ Hc _|h p h' _ _ Hc _|h p h' _ Hc _].
  - by apply candidate_head_Ok in Hc as (-> & _).
  - by apply checkpoint_head_Ok in Hc as (? & _ & -> & _).
  - apply advance_generation_Ok in Hc as [-> _]. by destruct change.
  - unfold install_plan_head in Hc. inv_ok. by apply advance_generation_Ok in Hok as [-> _].
  - by apply advance_generation_Ok in Hc as [-> _].
Qed.

Lemma head_steps_generation h h' : rtc head_step h h' → head_generation h ≤ head_generation h'.
Proof. induction 1 as [|? ? ? Hs]; [lia|]. apply head_step_generation in Hs. lia. Qed.

(** The collection epoch moves by at most one per update, only through a fence
    installation that saw no plan and no retention. *)
Lemma head_step_epoch h h' :
  head_step h h' →
  head_collection_epoch h' = head_collection_epoch h
  ∨ (head_collection_epoch h' = head_collection_epoch h + 1
     ∧ head_active_plan h = None ∧ head_retention_ids h = ∅ ∧ is_Some (head_active_plan h')).
Proof.
  destruct 1 as [h c h' _ Hc _|h through object h' Hc _|h change h' _ Hc _|h p h' Hp Hr Hc _|h p h' _ Hc _].
  - left. by apply candidate_head_Ok in Hc as (-> & _).
  - left. by apply checkpoint_head_Ok in Hc as (? & _ & -> & _).
  - left. apply advance_generation_Ok in Hc as [-> _]. by destruct change.
  - right. unfold install_plan_head in Hc. inv_ok.
    apply advance_generation_Ok in Hok as [-> _]. simpl. eauto.
  - left. by apply advance_generation_Ok in Hc as [-> _].
Qed.

End reachable.

(** ** Membership in a represented log *)

Lemma contains_commit_elem h v target :
  view_head v = h → contains_commit v target = bool_decide (target ∈ head_entries h).
Proof.
  intros <-. unfold contains_commit. destruct (bool_decide_reflect (target ∈ head_entries (view_head v))).
  - apply existsb_exists. exists target. rewrite bool_decide_eq_true_2 by done.
    by rewrite <-list_elem_of_In.
  - apply not_true_iff_false. rewrite existsb_exists. intros (c & Hc & Heq). bool_hyps. subst.
    by apply list_elem_of_In in Hc.
Qed.

Section entries.
Context `{Target}.
Context (h : Head) (a : AbsLog) (Hok : head_ok h) (Hrep : represents h a).

Lemma entries_retained c : c ∈ head_entries h ↔ c ∈ retained h.
Proof. unfold head_entries, retained. rewrite !elem_of_app. tauto. Qed.

(** The first sequence the head still retains. *)
Definition retained_start : Z := base_start h - len (head_recent_outcomes h).

Lemma retained_start_nonneg : 0 ≤ retained_start.
Proof.
  unfold retained_start. pose proof (rep_base_pos _ _ Hrep).
  destruct (head_checkpoint h) as [c|] eqn:E.
  - pose proof (ok_retained _ _ (ok_base _ Hok c E)). lia.
  - rewrite (ok_no_base _ Hok E). unfold len. simpl. lia.
Qed.

Lemma retained_drop : retained h = drop (Z.to_nat retained_start) (abs_entries a).
Proof.
  destruct (rep_retained _ _ Hrep) as [pre Hpre]. rewrite Hpre.
  pose proof (rep_next _ _ Hrep) as Hn. pose proof (ok_next _ Hok) as Hn'.
  rewrite Hpre in Hn. unfold retained_start, retained, len in *.
  rewrite !length_app in Hn. rewrite drop_app_length'; [done|]. lia.
Qed.

(** An entry is retained exactly when it is the log's entry at its sequence and
    that sequence is not older than the retained window. *)
Lemma entries_lookup c :
  c ∈ head_entries h ↔
  retained_start ≤ commit_sequence c ∧ abs_entries a !! Z.to_nat (commit_sequence c) = Some c.
Proof.
  rewrite entries_retained, retained_drop, list_elem_of_lookup. pose proof retained_start_nonneg.
  split.
  - intros [i Hi]. rewrite lookup_drop in Hi. pose proof (rep_contiguous _ _ Hrep _ _ Hi) as Hs.
    replace (Z.to_nat (commit_sequence c)) with (Z.to_nat retained_start + i)%nat by lia.
    split; [lia|done].
  - intros [Hge Hc]. exists (Z.to_nat (commit_sequence c) - Z.to_nat retained_start)%nat.
    rewrite lookup_drop. rewrite <-Hc. f_equal. lia.
Qed.

Lemma sequence_retained s :
  s < head_next_sequence h → 0 ≤ s →
  existsb (λ entry, commit_sequence entry =? s) (head_entries h) = bool_decide (retained_start ≤ s).
Proof.
  intros Hlt Hpos. destruct (bool_decide_reflect (retained_start ≤ s)) as [Hge|Hlt'].
  - rewrite (rep_next _ _ Hrep) in Hlt.
    destruct (lookup_lt_is_Some_2 (abs_entries a) (Z.to_nat s)) as [c Hc]; [unfold len in *; lia|].
    pose proof (rep_contiguous _ _ Hrep _ _ Hc) as Hs.
    apply existsb_exists. exists c. split; [|lia].
    apply list_elem_of_In, entries_lookup. split; [lia|].
    by replace (Z.to_nat (commit_sequence c)) with (Z.to_nat s) by lia.
  - apply not_true_iff_false. rewrite existsb_exists. intros (c & Hc & Heq).
    apply list_elem_of_In, entries_lookup in Hc. lia.
Qed.

End entries.

(** ** Candidates built from valid heads are valid

    These lemmas show that the validation inside [encode_head] never rejects a
    candidate whose preconditions were checked before. *)

Section candidates.
Context `{Target}.

Lemma collection_ok_advance h h' :
  collection_ok h →
  head_generation h ≤ head_generation h' →
  head_collection_epoch h' = head_collection_epoch h →
  head_options h' = head_options h →
  head_active_plan h' = head_active_plan h →
  head_retention_ids h' = head_retention_ids h →
  collection_ok h'.
Proof. intros [? ? ? ?] Hg He Ho Hp Hr. split; rewrite ?He, ?Ho, ?Hp, ?Hr; try done. lia. Qed.

Lemma candidate_head_valid h c :
  head_wf h = true → validate h = Ok () →
  len (head_tail h) < max_tail_entries (head_options h) →
  commit_transaction_id c ∉ tids (head_entries h) →
  commit_sequence c = head_next_sequence h →
  head_generation h < u64_max →
  ∃ h', candidate_head h c = Ok h' ∧ validate h' = Ok ().
Proof.
  intros Hwf Hv%validate_Ok_head_ok Hlen Htid Hseq Hgen.
  pose proof (head_wf_base_start _ Hwf) as Hb. pose proof (ok_generation _ Hv).
  set (h' := set_generation (head_generation h + 1)
         (set_log (head_next_sequence h + 1) (head_checkpoint h) (head_tail h ++ [c])
            (head_recent_outcomes h) h)).
  exists h'. split.
  { unfold candidate_head, advance_generation, checked_add_within. simpl.
    rewrite !(proj2 (Z.leb_le _ _)) by lia. simpl. rewrite (proj2 (Z.leb_le _ _)) by lia. done. }
  destruct Hv as [Htl Hol Hg Hcol Hn Hn64 Ht Hnb Hba Hout Hti].
  apply head_ok_validate; [done|].
  assert (len (head_tail h ++ [c]) = len (head_tail h) + 1) as Hl.
  { rewrite len_app. unfold len at 2. simpl. lia. }
  split; unfold h', base_start in *; simpl in *; rewrite ?Hl; try done; try lia.
  - eapply collection_ok_advance; try done. simpl. lia.
  - apply contiguous_app. split; [done|]. apply contiguous_cons. split; [lia|apply contiguous_nil].
  - intros d Hd. destruct (Hba d Hd). by split.
  - unfold tids, head_entries in *. rewrite <-app_assoc, fmap_app in *.
    rewrite fmap_app, NoDup_app in *. simpl. destruct Hti as (Hn1 & Hd & Hn2).
    rewrite not_elem_of_app in Htid. split_and!; [done| |by apply NoDup_cons; split; [apply Htid|]].
    intros x Hx [->|Hx']%elem_of_cons; [by destruct Htid|by eapply Hd].
Qed.

Lemma keep_window_last window l e :
  0 ≤ window → last (keep_window window l) = Some e → last l = Some e.
Proof.
  intros Hw. destruct (keep_window_drop window l Hw) as [-> _].
  intros He. transitivity (last (take (length l - Z.to_nat window) l ++ drop (length l - Z.to_nat window) l)).
  - by rewrite take_drop.
  - by rewrite last_app, He.
Qed.

Lemma keep_window_sublist window l : 0 ≤ window → keep_window window l `sublist_of` l.
Proof. intros Hw. destruct (keep_window_drop window l Hw) as [-> _]. apply sublist_drop. Qed.

Lemma checkpoint_base_ok h through object i :
  head_wf h = true → head_ok h → head_tail h !! i = Some through → obj_kind object = Checkpoint →
  let rec := keep_window (resolution_window (head_options h))
               (head_recent_outcomes h ++ take (S i) (head_tail h)) in
  let c := MkCheckpointRef (commit_sequence through) (commit_digest through) object in
  len rec = Z.min (commit_sequence through + 1) (resolution_window (head_options h))
  ∧ (∀ e, last rec = Some e → commit_digest e = commit_digest through)
  ∧ contiguous (commit_sequence through + 1 - len rec) rec.
Proof.
  intros Hwf Hok Hi Hkind rec c.
  pose proof (head_wf_window _ Hwf) as Hw. pose proof (head_wf_base_start _ Hwf) as Hb.
  pose proof (ok_tail _ Hok _ _ Hi) as Hseq. pose proof (lookup_lt_Some _ _ _ Hi) as Hlt.
  set (all := head_recent_outcomes h ++ take (S i) (head_tail h)) in *.
  assert (len all = len (head_recent_outcomes h) + Z.of_nat (S i)) as Hall.
  { unfold all. rewrite len_app. unfold len. rewrite length_take. lia. }
  destruct (keep_window_drop (resolution_window (head_options h)) all ltac:(lia)) as [Hdrop Hlen].
  assert (len (head_recent_outcomes h) = Z.min (base_start h) (resolution_window (head_options h))) as Hr.
  { destruct (head_checkpoint h) as [d|] eqn:E; [by apply (ok_base _ Hok d E)|].
    rewrite (ok_no_base _ Hok E). unfold base_start in *. rewrite E in *. unfold len. simpl. lia. }
  assert (contiguous (base_start h - len (head_recent_outcomes h)) all) as Hcont.
  { apply contiguous_app. split; [apply (ok_outcomes _ Hok)|].
    replace (base_start h - len (head_recent_outcomes h) + len (head_recent_outcomes h))
      with (base_start h) by lia. apply contiguous_take, (ok_tail _ Hok). }
  unfold rec. rewrite Hlen. split_and!; [lia| |].
  - intros e He%keep_window_last; [|lia]. unfold all in He.
    rewrite (take_S_last _ _ _ Hi), app_assoc, last_snoc in He. by injection He as ->.
  - rewrite Hdrop.
    apply (contiguous_drop _ (length all - Z.to_nat (resolution_window (head_options h)))) in Hcont.
    unfold len in *.
    by replace (commit_sequence through + 1 - Z.min (Z.of_nat (length all)) (resolution_window (head_options h)))
      with (base_start h - Z.of_nat (length (head_recent_outcomes h)) +
            Z.of_nat (length all - Z.to_nat (resolution_window (head_options h)))) by lia.
Qed.

Lemma checkpoint_head_valid h through object :
  head_wf h = true → validate h = Ok () →
  through ∈ head_tail h → obj_kind object = Checkpoint → head_generation h < u64_max →
  ∃ h', checkpoint_head h through object = Ok h' ∧ validate h' = Ok ().
Proof.
  intros Hwf Hv%validate_Ok_head_ok Hin Hkind Hgen.
  assert (∃ h', checkpoint_head h through object = Ok h') as [h' Hh'].
  { unfold checkpoint_head.
    destruct (position _ _) as [i|] eqn:Ep; simpl.
    - unfold advance_generation, checked_add_within. simpl.
      rewrite (proj2 (Z.leb_le _ _)) by lia. simpl. eauto.
    - exfalso. apply list_elem_of_lookup in Hin as [i Hi].
      clear -Ep Hi. revert i Hi. induction (head_tail h) as [|x l IH]; intros i Hi; [done|].
      simpl in Ep. destruct (bool_decide_reflect (x = through)) as [|Hne]; [done|].
      destruct i as [|i]; simpl in Hi; [congruence|].
      apply fmap_None in Ep. by eapply IH. }
  exists h'. split; [done|]. apply checkpoint_head_Ok in Hh' as (i & Hi & -> & _).
  pose proof (head_wf_window _ Hwf) as Hw. pose proof (head_wf_base_start _ Hwf) as Hb.
  destruct (checkpoint_base_ok h through object i Hwf Hv Hi Hkind) as (Hrl & Hrlast & Hrc).
  pose proof (ok_tail _ Hv _ _ Hi) as Hseq. pose proof (lookup_lt_Some _ _ _ Hi) as Hlt.
  destruct Hv as [Htl Hol Hg Hcol Hn Hn64 Ht Hnb Hba Hout Hti].
  apply head_ok_validate; [unfold base_start; simpl; lia|].
  assert (len (drop (S i) (head_tail h)) = len (head_tail h) - Z.of_nat (S i)) as Hdl.
  { unfold len. rewrite length_drop. lia. }
  split; unfold base_start in *; simpl in *; rewrite ?Hdl; try done; try lia.
  - eapply collection_ok_advance; try done. simpl. lia.
  - rewrite Hseq. eapply (contiguous_drop _ (S i)) in Ht.
    eapply contiguous_start; [exact Ht|lia].
  - intros c [= <-]. by split.
  - rewrite <-(take_drop (S i) (head_tail h)) in Hti at 1.
    assert ((take (S i) (head_tail h) ++ drop (S i) (head_tail h)) ++ head_recent_outcomes h
            ≡ₚ drop (S i) (head_tail h) ++ (head_recent_outcomes h ++ take (S i) (head_tail h))) as Hperm
      by solve_Permutation.
    unfold tids in *. rewrite Hperm in Hti. eapply sublist_NoDup; [exact Hti|].
    apply fmap_sublist, sublist_app; [done|]. apply keep_window_sublist. lia.
Qed.

(** Changing only bookkeeping fields keeps the log part of the invariant. *)
Lemma head_ok_bookkeeping h h' :
  head_ok h → collection_ok h' → head_generation h ≤ head_generation h' →
  head_options h' = head_options h → head_next_sequence h' = head_next_sequence h →
  head_checkpoint h' = head_checkpoint h → head_tail h' = head_tail h →
  head_recent_outcomes h' = head_recent_outcomes h → head_ok h'.
Proof.
  intros [Htl Hol Hg Hcol Hn Hn64 Ht Hnb Hba Hout Hti] Hc Hgen Ho Hnx Hcp Htail Hrec.
  split; unfold base_start in *; rewrite ?Ho, ?Hnx, ?Hcp, ?Htail, ?Hrec; try done; try lia.
  intros c Hc'. destruct (Hba c Hc') as [? ? Hr ?].
  split; unfold base_start in *; rewrite ?Ho, ?Hcp, ?Hrec; done.
Qed.

Lemma advance_valid h h0 :
  head_wf h = true → validate h = Ok () → head_generation h < u64_max →
  head_generation h0 = head_generation h →
  collection_ok (set_generation (head_generation h + 1) h0) →
  head_options h0 = head_options h → head_next_sequence h0 = head_next_sequence h →
  head_checkpoint h0 = head_checkpoint h → head_tail h0 = head_tail h →
  head_recent_outcomes h0 = head_recent_outcomes h →
  ∃ h', advance_generation h0 = Ok h' ∧ validate h' = Ok ().
Proof.
  intros Hwf Hv%validate_Ok_head_ok Hgen Hg0 Hcol Ho Hn Hcp Ht Hr.
  exists (set_generation (head_generation h + 1) h0). split.
  - unfold advance_generation, checked_add_within. rewrite Hg0.
    by rewrite (proj2 (Z.leb_le _ _)) by lia.
  - apply head_ok_validate.
    + pose proof (head_wf_base_start _ Hwf). unfold base_start in *. simpl. by rewrite Hcp.
    + eapply head_ok_bookkeeping; try done. simpl. lia.
Qed.

Lemma retention_head_valid h change :
  head_wf h = true → validate h = Ok () → head_generation h < u64_max →
  retention_classify change h = Conflict →
  (is_acquire change = true →
   Z.of_nat (size (head_retention_ids h)) < max_retention_ids (head_options h)) →
  ∃ h', advance_generation (retention_apply change h) = Ok h' ∧ validate h' = Ok ().
Proof.
  intros Hwf Hv Hgen Hcl Hlim.
  pose proof (ok_collection _ (validate_Ok_head_ok _ Hv)) as [He Hr Hex Hp].
  apply (advance_valid h); try done; try (by destruct change).
  destruct change as [id|id|]; simpl in *.
  - destruct (bool_decide_reflect (id ∈ head_retention_ids h)) as [|Hin]; [done|].
    destruct (bool_decide_reflect (is_Some (head_active_plan h))) as [|Hnp]; [done|].
    split; simpl; try done; try lia.
    rewrite size_union by set_solver. rewrite size_singleton. specialize (Hlim eq_refl). lia.
  - pose proof (subseteq_size (head_retention_ids h ∖ {[id]}) (head_retention_ids h) ltac:(set_solver)).
    split; simpl; try done; try lia. intros Hplan. rewrite Hex by done. set_solver.
  - pose proof (size_empty (C := gset RetentionId)) as H0.
    split; cbn [head_collection_epoch head_generation head_retention_ids head_options head_active_plan
                set_generation set_retention_ids]; try done; lia.
Qed.

Lemma install_plan_head_valid h plan_ref :
  head_wf h = true → validate h = Ok () → head_generation h < u64_max →
  head_active_plan h = None → head_retention_ids h = ∅ →
  0 ≤ plan_len plan_ref ≤ usize_max →
  plan_len plan_ref ≤ max_collection_plan_bytes (head_options h) →
  ∃ h', install_plan_head h (head_collection_epoch h + 1) plan_ref = Ok h' ∧ validate h' = Ok ().
Proof.
  intros Hwf Hv Hgen Hnp Hnr Hlen Hmax.
  pose proof (validate_Ok_head_ok _ Hv) as Hok. pose proof (ok_collection _ Hok) as [He Hr Hex Hp].
  assert (0 ≤ head_collection_epoch h).
  { unfold head_wf, in_u64 in Hwf. bool_hyps. lia. }
  eexists. split.
  - unfold install_plan_head, advance_generation, checked_add_within.
    rewrite (proj2 (Z.leb_le _ _)) by lia. simpl. done.
  - apply head_ok_validate.
    + pose proof (head_wf_base_start _ Hwf). done.
    + eapply head_ok_bookkeeping; try done; [|simpl; lia].
      split; simpl; [lia|lia|done|]. intros p [= <-]. split_and!; lia.
Qed.

Lemma clear_plan_head_valid h :
  head_wf h = true → validate h = Ok () → head_generation h < u64_max →
  ∃ h', clear_plan_head h = Ok h' ∧ validate h' = Ok ().
Proof.
  intros Hwf Hv Hgen. unfold clear_plan_head.
  pose proof (ok_collection _ (validate_Ok_head_ok _ Hv)) as [He Hr Hex Hp].
  apply (advance_valid h); try done. split; simpl; try done; lia.
Qed.

End candidates.

(** ** Reconciling a publication with a newer head *)

(** A head with the same publication base differs only in its generation and its
    reader retentions. *)
Lemma same_publication_base_eq h h' :
  has_same_publication_base h h' = true →
  h' = set_generation (head_generation h') (set_retention_ids (head_retention_ids h') h).
Proof.
  unfold has_same_publication_base. intros Hb. bool_hyps. destruct h, h'; simpl in *.
  unfold set_generation, set_retention_ids. simpl.
  repeat match goal with H : (_ =? _) = true |- _ => apply Z.eqb_eq in H end. by subst.
Qed.

Lemma position_app_l {A} (p : A → bool) l k i : position p l = Some i → position p (l ++ k) = Some i.
Proof.
  revert i. induction l as [|x l IH]; intros i; simpl; [done|].
  destruct (p x); [done|]. rewrite !fmap_Some. intros (j & Hj & ->). eauto.
Qed.

Lemma checkpoint_append_base_eq h h' :
  has_checkpoint_append_base h h' = true →
  ∃ appended,
    h' = set_generation (head_generation h') (set_retention_ids (head_retention_ids h')
           (set_log (head_next_sequence h + len appended) (head_checkpoint h)
              (head_tail h ++ appended) (head_recent_outcomes h) h)).
Proof.
  unfold has_checkpoint_append_base.
  destruct (strip_prefix _ _) as [appended|] eqn:E; [|done]. apply strip_prefix_Some in E.
  intros Hb. bool_hyps. exists appended.
  match goal with H : _ ≫= _ = Some _ |- _ => apply bind_Some in H as (n & Hn & Hnext) end.
  apply u64_try_from_Some in Hn as [-> _]. apply checked_add_Some in Hnext as [Hnext _].
  destruct h, h'; simpl in *. unfold set_generation, set_retention_ids, set_log. simpl.
  repeat match goal with H : (_ =? _) = true |- _ => apply Z.eqb_eq in H end. by subst.
Qed.

Lemma checkpoint_head_rebase h h' through object k :
  has_checkpoint_append_base h h' = true →
  checkpoint_head h through object = Ok k →
  head_generation h' < u64_max →
  ∃ k' appended, checkpoint_head h' through object = Ok k'
  ∧ head_tail h' = head_tail h ++ appended
  ∧ head_checkpoint k' = head_checkpoint k
  ∧ head_recent_outcomes k' = head_recent_outcomes k
  ∧ head_tail k' = head_tail k ++ appended
  ∧ head_next_sequence k' = head_next_sequence h'
  ∧ head_retention_ids k' = head_retention_ids h'
  ∧ head_generation k' = head_generation h' + 1.
Proof.
  intros [appended Happ]%checkpoint_append_base_eq Hk Hgen.
  unfold checkpoint_head in Hk. inv_ok.
  pose proof (proj1 (position_Some _ _ _) Hok) as (e & He & _).
  apply lookup_lt_Some in He. apply advance_generation_Ok in Hk as [-> _].
  rewrite Happ. unfold checkpoint_head. simpl.
  rewrite (position_app_l _ _ _ _ Hok). simpl.
  rewrite take_app_le, drop_app_le by lia.
  unfold advance_generation, checked_add_within. simpl.
  rewrite (proj2 (Z.leb_le _ _)) by lia. simpl. eauto 10.
Qed.

(** ** Resolution against the abstract log *)

(** The outcome the abstract log determines for a candidate position. *)
Definition resolution_spec (h : Head) (a : AbsLog) (target : CommitRef) (v : View)
    : Result Classified Error :=
  let s := commit_sequence target in
  if len (abs_entries a) <? s then Err (invalid "the head precedes the pending commit position")
  else if s =? len (abs_entries a) then Ok (NotCommitted v)
  else if s <? retained_start h then Ok (Expired v)
  else if bool_decide (abs_entries a !! Z.to_nat s = Some target) then Ok (Committed v)
  else Ok (NotCommitted v).

Lemma classify_resolution_spec `{Target} h a target v :
  head_ok h → represents h a → view_head v = h → 0 ≤ commit_sequence target →
  classify_resolution target v = resolution_spec h a target v.
Proof.
  intros Hok Hrep Hv Hpos. unfold classify_resolution, resolution_spec.
  rewrite (contains_commit_elem h v target Hv), Hv.
  pose proof (rep_next _ _ Hrep) as Hn. pose proof (retained_start_nonneg h a Hok Hrep).
  destruct (bool_decide_reflect (target ∈ head_entries h)) as [Hin|Hin].
  - apply (entries_lookup h a Hok Hrep) in Hin as [Hge Hl].
    pose proof (lookup_lt_Some _ _ _ Hl). unfold len in *.
    rewrite (proj2 (Z.ltb_ge _ _)), (proj2 (Z.eqb_neq _ _)), (proj2 (Z.ltb_ge _ _)) by lia.
    by rewrite bool_decide_eq_true_2.
  - rewrite Hn. destruct (Z.ltb_spec (commit_sequence target) (len (abs_entries a))) as [Hlt|Hge].
    + rewrite (proj2 (Z.ltb_ge _ _)), (proj2 (Z.eqb_neq _ _)) by lia.
      rewrite (sequence_retained h a Hok Hrep) by lia.
      destruct (bool_decide_reflect (retained_start h ≤ commit_sequence target)) as [Hr|Hr].
      * rewrite (proj2 (Z.ltb_ge _ _)) by lia. rewrite bool_decide_eq_false_2; [done|].
        intros Hl. apply Hin, (entries_lookup h a Hok Hrep). done.
      * by rewrite (proj2 (Z.ltb_lt _ _)) by lia.
    + destruct (Z.ltb_spec (len (abs_entries a)) (commit_sequence target)); [done|].
      by rewrite (proj2 (Z.eqb_eq _ _)) by lia.
Qed.

Lemma later_log `{Target} h h' a :
  head_ok h → represents h a → rtc head_step h h' →
  head_ok h' ∧ ∃ a', abs_entries a `prefix_of` abs_entries a' ∧ represents h' a'.
Proof.
  intros Hok Hrep Hs. destruct (head_steps_simulate _ _ Hs a Hok Hrep) as (? & a' & Ha & ?).
  split; [done|]. exists a'. split; [by apply abs_steps_prefix|done].
Qed.

(** ** Properties *)

Section claims.
Context `{Target}.

(** C7. Every head update the crate publishes (commit, checkpoint, retention change,
    fence installation, fence clear) keeps the durable invariant and simulates one
    step of the abstract append-only log: it appends one entry at the next sequence,
    moves the compaction point forward inside the log, or changes nothing. *)
Theorem head_update_refines_log h h' a :
  head_ok h → represents h a → head_step h h' →
  head_ok h' ∧ ∃ a', abs_step a a' ∧ represents h' a'.
Proof. apply head_step_simulates. Qed.

(** Every head reachable from an empty log passes [Head::validate] again and
    represents a log built by abstract steps from the empty log. *)
Theorem reachable_head_invariant h :
  reachable h →
  validate h = Ok () ∧ ∃ a, rtc abs_step (MkAbsLog [] 0) a ∧ represents h a.
Proof.
  intros Hr. destruct (reachable_refines h Hr) as (Hok & a & Ha & Hrep).
  split; [|by eauto]. apply head_ok_validate; [apply (rep_base_pos _ _ Hrep)|done].
Qed.

(** Linearizability of the published sequence: two heads of one log, however far
    apart, never retain different commits at the same sequence. *)
Theorem published_log_agreement h h' c d :
  reachable h → rtc head_step h h' →
  c ∈ head_entries h → d ∈ head_entries h' → commit_sequence c = commit_sequence d →
  c = d.
Proof.
  intros Hr Hs Hc Hd Heq. destruct (reachable_refines h Hr) as (Hok & a & _ & Hrep).
  destruct (later_log h h' a Hok Hrep Hs) as (Hok' & a' & Hpre & Hrep').
  apply (entries_lookup h a Hok Hrep) in Hc as [_ Hc].
  apply (entries_lookup h' a' Hok' Hrep') in Hd as [_ Hd].
  rewrite Heq in Hc. eapply prefix_lookup_Some in Hc; [|done]. congruence.
Qed.

(** C15. [classify_resolution] is exact: against any head that represents a log, it
    reports Committed exactly when the log holds the candidate at its sequence and
    still retains it, NotCommitted exactly when the position is open or retained with
    another commit, Expired exactly when the position is older than the retained
    window, and an error exactly when the head is older than the candidate. *)
Theorem classify_resolution_exact h a target v :
  head_ok h → represents h a → view_head v = h → 0 ≤ commit_sequence target →
  classify_resolution target v = resolution_spec h a target v.
Proof. apply classify_resolution_spec. Qed.


(** No operation builds a head that its own validation rejects: a commit at a
    checked position ([validate_commit_position]), a checkpoint through any active
    commit, a retention change within its limit, a fence installed over a head with no
    plan and no retention, and a cleared fence all give valid heads. *)
Theorem candidates_accepted h :
  head_wf h = true → validate h = Ok () → head_generation h < u64_max →
  (∀ c, len (head_tail h) < max_tail_entries (head_options h) →
     commit_transaction_id c ∉ tids (head_entries h) → commit_sequence c = head_next_sequence h →
     ∃ h', candidate_head h c = Ok h' ∧ validate h' = Ok ())
  ∧ (∀ through object, through ∈ head_tail h → obj_kind object = Checkpoint →
     ∃ h', checkpoint_head h through object = Ok h' ∧ validate h' = Ok ())
  ∧ (∀ change, retention_classify change h = Conflict →
     (is_acquire change = true →
      Z.of_nat (size (head_retention_ids h)) < max_retention_ids (head_options h)) →
     ∃ h', advance_generation (retention_apply change h) = Ok h' ∧ validate h' = Ok ())
  ∧ (∀ plan_ref, head_active_plan h = None → head_retention_ids h = ∅ →
     0 ≤ plan_len plan_ref ≤ usize_max →
     plan_len plan_ref ≤ max_collection_plan_bytes (head_options h) →
     ∃ h', install_plan_head h (head_collection_epoch h + 1) plan_ref = Ok h' ∧ validate h' = Ok ())
  ∧ (∃ h', clear_plan_head h = Ok h' ∧ validate h' = Ok ()).
Proof.
  intros Hwf Hv Hgen. split_and!; intros.
  - by apply candidate_head_valid.
  - by apply checkpoint_head_valid.
  - by apply retention_head_valid.
  - by apply install_plan_head_valid.
  - by apply clear_plan_head_valid.
Qed.

(** The collection epoch is a fence: along the updates of one log the generation
    grows by exactly one each time, and an update that advances the epoch observed no
    active plan and no reader retention. *)
Theorem epoch_advances_only_when_drained h h' :
  head_step h h' →
  head_generation h' = head_generation h + 1
  ∧ (head_collection_epoch h' = head_collection_epoch h
     ∨ (head_collection_epoch h' = head_collection_epoch h + 1
        ∧ head_active_plan h = None ∧ head_retention_ids h = ∅ ∧ is_Some (head_active_plan h'))).
Proof. intros Hs. split; [by apply head_step_generation|by apply head_step_epoch]. Qed.

(** Reconciling a checkpoint with a head that only appended commits or moved
    retentions covers exactly the same prefix: the same base and outcome window, the
    appended commits after the original suffix, and the newer retentions. *)
Theorem checkpoint_rebase_preserves_prefix h h' through object k :
  has_checkpoint_append_base h h' = true →
  checkpoint_head h through object = Ok k →
  head_generation h' < u64_max →
  ∃ k' appended, checkpoint_head h' through object = Ok k'
  ∧ head_tail h' = head_tail h ++ appended
  ∧ head_checkpoint k' = head_checkpoint k
  ∧ head_recent_outcomes k' = head_recent_outcomes k
  ∧ head_tail k' = head_tail k ++ appended
  ∧ head_next_sequence k' = head_next_sequence h'
  ∧ head_retention_ids k' = head_retention_ids h'
  ∧ head_generation k' = head_generation h' + 1.
Proof. apply checkpoint_head_rebase. Qed.

(** Checkpoint classification is sound: against a later head of the log, Published
    means the head names exactly this checkpoint, and NotPublished means that exactly
    one update followed the attempted head and it installed another base. *)
Theorem classify_checkpoint_sound h v cp :
  rtc head_step h (view_head v) → head_generation h < u64_max →
  (classify_checkpoint cp v (head_generation h) = Ok (EvidencePublished v) ↔
   head_checkpoint (view_head v) = Some cp)
  ∧ (classify_checkpoint cp v (head_generation h) = Ok (EvidenceNotPublished v) →
     head_step h (view_head v) ∧ head_checkpoint (view_head v) ≠ Some cp).
Proof.
  intros Hs Hgen. unfold classify_checkpoint, checked_add_within.
  rewrite (proj2 (Z.leb_le _ _)) by lia. simpl.
  destruct (bool_decide_reflect (head_checkpoint (view_head v) = Some cp)) as [Hcp|Hcp]; [done|].
  destruct (Z.compare_spec (head_generation (view_head v)) (head_generation h + 1)) as [Heq|Hlt|Hgt];
    try done.
  split; [done|]. intros _. split; [|done].
  destruct Hs as [|h1 h2 h3 Hs1 Hs2]; [lia|].
  apply head_step_generation in Hs1 as Hg1. destruct Hs2 as [|k1 k2 k3 Hs3 Hs4]; [done|].
  apply head_step_generation in Hs3 as Hg2. apply head_steps_generation in Hs4. lia.
Qed.

End claims.

(** ** Witnesses *)

#[local] Existing Instance native64.

Lemma sample_steps : head_step head0 head1 ∧ head_step head1 head2 ∧ head_step head2 head3
  ∧ head_step head3 head4 ∧ head_step head4 head5.
Proof.
  split_and!.
  - apply (step_commit _ commit0); vm_compute; reflexivity.
  - apply (step_commit _ commit1); vm_compute; reflexivity.
  - apply (step_commit _ commit2); vm_compute; reflexivity.
  - apply (step_checkpoint _ commit1 sample_checkpoint_object); vm_compute; reflexivity.
  - apply (step_commit _ commit3); vm_compute; reflexivity.
Qed.

Lemma sample_reachable : reachable head4 ∧ rtc head_step head4 head5.
Proof.
  destruct sample_steps as (? & ? & ? & ? & ?). split; [|by apply rtc_once].
  exists sample_log_id, (sample_uuid Init.Byte.x01), sample_options.
  split; [by vm_compute|]. fold head0. eauto using rtc_l, rtc_refl.
Qed.

Lemma sample_valid : validate head3 = Ok () ∧ validate head4 = Ok () ∧ head_wf head3 = true.
Proof. by vm_compute. Qed.

Lemma sample_represents : represents head0 (MkAbsLog [] 0) ∧ head_ok head0.
Proof. split; [apply represents_empty|by apply validate_Ok_head_ok; vm_compute]. Qed.

Lemma head_update_refines_log_witness :
  head_ok head1 ∧ ∃ a', abs_step (MkAbsLog [] 0) a' ∧ represents head1 a'.
Proof.
  apply (head_update_refines_log head0 head1 (MkAbsLog [] 0)); apply sample_represents || apply sample_steps.
Defined.

Lemma reachable_head_invariant_witness :
  validate head4 = Ok () ∧ ∃ a, rtc abs_step (MkAbsLog [] 0) a ∧ represents head4 a.
Proof. apply (reachable_head_invariant head4), sample_reachable. Defined.

Lemma published_log_agreement_witness :
  default commit0 (head_tail head4 !! 0%nat) = default commit1 (head_tail head5 !! 0%nat).
Proof.
  apply (published_log_agreement head4 head5); try apply sample_reachable; try reflexivity;
    apply (bool_decide_eq_true_1 _); vm_compute; reflexivity.
Defined.

Lemma classify_resolution_exact_witness :
  classify_resolution commit0 (MkView 0 head0 (sample_version "0"))
  = resolution_spec head0 (MkAbsLog [] 0) commit0 (MkView 0 head0 (sample_version "0")).
Proof.
  apply (classify_resolution_exact head0 (MkAbsLog [] 0));
    [apply sample_represents|apply sample_represents|reflexivity|discriminate].
Defined.


Lemma candidates_accepted_witness :
  (∃ h', candidate_head head3 commit3 = Ok h' ∧ validate h' = Ok ())
  ∧ (∃ h', checkpoint_head head3 commit1 sample_checkpoint_object = Ok h' ∧ validate h' = Ok ()).
Proof.
  destruct (candidates_accepted head3) as (Hc & Hcp & _); try apply sample_valid; [vm_compute; reflexivity|].
  split.
  - apply Hc; [vm_compute; reflexivity| |vm_compute; reflexivity].
    apply (bool_decide_eq_false_1 _). vm_compute. reflexivity.
  - apply Hcp; [|vm_compute; reflexivity]. apply (bool_decide_eq_true_1 _). vm_compute. reflexivity.
Defined.

Lemma epoch_advances_only_when_drained_witness : head_generation head1 = head_generation head0 + 1.
Proof. apply (epoch_advances_only_when_drained head0 head1), sample_steps. Defined.

Lemma checkpoint_rebase_preserves_prefix_witness :
  ∃ k' appended, checkpoint_head head3 commit0 sample_checkpoint_object = Ok k'
  ∧ head_tail head3 = head_tail head2 ++ appended
  ∧ head_tail k' = [commit1] ++ appended.
Proof.
  destruct (checkpoint_rebase_preserves_prefix head2 head3 commit0 sample_checkpoint_object
    (or_head (checkpoint_head head2 commit0 sample_checkpoint_object) head0))
    as (k' & appended & Hk & Ht & _ & _ & Hk' & _); try (vm_compute; reflexivity).
  exists k', appended. split; [exact Hk|]. split; [exact Ht|exact Hk'].
Defined.

Lemma classify_checkpoint_sound_witness :
  classify_checkpoint (MkCheckpointRef 1 (commit_digest commit1) sample_checkpoint_object) view4
    (head_generation head3) = Ok (EvidencePublished view4)
  ↔ head_checkpoint head4
    = Some (MkCheckpointRef 1 (commit_digest commit1) sample_checkpoint_object).
Proof.
  apply (classify_checkpoint_sound head3 view4).
  - apply rtc_once. apply sample_steps.
  - reflexivity.
Defined.
