(* ===== verification/Cbor.v ===== *)
(** * CBOR primitives

    [minicbor] is third-party code: the encoder and decoder methods that
    [src/format.rs] calls are the operations of class [Cbor], and what the crate
    relies on is class [CborLaws].  A decoder is the input it has not read yet.
    [rfc8949] is a concrete implementation that satisfies the laws. *)

From Stdlib Require Import Strings.Byte.
From S2P Require Import Prelude.

(** ** UTF-8

    The validity of a Rust [str] (Unicode, table 3-7). *)

Definition between (lo hi : Z) (b : byte) : bool := (lo <=? byte_val b) && (byte_val b <=? hi).
Definition continuation : byte → bool := between 128 191.

Fixpoint utf8_valid (s : bytes) : bool :=
  match s with
  | [] => true
  | a :: s =>
      if between 0 127 a then utf8_valid s
      else match s with
      | [] => false
      | b :: s =>
          if between 194 223 a then continuation b && utf8_valid s
          else match s with
          | [] => false
          | c :: s =>
              if between 224 224 a then between 160 191 b && continuation c && utf8_valid s
              else if between 237 237 a then between 128 159 b && continuation c && utf8_valid s
              else if between 225 239 a then continuation b && continuation c && utf8_valid s
              else match s with
              | [] => false
              | d :: s =>
                  (if between 240 240 a then between 144 191 b
                   else if between 241 243 a then continuation b
                   else between 244 244 a && between 128 143 b)
                  && continuation c && continuation d && utf8_valid s
              end
          end
      end
  end.

Lemma utf8_valid_ascii s : Forall (λ b, between 0 127 b = true) s → utf8_valid s = true.
Proof. induction 1 as [|b s Hb Hs IH]; [done|]. simpl. by rewrite Hb. Qed.

(** ** The interface *)

(** The length of a preferred-serialization head (RFC 8949, section 4.2.1). *)
Definition preferred_head_len (n : Z) : Z :=
  if n <? 24 then 1 else if n <? 2 ^ 8 then 2 else if n <? 2 ^ 16 then 3
  else if n <? 2 ^ 32 then 5 else 9.

Definition DecodeResult (A : Type) : Type := Result (A * bytes) string.

Class Cbor := {
  dec_map : bytes → DecodeResult (option Z);
  dec_array : bytes → DecodeResult (option Z);
  dec_u8 : bytes → DecodeResult Z;
  dec_u32 : bytes → DecodeResult Z;
  dec_u64 : bytes → DecodeResult Z;
  dec_bytes : bytes → DecodeResult bytes;
  dec_str : bytes → DecodeResult bytes;
  enc_map : Z → bytes;
  enc_array : Z → bytes;
  enc_u8 : Z → bytes;
  enc_u32 : Z → bytes;
  enc_u64 : Z → bytes;
  enc_bytes_len : Z → bytes;
  enc_bytes : bytes → bytes;
  enc_str : bytes → bytes
}.

(** A decoder method inverts its encoder on the values of [ok], only advances
    through its input, and only produces values of [ok]. *)
Record DecoderLaws {A} (ok : A → bool) (enc : A → bytes) (dec : bytes → DecodeResult A) : Prop := {
  dec_enc v rest : ok v = true → dec (enc v ++ rest) = Ok (v, rest);
  dec_suffix b v rest : dec b = Ok (v, rest) → rest `suffix_of` b;
  dec_range b v rest : dec b = Ok (v, rest) → ok v = true
}.

Definition in_width (max z : Z) : bool := (0 <=? z) && (z <=? max).
Definition in_slice (b : bytes) : bool := len b <=? u64_max.
Definition in_str (b : bytes) : bool := utf8_valid b && (len b <=? u64_max).

(** Containers have definite or indefinite length; the encoder writes definite
    ones. *)
Definition in_len (n : option Z) : bool := match n with Some n => in_u64 n | None => true end.

Class CborLaws `{Cbor} : Prop := {
  map_enc n rest : in_u64 n = true → dec_map (enc_map n ++ rest) = Ok (Some n, rest);
  map_suffix b v rest : dec_map b = Ok (v, rest) → rest `suffix_of` b;
  map_range b v rest : dec_map b = Ok (v, rest) → in_len v = true;
  array_enc n rest : in_u64 n = true → dec_array (enc_array n ++ rest) = Ok (Some n, rest);
  array_suffix b v rest : dec_array b = Ok (v, rest) → rest `suffix_of` b;
  array_range b v rest : dec_array b = Ok (v, rest) → in_len v = true;
  u8_laws : DecoderLaws (in_width u8_max) enc_u8 dec_u8;
  u32_laws : DecoderLaws (in_width u32_max) enc_u32 dec_u32;
  u64_laws : DecoderLaws in_u64 enc_u64 dec_u64;
  bytes_laws : DecoderLaws in_slice enc_bytes dec_bytes;
  str_laws : DecoderLaws in_str enc_str dec_str;
  (** A byte string is borrowed from the input it ends at. *)
  bytes_borrowed b v rest : dec_bytes b = Ok (v, rest) → v ++ rest `suffix_of` b;
  (** Integers and lengths take their shortest form whatever method writes them. *)
  enc_u8_u64 n : in_width u8_max n = true → enc_u8 n = enc_u64 n;
  enc_u32_u64 n : in_width u32_max n = true → enc_u32 n = enc_u64 n;
  enc_bytes_split v : enc_bytes v = enc_bytes_len (len v) ++ v;
  enc_u64_len n : in_u64 n = true → len (enc_u64 n) = preferred_head_len n;
  enc_map_len n : in_u64 n = true → len (enc_map n) = preferred_head_len n;
  enc_array_len n : in_u64 n = true → len (enc_array n) = preferred_head_len n;
  enc_bytes_len_len n : in_u64 n = true → len (enc_bytes_len n) = preferred_head_len n
}.

(** ** Data items

    The derived [Encode] of a [#[cbor(map)]] struct writes a definite map of its
    present fields in index order. *)

Inductive Item :=
  | IUint (n : Z)
  | IBytes (b : bytes)
  | IStr (s : bytes)
  | IArray (l : list Item)
  | IMap (fields : list (Z * Item)).

Section items.
Context `{Cbor}.

Fixpoint enc_item (i : Item) : bytes :=
  match i with
  | IUint n => enc_u64 n
  | IBytes b => enc_bytes b
  | IStr s => enc_str s
  | IArray l => enc_array (len l) ++ concat (enc_item <$> l)
  | IMap fields =>
      enc_map (len fields) ++ concat ((λ f, enc_u64 f.1 ++ enc_item f.2) <$> fields)
  end.
End items.

(** A field that is left out when it is [None]. *)
Definition opt_field {A} (n : Z) (f : A → Item) (o : option A) : list (Z * Item) :=
  match o with Some a => [(n, f a)] | None => [] end.
