(* ===== verification/Rfc8949.v ===== *)
(** * A concrete CBOR implementation

    Preferred serialization of unsigned integers, byte and text strings, arrays and
    maps (RFC 8949), as a [Cbor] instance that satisfies [CborLaws].  It shows that
    the laws are consistent, and the witnesses of the development evaluate it. *)

From Stdlib Require Import Strings.Byte.
From S2P Require Import Prelude Cbor.

Definition enc_head (major n : Z) : bytes :=
  if n <? 24 then [byte_of (major * 32 + n)]
  else if n <? 2 ^ 8 then byte_of (major * 32 + 24) :: be_bytes 1 n
  else if n <? 2 ^ 16 then byte_of (major * 32 + 25) :: be_bytes 2 n
  else if n <? 2 ^ 32 then byte_of (major * 32 + 26) :: be_bytes 4 n
  else byte_of (major * 32 + 27) :: be_bytes 8 n.

Definition take_be (k : nat) (b : bytes) : DecodeResult Z :=
  if (length b <? k)%nat then Err "end of input bytes" else Ok (of_be_bytes (take k b), drop k b).

(** The argument of a head of type [major]; [None] is an indefinite length. *)
Definition dec_head (major : Z) (b : bytes) : DecodeResult (option Z) :=
  match b with
  | [] => Err "end of input bytes"
  | h :: r =>
      if negb (byte_val h / 32 =? major) then Err "unexpected type"
      else
        let info := byte_val h mod 32 in
        if info <? 24 then Ok (Some info, r)
        else if info =? 31 then Ok (None, r)
        else if 27 <? info then Err "unknown head"
        else
          let k := if info =? 24 then 1%nat else if info =? 25 then 2%nat
                   else if info =? 26 then 4%nat else 8%nat in
          let? '(n, r) := take_be k r in Ok (Some n, r)
  end.

Definition dec_uint (max : Z) (b : bytes) : DecodeResult Z :=
  let? '(n, r) := dec_head 0 b in
  match n with
  | Some n => if n <=? max then Ok (n, r) else Err "integer overflow"
  | None => Err "unexpected type"
  end.

Definition dec_slice (major : Z) (b : bytes) : DecodeResult bytes :=
  let? '(n, r) := dec_head major b in
  match n with
  | Some n =>
      if len r <? n then Err "end of input bytes"
      else Ok (take (Z.to_nat n) r, drop (Z.to_nat n) r)
  | None => Err "unexpected type"
  end.

Definition dec_text (b : bytes) : DecodeResult bytes :=
  let? '(s, r) := dec_slice 3 b in
  if utf8_valid s then Ok (s, r) else Err "invalid utf-8".

#[global] Instance rfc8949 : Cbor := {|
  dec_map := dec_head 5;
  dec_array := dec_head 4;
  dec_u8 := dec_uint u8_max;
  dec_u32 := dec_uint u32_max;
  dec_u64 := dec_uint u64_max;
  dec_bytes := dec_slice 2;
  dec_str := dec_text;
  enc_map := enc_head 5;
  enc_array := enc_head 4;
  enc_u8 := enc_head 0;
  enc_u32 := enc_head 0;
  enc_u64 := enc_head 0;
  enc_bytes_len := enc_head 2;
  enc_bytes b := enc_head 2 (len b) ++ b;
  enc_str s := enc_head 3 (len s) ++ s
|}.

(** ** The laws *)

Lemma take_be_enc k n rest :
  0 ≤ n < 256 ^ Z.of_nat k → take_be k (be_bytes k n ++ rest) = Ok (n, rest).
Proof.
  intros Hn. unfold take_be.
  rewrite length_app, length_be_bytes, (proj2 (Nat.ltb_ge _ _)) by lia.
  rewrite take_app_length', drop_app_length' by (by rewrite length_be_bytes).
  by rewrite of_be_bytes_be, Z.mod_small.
Qed.

Lemma dec_head_enc major n rest :
  0 ≤ major < 8 → in_u64 n = true → dec_head major (enc_head major n ++ rest) = Ok (Some n, rest).
Proof.
  intros Hm Hn. unfold in_u64, u64_max in Hn. bool_hyps. unfold enc_head.
  assert (Hhd : ∀ i, 0 ≤ i < 32 → byte_val (byte_of (major * 32 + i)) / 32 = major
                     ∧ byte_val (byte_of (major * 32 + i)) mod 32 = i).
  { intros i Hi. rewrite byte_val_of, Z.mod_small by lia.
    split; [rewrite Z.div_add_l, Z.div_small by lia; lia|].
    rewrite Z.add_comm, Z.mod_add by lia. by apply Z.mod_small. }
  destruct (n <? 24) eqn:E1.
  { simpl. destruct (Hhd n) as [-> ->]; [lia|]. by rewrite Z.eqb_refl, E1. }
  destruct (n <? 2 ^ 8) eqn:E2; [|destruct (n <? 2 ^ 16) eqn:E3; [|destruct (n <? 2 ^ 32) eqn:E4]];
    cbn [app dec_head].
  - destruct (Hhd 24) as [-> ->]; [lia|]. rewrite Z.eqb_refl. cbn -[be_bytes].
    by rewrite (take_be_enc 1) by lia.
  - destruct (Hhd 25) as [-> ->]; [lia|]. rewrite Z.eqb_refl. cbn -[be_bytes].
    by rewrite (take_be_enc 2) by lia.
  - destruct (Hhd 26) as [-> ->]; [lia|]. rewrite Z.eqb_refl. cbn -[be_bytes].
    by rewrite (take_be_enc 4) by lia.
  - destruct (Hhd 27) as [-> ->]; [lia|]. rewrite Z.eqb_refl. cbn -[be_bytes].
    by rewrite (take_be_enc 8) by lia.
Qed.

Lemma dec_head_Ok major b n rest :
  dec_head major b = Ok (n, rest) → rest `suffix_of` b ∧ in_len n = true.
Proof.
  destruct b as [|h r]; [done|]. unfold dec_head. intros Hd. inv_ok.
  pose proof (Z.mod_pos_bound (byte_val h) 32 ltac:(lia)).
  destruct (byte_val h mod 32 <? 24) eqn:E1.
  { injection Hd as <- <-. split; [by exists [h]|]. unfold in_len, in_u64, u64_max. lia. }
  destruct (byte_val h mod 32 =? 31) eqn:E2.
  { injection Hd as <- <-. split; [by exists [h]|done]. }
  inv_ok. destruct x as [v r']. injection Hd as <- <-. 
  unfold take_be in Hok. inv_ok. split.
  - apply suffix_cons_r. eexists. symmetry. apply take_drop.
  - unfold in_len, in_u64, u64_max.
    match goal with |- context [take ?k r] =>
      pose proof (of_be_bytes_bounds (take k r)) as Hb;
      assert (0 ≤ len (take k r) ≤ 8) as Hl
        by (unfold len; rewrite length_take; repeat case_match; lia)
    end.
    pose proof (Z.pow_le_mono_r 256 _ 8 ltac:(lia) (proj2 Hl)). lia.
Qed.

Lemma enc_head_len major n : in_u64 n = true → len (enc_head major n) = preferred_head_len n.
Proof.
  unfold enc_head, preferred_head_len. intros _.
  repeat case_match; rewrite ?len_cons; unfold len; rewrite ?length_be_bytes; simpl; lia.
Qed.

Lemma dec_uint_laws max : 0 ≤ max ≤ u64_max → DecoderLaws (in_width max) (enc_head 0) (dec_uint max).
Proof.
  intros Hmax. unfold dec_uint, in_width. split.
  - intros v rest Hv. bool_hyps. rewrite dec_head_enc by (try lia; unfold in_u64; lia). simpl.
    by rewrite (proj2 (Z.leb_le _ _)) by lia.
  - intros b v rest Hd. inv_ok. destruct x as [[n|] r]; inv_ok.
    apply dec_head_Ok in Hok as [? _]. congruence.
  - intros b v rest Hd. inv_ok. destruct x as [[n|] r]; inv_ok.
    apply dec_head_Ok in Hok as [_ Hn]. simpl in Hn. unfold in_u64 in Hn. bool_hyps.
    lia.
Qed.

Lemma dec_slice_enc major s rest :
  0 ≤ major < 8 → len s ≤ u64_max →
  dec_slice major (enc_head major (len s) ++ s ++ rest) = Ok (s, rest).
Proof.
  intros Hm Hs. unfold dec_slice. pose proof (len_nonneg s). pose proof (len_nonneg rest).
  rewrite dec_head_enc by (try lia; unfold in_u64; lia). simpl.
  rewrite len_app, (proj2 (Z.ltb_ge _ _)) by lia. unfold len. rewrite Nat2Z.id.
  by rewrite take_app_length, drop_app_length.
Qed.

Lemma dec_slice_Ok major b s rest :
  dec_slice major b = Ok (s, rest) → s ++ rest `suffix_of` b ∧ len s ≤ u64_max.
Proof.
  unfold dec_slice. intros Hd. inv_ok. destruct x as [[n|] r]; inv_ok.
  apply dec_head_Ok in Hok as [Hsuf Hn]. simpl in Hn.
  unfold in_u64 in Hn. bool_hyps. rewrite take_drop. split; [done|].
  unfold len. rewrite length_take. lia.
Qed.

Lemma suffix_of_app_r {A} (l k m : list A) : l ++ k `suffix_of` m → k `suffix_of` m.
Proof. intros [p ->]. exists (p ++ l). by rewrite <-app_assoc. Qed.

Lemma dec_slice_laws major : 0 ≤ major < 8 →
  DecoderLaws in_slice (λ b, enc_head major (len b) ++ b) (dec_slice major).
Proof.
  intros Hm. unfold in_slice. split.
  - intros v rest Hv. rewrite <-app_assoc. apply dec_slice_enc; lia.
  - intros b v rest [Hd _]%dec_slice_Ok. by eapply suffix_of_app_r.
  - intros b v rest [_ Hd]%dec_slice_Ok. lia.
Qed.

Lemma dec_text_laws : DecoderLaws in_str (λ s, enc_head 3 (len s) ++ s) dec_text.
Proof.
  unfold in_str, dec_text. split.
  - intros v rest Hv. bool_hyps. rewrite <-app_assoc, dec_slice_enc by lia. simpl.
    by match goal with H : utf8_valid v = true |- _ => rewrite H end.
  - intros b v rest Hd. inv_ok. destruct x as [s r]. inv_ok.
    apply dec_slice_Ok in Hok as [Hsuf _]. by eapply suffix_of_app_r.
  - intros b v rest Hd. inv_ok. destruct x as [s r]. inv_ok.
    apply dec_slice_Ok in Hok as [_ Hlen]. 
    match goal with H : utf8_valid _ = true |- _ => rewrite H end. simpl. lia.
Qed.

#[global] Instance rfc8949_laws : CborLaws.
Proof.
  split; try done; simpl; intros;
    try (by apply dec_head_enc; try lia); try (by eapply dec_head_Ok); try (by apply enc_head_len).
  - by apply dec_uint_laws.
  - by apply dec_uint_laws.
  - by apply dec_uint_laws.
  - by apply dec_slice_laws.
  - apply dec_text_laws.
  - by eapply dec_slice_Ok.
Qed.
