(* ===== verification/Wire.v ===== *)
(** * Wire structs

    The [#[derive(Encode, Decode)] #[cbor(map)]] structs of [src/format.rs] with
    their field numbers, and their conversions to and from the decoded types.  The
    derived encoders write the fields in index order and leave out a [None]; the
    derived decoders are generated code, a parameter that inverts the encoders. *)

From S2P Require Import Prelude Types Head Cbor.

Definition FORMAT_VERSION : Z := 1.

(** ** Fixed-width fields *)

(** [digest], [uuid], [transaction_id] and [storage_id]. *)
Definition digest (value : bytes) : Result Digest Error :=
  if len value =? DIGEST_LEN then Ok (MkDigest value) else Err (invalid "digest has an invalid length").

Definition uuid (value : bytes) (name : string) : Result Uuid Error :=
  if negb (len value =? UUID_LEN) then Err (InvalidFormat (name +:+ " has an invalid length"))
  else Ok (MkUuid value).

Definition transaction_id (value : bytes) : Result TransactionId Error :=
  let? value := uuid value "transaction ID" in Ok (MkTransactionId value).

Definition storage_id (value : bytes) : Result StorageId Error :=
  let? value := uuid value "physical storage ID" in Ok (MkStorageId value).

#[global] Arguments digest : simpl never.
#[global] Arguments uuid : simpl never.
#[global] Arguments transaction_id : simpl never.
#[global] Arguments storage_id : simpl never.

(** ** References *)

Record CommitRefWire := MkCommitRefWire {
  crw_sequence : Z;
  crw_transaction_id : bytes;
  crw_digest : bytes;
  crw_len : Z;
  crw_storage_id : bytes
}.

Definition commit_ref_item (w : CommitRefWire) : Item :=
  IMap [(1, IUint (crw_sequence w)); (2, IBytes (crw_transaction_id w)); (3, IBytes (crw_digest w));
        (4, IUint (crw_len w)); (5, IBytes (crw_storage_id w))].

(** [CommitRefWire::from] and [CommitRef::try_from]. *)
Definition commit_ref_to_wire (c : CommitRef) : CommitRefWire := {|
  crw_sequence := commit_sequence c;
  crw_transaction_id := uuid_bytes (transaction_uuid (commit_transaction_id c));
  crw_digest := digest_bytes (commit_digest c);
  crw_len := commit_len c;
  crw_storage_id := uuid_bytes (storage_uuid (commit_storage_id c))
|}.

Definition commit_ref_of_wire (w : CommitRefWire) : Result CommitRef Error :=
  let? t := transaction_id (crw_transaction_id w) in
  let? s := storage_id (crw_storage_id w) in
  let? d := digest (crw_digest w) in
  Ok (MkCommitRef (crw_sequence w) t s d (crw_len w)).

Record ObjectRefWire := MkObjectRefWire {
  orw_kind : Z;
  orw_digest : bytes;
  orw_len : Z;
  orw_storage_id : bytes;
  orw_subtree_objects : Z
}.

Definition object_ref_item (w : ObjectRefWire) : Item :=
  IMap [(1, IUint (orw_kind w)); (2, IBytes (orw_digest w)); (3, IUint (orw_len w));
        (4, IBytes (orw_storage_id w)); (5, IUint (orw_subtree_objects w))].

(** The discriminants of [ObjectKindWire]. *)
Definition object_kind_code (k : ObjectKind) : Z :=
  match k with Blob => 1 | Checkpoint => 2 | Node => 3 end.

Definition object_kind_of_code (z : Z) : option ObjectKind :=
  match z with 1 => Some Blob | 2 => Some Checkpoint | 3 => Some Node | _ => None end.

(** [ObjectRefWire::from] and [ObjectRef::try_from]. *)
Definition object_ref_to_wire (o : ObjectRef) : ObjectRefWire := {|
  orw_kind := object_kind_code (obj_kind o);
  orw_digest := digest_bytes (obj_digest o);
  orw_len := obj_len o;
  orw_storage_id := uuid_bytes (storage_uuid (obj_storage_id o));
  orw_subtree_objects := obj_subtree_objects o
|}.

Definition object_ref_of_wire (w : ObjectRefWire) : Result ObjectRef Error :=
  let? kind := ok_or (object_kind_of_code (orw_kind w)) (invalid "invalid object kind") in
  let? s := storage_id (orw_storage_id w) in
  let? d := digest (orw_digest w) in
  let object := MkObjectRef kind s d (orw_len w) (orw_subtree_objects w) in
  do? validate_count object;
  Ok object.

Record CheckpointRefWire := MkCheckpointRefWire {
  kpw_through_sequence : Z;
  kpw_through_commit : bytes;
  kpw_object : option ObjectRefWire
}.

Definition checkpoint_ref_item (w : CheckpointRefWire) : Item :=
  IMap ([(1, IUint (kpw_through_sequence w)); (2, IBytes (kpw_through_commit w))]
        ++ opt_field 3 object_ref_item (kpw_object w)).

(** [CheckpointRefWire::from] and [CheckpointRef::try_from]. *)
Definition checkpoint_ref_to_wire (c : CheckpointRef) : CheckpointRefWire := {|
  kpw_through_sequence := through_sequence c;
  kpw_through_commit := digest_bytes (through_commit c);
  kpw_object := Some (object_ref_to_wire (checkpoint_object c))
|}.

Definition checkpoint_ref_of_wire (w : CheckpointRefWire) : Result CheckpointRef Error :=
  let? o := ok_or (kpw_object w) (invalid "checkpoint object is missing") in
  let? object := object_ref_of_wire o in
  if negb (bool_decide (obj_kind object = Checkpoint))
  then Err (invalid "checkpoint reference names a non-checkpoint object")
  else
    let? d := digest (kpw_through_commit w) in
    Ok (MkCheckpointRef (kpw_through_sequence w) d object).

Record CollectionPlanRefWire := MkCollectionPlanRefWire {
  prw_storage_id : bytes;
  prw_digest : bytes;
  prw_len : Z
}.

Definition plan_ref_item (w : CollectionPlanRefWire) : Item :=
  IMap [(1, IBytes (prw_storage_id w)); (2, IBytes (prw_digest w)); (3, IUint (prw_len w))].

(** [CollectionPlanRefWire::from] and [CollectionPlanRef::try_from]. *)
Definition plan_ref_to_wire (p : CollectionPlanRef) : CollectionPlanRefWire := {|
  prw_storage_id := uuid_bytes (storage_uuid (plan_storage_id p));
  prw_digest := digest_bytes (plan_digest p);
  prw_len := plan_len p
|}.

Definition plan_ref_of_wire (w : CollectionPlanRefWire) : Result CollectionPlanRef Error :=
  let? s := storage_id (prw_storage_id w) in
  let? d := digest (prw_digest w) in
  Ok (MkCollectionPlanRef s d (prw_len w)).

(** ** Options *)

Record OptionsWire := MkOptionsWire {
  ow_max_tail_entries : Z;
  ow_resolution_window : Z;
  ow_max_inline_operation_bytes : Z;
  ow_max_inline_result_bytes : Z;
  ow_max_object_refs : Z;
  ow_max_commit_bytes : Z;
  ow_max_head_bytes : Z;
  ow_max_checkpoint_bytes : Z;
  ow_max_object_bytes : Z;
  ow_max_retention_ids : Z;
  ow_max_collection_objects : Z;
  ow_max_collection_plan_bytes : Z
}.

Definition options_wire_values (w : OptionsWire) : list Z :=
  [ow_max_tail_entries w; ow_resolution_window w; ow_max_inline_operation_bytes w;
   ow_max_inline_result_bytes w; ow_max_object_refs w; ow_max_commit_bytes w;
   ow_max_head_bytes w; ow_max_checkpoint_bytes w; ow_max_object_bytes w;
   ow_max_retention_ids w; ow_max_collection_objects w; ow_max_collection_plan_bytes w].

Definition options_item (w : OptionsWire) : Item :=
  IMap (zip [1; 2; 3; 4; 5; 6; 7; 8; 9; 10; 11; 12] (IUint <$> options_wire_values w)).

Definition option_to_u64 (value : Z) : Result Z Error :=
  ok_or (u64_try_from value) (LimitExceeded "durable option").

Definition option_to_usize `{Target} (value : Z) : Result Z Error :=
  ok_or (usize_try_from value) (LimitExceeded "durable option").

(** The two conversions of the [options_wire!] macro. *)
Definition options_to_wire (o : Options) : Result OptionsWire Error :=
  let? a := option_to_u64 (max_tail_entries o) in
  let? b := option_to_u64 (resolution_window o) in
  let? c := option_to_u64 (max_inline_operation_bytes o) in
  let? d := option_to_u64 (max_inline_result_bytes o) in
  let? e := option_to_u64 (max_object_refs o) in
  let? f := option_to_u64 (max_commit_bytes o) in
  let? g := option_to_u64 (max_head_bytes o) in
  let? h := option_to_u64 (max_checkpoint_bytes o) in
  let? i := option_to_u64 (max_object_bytes o) in
  let? j := option_to_u64 (max_retention_ids o) in
  let? k := option_to_u64 (max_collection_objects o) in
  let? l := option_to_u64 (max_collection_plan_bytes o) in
  Ok (MkOptionsWire a b c d e f g h i j k l).

Definition options_of_wire `{Target} (w : OptionsWire) : Result Options Error :=
  let? a := option_to_usize (ow_max_tail_entries w) in
  let? b := option_to_usize (ow_resolution_window w) in
  let? c := option_to_usize (ow_max_inline_operation_bytes w) in
  let? d := option_to_usize (ow_max_inline_result_bytes w) in
  let? e := option_to_usize (ow_max_object_refs w) in
  let? f := option_to_usize (ow_max_commit_bytes w) in
  let? g := option_to_usize (ow_max_head_bytes w) in
  let? h := option_to_usize (ow_max_checkpoint_bytes w) in
  let? i := option_to_usize (ow_max_object_bytes w) in
  let? j := option_to_usize (ow_max_retention_ids w) in
  let? k := option_to_usize (ow_max_collection_objects w) in
  let? l := option_to_usize (ow_max_collection_plan_bytes w) in
  Ok {| max_tail_entries := a; resolution_window := b; max_inline_operation_bytes := c;
        max_inline_result_bytes := d; max_object_refs := e; max_commit_bytes := f;
        max_head_bytes := g; max_checkpoint_bytes := h; max_object_bytes := i;
        max_retention_ids := j; max_collection_objects := k; max_collection_plan_bytes := l |}.

(** ** Top-level messages *)

Record EnvelopeWire := MkEnvelopeWire { ew_payload : bytes; ew_digest : bytes }.

Definition envelope_item (w : EnvelopeWire) : Item :=
  IMap [(1, IBytes (ew_payload w)); (2, IBytes (ew_digest w))].

Record HeadWire := MkHeadWire {
  hw_format_version : Z;
  hw_log_id : bytes;
  hw_generation : Z;
  hw_next_sequence : Z;
  hw_checkpoint : option CheckpointRefWire;
  hw_tail : list CommitRefWire;
  hw_recent_outcomes : list CommitRefWire;
  hw_incarnation : bytes;
  hw_options : OptionsWire;
  hw_collection_epoch : Z;
  hw_active_plan : option CollectionPlanRefWire;
  hw_retention_ids : list bytes
}.

Definition head_item (w : HeadWire) : Item :=
  IMap ([(1, IUint (hw_format_version w)); (2, IStr (hw_log_id w)); (3, IUint (hw_generation w));
         (4, IUint (hw_next_sequence w))]
        ++ opt_field 5 checkpoint_ref_item (hw_checkpoint w)
        ++ [(6, IArray (commit_ref_item <$> hw_tail w));
            (7, IArray (commit_ref_item <$> hw_recent_outcomes w));
            (8, IBytes (hw_incarnation w)); (9, options_item (hw_options w));
            (10, IUint (hw_collection_epoch w))]
        ++ opt_field 11 plan_ref_item (hw_active_plan w)
        ++ [(12, IArray (IBytes <$> hw_retention_ids w))]).

(** Fields declared [Cow<'a, [u8]>] with [borrow] are slices of the decoder's
    input: their contents, and where they start in it. *)
Record Slice := MkSlice { slice_at : Z; slice_bytes : bytes }.

Record CommitWire (B : Type) := MkCommitWire {
  cw_format_version : Z;
  cw_log_id : bytes;
  cw_transaction_id : bytes;
  cw_expected_tip : option bytes;
  cw_operation : B;
  cw_result : B;
  cw_objects : list ObjectRefWire;
  cw_incarnation : bytes
}.
Arguments MkCommitWire {B}.
Arguments cw_format_version {B}. Arguments cw_log_id {B}. Arguments cw_transaction_id {B}.
Arguments cw_expected_tip {B}. Arguments cw_operation {B}. Arguments cw_result {B}.
Arguments cw_objects {B}. Arguments cw_incarnation {B}.

(** The contents of a decoded message, which is what encoding it writes. *)
Definition commit_contents (w : CommitWire Slice) : CommitWire bytes :=
  MkCommitWire (cw_format_version w) (cw_log_id w) (cw_transaction_id w) (cw_expected_tip w)
    (slice_bytes (cw_operation w)) (slice_bytes (cw_result w)) (cw_objects w) (cw_incarnation w).

Definition commit_item (w : CommitWire bytes) : Item :=
  IMap ([(1, IUint (cw_format_version w)); (2, IStr (cw_log_id w));
         (3, IBytes (cw_transaction_id w))]
        ++ opt_field 4 IBytes (cw_expected_tip w)
        ++ [(5, IBytes (cw_operation w)); (6, IBytes (cw_result w));
            (7, IArray (object_ref_item <$> cw_objects w)); (8, IBytes (cw_incarnation w))]).

Record CheckpointWire (B : Type) := MkCheckpointWire {
  kw_format_version : Z;
  kw_log_id : bytes;
  kw_through_sequence : Z;
  kw_through_commit : bytes;
  kw_snapshot : B;
  kw_incarnation : bytes;
  kw_objects : list ObjectRefWire
}.
Arguments MkCheckpointWire {B}.
Arguments kw_format_version {B}. Arguments kw_log_id {B}. Arguments kw_through_sequence {B}.
Arguments kw_through_commit {B}. Arguments kw_snapshot {B}. Arguments kw_incarnation {B}.
Arguments kw_objects {B}.

Definition checkpoint_contents (w : CheckpointWire Slice) : CheckpointWire bytes :=
  MkCheckpointWire (kw_format_version w) (kw_log_id w) (kw_through_sequence w) (kw_through_commit w)
    (slice_bytes (kw_snapshot w)) (kw_incarnation w) (kw_objects w).

Definition checkpoint_item (w : CheckpointWire bytes) : Item :=
  IMap [(1, IUint (kw_format_version w)); (2, IStr (kw_log_id w));
        (3, IUint (kw_through_sequence w)); (4, IBytes (kw_through_commit w));
        (5, IBytes (kw_snapshot w)); (6, IBytes (kw_incarnation w));
        (7, IArray (object_ref_item <$> kw_objects w))].

Record RecoveryTokenWire := MkRecoveryTokenWire {
  rw_format_version : Z;
  rw_head_digest : bytes;
  rw_e_tag : option bytes;
  rw_storage_version : option bytes;
  rw_transaction_id : bytes;
  rw_operation : bytes;
  rw_result : bytes;
  rw_objects : list ObjectRefWire;
  rw_storage_id : bytes;
  rw_publication_base_digest : bytes;
  rw_generation : Z;
  rw_next_sequence : Z;
  rw_tip : option bytes;
  rw_log_id : bytes;
  rw_incarnation : bytes;
  rw_options_digest : bytes
}.

Definition token_item (w : RecoveryTokenWire) : Item :=
  IMap ([(1, IUint (rw_format_version w)); (2, IBytes (rw_head_digest w))]
        ++ opt_field 3 IStr (rw_e_tag w)
        ++ opt_field 4 IStr (rw_storage_version w)
        ++ [(5, IBytes (rw_transaction_id w)); (6, IBytes (rw_operation w));
            (7, IBytes (rw_result w)); (8, IArray (object_ref_item <$> rw_objects w));
            (9, IBytes (rw_storage_id w)); (10, IBytes (rw_publication_base_digest w));
            (11, IUint (rw_generation w)); (12, IUint (rw_next_sequence w))]
        ++ opt_field 13 IBytes (rw_tip w)
        ++ [(14, IStr (rw_log_id w)); (15, IBytes (rw_incarnation w));
            (16, IBytes (rw_options_digest w))]).

Record CollectionCandidateWire := MkCollectionCandidateWire {
  ccw_incarnation : bytes;
  ccw_kind : Z;
  ccw_storage_id : bytes;
  ccw_digest : bytes;
  ccw_bytes : Z
}.

Definition candidate_item (w : CollectionCandidateWire) : Item :=
  IMap [(1, IBytes (ccw_incarnation w)); (2, IUint (ccw_kind w)); (3, IBytes (ccw_storage_id w));
        (4, IBytes (ccw_digest w)); (5, IUint (ccw_bytes w))].

(** The discriminants of [ImmutableKindWire]. *)
Definition immutable_kind_code (k : ImmutableKind) : Z :=
  match k with KCommit => 1 | KBlob => 2 | KNode => 3 | KCheckpoint => 4 | KCollectionPlan => 5 end.

Definition immutable_kind_of_code (z : Z) : option ImmutableKind :=
  match z with
  | 1 => Some KCommit | 2 => Some KBlob | 3 => Some KNode | 4 => Some KCheckpoint
  | 5 => Some KCollectionPlan | _ => None
  end.

(** [CollectionCandidateWire::from]. *)
Definition candidate_to_wire (c : CollectionCandidate) : CollectionCandidateWire := {|
  ccw_incarnation := uuid_bytes (key_incarnation (candidate_key c));
  ccw_kind := immutable_kind_code (key_kind (candidate_key c));
  ccw_storage_id := uuid_bytes (storage_uuid (key_storage_id (candidate_key c)));
  ccw_digest := digest_bytes (key_digest (candidate_key c));
  ccw_bytes := candidate_size c
|}.

Record CollectionPlanWire := MkCollectionPlanWire {
  pw_format_version : Z;
  pw_log_id : bytes;
  pw_collection_epoch : Z;
  pw_candidates : list CollectionCandidateWire
}.

Definition plan_item (w : CollectionPlanWire) : Item :=
  IMap [(1, IUint (pw_format_version w)); (2, IStr (pw_log_id w));
        (3, IUint (pw_collection_epoch w)); (4, IArray (candidate_item <$> pw_candidates w))].

(** ** Well-formed items

    What the field types guarantee: integers fit [u64], strings are UTF-8. *)

Fixpoint item_wf (i : Item) : bool :=
  match i with
  | IUint n => in_u64 n
  | IBytes b => in_slice b
  | IStr s => in_str s
  | IArray l => (len l <=? u64_max) && forallb item_wf l
  | IMap fields => (len fields <=? 24) && forallb (λ f, in_width u8_max f.1 && item_wf f.2) fields
  end.

Definition object_ref_wire_wf (w : ObjectRefWire) : bool :=
  item_wf (object_ref_item w) && in_width u8_max (orw_kind w).

Definition head_wire_wf (w : HeadWire) : bool :=
  item_wf (head_item w) && in_width u32_max (hw_format_version w)
  && match hw_checkpoint w with
     | Some c => match kpw_object c with Some o => object_ref_wire_wf o | None => true end
     | None => true
     end.

Definition commit_wire_wf (w : CommitWire bytes) : bool :=
  item_wf (commit_item w) && in_width u32_max (cw_format_version w)
  && forallb object_ref_wire_wf (cw_objects w).

Definition checkpoint_wire_wf (w : CheckpointWire bytes) : bool :=
  item_wf (checkpoint_item w) && in_width u32_max (kw_format_version w)
  && forallb object_ref_wire_wf (kw_objects w).

Definition token_wire_wf (w : RecoveryTokenWire) : bool :=
  item_wf (token_item w) && in_width u32_max (rw_format_version w)
  && forallb object_ref_wire_wf (rw_objects w).

(** [&bytes[start..end]]. *)
Definition range (b : bytes) (r : Z * Z) : bytes :=
  take (Z.to_nat (r.2 - r.1)) (drop (Z.to_nat r.1) b).

(** A borrowed field lies in the input it was decoded from. *)
Definition slice_in (input : bytes) (s : Slice) : Prop :=
  0 ≤ slice_at s
  ∧ range input (slice_at s, slice_at s + len (slice_bytes s)) = slice_bytes s
  ∧ slice_at s + len (slice_bytes s) ≤ len input.

(** ** Derived decoders *)

Class DerivedDecode := {
  decode_envelope_wire : bytes → DecodeResult EnvelopeWire;
  decode_head_wire : bytes → DecodeResult HeadWire;
  decode_commit_wire : bytes → DecodeResult (CommitWire Slice);
  decode_checkpoint_wire : bytes → DecodeResult (CheckpointWire Slice);
  decode_token_wire : bytes → DecodeResult RecoveryTokenWire
}.

Class DerivedDecodeLaws `{Cbor} `{!DerivedDecode} : Prop := {
  envelope_wire_enc w rest :
    item_wf (envelope_item w) = true →
    decode_envelope_wire (enc_item (envelope_item w) ++ rest) = Ok (w, rest);
  head_wire_enc w rest :
    head_wire_wf w = true → decode_head_wire (enc_item (head_item w) ++ rest) = Ok (w, rest);
  commit_wire_enc w rest :
    commit_wire_wf w = true →
    ∃ w', decode_commit_wire (enc_item (commit_item w) ++ rest) = Ok (w', rest)
          ∧ commit_contents w' = w;
  checkpoint_wire_enc w rest :
    checkpoint_wire_wf w = true →
    ∃ w', decode_checkpoint_wire (enc_item (checkpoint_item w) ++ rest) = Ok (w', rest)
          ∧ checkpoint_contents w' = w;
  token_wire_enc w rest :
    token_wire_wf w = true → decode_token_wire (enc_item (token_item w) ++ rest) = Ok (w, rest);
  commit_wire_borrowed b w rest :
    decode_commit_wire b = Ok (w, rest) → slice_in b (cw_operation w) ∧ slice_in b (cw_result w);
  checkpoint_wire_borrowed b w rest :
    decode_checkpoint_wire b = Ok (w, rest) → slice_in b (kw_snapshot w);
  (** A derived decoder only produces values of its fields' types. *)
  head_wire_typed b w rest : decode_head_wire b = Ok (w, rest) → head_wire_wf w = true;
  token_wire_typed b w rest : decode_token_wire b = Ok (w, rest) → token_wire_wf w = true
}.

(** ** Conversions invert each other *)

Lemma digest_Ok v d : digest v = Ok d ↔ d = MkDigest v ∧ len v = DIGEST_LEN.
Proof.
  unfold digest. split.
  - intros Hd. inv_ok. split; [done|lia].
  - intros [-> ->]. done.
Qed.

Lemma uuid_Ok v name u : uuid v name = Ok u ↔ u = MkUuid v ∧ len v = UUID_LEN.
Proof.
  unfold uuid. split.
  - intros Hd. inv_ok. bool_hyps. split; [done|lia].
  - intros [-> ->]. done.
Qed.

Lemma transaction_id_Ok v t :
  transaction_id v = Ok t ↔ t = MkTransactionId (MkUuid v) ∧ len v = UUID_LEN.
Proof.
  unfold transaction_id. split.
  - intros Ht. inv_ok. by apply uuid_Ok in Hok as [-> ?].
  - intros [-> Hv]. by rewrite (proj2 (uuid_Ok v _ _) (conj eq_refl Hv)).
Qed.

Lemma storage_id_Ok v s : storage_id v = Ok s ↔ s = MkStorageId (MkUuid v) ∧ len v = UUID_LEN.
Proof.
  unfold storage_id. split.
  - intros Ht. inv_ok. by apply uuid_Ok in Hok as [-> ?].
  - intros [-> Hv]. by rewrite (proj2 (uuid_Ok v _ _) (conj eq_refl Hv)).
Qed.

Lemma digest_wf_Ok d : digest_wf d = true → digest (digest_bytes d) = Ok d.
Proof. unfold digest_wf. intros Hd. apply digest_Ok. destruct d. split; [done|]. simpl in *. lia. Qed.

Lemma uuid_wf_Ok u name : uuid_wf u = true → uuid (uuid_bytes u) name = Ok u.
Proof. unfold uuid_wf. intros Hd. apply uuid_Ok. destruct u. split; [done|]. simpl in *. lia. Qed.

Lemma storage_wf_Ok s : uuid_wf (storage_uuid s) = true → storage_id (uuid_bytes (storage_uuid s)) = Ok s.
Proof. intros Hs. unfold storage_id. rewrite (uuid_wf_Ok _ _ Hs). by destruct s. Qed.

Lemma transaction_wf_Ok t :
  uuid_wf (transaction_uuid t) = true → transaction_id (uuid_bytes (transaction_uuid t)) = Ok t.
Proof. intros Ht. unfold transaction_id. rewrite (uuid_wf_Ok _ _ Ht). by destruct t. Qed.

Lemma object_kind_code_of k z : object_kind_of_code z = Some k ↔ z = object_kind_code k.
Proof.
  split; [|intros ->; by destruct k].
  unfold object_kind_of_code. intros H. repeat case_match; by simplify_eq.
Qed.

Lemma immutable_kind_code_of k z : immutable_kind_of_code z = Some k ↔ z = immutable_kind_code k.
Proof.
  split; [|intros ->; by destruct k].
  unfold immutable_kind_of_code. intros H. repeat case_match; by simplify_eq.
Qed.

Lemma commit_ref_wire_inv w c : commit_ref_of_wire w = Ok c → commit_ref_to_wire c = w.
Proof.
  unfold commit_ref_of_wire. intros Hc. inv_ok.
  apply transaction_id_Ok in Hok as [-> _]. apply storage_id_Ok in Hok0 as [-> _].
  apply digest_Ok in Hok1 as [-> _]. by destruct w.
Qed.

Lemma commit_ref_wire_Ok c : commit_ref_wf c = true → commit_ref_of_wire (commit_ref_to_wire c) = Ok c.
Proof.
  unfold commit_ref_wf, commit_ref_of_wire. intros Hwf. bool_hyps. simpl.
  rewrite transaction_wf_Ok, storage_wf_Ok, digest_wf_Ok by done. by destruct c.
Qed.

Lemma object_ref_wire_inv w o : object_ref_of_wire w = Ok o → object_ref_to_wire o = w.
Proof.
  unfold object_ref_of_wire. intros Hc. inv_ok. apply object_kind_code_of in Hok.
  apply storage_id_Ok in Hok0 as [-> _]. apply digest_Ok in Hok1 as [-> _].
  destruct w. unfold object_ref_to_wire. simpl in *. by subst.
Qed.

Lemma object_ref_wire_Ok o :
  object_ref_wf o = true → validate_count o = Ok () →
  object_ref_of_wire (object_ref_to_wire o) = Ok o.
Proof.
  unfold object_ref_wf, object_ref_of_wire. intros Hwf Hc. bool_hyps. simpl.
  rewrite (proj2 (object_kind_code_of _ _) eq_refl), storage_wf_Ok, digest_wf_Ok by done. simpl.
  destruct o. simpl in *. by rewrite Hc.
Qed.

Lemma plan_ref_wire_Ok p : plan_ref_wf p = true → plan_ref_of_wire (plan_ref_to_wire p) = Ok p.
Proof.
  unfold plan_ref_wf, plan_ref_of_wire. intros Hwf. bool_hyps. simpl.
  rewrite storage_wf_Ok, digest_wf_Ok by done. by destruct p.
Qed.

Lemma checkpoint_ref_wire_Ok c :
  checkpoint_ref_wf c = true → obj_kind (checkpoint_object c) = Checkpoint →
  validate_count (checkpoint_object c) = Ok () →
  checkpoint_ref_of_wire (checkpoint_ref_to_wire c) = Ok c.
Proof.
  unfold checkpoint_ref_wf, checkpoint_ref_of_wire. intros Hwf Hk Hc. bool_hyps. simpl.
  rewrite object_ref_wire_Ok by done. simpl. rewrite bool_decide_eq_true_2 by done. simpl.
  rewrite digest_wf_Ok by done. by destruct c.
Qed.

Lemma options_wire_Ok `{Target} o :
  options_wf o = true → ∃ w, options_to_wire o = Ok w ∧ options_of_wire w = Ok o
                             ∧ Forall (λ z, in_u64 z = true) (options_wire_values w).
Proof.
  unfold options_wf. intros Hwf. bool_hyps.
  assert (Hto : ∀ z, in_usize z = true → option_to_u64 z = Ok z ∧ in_u64 z = true).
  { unfold in_usize, option_to_u64, u64_try_from, in_u64. intros z Hz. bool_hyps.
    pose proof usize_max_le_u64. rewrite !(proj2 (Z.leb_le _ _)) by lia. done. }
  assert (Hof : ∀ z, in_usize z = true → option_to_usize z = Ok z).
  { unfold option_to_usize, usize_try_from. intros z ->. done. }
  eexists. split_and!.
  - unfold options_to_wire.
    repeat match goal with Hz : in_usize ?z = true |- context [option_to_u64 ?z] =>
      rewrite (proj1 (Hto z Hz)); simpl end. done.
  - unfold options_of_wire. simpl.
    repeat match goal with Hz : in_usize ?z = true |- context [option_to_usize ?z] =>
      rewrite (Hof z Hz); simpl end. by destruct o.
  - simpl. repeat constructor; by apply Hto.
Qed.
