(* ===== verification/Format.v ===== *)
(** * Durable encoding

    The envelope, head, commit, checkpoint, node, collection-plan and recovery-token
    codecs of [src/format.rs].  Every message is one canonical byte string: the node
    and plan decoders re-encode each value into a [MatchingWriter] over the input as
    they read it, the others compare a re-encoding at the end. *)

From stdpp Require Import pretty.
From S2P Require Import Prelude Types Head Cbor Wire.

Definition invalid_canonical_object : Error :=
  invalid "encoded object is not canonical format version 1".

Definition valid (condition : bool) : Result () Error :=
  if condition then Ok () else Err invalid_canonical_object.

(** [require_version]. *)
Definition require_version (version : Z) : Result () Error :=
  if negb (version =? FORMAT_VERSION)
  then Err (InvalidFormat ("unsupported format version " +:+ pretty version)) else Ok ().

Definition require_canonical (input canonical : bytes) : Result () Error :=
  if negb (bool_decide (input = canonical)) then Err invalid_canonical_object else Ok ().

(** ** Decoding against a matching writer *)

(** [MatchingWriter::write_all]: the bytes that are still to be matched. *)
Definition matching_write (rest chunk : bytes) : option bytes := strip_prefix chunk rest.

(** A decoder and the encoder that follows it. *)
Record Cursor := MkCursor { cur_dec : bytes; cur_enc : bytes }.

Definition cursor (b : bytes) : Cursor := MkCursor b b.

(** [exact_value!]. *)
Definition exact_value {A} (dec : bytes → DecodeResult A) (enc : A → bytes) (c : Cursor)
    : Result (A * Cursor) Error :=
  match dec (cur_dec c) with
  | Err e => Err (InvalidFormat e)
  | Ok (value, rest) =>
      let? w := ok_or (matching_write (cur_enc c) (enc value)) invalid_canonical_object in
      Ok (value, MkCursor rest w)
  end.

(** [exact_len!]. *)
Definition exact_len (dec : bytes → DecodeResult (option Z)) (enc : Z → bytes) (c : Cursor)
    : Result (Z * Cursor) Error :=
  match dec (cur_dec c) with
  | Err e => Err (InvalidFormat e)
  | Ok (None, _) => Err invalid_canonical_object
  | Ok (Some value, rest) =>
      let? w := ok_or (matching_write (cur_enc c) (enc value)) invalid_canonical_object in
      Ok (value, MkCursor rest w)
  end.

(** ** Decoded messages *)

(** [format::Commit], [format::Checkpoint] and [format::Node]. *)
Record CommitBody := MkCommitBody {
  cb_log_id : LogId;
  cb_incarnation : Uuid;
  cb_transaction_id : TransactionId;
  cb_expected_tip : option Digest;
  cb_operation : bytes;
  cb_result : bytes;
  cb_objects : list ObjectRef
}.

Record CheckpointBody := MkCheckpointBody {
  kb_log_id : LogId;
  kb_incarnation : Uuid;
  kb_through_sequence : Z;
  kb_through_commit : Digest;
  kb_snapshot : bytes;
  kb_objects : list ObjectRef
}.

Record NodeBody := MkNodeBody { node_payload : bytes; node_children : list ObjectRef }.

Record RecoveryToken := MkRecoveryToken {
  tok_head_digest : Digest;
  tok_publication_base_digest : Digest;
  tok_version : UpdateVersion;
  tok_generation : Z;
  tok_next_sequence : Z;
  tok_tip : option Digest;
  tok_log_id : LogId;
  tok_incarnation : Uuid;
  tok_options_digest : Digest;
  tok_transaction_id : TransactionId;
  tok_operation : bytes;
  tok_result : bytes;
  tok_objects : list ObjectRef;
  tok_storage_id : StorageId
}.

(** [PreparedCommit]; a staging domain is the identity of its allocation. *)
Record PreparedCommit := MkPreparedCommit {
  prep_view : View;
  prep_staging_domain : Z;
  prep_transaction_id : TransactionId;
  prep_storage_id : StorageId;
  prep_operation : bytes;
  prep_result : bytes;
  prep_objects : list ObjectRef
}.

(** [RecoveryRecord]. *)
Record RecoveryRecord := MkRecoveryRecord { rec_transaction_id : TransactionId; rec_result : bytes }.

(** ** Object counts and sizes *)

(** [cbor_head_len]. *)
Definition cbor_head_len (value : Z) : Z :=
  if value <=? 23 then 1
  else if value <=? 255 then 2
  else if value <=? 65535 then 3
  else if value <=? 4294967295 then 5
  else 9.

(** [subtree_objects]. *)
Definition subtree_objects (children : list ObjectRef) : Result Z Error :=
  try_fold (λ total child,
    do? validate_count child;
    ok_or (u64_checked_add total (obj_subtree_objects child)) (LimitExceeded "subtree objects"))
    1 children.

Section size.
Context `{Target}.

Definition checked_node_len (left right : Z) : Result Z Error :=
  ok_or (usize_checked_add left right) (LimitExceeded "object bytes").

Record NodeSize := MkNodeSize { size_encoded : Z; size_inner : Z; size_children : Z }.

(** The child loop of [node_size], with its running count and length. *)
Fixpoint children_size (children : list (Z * Z)) (options : Options) (count children_len : Z)
    : Result (Z * Z) Error :=
  match children with
  | [] => Ok (count, children_len)
  | (length, subtree_objects) :: rest =>
      match usize_checked_add count 1 with
      | None => Err (LimitExceeded "object references")
      | Some count =>
          if negb (count <=? max_object_refs options)
          then Err (LimitExceeded "object references")
          else
            let? reference_len := checked_node_len 58 (cbor_head_len length) in
            let? entry_len := checked_node_len reference_len (cbor_head_len subtree_objects) in
            let? children_len := checked_node_len children_len entry_len in
            children_size rest options count children_len
      end
  end.

(** [node_size]. *)
Definition node_size (payload_bytes : Z) (children : list (Z * Z)) (options : Options)
    : Result NodeSize Error :=
  let? '(count, children_len) := children_size children options 0 0 in
  let? payload_len := ok_or (u64_try_from payload_bytes) (LimitExceeded "object bytes") in
  let? child_count := ok_or (u64_try_from count) (LimitExceeded "object references") in
  let? inner_len := try_fold checked_node_len 0
    [5; cbor_head_len payload_len; payload_bytes; cbor_head_len child_count; children_len] in
  let? inner := ok_or (u64_try_from inner_len) (LimitExceeded "object bytes") in
  let? encoded := try_fold checked_node_len 0 [37; cbor_head_len inner; inner_len] in
  if max_object_bytes options <? encoded
  then Err (LimitExceeded "object bytes")
  else Ok (MkNodeSize encoded inner child_count).
End size.

Section format.
Context `{Target} `{Blake3} `{Cbor} `{!DerivedDecode}.

(** ** Envelopes *)

(** [encode_envelope]: writing into a [Vec] cannot fail. *)
Definition encode_envelope (message : Item) : bytes :=
  let payload := enc_item message in
  enc_item (envelope_item (MkEnvelopeWire payload (digest_bytes (digest_of payload)))).

(** [decode_exact]. *)
Definition decode_exact {W} (decode : bytes → DecodeResult W) (b : bytes) : Result W Error :=
  match decode b with
  | Err e => Err (InvalidFormat e)
  | Ok (value, rest) =>
      if negb (len b - len rest =? len b)
      then Err (invalid "encoded object contains trailing bytes")
      else Ok value
  end.

(** [decode_envelope]. *)
Definition decode_envelope {W} (decode : bytes → DecodeResult W) (b : bytes) : Result W Error :=
  let? envelope := decode_exact decode_envelope_wire b in
  let? d := digest (ew_digest envelope) in
  if negb (bool_decide (d = digest_of (ew_payload envelope)))
  then Err CorruptObject
  else decode_exact decode (ew_payload envelope).

(** [decoder.position()] in input [b]. *)
Definition position_in (b : bytes) (c : Cursor) : Z := len b - len (cur_dec c).

(** [valid(exact_value!(..) == expected)?]. *)
Definition expect_u8 (expected : Z) (c : Cursor) : Result Cursor Error :=
  let? '(v, c) := exact_value dec_u8 enc_u8 c in
  do? valid (v =? expected);
  Ok c.

Definition expect_map (expected : Z) (c : Cursor) : Result Cursor Error :=
  let? '(v, c) := exact_len dec_map enc_map c in
  do? valid (v =? expected);
  Ok c.

(** [decode_borrowed_envelope]: the range of the payload. *)
Definition decode_borrowed_envelope (b : bytes) : Result (Z * Z) Error :=
  let? c := expect_map 2 (cursor b) in
  let? c := expect_u8 1 c in
  let? '(payload, c) := exact_value dec_bytes enc_bytes c in
  let payload_range := (position_in b c - len payload, position_in b c) in
  let? c := expect_u8 2 c in
  let? '(encoded_digest, c) := exact_value dec_bytes enc_bytes c in
  do? valid (position_in b c =? len b);
  let? d := digest encoded_digest in
  if negb (bool_decide (d = digest_of payload)) then Err CorruptObject else Ok payload_range.

(** [require_canonical_wire]. *)
Definition require_canonical_wire (payload : bytes) (message : Item) : Result () Error :=
  let? rest := ok_or (matching_write payload (enc_item message)) invalid_canonical_object in
  valid (bool_decide (rest = [])).

(** ** The head *)

(** [encode_head]. *)
Definition head_to_wire (head : Head) (options : OptionsWire) : HeadWire := {|
  hw_format_version := FORMAT_VERSION;
  hw_log_id := log_id_str (head_log_id head);
  hw_generation := head_generation head;
  hw_next_sequence := head_next_sequence head;
  hw_checkpoint := checkpoint_ref_to_wire <$> head_checkpoint head;
  hw_tail := commit_ref_to_wire <$> head_tail head;
  hw_recent_outcomes := commit_ref_to_wire <$> head_recent_outcomes head;
  hw_incarnation := uuid_bytes (head_incarnation head);
  hw_options := options;
  hw_collection_epoch := head_collection_epoch head;
  hw_active_plan := plan_ref_to_wire <$> head_active_plan head;
  hw_retention_ids := (λ id, uuid_bytes (retention_uuid id)) <$> btree_iter (head_retention_ids head)
|}.

Definition encode_head (head : Head) : Result bytes Error :=
  do? validate head;
  let? options := options_to_wire (head_options head) in
  Ok (encode_envelope (head_item (head_to_wire head options))).

(** [retention_ids], after [previous] and the identifiers of [ids]. *)
Fixpoint retention_ids_from (previous : option RetentionId) (ids : gset RetentionId)
    (values : list bytes) : Result (gset RetentionId) Error :=
  match values with
  | [] => Ok ids
  | value :: rest =>
      let? u := uuid value "retention ID" in
      let id := MkRetentionId u in
      if match previous with Some p => negb (ord_lt p id) | None => false end
      then Err (invalid "head retention IDs are not strictly sorted")
      else retention_ids_from (Some id) ({[id]} ∪ ids) rest
  end.

Definition retention_ids (values : list bytes) : Result (gset RetentionId) Error :=
  retention_ids_from None ∅ values.

(** *** Shape validation *)

(** A decoder method whose error becomes [InvalidFormat]. *)
Definition shape {A} (r : DecodeResult A) : Result (A * bytes) Error := map_err r InvalidFormat.

Definition shape_bytes (width : Z) (d : bytes) : Result bytes Error :=
  let? '(v, d) := shape (dec_bytes d) in
  do? valid (len v =? width);
  Ok d.

Definition shape_uint (d : bytes) : Result bytes Error :=
  let? '(_, d) := shape (dec_u64 d) in Ok d.

(** The loop of [head_shape_map]: [count] fields are left, [previous] was the last
    key and [fields] is the [u16] mask of the keys seen. *)
Fixpoint shape_fields (count : nat) (field : Z → bytes → Result bytes Error)
    (previous fields : Z) (d : bytes) : Result (Z * bytes) Error :=
  match count with
  | O => Ok (fields, d)
  | S count =>
      let? '(key, d) := shape (dec_u8 d) in
      do? valid (previous <? key);
      let? d := field key d in
      if 16 <=? key then Err invalid_canonical_object
      else shape_fields count field key (Z.lor fields (Z.shiftl 1 key)) d
  end.

(** [head_shape_map]. *)
Definition head_shape_map (required_fields : list Z) (field : Z → bytes → Result bytes Error)
    (d : bytes) : Result bytes Error :=
  let? '(count, d) := shape (dec_map d) in
  let? count := ok_or count invalid_canonical_object in
  let? '(fields, d) := shape_fields (Z.to_nat count) field 0 0 d in
  do? valid (forallb (λ key, negb (Z.land fields (Z.shiftl 1 key) =? 0)) required_fields);
  Ok d.

(** [for _ in 0..count { element(decoder)?; }] after the array header. *)
Fixpoint shape_repeat (count : nat) (element : bytes → Result bytes Error) (d : bytes)
    : Result bytes Error :=
  match count with
  | O => Ok d
  | S count => let? d := element d in shape_repeat count element d
  end.

Definition shape_array (element : bytes → Result bytes Error) (d : bytes) : Result bytes Error :=
  let? '(count, d) := shape (dec_array d) in
  let? count := ok_or count invalid_canonical_object in
  shape_repeat (Z.to_nat count) element d.

Definition shape_object_ref : bytes → Result bytes Error :=
  head_shape_map [1; 2; 3; 4; 5] (λ field d,
    if (field =? 1) || (field =? 3) || (field =? 5) then shape_uint d
    else if field =? 2 then shape_bytes DIGEST_LEN d
    else if field =? 4 then shape_bytes UUID_LEN d
    else Err invalid_canonical_object).

Definition shape_checkpoint_ref : bytes → Result bytes Error :=
  head_shape_map [1; 2; 3] (λ field d,
    if field =? 1 then shape_uint d
    else if field =? 2 then shape_bytes DIGEST_LEN d
    else if field =? 3 then shape_object_ref d
    else Err invalid_canonical_object).

Definition shape_commit_ref : bytes → Result bytes Error :=
  head_shape_map [1; 2; 3; 4; 5] (λ field d,
    if (field =? 1) || (field =? 4) then shape_uint d
    else if (field =? 2) || (field =? 5) then shape_bytes UUID_LEN d
    else if field =? 3 then shape_bytes DIGEST_LEN d
    else Err invalid_canonical_object).

Definition shape_options : bytes → Result bytes Error :=
  head_shape_map [1; 2; 3; 4; 5; 6; 7; 8; 9; 10; 11; 12] (λ field d,
    do? valid ((1 <=? field) && (field <=? 12));
    shape_uint d).

Definition shape_plan_ref : bytes → Result bytes Error :=
  head_shape_map [1; 2; 3] (λ field d,
    if field =? 1 then shape_bytes UUID_LEN d
    else if field =? 2 then shape_bytes DIGEST_LEN d
    else if field =? 3 then shape_uint d
    else Err invalid_canonical_object).

Definition shape_log_id (d : bytes) : Result bytes Error :=
  let? '(value, d) := shape (dec_str d) in
  if MAX_LOG_ID_LEN <? len value then Err InvalidLogId else Ok d.

(** The field closure of [validate_head_shape]. *)
Definition head_field (field : Z) (d : bytes) : Result bytes Error :=
  if (field =? 1) || (field =? 3) || (field =? 4) || (field =? 10) then shape_uint d
  else if field =? 2 then shape_log_id d
  else if field =? 5 then shape_checkpoint_ref d
  else if (field =? 6) || (field =? 7) then shape_array shape_commit_ref d
  else if field =? 8 then shape_bytes UUID_LEN d
  else if field =? 9 then shape_options d
  else if field =? 11 then shape_plan_ref d
  else if field =? 12 then shape_array (shape_bytes UUID_LEN) d
  else Err invalid_canonical_object.

(** [validate_head_shape]. *)
Definition validate_head_shape (b : bytes) : Result () Error :=
  let? d := head_shape_map [1; 2; 3; 4; 6; 7; 8; 9; 10; 12] head_field b in
  valid (len b - len d =? len b).

(** [decode_head]. *)
Definition head_of_wire (wire : HeadWire) : Result Head Error :=
  let? log_id := log_id_new (hw_log_id wire) in
  let? incarnation := uuid (hw_incarnation wire) "log incarnation" in
  let? options := options_of_wire (hw_options wire) in
  let? checkpoint := try_option checkpoint_ref_of_wire (hw_checkpoint wire) in
  let? tail := try_map commit_ref_of_wire (hw_tail wire) in
  let? recent := try_map commit_ref_of_wire (hw_recent_outcomes wire) in
  let? plan := try_option plan_ref_of_wire (hw_active_plan wire) in
  let? ids := retention_ids (hw_retention_ids wire) in
  Ok (MkHead log_id incarnation options (hw_generation wire) (hw_next_sequence wire) checkpoint
        tail recent (hw_collection_epoch wire) plan ids).

Definition decode_head (b : bytes) : Result Head Error :=
  let? r := decode_borrowed_envelope b in
  let payload := range b r in
  do? validate_head_shape payload;
  let? wire := decode_exact decode_head_wire payload in
  do? require_version (hw_format_version wire);
  let? head := head_of_wire wire in
  do? validate head;
  let? canonical := encode_head head in
  do? require_canonical b canonical;
  Ok head.

(** ** Commits and checkpoints *)

(** [encode_commit]. *)
Definition commit_to_wire (commit : CommitBody) : CommitWire bytes := {|
  cw_format_version := FORMAT_VERSION;
  cw_log_id := log_id_str (cb_log_id commit);
  cw_transaction_id := uuid_bytes (transaction_uuid (cb_transaction_id commit));
  cw_expected_tip := digest_bytes <$> cb_expected_tip commit;
  cw_operation := cb_operation commit;
  cw_result := cb_result commit;
  cw_objects := object_ref_to_wire <$> cb_objects commit;
  cw_incarnation := uuid_bytes (cb_incarnation commit)
|}.

Definition encode_commit (commit : CommitBody) : bytes :=
  encode_envelope (commit_item (commit_to_wire commit)).

(** [shared_bytes]: a field that starts at [start], measured from the first byte of
    [encoded], shares its allocation. *)
Definition shared_bytes (encoded : bytes) (start : Z) (field : bytes) : Result bytes Error :=
  if start <? 0 then Err invalid_canonical_object
  else
    let? stop := ok_or (usize_checked_add start (len field)) invalid_canonical_object in
    do? valid (stop <=? len encoded);
    Ok (range encoded (start, stop)).

(** [decode_commit]. *)
Definition decode_commit (b : bytes) : Result CommitBody Error :=
  let? r := decode_borrowed_envelope b in
  let payload := range b r in
  let? wire := decode_exact decode_commit_wire payload in
  do? require_version (cw_format_version wire);
  let canonical := require_canonical_wire payload (commit_item (commit_contents wire)) in
  let? log_id := log_id_new (cw_log_id wire) in
  let? incarnation := uuid (cw_incarnation wire) "log incarnation" in
  let? t := transaction_id (cw_transaction_id wire) in
  let? tip := try_option digest (cw_expected_tip wire) in
  let? operation := shared_bytes b (r.1 + slice_at (cw_operation wire)) (slice_bytes (cw_operation wire)) in
  let? result := shared_bytes b (r.1 + slice_at (cw_result wire)) (slice_bytes (cw_result wire)) in
  let? objects := try_map object_ref_of_wire (cw_objects wire) in
  do? canonical;
  Ok (MkCommitBody log_id incarnation t tip operation result objects).

(** [encode_checkpoint]. *)
Definition checkpoint_to_wire (checkpoint : CheckpointBody) : CheckpointWire bytes := {|
  kw_format_version := FORMAT_VERSION;
  kw_log_id := log_id_str (kb_log_id checkpoint);
  kw_through_sequence := kb_through_sequence checkpoint;
  kw_through_commit := digest_bytes (kb_through_commit checkpoint);
  kw_snapshot := kb_snapshot checkpoint;
  kw_incarnation := uuid_bytes (kb_incarnation checkpoint);
  kw_objects := object_ref_to_wire <$> kb_objects checkpoint
|}.

Definition encode_checkpoint (checkpoint : CheckpointBody) : bytes :=
  encode_envelope (checkpoint_item (checkpoint_to_wire checkpoint)).

(** [decode_checkpoint]. *)
Definition decode_checkpoint (b : bytes) : Result CheckpointBody Error :=
  let? r := decode_borrowed_envelope b in
  let payload := range b r in
  let? wire := decode_exact decode_checkpoint_wire payload in
  do? require_version (kw_format_version wire);
  let canonical := require_canonical_wire payload (checkpoint_item (checkpoint_contents wire)) in
  let? log_id := log_id_new (kw_log_id wire) in
  let? incarnation := uuid (kw_incarnation wire) "log incarnation" in
  let? through_commit := digest (kw_through_commit wire) in
  let? snapshot := shared_bytes b (r.1 + slice_at (kw_snapshot wire)) (slice_bytes (kw_snapshot wire)) in
  let? objects := try_map object_ref_of_wire (kw_objects wire) in
  do? canonical;
  Ok (MkCheckpointBody log_id incarnation (kw_through_sequence wire) through_commit snapshot objects).

(** ** Nodes *)

(** One child of [encode_node]. *)
Definition encode_child (child : ObjectRef) : bytes :=
  enc_map 5 ++ enc_u8 1 ++ enc_u8 (object_kind_code (obj_kind child))
  ++ enc_u8 2 ++ enc_bytes (digest_bytes (obj_digest child))
  ++ enc_u8 3 ++ enc_u64 (obj_len child)
  ++ enc_u8 4 ++ enc_bytes (uuid_bytes (storage_uuid (obj_storage_id child)))
  ++ enc_u8 5 ++ enc_u64 (obj_subtree_objects child).

(** [encode_node]. *)
Definition encode_node (node : NodeBody) (options : Options) : Result bytes Error :=
  if max_object_refs options <? len (node_children node)
  then Err (LimitExceeded "object references")
  else
    let? size := node_size (len (node_payload node))
      ((λ child, (obj_len child, obj_subtree_objects child)) <$> node_children node) options in
    let b := enc_map 2 ++ enc_u8 1 ++ enc_bytes_len (size_inner size)
      ++ enc_map 3 ++ enc_u8 1 ++ enc_u32 FORMAT_VERSION
      ++ enc_u8 2 ++ enc_bytes (node_payload node)
      ++ enc_u8 3 ++ enc_array (size_children size)
      ++ concat (encode_child <$> node_children node) in
    let inner_start := 2 + cbor_head_len (size_inner size) in
    let d := digest_of (drop (Z.to_nat inner_start) b) in
    Ok (b ++ enc_u8 2 ++ enc_bytes (digest_bytes d)).

(** One turn of the child loop of [decode_node_payload]. *)
Definition decode_child (options : Options) (c : Cursor) : Result (ObjectRef * Cursor) Error :=
  let? c := expect_map 5 c in
  let? c := expect_u8 1 c in
  let? '(code, c) := exact_value dec_u8 enc_u8 c in
  let? kind := ok_or (if code =? object_kind_code Blob then Some Blob
                      else if code =? object_kind_code Node then Some Node
                      else None) (invalid "invalid node child kind") in
  let? c := expect_u8 2 c in
  let? '(digest_bytes, c) := exact_value dec_bytes enc_bytes c in
  let? c := expect_u8 3 c in
  let? '(length, c) := exact_value dec_u64 enc_u64 c in
  if default u64_max (u64_try_from (max_object_bytes options)) <? length
  then Err (LimitExceeded "object bytes")
  else
    let? c := expect_u8 4 c in
    let? '(storage_id_bytes, c) := exact_value dec_bytes enc_bytes c in
    let? c := expect_u8 5 c in
    let? '(subtree, c) := exact_value dec_u64 enc_u64 c in
    let? s := storage_id storage_id_bytes in
    let? d := digest digest_bytes in
    let child := MkObjectRef kind s d length subtree in
    do? validate_count child;
    Ok (child, c).

(** A counted loop that pushes what each turn decodes. *)
Fixpoint decode_repeat {A} (count : nat) (element : Cursor → Result (A * Cursor) Error) (c : Cursor)
    : Result (list A * Cursor) Error :=
  match count with
  | O => Ok ([], c)
  | S count =>
      let? '(x, c) := element c in
      let? '(xs, c) := decode_repeat count element c in
      Ok (x :: xs, c)
  end.

(** [decode_node_payload]. *)
Definition decode_node_payload (b : bytes) (options : Options)
    : Result ((Z * Z) * list ObjectRef) Error :=
  let? c := expect_map 3 (cursor b) in
  let? c := expect_u8 1 c in
  let? '(version, c) := exact_value dec_u32 enc_u32 c in
  do? require_version version;
  let? c := expect_u8 2 c in
  let? '(payload, c) := exact_value dec_bytes enc_bytes c in
  let payload_range := (position_in b c - len payload, position_in b c) in
  let? c := expect_u8 3 c in
  let? '(count, c) := exact_len dec_array enc_array c in
  let? count := ok_or (usize_try_from count) (LimitExceeded "object references") in
  if max_object_refs options <? count then Err (LimitExceeded "object references")
  else
    do? valid (count <=? (len b - position_in b c) / 60);
    let? '(children, c) := decode_repeat (Z.to_nat count) (decode_child options) c in
    do? valid (position_in b c =? len b);
    Ok (payload_range, children).

(** [decode_node]. *)
Definition decode_node (b : bytes) (options : Options) : Result NodeBody Error :=
  let? envelope := decode_borrowed_envelope b in
  let? '(payload_range, children) := decode_node_payload (range b envelope) options in
  Ok (MkNodeBody (range b (envelope.1 + payload_range.1, envelope.1 + payload_range.2)) children).

(** ** Collection plans *)

(** [CollectionPlan::candidate_bytes]. *)
Definition candidate_bytes (plan : CollectionPlan) : Result Z Error :=
  try_fold (λ total candidate,
    ok_or (u64_checked_add total (candidate_size candidate)) (LimitExceeded "collection candidate bytes"))
    0 (plan_candidates plan).

(** [CollectionPlan::validate]. *)
Definition plan_validate (plan : CollectionPlan) (options : Options) : Result () Error :=
  if plan_collection_epoch plan =? 0 then Err (invalid "collection plan epoch must be positive")
  else if bool_decide (plan_candidates plan = [])
  then Err (invalid "collection plan must contain a positive deletion set")
  else if max_collection_objects options <? len (plan_candidates plan)
  then Err (LimitExceeded "collection plan objects")
  else if negb (windows2_all (λ x y, ord_lt (candidate_key x) (candidate_key y)) (plan_candidates plan))
  then Err (invalid "collection plan candidates are not strictly sorted")
  else
    do? candidate_bytes plan;
    Ok ().

Definition plan_to_wire (plan : CollectionPlan) : CollectionPlanWire := {|
  pw_format_version := FORMAT_VERSION;
  pw_log_id := log_id_str (plan_log_id plan);
  pw_collection_epoch := plan_collection_epoch plan;
  pw_candidates := candidate_to_wire <$> plan_candidates plan
|}.

(** [encode_collection_plan]. *)
Definition encode_collection_plan (plan : CollectionPlan) (options : Options) : Result bytes Error :=
  do? plan_validate plan options;
  let b := encode_envelope (plan_item (plan_to_wire plan)) in
  if max_collection_plan_bytes options <? len b
  then Err (LimitExceeded "encoded collection plan bytes")
  else Ok b.

Definition MIN_COLLECTION_CANDIDATE_BYTES : Z := 76.

(** One turn of the candidate loop of [decode_collection_payload]. *)
Definition decode_candidate (c : Cursor) : Result (CollectionCandidate * Cursor) Error :=
  let? c := expect_map 5 c in
  let? c := expect_u8 1 c in
  let? '(incarnation, c) := exact_value dec_bytes enc_bytes c in
  let? incarnation := uuid incarnation "object incarnation" in
  let? c := expect_u8 2 c in
  let? '(code, c) := exact_value dec_u8 enc_u8 c in
  let? kind := ok_or (immutable_kind_of_code code) (invalid "invalid immutable kind") in
  let? c := expect_u8 3 c in
  let? '(s, c) := exact_value dec_bytes enc_bytes c in
  let? s := storage_id s in
  let? c := expect_u8 4 c in
  let? '(d, c) := exact_value dec_bytes enc_bytes c in
  let? d := digest d in
  let? c := expect_u8 5 c in
  let? '(size, c) := exact_value dec_u64 enc_u64 c in
  Ok (MkCollectionCandidate (MkImmutableKey incarnation kind s d) size, c).

(** [decode_collection_payload]. *)
Definition decode_collection_payload (b : bytes) (options : Options) : Result CollectionPlan Error :=
  let? c := expect_map 4 (cursor b) in
  let? c := expect_u8 1 c in
  let? '(version, c) := exact_value dec_u32 enc_u32 c in
  do? require_version version;
  let? c := expect_u8 2 c in
  let? '(log_id, c) := exact_value dec_str enc_str c in
  if MAX_LOG_ID_LEN <? len log_id then Err InvalidLogId
  else
    let? log_id := log_id_new log_id in
    let? c := expect_u8 3 c in
    let? '(collection_epoch, c) := exact_value dec_u64 enc_u64 c in
    let? c := expect_u8 4 c in
    let? '(count, c) := exact_len dec_array enc_array c in
    let? count := ok_or (usize_try_from count) (LimitExceeded "collection plan objects") in
    if max_collection_objects options <? count then Err (LimitExceeded "collection plan objects")
    else
      do? valid (count <=? (len b - position_in b c) / MIN_COLLECTION_CANDIDATE_BYTES);
      let? '(candidates, c) := decode_repeat (Z.to_nat count) decode_candidate c in
      do? valid (position_in b c =? len b);
      let plan := MkCollectionPlan log_id collection_epoch candidates in
      do? plan_validate plan options;
      Ok plan.

(** [decode_collection_plan]. *)
Definition decode_collection_plan (b : bytes) (options : Options) : Result CollectionPlan Error :=
  if max_collection_plan_bytes options <? len b
  then Err (LimitExceeded "encoded collection plan bytes")
  else
    let? envelope := decode_borrowed_envelope b in
    decode_collection_payload (range b envelope) options.

(** ** Recovery tokens *)

(** [publication_base_digest]. *)
Definition publication_base (head : Head) : Head :=
  set_retention_ids ∅ (set_generation (Z.max (head_next_sequence head) (head_collection_epoch head)) head).

Definition publication_base_digest (head : Head) : Result Digest Error :=
  let? b := encode_head (publication_base head) in
  Ok (digest_of b).

(** [options_digest]. *)
Definition options_digest (options : Options) : Result Digest Error :=
  let? wire := options_to_wire options in
  Ok (digest_of (enc_item (options_item wire))).

(** [RecoveryToken::encode]. *)
Definition token_to_wire (t : RecoveryToken) : RecoveryTokenWire := {|
  rw_format_version := FORMAT_VERSION;
  rw_head_digest := digest_bytes (tok_head_digest t);
  rw_e_tag := e_tag (tok_version t);
  rw_storage_version := version_id (tok_version t);
  rw_transaction_id := uuid_bytes (transaction_uuid (tok_transaction_id t));
  rw_operation := tok_operation t;
  rw_result := tok_result t;
  rw_objects := object_ref_to_wire <$> tok_objects t;
  rw_storage_id := uuid_bytes (storage_uuid (tok_storage_id t));
  rw_publication_base_digest := digest_bytes (tok_publication_base_digest t);
  rw_generation := tok_generation t;
  rw_next_sequence := tok_next_sequence t;
  rw_tip := digest_bytes <$> tok_tip t;
  rw_log_id := log_id_str (tok_log_id t);
  rw_incarnation := uuid_bytes (tok_incarnation t);
  rw_options_digest := digest_bytes (tok_options_digest t)
|}.

Definition encode_token (t : RecoveryToken) : bytes := encode_envelope (token_item (token_to_wire t)).

(** [encode_recovery_token]. *)
Definition recovery_token_of (prepared : PreparedCommit) : Result RecoveryToken Error :=
  let head := view_head (prep_view prepared) in
  let? head_bytes := encode_head head in
  let? base := publication_base_digest head in
  let? od := options_digest (head_options head) in
  Ok {| tok_head_digest := digest_of head_bytes;
        tok_publication_base_digest := base;
        tok_version := view_version (prep_view prepared);
        tok_generation := head_generation head;
        tok_next_sequence := head_next_sequence head;
        tok_tip := tip head;
        tok_log_id := head_log_id head;
        tok_incarnation := head_incarnation head;
        tok_options_digest := od;
        tok_transaction_id := prep_transaction_id prepared;
        tok_operation := prep_operation prepared;
        tok_result := prep_result prepared;
        tok_objects := prep_objects prepared;
        tok_storage_id := prep_storage_id prepared |}.

Definition encode_recovery_token (prepared : PreparedCommit) : Result bytes Error :=
  let? t := recovery_token_of prepared in
  Ok (encode_token t).

Definition token_of_wire (wire : RecoveryTokenWire) : Result RecoveryToken Error :=
  let? head_digest := digest (rw_head_digest wire) in
  let? base := digest (rw_publication_base_digest wire) in
  let? tip := try_option digest (rw_tip wire) in
  let? log_id := log_id_new (rw_log_id wire) in
  let? incarnation := uuid (rw_incarnation wire) "log incarnation" in
  let? od := digest (rw_options_digest wire) in
  let? t := transaction_id (rw_transaction_id wire) in
  let? s := storage_id (rw_storage_id wire) in
  let? objects := try_map object_ref_of_wire (rw_objects wire) in
  Ok (MkRecoveryToken head_digest base (MkUpdateVersion (rw_e_tag wire) (rw_storage_version wire))
        (rw_generation wire) (rw_next_sequence wire) tip log_id incarnation od t
        (rw_operation wire) (rw_result wire) objects s).

(** [decode_recovery_token]. *)
Definition decode_recovery_token (b : bytes) : Result RecoveryToken Error :=
  let? wire := decode_envelope decode_token_wire b in
  do? require_version (rw_format_version wire);
  let? recovered := token_of_wire wire in
  if (tok_generation recovered <? tok_next_sequence recovered)
     || negb (Bool.eqb (bool_decide (is_Some (tok_tip recovered))) (0 <? tok_next_sequence recovered))
  then Err (invalid "recovery token source position is invalid")
  else
    do? require_canonical b (encode_token recovered);
    Ok recovered.

(** [inspect_recovery_token]. *)
Definition inspect_recovery_token (token : bytes) : Result RecoveryRecord Error :=
  let? recovered := decode_recovery_token token in
  Ok (MkRecoveryRecord (tok_transaction_id recovered) (tok_result recovered)).
End format.
