(* ===== verification/Derive.v ===== *)
(** * Concrete wire decoders

    Decoders of the wire structs over [rfc8949] that satisfy [DerivedDecodeLaws]:
    they parse one data item and read the numbered fields.  They show that the laws
    are consistent, and the witnesses of the development evaluate them. *)

From S2P Require Import Prelude Types Head Cbor Rfc8949 Wire.

(** ** Parsing items *)

Fixpoint parse_many {A} (parse : bytes → option (A * bytes)) (n : nat) (b : bytes) : option (list A * bytes) :=
  match n with
  | O => Some ([], b)
  | S n => '(x, b) ← parse b; '(xs, b) ← parse_many parse n b; Some (x :: xs, b)
  end.

Definition head_count (major : Z) (b : bytes) : option (Z * bytes) :=
  '(n, b) ← result_ok (dec_head major b); n ← n; Some (n, b).

Definition major_type (b : bytes) : Z := match b with [] => -1 | h :: _ => byte_val h / 32 end.

Fixpoint parse_item (fuel : nat) (b : bytes) : option (Item * bytes) :=
  match fuel with
  | O => None
  | S fuel =>
      match major_type b with
      | 0 => '(n, b) ← head_count 0 b; Some (IUint n, b)
      | 2 => '(v, b) ← result_ok (dec_slice 2 b); Some (IBytes v, b)
      | 3 => '(v, b) ← result_ok (dec_text b); Some (IStr v, b)
      | 4 => '(n, b) ← head_count 4 b;
             '(l, b) ← parse_many (parse_item fuel) (Z.to_nat n) b; Some (IArray l, b)
      | 5 => '(n, b) ← head_count 5 b;
             '(l, b) ← parse_many (λ b, '(k, b) ← head_count 0 b; '(i, b) ← parse_item fuel b;
                                        Some ((k, i), b)) (Z.to_nat n) b;
             Some (IMap l, b)
      | _ => None
      end
  end.

(** The nesting depth of an item. *)
Fixpoint item_depth (i : Item) : nat :=
  match i with
  | IArray l => S (foldr Nat.max 0%nat (item_depth <$> l))
  | IMap fields => S (foldr Nat.max 0%nat ((λ f, item_depth f.2) <$> fields))
  | _ => 0%nat
  end.

Lemma foldr_max_le l d : (foldr Nat.max 0 l ≤ d)%nat ↔ Forall (λ x, (x ≤ d)%nat) l.
Proof. induction l as [|x l IH]; simpl; [split; [done|lia]|]. rewrite Forall_cons, <-IH. lia. Qed.

Lemma enc_head_major major n rest :
  0 ≤ major < 8 → 0 ≤ n → major_type (enc_head major n ++ rest) = major.
Proof.
  intros Hm Hn. unfold enc_head.
  assert (∀ i, 0 ≤ i < 32 → byte_val (byte_of (major * 32 + i)) / 32 = major) as Hb.
  { intros i Hi. rewrite byte_val_of, Z.mod_small by lia. rewrite Z.div_add_l, Z.div_small by lia. lia. }
  repeat case_match; apply Hb; lia.
Qed.

Lemma head_count_enc major n rest :
  0 ≤ major < 8 → in_u64 n = true → head_count major (enc_head major n ++ rest) = Some (n, rest).
Proof. intros Hm Hn. unfold head_count. by rewrite dec_head_enc. Qed.

Lemma parse_many_enc {A} (parse : bytes → option (A * bytes)) (enc : A → bytes) l rest :
  (∀ x rest, x ∈ l → parse (enc x ++ rest) = Some (x, rest)) →
  parse_many parse (length l) (concat (enc <$> l) ++ rest) = Some (l, rest).
Proof.
  intros Hp. induction l as [|x l IH]; [done|]. rewrite fmap_cons. cbn [concat length parse_many].
  rewrite <-app_assoc, Hp by left. cbn. rewrite IH; [done|]. intros y r Hy. apply Hp. by right.
Qed.

Lemma parse_item_enc fuel : ∀ i rest,
  item_wf i = true → (item_depth i < fuel)%nat → parse_item fuel (enc_item i ++ rest) = Some (i, rest).
Proof.
  induction fuel as [|fuel IH]; intros i rest Hwf Hd; [lia|].
  destruct i as [n|v|s|l|fields]; cbn [parse_item enc_item item_wf enc_u64 enc_bytes enc_str enc_array
    enc_map rfc8949] in *; bool_hyps.
  - rewrite enc_head_major by (unfold in_u64 in *; lia). by rewrite head_count_enc.
  - unfold in_slice in Hwf. pose proof (len_nonneg v). rewrite <-app_assoc, enc_head_major by lia.
    by rewrite dec_slice_enc by lia.
  - unfold in_str in Hwf. bool_hyps. pose proof (len_nonneg s). rewrite <-app_assoc, enc_head_major by lia.
    unfold dec_text. rewrite dec_slice_enc by lia. cbn. by match goal with Hu : utf8_valid s = true |- _ => rewrite Hu end.
  - pose proof (len_nonneg l). rewrite <-app_assoc, enc_head_major by lia.
    rewrite head_count_enc by (unfold in_u64; lia). cbn.
    replace (Z.to_nat (len l)) with (length l) by (unfold len; lia).
    rewrite parse_many_enc; [done|]. intros x r Hx. apply IH.
    + rewrite forallb_forall in *. by match goal with Hf : ∀ x, In x l → _ |- _ => apply Hf, list_elem_of_In end.
    + assert (foldr Nat.max 0 (item_depth <$> l) ≤ pred fuel)%nat as Hm by (cbn in Hd; lia).
      apply foldr_max_le in Hm. rewrite Forall_fmap, Forall_forall in Hm. specialize (Hm x Hx). simpl in Hm.
      cbn in Hd. lia.
  - pose proof (len_nonneg fields). rewrite <-app_assoc, enc_head_major by lia.
    rewrite head_count_enc by (unfold in_u64, u64_max; lia). cbn.
    replace (Z.to_nat (len fields)) with (length fields) by (unfold len; lia).
    rewrite parse_many_enc; [done|]. intros [k i] r Hx. cbn [fst snd].
    match goal with Hf : forallb _ _ = true |- _ => apply forallb_Forall in Hf; rewrite Forall_forall in Hf;
      specialize (Hf _ Hx); simpl in Hf end. bool_hyps.
    rewrite <-app_assoc, head_count_enc by (unfold in_width, in_u64, u8_max, u64_max in *; lia). cbn.
    rewrite IH; [done|done|].
    assert (foldr Nat.max 0 ((λ f, item_depth f.2) <$> fields) ≤ pred fuel)%nat as Hm by (cbn in Hd; lia).
    apply foldr_max_le in Hm. rewrite Forall_fmap, Forall_forall in Hm. specialize (Hm _ Hx). simpl in Hm.
    cbn in Hd. lia.
Qed.

(** ** Reading fields *)

Definition as_uint (i : Item) : option Z := match i with IUint n => Some n | _ => None end.
Definition as_bytes (i : Item) : option bytes := match i with IBytes b => Some b | _ => None end.
Definition as_str (i : Item) : option bytes := match i with IStr s => Some s | _ => None end.
Definition as_array {A} (f : Item → option A) (i : Item) : option (list A) :=
  match i with IArray l => mapM f l | _ => None end.

Fixpoint field (n : Z) (fields : list (Z * Item)) : option Item :=
  match fields with
  | [] => None
  | (k, i) :: fields => if k =? n then Some i else field n fields
  end.

(** A required field, and an optional one. *)
Definition req {A} (n : Z) (f : Item → option A) (i : Item) : option A :=
  match i with IMap fields => i ← field n fields; f i | _ => None end.
Definition opt {A} (n : Z) (f : Item → option A) (i : Item) : option (option A) :=
  match i with
  | IMap fields => match field n fields with Some i => a ← f i; Some (Some a) | None => Some None end
  | _ => None
  end.

Definition commit_ref_of_item (i : Item) : option CommitRefWire :=
  a ← req 1 as_uint i; b ← req 2 as_bytes i; c ← req 3 as_bytes i; d ← req 4 as_uint i;
  e ← req 5 as_bytes i; Some (MkCommitRefWire a b c d e).
Definition object_ref_of_item (i : Item) : option ObjectRefWire :=
  a ← req 1 as_uint i; b ← req 2 as_bytes i; c ← req 3 as_uint i; d ← req 4 as_bytes i;
  e ← req 5 as_uint i; Some (MkObjectRefWire a b c d e).
Definition checkpoint_ref_of_item (i : Item) : option CheckpointRefWire :=
  a ← req 1 as_uint i; b ← req 2 as_bytes i; c ← opt 3 object_ref_of_item i;
  Some (MkCheckpointRefWire a b c).
Definition plan_ref_of_item (i : Item) : option CollectionPlanRefWire :=
  a ← req 1 as_bytes i; b ← req 2 as_bytes i; c ← req 3 as_uint i; Some (MkCollectionPlanRefWire a b c).
Definition options_of_item (i : Item) : option OptionsWire :=
  a ← req 1 as_uint i; b ← req 2 as_uint i; c ← req 3 as_uint i; d ← req 4 as_uint i;
  e ← req 5 as_uint i; f ← req 6 as_uint i; g ← req 7 as_uint i; h ← req 8 as_uint i;
  j ← req 9 as_uint i; k ← req 10 as_uint i; l ← req 11 as_uint i; m ← req 12 as_uint i;
  Some (MkOptionsWire a b c d e f g h j k l m).
Definition envelope_of_item (i : Item) : option EnvelopeWire :=
  a ← req 1 as_bytes i; b ← req 2 as_bytes i; Some (MkEnvelopeWire a b).
Definition head_of_item (i : Item) : option HeadWire :=
  a ← req 1 as_uint i; b ← req 2 as_str i; c ← req 3 as_uint i; d ← req 4 as_uint i;
  e ← opt 5 checkpoint_ref_of_item i; f ← req 6 (as_array commit_ref_of_item) i;
  g ← req 7 (as_array commit_ref_of_item) i; h ← req 8 as_bytes i; j ← req 9 options_of_item i;
  k ← req 10 as_uint i; l ← opt 11 plan_ref_of_item i; m ← req 12 (as_array as_bytes) i;
  Some (MkHeadWire a b c d e f g h j k l m).
Definition commit_of_item (i : Item) : option (CommitWire bytes) :=
  a ← req 1 as_uint i; b ← req 2 as_str i; c ← req 3 as_bytes i; d ← opt 4 as_bytes i;
  e ← req 5 as_bytes i; f ← req 6 as_bytes i; g ← req 7 (as_array object_ref_of_item) i;
  h ← req 8 as_bytes i; Some (MkCommitWire a b c d e f g h).
Definition checkpoint_of_item (i : Item) : option (CheckpointWire bytes) :=
  a ← req 1 as_uint i; b ← req 2 as_str i; c ← req 3 as_uint i; d ← req 4 as_bytes i;
  e ← req 5 as_bytes i; f ← req 6 as_bytes i; g ← req 7 (as_array object_ref_of_item) i;
  Some (MkCheckpointWire a b c d e f g).
Definition token_of_item (i : Item) : option RecoveryTokenWire :=
  a ← req 1 as_uint i; b ← req 2 as_bytes i; c ← opt 3 as_str i; d ← opt 4 as_str i;
  e ← req 5 as_bytes i; f ← req 6 as_bytes i; g ← req 7 as_bytes i;
  h ← req 8 (as_array object_ref_of_item) i; j ← req 9 as_bytes i; k ← req 10 as_bytes i;
  l ← req 11 as_uint i; m ← req 12 as_uint i; n ← opt 13 as_bytes i; o ← req 14 as_str i;
  p ← req 15 as_bytes i; q ← req 16 as_bytes i;
  Some (MkRecoveryTokenWire a b c d e f g h j k l m n o p q).

Lemma as_array_enc {A} (f : Item → option A) (g : A → Item) l :
  (∀ x, f (g x) = Some x) → as_array f (IArray (g <$> l)) = Some l.
Proof.
  intros Hf. cbn. induction l as [|x l IH]; [done|]. rewrite fmap_cons. cbn. rewrite Hf. cbn. by rewrite IH.
Qed.

Lemma object_ref_of_item_enc w : object_ref_of_item (object_ref_item w) = Some w.
Proof. by destruct w. Qed.
Lemma commit_ref_of_item_enc w : commit_ref_of_item (commit_ref_item w) = Some w.
Proof. by destruct w. Qed.
Lemma checkpoint_ref_of_item_enc w : checkpoint_ref_of_item (checkpoint_ref_item w) = Some w.
Proof. by destruct w as [? ? [[]|]]. Qed.
Lemma plan_ref_of_item_enc w : plan_ref_of_item (plan_ref_item w) = Some w.
Proof. by destruct w. Qed.
Lemma options_of_item_enc w : options_of_item (options_item w) = Some w.
Proof. by destruct w. Qed.

Ltac head_step :=
  cbn -[as_array checkpoint_ref_item options_item plan_ref_item
        checkpoint_ref_of_item options_of_item plan_ref_of_item].

Lemma head_of_item_enc w : head_of_item (head_item w) = Some w.
Proof.
  pose proof (as_array_enc commit_ref_of_item commit_ref_item (hw_tail w) commit_ref_of_item_enc) as Ht.
  pose proof (as_array_enc commit_ref_of_item commit_ref_item (hw_recent_outcomes w) commit_ref_of_item_enc) as Ho.
  pose proof (as_array_enc as_bytes IBytes (hw_retention_ids w) (λ _, eq_refl)) as Hr.
  unfold head_of_item, head_item. destruct w as [v id g n c t o inc op e p r].
  cbn [hw_tail hw_recent_outcomes hw_retention_ids] in *.
  destruct c as [c|], p as [p|]; head_step; rewrite ?checkpoint_ref_of_item_enc; head_step;
    rewrite Ht; head_step; rewrite Ho; head_step; rewrite options_of_item_enc; head_step;
    rewrite ?plan_ref_of_item_enc; head_step; by rewrite Hr.
Qed.

Lemma commit_of_item_enc w : commit_of_item (commit_item w) = Some w.
Proof.
  pose proof (as_array_enc object_ref_of_item object_ref_item (cw_objects w) object_ref_of_item_enc) as Ho.
  unfold commit_of_item, commit_item. destruct w as [? ? ? [?|] ? ? ? ?]; cbn -[as_array] in *; by rewrite Ho.
Qed.

Lemma checkpoint_of_item_enc w : checkpoint_of_item (checkpoint_item w) = Some w.
Proof.
  pose proof (as_array_enc object_ref_of_item object_ref_item (kw_objects w) object_ref_of_item_enc) as Ho.
  unfold checkpoint_of_item, checkpoint_item. destruct w; cbn -[as_array] in *; by rewrite Ho.
Qed.

Lemma token_of_item_enc w : token_of_item (token_item w) = Some w.
Proof.
  pose proof (as_array_enc object_ref_of_item object_ref_item (rw_objects w) object_ref_of_item_enc) as Ho.
  unfold token_of_item, token_item.
  destruct w as [? ? [?|] [?|] ? ? ? ? ? ? ? ? [?|] ? ? ?]; cbn -[as_array] in *; by rewrite Ho.
Qed.

(** ** Decoders *)

(** Every wire struct nests at most four levels. *)
Definition WIRE_FUEL : nat := 5.

Definition decode_wire {W} (of_item : Item → option W) (b : bytes) : DecodeResult W :=
  match parse_item WIRE_FUEL b with
  | Some (i, rest) => match of_item i with Some w => Ok (w, rest) | None => Err "missing field" end
  | None => Err "unexpected type"
  end.

Lemma decode_wire_enc {W} (of_item : Item → option W) (to_item : W → Item) w rest :
  item_wf (to_item w) = true → (item_depth (to_item w) < WIRE_FUEL)%nat → of_item (to_item w) = Some w →
  decode_wire of_item (enc_item (to_item w) ++ rest) = Ok (w, rest).
Proof. intros Hwf Hd Ho. unfold decode_wire. rewrite parse_item_enc by done. by rewrite Ho. Qed.

(** The bytes of a struct before the payload of field [n]. *)
Definition field_at (count : Z) (before : list (Z * Item)) (n : Z) (payload : bytes) : bytes :=
  enc_map count ++ concat ((λ f, enc_u64 f.1 ++ enc_item f.2) <$> before)
  ++ enc_u64 n ++ enc_bytes_len (len payload).

Definition commit_before (w : CommitWire bytes) : list (Z * Item) :=
  [(1, IUint (cw_format_version w)); (2, IStr (cw_log_id w)); (3, IBytes (cw_transaction_id w))]
  ++ opt_field 4 IBytes (cw_expected_tip w).
Definition commit_after (w : CommitWire bytes) : list (Z * Item) :=
  [(5, IBytes (cw_operation w)); (6, IBytes (cw_result w));
   (7, IArray (object_ref_item <$> cw_objects w)); (8, IBytes (cw_incarnation w))].
Definition commit_count (w : CommitWire bytes) : Z := len (commit_before w) + 4.
Definition commit_slices (w : CommitWire bytes) : CommitWire Slice :=
  MkCommitWire (cw_format_version w) (cw_log_id w) (cw_transaction_id w) (cw_expected_tip w)
    (MkSlice (len (field_at (commit_count w) (commit_before w) 5 (cw_operation w))) (cw_operation w))
    (MkSlice (len (field_at (commit_count w) (commit_before w ++ [(5, IBytes (cw_operation w))]) 6
                     (cw_result w))) (cw_result w))
    (cw_objects w) (cw_incarnation w).
Definition checkpoint_before (w : CheckpointWire bytes) : list (Z * Item) :=
  [(1, IUint (kw_format_version w)); (2, IStr (kw_log_id w)); (3, IUint (kw_through_sequence w));
   (4, IBytes (kw_through_commit w))].
Definition checkpoint_slices (w : CheckpointWire bytes) : CheckpointWire Slice :=
  MkCheckpointWire (kw_format_version w) (kw_log_id w) (kw_through_sequence w) (kw_through_commit w)
    (MkSlice (len (field_at 7 (checkpoint_before w) 5 (kw_snapshot w))) (kw_snapshot w))
    (kw_incarnation w) (kw_objects w).

(** A decoder that borrows from its input reads canonical bytes only. *)
Definition decode_borrowing {V W} (of_item : Item → option V) (to_item : V → Item) (slices : V → W)
    (b : bytes) : DecodeResult W :=
  let? '(w, rest) := decode_wire of_item b in
  if bool_decide (b = enc_item (to_item w) ++ rest) then Ok (slices w, rest) else Err "not canonical".

(** A decoder whose fields have the widths of their Rust types. *)
Definition decode_typed {W} (of_item : Item → option W) (wf : W → bool) (b : bytes) : DecodeResult W :=
  let? '(w, rest) := decode_wire of_item b in
  if wf w then Ok (w, rest) else Err "number out of range".

#[global] Instance derived : DerivedDecode := {|
  decode_envelope_wire := decode_wire envelope_of_item;
  decode_head_wire := decode_typed head_of_item head_wire_wf;
  decode_commit_wire := decode_borrowing commit_of_item commit_item commit_slices;
  decode_checkpoint_wire := decode_borrowing checkpoint_of_item checkpoint_item checkpoint_slices;
  decode_token_wire := decode_typed token_of_item token_wire_wf
|}.

Lemma depth_array {A} (f : A → Item) l d :
  (∀ x, (item_depth (f x) ≤ d)%nat) → (item_depth (IArray (f <$> l)) ≤ S d)%nat.
Proof.
  intros Hd. cbn. apply le_n_S, foldr_max_le. rewrite !Forall_fmap. apply Forall_true. intros x. apply Hd.
Qed.

Lemma object_ref_depth w : item_depth (object_ref_item w) = 1%nat.
Proof. done. Qed.
Lemma commit_ref_depth w : item_depth (commit_ref_item w) = 1%nat.
Proof. done. Qed.

Lemma objects_depth l : (item_depth (IArray (object_ref_item <$> l)) ≤ 2)%nat.
Proof. apply depth_array. intros w. by rewrite object_ref_depth. Qed.

Lemma head_depth w : (item_depth (head_item w) < WIRE_FUEL)%nat.
Proof.
  unfold head_item, WIRE_FUEL.
  pose proof (depth_array commit_ref_item (hw_tail w) 1 ltac:(done)) as Ht.
  pose proof (depth_array commit_ref_item (hw_recent_outcomes w) 1 ltac:(done)) as Ho.
  pose proof (depth_array IBytes (hw_retention_ids w) 0 ltac:(done)) as Hr.
  destruct (hw_checkpoint w) as [[? ? [?|]]|], (hw_active_plan w) as [p|]; cbn in *; lia.
Qed.

Lemma slice_field count before n payload after rest i :
  count = len before + 1 + len after →
  i = IMap (before ++ (n, IBytes payload) :: after) →
  slice_in (enc_item i ++ rest) (MkSlice (len (field_at count before n payload)) payload).
Proof.
  intros -> ->. set (pre := field_at _ _ _ _).
  assert (∃ post, enc_item (IMap (before ++ (n, IBytes payload) :: after)) ++ rest = pre ++ payload ++ post) as [post ->].
  { unfold pre, field_at. cbn [enc_item]. rewrite len_app, len_cons, fmap_app, concat_app, fmap_cons.
    cbn [concat fst snd enc_item]. rewrite (enc_bytes_split payload).
    eexists. rewrite <-!app_assoc, Z.add_assoc. done. }
  unfold slice_in. cbn [slice_at slice_bytes]. rewrite !len_app.
  pose proof (len_nonneg pre). pose proof (len_nonneg post). split_and!; [lia| |lia].
  unfold range, len; simpl. rewrite Nat2Z.id, drop_app_length.
  replace (Z.to_nat (Z.of_nat (length pre) + Z.of_nat (length payload) - Z.of_nat (length pre)))
    with (length payload) by lia.
  apply take_app_length.
Qed.

Lemma decode_borrowing_enc {V W} (of_item : Item → option V) (to_item : V → Item) (slices : V → W) w rest :
  item_wf (to_item w) = true → (item_depth (to_item w) < WIRE_FUEL)%nat → of_item (to_item w) = Some w →
  decode_borrowing of_item to_item slices (enc_item (to_item w) ++ rest) = Ok (slices w, rest).
Proof.
  intros Hwf Hd Ho. unfold decode_borrowing. rewrite decode_wire_enc by done. cbn.
  by rewrite bool_decide_eq_true_2.
Qed.

Lemma decode_typed_enc {W} (of_item : Item → option W) (to_item : W → Item) wf w rest :
  wf w = true → item_wf (to_item w) = true → (item_depth (to_item w) < WIRE_FUEL)%nat →
  of_item (to_item w) = Some w → decode_typed of_item wf (enc_item (to_item w) ++ rest) = Ok (w, rest).
Proof. intros Hw Hwf Hd Ho. unfold decode_typed. rewrite decode_wire_enc by done. cbn. by rewrite Hw. Qed.

Lemma decode_typed_wf {W} (of_item : Item → option W) wf b w rest :
  decode_typed of_item wf b = Ok (w, rest) → wf w = true.
Proof. unfold decode_typed. intros Hd. inv_ok. destruct x as [v r]. by inv_ok. Qed.

#[global] Instance derived_laws : DerivedDecodeLaws.
Proof.
  split.
  - intros w rest Hwf. apply decode_wire_enc; [done|cbn; unfold WIRE_FUEL; lia|by destruct w].
  - intros w rest Hwf. apply decode_typed_enc; [done|..|apply head_depth|apply head_of_item_enc].
    unfold head_wire_wf in Hwf. by bool_hyps.
  - intros w rest Hwf. unfold commit_wire_wf in Hwf. bool_hyps. exists (commit_slices w). split; [|by destruct w].
    apply decode_borrowing_enc; [done| |apply commit_of_item_enc].
    pose proof (objects_depth (cw_objects w)). unfold commit_item, WIRE_FUEL.
    destruct (cw_expected_tip w); cbn in *; lia.
  - intros w rest Hwf. unfold checkpoint_wire_wf in Hwf. bool_hyps. exists (checkpoint_slices w). split; [|by destruct w].
    apply decode_borrowing_enc; [done| |apply checkpoint_of_item_enc].
    pose proof (objects_depth (kw_objects w)). unfold checkpoint_item, WIRE_FUEL. cbn in *. lia.
  - intros w rest Hwf. apply decode_typed_enc; [done|unfold token_wire_wf in Hwf; by bool_hyps| |apply token_of_item_enc].
    pose proof (objects_depth (rw_objects w)). unfold token_item, WIRE_FUEL.
    destruct (rw_e_tag w), (rw_storage_version w), (rw_tip w); cbn in *; lia.
  - intros b w rest Hd. cbn in Hd. unfold decode_borrowing in Hd. inv_ok. destruct x as [v r]. inv_ok.
    bool_hyps. subst b. split.
    + refine (slice_field (commit_count v) (commit_before v) 5 (cw_operation v) (drop 1 (commit_after v))
        rest (commit_item v) _ _).
      { unfold commit_count. change (len (drop 1 (commit_after v))) with 3. lia. }
      unfold commit_item, commit_before. by rewrite <-!app_assoc.
    + refine (slice_field (commit_count v) (commit_before v ++ [(5, IBytes (cw_operation v))]) 6
        (cw_result v) (drop 2 (commit_after v)) rest (commit_item v) _ _).
      * unfold commit_count. rewrite len_app. change (len (drop 2 (commit_after v))) with 2.
        rewrite len_cons. change (len []) with 0. lia.
      * unfold commit_item, commit_before. by rewrite <-!app_assoc.
  - intros b w rest Hd. cbn in Hd. unfold decode_borrowing in Hd. inv_ok. destruct x as [v r]. inv_ok.
    bool_hyps. subst b.
    by refine (slice_field 7 (checkpoint_before v) 5 (kw_snapshot v)
      [(6, IBytes (kw_incarnation v)); (7, IArray (object_ref_item <$> kw_objects v))]
      rest (checkpoint_item v) _ _).
  - intros b w rest. apply decode_typed_wf.
  - intros b w rest. apply decode_typed_wf.
Qed.
