(* ===== verification/FormatEnvelope.v ===== *)
(** * Envelopes and exact decoding

    An exact decoder keeps its matching writer at the decoder's position, so a value
    it accepts is followed by exactly the rest of the input; the envelope decoder
    accepts exactly the sealed payloads. *)

From S2P Require Import Prelude Types Head Cbor Wire Format.

(** ** Ranges *)

Lemma range_app (pre p post : bytes) : range (pre ++ p ++ post) (len pre, len pre + len p) = p.
Proof.
  unfold range, len; simpl. rewrite Nat2Z.id, drop_app_length.
  replace (Z.to_nat (Z.of_nat (length pre) + Z.of_nat (length p) - Z.of_nat (length pre)))
    with (length p) by lia.
  apply take_app_length.
Qed.

Lemma app_split_len {A} (p q r s : list A) : len p = len r → p ++ q = r ++ s → p = r ∧ q = s.
Proof. unfold len. intros Hl. apply app_inj_1. lia. Qed.

(** The pieces around a slice of a list. *)
Lemma slice_in_split input s :
  slice_in input s → ∃ pre post, input = pre ++ slice_bytes s ++ post ∧ len pre = slice_at s.
Proof.
  intros (Hpos & Hr & Hle). unfold range in Hr. simpl in Hr.
  exists (take (Z.to_nat (slice_at s)) input),
    (drop (length (slice_bytes s)) (drop (Z.to_nat (slice_at s)) input)).
  pose proof (len_nonneg (slice_bytes s)). split.
  - rewrite <-Hr at 1.
    replace (Z.to_nat (slice_at s + len (slice_bytes s) - slice_at s)) with (length (slice_bytes s))
      by (unfold len; lia).
    by rewrite !take_drop.
  - unfold len in *. rewrite length_take. lia.
Qed.

Section exact.
Context `{Target} `{Blake3} `{CborLaws}.

(** ** Exact cursors *)

Lemma exact_value_Ok {A} (ok : A → bool) (enc : A → bytes) dec b v c :
  DecoderLaws ok enc dec → exact_value dec enc (cursor b) = Ok (v, c) →
  ∃ r, c = cursor r ∧ b = enc v ++ r ∧ ok v = true.
Proof.
  intros L He. unfold exact_value, cursor in He. simpl in He.
  destruct (dec b) as [[v' r']|] eqn:Ed; [|done]. inv_ok.
  unfold matching_write in *. apply strip_prefix_Some in Hok.
  pose proof (dec_range _ _ _ L _ _ _ Ed) as Hv. subst b.
  rewrite (dec_enc _ _ _ L) in Ed by done. injection Ed as <-. by exists x.
Qed.

Lemma exact_value_enc {A} (ok : A → bool) (enc : A → bytes) dec v r :
  DecoderLaws ok enc dec → ok v = true →
  exact_value dec enc (cursor (enc v ++ r)) = Ok (v, cursor r).
Proof.
  intros L Hv. unfold exact_value, cursor, matching_write. simpl. rewrite (dec_enc _ _ _ L) by done.
  by rewrite (proj2 (strip_prefix_Some _ _ _) eq_refl).
Qed.

Lemma exact_map_Ok b v c :
  exact_len dec_map enc_map (cursor b) = Ok (v, c) → ∃ r, c = cursor r ∧ b = enc_map v ++ r.
Proof.
  intros He. unfold exact_len, cursor in He. simpl in He.
  destruct (dec_map b) as [[[v'|] r']|] eqn:Ed; try done. inv_ok.
  unfold matching_write in *. apply strip_prefix_Some in Hok.
  pose proof (map_range _ _ _ Ed) as Hv. subst b. rewrite map_enc in Ed by done.
  injection Ed as <-. by exists x.
Qed.

Lemma exact_array_Ok b v c :
  exact_len dec_array enc_array (cursor b) = Ok (v, c) →
  ∃ r, c = cursor r ∧ b = enc_array v ++ r ∧ in_u64 v = true.
Proof.
  intros He. unfold exact_len, cursor in He. simpl in He.
  destruct (dec_array b) as [[[v'|] r']|] eqn:Ed; try done. inv_ok.
  unfold matching_write in *. apply strip_prefix_Some in Hok.
  pose proof (array_range _ _ _ Ed) as Hv. subst b. rewrite array_enc in Ed by done.
  injection Ed as <-. by exists x.
Qed.

Lemma exact_array_enc v r :
  in_u64 v = true → exact_len dec_array enc_array (cursor (enc_array v ++ r)) = Ok (v, cursor r).
Proof.
  intros Hv. unfold exact_len, cursor, matching_write. simpl. rewrite array_enc by done.
  by rewrite (proj2 (strip_prefix_Some _ _ _) eq_refl).
Qed.

Lemma valid_Ok c : valid c = Ok () ↔ c = true.
Proof. unfold valid. by destruct c. Qed.

Lemma expect_u8_Ok k b c :
  expect_u8 k (cursor b) = Ok c → ∃ r, c = cursor r ∧ b = enc_u8 k ++ r.
Proof.
  unfold expect_u8. intros He. inv_ok. destruct x as [v c']. inv_ok. rewrite valid_Ok in *.
  apply (exact_value_Ok _ _ _ _ _ _ u8_laws) in Hok as (r & -> & -> & _).
  exists r. assert (v = k) as -> by lia. done.
Qed.

Lemma expect_u8_enc k r :
  in_width u8_max k = true → expect_u8 k (cursor (enc_u8 k ++ r)) = Ok (cursor r).
Proof.
  intros Hk. unfold expect_u8. rewrite (exact_value_enc _ _ _ _ _ u8_laws) by done. simpl.
  by rewrite Z.eqb_refl.
Qed.

Lemma expect_map_Ok k b c :
  expect_map k (cursor b) = Ok c → ∃ r, c = cursor r ∧ b = enc_map k ++ r.
Proof.
  unfold expect_map. intros He. inv_ok. destruct x as [v c']. inv_ok. rewrite valid_Ok in *.
  apply exact_map_Ok in Hok as (r & -> & ->). exists r. assert (v = k) as -> by lia. done.
Qed.

Lemma expect_map_enc k r : in_u64 k = true → expect_map k (cursor (enc_map k ++ r)) = Ok (cursor r).
Proof.
  intros Hk. unfold expect_map, exact_len, cursor, matching_write. simpl. rewrite map_enc by done.
  rewrite (proj2 (strip_prefix_Some _ _ _) eq_refl). simpl. by rewrite Z.eqb_refl.
Qed.

(** Counted loops of exact decoders. *)
Lemma decode_repeat_Ok {A} (enc : A → bytes) (P : A → Prop) element :
  (∀ b x c, element (cursor b) = Ok (x, c) → ∃ r, c = cursor r ∧ b = enc x ++ r ∧ P x) →
  ∀ n b l c, decode_repeat n element (cursor b) = Ok (l, c) →
  ∃ r, c = cursor r ∧ b = concat (enc <$> l) ++ r ∧ length l = n ∧ Forall P l.
Proof.
  intros He. induction n as [|n IH]; intros b l c; simpl.
  - intros [= <- <-]. by exists b.
  - intros Hd. inv_ok. destruct x as [x c']. inv_ok. destruct x0 as [xs c'']. inv_ok.
    apply He in Hok as (r & -> & -> & Hx). apply IH in Hok0 as (r' & -> & -> & <- & Hl).
    exists r'. rewrite fmap_cons. cbn [concat]. rewrite <-app_assoc. split_and!; [done..|]. by constructor.
Qed.

Lemma decode_repeat_enc {A} (enc : A → bytes) element l r :
  (∀ x r, x ∈ l → element (cursor (enc x ++ r)) = Ok (x, cursor r)) →
  decode_repeat (length l) element (cursor (concat (enc <$> l) ++ r)) = Ok (l, cursor r).
Proof.
  intros He. induction l as [|x l IH]; [done|].
  rewrite fmap_cons. cbn [concat length decode_repeat]. rewrite <-app_assoc, He by left. simpl.
  rewrite IH; [done|]. intros y r' Hy. apply He. by right.
Qed.

Lemma position_at_end b r : position_in b (cursor r) = len b ↔ r = [].
Proof.
  unfold position_in, cursor; simpl. split; [|intros ->; unfold len; simpl; lia].
  intros Hp. destruct r; [done|]. rewrite len_cons in Hp. pose proof (len_nonneg r). lia.
Qed.

Lemma cbor_head_len_preferred n : cbor_head_len n = preferred_head_len n.
Proof. unfold cbor_head_len, preferred_head_len. repeat case_match; lia. Qed.

Lemma require_version_Ok v : require_version v = Ok () ↔ v = FORMAT_VERSION.
Proof. unfold require_version. destruct (v =? FORMAT_VERSION) eqn:E; simpl; split; try done; lia. Qed.

(** ** Sealed payloads *)

(** The envelope of [payload]. *)
Definition seal (payload : bytes) : bytes :=
  enc_item (envelope_item (MkEnvelopeWire payload (digest_bytes (digest_of payload)))).

Lemma encode_envelope_seal i : encode_envelope i = seal (enc_item i).
Proof. done. Qed.

Definition seal_head (payload : bytes) : bytes :=
  enc_map 2 ++ enc_u8 1 ++ enc_bytes_len (len payload).
Definition seal_tail (payload : bytes) : bytes :=
  enc_u8 2 ++ enc_bytes (digest_bytes (digest_of payload)).

Lemma seal_split payload : seal payload = seal_head payload ++ payload ++ seal_tail payload.
Proof.
  unfold seal, seal_head, seal_tail. simpl. change (len [_; _]) with 2.
  rewrite !enc_u8_u64, !enc_bytes_split by done.
  by rewrite app_nil_r, <-!app_assoc.
Qed.

Lemma seal_head_len payload :
  len payload ≤ u64_max → len (seal_head payload) = 2 + cbor_head_len (len payload).
Proof.
  intros Hl. unfold seal_head. pose proof (len_nonneg payload).
  rewrite !len_app, enc_map_len, enc_u8_u64, enc_u64_len, enc_bytes_len_len
    by (done || (unfold in_u64; lia)).
  rewrite cbor_head_len_preferred. unfold preferred_head_len at 1 2. simpl. lia.
Qed.

(** The decoder accepts exactly the sealed payloads, and names the payload's range. *)
Lemma decode_borrowed_envelope_Ok b r :
  decode_borrowed_envelope b = Ok r →
  ∃ payload, b = seal payload ∧ len payload ≤ u64_max
             ∧ r = (len (seal_head payload), len (seal_head payload) + len payload).
Proof.
  unfold decode_borrowed_envelope. intros Hd. inv_ok.
  apply expect_map_Ok in Hok as (r0 & -> & ->).
  apply expect_u8_Ok in Hok0 as (r1 & -> & ->).
  destruct x1 as [payload c1]. inv_ok.
  apply (exact_value_Ok _ _ _ _ _ _ bytes_laws) in Hok1 as (r2 & -> & -> & Hp).
  apply expect_u8_Ok in Hok as (r3 & -> & ->).
  destruct x0 as [dg c2]. inv_ok.
  apply (exact_value_Ok _ _ _ _ _ _ bytes_laws) in Hok0 as (r4 & -> & -> & Hdg).
  rewrite valid_Ok, Z.eqb_eq, position_at_end in *. subst r4.
  match goal with Hd : digest _ = Ok _ |- _ => apply digest_Ok in Hd as [-> _] end. bool_hyps.
  exists payload. unfold in_slice in Hp. split_and!; [|lia|].
  - rewrite seal_split. unfold seal_head, seal_tail.
    match goal with H : MkDigest dg = digest_of payload |- _ => rewrite <-H end. simpl.
    rewrite app_nil_r, (enc_bytes_split payload), <-!app_assoc. done.
  - unfold position_in, seal_head. simpl. rewrite (enc_bytes_split payload), !len_app. f_equal; lia.
Qed.

Lemma decode_borrowed_envelope_seal payload :
  len payload ≤ u64_max →
  decode_borrowed_envelope (seal payload)
  = Ok (len (seal_head payload), len (seal_head payload) + len payload).
Proof.
  intros Hl. unfold decode_borrowed_envelope.
  assert (Hs : seal payload = enc_map 2 ++ enc_u8 1 ++ enc_bytes payload
    ++ enc_u8 2 ++ enc_bytes (digest_bytes (digest_of payload)) ++ []).
  { rewrite seal_split. unfold seal_head, seal_tail.
    by rewrite (enc_bytes_split payload), app_nil_r, <-!app_assoc. }
  rewrite Hs at 1. rewrite expect_map_enc by done. simpl. rewrite expect_u8_enc by done. simpl.
  rewrite (exact_value_enc _ _ _ _ _ bytes_laws) by (unfold in_slice; lia). simpl.
  rewrite expect_u8_enc by done. simpl.
  rewrite (exact_value_enc _ _ _ _ _ bytes_laws)
    by (unfold in_slice, digest_of; simpl; rewrite blake3_hash_len; done).
  simpl. unfold position_in at 1, cursor at 1. simpl. rewrite Z.sub_0_r, Z.eqb_refl. simpl.
  change (blake3_hash payload) with (digest_bytes (digest_of payload)).
 rewrite digest_wf_Ok by apply digest_of_wf. simpl.
  rewrite bool_decide_eq_true_2 by done. simpl. do 2 f_equal;
    rewrite Hs; unfold position_in, cursor, seal_head; simpl;
    rewrite (enc_bytes_split payload), !len_app; lia.
Qed.

Lemma range_seal payload :
  range (seal payload) (len (seal_head payload), len (seal_head payload) + len payload) = payload.
Proof. rewrite seal_split. apply range_app. Qed.

(** A slice of the payload, seen from the start of the sealed message. *)
Lemma range_seal_slice payload s :
  slice_in payload s →
  range (seal payload) (len (seal_head payload) + slice_at s,
                        len (seal_head payload) + slice_at s + len (slice_bytes s)) = slice_bytes s
  ∧ len (seal_head payload) + slice_at s + len (slice_bytes s) ≤ len (seal payload).
Proof.
  intros (pre & post & Hp & Hpre)%slice_in_split. rewrite <-Hpre, <-len_app.
  assert (seal payload = (seal_head payload ++ pre) ++ slice_bytes s ++ post ++ seal_tail payload) as ->.
  { rewrite seal_split. rewrite Hp at 2. by rewrite <-!app_assoc. }
  split; [apply range_app|]. rewrite (len_app (_ ++ _)), (len_app (slice_bytes s)).
  pose proof (len_nonneg (post ++ seal_tail payload)). lia.
Qed.

(** Two messages with one encoding have one payload, and a sealed payload names its
    own digest: a different payload under the same digest is a hash collision. *)
Lemma seal_inj p q : len p ≤ u64_max → len q ≤ u64_max → seal p = seal q → p = q.
Proof.
  intros Hp Hq He.
  pose proof (decode_borrowed_envelope_seal p Hp) as Dp.
  pose proof (decode_borrowed_envelope_seal q Hq) as Dq.
  rewrite He, Dq in Dp. injection Dp as D1 D2.
  rewrite <-(range_seal p), <-(range_seal q), He, D1. f_equal. f_equal. lia.
Qed.
End exact.

#[export] Hint Resolve digest_of_wf : object_log.

(** [exact_inv] inverts a chain of exact decoding steps that starts at a cursor. *)
Ltac exact_inv_step :=
  match goal with
  | p : _ * Cursor |- _ => destruct p
  | Hd : expect_map _ (cursor _) = Ok _ |- _ => apply expect_map_Ok in Hd as (? & ? & ?)
  | Hd : expect_u8 _ (cursor _) = Ok _ |- _ => apply expect_u8_Ok in Hd as (? & ? & ?)
  | Hd : exact_value dec_u8 _ (cursor _) = Ok _ |- _ =>
      apply (exact_value_Ok _ _ _ _ _ _ u8_laws) in Hd as (? & ? & ? & ?)
  | Hd : exact_value dec_u32 _ (cursor _) = Ok _ |- _ =>
      apply (exact_value_Ok _ _ _ _ _ _ u32_laws) in Hd as (? & ? & ? & ?)
  | Hd : exact_value dec_u64 _ (cursor _) = Ok _ |- _ =>
      apply (exact_value_Ok _ _ _ _ _ _ u64_laws) in Hd as (? & ? & ? & ?)
  | Hd : exact_value dec_bytes _ (cursor _) = Ok _ |- _ =>
      apply (exact_value_Ok _ _ _ _ _ _ bytes_laws) in Hd as (? & ? & ? & ?)
  | Hd : exact_value dec_str _ (cursor _) = Ok _ |- _ =>
      apply (exact_value_Ok _ _ _ _ _ _ str_laws) in Hd as (? & ? & ? & ?)
  | Hd : exact_len dec_array _ (cursor _) = Ok _ |- _ => apply exact_array_Ok in Hd as (? & ? & ? & ?)
  | Hd : valid _ = Ok _ |- _ => rewrite valid_Ok in Hd
  | Hd : require_version _ = Ok _ |- _ => rewrite require_version_Ok in Hd
  | Hd : digest _ = Ok _ |- _ => apply digest_Ok in Hd as [? ?]
  | Hd : storage_id _ = Ok _ |- _ => apply storage_id_Ok in Hd as [? ?]
  | Hd : uuid _ _ = Ok _ |- _ => apply uuid_Ok in Hd as [? ?]
  end; subst.
Ltac exact_inv := repeat (inv_ok; repeat exact_inv_step; cbv beta iota in *).

(** [exact_run] runs exact decoding steps over the encodings they expect. *)
Ltac exact_run_step :=
  first
    [ rewrite expect_map_enc by done
    | rewrite expect_u8_enc by done
    | rewrite (exact_value_enc _ _ _ _ _ u8_laws) by done
    | rewrite (exact_value_enc _ _ _ _ _ u32_laws) by done
    | rewrite (exact_value_enc _ _ _ _ _ u64_laws) by done
    | rewrite (exact_value_enc _ _ _ _ _ bytes_laws) by (unfold in_slice, u64_max in *; lia)
    | rewrite (exact_value_enc _ _ _ _ _ str_laws) by done ];
  cbn [result_bind].
Ltac exact_run := repeat exact_run_step.
