(* ===== verification/FormatNode.v ===== *)
(** * Nodes

    The hand-written node encoder writes exactly the derived envelope of the node's
    fields, [node_size] predicts its length exactly, and the node decoder is its
    inverse on both sides. *)

From S2P Require Import Prelude Types Head Cbor Wire Format FormatEnvelope.

(** The node message as a struct of format version 1. *)
Definition node_item (node : NodeBody) : Item :=
  IMap [(1, IUint FORMAT_VERSION); (2, IBytes (node_payload node));
        (3, IArray (object_ref_item ∘ object_ref_to_wire <$> node_children node))].

(** What a node's children satisfy in every encoding the decoder accepts. *)
Definition child_ok (options : Options) (o : ObjectRef) : bool :=
  object_ref_wf o
  && negb (bool_decide (obj_kind o = Checkpoint))
  && bool_decide (validate_count o = Ok ())
  && (obj_len o <=? max_object_bytes options).

Definition child_size (o : ObjectRef) : Z :=
  58 + cbor_head_len (obj_len o) + cbor_head_len (obj_subtree_objects o).

Definition children_bytes (l : list ObjectRef) : Z := foldr (λ o acc, child_size o + acc) 0 l.

Definition child_sizes (l : list ObjectRef) : list (Z * Z) :=
  (λ child, (obj_len child, obj_subtree_objects child)) <$> l.

Lemma cbor_head_len_bounds n : 1 ≤ cbor_head_len n ≤ 9.
Proof. unfold cbor_head_len. repeat case_match; lia. Qed.

Lemma children_bytes_bounds l : 60 * len l ≤ children_bytes l.
Proof.
  induction l as [|o l IH]; [done|]. rewrite len_cons. simpl. unfold child_size.
  pose proof (cbor_head_len_bounds (obj_len o)).
  pose proof (cbor_head_len_bounds (obj_subtree_objects o)). lia.
Qed.

Section size.
Context `{Target}.

Lemma checked_node_len_Ok a b c : checked_node_len a b = Ok c → c = a + b ∧ a + b ≤ usize_max.
Proof. unfold checked_node_len. intros Hc%ok_or_Ok. by apply checked_add_Some. Qed.

Lemma checked_node_len_le a b : a + b ≤ usize_max → checked_node_len a b = Ok (a + b).
Proof.
  intros Hle. unfold checked_node_len, checked_add_within. by rewrite (proj2 (Z.leb_le _ _)) by lia.
Qed.

Lemma children_size_Ok l options : ∀ count acc count' acc',
  children_size (child_sizes l) options count acc = Ok (count', acc') →
  count' = count + len l ∧ acc' = acc + children_bytes l.
Proof.
  induction l as [|o l IH]; intros count acc count' acc'; simpl.
  - intros [= <- <-]. unfold len. simpl. lia.
  - intros Hs. destruct (checked_add_within _ count 1) as [n|] eqn:E; [|done]. inv_ok.
    apply IH in Hs as [-> ->]. apply checked_add_Some in E as [-> _].
    apply checked_node_len_Ok in Hok as [-> _], Hok0 as [-> _], Hok1 as [-> _].
    rewrite len_cons. unfold child_size. lia.
Qed.

Lemma children_size_refs l options : ∀ count acc count' acc',
  count ≤ max_object_refs options →
  children_size (child_sizes l) options count acc = Ok (count', acc') → count + len l ≤ max_object_refs options.
Proof.
  induction l as [|o l IH]; intros count acc count' acc' Hc; simpl.
  - intros _. unfold len. simpl. lia.
  - intros Hs. destruct (checked_add_within _ count 1) as [n|] eqn:E; [|done].
    apply checked_add_Some in E as [-> _]. inv_ok. bool_hyps. apply IH in Hs; [|lia].
    rewrite len_cons. lia.
Qed.

Lemma children_size_le l options : ∀ count acc,
  0 ≤ count → 0 ≤ acc →
  count + len l ≤ max_object_refs options → count + len l ≤ usize_max →
  acc + children_bytes l ≤ usize_max →
  children_size (child_sizes l) options count acc = Ok (count + len l, acc + children_bytes l).
Proof.
  induction l as [|o l IH]; intros count acc Hc Ha Hm Hu Hl; simpl.
  - unfold len. simpl. by rewrite !Z.add_0_r.
  - rewrite len_cons in *. simpl in Hl. pose proof (len_nonneg l).
    pose proof (children_bytes_bounds l). unfold child_size in Hl.
    pose proof (cbor_head_len_bounds (obj_len o)).
    pose proof (cbor_head_len_bounds (obj_subtree_objects o)).
    unfold checked_add_within. rewrite (proj2 (Z.leb_le (count + 1) _)) by lia.
    rewrite (proj2 (Z.leb_le (count + 1) _)) by lia. simpl.
    rewrite checked_node_len_le by lia. simpl. rewrite checked_node_len_le by lia. simpl.
    rewrite checked_node_len_le by lia. simpl. rewrite IH by lia. unfold child_size. do 2 f_equal; lia.
Qed.

(** The inner message length that [node_size] computes. *)
Definition inner_bytes (payload_len : Z) (l : list ObjectRef) : Z :=
  5 + cbor_head_len payload_len + payload_len + cbor_head_len (len l) + children_bytes l.

Lemma node_size_Ok payload_len l options size :
  node_size payload_len (child_sizes l) options = Ok size →
  size = MkNodeSize (37 + cbor_head_len (inner_bytes payload_len l) + inner_bytes payload_len l)
           (inner_bytes payload_len l) (len l)
  ∧ size_encoded size ≤ max_object_bytes options ∧ size_encoded size ≤ usize_max.
Proof.
  unfold node_size. intros Hs. inv_ok. destruct x as [count clen]. inv_ok.
  apply children_size_Ok in Hok as [-> ->].
  apply u64_try_from_Some in Hok0 as [-> _], Hok1 as [-> _], Hok3 as [-> _].
  simpl in *. inv_ok.
  repeat match goal with
  | Hc : checked_node_len _ _ = Ok _ |- _ => apply checked_node_len_Ok in Hc as [-> ?]
  end.
  unfold inner_bytes. rewrite !Z.add_0_l in *. split_and!; [|lia|lia].
  f_equal; rewrite ?Z.add_assoc; f_equal; lia.
Qed.

Lemma node_size_le payload_len l options :
  0 ≤ payload_len → len l ≤ max_object_refs options →
  37 + cbor_head_len (inner_bytes payload_len l) + inner_bytes payload_len l ≤ usize_max →
  37 + cbor_head_len (inner_bytes payload_len l) + inner_bytes payload_len l ≤ max_object_bytes options →
  node_size payload_len (child_sizes l) options
  = Ok (MkNodeSize (37 + cbor_head_len (inner_bytes payload_len l) + inner_bytes payload_len l)
          (inner_bytes payload_len l) (len l)).
Proof.
  intros Hp Hr Hu Hb. pose proof (len_nonneg l). pose proof (children_bytes_bounds l).
  pose proof usize_max_le_u64.
  pose proof (cbor_head_len_bounds (inner_bytes payload_len l)).
  assert (Hi : 5 + payload_len + children_bytes l ≤ inner_bytes payload_len l).
  { unfold inner_bytes. pose proof (cbor_head_len_bounds payload_len).
    pose proof (cbor_head_len_bounds (len l)). lia. }
  unfold node_size. rewrite children_size_le by lia. simpl.
  unfold u64_try_from, in_u64. rewrite !Z.add_0_l.
  rewrite !(proj2 (Z.leb_le _ _)) by lia. simpl.
  pose proof (cbor_head_len_bounds payload_len). pose proof (cbor_head_len_bounds (len l)).
  assert (inner_bytes payload_len l
    = 5 + cbor_head_len payload_len + payload_len + cbor_head_len (len l) + children_bytes l) as Hdef by done.
  repeat (rewrite checked_node_len_le by lia; simpl).
  replace (0 + 5) with 5 by lia. rewrite <-Hdef.
  rewrite !(proj2 (Z.leb_le _ _)) by lia. simpl.
  repeat (rewrite checked_node_len_le by lia; simpl).
  rewrite (proj2 (Z.ltb_ge _ _)) by lia. f_equal.
Qed.
End size.

(** Evaluates the head lengths of numerals. *)
Ltac head_lens :=
  change (preferred_head_len DIGEST_LEN) with 2;
  change (preferred_head_len 32) with 2;
  change (preferred_head_len FORMAT_VERSION) with 1;
  repeat match goal with
  | |- context [preferred_head_len (Zpos ?p)] =>
      change (preferred_head_len (Zpos p)) with 1
  end.

Section node.
Context `{Target} `{Blake3} `{CborLaws}.

Lemma encode_child_item o : encode_child o = enc_item (object_ref_item (object_ref_to_wire o)).
Proof.
  unfold encode_child, object_ref_item. simpl. change (len [_; _; _; _; _]) with 5.
  rewrite !enc_u8_u64 by (by destruct (obj_kind o)).
  by rewrite app_nil_r, <-!app_assoc.
Qed.

Lemma encode_child_len o : object_ref_wf o = true → len (encode_child o) = child_size o.
Proof.
  unfold object_ref_wf, digest_wf, uuid_wf, DIGEST_LEN, UUID_LEN. intros Hwf. bool_hyps.
  unfold encode_child, child_size. rewrite !enc_bytes_split, !len_app.
  repeat match goal with Hl : (len ?b =? _) = true |- _ => apply Z.eqb_eq in Hl; rewrite Hl end.
  rewrite !enc_u8_u64, enc_map_len, !enc_bytes_len_len, !enc_u64_len, !cbor_head_len_preferred
    by (done || (by destruct (obj_kind o))).
  destruct (obj_kind o); cbn [object_kind_code]; head_lens; lia.
Qed.

Lemma children_encoded_len l :
  Forall (λ o, object_ref_wf o = true) l → len (concat (encode_child <$> l)) = children_bytes l.
Proof.
  induction 1 as [|o l Ho Hl IH]; [done|]. rewrite fmap_cons. cbn [concat children_bytes foldr].
  by rewrite len_app, encode_child_len, IH.
Qed.

Lemma concat_encode_child l :
  concat (encode_child <$> l) = concat (enc_item <$> (object_ref_item ∘ object_ref_to_wire <$> l)).
Proof.
  rewrite <-list_fmap_compose. f_equal. apply list_fmap_ext. intros i o _. apply encode_child_item.
Qed.

(** The inner message, as [encode_node] writes it. *)
Definition node_inner (node : NodeBody) : bytes :=
  enc_map 3 ++ enc_u8 1 ++ enc_u32 FORMAT_VERSION
  ++ enc_u8 2 ++ enc_bytes (node_payload node)
  ++ enc_u8 3 ++ enc_array (len (node_children node))
  ++ concat (encode_child <$> node_children node).

Lemma node_inner_item node : node_inner node = enc_item (node_item node).
Proof.
  unfold node_inner, node_item. simpl. change (len [_; _; _]) with 3.
  rewrite !enc_u8_u64, enc_u32_u64, concat_encode_child by done.
  rewrite <-!app_assoc, app_nil_r. unfold len. by rewrite length_fmap.
Qed.

Definition node_wf (node : NodeBody) : bool :=
  in_usize (len (node_payload node)) && forallb object_ref_wf (node_children node).

Lemma node_inner_len node :
  node_wf node = true → len (node_children node) ≤ u64_max →
  len (node_inner node) = inner_bytes (len (node_payload node)) (node_children node).
Proof.
  unfold node_wf, in_usize. intros Hwf Hn. bool_hyps.
  pose proof usize_max_le_u64. pose proof (len_nonneg (node_children node)).
  unfold node_inner, inner_bytes. rewrite enc_bytes_split, !len_app.
  rewrite !enc_u8_u64, enc_u32_u64, enc_map_len, !enc_bytes_len_len, enc_array_len, !enc_u64_len
    by (done || (unfold in_u64; lia)).
  rewrite children_encoded_len by (by apply forallb_Forall).
  rewrite !cbor_head_len_preferred. head_lens. lia.
Qed.

(** The single-pass encoder writes the envelope of the inner message. *)
Lemma encode_node_Ok node options b :
  node_wf node = true → encode_node node options = Ok b →
  b = seal (node_inner node) ∧ len (node_children node) ≤ max_object_refs options
  ∧ ∃ size, node_size (len (node_payload node)) (child_sizes (node_children node)) options = Ok size
            ∧ len b = size_encoded size ∧ len (node_inner node) ≤ u64_max.
Proof.
  intros Hwf He. unfold encode_node in He. inv_ok.
  pose proof Hok as Hsize. apply node_size_Ok in Hok as (-> & Hmax & Husz).
  cbn [size_inner size_children size_encoded] in *.
  set (inner := inner_bytes (len (node_payload node)) (node_children node)) in *.
  pose proof usize_max_le_u64. pose proof (len_nonneg (node_children node)).
  pose proof (cbor_head_len_bounds inner).
  assert (len (node_children node) ≤ u64_max).
  { pose proof (children_bytes_bounds (node_children node)).
    pose proof (cbor_head_len_bounds (len (node_payload node))).
    pose proof (cbor_head_len_bounds (len (node_children node))).
    pose proof (len_nonneg (node_payload node)). unfold inner, inner_bytes in *. lia. }
  pose proof (node_inner_len node Hwf ltac:(lia)) as Hin. fold inner in Hin.
  assert (enc_map 2 ++ enc_u8 1 ++ enc_bytes_len inner ++ node_inner node
          = seal_head (node_inner node) ++ node_inner node) as Hb.
  { unfold seal_head. by rewrite Hin, <-!app_assoc. }
  unfold node_inner in Hb at 1. rewrite Hb.
  pose proof (seal_head_len (node_inner node) ltac:(lia)) as Hs. rewrite Hin in Hs.
  rewrite drop_app_length' by (rewrite <-Hs; unfold len; lia).
  assert (seal (node_inner node) = (seal_head (node_inner node) ++ node_inner node)
    ++ enc_u8 2 ++ enc_bytes (blake3_hash (node_inner node))) as Hseal.
  { rewrite seal_split. unfold seal_tail. by rewrite <-!app_assoc. }
   rewrite <-Hseal. split_and!; [done|lia|]. eexists. split_and!; [done| |lia].
  rewrite Hseal, !len_app, enc_bytes_split, len_app, Hs, Hin, enc_bytes_len_len, enc_u8_u64, enc_u64_len
    by (done || (unfold digest_of; simpl; by rewrite blake3_hash_len)).
  unfold digest_of; simpl. rewrite blake3_hash_len. unfold DIGEST_LEN, preferred_head_len. simpl. lia.
Qed.

Lemma encode_node_seal node options :
  node_wf node = true → len (node_children node) ≤ max_object_refs options →
  len (seal (node_inner node)) ≤ max_object_bytes options → len (seal (node_inner node)) ≤ usize_max →
  encode_node node options = Ok (seal (node_inner node)).
Proof.
  intros Hwf Hr Hb Hu. pose proof (len_nonneg (node_children node)).
  pose proof usize_max_le_u64.
  assert (Hsp : len (seal (node_inner node))
    = len (seal_head (node_inner node)) + (len (node_inner node) + len (seal_tail (node_inner node))))
    by (by rewrite seal_split, !len_app).
  pose proof (len_nonneg (seal_head (node_inner node))).
  assert (len (seal_tail (node_inner node)) = 35) as Ht.
  { unfold seal_tail. rewrite len_app, enc_bytes_split, len_app, enc_u8_u64, enc_u64_len by done.
    unfold digest_of; simpl. rewrite blake3_hash_len. by rewrite enc_bytes_len_len. }
  assert (len (node_children node) ≤ u64_max) as Hc.
  { assert (len (node_children node) ≤ len (node_inner node)); [|lia].
    unfold node_inner. rewrite !len_app, children_encoded_len.
    - pose proof (children_bytes_bounds (node_children node)).
      repeat match goal with |- context [len (?f ?x)] =>
        lazymatch x with node_children _ => fail | _ => pose proof (len_nonneg (f x)); generalize dependent (len (f x)); intros end end. lia.
    - unfold node_wf in Hwf. bool_hyps.
      by apply forallb_Forall. }
  pose proof (node_inner_len node Hwf Hc) as Hin.
  pose proof (seal_head_len (node_inner node) ltac:(lia)) as Hh. rewrite Hin in Hh.
  rewrite Hh, Hin, Ht in Hsp. rewrite Hsp in Hb, Hu.
  pose proof (node_size_le (len (node_payload node)) (node_children node) options
    (len_nonneg _) Hr) as Hsize.
  specialize (Hsize ltac:(lia) ltac:(lia)).
  destruct (encode_node node options) as [b|e] eqn:E.
  { by apply encode_node_Ok in E as [-> _]. }
  exfalso. unfold encode_node in E. unfold child_sizes in Hsize.
  rewrite (proj2 (Z.ltb_ge _ _)), Hsize in E by lia. done.
Qed.

(** ** Decoding *)

Lemma child_ok_iff options o :
  child_ok options o = true ↔
  object_ref_wf o = true ∧ obj_kind o ≠ Checkpoint ∧ validate_count o = Ok ()
  ∧ obj_len o ≤ max_object_bytes options.
Proof.
  unfold child_ok. rewrite !andb_true_iff, negb_true_iff, bool_decide_eq_false, bool_decide_eq_true,
    Z.leb_le. tauto.
Qed.

Lemma max_object_bytes_default options :
  options_wf options = true →
  default u64_max (u64_try_from (max_object_bytes options)) = max_object_bytes options.
Proof.
  unfold options_wf, in_usize, u64_try_from, in_u64. intros Hwf. bool_hyps.
  pose proof usize_max_le_u64. by rewrite !(proj2 (Z.leb_le _ _)) by lia.
Qed.

Lemma decode_child_Ok options b o c :
  options_wf options = true → decode_child options (cursor b) = Ok (o, c) →
  ∃ r, c = cursor r ∧ b = encode_child o ++ r ∧ child_ok options o = true.
Proof.
  intros Hopt. unfold decode_child. rewrite max_object_bytes_default by done. intros Hd. exact_inv.
  eexists. split; [done|].
  match goal with Hk : (if _ then _ else _) = Some ?k |- _ => rename Hk into Hkind end.
  match type of Hkind with (if ?z =? _ then _ else _) = Some ?k =>
    assert (z = object_kind_code k ∧ k ≠ Checkpoint) as [-> Hnc]
      by (repeat case_match; simplify_eq; split; (lia || done)) end.
  split.
  - unfold encode_child. simpl. by rewrite <-!app_assoc.
  - rewrite child_ok_iff. unfold object_ref_wf, uuid_wf, digest_wf. simpl.
    split_and!; [|done| |lia].
    + rewrite !andb_true_iff, !Z.eqb_eq. done.
    + by destruct (validate_count _) as [[]|].
Qed.

Lemma decode_child_enc options o r :
  options_wf options = true → child_ok options o = true →
  decode_child options (cursor (encode_child o ++ r)) = Ok (o, cursor r).
Proof.
  intros Hopt (Hwf & Hk & Hc & Hl)%child_ok_iff.
  pose proof Hwf as Hwf'. unfold object_ref_wf, uuid_wf, digest_wf in Hwf'. bool_hyps.
  unfold encode_child, decode_child. rewrite max_object_bytes_default by done. rewrite <-!app_assoc.
  unfold DIGEST_LEN, UUID_LEN in *.
  do 2 exact_run_step. rewrite (exact_value_enc _ _ _ _ _ u8_laws) by (by destruct (obj_kind o)).
  cbn [result_bind].
  assert ((if object_kind_code (obj_kind o) =? object_kind_code Blob then Some Blob
           else if object_kind_code (obj_kind o) =? object_kind_code Node then Some Node else None)
          = Some (obj_kind o)) as -> by (by destruct (obj_kind o)).
  cbn [result_bind ok_or]. exact_run. rewrite (proj2 (Z.ltb_ge _ _)) by lia. exact_run.
  rewrite storage_wf_Ok by (unfold uuid_wf, UUID_LEN; lia). cbn [result_bind].
  rewrite digest_wf_Ok by (unfold digest_wf, DIGEST_LEN; lia). cbn [result_bind].
  destruct o; simpl in *. by rewrite Hc.
Qed.

(** Where the payload of a node lies in the inner message. *)
Definition inner_head (node : NodeBody) : bytes :=
  enc_map 3 ++ enc_u8 1 ++ enc_u32 FORMAT_VERSION ++ enc_u8 2 ++ enc_bytes_len (len (node_payload node)).
Definition inner_tail (node : NodeBody) : bytes :=
  enc_u8 3 ++ enc_array (len (node_children node)) ++ concat (encode_child <$> node_children node).

Lemma node_inner_split node : node_inner node = inner_head node ++ node_payload node ++ inner_tail node.
Proof. unfold node_inner, inner_head, inner_tail. by rewrite enc_bytes_split, <-!app_assoc. Qed.

Lemma slice_in_app pre p post : slice_in (pre ++ p ++ post) (MkSlice (len pre) p).
Proof.
  unfold slice_in. simpl. rewrite range_app, !len_app.
  pose proof (len_nonneg pre). pose proof (len_nonneg post).
  split_and!; [lia|done|lia].
Qed.

Definition payload_range (node : NodeBody) : Z * Z :=
  (len (inner_head node), len (inner_head node) + len (node_payload node)).

Lemma decode_node_payload_Ok options b r children :
  options_wf options = true → decode_node_payload b options = Ok (r, children) →
  ∃ payload, b = node_inner (MkNodeBody payload children) ∧ len payload ≤ u64_max
    ∧ r = payload_range (MkNodeBody payload children)
    ∧ Forall (λ o, child_ok options o = true) children
    ∧ len children ≤ max_object_refs options.
Proof.
  intros Hopt Hd. unfold decode_node_payload in Hd. exact_inv.
  match goal with Hu : usize_try_from _ = Some _ |- _ => apply usize_try_from_Some in Hu as [-> ?] end.
  match goal with Hr : decode_repeat _ _ _ = Ok _ |- _ =>
    apply (decode_repeat_Ok encode_child (λ o, child_ok options o = true)) in Hr as (r' & -> & -> & Hlen & Hall) end;
    [|intros; by apply decode_child_Ok].
  rewrite Z.eqb_eq, position_at_end in *. subst r'.
  match goal with |- ∃ _, enc_map 3 ++ enc_u8 1 ++ _ ++ enc_u8 2 ++ enc_bytes ?p ++ _ ++ enc_array ?n ++ _ = _ ∧ _ =>
    assert (n = len children) as -> by (unfold len; lia); exists p end.
  unfold in_slice in *. split_and!; try done; try lia.
  - unfold node_inner. simpl. by rewrite app_nil_r.
  - unfold payload_range, inner_head, position_in. simpl.
    rewrite (enc_bytes_split l), !len_app. f_equal; lia.
Qed.

Lemma decode_node_payload_enc options node :
  options_wf options = true → node_wf node = true →
  Forall (λ o, child_ok options o = true) (node_children node) →
  len (node_children node) ≤ max_object_refs options →
  decode_node_payload (node_inner node) options = Ok (payload_range node, node_children node).
Proof.
  intros Hopt Hwf Hall Hr. unfold decode_node_payload.
  pose proof usize_max_le_u64. unfold node_wf, in_usize in Hwf. bool_hyps.
  assert (max_object_refs options ≤ usize_max).
  { unfold options_wf, in_usize in Hopt. bool_hyps. lia. }
  pose proof (len_nonneg (node_children node)).
  unfold node_inner at 1. exact_run.
  rewrite exact_array_enc by (unfold in_u64; lia). cbn [result_bind].
  unfold usize_try_from, in_usize. rewrite !(proj2 (Z.leb_le _ _)) by lia. cbn [andb ok_or result_bind].
  rewrite (proj2 (Z.ltb_ge _ _)) by lia.
  replace (len (node_inner node) - position_in (node_inner node) _)
    with (children_bytes (node_children node)).
  2:{ unfold position_in. simpl. rewrite children_encoded_len; [lia|]. by apply forallb_Forall. }
  rewrite (proj2 (Z.leb_le _ _)).
  2:{ apply Z.div_le_lower_bound; [lia|]. apply children_bytes_bounds. }
  cbn [valid result_bind]. replace (Z.to_nat (len (node_children node))) with (length (node_children node)) by (unfold len; lia).
  rewrite <-(app_nil_r (concat _)), decode_repeat_enc.
  2:{ intros o r Ho. apply decode_child_enc; [done|]. rewrite Forall_forall in Hall. by apply Hall. }
  cbn [result_bind]. rewrite (proj2 (Z.eqb_eq _ _)) by (by apply position_at_end).
  cbn [valid result_bind]. do 2 f_equal. unfold payload_range, position_in, cursor.
  rewrite node_inner_split. unfold inner_head, inner_tail. simpl. rewrite ?app_nil_r, !len_app.
  repeat f_equal; lia.
Qed.

Lemma decode_node_seal options node :
  options_wf options = true → node_wf node = true →
  Forall (λ o, child_ok options o = true) (node_children node) →
  len (node_children node) ≤ max_object_refs options → len (node_inner node) ≤ u64_max →
  decode_node (seal (node_inner node)) options = Ok node.
Proof.
  intros Hopt Hwf Hall Hr Hlen. unfold decode_node.
  rewrite decode_borrowed_envelope_seal by done. cbn [result_bind].
  rewrite range_seal, decode_node_payload_enc by done. cbn [result_bind fst snd payload_range].
  rewrite Z.add_assoc.
  destruct (range_seal_slice (node_inner node) (MkSlice (len (inner_head node)) (node_payload node))) as [Hs _].
  { rewrite node_inner_split. apply slice_in_app. }
  simpl in Hs. rewrite Hs. by destruct node.
Qed.

Lemma decode_node_Ok options b node :
  options_wf options = true → decode_node b options = Ok node →
  b = seal (node_inner node) ∧ Forall (λ o, child_ok options o = true) (node_children node)
  ∧ len (node_children node) ≤ max_object_refs options ∧ len (node_payload node) ≤ len b.
Proof.
  intros Hopt Hd. unfold decode_node in Hd. inv_ok.
  apply decode_borrowed_envelope_Ok in Hok as (inner & -> & Hl & ->).
  rewrite range_seal in *. destruct x0 as [r children]. inv_ok.
  apply decode_node_payload_Ok in Hok0 as (payload & -> & Hp & -> & Hall & Hc); [|done].
  set (node := MkNodeBody payload children) in *.
  destruct (range_seal_slice (node_inner node) (MkSlice (len (inner_head node)) (node_payload node))) as [Hs Hb].
  { rewrite node_inner_split. apply slice_in_app. }
  cbn [slice_at slice_bytes] in Hs, Hb. rewrite <-Z.add_assoc in Hs.
  unfold payload_range. cbn [fst snd]. rewrite Hs. change (MkNodeBody (node_payload node) children) with node.
  split_and!; try done.
  pose proof (len_nonneg (seal_head (node_inner node))). pose proof (len_nonneg (inner_head node)). lia.
Qed.

(** ** Properties *)

(** C35. The node encoder is exact and canonical: it writes the format-version-1
    envelope of the node's fields, [node_size] is its length, and neither the object
    byte limit nor the reference limit is exceeded. *)
Theorem encode_node_exact node options b :
  node_wf node = true → encode_node node options = Ok b →
  b = encode_envelope (node_item node)
  ∧ (∃ size, node_size (len (node_payload node)) (child_sizes (node_children node)) options = Ok size
             ∧ size_encoded size = len b)
  ∧ len b ≤ max_object_bytes options ∧ len (node_children node) ≤ max_object_refs options.
Proof.
  intros Hwf He. apply encode_node_Ok in He as (-> & Hr & size & Hs & Hl & _); [|done].
  pose proof (node_size_Ok _ _ _ _ Hs) as (_ & Hm & _). split_and!; [|by exists size|lia|done].
  by rewrite encode_envelope_seal, node_inner_item.
Qed.

(** Decoding an encoded node gives the node back. *)
Lemma node_roundtrip node options b :
  options_wf options = true → node_wf node = true →
  forallb (child_ok options) (node_children node) = true →
  encode_node node options = Ok b → decode_node b options = Ok node.
Proof.
  intros Hopt Hwf Hall He. apply encode_node_Ok in He as (-> & Hr & size & _ & _ & Hl); [|done].
  apply decode_node_seal; try done. by apply forallb_Forall.
Qed.

(** The node decoder accepts one encoding per node: what it accepts within the
    object limit is what the encoder writes, its children are valid references and
    respect the reference and byte limits, and its payload is a slice of the input. *)
Lemma node_canonical node options b :
  options_wf options = true → len b ≤ max_object_bytes options → len b ≤ usize_max →
  decode_node b options = Ok node →
  encode_node node options = Ok b
  ∧ forallb (child_ok options) (node_children node) = true
  ∧ len (node_children node) ≤ max_object_refs options.
Proof.
  intros Hopt Hb Hu Hd. apply decode_node_Ok in Hd as (-> & Hall & Hc & Hp); [|done].
  rewrite forallb_Forall. split_and!; [|done|done]. apply encode_node_seal; try done.
  unfold node_wf. rewrite andb_true_iff, forallb_Forall. split.
  - unfold in_usize. pose proof (len_nonneg (node_payload node)). lia.
  - eapply Forall_impl; [done|]. intros o Ho. by apply child_ok_iff in Ho as [? _].
Qed.

(** C36. Nodes round-trip and have one encoding: decoding an encoded node gives it back,
    and what the streaming decoder accepts within the object limit is what the encoder
    writes, with valid children inside the reference and byte limits. *)
Theorem node_codec :
  (∀ node options b, options_wf options = true → node_wf node = true →
     forallb (child_ok options) (node_children node) = true →
     encode_node node options = Ok b → decode_node b options = Ok node)
  ∧ (∀ node options b, options_wf options = true → len b ≤ max_object_bytes options → len b ≤ usize_max →
     decode_node b options = Ok node →
     encode_node node options = Ok b
     ∧ forallb (child_ok options) (node_children node) = true
     ∧ len (node_children node) ≤ max_object_refs options).
Proof. split; [apply node_roundtrip|apply node_canonical]. Qed.
End node.
