(* ===== verification/FormatPlan.v ===== *)
(** * Collection plans

    A collection plan has one encoding: the streaming decoder accepts exactly what
    the encoder writes.  A valid plan is a strictly sorted, bounded deletion set. *)

From S2P Require Import Prelude Types Head Cbor Wire Format FormatEnvelope.

(** A log identifier is ASCII. *)
Lemma log_id_wf_str id : log_id_wf id = true → in_str (log_id_str id) = true ∧ len (log_id_str id) ≤ MAX_LOG_ID_LEN.
Proof.
  unfold log_id_wf. destruct (log_id_new (log_id_str id)) as [id'|] eqn:E; [|done]. intros _.
  apply log_id_new_Ok in E as (_ & Hl & Hb & _). split; [|lia].
  unfold in_str. rewrite utf8_valid_ascii; [unfold MAX_LOG_ID_LEN, u64_max in *; simpl; lia|].
  eapply Forall_impl; [done|]. intros b Hlb.
  unfold log_id_byte, is_ascii_alphanumeric, between in *. pose proof (byte_val_range b).
  repeat (apply orb_true_iff in Hlb as [Hlb|Hlb]); bool_hyps; lia.
Qed.

Section plan.
Context `{Target} `{Blake3} `{CborLaws}.

Definition encode_candidate (c : CollectionCandidate) : bytes :=
  enc_map 5 ++ enc_u8 1 ++ enc_bytes (uuid_bytes (key_incarnation (candidate_key c)))
  ++ enc_u8 2 ++ enc_u8 (immutable_kind_code (key_kind (candidate_key c)))
  ++ enc_u8 3 ++ enc_bytes (uuid_bytes (storage_uuid (key_storage_id (candidate_key c))))
  ++ enc_u8 4 ++ enc_bytes (digest_bytes (key_digest (candidate_key c)))
  ++ enc_u8 5 ++ enc_u64 (candidate_size c).

Lemma encode_candidate_item c : encode_candidate c = enc_item (candidate_item (candidate_to_wire c)).
Proof.
  unfold encode_candidate, candidate_item. simpl. change (len [_; _; _; _; _]) with 5.
  rewrite !enc_u8_u64 by (by destruct (key_kind (candidate_key c))).
  by rewrite app_nil_r, <-!app_assoc.
Qed.

Lemma encode_candidate_len c :
  candidate_wf c = true → MIN_COLLECTION_CANDIDATE_BYTES ≤ len (encode_candidate c).
Proof.
  unfold candidate_wf, immutable_key_wf, digest_wf, uuid_wf, DIGEST_LEN, UUID_LEN. intros Hwf. bool_hyps.
  unfold encode_candidate. rewrite !enc_bytes_split, !len_app.
  repeat match goal with Hl : (len ?b =? _) = true |- _ => apply Z.eqb_eq in Hl; rewrite Hl end.
  rewrite !enc_u8_u64, enc_map_len, !enc_bytes_len_len, !enc_u64_len by (done || (by destruct (key_kind (candidate_key c)))).
  change (preferred_head_len 32) with 2. change (preferred_head_len 16) with 1.
  change (preferred_head_len 5) with 1. change (preferred_head_len 4) with 1.
  change (preferred_head_len 3) with 1. change (preferred_head_len 2) with 1.
  change (preferred_head_len 1) with 1. unfold MIN_COLLECTION_CANDIDATE_BYTES, preferred_head_len.
  repeat case_match; lia.
Qed.

Lemma candidates_len l :
  Forall (λ c, candidate_wf c = true) l →
  MIN_COLLECTION_CANDIDATE_BYTES * len l ≤ len (concat (encode_candidate <$> l)).
Proof.
  induction 1 as [|c l Hc Hl IH]; [done|]. rewrite fmap_cons. cbn [concat].
  rewrite len_app, len_cons. pose proof (encode_candidate_len c Hc). lia.
Qed.

Lemma decode_candidate_Ok b x c :
  decode_candidate (cursor b) = Ok (x, c) →
  ∃ r, c = cursor r ∧ b = encode_candidate x ++ r ∧ candidate_wf x = true.
Proof.
  unfold decode_candidate. intros Hd. exact_inv. rewrite immutable_kind_code_of in *. subst.
  eexists. split_and!; [done| |].
  - unfold encode_candidate. simpl. by rewrite <-!app_assoc.
  - unfold candidate_wf, immutable_key_wf, uuid_wf, digest_wf. simpl.
    rewrite !andb_true_iff, !Z.eqb_eq. done.
Qed.

Lemma decode_candidate_enc x r :
  candidate_wf x = true → decode_candidate (cursor (encode_candidate x ++ r)) = Ok (x, cursor r).
Proof.
  intros Hwf. unfold candidate_wf, immutable_key_wf in Hwf. bool_hyps.
  unfold encode_candidate, decode_candidate. rewrite <-!app_assoc.
  unfold uuid_wf, digest_wf, DIGEST_LEN, UUID_LEN in *.
  exact_run. rewrite uuid_wf_Ok by done. cbn [result_bind].
  rewrite (exact_value_enc _ _ _ _ _ u8_laws) by (by destruct (key_kind (candidate_key x))). cbn [result_bind].
  rewrite (proj2 (immutable_kind_code_of _ _) eq_refl). cbn [result_bind ok_or]. exact_run.
  rewrite storage_wf_Ok by done. cbn [result_bind]. exact_run.
  rewrite digest_wf_Ok by done. cbn [result_bind]. exact_run.
  by destruct x as [[] ?].
Qed.

Definition plan_inner (plan : CollectionPlan) : bytes :=
  enc_map 4 ++ enc_u8 1 ++ enc_u32 FORMAT_VERSION
  ++ enc_u8 2 ++ enc_str (log_id_str (plan_log_id plan))
  ++ enc_u8 3 ++ enc_u64 (plan_collection_epoch plan)
  ++ enc_u8 4 ++ enc_array (len (plan_candidates plan))
  ++ concat (encode_candidate <$> plan_candidates plan).

Lemma plan_inner_item plan : plan_inner plan = enc_item (plan_item (plan_to_wire plan)).
Proof.
  assert (encode_candidate <$> plan_candidates plan
    = enc_item <$> (candidate_item <$> (candidate_to_wire <$> plan_candidates plan))) as Hc.
  { rewrite <-!list_fmap_compose. apply list_fmap_ext. intros i o _. apply encode_candidate_item. }
  unfold plan_inner, plan_item. simpl. change (len [_; _; _; _]) with 4.
  rewrite !enc_u8_u64, enc_u32_u64, Hc by done. rewrite <-!app_assoc, app_nil_r.
  unfold len. by rewrite !length_fmap.
Qed.

Definition plan_wf (plan : CollectionPlan) : bool :=
  log_id_wf (plan_log_id plan) && in_u64 (plan_collection_epoch plan)
  && forallb candidate_wf (plan_candidates plan).

Lemma decode_collection_payload_Ok b options plan :
  decode_collection_payload b options = Ok plan →
  b = plan_inner plan ∧ plan_wf plan = true ∧ plan_validate plan options = Ok ().
Proof.
  unfold decode_collection_payload. intros Hd. exact_inv.
  match goal with Hu : usize_try_from _ = Some _ |- _ => apply usize_try_from_Some in Hu as [-> ?] end.
  match goal with Hr : decode_repeat _ _ _ = Ok _ |- _ =>
    apply (decode_repeat_Ok encode_candidate (λ c, candidate_wf c = true)) in Hr as (r' & -> & -> & Hlen & Hall) end;
    [|intros; by apply decode_candidate_Ok].
  rewrite Z.eqb_eq, position_at_end in *. subst r'.
  match goal with Hn : log_id_new _ = Ok _ |- _ =>
    pose proof (log_id_new_same _ _ Hn) as <-; pose proof (log_id_new_wf _ _ Hn) end.
  match type of Hlen with length ?l = Z.to_nat ?n => assert (n = len l) as -> by (unfold len; lia) end.
  split_and!.
  - unfold plan_inner. simpl. by rewrite app_nil_r.
  - unfold plan_wf. simpl. rewrite !andb_true_iff, forallb_Forall. done.
  - by destruct (plan_validate _ _) as [[]|].
Qed.

Lemma decode_collection_payload_enc options plan :
  options_wf options = true → plan_wf plan = true → plan_validate plan options = Ok () →
  decode_collection_payload (plan_inner plan) options = Ok plan.
Proof.
  intros Hopt Hwf Hv. unfold plan_wf in Hwf. bool_hyps.
  assert (len (plan_candidates plan) ≤ max_collection_objects options) as Hmax.
  { unfold plan_validate in Hv. inv_ok. lia. }
  assert (max_collection_objects options ≤ usize_max).
  { unfold options_wf, in_usize in Hopt. bool_hyps. lia. }
  pose proof usize_max_le_u64. pose proof (len_nonneg (plan_candidates plan)).
  destruct (log_id_wf_str (plan_log_id plan)) as [Hstr Hid]; [done|].
  unfold decode_collection_payload. unfold plan_inner at 1. exact_run.
  cbn [require_version]. change (require_version FORMAT_VERSION) with (@Ok () Error ()).
  cbn [result_bind]. exact_run.
  rewrite (proj2 (Z.ltb_ge _ _)) by lia. rewrite log_id_wf_new by done. cbn [result_bind]. exact_run.
  rewrite exact_array_enc by (unfold in_u64; lia). cbn [result_bind].
  unfold usize_try_from, in_usize. rewrite !(proj2 (Z.leb_le _ _)) by lia. cbn [andb ok_or result_bind].
  rewrite (proj2 (Z.ltb_ge _ _)) by lia.
  replace (len (plan_inner plan) - position_in (plan_inner plan) _)
    with (len (concat (encode_candidate <$> plan_candidates plan))) by (unfold position_in; simpl; lia).
  rewrite (proj2 (Z.leb_le _ _)).
  2:{ apply Z.div_le_lower_bound; [done|]. apply candidates_len. by apply forallb_Forall. }
  cbn [valid result_bind].
  replace (Z.to_nat (len (plan_candidates plan))) with (length (plan_candidates plan)) by (unfold len; lia).
  rewrite <-(app_nil_r (concat _)), decode_repeat_enc.
  2:{ intros x r Hx. apply decode_candidate_enc.
      match goal with Hf : forallb _ _ = true |- _ => apply forallb_Forall in Hf; rewrite Forall_forall in Hf; by apply Hf end. }
  cbn [result_bind]. rewrite (proj2 (Z.eqb_eq _ _)) by (by apply position_at_end).
  cbn [valid result_bind]. destruct plan; simpl in *. by rewrite Hv.
Qed.

(** ** What a valid plan is *)

Lemma candidate_total_Ok l : ∀ acc total,
  try_fold (λ total c, ok_or (u64_checked_add total (candidate_size c))
    (LimitExceeded "collection candidate bytes")) acc l = Ok total →
  total = acc + foldr (λ c t, candidate_size c + t) 0 l ∧ (acc ≤ u64_max → total ≤ u64_max).
Proof.
  induction l as [|c l IH]; intros acc total; cbn [try_fold].
  - intros [= <-]. simpl. lia.
  - intros Hf. inv_ok. apply checked_add_Some in Hok as [-> Hle].
    apply IH in Hf as [-> Hf]. simpl. lia.
Qed.

Definition candidate_total (l : list CollectionCandidate) : Z :=
  foldr (λ c t, candidate_size c + t) 0 l.

Lemma plan_validate_Ok plan options :
  plan_validate plan options = Ok () →
  plan_collection_epoch plan ≠ 0 ∧ plan_candidates plan ≠ []
  ∧ len (plan_candidates plan) ≤ max_collection_objects options
  ∧ strictly_sorted (candidate_key <$> plan_candidates plan)
  ∧ candidate_bytes plan = Ok (candidate_total (plan_candidates plan))
  ∧ candidate_total (plan_candidates plan) ≤ u64_max.
Proof.
  unfold plan_validate. intros Hv. inv_ok. bool_hyps.
  assert (∃ t, candidate_bytes plan = Ok t) as [t Ht] by eauto.
  pose proof Ht as Ht'. unfold candidate_bytes in Ht'. apply candidate_total_Ok in Ht' as [-> Hle].
  rewrite Z.add_0_l in *. split_and!; try done; try lia.
  - by apply (windows2_all_sorted candidate_key).
  - apply Hle. unfold u64_max. lia.
Qed.

(** ** Properties *)

(** An encoded collection plan decodes to itself. *)
Lemma plan_roundtrip plan options b :
  options_wf options = true → plan_wf plan = true →
  encode_collection_plan plan options = Ok b → decode_collection_plan b options = Ok plan.
Proof.
  intros Hopt Hwf He. unfold encode_collection_plan in He. inv_ok.
  assert (max_collection_plan_bytes options ≤ u64_max).
  { pose proof usize_max_le_u64. unfold options_wf, in_usize in Hopt. bool_hyps. lia. }
  unfold decode_collection_plan. rewrite encode_envelope_seal, <-plan_inner_item in *.
  match goal with Hb : (_ <? _) = false |- _ => rewrite Hb end.
  assert (len (plan_inner plan) ≤ len (seal (plan_inner plan))).
  { rewrite seal_split, !len_app. pose proof (len_nonneg (seal_head (plan_inner plan))).
    pose proof (len_nonneg (seal_tail (plan_inner plan))). lia. }
  rewrite decode_borrowed_envelope_seal by lia. cbn [result_bind].
  rewrite range_seal. by apply decode_collection_payload_enc.
Qed.

(** A collection plan has one encoding: bytes the decoder accepts are the bytes
    the encoder writes for the decoded plan. *)
Lemma plan_canonical plan options b :
  decode_collection_plan b options = Ok plan → encode_collection_plan plan options = Ok b.
Proof.
  intros Hd. unfold decode_collection_plan in Hd. inv_ok.
  apply decode_borrowed_envelope_Ok in Hok as (inner & -> & Hl & ->). rewrite range_seal in Hd.
  apply decode_collection_payload_Ok in Hd as (-> & Hwf & Hv).
  unfold encode_collection_plan. rewrite Hv. cbn [result_bind].
  rewrite encode_envelope_seal, <-plan_inner_item. by match goal with Hb : (_ <? _) = false |- _ => rewrite Hb end.
Qed.

Lemma plan_decoded_wf plan options b : decode_collection_plan b options = Ok plan → plan_wf plan = true.
Proof.
  intros Hd. unfold decode_collection_plan in Hd. inv_ok. by apply decode_collection_payload_Ok in Hd as (_ & ? & _).
Qed.

(** Collection plans round-trip and have one encoding. *)
Theorem plan_codec :
  (∀ plan options b, options_wf options = true → plan_wf plan = true →
     encode_collection_plan plan options = Ok b → decode_collection_plan b options = Ok plan)
  ∧ (∀ plan options b, decode_collection_plan b options = Ok plan → encode_collection_plan plan options = Ok b).
Proof. split; [apply plan_roundtrip|apply plan_canonical]. Qed.

(** A plan the decoder accepts is a non-empty, strictly sorted deletion set
    within the durable object and byte limits, for a positive epoch, whose total
    size does not overflow. *)
Theorem decoded_plan_bounds plan options b :
  decode_collection_plan b options = Ok plan →
  plan_collection_epoch plan ≠ 0 ∧ plan_candidates plan ≠ []
  ∧ len (plan_candidates plan) ≤ max_collection_objects options
  ∧ strictly_sorted (candidate_key <$> plan_candidates plan)
  ∧ candidate_bytes plan = Ok (candidate_total (plan_candidates plan))
  ∧ candidate_total (plan_candidates plan) ≤ u64_max ∧ len b ≤ max_collection_plan_bytes options.
Proof.
  intros Hd. unfold decode_collection_plan in Hd. inv_ok.
  apply decode_collection_payload_Ok in Hd as (_ & _ & Hv).
  apply plan_validate_Ok in Hv as (? & ? & ? & ? & ? & ?). split_and!; try done; lia.
Qed.
End plan.
