(* ===== verification/FormatRecords.v ===== *)
(** * Commits and checkpoints

    Commit and checkpoint records round trip, have one encoding, and hand out
    payload fields that are slices of the record they were read from. *)

From S2P Require Import Prelude Types Head Cbor Wire Format FormatEnvelope FormatPlan.

(** ** Items of well-formed values *)

Lemma uuid_item_wf u : uuid_wf u = true → in_slice (uuid_bytes u) = true.
Proof. unfold uuid_wf, in_slice, UUID_LEN, u64_max. lia. Qed.

Lemma digest_item_wf d : digest_wf d = true → in_slice (digest_bytes d) = true.
Proof. unfold digest_wf, in_slice, DIGEST_LEN, u64_max. lia. Qed.
#[export] Hint Resolve uuid_item_wf digest_item_wf : object_log.

Lemma object_item_wf o : object_ref_wf o = true → object_ref_wire_wf (object_ref_to_wire o) = true.
Proof.
  unfold object_ref_wf, object_ref_wire_wf. intros Hwf. bool_hyps. simpl.
  repeat match goal with Hz : in_u64 _ = true |- _ => rewrite Hz end.
  rewrite uuid_item_wf, digest_item_wf by done. by destruct (obj_kind o).
Qed.

Definition object_valid (o : ObjectRef) : bool :=
  object_ref_wf o && bool_decide (validate_count o = Ok ()).

Lemma object_valid_iff o : object_valid o = true ↔ object_ref_wf o = true ∧ validate_count o = Ok ().
Proof. unfold object_valid. by rewrite andb_true_iff, bool_decide_eq_true. Qed.

(** A list of valid references converts to the wire and back. *)
Lemma objects_wire_Ok l :
  forallb object_valid l = true → try_map object_ref_of_wire (object_ref_to_wire <$> l) = Ok l.
Proof.
  intros Hl%forallb_Forall. rewrite <-(list_fmap_id l) at 2. apply try_map_fmap.
  intros o Ho. rewrite Forall_forall in Hl. apply Hl in Ho as [? ?]%object_valid_iff.
  by apply object_ref_wire_Ok.
Qed.

Lemma objects_wire_inv w l :
  try_map object_ref_of_wire w = Ok l → object_ref_to_wire <$> l = w.
Proof.
  rewrite try_map_Ok. induction 1 as [|x y w l Hx _ IH]; [done|]. rewrite fmap_cons, IH. f_equal.
  by apply object_ref_wire_inv.
Qed.

Lemma objects_wire_wf l :
  forallb object_valid l = true → forallb object_ref_wire_wf (object_ref_to_wire <$> l) = true.
Proof.
  rewrite !forallb_Forall, Forall_fmap. intros Hl. eapply Forall_impl; [exact Hl|].
  intros o [Ho _]%object_valid_iff.
  by apply object_item_wf.
Qed.

Lemma objects_item_wf l :
  len l ≤ u64_max → forallb object_ref_wire_wf l = true → item_wf (IArray (object_ref_item <$> l)) = true.
Proof.
  intros Hl Ho. simpl. rewrite andb_true_iff. split; [unfold len in *; rewrite length_fmap; lia|].
  rewrite forallb_Forall, Forall_fmap. apply forallb_Forall in Ho. eapply Forall_impl; [exact Ho|].
  intros o. unfold object_ref_wire_wf. by intros [Hi _]%andb_prop.
Qed.

Lemma tip_wire_Ok (o : option Digest) :
  from_option digest_wf true o = true → try_option digest (digest_bytes <$> o) = Ok o.
Proof. destruct o as [d|]; [|done]. simpl. intros Hd. by rewrite digest_wf_Ok. Qed.

Lemma tip_wire_inv w (o : option Digest) : try_option digest w = Ok o → digest_bytes <$> o = w.
Proof.
  destruct w as [b|]; simpl; [|by intros [= <-]].
  intros Hd. inv_ok. by apply digest_Ok in Hok as [-> _].
Qed.

Lemma tip_item_wf n (o : option Digest) :
  in_width u8_max n = true → from_option digest_wf true o = true →
  forallb (λ f, in_width u8_max f.1 && item_wf f.2) (opt_field n IBytes (digest_bytes <$> o)) = true.
Proof.
  intros Hn. destruct o as [d|]; [|done]. simpl. intros Hd. by rewrite Hn, digest_item_wf.
Qed.

Lemma opt_field_len {A} n (f : A → Item) o : len (opt_field n f o) ≤ 1.
Proof. by destruct o. Qed.

(** [wire_inv] turns accepted conversions of wire fields into equations. *)
Ltac wire_inv :=
  repeat match goal with
  | Hx : try_map object_ref_of_wire _ = Ok _ |- _ => apply objects_wire_inv in Hx
  | Hx : try_option digest _ = Ok _ |- _ => apply tip_wire_inv in Hx
  | Hx : digest _ = Ok _ |- _ => apply digest_Ok in Hx as [-> _]
  | Hx : storage_id _ = Ok _ |- _ => apply storage_id_Ok in Hx as [-> _]
  | Hx : transaction_id _ = Ok _ |- _ => apply transaction_id_Ok in Hx as [-> _]
  | Hx : uuid _ _ = Ok _ |- _ => apply uuid_Ok in Hx as [-> _]
  | Hx : log_id_new _ = Ok _ |- _ => apply log_id_new_same in Hx
  | Hx : require_version _ = Ok _ |- _ => apply require_version_Ok in Hx
  end.

Section records.
Context `{Target} `{Blake3} `{CborLaws} `{!DerivedDecode} `{!DerivedDecodeLaws}.

Lemma decode_exact_Ok {W} (dec : bytes → DecodeResult W) b w :
  decode_exact dec b = Ok w → ∃ rest, dec b = Ok (w, rest) ∧ len rest = 0.
Proof.
  unfold decode_exact. destruct (dec b) as [[v rest]|]; [|done]. intros Hd. inv_ok. bool_hyps.
  exists rest. split; [done|lia].
Qed.

Lemma decode_exact_enc {W} (dec : bytes → DecodeResult W) b w :
  dec (b ++ []) = Ok (w, []) → decode_exact dec b = Ok w.
Proof.
  rewrite app_nil_r. intros Hd. unfold decode_exact. rewrite Hd.
  change (len []) with 0. by rewrite Z.sub_0_r, Z.eqb_refl.
Qed.

Lemma require_canonical_wire_Ok payload i : require_canonical_wire payload i = Ok () ↔ payload = enc_item i.
Proof.
  unfold require_canonical_wire, matching_write. split.
  - intros Hr. inv_ok. rewrite valid_Ok in *. bool_hyps. subst. apply strip_prefix_Some in Hok.
    by rewrite app_nil_r in Hok.
  - intros ->. assert (strip_prefix (enc_item i) (enc_item i) = Some []) as ->.
    { apply strip_prefix_Some. by rewrite app_nil_r. }
    done.
Qed.

(** A borrowed field of the payload is shared from the sealed record. *)
Lemma shared_bytes_seal payload s :
  len (seal payload) ≤ usize_max → slice_in payload s →
  shared_bytes (seal payload) (len (seal_head payload) + slice_at s) (slice_bytes s) = Ok (slice_bytes s).
Proof.
  intros Hu Hs. pose proof (range_seal_slice payload s Hs) as [Hr Hle]. destruct Hs as [Hpos _].
  unfold shared_bytes. pose proof (len_nonneg (seal_head payload)).
  rewrite (proj2 (Z.ltb_ge _ _)) by lia. unfold checked_add_within.
  rewrite (proj2 (Z.leb_le _ _)) by lia. cbn [ok_or result_bind].
  rewrite (proj2 (Z.leb_le _ _)) by lia. cbn [valid result_bind]. by rewrite Hr.
Qed.

Lemma shared_bytes_Ok b payload s field :
  b = seal payload → slice_in payload s →
  shared_bytes b (len (seal_head payload) + slice_at s) (slice_bytes s) = Ok field →
  field = slice_bytes s.
Proof.
  intros -> Hs Hf. pose proof (range_seal_slice payload s Hs) as [Hr _].
  unfold shared_bytes in Hf. inv_ok. apply checked_add_Some in Hok as [-> _]. done.
Qed.

Lemma seal_len_payload payload : len payload ≤ len (seal payload).
Proof.
  rewrite seal_split, !len_app. pose proof (len_nonneg (seal_head payload)).
  pose proof (len_nonneg (seal_tail payload)). lia.
Qed.

(** ** Commits *)

Definition commit_body_wf (c : CommitBody) : bool :=
  log_id_wf (cb_log_id c) && uuid_wf (cb_incarnation c)
  && uuid_wf (transaction_uuid (cb_transaction_id c))
  && from_option digest_wf true (cb_expected_tip c)
  && in_slice (cb_operation c) && in_slice (cb_result c)
  && forallb object_valid (cb_objects c) && (len (cb_objects c) <=? u64_max).

Lemma commit_to_wire_wf c : commit_body_wf c = true → commit_wire_wf (commit_to_wire c) = true.
Proof.
  unfold commit_body_wf. intros Hwf. bool_hyps.
  pose proof (objects_wire_wf (cb_objects c) ltac:(done)) as Ho.
  assert (item_wf (IArray (object_ref_item <$> (object_ref_to_wire <$> cb_objects c))) = true) as Hoi.
  { apply objects_item_wf; [unfold len in *; rewrite length_fmap; lia|done]. }
  destruct (log_id_wf_str (cb_log_id c)) as [Hid _]; [done|].
  unfold commit_wire_wf, commit_item, commit_to_wire.
  destruct (cb_expected_tip c) as [d|]; simpl in *; rewrite Ho, Hid, Hoi, !uuid_item_wf by done;
    rewrite ?digest_item_wf by done;
    repeat match goal with Hz : in_slice _ = true |- _ => rewrite Hz end; done.
Qed.

(** Decoding an encoded commit record gives the record back. *)
Lemma commit_roundtrip c :
  commit_body_wf c = true → len (encode_commit c) ≤ usize_max →
  decode_commit (encode_commit c) = Ok c.
Proof.
  intros Hwf Hu. pose proof (commit_to_wire_wf c Hwf) as Hww. unfold encode_commit in *.
  rewrite encode_envelope_seal in *. unfold decode_commit.
  set (payload := enc_item (commit_item (commit_to_wire c))) in *.
  pose proof (seal_len_payload payload). pose proof usize_max_le_u64.
  rewrite decode_borrowed_envelope_seal by lia. cbn [result_bind fst snd]. rewrite range_seal.
  destruct (commit_wire_enc (commit_to_wire c) [] Hww) as (w' & Hdec & Hw'). fold payload in Hdec.
  pose proof (commit_wire_borrowed _ _ _ Hdec) as [Hop Hres]. rewrite app_nil_r in Hop, Hres.
  rewrite (decode_exact_enc _ _ _ Hdec). cbn [result_bind].
  rewrite (proj2 (require_canonical_wire_Ok _ _)) by (by rewrite Hw').
  rewrite !shared_bytes_seal by done.
  unfold commit_body_wf in Hwf. bool_hyps. destruct w' as [v id t tip op res objs inc].
  unfold commit_contents, commit_to_wire in Hw'. simpl in Hw'. injection Hw' as -> -> -> -> Hw1 Hw2 -> ->. simpl in Hw1, Hw2.
  change (require_version FORMAT_VERSION) with (@Ok () Error ()). cbn [result_bind cw_log_id cw_incarnation
    cw_transaction_id cw_expected_tip cw_operation cw_result cw_objects cw_format_version].
  rewrite log_id_wf_new, uuid_wf_Ok, transaction_wf_Ok, tip_wire_Ok, objects_wire_Ok by done.
  cbn [result_bind]. rewrite Hw1, Hw2. by destruct c.
Qed.

(** A commit record has one encoding, and its operation and result are exactly
    the bytes of the record: whatever the decoder accepts is what the encoder writes. *)
Lemma commit_canonical b c : decode_commit b = Ok c → encode_commit c = b.
Proof.
  unfold decode_commit. intros Hd. inv_ok.
  apply decode_borrowed_envelope_Ok in Hok as (payload & -> & Hl & ->).
  rewrite range_seal in *. cbn [fst snd] in *.
  apply decode_exact_Ok in Hok0 as (rest & Hdec & _). apply commit_wire_borrowed in Hdec as [Hop Hres].
  repeat match goal with
  | Hs : shared_bytes _ _ _ = Ok _ |- _ => apply (shared_bytes_Ok _ _ _ _ eq_refl) in Hs; [|done]
  end.
  match goal with Hc : require_canonical_wire _ _ = Ok ?u |- _ =>
    destruct u; apply require_canonical_wire_Ok in Hc; rewrite Hc end.
  unfold encode_commit. rewrite encode_envelope_seal. do 2 f_equal.
  wire_inv.
  unfold commit_to_wire, commit_contents. simpl. f_equal. destruct x0; simpl in *. by subst.
Qed.

(** Commit records round-trip and have one encoding: the operation and result are
    exactly the bytes of the record, and whatever the decoder accepts is what the encoder
    writes. *)
Theorem commit_codec :
  (∀ c, commit_body_wf c = true → len (encode_commit c) ≤ usize_max →
     decode_commit (encode_commit c) = Ok c)
  ∧ (∀ b c, decode_commit b = Ok c → encode_commit c = b).
Proof. split; [apply commit_roundtrip|apply commit_canonical]. Qed.

(** ** Checkpoints *)

Definition checkpoint_body_wf (c : CheckpointBody) : bool :=
  log_id_wf (kb_log_id c) && uuid_wf (kb_incarnation c)
  && in_u64 (kb_through_sequence c) && digest_wf (kb_through_commit c)
  && in_slice (kb_snapshot c)
  && forallb object_valid (kb_objects c) && (len (kb_objects c) <=? u64_max).

Lemma checkpoint_to_wire_wf c :
  checkpoint_body_wf c = true → checkpoint_wire_wf (checkpoint_to_wire c) = true.
Proof.
  unfold checkpoint_body_wf. intros Hwf. bool_hyps.
  pose proof (objects_wire_wf (kb_objects c) ltac:(done)) as Ho.
  assert (item_wf (IArray (object_ref_item <$> (object_ref_to_wire <$> kb_objects c))) = true) as Hoi.
  { apply objects_item_wf; [unfold len in *; rewrite length_fmap; lia|done]. }
  destruct (log_id_wf_str (kb_log_id c)) as [Hid _]; [done|].
  unfold checkpoint_wire_wf, checkpoint_item, checkpoint_to_wire.
  simpl in *. rewrite Ho, Hid, Hoi, uuid_item_wf, digest_item_wf by done.
  repeat match goal with Hz : in_slice _ = true |- _ => rewrite Hz end.
  by match goal with Hz : in_u64 _ = true |- _ => rewrite Hz end.
Qed.

(** Decoding an encoded checkpoint record gives the record back. *)
Lemma checkpoint_roundtrip c :
  checkpoint_body_wf c = true → len (encode_checkpoint c) ≤ usize_max →
  decode_checkpoint (encode_checkpoint c) = Ok c.
Proof.
  intros Hwf Hu. pose proof (checkpoint_to_wire_wf c Hwf) as Hww. unfold encode_checkpoint in *.
  rewrite encode_envelope_seal in *. unfold decode_checkpoint.
  set (payload := enc_item (checkpoint_item (checkpoint_to_wire c))) in *.
  pose proof (seal_len_payload payload). pose proof usize_max_le_u64.
  rewrite decode_borrowed_envelope_seal by lia. cbn [result_bind fst snd]. rewrite range_seal.
  destruct (checkpoint_wire_enc (checkpoint_to_wire c) [] Hww) as (w' & Hdec & Hw'). fold payload in Hdec.
  pose proof (checkpoint_wire_borrowed _ _ _ Hdec) as Hop. rewrite app_nil_r in Hop.
  rewrite (decode_exact_enc _ _ _ Hdec). cbn [result_bind].
  rewrite (proj2 (require_canonical_wire_Ok _ _)) by (by rewrite Hw').
  rewrite shared_bytes_seal by done.
  unfold checkpoint_body_wf in Hwf. bool_hyps. destruct w' as [v id seq through snap inc objs].
  unfold checkpoint_contents, checkpoint_to_wire in Hw'. simpl in Hw'.
  injection Hw' as -> -> -> -> Hw1 -> ->. simpl in Hw1.
  change (require_version FORMAT_VERSION) with (@Ok () Error ()). cbn [result_bind kw_log_id kw_incarnation
    kw_through_sequence kw_through_commit kw_snapshot kw_objects kw_format_version].
  rewrite log_id_wf_new, uuid_wf_Ok, digest_wf_Ok, objects_wire_Ok by done.
  cbn [result_bind]. rewrite Hw1. by destruct c.
Qed.

(** A checkpoint record has one encoding: whatever the decoder accepts is what
    the encoder writes. *)
Lemma checkpoint_canonical b c : decode_checkpoint b = Ok c → encode_checkpoint c = b.
Proof.
  unfold decode_checkpoint. intros Hd. inv_ok.
  apply decode_borrowed_envelope_Ok in Hok as (payload & -> & Hl & ->).
  rewrite range_seal in *. cbn [fst snd] in *.
  apply decode_exact_Ok in Hok0 as (rest & Hdec & _). apply checkpoint_wire_borrowed in Hdec.
  match goal with
  | Hs : shared_bytes _ _ _ = Ok _ |- _ => apply (shared_bytes_Ok _ _ _ _ eq_refl) in Hs; [|done]
  end.
  match goal with Hc : require_canonical_wire _ _ = Ok ?u |- _ =>
    destruct u; apply require_canonical_wire_Ok in Hc; rewrite Hc end.
  unfold encode_checkpoint. rewrite encode_envelope_seal. do 2 f_equal. wire_inv.
  unfold checkpoint_to_wire, checkpoint_contents. simpl. f_equal. destruct x0; simpl in *. by subst.
Qed.

(** Checkpoint records round-trip and have one encoding. *)
Theorem checkpoint_codec :
  (∀ c, checkpoint_body_wf c = true → len (encode_checkpoint c) ≤ usize_max →
     decode_checkpoint (encode_checkpoint c) = Ok c)
  ∧ (∀ b c, decode_checkpoint b = Ok c → encode_checkpoint c = b).
Proof. split; [apply checkpoint_roundtrip|apply checkpoint_canonical]. Qed.
End records.
