(* ===== verification/FormatHead.v ===== *)
(** * The head codec

    A valid head round trips through its envelope, shape validation included, and a
    head has one encoding. *)

From S2P Require Import Prelude Types Head Cbor Wire Format FormatEnvelope FormatPlan FormatRecords.

(** Keys of a map in increasing order after [prev], each below the mask width. *)
Fixpoint keys_ok (prev : Z) (keys : list Z) : bool :=
  match keys with
  | [] => true
  | k :: keys => (prev <? k) && (k <? 16) && keys_ok k keys
  end.

Definition mask_from (m : Z) (keys : list Z) : Z := foldl (λ m k, Z.lor m (Z.shiftl 1 k)) m keys.

Definition mask_covers (m : Z) (required : list Z) : bool :=
  forallb (λ key, negb (Z.land m (Z.shiftl 1 key) =? 0)) required.

Section shape.
Context `{Target} `{Blake3} `{CborLaws} `{!DerivedDecode} `{!DerivedDecodeLaws}.

Lemma shape_uint_enc n rest : in_u64 n = true → shape_uint (enc_u64 n ++ rest) = Ok rest.
Proof. intros Hn. unfold shape_uint. by rewrite (dec_enc _ _ _ u64_laws). Qed.

Lemma shape_bytes_enc w b rest :
  len b = w → w ≤ u64_max → shape_bytes w (enc_bytes b ++ rest) = Ok rest.
Proof.
  intros Hb Hw. unfold shape_bytes. rewrite (dec_enc _ _ _ bytes_laws) by (unfold in_slice; lia).
  simpl. by rewrite (proj2 (Z.eqb_eq _ _)).
Qed.

Lemma shape_fields_enc field fields : ∀ prev m rest,
  0 ≤ prev → keys_ok prev (fst <$> fields) = true →
  (∀ k i rest, (k, i) ∈ fields → field k (enc_item i ++ rest) = Ok rest) →
  shape_fields (length fields) field prev m
    (concat ((λ f, enc_u64 f.1 ++ enc_item f.2) <$> fields) ++ rest)
  = Ok (mask_from m (fst <$> fields), rest).
Proof.
  induction fields as [|[k i] fields IH]; intros prev m rest Hp Hk Hf; [done|].
  simpl in Hk. bool_hyps. rewrite fmap_cons. cbn [length shape_fields concat fst snd].
  rewrite <-!app_assoc, <-enc_u8_u64, (dec_enc _ _ _ u8_laws) by (unfold in_width, u8_max; lia).
  cbn [shape map_err result_bind]. rewrite (proj2 (Z.ltb_lt _ _)) by lia. cbn [valid result_bind].
  rewrite Hf by left. cbn [result_bind]. rewrite (proj2 (Z.leb_gt _ _)) by lia.
  rewrite IH; [done|lia|done|]. intros k' i' r Hin. apply Hf. by right.
Qed.

(** A map whose fields are accepted, in order and complete, has the right shape. *)
Lemma head_shape_map_enc required field fields rest :
  keys_ok 0 (fst <$> fields) = true → mask_covers (mask_from 0 (fst <$> fields)) required = true →
  len fields ≤ 24 →
  (∀ k i rest, (k, i) ∈ fields → field k (enc_item i ++ rest) = Ok rest) →
  head_shape_map required field (enc_item (IMap fields) ++ rest) = Ok rest.
Proof.
  intros Hk Hm Hl Hf. unfold head_shape_map. cbn [enc_item]. rewrite <-app_assoc.
  rewrite map_enc by (pose proof (len_nonneg fields); unfold in_u64, u64_max; lia).
  cbn [shape map_err result_bind ok_or].
  replace (Z.to_nat (len fields)) with (length fields) by (unfold len; lia).
  rewrite shape_fields_enc by done. cbn [result_bind]. unfold mask_covers in Hm. by rewrite Hm.
Qed.

Lemma shape_array_enc element l rest :
  len l ≤ u64_max → (∀ i rest, i ∈ l → element (enc_item i ++ rest) = Ok rest) →
  shape_array element (enc_item (IArray l) ++ rest) = Ok rest.
Proof.
  intros Hl He. unfold shape_array. cbn [enc_item]. rewrite <-app_assoc.
  rewrite array_enc by (pose proof (len_nonneg l); unfold in_u64; lia).
  cbn [shape map_err result_bind ok_or].
  replace (Z.to_nat (len l)) with (length l) by (unfold len; lia). clear Hl.
  induction l as [|i l IH]; [done|]. rewrite fmap_cons. cbn [concat length shape_repeat].
  rewrite <-app_assoc, He by left. cbn [result_bind]. apply IH. intros j r Hj. apply He. by right.
Qed.

(** Splits membership in a literal field list. *)
Ltac fields :=
  let k := fresh "k" in let i := fresh "i" in let r := fresh "r" in let Hin := fresh "Hin" in
  intros k i r Hin; repeat (apply elem_of_cons in Hin as [Hin|Hin]; [injection Hin as -> ->|]);
  [..|by apply not_elem_of_nil in Hin].

Lemma wf_len_digest d : digest_wf d = true → len (digest_bytes d) = DIGEST_LEN.
Proof. unfold digest_wf. lia. Qed.
Lemma wf_len_uuid u : uuid_wf u = true → len (uuid_bytes u) = UUID_LEN.
Proof. unfold uuid_wf. lia. Qed.

Ltac field_ok :=
  cbn [enc_item];
  first [ apply shape_uint_enc; done
        | apply shape_bytes_enc; [by first [apply wf_len_digest | apply wf_len_uuid]|done] ].

Lemma shape_object_ref_enc o rest :
  object_ref_wf o = true → shape_object_ref (enc_item (object_ref_item (object_ref_to_wire o)) ++ rest) = Ok rest.
Proof.
  unfold object_ref_wf. intros Hwf. bool_hyps.
  apply head_shape_map_enc; [done|done|done|]. fields; try field_ok.
  cbn. apply shape_uint_enc. by destruct (obj_kind o).
Qed.

Lemma shape_commit_ref_enc c rest :
  commit_ref_wf c = true → shape_commit_ref (enc_item (commit_ref_item (commit_ref_to_wire c)) ++ rest) = Ok rest.
Proof.
  unfold commit_ref_wf. intros Hwf. bool_hyps.
  apply head_shape_map_enc; [done|done|done|]. fields; field_ok.
Qed.

Lemma shape_checkpoint_ref_enc c rest :
  checkpoint_ref_wf c = true →
  shape_checkpoint_ref (enc_item (checkpoint_ref_item (checkpoint_ref_to_wire c)) ++ rest) = Ok rest.
Proof.
  unfold checkpoint_ref_wf. intros Hwf. bool_hyps.
  apply head_shape_map_enc; [done|done|done|]. fields; try field_ok. by apply shape_object_ref_enc.
Qed.

Lemma shape_plan_ref_enc p rest :
  plan_ref_wf p = true → shape_plan_ref (enc_item (plan_ref_item (plan_ref_to_wire p)) ++ rest) = Ok rest.
Proof.
  unfold plan_ref_wf. intros Hwf. bool_hyps.
  apply head_shape_map_enc; [done|done|done|]. fields; field_ok.
Qed.

Lemma shape_options_enc w rest :
  Forall (λ z, in_u64 z = true) (options_wire_values w) →
  shape_options (enc_item (options_item w) ++ rest) = Ok rest.
Proof.
  unfold options_wire_values. intros Hall.
  repeat match goal with Hz : Forall _ (_ :: _) |- _ => apply Forall_cons in Hz as [? Hz] end.
  apply head_shape_map_enc; [done|done|done|]. fields; cbn; by apply shape_uint_enc.
Qed.

Lemma shape_commits_enc l rest :
  len l ≤ u64_max → forallb commit_ref_wf l = true →
  shape_array shape_commit_ref (enc_item (IArray (commit_ref_item <$> (commit_ref_to_wire <$> l))) ++ rest) = Ok rest.
Proof.
  intros Hl Hwf%forallb_Forall. apply shape_array_enc; [unfold len in *; rewrite !length_fmap; lia|].
  rewrite <-list_fmap_compose. intros i r (c & -> & Hc)%list_elem_of_fmap.
  apply shape_commit_ref_enc. rewrite Forall_forall in Hwf. by apply Hwf.
Qed.

Lemma shape_retentions_enc (l : list RetentionId) rest :
  len l ≤ u64_max → Forall (λ id, uuid_wf (retention_uuid id) = true) l →
  shape_array (shape_bytes UUID_LEN)
    (enc_item (IArray (IBytes <$> ((λ id, uuid_bytes (retention_uuid id)) <$> l))) ++ rest) = Ok rest.
Proof.
  intros Hl Hwf. apply shape_array_enc; [unfold len in *; rewrite !length_fmap; lia|].
  rewrite <-list_fmap_compose. intros i r (c & -> & Hc)%list_elem_of_fmap.
  cbn. apply shape_bytes_enc; [|done]. apply wf_len_uuid. rewrite Forall_forall in Hwf. by apply Hwf.
Qed.

(** ** Heads *)

(** What Rust's types and the counts of a decoded reference guarantee. *)
Definition head_encodable (h : Head) : bool :=
  head_wf h
  && match head_checkpoint h with
     | Some c => bool_decide (validate_count (checkpoint_object c) = Ok ())
     | None => true
     end.

Lemma retention_ids_from_Ok l : ∀ prev ids,
  Forall (λ id, uuid_wf (retention_uuid id) = true) l →
  strictly_sorted l → (∀ p id, prev = Some p → id ∈ l → ord_lt p id = true) →
  retention_ids_from prev ids ((λ id, uuid_bytes (retention_uuid id)) <$> l) = Ok (list_to_set l ∪ ids).
Proof.
  induction l as [|id l IH]; intros prev ids Hwf Hs Hp.
  - simpl. f_equal. set_solver.
  - apply Forall_cons in Hwf as [Hid Hwf].
    inversion_clear Hs as [|? ? Hs' Hall]. rewrite fmap_cons. cbn [retention_ids_from].
    rewrite uuid_wf_Ok by done. cbn [result_bind].
    replace (MkRetentionId (retention_uuid id)) with id by (by destruct id).
    assert (match prev with Some p => negb (ord_lt p id) | None => false end = false) as ->.
    { destruct prev as [p|]; [|done]. rewrite (Hp p id); [done|done|left]. }
    rewrite IH; [f_equal; set_solver|done|done|].
    intros p id' [= <-] Hin. rewrite Forall_forall in Hall. by apply Hall.
Qed.

Lemma retention_ids_roundtrip (s : gset RetentionId) :
  Forall (λ id, uuid_wf (retention_uuid id) = true) (elements s) →
  retention_ids ((λ id, uuid_bytes (retention_uuid id)) <$> btree_iter s) = Ok s.
Proof.
  intros Hwf. unfold retention_ids. rewrite retention_ids_from_Ok.
  - rewrite list_to_set_btree_iter. f_equal. set_solver.
  - by rewrite btree_iter_elements.
  - apply btree_iter_sorted.
  - done.
Qed.

Lemma commits_wire_Ok l :
  forallb commit_ref_wf l = true → try_map commit_ref_of_wire (commit_ref_to_wire <$> l) = Ok l.
Proof.
  intros Hl%forallb_Forall. rewrite <-(list_fmap_id l) at 2. apply try_map_fmap.
  intros o Ho. rewrite Forall_forall in Hl. by apply commit_ref_wire_Ok, Hl.
Qed.

Lemma head_of_wire_Ok h w :
  head_encodable h = true → options_of_wire w = Ok (head_options h) →
  (∀ c, head_checkpoint h = Some c → obj_kind (checkpoint_object c) = Checkpoint) →
  head_of_wire (head_to_wire h w) = Ok h.
Proof.
  unfold head_encodable, head_wf. intros Hwf Ho Hk. bool_hyps.
  unfold head_of_wire, head_to_wire. cbn [hw_log_id hw_incarnation hw_options hw_checkpoint hw_tail
    hw_recent_outcomes hw_active_plan hw_retention_ids].
  rewrite log_id_wf_new, uuid_wf_Ok, Ho by done. cbn [result_bind].
  assert (try_option checkpoint_ref_of_wire (checkpoint_ref_to_wire <$> head_checkpoint h)
          = Ok (head_checkpoint h)) as ->.
  { destruct (head_checkpoint h) as [c|]; [|done]. simpl. bool_hyps.
    by rewrite checkpoint_ref_wire_Ok by (done || by apply Hk). }
  cbn [result_bind]. rewrite !commits_wire_Ok by done. cbn [result_bind].
  assert (try_option plan_ref_of_wire (plan_ref_to_wire <$> head_active_plan h)
          = Ok (head_active_plan h)) as ->.
  { destruct (head_active_plan h) as [p|]; [|done]. simpl. by rewrite plan_ref_wire_Ok. }
  cbn [result_bind]. rewrite retention_ids_roundtrip by (by apply forallb_Forall).
  by destruct h.
Qed.

(** The list lengths of a valid head fit [u64]. *)
Record head_lens_ok (h : Head) : Prop := {
  lens_tail : len (head_tail h) ≤ u64_max;
  lens_outcomes : len (head_recent_outcomes h) ≤ u64_max;
  lens_retentions : len (btree_iter (head_retention_ids h)) ≤ u64_max
}.

Lemma valid_head_lens h : head_wf h = true → validate h = Ok () → head_lens_ok h.
Proof.
  intros Hwf Hv%validate_Ok_head_ok.
  unfold head_wf, options_wf, in_usize in Hwf. bool_hyps. pose proof usize_max_le_u64.
  pose proof (ok_tail_limit _ Hv). pose proof (ok_outcome_limit _ Hv).
  pose proof (ok_retentions _ (ok_collection _ Hv)) as Hr. split; [lia|lia|].
  unfold len. rewrite btree_iter_elements.
  change (length (elements (head_retention_ids h))) with (size (head_retention_ids h)). lia.
Qed.

Lemma shape_log_id_enc id rest :
  log_id_wf id = true → shape_log_id (enc_str (log_id_str id) ++ rest) = Ok rest.
Proof.
  intros [Hs Hl]%log_id_wf_str. unfold shape_log_id. rewrite (dec_enc _ _ _ str_laws) by done.
  simpl. by rewrite (proj2 (Z.ltb_ge _ _)) by lia.
Qed.

Lemma head_fields_enc h w rest :
  head_wf h = true → head_lens_ok h → Forall (λ z, in_u64 z = true) (options_wire_values w) →
  head_shape_map [1; 2; 3; 4; 6; 7; 8; 9; 10; 12] head_field
    (enc_item (head_item (head_to_wire h w)) ++ rest) = Ok rest.
Proof.
  intros Hwf [Ht Ho Hr] Hw. unfold head_wf in Hwf. bool_hyps.
  assert (Forall (λ id, uuid_wf (retention_uuid id) = true) (btree_iter (head_retention_ids h)))
    by (rewrite btree_iter_elements; by apply forallb_Forall).
  unfold head_item, head_to_wire; cbn [hw_format_version hw_log_id hw_generation hw_next_sequence
    hw_checkpoint hw_tail hw_recent_outcomes hw_incarnation hw_options hw_collection_epoch
    hw_active_plan hw_retention_ids].
  destruct (head_checkpoint h) as [c|], (head_active_plan h) as [p|];
    (apply head_shape_map_enc; [done|done|done|]);
    cbn [opt_field app fmap option_fmap option_map];
    fields; unfold head_field; cbn [Z.eqb Pos.eqb orb];
    match goal with
    | |- shape_checkpoint_ref _ = _ => by apply shape_checkpoint_ref_enc
    | |- shape_options _ = _ => by apply shape_options_enc
    | |- shape_plan_ref _ = _ => by apply shape_plan_ref_enc
    | |- shape_log_id _ = _ => by apply shape_log_id_enc
    | |- _ => first [ field_ok | by apply shape_commits_enc | by apply shape_retentions_enc ]
    end.
Qed.

Lemma validate_head_shape_enc h w :
  head_wf h = true → head_lens_ok h → Forall (λ z, in_u64 z = true) (options_wire_values w) →
  validate_head_shape (enc_item (head_item (head_to_wire h w))) = Ok ().
Proof.
  intros Hwf Hl Hw. unfold validate_head_shape.
  pose proof (head_fields_enc h w [] Hwf Hl Hw) as Hf. rewrite app_nil_r in Hf. rewrite Hf.
  cbn [result_bind]. change (len []) with 0. by rewrite Z.sub_0_r, Z.eqb_refl.
Qed.

Lemma commits_item_wf l :
  len l ≤ u64_max → forallb commit_ref_wf l = true →
  item_wf (IArray (commit_ref_item <$> (commit_ref_to_wire <$> l))) = true.
Proof.
  intros Hl Hwf%forallb_Forall. cbn [item_wf]. rewrite andb_true_iff.
  split; [unfold len in *; rewrite !length_fmap; lia|].
  rewrite forallb_Forall, !Forall_fmap. eapply Forall_impl; [exact Hwf|].
  intros c. unfold commit_ref_wf. simpl. intros. bool_hyps.
  repeat match goal with Hz : in_u64 _ = true |- _ => rewrite Hz end.
  by rewrite !uuid_item_wf, digest_item_wf by done.
Qed.

Lemma retentions_item_wf (l : list RetentionId) :
  len l ≤ u64_max → Forall (λ id, uuid_wf (retention_uuid id) = true) l →
  item_wf (IArray (IBytes <$> ((λ id, uuid_bytes (retention_uuid id)) <$> l))) = true.
Proof.
  intros Hl Hwf. cbn [item_wf]. rewrite andb_true_iff.
  split; [unfold len in *; rewrite !length_fmap; lia|].
  rewrite forallb_Forall, !Forall_fmap. eapply Forall_impl; [exact Hwf|].
  intros c Hc. simpl. by apply uuid_item_wf.
Qed.

Lemma options_item_wf w :
  Forall (λ z, in_u64 z = true) (options_wire_values w) → item_wf (options_item w) = true.
Proof.
  unfold options_wire_values. intros Hall.
  repeat match goal with Hz : Forall _ (_ :: _) |- _ => apply Forall_cons in Hz as [? Hz] end.
  cbn. repeat match goal with Hz : in_u64 _ = true |- _ => rewrite Hz end. done.
Qed.

Lemma checkpoint_ref_item_wf c :
  checkpoint_ref_wf c = true → item_wf (checkpoint_ref_item (checkpoint_ref_to_wire c)) = true.
Proof.
  unfold checkpoint_ref_wf. intros Hwf. bool_hyps.
  pose proof (object_item_wf (checkpoint_object c) ltac:(done)) as Ho.
  unfold object_ref_wire_wf in Ho. bool_hyps. unfold checkpoint_ref_item. cbn -[object_ref_item].
  repeat match goal with Hz : item_wf _ = true |- _ => rewrite Hz end.
  repeat match goal with Hz : in_u64 _ = true |- _ => rewrite Hz end.
  by rewrite digest_item_wf by done.
Qed.

Lemma plan_ref_item_wf p : plan_ref_wf p = true → item_wf (plan_ref_item (plan_ref_to_wire p)) = true.
Proof.
  unfold plan_ref_wf. intros Hwf. bool_hyps. cbn.
  rewrite uuid_item_wf, digest_item_wf by done.
  by match goal with Hz : in_u64 _ = true |- _ => rewrite Hz end.
Qed.

Lemma head_to_wire_wf h w :
  head_wf h = true → head_lens_ok h → Forall (λ z, in_u64 z = true) (options_wire_values w) →
  head_wire_wf (head_to_wire h w) = true.
Proof.
  intros Hwf [Ht Ho Hr] Hw. unfold head_wf in Hwf. bool_hyps.
  pose proof (commits_item_wf (head_tail h) Ht ltac:(done)) as Hit.
  pose proof (commits_item_wf (head_recent_outcomes h) Ho ltac:(done)) as Hio.
  pose proof (options_item_wf w Hw) as Hiw.
  assert (item_wf (IArray (IBytes <$> ((λ id, uuid_bytes (retention_uuid id))
    <$> btree_iter (head_retention_ids h)))) = true) as Hir.
  { apply retentions_item_wf; [done|]. rewrite btree_iter_elements. by apply forallb_Forall. }
  destruct (log_id_wf_str (head_log_id h)) as [Hid _]; [done|].
  assert (match hw_checkpoint (head_to_wire h w) with
          | Some c => match kpw_object c with Some o => object_ref_wire_wf o | None => true end
          | None => true end = true) as Hc.
  { simpl. destruct (head_checkpoint h) as [c|]; [|done]. apply object_item_wf.
    unfold checkpoint_ref_wf in *. by bool_hyps. }
  unfold head_wire_wf. rewrite Hc, andb_true_r. change (in_width u32_max (hw_format_version _)) with true.
  rewrite andb_true_r. unfold head_item, head_to_wire.
  destruct (head_checkpoint h) as [c|], (head_active_plan h) as [p|];
    cbn -[commit_ref_item options_item plan_ref_item checkpoint_ref_item] in *;
    rewrite ?checkpoint_ref_item_wf, ?plan_ref_item_wf, Hid, Hit, Hio, Hiw, Hir, uuid_item_wf by done;
    repeat match goal with Hz : in_u64 _ = true |- _ => rewrite Hz end; done.
Qed.

Lemma decode_head_encode h b :
  head_encodable h = true → encode_head h = Ok b → len b ≤ u64_max → decode_head b = Ok h.
Proof.
  intros Henc He Hb. pose proof Henc as Hwf. unfold head_encodable in Hwf. bool_hyps.
  pose proof He as He'. unfold encode_head in He. inv_ok.
  assert (validate h = Ok ()) as Hv by (by destruct (validate h) as [[]|]).
  pose proof (valid_head_lens h ltac:(done) Hv) as Hl.
  destruct (options_wire_Ok (head_options h)) as (w & Hw & Hw' & Hvals).
  { unfold head_wf in *. by bool_hyps. }
  match goal with Ho : options_to_wire _ = Ok ?w' |- _ =>
    rewrite Ho in Hw; injection Hw as -> end.
  rewrite encode_envelope_seal in *. unfold decode_head.
  pose proof (seal_len_payload (enc_item (head_item (head_to_wire h w)))).
  rewrite decode_borrowed_envelope_seal by lia. cbn [result_bind]. rewrite range_seal.
  rewrite validate_head_shape_enc by done. cbn [result_bind].
  rewrite (decode_exact_enc _ _ _ (head_wire_enc _ [] (head_to_wire_wf h w ltac:(done) Hl Hvals))).
  cbn [result_bind]. change (require_version (hw_format_version _)) with (@Ok () Error ()).
  cbn [result_bind]. rewrite head_of_wire_Ok; [|done|done|].
  - cbn [result_bind]. rewrite Hv. cbn [result_bind]. rewrite He'. cbn [result_bind].
    unfold require_canonical. by rewrite bool_decide_eq_true_2.
  - intros c Hc. by apply (ok_base_kind h c), (ok_base _ (validate_Ok_head_ok h Hv)).
Qed.

(** ** Properties *)

(** A head has one encoding, and every decoded head satisfies the durable
    invariant. *)
Lemma head_canonical h b :
  decode_head b = Ok h → encode_head h = Ok b ∧ validate h = Ok ().
Proof.
  unfold decode_head. intros Hd. inv_ok. unfold require_canonical in *. inv_ok. bool_hyps. subst.
  split; [done|]. by destruct (validate h) as [[]|].
Qed.

(** C34. Heads survive their durable encoding and have one encoding: a valid head decodes
    from the bytes it is written as, through the envelope, the shape check, the derived
    decoder and the final validation, and bytes the decoder accepts are exactly those the
    encoder writes for a head that satisfies the durable invariant. *)
Theorem head_codec :
  (∀ h b, head_encodable h = true → encode_head h = Ok b → len b ≤ u64_max → decode_head b = Ok h)
  ∧ (∀ h b, decode_head b = Ok h → encode_head h = Ok b ∧ validate h = Ok ()).
Proof. split; [apply decode_head_encode|apply head_canonical]. Qed.
End shape.
