(* ===== verification/FormatToken.v ===== *)
(** * Recovery tokens

    A recovery token survives encoding, has one encoding, and its publication-base
    digest identifies the fields of the head that a publication depends on. *)

From S2P Require Import Prelude Types Head Cbor Wire Format FormatEnvelope FormatPlan FormatRecords.
From S2P Require Import FormatHead.

Section token.
Context `{Target} `{Blake3} `{CborLaws} `{!DerivedDecode} `{!DerivedDecodeLaws}.

Definition version_wf (v : UpdateVersion) : bool :=
  from_option in_str true (e_tag v) && from_option in_str true (version_id v).

Definition token_wf (t : RecoveryToken) : bool :=
  digest_wf (tok_head_digest t) && digest_wf (tok_publication_base_digest t)
  && version_wf (tok_version t) && in_u64 (tok_generation t) && in_u64 (tok_next_sequence t)
  && from_option digest_wf true (tok_tip t) && log_id_wf (tok_log_id t)
  && uuid_wf (tok_incarnation t) && digest_wf (tok_options_digest t)
  && uuid_wf (transaction_uuid (tok_transaction_id t))
  && in_slice (tok_operation t) && in_slice (tok_result t)
  && forallb object_valid (tok_objects t) && (len (tok_objects t) <=? u64_max)
  && uuid_wf (storage_uuid (tok_storage_id t)).

(** The source position a token may carry. *)
Definition token_position_ok (t : RecoveryToken) : Prop :=
  tok_next_sequence t ≤ tok_generation t ∧ (is_Some (tok_tip t) ↔ 0 < tok_next_sequence t).

Lemma token_to_wire_wf t : token_wf t = true → token_wire_wf (token_to_wire t) = true.
Proof.
  unfold token_wf, version_wf. intros Hwf. bool_hyps.
  pose proof (objects_wire_wf (tok_objects t) ltac:(done)) as Ho.
  assert (item_wf (IArray (object_ref_item <$> (object_ref_to_wire <$> tok_objects t))) = true) as Hoi.
  { apply objects_item_wf; [unfold len in *; rewrite length_fmap; lia|done]. }
  destruct (log_id_wf_str (tok_log_id t)) as [Hid _]; [done|].
  unfold token_wire_wf, token_item, token_to_wire.
  destruct (e_tag (tok_version t)) as [e|], (version_id (tok_version t)) as [v|],
    (tok_tip t) as [d|]; simpl in *; rewrite Ho, Hid, Hoi, !uuid_item_wf, !digest_item_wf by done;
    repeat match goal with
    | Hz : in_slice _ = true |- _ => rewrite Hz
    | Hz : in_u64 _ = true |- _ => rewrite Hz
    | Hz : in_str _ = true |- _ => rewrite Hz
    end; done.
Qed.

Lemma token_of_wire_Ok t : token_wf t = true → token_of_wire (token_to_wire t) = Ok t.
Proof.
  unfold token_wf. intros Hwf. bool_hyps. unfold token_of_wire, token_to_wire.
  cbn [rw_head_digest rw_publication_base_digest rw_tip rw_log_id rw_incarnation rw_options_digest
    rw_transaction_id rw_storage_id rw_objects].
  rewrite !digest_wf_Ok by done. cbn [result_bind]. rewrite tip_wire_Ok by done. cbn [result_bind].
  rewrite log_id_wf_new, uuid_wf_Ok, transaction_wf_Ok, storage_wf_Ok, objects_wire_Ok by done.
  cbn [result_bind]. destruct t as [? ? [] ? ? ? ? ? ? ? ? ? ? ?]. done.
Qed.

Lemma token_roundtrip t :
  token_wf t = true → token_position_ok t → len (encode_token t) ≤ u64_max →
  decode_recovery_token (encode_token t) = Ok t.
Proof.
  intros Hwf [Hg Ht] Hl. unfold decode_recovery_token, decode_envelope.
  set (payload := enc_item (token_item (token_to_wire t))).
  assert (encode_token t = seal payload) as Hs by done. rewrite Hs in Hl.
  pose proof (seal_len_payload payload).
  assert (item_wf (envelope_item (MkEnvelopeWire payload (digest_bytes (digest_of payload)))) = true) as Hew.
  { unfold envelope_item. cbn [item_wf forallb fst snd ew_payload ew_digest].
    rewrite (digest_item_wf (digest_of payload)) by apply digest_of_wf.
    assert (in_slice payload = true) as -> by (unfold in_slice; lia). done. }
  assert (decode_exact decode_envelope_wire (encode_token t)
          = Ok (MkEnvelopeWire payload (digest_bytes (digest_of payload)))) as Hd.
  { rewrite Hs. unfold seal. apply decode_exact_enc. by apply envelope_wire_enc. }
  rewrite Hd. cbn [result_bind ew_digest ew_payload].
  rewrite digest_wf_Ok by apply digest_of_wf. cbn [result_bind].
  rewrite bool_decide_eq_true_2 by done. cbn [negb]. unfold payload.
  rewrite (decode_exact_enc _ _ _ (token_wire_enc _ [] (token_to_wire_wf t Hwf))). cbn [result_bind].
  change (require_version (rw_format_version _)) with (@Ok () Error ()). cbn [result_bind].
  rewrite token_of_wire_Ok by done. cbn [result_bind].
  rewrite (proj2 (Z.ltb_ge _ _)) by lia. cbn [orb].
  assert (bool_decide (is_Some (tok_tip t)) = (0 <? tok_next_sequence t)) as ->.
  { destruct (0 <? tok_next_sequence t) eqn:E.
    - apply bool_decide_eq_true_2, Ht. lia.
    - apply bool_decide_eq_false_2. intros Hi%Ht. lia. }
  rewrite Bool.eqb_reflx. cbn [negb]. unfold require_canonical. by rewrite bool_decide_eq_true_2.
Qed.

(** ** Publication bases *)

Lemma publication_base_valid h : validate h = Ok () → 0 ≤ base_start h → validate (publication_base h) = Ok ().
Proof.
  intros Hv%validate_Ok_head_ok Hb. apply head_ok_validate; [done|].
  destruct Hv as [Htl Hol Hgen Hcol Hnext Hn64 Htail Hnone Hbase Hout Htids].
  destruct Hcol as [He Hr Hex Hp]. split; try done; simpl; [lia| |].
  - split; try done; [simpl; lia|]. change (Z.of_nat (size (∅ : gset RetentionId)) ≤ max_retention_ids (head_options h)).
    rewrite size_empty. lia.
  - intros c Hc. by destruct (Hbase c Hc).
Qed.

Lemma head_wf_publication_base h : head_encodable h = true → head_encodable (publication_base h) = true.
Proof.
  unfold head_encodable, head_wf.
  with_strategy opaque [in_u64 log_id_wf uuid_wf options_wf checkpoint_ref_wf commit_ref_wf plan_ref_wf] simpl. intros Hwf. bool_hyps.
  repeat match goal with Hz : ?x = true |- context [?x] => rewrite Hz end.
  rewrite elements_empty. unfold in_u64 in *. bool_hyps.
  rewrite !(proj2 (Z.leb_le _ _)) by lia. done.
Qed.

Lemma same_base_iff a b :
  has_same_publication_base a b = true ↔ publication_base a = publication_base b.
Proof.
  unfold has_same_publication_base, publication_base, set_retention_ids, set_generation. simpl. split.
  - intros Hs. bool_hyps. destruct a, b; simpl in *. subst. f_equal; lia.
  - intros Heq. injection Heq as -> -> -> _ -> -> -> -> -> ->.
    by rewrite !bool_decide_eq_true_2, !Z.eqb_refl by done.
Qed.

Lemma encode_head_inj a b e :
  head_encodable a = true → head_encodable b = true → len e ≤ u64_max →
  encode_head a = Ok e → encode_head b = Ok e → a = b.
Proof.
  intros Ha Hb Hl Ea Eb. pose proof (decode_head_encode a e Ha Ea Hl) as Da.
  pose proof (decode_head_encode b e Hb Eb Hl) as Db. congruence.
Qed.

(** A valid head encodes. *)
Lemma encode_head_valid h :
  head_wf h = true → validate h = Ok () → ∃ b, encode_head h = Ok b.
Proof.
  intros Hwf Hv. unfold encode_head. rewrite Hv. cbn [result_bind].
  destruct (options_wire_Ok (head_options h)) as (w & -> & _); [|by eexists].
  unfold head_wf in Hwf. by bool_hyps.
Qed.

(** The tip of a valid head exists exactly after the first commit. *)
Lemma valid_tip h :
  head_wf h = true → validate h = Ok () → is_Some (tip h) ↔ 0 < head_next_sequence h.
Proof.
  intros Hwf Hv%validate_Ok_head_ok. rewrite (ok_next _ Hv). unfold tip, base_start.
  unfold head_wf in Hwf. bool_hyps.
  destruct (head_tail h) as [|c l _] eqn:E using rev_ind.
  - simpl. change (len []) with 0. destruct (head_checkpoint h) as [c|]; simpl.
    + unfold checkpoint_ref_wf, in_u64 in *. bool_hyps. split; [lia|by eauto].
    + split; [by intros []|lia].
  - rewrite last_snoc, len_app, len_cons. change (len []) with 0. pose proof (len_nonneg l).
    pose proof (head_wf_base_start h) as Hb. unfold base_start, head_wf in Hb.
    split; [|by eauto]. intros _. destruct (head_checkpoint h); [|lia].
    unfold checkpoint_ref_wf, in_u64 in *. bool_hyps. lia.
Qed.

Lemma tip_wf h : head_wf h = true → from_option digest_wf true (tip h) = true.
Proof.
  unfold head_wf, tip. intros Hwf. bool_hyps.
  destruct (last (head_tail h)) as [c|] eqn:E.
  - apply last_Some in E as [l E]. rewrite E in *. rewrite forallb_app in *. bool_hyps. simpl in *.
    unfold commit_ref_wf in *. by bool_hyps.
  - destruct (head_checkpoint h) as [c|]; [|done]. simpl. unfold checkpoint_ref_wf in *. by bool_hyps.
Qed.

Definition prepared_wf (p : PreparedCommit) : bool :=
  head_encodable (view_head (prep_view p)) && version_wf (view_version (prep_view p))
  && uuid_wf (transaction_uuid (prep_transaction_id p)) && uuid_wf (storage_uuid (prep_storage_id p))
  && in_slice (prep_operation p) && in_slice (prep_result p)
  && forallb object_valid (prep_objects p) && (len (prep_objects p) <=? u64_max).

Lemma recovery_token_of_wf p t :
  prepared_wf p = true → recovery_token_of p = Ok t → token_wf t = true ∧ token_position_ok t.
Proof.
  unfold prepared_wf. intros Hwf Ht. bool_hyps. unfold recovery_token_of in Ht. inv_ok.
  unfold head_encodable in *. bool_hyps.
  assert (validate (view_head (prep_view p)) = Ok ()) as Hv.
  { unfold encode_head in Hok. inv_ok. by destruct (validate _) as [[]|]. }
  split; [|split; simpl].
  - unfold token_wf. simpl. rewrite tip_wf, digest_of_wf by done.
    unfold publication_base_digest, options_digest in *. inv_ok. rewrite !digest_of_wf.
    repeat match goal with Hz : ?x = true |- context [?x] => rewrite Hz end.
    unfold head_wf in *. bool_hyps.
    repeat match goal with Hz : ?x = true |- context [?x] => rewrite Hz end. done.
  - by apply ok_generation, validate_Ok_head_ok.
  - by apply valid_tip.
Qed.

(** ** Properties *)

(** A recovery token written for a prepared commit decodes to exactly the evidence
    of that commit: the digest and position of its source head, the storage version,
    and the candidate record; the application can read back its identity and result. *)
Lemma recovery_token_roundtrip p b :
  prepared_wf p = true → encode_recovery_token p = Ok b → len b ≤ u64_max →
  ∃ t, recovery_token_of p = Ok t ∧ decode_recovery_token b = Ok t
       ∧ inspect_recovery_token b = Ok (MkRecoveryRecord (prep_transaction_id p) (prep_result p)).
Proof.
  intros Hwf He Hl. unfold encode_recovery_token in He. inv_ok.
  destruct (recovery_token_of_wf p _ Hwf Hok) as [Ht Hp].
  eexists. split; [done|]. pose proof (token_roundtrip _ Ht Hp Hl) as Hd. split; [done|].
  unfold inspect_recovery_token. rewrite Hd. cbn [result_bind].
  unfold recovery_token_of in Hok. inv_ok. done.
Qed.

(** A recovery token has one encoding, and a decoded token names a possible source
    position. *)
Lemma recovery_token_canonical t b :
  decode_recovery_token b = Ok t → encode_token t = b ∧ token_position_ok t.
Proof.
  unfold decode_recovery_token. intros Hd. inv_ok.
  unfold require_canonical in *. inv_ok. bool_hyps. subst. split; [done|].
  split; [lia|]. match goal with Hz : Bool.eqb _ _ = true |- _ => apply Bool.eqb_prop in Hz; rename Hz into Hb end.
  destruct (decide (is_Some (tok_tip t))) as [Hs|Hs].
  - rewrite bool_decide_eq_true_2 in Hb by done. split; [lia|done].
  - rewrite bool_decide_eq_false_2 in Hb by done. split; [done|lia].
Qed.

(** C37. A recovery token decodes to exactly the evidence of the prepared commit it was
    written for, from which the application reads back its identity and result; a token
    has one encoding and names a possible source position. *)
Theorem recovery_token_codec :
  (∀ p b, prepared_wf p = true → encode_recovery_token p = Ok b → len b ≤ u64_max →
     ∃ t, recovery_token_of p = Ok t ∧ decode_recovery_token b = Ok t
          ∧ inspect_recovery_token b = Ok (MkRecoveryRecord (prep_transaction_id p) (prep_result p)))
  ∧ (∀ t b, decode_recovery_token b = Ok t → encode_token t = b ∧ token_position_ok t).
Proof. split; [apply recovery_token_roundtrip|apply recovery_token_canonical]. Qed.

(** The publication-base digest of a valid head always exists, agrees for heads
    with the same publication base, and only a BLAKE3 collision makes heads with
    different bases agree. *)
Theorem publication_base_digest_exact a b :
  head_encodable a = true → head_encodable b = true →
  validate a = Ok () → validate b = Ok () →
  (∀ e, encode_head (publication_base a) = Ok e → len e ≤ u64_max) →
  ∃ da db, publication_base_digest a = Ok da ∧ publication_base_digest b = Ok db
    ∧ (has_same_publication_base a b = true → da = db)
    ∧ (da = db → has_same_publication_base a b = true
                 ∨ ∃ x y : bytes, x ≠ y ∧ digest_of x = digest_of y).
Proof.
  intros Ha Hb Va Vb Hl.
  assert (∀ h, head_encodable h = true → validate h = Ok () →
          ∃ e, encode_head (publication_base h) = Ok e) as Henc.
  { intros h Hh Hv. apply encode_head_valid.
    - apply head_wf_publication_base in Hh. unfold head_encodable in Hh. by bool_hyps.
    - apply publication_base_valid; [done|]. apply head_wf_base_start.
      unfold head_encodable in Hh. by bool_hyps. }
  destruct (Henc a Ha Va) as [ea Ea]. destruct (Henc b Hb Vb) as [eb Eb].
  exists (digest_of ea), (digest_of eb). unfold publication_base_digest. rewrite Ea, Eb.
  split_and!; [done|done| |].
  - rewrite same_base_iff. intros Hs. rewrite Hs, Eb in Ea. congruence.
  - intros Hd. destruct (decide (ea = eb)) as [<-|Hne]; [left|right; eauto].
    apply same_base_iff. apply (encode_head_inj _ _ ea); try by apply head_wf_publication_base.
    + by apply Hl.
    + done.
    + done.
Qed.
End token.
