(* ===== verification/Typed.v ===== *)
(** * Heads of their Rust types

    Digests, identifiers and counters of the model are unbounded; in Rust they are
    fixed-size arrays and unsigned integers.  A head of those types survives its encoding
    ([head_encodable]).  Decoded heads are of their types, and every head update keeps a
    typed head typed when what it adds is typed. *)

From S2P Require Import Prelude Types Head LogSpec Cbor Wire Format FormatHead.

Section typed.
Context `{Target}.

Definition object_typed (o : ObjectRef) : Prop := object_ref_wf o = true ∧ validate_count o = Ok ().

Definition change_typed (change : RetentionChange) : Prop :=
  match change with Acquire id => uuid_wf (retention_uuid id) = true | _ => True end.

(** [head_encodable] field by field. *)
Record head_typed (h : Head) : Prop := {
  typed_log_id : log_id_wf (head_log_id h) = true;
  typed_incarnation : uuid_wf (head_incarnation h) = true;
  typed_options : options_wf (head_options h) = true;
  typed_generation : in_u64 (head_generation h) = true;
  typed_next : in_u64 (head_next_sequence h) = true;
  typed_checkpoint c : head_checkpoint h = Some c →
    checkpoint_ref_wf c = true ∧ validate_count (checkpoint_object c) = Ok ();
  typed_tail c : c ∈ head_tail h → commit_ref_wf c = true;
  typed_outcomes c : c ∈ head_recent_outcomes h → commit_ref_wf c = true;
  typed_epoch : in_u64 (head_collection_epoch h) = true;
  typed_plan p : head_active_plan h = Some p → plan_ref_wf p = true;
  typed_ids id : id ∈ head_retention_ids h → uuid_wf (retention_uuid id) = true
}.

Lemma head_typed_encodable h : head_typed h ↔ head_encodable h = true.
Proof.
  unfold head_encodable, head_wf. split.
  - intros [? ? ? ? ? Hcp Htail Hout ? Hp Hids].
    rewrite !andb_true_iff, !forallb_Forall, !Forall_forall. setoid_rewrite elem_of_elements.
    split_and!; try done; destruct (head_checkpoint h), (head_active_plan h); try done;
      try (destruct (Hcp _ eq_refl)); try (by apply Hp); try done; by apply bool_decide_eq_true_2.
  - intros Hwf. bool_hyps. repeat match goal with Hf : forallb _ _ = true |- _ =>
      rewrite forallb_Forall, Forall_forall in Hf end.
    split; try done.
    + intros c Hc. rewrite Hc in *. split; [done|]. by bool_hyps.
    + intros p Hp. by rewrite Hp in *.
    + intros id Hid. match goal with Hf : ∀ x, x ∈ elements _ → _ |- _ => by apply Hf, elem_of_elements end.
Qed.

(** ** Head updates *)

Lemma in_u64_succ z : in_u64 z = true → z + 1 ≤ u64_max → in_u64 (z + 1) = true.
Proof. unfold in_u64. intros Hz Hs. bool_hyps. lia. Qed.

Lemma advance_typed h h' : advance_generation h = Ok h' → head_typed h → head_typed h'.
Proof. intros [-> Hg]%advance_generation_Ok []. split; try done. simpl. by apply in_u64_succ. Qed.

Lemma drop_subset {A} n (l : list A) : drop n l ⊆ l.
Proof. intros x Hx. rewrite <-(take_drop n l). apply elem_of_app. by right. Qed.
Lemma take_subset {A} n (l : list A) : take n l ⊆ l.
Proof. intros x Hx. rewrite <-(take_drop n l). apply elem_of_app. by left. Qed.
Lemma elem_of_keep_window window l c : c ∈ keep_window window l → c ∈ l.
Proof. unfold keep_window. destruct (_ <? _); [apply drop_subset|done]. Qed.

Lemma candidate_typed h c h' :
  candidate_head h c = Ok h' → head_typed h → commit_ref_wf c = true → head_typed h'.
Proof.
  intros (-> & Hg & Hn)%candidate_head_Ok [] Hc. split; simpl; try done; [by apply in_u64_succ..|].
  intros c' [Hc'|Hc']%elem_of_app; [auto|]. apply list_elem_of_singleton in Hc' as ->. done.
Qed.

Lemma checkpoint_typed h through object h' :
  checkpoint_head h through object = Ok h' → head_typed h → object_typed object → head_typed h'.
Proof.
  intros (i & Hi & -> & Hg)%checkpoint_head_Ok [] [Ho Hcount].
  assert (commit_ref_wf through = true) as Ht by (by eapply typed_tail0, list_elem_of_lookup_2).
  split; simpl; try done.
  - by apply in_u64_succ.
  - intros c [= <-]. split; [|done]. unfold checkpoint_ref_wf, commit_ref_wf in *. simpl. bool_hyps.
    by rewrite Ho, andb_true_r; match goal with H1 : _ = true, H2 : _ = true |- _ => rewrite H1, H2 end.
  - intros c Hc. apply typed_tail0. apply (drop_subset (S i) (head_tail h)), Hc.
  - intros c Hc. apply elem_of_keep_window in Hc. apply elem_of_app in Hc as [Hc|Hc]; [auto|].
    apply typed_tail0. apply (take_subset (S i) (head_tail h)), Hc.
Qed.

Lemma retention_typed change h h' :
  advance_generation (retention_apply change h) = Ok h' → head_typed h → change_typed change → head_typed h'.
Proof.
  intros Hadv Ht Hc. apply advance_typed in Hadv; [done|]. destruct Ht.
  destruct change as [id|id|]; split; simpl; try done; set_solver.
Qed.

Lemma install_typed h plan_ref h' :
  install_plan_head h (head_collection_epoch h + 1) plan_ref = Ok h' → head_typed h →
  head_collection_epoch h + 1 ≤ u64_max → plan_ref_wf plan_ref = true → head_typed h'.
Proof.
  unfold install_plan_head. intros Hi Ht He Hp. inv_ok. apply advance_generation_Ok in Hok as [-> Hg]. destruct Ht.
  split; simpl; try done; [by apply in_u64_succ..|]. by intros p [= <-].
Qed.

Lemma clear_typed h h' : clear_plan_head h = Ok h' → head_typed h → head_typed h'.
Proof.
  unfold clear_plan_head. intros Hc Ht. apply advance_typed in Hc; [done|]. destruct Ht. by split.
Qed.

Lemma empty_typed log_id incarnation options :
  log_id_wf log_id = true → uuid_wf incarnation = true → options_wf options = true →
  head_typed (head_empty log_id incarnation options).
Proof. intros. split; simpl; try done; set_solver. Qed.
End typed.

(** ** What operations add to a head *)

Section created.
Context `{Target} `{Blake3}.

Lemma commit_ref_created_wf sequence transaction_id id b :
  in_u64 sequence = true → uuid_wf (transaction_uuid transaction_id) = true →
  uuid_wf (storage_uuid id) = true → 0 ≤ len b ≤ u64_max →
  commit_ref_wf (MkCommitRef sequence transaction_id id (digest_of b) (len b)) = true.
Proof.
  intros Hs Ht Hi Hl. unfold commit_ref_wf. cbn. rewrite Hs, Ht, Hi, digest_of_wf.
  unfold in_u64. rewrite !andb_true_iff, !Z.leb_le. done.
Qed.

Lemma subtree_objects_range objects : ∀ n,
  Forall (λ o, object_ref_wf o = true) objects → subtree_objects objects = Ok n → 1 ≤ n ≤ u64_max.
Proof.
  unfold subtree_objects. intros n Hall Hf. assert (∃ acc, 1 ≤ acc ≤ u64_max ∧ acc = 1) as (acc & Hacc & E).
  { exists 1. unfold u64_max. lia. }
  rewrite <-E in Hf. clear E. revert acc Hacc Hf.
  induction Hall as [|o objects Ho Hall IH]; intros acc Hacc Hf; simpl in Hf; [by inv_ok|].
  inv_ok.
  match goal with Ha : u64_checked_add _ _ = Some _ |- _ => apply checked_add_Some in Ha as [-> Hle] end.
  eapply IH; [|done]. unfold object_ref_wf, in_u64 in Ho. bool_hyps. lia.
Qed.

Lemma object_created_typed kind id b subtree :
  uuid_wf (storage_uuid id) = true → len b ≤ u64_max → 1 ≤ subtree ≤ u64_max → kind ≠ Blob →
  object_typed (MkObjectRef kind id (digest_of b) (len b) subtree).
Proof.
  intros Hi Hl Hs Hk. pose proof (len_nonneg b). split.
  - unfold object_ref_wf, in_u64. cbn. rewrite Hi, digest_of_wf, !andb_true_iff, !Z.leb_le. lia.
  - unfold validate_count. cbn. rewrite (proj2 (Z.eqb_neq _ _)) by lia. by rewrite bool_decide_eq_false_2.
Qed.

Lemma plan_ref_created_wf id b :
  uuid_wf (storage_uuid id) = true → 0 ≤ len b ≤ u64_max →
  plan_ref_wf (MkCollectionPlanRef id (digest_of b) (len b)) = true.
Proof.
  intros Hi Hl. unfold plan_ref_wf. cbn. rewrite Hi, digest_of_wf. unfold in_u64.
  rewrite !andb_true_iff, !Z.leb_le. done.
Qed.
End created.

(** ** Decoded heads *)

Section decoded.
Context `{Target} `{Blake3} `{CborLaws} `{!DerivedDecode} `{!DerivedDecodeLaws}.

Lemma uuid_Ok_wf v name u : uuid v name = Ok u → uuid_wf u = true.
Proof. intros Hu. apply uuid_Ok in Hu as [-> Hl]. unfold uuid_wf. simpl. by apply Z.eqb_eq. Qed.

Lemma digest_Ok_wf v d : digest v = Ok d → digest_wf d = true.
Proof. intros Hd. apply digest_Ok in Hd as [-> Hl]. unfold digest_wf. simpl. by apply Z.eqb_eq. Qed.

Lemma storage_Ok_wf v s : storage_id v = Ok s → uuid_wf (storage_uuid s) = true.
Proof. unfold storage_id. intros Hs. inv_ok. by eapply uuid_Ok_wf. Qed.

Lemma transaction_Ok_wf v t : transaction_id v = Ok t → uuid_wf (transaction_uuid t) = true.
Proof. unfold transaction_id. intros Hs. inv_ok. by eapply uuid_Ok_wf. Qed.

Lemma commit_ref_of_wire_wf w c :
  commit_ref_of_wire w = Ok c → item_wf (commit_ref_item w) = true → commit_ref_wf c = true.
Proof.
  unfold commit_ref_of_wire. intros Hc Hw. inv_ok. simpl in Hw. bool_hyps. unfold commit_ref_wf. simpl.
  rewrite (transaction_Ok_wf _ _ Hok), (storage_Ok_wf _ _ Hok0), (digest_Ok_wf _ _ Hok1).
  by rewrite !andb_true_r; apply andb_true_iff.
Qed.

Lemma object_ref_of_wire_typed w o :
  object_ref_of_wire w = Ok o → item_wf (object_ref_item w) = true → object_typed o.
Proof.
  unfold object_ref_of_wire. intros Ho Hw. inv_ok. simpl in Hw. bool_hyps. split; [|done].
  unfold object_ref_wf. simpl. rewrite (storage_Ok_wf _ _ Hok0), (digest_Ok_wf _ _ Hok1). by apply andb_true_iff.
Qed.

Lemma checkpoint_ref_of_wire_typed w c :
  checkpoint_ref_of_wire w = Ok c → item_wf (checkpoint_ref_item w) = true →
  checkpoint_ref_wf c = true ∧ validate_count (checkpoint_object c) = Ok ().
Proof.
  unfold checkpoint_ref_of_wire, checkpoint_ref_item. intros Hc Hw. inv_ok.
  match goal with Ho : kpw_object w = Some _ |- _ => rewrite Ho in Hw end.
  cbn [item_wf opt_field app forallb fst snd] in Hw. bool_hyps.
  edestruct object_ref_of_wire_typed as [Ho Hcount]; [done|done|]. split; [|done].
  unfold checkpoint_ref_wf. simpl. rewrite Ho. erewrite digest_Ok_wf by done. by rewrite !andb_true_r.
Qed.

Lemma plan_ref_of_wire_wf w p :
  plan_ref_of_wire w = Ok p → item_wf (plan_ref_item w) = true → plan_ref_wf p = true.
Proof.
  unfold plan_ref_of_wire. intros Hp Hw. inv_ok. simpl in Hw. bool_hyps. unfold plan_ref_wf. simpl.
  by rewrite (storage_Ok_wf _ _ Hok), (digest_Ok_wf _ _ Hok0).
Qed.

Lemma options_of_wire_wf w o : options_of_wire w = Ok o → options_wf o = true.
Proof.
  unfold options_of_wire, option_to_usize. intros Ho. inv_ok.
  repeat match goal with Hu : usize_try_from _ = Some _ |- _ => apply usize_try_from_Some in Hu as [-> ?] end.
  unfold options_wf, in_usize. simpl. rewrite !andb_true_iff, !Z.leb_le. lia.
Qed.

Lemma retention_ids_from_wf : ∀ values prev ids ids',
  (∀ id, id ∈ ids → uuid_wf (retention_uuid id) = true) → retention_ids_from prev ids values = Ok ids' →
  ∀ id, id ∈ ids' → uuid_wf (retention_uuid id) = true.
Proof.
  induction values as [|v values IH]; intros prev ids ids' Hids Hr; simpl in Hr; [by inv_ok|].
  inv_ok. eapply IH; [|exact Hr]. intros id [->%elem_of_singleton|?]%elem_of_union; [|auto]. simpl. by eapply uuid_Ok_wf.
Qed.

Lemma commits_of_wire_wf l k :
  try_map commit_ref_of_wire l = Ok k → item_wf (IArray (commit_ref_item <$> l)) = true →
  ∀ c, c ∈ k → commit_ref_wf c = true.
Proof.
  intros Hm Hw c Hc. apply try_map_Ok in Hm. cbn [item_wf] in Hw. bool_hyps.
  match goal with Hf : forallb _ _ = true |- _ => rewrite forallb_Forall, Forall_fmap, Forall_forall in Hf; rename Hf into Hall end.
  apply list_elem_of_lookup in Hc as [i Hi]. destruct (Forall2_lookup_r _ _ _ _ _ Hm Hi) as (w & Hw' & Hcw).
  eapply commit_ref_of_wire_wf; [done|]. apply (Hall w). by eapply list_elem_of_lookup_2.
Qed.

Lemma head_of_wire_typed w h : head_of_wire w = Ok h → head_wire_wf w = true → head_typed h.
Proof.
  intros Hh Hw. unfold head_wire_wf in Hw. bool_hyps. unfold head_item in *. cbn [item_wf] in *. bool_hyps.
  match goal with Hf : forallb _ _ = true |- _ => rename Hf into Hall end.
  rewrite !forallb_app in Hall. cbn [forallb fst snd] in Hall. bool_hyps. unfold head_of_wire in Hh. inv_ok.
  split; cbn [head_log_id head_incarnation head_options head_generation head_next_sequence head_checkpoint
    head_tail head_recent_outcomes head_collection_epoch head_active_plan head_retention_ids].
  - by eapply log_id_new_wf.
  - by eapply uuid_Ok_wf.
  - by eapply options_of_wire_wf.
  - done.
  - done.
  - intros c ->. destruct (hw_checkpoint w) as [cw|]; [|done]. cbn [try_option opt_field forallb snd] in *. bool_hyps. inv_ok.
    by eapply checkpoint_ref_of_wire_typed.
  - by eapply commits_of_wire_wf.
  - by eapply commits_of_wire_wf.
  - done.
  - intros p ->. destruct (hw_active_plan w) as [pw|]; [|done]. cbn [try_option opt_field forallb snd] in *. bool_hyps. inv_ok.
    by eapply plan_ref_of_wire_wf.
  - unfold retention_ids in *. eapply retention_ids_from_wf; [|done]. set_solver.
Qed.

(** Every decoded head is of its Rust type. *)
Lemma decode_head_typed b h : decode_head b = Ok h → head_typed h.
Proof.
  unfold decode_head, decode_exact. intros Hd. inv_ok. destruct (decode_head_wire _) as [[w rest]|] eqn:Hw; [|done].
  inv_ok. eapply head_of_wire_typed; [done|]. by eapply head_wire_typed.
Qed.

(** The identifiers of a decoded recovery token are 16-byte values. *)
Lemma decode_token_typed b t :
  decode_recovery_token b = Ok t →
  uuid_wf (transaction_uuid (tok_transaction_id t)) = true ∧ uuid_wf (storage_uuid (tok_storage_id t)) = true.
Proof.
  unfold decode_recovery_token, token_of_wire. intros Hd. inv_ok.
  split; [by eapply transaction_Ok_wf|by eapply storage_Ok_wf].
Qed.

(** A typed head survives its encoding. *)
Lemma typed_roundtrip h b : head_typed h → encode_head h = Ok b → len b ≤ u64_max → decode_head b = Ok h.
Proof. intros Ht%head_typed_encodable. by apply decode_head_encode. Qed.

(** The head updates of the operations, with additions of their Rust types. *)
Inductive typed_update (h : Head) : Head → Prop :=
  | update_commit c h' : commit_ref_wf c = true → candidate_head h c = Ok h' → typed_update h h'
  | update_checkpoint through object h' :
      object_typed object → checkpoint_head h through object = Ok h' → typed_update h h'
  | update_retention change h' :
      change_typed change → advance_generation (retention_apply change h) = Ok h' → typed_update h h'
  | update_install plan_ref h' :
      plan_ref_wf plan_ref = true → head_collection_epoch h + 1 ≤ u64_max →
      install_plan_head h (head_collection_epoch h + 1) plan_ref = Ok h' → typed_update h h'
  | update_clear h' : clear_plan_head h = Ok h' → typed_update h h'.

End decoded.
