(* ===== verification/FormatWitness.v ===== *)
(** * Concrete encodings

    The codec theorems applied at small messages, with [rfc8949], [derived] and a
    stand-in hash for the third-party code. *)

From Stdlib Require Import Strings.Byte.
From S2P Require Import Prelude Types Head Samples Cbor Rfc8949 Wire Format Derive FormatEnvelope.
From S2P Require Import FormatNode FormatPlan FormatRecords FormatHead FormatToken Typed.

#[local] Existing Instance native64.
#[local] Existing Instance sample_blake3.

Definition sample_node : NodeBody := MkNodeBody [x01; x02; x03] [sample_blob; sample_node_ref].
Definition sample_node_bytes : bytes := Eval vm_compute in or_bytes (encode_node sample_node sample_options).

Lemma encode_node_exact_witness :
  encode_node sample_node sample_options = Ok sample_node_bytes
  ∧ len sample_node_bytes ≤ max_object_bytes sample_options.
Proof.
  split; [vm_compute; reflexivity|].
  apply (encode_node_exact sample_node sample_options sample_node_bytes); vm_compute; reflexivity.
Defined.

Lemma node_codec_witness :
  decode_node sample_node_bytes sample_options = Ok sample_node
  ∧ encode_node sample_node sample_options = Ok sample_node_bytes.
Proof.
  split; [apply (proj1 node_codec); vm_compute; reflexivity|].
  apply (proj2 node_codec); [..|vm_compute; reflexivity]; vm_compute; congruence.
Defined.

Definition sample_key (k : ImmutableKind) (b : byte) : ImmutableKey :=
  MkImmutableKey (sample_uuid x01) k (MkStorageId (sample_uuid b)) (sample_digest b).
Definition sample_plan : CollectionPlan :=
  MkCollectionPlan sample_log_id 1
    [MkCollectionCandidate (sample_key KCommit x10) 100; MkCollectionCandidate (sample_key KBlob x11) 7].
Definition sample_plan_bytes : bytes :=
  Eval vm_compute in or_bytes (encode_collection_plan sample_plan sample_options).

Lemma plan_codec_witness :
  decode_collection_plan sample_plan_bytes sample_options = Ok sample_plan
  ∧ encode_collection_plan sample_plan sample_options = Ok sample_plan_bytes.
Proof.
  split; [apply (proj1 plan_codec)|apply (proj2 plan_codec)]; vm_compute; reflexivity.
Defined.

Lemma decoded_plan_bounds_witness :
  plan_candidates sample_plan ≠ [] ∧ candidate_bytes sample_plan = Ok 107.
Proof.
  destruct (decoded_plan_bounds sample_plan sample_options sample_plan_bytes) as (_ & Hne & _ & _ & Hb & _);
    [vm_compute; reflexivity|]. split; [exact Hne|exact Hb].
Defined.

Definition sample_commit_body : CommitBody :=
  MkCommitBody sample_log_id (sample_uuid x01) (MkTransactionId (sample_uuid x10))
    (Some (sample_digest x12)) [x61; x62] [x63] [sample_blob; sample_node_ref].
Definition sample_commit_bytes : bytes := Eval vm_compute in encode_commit sample_commit_body.

Lemma commit_codec_witness :
  decode_commit (encode_commit sample_commit_body) = Ok sample_commit_body
  ∧ encode_commit sample_commit_body = sample_commit_bytes.
Proof.
  split; [apply (proj1 commit_codec); [vm_compute; reflexivity|vm_compute; congruence]|].
  apply (proj2 commit_codec). vm_compute. reflexivity.
Defined.

Definition sample_checkpoint_body : CheckpointBody :=
  MkCheckpointBody sample_log_id (sample_uuid x01) 1 (sample_digest x11) [x73; x6e] [sample_node_ref].
Definition sample_checkpoint_bytes : bytes := Eval vm_compute in encode_checkpoint sample_checkpoint_body.

Lemma checkpoint_codec_witness :
  decode_checkpoint (encode_checkpoint sample_checkpoint_body) = Ok sample_checkpoint_body
  ∧ encode_checkpoint sample_checkpoint_body = sample_checkpoint_bytes.
Proof.
  split; [apply (proj1 checkpoint_codec); [vm_compute; reflexivity|vm_compute; congruence]|].
  apply (proj2 checkpoint_codec). vm_compute. reflexivity.
Defined.

Definition head5_bytes : bytes := Eval vm_compute in or_bytes (encode_head head5).

Lemma head_codec_witness :
  decode_head head5_bytes = Ok head5 ∧ encode_head head5 = Ok head5_bytes ∧ validate head5 = Ok ().
Proof.
  split; [apply (proj1 head_codec); [vm_compute; reflexivity..|vm_compute; congruence]|].
  apply (proj2 head_codec). vm_compute. reflexivity.
Defined.


Definition sample_prepared : PreparedCommit :=
  MkPreparedCommit view5 1 (MkTransactionId (sample_uuid x31)) (MkStorageId (sample_uuid x32))
    [x6f; x70] [x72] [sample_blob].
Definition sample_token_bytes : bytes := Eval vm_compute in or_bytes (encode_recovery_token sample_prepared).

Definition sample_token : option RecoveryToken :=
  Eval vm_compute in result_ok (recovery_token_of sample_prepared).

Lemma recovery_token_codec_witness :
  inspect_recovery_token sample_token_bytes
  = Ok (MkRecoveryRecord (MkTransactionId (sample_uuid x31)) [x72])
  ∧ match sample_token with Some t => encode_token t = sample_token_bytes | None => False end.
Proof.
  split.
  - destruct (proj1 recovery_token_codec sample_prepared sample_token_bytes) as (t & _ & _ & Hi);
      [vm_compute; reflexivity..|vm_compute; congruence|exact Hi].
  - apply (proj2 recovery_token_codec _ sample_token_bytes). vm_compute. reflexivity.
Defined.

Lemma publication_base_digest_exact_witness :
  ∃ da db, publication_base_digest head5 = Ok da ∧ publication_base_digest head4 = Ok db.
Proof.
  destruct (publication_base_digest_exact head5 head4) as (da & db & Ha & Hb & _);
    [vm_compute; reflexivity..| |exists da, db; exact (conj Ha Hb)].
  intros e He. assert (e = or_bytes (encode_head (publication_base head5))) as -> by (by rewrite He).
  vm_compute. congruence.
Defined.
