(* ===== verification/Prog.v ===== *)
(** * Storage programs

    Asynchronous code is a program tree over the requests it makes: object-store
    calls, request admission, fresh identities, the set-once caches of a view and the
    completion order of concurrent reads.  A program is related to a trace of
    requests and answers; the answers are unconstrained, so what holds of every trace
    holds under every backend fault and every interleaving with other clients. *)

From S2P Require Import Prelude Types Head.

(** ** Third-party types *)

(** [object_store::path::Path]: a path is built by joining parts, and
    [prefix_match] gives the parts that follow a prefix. *)
Class ObjectPath := {
  Path : Type;
  Path_eq_dec :: EqDecision Path;
  Path_countable :: Countable Path;
  join : Path → bytes → Path;
  prefix_match : Path → Path → option (list bytes)
}.

(** Parts of these characters are stored as they are. *)
Definition safe_part (p : bytes) : bool :=
  negb (bool_decide (p = [])) && forallb log_id_byte p
  && negb (bool_decide (p = [dot])) && negb (bool_decide (p = [dot; dot])).

Class ObjectPathLaws `{ObjectPath} : Prop := {
  prefix_match_join scope parts :
    forallb safe_part parts = true → prefix_match (foldl join scope parts) scope = Some parts;
  prefix_match_inv location scope parts :
    prefix_match location scope = Some parts → forallb safe_part parts = true →
    location = foldl join scope parts;
  (** Joining appends parts: the first one after the scope stays the first. *)
  prefix_match_first scope part parts :
    safe_part part = true → ∃ rest, prefix_match (foldl join scope (part :: parts)) scope = Some (part :: rest)
}.

(** [object_store::PutMode]. *)
Inductive PutMode := PutOverwrite | PutCreate | PutUpdate (version : UpdateVersion).

(** [object_store::GetResult]: metadata and a body stream. *)
Record GetResult := MkGetResult {
  meta_size : Z;
  meta_version : UpdateVersion;
  body_stream : list (Result bytes StoreError)
}.

(** ** Requests and admission *)

(** [Request]. *)
Inductive Request :=
  | Read (max_bytes : Z)
  | Write (body_bytes : Z)
  | List
  | Delete (objects : Z).

#[global] Instance Request_eq_dec : EqDecision Request.
Proof. solve_decision. Defined.

(** A [dyn RequestGuard]: a caller's guard, or [Guards] of two. *)
Inductive Guard := UserGuard (id : Z) | Guards (previous next : Guard).

(** ** Events *)

Inductive Event `{ObjectPath} : Type → Type :=
  (** [RequestGuard::before_request] of a caller's guard; [true] admits. *)
  | EAdmit (guard : Z) (request : Request) : Event bool
  | EGet (location : Path) (if_none_match : option bytes) : Event (Result GetResult StoreError)
  | EPut (location : Path) (body : bytes) (mode : PutMode) : Event (Result UpdateVersion StoreError)
  | EDelete (location : Path) : Event (Result () StoreError)
  | EDeleteStream (locations : list Path) : Event (list (Result Path StoreError))
  | EList (prefix : Path) : Event (list (Result (Path * Z) StoreError))
  (** [Uuid::new_v4]. *)
  | ENewUuid : Event Uuid
  (** The identity of a fresh [Arc] allocation. *)
  | ENewArc : Event Z
  (** [OnceLock::get] and [OnceLock::set] of a view's [verified_tail]. *)
  | EGetTail (view : Z) : Event (option Z)
  | ESetTail (view domain : Z) : Event ()
  (** [OnceLock::get] and [OnceLock::get_or_init] of a view's
      [collection_candidates]. *)
  | EGetCandidates (view : Z) : Event (option (list CollectionCandidate))
  | EInitCandidates (view : Z) (candidates : list CollectionCandidate) : Event (list CollectionCandidate)
  (** Which of [n] concurrent reads completes next. *)
  | ENextRead (n : nat) : Event nat.

(** ** Programs *)

Inductive prog `{ObjectPath} (A : Type) : Type :=
  | Done (a : A)
  | Vis {R : Type} (e : Event R) (k : R → prog A).
Arguments Done {_ A} a.
Arguments Vis {_ A R} e k.

Section prog.
Context `{ObjectPath}.

Fixpoint bind {A B} (p : prog A) (f : A → prog B) : prog B :=
  match p with
  | Done a => f a
  | Vis e k => Vis e (λ r, bind (k r) f)
  end.

(** One request. *)
Definition call {R} (e : Event R) : prog R := Vis e Done.

(** [async fn] returning [Result]. *)
Definition io (A : Type) : Type := prog (Result A Error).

Definition ok {A} (a : A) : io A := Done (Ok a).
Definition fail {A} (e : Error) : io A := Done (Err e).
Definition lift {A} (r : Result A Error) : io A := Done r.

(** [?] after [.await]. *)
Definition io_bind {A B} (p : io A) (f : A → io B) : io B :=
  bind p (λ r, match r with Ok a => f a | Err e => Done (Err e) end).
End prog.

Declare Scope io_scope.
Delimit Scope io_scope with io.
Notation "'let*' x := e 'in' k" := (bind e (fun x => k))
  (at level 10, x name, e at level 200, k at level 200) : io_scope.
Notation "'let*' ' p := e 'in' k" := (bind e (fun x => match x with p => k end))
  (at level 10, p pattern, e at level 200, k at level 200) : io_scope.
Notation "'let!' x := e 'in' k" := (io_bind e (fun x => k))
  (at level 10, x name, e at level 200, k at level 200) : io_scope.
Notation "'let!' ' p := e 'in' k" := (io_bind e (fun x => match x with p => k end))
  (at level 10, p pattern, e at level 200, k at level 200) : io_scope.
Notation "'do!' e ; k" := (io_bind e (fun _ => k))
  (at level 10, e at level 200, k at level 200) : io_scope.
#[global] Open Scope io_scope.

(** ** Traces *)

Record Ev `{ObjectPath} := MkEv { ev_answer_type : Type; ev_event : Event ev_answer_type; ev_answer : ev_answer_type }.
Arguments MkEv {_ _} ev_event ev_answer.

Section traces.
Context `{ObjectPath}.

Fixpoint returns {A} (p : prog A) (tr : list Ev) (a : A) : Prop :=
  match p with
  | Done a' => tr = [] ∧ a = a'
  | Vis e k => ∃ r tr', tr = MkEv e r :: tr' ∧ returns (k r) tr' a
  end.

Lemma returns_bind {A B} (p : prog A) (f : A → prog B) tr b :
  returns (bind p f) tr b ↔
  ∃ tr1 tr2 a, tr = tr1 ++ tr2 ∧ returns p tr1 a ∧ returns (f a) tr2 b.
Proof.
  revert tr. induction p as [a|R e k IH]; intros tr; simpl.
  - split; [intros Hr; by exists [], tr, a|]. by intros (? & ? & ? & -> & [-> ->] & Hr).
  - split.
    + intros (r & tr' & -> & (tr1 & tr2 & a & -> & H1 & H2)%IH).
      exists (MkEv e r :: tr1), tr2, a. split_and!; [done| |done]. by exists r, tr1.
    + intros (? & tr2 & a & -> & (r & tr' & -> & H1) & H2). exists r, (tr' ++ tr2). split; [done|].
      apply IH. by exists tr', tr2, a.
Qed.

Lemma returns_io_bind {A B} (p : io A) (f : A → io B) tr r :
  returns (io_bind p f) tr r ↔
  (∃ tr1 tr2 a, tr = tr1 ++ tr2 ∧ returns p tr1 (Ok a) ∧ returns (f a) tr2 r)
  ∨ (∃ e, returns p tr (Err e) ∧ r = Err e).
Proof.
  unfold io_bind. rewrite returns_bind. split.
  - intros (tr1 & tr2 & [a|e] & -> & H1 & H2); [left; by exists tr1, tr2, a|right].
    destruct H2 as [-> ->]. rewrite app_nil_r. by exists e.
  - intros [(tr1 & tr2 & a & -> & H1 & H2)|(e & H1 & ->)].
    + by exists tr1, tr2, (Ok a).
    + exists tr, [], (Err e). by rewrite app_nil_r.
Qed.

Lemma returns_io_bind_Ok {A B} (p : io A) (f : A → io B) tr b :
  returns (io_bind p f) tr (Ok b) ↔
  ∃ tr1 tr2 a, tr = tr1 ++ tr2 ∧ returns p tr1 (Ok a) ∧ returns (f a) tr2 (Ok b).
Proof. rewrite returns_io_bind. split; [|by left]. by intros [?|(e & _ & ?)]. Qed.

(** Every program returns, whatever its requests are answered. *)
Fixpoint run_oracle {A} (answer : ∀ R, Event R → R) (p : prog A) : list Ev * A :=
  match p with
  | Done a => ([], a)
  | Vis e k =>
      let r := answer _ e in
      let '(tr, a) := run_oracle answer (k r) in
      (MkEv e r :: tr, a)
  end.

Lemma run_oracle_returns {A} answer (p : prog A) :
  returns p (run_oracle answer p).1 (run_oracle answer p).2.
Proof.
  induction p as [a|R e k IH]; [done|]. simpl. specialize (IH (answer R e)).
  destruct (run_oracle answer (k (answer R e))) as [tr a]. by exists (answer R e), tr.
Qed.

(** ** Projections of traces *)

Definition ev_puts (tr : list Ev) : list (Path * bytes * PutMode) :=
  omap (λ ev, match ev_event ev with EPut l b m => Some (l, b, m) | _ => None end) tr.
Definition ev_gets (tr : list Ev) : list Path :=
  omap (λ ev, match ev_event ev with EGet l _ => Some l | _ => None end) tr.
Definition ev_deletes (tr : list Ev) : list Path :=
  concat (omap (λ ev, match ev_event ev with
    EDeleteStream l => Some l | EDelete l => Some [l] | _ => None end) tr).

(** Writes that the backend acknowledged. *)
Definition ev_written (ev : Ev) : option (Path * bytes * PutMode * UpdateVersion) :=
  match ev with
  | MkEv e r =>
      match e in Event R return R → option _ with
      | EPut l b m => λ r, match r with Ok v => Some (l, b, m, v) | Err _ => None end
      | _ => λ _, None
      end r
  end.

Lemma ev_puts_app tr1 tr2 : ev_puts (tr1 ++ tr2) = ev_puts tr1 ++ ev_puts tr2.
Proof. apply omap_app. Qed.
Lemma ev_gets_app tr1 tr2 : ev_gets (tr1 ++ tr2) = ev_gets tr1 ++ ev_gets tr2.
Proof. apply omap_app. Qed.
Lemma ev_deletes_app tr1 tr2 : ev_deletes (tr1 ++ tr2) = ev_deletes tr1 ++ ev_deletes tr2.
Proof. unfold ev_deletes. by rewrite omap_app, concat_app. Qed.
End traces.

(** ** Interpretation

    A handler answers requests from a state; running a program with it is a trace. *)

Definition Handler `{ObjectPath} (S : Type) : Type := ∀ R, Event R → S → R * S.

Section run.
Context `{ObjectPath} {S : Type} (handle : Handler S).

Fixpoint run {A} (p : prog A) (s : S) : A * S :=
  match p with
  | Done a => (a, s)
  | Vis e k => let '(r, s) := handle _ e s in run (k r) s
  end.

Lemma run_bind {A B} (p : prog A) (f : A → prog B) s :
  run (bind p f) s = let '(a, s) := run p s in run (f a) s.
Proof.
  revert s. induction p as [a|R e k IH]; intros s; simpl; [done|]. by destruct (handle R e s).
Qed.

(** The trace of a run. *)
Fixpoint run_trace {A} (p : prog A) (s : S) : list Ev :=
  match p with
  | Done _ => []
  | Vis e k => let '(r, s) := handle _ e s in MkEv e r :: run_trace (k r) s
  end.

Lemma run_trace_returns {A} (p : prog A) s : returns p (run_trace p s) (run p s).1.
Proof.
  revert s. induction p as [a|R e k IH]; intros s; simpl; [done|].
  destruct (handle R e s) as [r s']. eauto.
Qed.

End run.

(** [returns_inv] splits a hypothesis about a composed program along its structure. *)
Ltac returns_inv_step :=
  match goal with
  | Hr : returns (io_bind _ _) _ (Ok _) |- _ =>
      apply returns_io_bind_Ok in Hr as (? & ? & ? & -> & ? & Hr)
  | Hr : returns (io_bind _ _) _ _ |- _ =>
      apply returns_io_bind in Hr as [(? & ? & ? & -> & ? & Hr)|(? & Hr & ?)]
  | Hr : returns (bind _ _) _ _ |- _ =>
      apply returns_bind in Hr as (? & ? & ? & -> & ? & Hr)
  | Hr : returns (call _) _ _ |- _ => destruct Hr as (? & ? & -> & -> & ->)
  | Hr : returns (Done _) _ _ |- _ => destruct Hr as [-> Hr]
  | Hr : returns (ok _) _ _ |- _ => destruct Hr as [-> Hr]
  | Hr : returns (fail _) _ _ |- _ => destruct Hr as [-> Hr]
  | Hr : returns (lift _) _ _ |- _ => destruct Hr as [-> Hr]
  | Hr : Ok _ = Ok _ |- _ => injection Hr as Hr; subst
  | Hr : Ok _ = Err _ |- _ => discriminate Hr
  | Hr : Err _ = Ok _ |- _ => discriminate Hr
  end.
Ltac returns_inv := repeat returns_inv_step.
