(* ===== verification/Wp.v ===== *)
(** * Reasoning about storage programs

    A weakest precondition over the requests a program makes.  A policy says which
    request a client may make after the trace so far; [wp] requires it of every
    request under every possible answer, and relates the whole trace to the result. *)

From S2P Require Import Prelude Types Head Prog.

(** Requests that change neither an object nor the namespace. *)
Definition reading `{ObjectPath} {R} (e : Event R) : bool :=
  match e with EPut _ _ _ | EDelete _ | EDeleteStream _ => false | _ => true end.

Section reads_only.
Context `{ObjectPath}.

Fixpoint reads_only {A} (p : prog A) : Prop :=
  match p with
  | Done _ => True
  | Vis e k => reading e = true ∧ ∀ r, reads_only (k r)
  end.

Lemma reads_only_bind {A B} (p : prog A) (f : A → prog B) :
  reads_only p → (∀ a, reads_only (f a)) → reads_only (bind p f).
Proof. induction p as [a|R e k IH]; intros Hp Hf; [apply Hf|]. destruct Hp as [He Hk]. split; [done|]. eauto. Qed.

Lemma reads_only_io_bind {A B} (p : io A) (f : A → io B) :
  reads_only p → (∀ a, reads_only (f a)) → reads_only (io_bind p f).
Proof. intros Hp Hf. apply reads_only_bind; [done|]. intros [a|e]; [apply Hf|done]. Qed.

Lemma reads_only_call {R} (e : Event R) : reading e = true → reads_only (call e).
Proof. by split. Qed.
End reads_only.

Create HintDb reads.
#[export] Hint Resolve reads_only_call : reads.

(** [solve_reads] follows the structure of a program that only reads. *)
Ltac solve_reads_step :=
  match goal with
  | |- reads_only (Done _) => exact I
  | |- reads_only (ok _) => exact I
  | |- reads_only (fail _) => exact I
  | |- reads_only (lift _) => exact I
  | |- reads_only (Vis _ _) => split; [reflexivity|]
  | |- reads_only (bind _ _) => apply reads_only_bind
  | |- reads_only (io_bind _ _) => apply reads_only_io_bind
  | |- ∀ _, _ => intros ?
  | |- reads_only (if ?b then _ else _) => destruct b
  | |- reads_only (match ?x with _ => _ end) => destruct x
  | |- _ => solve [eauto with reads]
  end.
Ltac solve_reads := repeat solve_reads_step.

(** ** Weakest preconditions *)

Definition Policy `{ObjectPath} : Type := list Ev → ∀ R, Event R → Prop.

(** What is assumed of answers. *)
Definition Answers `{ObjectPath} : Type := ∀ R, Event R → R → Prop.

Section wp.
Context `{ObjectPath} (allowed : Policy) (possible : Answers).

Fixpoint wp {A} (past : list Ev) (p : prog A) (Q : list Ev → A → Prop) : Prop :=
  match p with
  | Done a => Q past a
  | Vis e k => allowed past _ e ∧ ∀ r, possible _ e r → wp (past ++ [MkEv e r]) (k r) Q
  end.

(** Every request of a trace was allowed when it was made. *)
Fixpoint follows (past tr : list Ev) : Prop :=
  match tr with
  | [] => True
  | ev :: tr => allowed past _ (ev_event ev) ∧ follows (past ++ [ev]) tr
  end.

Definition possible_trace (tr : list Ev) : Prop :=
  Forall (λ ev, possible _ (ev_event ev) (ev_answer ev)) tr.

Lemma wp_sound {A} past (p : prog A) Q tr a :
  wp past p Q → possible_trace tr → returns p tr a → follows past tr ∧ Q (past ++ tr) a.
Proof.
  revert past tr. induction p as [b|R e k IH]; intros past tr; simpl.
  - intros HQ _ [-> ->]. by rewrite app_nil_r.
  - intros [He Hk] Hp (r & tr' & -> & Hr). apply Forall_cons in Hp as [Hp1 Hp].
    destruct (IH r _ _ (Hk r Hp1) Hp Hr) as [Hf HQ].
    rewrite <-app_assoc in HQ. by split; [split|].
Qed.

Lemma wp_grow {A} past (p : prog A) Q :
  wp past p Q → wp past p (λ past' a, past ⊆ past' ∧ Q past' a).
Proof.
  assert (∀ past0 past, past0 ⊆ past → wp past p Q → wp past p (λ past' a, past0 ⊆ past' ∧ Q past' a)) as Hg.
  { induction p as [b|R e k IH]; intros past0 past1 Hs; simpl; [done|].
    intros [He Hk]. split; [done|]. intros r Hp. apply IH; [|by apply Hk]. set_solver. }
  by apply Hg.
Qed.

(** The rule of consequence, with the trace only growing. *)
Lemma wp_mono {A} past (p : prog A) (Q Q' : list Ev → A → Prop) :
  wp past p Q → (∀ past' a, past ⊆ past' → Q past' a → Q' past' a) → wp past p Q'.
Proof.
  intros Hwp%wp_grow HQ.
  assert (∀ past0, wp past0 p (λ past' a, past ⊆ past' ∧ Q past' a) → wp past0 p Q') as Hm; [|by apply Hm].
  clear Hwp. induction p as [b|R e k IH]; intros past0; simpl; [by intros [? ?]; apply HQ|].
  intros [He Hk]. split; [done|]. intros r Hp. by apply IH, Hk.
Qed.

Lemma wp_bind {A B} past (p : prog A) (f : A → prog B) Q :
  wp past p (λ past' a, wp past' (f a) Q) → wp past (bind p f) Q.
Proof. revert past. induction p as [b|R e k IH]; intros past; simpl; [done|]. intros [He Hk]. eauto. Qed.

Lemma wp_io_bind {A B} past (p : io A) (f : A → io B) Q :
  wp past p (λ past' r, match r with Ok a => wp past' (f a) Q | Err e => Q past' (Err e) end) →
  wp past (io_bind p f) Q.
Proof. intros Hp. apply wp_bind. eapply wp_mono; [exact Hp|]. by intros past' [a|e]. Qed.

Lemma wp_lift {A} past (r : Result A Error) (Q : list Ev → Result A Error → Prop) :
  Q past r → wp past (lift r) Q.
Proof. done. Qed.

Lemma wp_call {R} past (e : Event R) (Q : list Ev → R → Prop) :
  allowed past _ e → (∀ r, possible _ e r → Q (past ++ [MkEv e r]) r) → wp past (call e) Q.
Proof. by split. Qed.

(** A program that only reads is allowed wherever reading is. *)
Lemma wp_reads {A} past (p : prog A) (Q : list Ev → A → Prop) :
  (∀ past R (e : Event R), reading e = true → allowed past _ e) →
  reads_only p → (∀ past' a, past ⊆ past' → Q past' a) → wp past p Q.
Proof.
  intros Ha. revert past. induction p as [b|R e k IH]; intros past Hp HQ; simpl; [by apply HQ|].
  destruct Hp as [He Hk]. split; [by apply Ha|]. intros r Hp'. apply IH; [done|].
  intros past' a Hs. apply HQ. set_solver.
Qed.

(** A program that only reads satisfies whatever its traces establish. *)
Lemma wp_returns {A} past (p : prog A) (Q : list Ev → A → Prop) :
  (∀ past R (e : Event R), reading e = true → allowed past _ e) →
  reads_only p → (∀ tr a, possible_trace tr → returns p tr a → Q (past ++ tr) a) → wp past p Q.
Proof.
  intros Ha. revert past. induction p as [b|R e k IH]; intros past Hp HQ; simpl.
  - specialize (HQ [] b). rewrite app_nil_r in HQ. apply HQ; [constructor|done].
  - destruct Hp as [He Hk]. split; [by apply Ha|]. intros r Hp'. apply IH; [done|].
    intros tr a Ht Hr. rewrite <-app_assoc. apply HQ; [by constructor|]. by exists r, tr.
Qed.
End wp.
