(* ===== verification/Store.v ===== *)
(** * Namespace-safe object-store operations

    [src/store.rs]: the physical layout of one log, request admission, bounded safe
    reads, conditional writes, listing, batched deletion and the capability probe. *)

From S2P Require Import Prelude Types Head Prog.

Definition MAX_DELETE_BATCH : Z := 1000.
Definition SAFE_READ_ATTEMPTS : nat := 3.

(** ** Text *)

(** The [uuid] and [hex] crates. *)
Class Text := {
  uuid_simple : Uuid → bytes;
  uuid_parse_str : bytes → option Uuid;
  hex_encode : bytes → bytes;
  hex_decode : bytes → option bytes
}.

Class TextLaws `{Text} : Prop := {
  uuid_parse_simple u : uuid_wf u = true → uuid_parse_str (uuid_simple u) = Some u;
  uuid_parse_wf s u : uuid_parse_str s = Some u → uuid_wf u = true;
  uuid_simple_safe u : uuid_wf u = true → safe_part (uuid_simple u) = true;
  hex_decode_encode b : hex_decode (hex_encode b) = Some b;
  hex_encode_safe b : b ≠ [] → safe_part (hex_encode b) = true
}.

(** [Digest]'s [Display] and [FromStr]. *)
Definition digest_to_string `{Text} (d : Digest) : bytes := hex_encode (digest_bytes d).

Definition digest_from_str `{Text} (value : bytes) : Result Digest Error :=
  let? decoded := ok_or (hex_decode value) InvalidDigest in
  if len decoded =? DIGEST_LEN then Ok (MkDigest decoded) else Err InvalidDigest.

(** [ImmutableKind::segment] and [from_segment]. *)
Definition segment (k : ImmutableKind) : bytes :=
  match k with
  | KCommit => str "commits"
  | KBlob => str "blobs"
  | KNode => str "nodes"
  | KCheckpoint => str "checkpoints"
  | KCollectionPlan => str "collection-plans"
  end.

Definition from_segment (s : bytes) : option ImmutableKind :=
  if bool_decide (s = str "commits") then Some KCommit
  else if bool_decide (s = str "blobs") then Some KBlob
  else if bool_decide (s = str "nodes") then Some KNode
  else if bool_decide (s = str "checkpoints") then Some KCheckpoint
  else if bool_decide (s = str "collection-plans") then Some KCollectionPlan
  else None.

(** [parse_simple_uuid]. *)
Definition parse_simple_uuid `{Text} (value : bytes) : option Uuid :=
  u ← uuid_parse_str value;
  if bool_decide (uuid_simple u = value) then Some u else None.

(** ** Data *)

Record ListedObject := MkListedObject { immutable_key : option ImmutableKey; listed_size : Z }.

Record StoredObject := MkStoredObject { stored_bytes : bytes; stored_version : UpdateVersion }.

Inductive ConditionalRead := NotModified | Modified (stored : StoredObject) | Missing.

Inductive BackendCapability :=
  | ConditionalCreate
  | ConditionalUpdate
  | CanConditionalRead
  | ConsistentReadAfterWrite
  | PrefixList
  | RepeatableDelete.

#[global] Instance BackendCapability_eq_dec : EqDecision BackendCapability.
Proof. solve_decision. Defined.

(** [BackendCapabilities]: the supported set. *)
Definition BackendCapabilities : Type := list BackendCapability.

(** [BackendCapabilities::REQUIRED]. *)
Definition REQUIRED : list (BackendCapability * string) := [
  (ConditionalCreate, "conditional create"%string);
  (ConditionalUpdate, "conditional update"%string);
  (CanConditionalRead, "conditional read"%string);
  (ConsistentReadAfterWrite, "consistent read after write"%string);
  (PrefixList, "prefix listing"%string);
  (RepeatableDelete, "repeatable delete"%string)
].

Definition supports (c : BackendCapabilities) (capability : BackendCapability) : bool :=
  bool_decide (capability ∈ c).

(** [BackendCapabilities::require_protocol]. *)
Fixpoint require_all (c : BackendCapabilities) (l : list (BackendCapability * string)) : Result () Error :=
  match l with
  | [] => Ok ()
  | (capability, name) :: l =>
      if negb (supports c capability) then Err (UnsupportedBackend name) else require_all c l
  end.

Definition require_protocol (c : BackendCapabilities) : Result () Error := require_all c REQUIRED.

Definition is_unsupported (e : StoreError) : bool :=
  match e with SNotSupported | SNotImplemented => true | _ => false end.

(** ** Body collection *)

Section collect.
Context `{Target}.

(** The chunk loop of [collect_object], after [acc]. *)
Fixpoint collect_chunks (max_bytes : Z) (acc : bytes) (chunks : list (Result bytes StoreError))
    : Result bytes Error :=
  match chunks with
  | [] => Ok acc
  | chunk :: chunks =>
      let? chunk := map_err chunk EStore in
      let? next_len := ok_or (usize_checked_add (len acc) (len chunk)) (LimitExceeded "read bytes") in
      if max_bytes <? next_len then Err (LimitExceeded "read bytes")
      else collect_chunks max_bytes (acc ++ chunk) chunks
  end.

(** [collect_object]. *)
Definition collect_object (result : GetResult) (max_bytes : Z) : Result StoredObject Error :=
  let? max_u64 := ok_or (u64_try_from max_bytes) (LimitExceeded "read bytes") in
  if max_u64 <? meta_size result then Err (LimitExceeded "read bytes")
  else
    do? ok_or (usize_try_from (meta_size result)) (LimitExceeded "read bytes");
    let? b := collect_chunks max_bytes [] (body_stream result) in
    Ok (MkStoredObject b (meta_version result)).

(** The chunk loop of [collect_integrity]: the hasher has been fed [fed]. *)
Fixpoint integrity_chunks (max_bytes : Z) (fed : bytes) (length : Z)
    (chunks : list (Result bytes StoreError)) : Result (bytes * Z) Error :=
  match chunks with
  | [] => Ok (fed, length)
  | chunk :: chunks =>
      let? chunk := map_err chunk EStore in
      let? chunk_len := ok_or (u64_try_from (len chunk)) (LimitExceeded "read bytes") in
      let? length := ok_or (u64_checked_add length chunk_len) (LimitExceeded "read bytes") in
      if max_bytes <? length then Err (LimitExceeded "read bytes")
      else integrity_chunks max_bytes (fed ++ chunk) length chunks
  end.

(** [collect_integrity]: incremental hashing hashes the concatenation. *)
Definition collect_integrity `{Blake3} (result : GetResult) (max_bytes : Z) : Result (Digest * Z) Error :=
  let? max_bytes := ok_or (u64_try_from max_bytes) (LimitExceeded "read bytes") in
  if max_bytes <? meta_size result then Err (LimitExceeded "read bytes")
  else
    let? '(fed, length) := integrity_chunks max_bytes [] 0 (body_stream result) in
    Ok (digest_of fed, length).
End collect.

(** ** The scoped store *)

Section store.
Context `{Target} `{Blake3} `{ObjectPath} `{Text}.

Record ScopedStore := MkScopedStore {
  store_scope : Path;
  store_log_id : LogId;
  store_guard : option Guard
}.

(** [ScopedStore::unvalidated]. *)
Definition unvalidated (root : Path) (log_id : LogId) : ScopedStore := {|
  store_scope := join (join (join root (str "v1")) (str "logs")) (log_id_str log_id);
  store_log_id := log_id;
  store_guard := None
|}.

(** [ScopedStore::with_request_guard]. *)
Definition store_with_request_guard (st : ScopedStore) (guard : Guard) : ScopedStore := {|
  store_scope := store_scope st;
  store_log_id := store_log_id st;
  store_guard := Some (match store_guard st with
                       | Some previous => Guards previous guard
                       | None => guard
                       end)
|}.

(** [ScopedStore::immutable_location] and [location]. *)
Definition immutable_parts (key : ImmutableKey) : list bytes :=
  [str "data"; uuid_simple (key_incarnation key); segment (key_kind key);
   uuid_simple (storage_uuid (key_storage_id key)); digest_to_string (key_digest key)].

Definition immutable_location (st : ScopedStore) (key : ImmutableKey) : Path :=
  foldl join (store_scope st) (immutable_parts key).

Definition location (st : ScopedStore) (key : StoreKey) : Path :=
  match key with
  | HeadKey => join (store_scope st) (str "index.cbor")
  | Immutable key => immutable_location st key
  end.

(** [classify_immutable]. *)
Definition classify_immutable (scope : Path) (loc : Path) : option ImmutableKey :=
  parts ← prefix_match loc scope;
  match parts with
  | data :: rest =>
      if negb (bool_decide (data = str "data")) then None
      else match rest with
      | i :: k :: s :: digest_text :: more =>
          incarnation ← parse_simple_uuid i;
          kind ← from_segment k;
          storage_id ← parse_simple_uuid s;
          if negb (bool_decide (more = [])) then None
          else
            d ← result_ok (digest_from_str digest_text);
            if bool_decide (digest_to_string d = digest_text)
            then Some (MkImmutableKey incarnation kind (MkStorageId storage_id) d)
            else None
      | _ => None
      end
  | [] => None
  end.

(** *** Admission *)

(** [RequestGuard::before_request], with [Guards] running its parts in order. *)
Fixpoint before_request (g : Guard) (request : Request) : prog bool :=
  match g with
  | UserGuard id => call (EAdmit id request)
  | Guards previous next =>
      let* admitted := before_request previous request in
      if admitted then before_request next request else Done false
  end.

(** [ScopedStore::admit]. *)
Definition admit_request (st : ScopedStore) (request : Request) : io () :=
  match store_guard st with
  | None => ok ()
  | Some guard =>
      let* admitted := before_request guard request in
      if admitted then ok () else fail ERequestDenied
  end.

(** *** Reads *)

Definition is_generic_failure {A} (r : Result A Error) : bool :=
  match r with Err (EStore SGeneric) => true | _ => false end.

(** The loop of [retry_safe_read], with [more] attempts after this one. *)
Fixpoint read_attempts {A} (more : nat) (st : ScopedStore) (max_bytes : Z) (read : io A) : io A :=
  do! admit_request st (Read max_bytes);
  let* result := read in
  match more with
  | O => Done result
  | S more => if is_generic_failure result then read_attempts more st max_bytes read else Done result
  end.

(** [ScopedStore::retry_safe_read]. *)
Definition retry_safe_read {A} (st : ScopedStore) (max_bytes : Z) (read : io A) : io A :=
  read_attempts (SAFE_READ_ATTEMPTS - 1) st max_bytes read.

(** [ScopedStore::read_with]. *)
Definition read_with {A} (st : ScopedStore) (key : StoreKey) (max_bytes : Z)
    (collect : GetResult → Z → Result A Error) : io (option A) :=
  retry_safe_read st max_bytes (
    let* got := call (EGet (location st key) None) in
    match got with
    | Ok result => let! a := lift (collect result max_bytes) in ok (Some a)
    | Err SNotFound => ok None
    | Err e => fail (EStore e)
    end).

(** [ScopedStore::read] and [read_integrity]. *)
Definition store_read (st : ScopedStore) (key : StoreKey) (max_bytes : Z) : io (option StoredObject) :=
  read_with st key max_bytes collect_object.

Definition store_read_integrity (st : ScopedStore) (key : StoreKey) (max_bytes : Z)
    : io (option (Digest * Z)) :=
  read_with st key max_bytes collect_integrity.

(** [ScopedStore::read_if_changed]. *)
Definition read_if_changed (st : ScopedStore) (key : StoreKey) (observed : UpdateVersion)
    (max_bytes : Z) : io ConditionalRead :=
  match e_tag observed with
  | None => fail (UnsupportedBackend "conditional read")
  | Some e_tag =>
      retry_safe_read st max_bytes (
        let* got := call (EGet (location st key) (Some e_tag)) in
        match got with
        | Ok result => let! stored := lift (collect_object result max_bytes) in ok (Modified stored)
        | Err SNotModified => ok NotModified
        | Err SNotFound => ok Missing
        | Err e => fail (EStore e)
        end)
  end.

(** *** Writes *)

(** [ScopedStore::create]. *)
Definition store_create (st : ScopedStore) (key : StoreKey) (body : bytes) : io bool :=
  do! admit_request st (Write (len body));
  let* put := call (EPut (location st key) body PutCreate) in
  match put with
  | Ok _ => ok true
  | Err SAlreadyExists => ok false
  | Err e => fail (EStore e)
  end.

(** [ScopedStore::update]. *)
Definition store_update (st : ScopedStore) (key : StoreKey) (body : bytes) (observed : UpdateVersion)
    : io (option UpdateVersion) :=
  do! admit_request st (Write (len body));
  let* put := call (EPut (location st key) body (PutUpdate observed)) in
  match put with
  | Ok version => ok (Some version)
  | Err SPrecondition | Err SAlreadyExists => ok None
  | Err e => fail (EStore e)
  end.

(** *** Listing and deletion *)

(** [ScopedStore::list_scoped]: the items of the stream. *)
Definition list_scoped (st : ScopedStore) : prog (list (Result ListedObject Error)) :=
  let* admitted := admit_request st List in
  match admitted with
  | Err e => Done [Err e]
  | Ok _ =>
      let* listed := call (EList (store_scope st)) in
      Done ((λ item : Result (Path * Z) StoreError,
        match item with
        | Ok (loc, size) => Ok (MkListedObject (classify_immutable (store_scope st) loc) size)
        | Err e => Err (EStore e)
        end) <$> listed)
  end.

(** The drain loop of [delete_immutable_batch]: the first error that is not
    [NotFound]. *)
Definition first_delete_error (results : list (Result Path StoreError)) : option StoreError :=
  foldl (λ first_error result,
    match result with
    | Err e => if negb (bool_decide (e = SNotFound)) && negb (bool_decide (is_Some first_error))
               then Some e else first_error
    | Ok _ => first_error
    end) None results.

(** [ScopedStore::delete_immutable_batch]. *)
Definition delete_immutable_batch (st : ScopedStore) (keys : list ImmutableKey) : io () :=
  let expected_count := len keys in
  if MAX_DELETE_BATCH <? expected_count then fail (LimitExceeded "immutable delete batch")
  else if expected_count =? 0 then ok ()
  else
    let locations := immutable_location st <$> keys in
    do! admit_request st (Delete expected_count);
    let* results := call (EDeleteStream locations) in
    match first_delete_error results with
    | Some e => fail (EStore e)
    | None => ok ()
    end.

(** *** The capability probe *)

Definition first_probe_bytes : bytes := str "object-log capability probe: first".
Definition second_probe_bytes : bytes := str "object-log capability probe: second".

(** [store.get(location).await?] and its collected body. *)
Definition probe_get (loc : Path) (max_bytes : Z) : io StoredObject :=
  let* got := call (EGet loc None) in
  match got with
  | Ok result => lift (collect_object result max_bytes)
  | Err e => fail (EStore e)
  end.

(** [ScopedStore::probe_conditional_update]. *)
Definition probe_conditional_update (loc : Path) (first_version : UpdateVersion)
    (first_bytes second_bytes : bytes) : io (option UpdateVersion) :=
  let* update := call (EPut loc second_bytes (PutUpdate first_version)) in
  match update with
  | Err SPrecondition => ok None
  | Err e => if is_unsupported e then ok None else fail (EStore e)
  | Ok update_version =>
      let* stale := call (EPut loc first_bytes (PutUpdate first_version)) in
      match stale with
      | Err SPrecondition =>
          let! current := probe_get loc (len second_bytes) in
          if negb (bool_decide (stored_bytes current = second_bytes))
             || negb (bool_decide (stored_version current = update_version))
          then ok None else ok (Some update_version)
      | Ok _ => ok None
      | Err e => if is_unsupported e then ok None else fail (EStore e)
      end
  end.

(** The first conditional read of [run_probe]: unchanged bytes. *)
Definition probe_unchanged (loc : Path) (first_version : UpdateVersion) : io bool :=
  match e_tag first_version with
  | None => ok false
  | Some e_tag =>
      let* got := call (EGet loc (Some e_tag)) in
      match got with
      | Err SNotModified => ok true
      | Ok _ => ok false
      | Err e => if is_unsupported e then ok false else fail (EStore e)
      end
  end.

(** The second conditional read of [run_probe]: changed bytes. *)
Definition probe_changed (loc : Path) (first_version current_version : UpdateVersion)
    (second_bytes : bytes) : io bool :=
  match e_tag first_version with
  | None => ok false
  | Some e_tag =>
      let* got := call (EGet loc (Some e_tag)) in
      match got with
      | Ok result =>
          let! stored := lift (collect_object result (len second_bytes)) in
          ok (bool_decide (stored_bytes stored = second_bytes)
              && bool_decide (stored_version stored = current_version))
      | Err SNotModified => ok false
      | Err e => if is_unsupported e then ok false else fail (EStore e)
      end
  end.

(** The second create of [run_probe]. *)
Definition probe_create_again (loc : Path) (first_bytes : bytes) : io BackendCapabilities :=
  let* again := call (EPut loc first_bytes PutCreate) in
  match again with
  | Err SAlreadyExists => ok [ConditionalCreate]
  | Ok _ => ok []
  | Err e => if is_unsupported e then ok [] else fail (EStore e)
  end.

(** [ScopedStore::run_probe]. *)
Definition run_probe (loc : Path) : io BackendCapabilities :=
  let first_bytes := first_probe_bytes in
  let second_bytes := second_probe_bytes in
  let* first_result := call (EPut loc first_bytes PutCreate) in
  match first_result with
  | Err e => if is_unsupported e then ok [] else fail (EStore e)
  | Ok first_version =>
      let! supported := probe_create_again loc first_bytes in
      let! read := probe_get loc (len first_bytes) in
      let supported :=
        if bool_decide (stored_bytes read = first_bytes)
        then ConsistentReadAfterWrite :: supported else supported in
      let! unchanged := probe_unchanged loc first_version in
      let! update_version := probe_conditional_update loc first_version first_bytes second_bytes in
      let! '(supported, current_version) :=
        match update_version with
        | Some version => ok (ConditionalUpdate :: supported, version)
        | None =>
            let* put := call (EPut loc second_bytes PutOverwrite) in
            match put with
            | Ok version => ok (supported, version)
            | Err e => fail (EStore e)
            end
        end in
      let! changed := probe_changed loc first_version current_version second_bytes in
      ok (if unchanged && changed then CanConditionalRead :: supported else supported)
  end.

(** [ScopedStore::probe_prefix_listing]. *)
Fixpoint probe_listed (loc : Path) (found : bool) (listed : list (Result (Path * Z) StoreError))
    : Result bool Error :=
  match listed with
  | [] => Ok found
  | Ok (l, _) :: listed => probe_listed loc (found || bool_decide (l = loc)) listed
  | Err e :: _ => if is_unsupported e then Ok false else Err (EStore e)
  end.

Definition probe_prefix_listing (prefix loc : Path) : io bool :=
  let* listed := call (EList prefix) in
  lift (probe_listed loc false listed).

(** [ScopedStore::probe_delete_once] and [probe_repeatable_delete]. *)
Definition probe_delete_once (loc : Path) : io bool :=
  let* results := call (EDeleteStream [loc]) in
  match results with
  | [] => ok false
  | Ok deleted :: _ => ok (bool_decide (deleted = loc))
  | Err SNotFound :: _ => ok true
  | Err e :: _ => if is_unsupported e then ok false else fail (EStore e)
  end.

Definition probe_repeatable_delete (loc : Path) : io bool :=
  let! once := probe_delete_once loc in
  if negb once then ok false else probe_delete_once loc.

(** [ScopedStore::delete_probe_object]. *)
Definition delete_probe_object (loc : Path) : io () :=
  let* r := call (EDelete loc) in
  match r with
  | Ok _ | Err SNotFound => ok ()
  | Err e => if is_unsupported e then ok () else fail (EStore e)
  end.

(** [ScopedStore::probe_capabilities]. *)
Definition probe_capabilities (st : ScopedStore) : io BackendCapabilities :=
  let prefix := join (store_scope st) (str ".probe") in
  let* u := call ENewUuid in
  let loc := join prefix (uuid_simple u) in
  let* probed := run_probe loc in
  match probed with
  | Err e => do! delete_probe_object loc; fail e
  | Ok capabilities =>
      let* listed := probe_prefix_listing prefix loc in
      match listed with
      | Err e => do! delete_probe_object loc; fail e
      | Ok listed =>
          let capabilities := if listed then PrefixList :: capabilities else capabilities in
          let* deleted := probe_repeatable_delete loc in
          match deleted with
          | Ok true => ok (RepeatableDelete :: capabilities)
          | Ok false => do! delete_probe_object loc; ok capabilities
          | Err e => do! delete_probe_object loc; fail e
          end
      end
  end.

(** [ValidatedBackend]. *)
Record ValidatedBackend := MkValidatedBackend {
  backend_root : Path;
  backend_capabilities : BackendCapabilities
}.

(** [ValidatedBackend::new]. *)
Definition validated_backend_new (root : Path) : io ValidatedBackend :=
  let* u := call ENewUuid in
  let! probe_id := lift (log_id_new (str "probe-" ++ uuid_simple u)) in
  let! capabilities := probe_capabilities (unvalidated root probe_id) in
  do! lift (require_protocol capabilities);
  ok (MkValidatedBackend root capabilities).

(** [ValidatedBackend::assume_validated]. *)
Definition assume_validated (root : Path) : ValidatedBackend :=
  MkValidatedBackend root (fst <$> REQUIRED).

(** [ValidatedBackend::scope]. *)
Definition backend_scope (b : ValidatedBackend) (log_id : LogId) : ScopedStore :=
  unvalidated (backend_root b) log_id.
End store.
