(* ===== verification/StoreProps.v ===== *)
(** * Properties of the scoped store

    The physical layout separates logs and keys, classification of a listed path is
    exact, admission precedes every client request, safe reads are bounded, and the
    streaming integrity check agrees with collecting the body. *)

From S2P Require Import Prelude Types Head Prog Store.

(** ** Layout *)

Section layout.
Context `{ObjectPathLaws} `{TextLaws}.

Lemma from_segment_inv s k : from_segment s = Some k ↔ s = segment k.
Proof.
  split; [|intros ->; by destruct k].
  unfold from_segment. intros Hs. repeat case_bool_decide; by simplify_eq.
Qed.

Lemma segment_safe k : safe_part (segment k) = true.
Proof. by destruct k. Qed.

Lemma parse_simple_uuid_inv s u : parse_simple_uuid s = Some u → s = uuid_simple u ∧ uuid_wf u = true.
Proof.
  unfold parse_simple_uuid. destruct (uuid_parse_str s) as [u'|] eqn:E; simpl; [|done].
  case_bool_decide as Hs; [|done]. intros [= <-]. split; [done|]. by eapply uuid_parse_wf.
Qed.

Lemma parse_simple_uuid_simple u : uuid_wf u = true → parse_simple_uuid (uuid_simple u) = Some u.
Proof.
  intros Hu. unfold parse_simple_uuid. rewrite uuid_parse_simple by done. simpl.
  by rewrite bool_decide_eq_true_2.
Qed.

Lemma digest_nonempty d : digest_wf d = true → digest_bytes d ≠ [].
Proof. unfold digest_wf, DIGEST_LEN. intros Hd Heq. rewrite Heq in Hd. done. Qed.

Lemma digest_string_roundtrip d : digest_wf d = true → digest_from_str (digest_to_string d) = Ok d.
Proof.
  unfold digest_wf, digest_from_str, digest_to_string. intros Hd. rewrite hex_decode_encode. simpl.
  rewrite Hd. by destruct d.
Qed.

Lemma immutable_parts_safe key : immutable_key_wf key = true → forallb safe_part (immutable_parts key) = true.
Proof.
  unfold immutable_key_wf. intros Hwf. bool_hyps. unfold immutable_parts. cbn [forallb].
  rewrite !uuid_simple_safe, segment_safe by done. unfold digest_to_string.
  by rewrite hex_encode_safe by (by apply digest_nonempty).
Qed.

Lemma classify_location (st : ScopedStore) key :
  immutable_key_wf key = true →
  classify_immutable (store_scope st) (immutable_location st key) = Some key.
Proof.
  intros Hwf. pose proof (immutable_parts_safe key Hwf) as Hs.
  unfold immutable_key_wf in Hwf. bool_hyps.
  unfold classify_immutable, immutable_location. rewrite prefix_match_join by done.
  cbn -[bool_decide]. rewrite bool_decide_eq_true_2 by done. cbn -[bool_decide].
  rewrite parse_simple_uuid_simple by done. cbn -[bool_decide].
  rewrite (proj2 (from_segment_inv _ _) eq_refl). cbn -[bool_decide].
  rewrite parse_simple_uuid_simple by done. cbn -[bool_decide].
  rewrite bool_decide_eq_true_2 by done. cbn -[bool_decide].
  rewrite digest_string_roundtrip by done. cbn -[bool_decide].
  rewrite bool_decide_eq_true_2 by done. by destruct key as [? ? [] ?].
Qed.

Lemma classify_sound (st : ScopedStore) loc key :
  classify_immutable (store_scope st) loc = Some key →
  loc = immutable_location st key ∧ immutable_key_wf key = true.
Proof.
  unfold classify_immutable. destruct (prefix_match loc (store_scope st)) as [parts|] eqn:Ep; [|done].
  cbn -[bool_decide]. destruct parts as [|p0 [|p1 [|p2 [|p3 [|p4 more]]]]]; try done; try (by case_bool_decide).
  case_bool_decide as E0; [subst p0|done]. cbn -[bool_decide].
  destruct (parse_simple_uuid p1) as [i|] eqn:E1; [|done]. cbn -[bool_decide].
  destruct (from_segment p2) as [k|] eqn:E2; [|done]. cbn -[bool_decide].
  destruct (parse_simple_uuid p3) as [s|] eqn:E3; [|done]. cbn -[bool_decide].
  case_bool_decide as E4; [subst more|done]. cbn -[bool_decide].
  destruct (digest_from_str p4) as [d|] eqn:E5; [|done]. cbn -[bool_decide].
  case_bool_decide as E6; [|done]. intros [= <-].
  apply parse_simple_uuid_inv in E1 as [-> Hi], E3 as [-> Hs]. apply from_segment_inv in E2 as ->.
  assert (digest_wf d = true) as Hd.
  { unfold digest_from_str in E5. inv_ok. done. }
  assert (immutable_key_wf (MkImmutableKey i k (MkStorageId s) d) = true) as Hwf.
  { unfold immutable_key_wf. simpl. by rewrite Hi, Hs, Hd. }
  split; [|done].
  apply (prefix_match_inv _ _ (immutable_parts (MkImmutableKey i k (MkStorageId s) d))).
  - by rewrite <-E6 in Ep.
  - by apply immutable_parts_safe.
Qed.

Definition key_parts (key : StoreKey) : list bytes :=
  match key with HeadKey => [str "index.cbor"] | Immutable key => immutable_parts key end.

Definition store_key_wf (key : StoreKey) : bool :=
  match key with HeadKey => true | Immutable key => immutable_key_wf key end.

Lemma log_id_safe id : log_id_wf id = true → safe_part (log_id_str id) = true.
Proof.
  intros Hid%log_id_wf_new%log_id_new_Ok. destruct Hid as (_ & Hl & Hb & Hd1 & Hd2).
  unfold safe_part. rewrite (proj2 (forallb_Forall _ _) Hb).
  rewrite !bool_decide_eq_false_2; [done..|]. intros Hn. rewrite Hn in Hl. unfold len in Hl. simpl in Hl. lia.
Qed.

Lemma location_parts root id key :
  location (unvalidated root id) key
  = foldl join root ([str "v1"; str "logs"; log_id_str id] ++ key_parts key).
Proof. by destruct key. Qed.

Lemma key_parts_safe key : store_key_wf key = true → forallb safe_part (key_parts key) = true.
Proof. destruct key as [|key]; [done|]. apply immutable_parts_safe. Qed.

Lemma key_parts_inj (st : ScopedStore) k1 k2 :
  store_key_wf k1 = true → store_key_wf k2 = true → key_parts k1 = key_parts k2 → k1 = k2.
Proof.
  intros K1 K2. destruct k1 as [|k1], k2 as [|k2]; try done. intros Hp. f_equal.
  assert (immutable_location st k1 = immutable_location st k2) as Hl.
  { unfold immutable_location. simpl in Hp. by rewrite Hp. }
  pose proof (classify_location st k1 K1) as C1. rewrite Hl, classify_location in C1 by done. congruence.
Qed.

(** Namespace isolation: under one root, two protocol keys share a physical path
    only when they are the same key of the same log. *)
Theorem namespace_isolation root a b k1 k2 :
  log_id_wf a = true → log_id_wf b = true → store_key_wf k1 = true → store_key_wf k2 = true →
  location (unvalidated root a) k1 = location (unvalidated root b) k2 → a = b ∧ k1 = k2.
Proof.
  intros Ha Hb K1 K2 Hl. rewrite !location_parts in Hl.
  assert (∀ id k, log_id_wf id = true → store_key_wf k = true →
    forallb safe_part ([str "v1"; str "logs"; log_id_str id] ++ key_parts k) = true) as Hs.
  { intros id k Hid Hk. rewrite forallb_app. cbn [forallb]. by rewrite log_id_safe, key_parts_safe. }
  pose proof (prefix_match_join root _ (Hs a k1 Ha K1)) as P1.
  rewrite Hl, (prefix_match_join root _ (Hs b k2 Hb K2)) in P1. injection P1 as Hid Hk. split.
  - destruct a, b. simpl in Hid. by subst.
  - symmetry. by apply (key_parts_inj (unvalidated root a)).
Qed.

(** C38. A listed path is classified as an immutable key exactly when it is that key's
    canonical path, so unknown entries never become deletion candidates. *)
Theorem classification_exact (st : ScopedStore) loc key :
  immutable_key_wf key = true →
  classify_immutable (store_scope st) loc = Some key ↔ loc = immutable_location st key.
Proof.
  intros Hwf. split.
  - by intros [? _]%classify_sound.
  - intros ->. by apply classify_location.
Qed.
End layout.

(** ** Bodies *)

Section bodies.
Context `{Target} `{Blake3}.

Lemma collect_chunks_Ok max chunks : ∀ acc b,
  collect_chunks max acc chunks = Ok b → len acc ≤ max →
  ∃ l, chunks = Ok <$> l ∧ b = acc ++ concat l ∧ len b ≤ max.
Proof.
  induction chunks as [|c chunks IH]; intros acc b; simpl.
  - intros [= <-] Hl. exists []. by rewrite app_nil_r.
  - intros Hc Hl. inv_ok. destruct c as [c|]; [|done]. simpl in Hok. simplify_eq.
    apply checked_add_Some in Hok0 as [-> _]. apply IH in Hc as (l & -> & -> & Hb); [|rewrite len_app; lia].
    exists (x :: l). split_and!; [done| |done]. simpl. by rewrite app_assoc.
Qed.

Lemma integrity_chunks_collect max chunks : ∀ acc,
  0 ≤ max ≤ usize_max → len acc ≤ max →
  integrity_chunks max acc (len acc) chunks
  = let? b := collect_chunks max acc chunks in Ok (b, len b).
Proof.
  induction chunks as [|c chunks IH]; intros acc Hmax Hacc; simpl; [done|].
  destruct c as [c|e]; [|done]. simpl. pose proof usize_max_le_u64. pose proof (len_nonneg c).
  pose proof (len_nonneg acc).
  unfold u64_try_from, in_u64, checked_add_within.
  destruct (len c <=? u64_max) eqn:E1; [|simpl].
  - rewrite (proj2 (Z.leb_le 0 (len c))) by lia. simpl.
    destruct (len acc + len c <=? max) eqn:E2.
    + rewrite !(proj2 (Z.leb_le (len acc + len c) _)) by lia. simpl.
      rewrite !(proj2 (Z.ltb_ge max _)) by lia. rewrite <-len_app.
      apply IH; [done|]. rewrite len_app. lia.
    + assert (max <? len acc + len c = true) as Hlt by lia.
      destruct (len acc + len c <=? u64_max), (len acc + len c <=? usize_max); simpl;
        rewrite ?Hlt; done.
  - rewrite andb_false_r. simpl. assert (len acc + len c <=? usize_max = false) as -> by lia. done.
Qed.

(** Verifying an object without keeping it agrees with reading it: the streaming
    integrity check returns the digest and length of exactly the body that collecting
    it returns, and fails exactly when collecting it fails. *)
Theorem collect_integrity_agrees result max_bytes :
  in_usize max_bytes = true → 0 ≤ meta_size result →
  collect_integrity result max_bytes
  = let? o := collect_object result max_bytes in Ok (digest_of (stored_bytes o), len (stored_bytes o)).
Proof.
  intros Hmax Hsize. unfold in_usize in Hmax. bool_hyps. pose proof usize_max_le_u64.
  unfold collect_integrity, collect_object, u64_try_from, usize_try_from, in_u64, in_usize.
  rewrite !(proj2 (Z.leb_le _ max_bytes)) by lia. rewrite (proj2 (Z.leb_le max_bytes u64_max)) by lia. simpl.
  destruct (max_bytes <? meta_size result) eqn:E; [done|].
  rewrite !(proj2 (Z.leb_le _ _)) by lia. simpl.
  pose proof (integrity_chunks_collect max_bytes (body_stream result) [] ltac:(lia) ltac:(unfold len; simpl; lia)) as Hi.
  change (len []) with 0 in Hi. rewrite Hi.
  by destruct (collect_chunks max_bytes [] (body_stream result)).
Qed.
End bodies.

(** ** Admission *)

Section admission.
Context `{Target} `{Blake3} `{ObjectPath} `{Text}.

Fixpoint guard_ids (g : Guard) : list Z :=
  match g with UserGuard id => [id] | Guards p n => guard_ids p ++ guard_ids n end.

Definition store_guard_ids (st : ScopedStore) : list Z :=
  match store_guard st with Some g => guard_ids g | None => [] end.

Definition admitted (r : Request) (ids : list Z) : list Ev := (λ id, MkEv (EAdmit id r) true) <$> ids.

(** A refusal: some guard refused after every earlier one admitted. *)
Definition refused (r : Request) (ids : list Z) (tr : list Ev) : Prop :=
  ∃ pre id post, ids = pre ++ id :: post ∧ tr = admitted r pre ++ [MkEv (EAdmit id r) false].

Lemma before_request_returns g r : ∀ tr a,
  returns (before_request g r) tr a ↔
  if a then tr = admitted r (guard_ids g) else refused r (guard_ids g) tr.
Proof.
  induction g as [id|p IHp n IHn]; intros tr a; cbn [before_request guard_ids].
  - split.
    + intros (b & tr' & -> & -> & <-). destruct a; [done|]. by exists [], id, [].
    + destruct a; [intros ->; by exists true, []|].
      intros (pre & id' & post & Hid & ->). destruct pre as [|? [|]]; [|done..].
      injection Hid as <- <-. by exists false, [].
  - rewrite returns_bind. unfold admitted. rewrite fmap_app. split.
    + intros (tr1 & tr2 & b & -> & Hp%IHp & Hn). destruct b.
      * apply IHn in Hn. subst tr1. destruct a; [by subst|].
        destruct Hn as (pre & id & post & -> & ->). exists (guard_ids p ++ pre), id, post.
        unfold admitted. by rewrite fmap_app, <-!app_assoc.
      * destruct Hn as [-> ->]. rewrite app_nil_r. destruct Hp as (pre & id & post & -> & ->).
        exists pre, id, (post ++ guard_ids n). by rewrite <-app_assoc.
    + destruct a.
      * intros ->. exists (admitted r (guard_ids p)), (admitted r (guard_ids n)), true.
        split_and!; [done|by apply IHp|by apply IHn].
      * intros (pre & id & post & Hids & ->). destruct (app_eq_inv _ _ _ _ Hids) as [(k & Hp & Hn)|(k & Hp & Hn)].
        -- destruct k as [|x k].
           ++ simpl in Hn. rewrite app_nil_r in Hp. subst pre.
              exists (admitted r (guard_ids p)), [MkEv (EAdmit id r) false], true. split_and!; [done|by apply IHp|].
              apply IHn. exists [], id, post. by rewrite Hn.
           ++ injection Hn as <- Hn. exists (admitted r pre ++ [MkEv (EAdmit id r) false]), [], false.
              rewrite app_nil_r. split_and!; [done| |done]. apply IHp. by exists pre, id, k.
        -- exists (admitted r (guard_ids p)), (admitted r k ++ [MkEv (EAdmit id r) false]), true.
           subst pre. unfold admitted. rewrite fmap_app, <-app_assoc. split_and!; [done|by apply IHp|].
           apply IHn. by exists k, id, post.
Qed.

Lemma admit_request_Ok st r tr :
  returns (admit_request st r) tr (Ok ()) ↔ tr = admitted r (store_guard_ids st).
Proof.
  unfold admit_request, store_guard_ids. destruct (store_guard st) as [g|]; [|by split; [intros [-> _]|intros ->]].
  rewrite returns_bind. split.
  - intros (tr1 & tr2 & [] & -> & Hg & Hr); destruct Hr as [-> ?]; [|done].
    apply before_request_returns in Hg as ->. by rewrite app_nil_r.
  - intros ->. exists (admitted r (guard_ids g)), [], true. rewrite app_nil_r.
    split_and!; [done|by apply before_request_returns|done].
Qed.

Lemma admit_request_Err st r tr e :
  returns (admit_request st r) tr (Err e) → e = ERequestDenied ∧ refused r (store_guard_ids st) tr.
Proof.
  unfold admit_request, store_guard_ids. destruct (store_guard st) as [g|]; [|by intros [_ ?]].
  rewrite returns_bind. intros (tr1 & tr2 & [] & -> & Hg & Hr); destruct Hr as [-> Hr]; [done|].
  injection Hr as ->. apply before_request_returns in Hg. by rewrite app_nil_r.
Qed.

(** The request that a client call is charged as. *)
Definition charged_as {R} (e : Event R) (r : Request) : bool :=
  match e, r with
  | EGet _ _, Read _ => true
  | EPut _ b _, Write n => n =? len b
  | EList _, List => true
  | EDeleteStream l, Delete n => n =? len l
  | _, _ => false
  end.

(** Traces in which every client call directly follows the admission of its request
    by every guard, and a refusal ends the operation. *)
Inductive guarded (st : ScopedStore) : list Ev → Prop :=
  | guarded_nil : guarded st []
  | guarded_refused r tr : refused r (store_guard_ids st) tr → guarded st tr
  | guarded_call r R (e : Event R) a rest :
      charged_as e r = true → guarded st rest →
      guarded st (admitted r (store_guard_ids st) ++ MkEv e a :: rest).

Lemma guarded_admit {A} st r (p : io A) tr a :
  returns (do! admit_request st r; p) tr a →
  (∀ tr', returns p tr' a → ∃ R (e : Event R) b rest,
     tr' = MkEv e b :: rest ∧ charged_as e r = true ∧ guarded st rest) →
  guarded st tr.
Proof.
  intros Hr Hp. apply returns_io_bind in Hr as [(tr1 & tr2 & [] & -> & Ha & Hr)|(e & Ha & _)].
  - apply admit_request_Ok in Ha as ->. destruct (Hp _ Hr) as (R & e & b & rest & -> & Hc & Hg).
    by apply (guarded_call st r).
  - apply admit_request_Err in Ha as [_ Ha]. by eapply guarded_refused.
Qed.

(** A read attempt: one GET and local work. *)
Definition one_get {A} (loc : Path) (read : io A) : Prop :=
  ∀ tr r, returns read tr r → ∃ inm a, tr = [MkEv (EGet loc inm) a].

Lemma read_attempts_cases {A} more st max (read : io A) tr r :
  returns (read_attempts more st max read) tr r →
  (∃ e, returns (admit_request st (Read max)) tr (Err e) ∧ r = Err e)
  ∨ ∃ tr1 tr2, returns read tr1 r ∧ tr2 = [] ∧ tr = admitted (Read max) (store_guard_ids st) ++ tr1 ++ tr2
               ∧ (more = 0%nat ∨ is_generic_failure r = false)
  ∨ ∃ more' r1, more = S more' ∧ returns read tr1 r1 ∧ is_generic_failure r1 = true
       ∧ tr = admitted (Read max) (store_guard_ids st) ++ tr1 ++ tr2
       ∧ returns (read_attempts more' st max read) tr2 r.
Proof.
  intros Hr. destruct more as [|more]; cbn [read_attempts] in Hr;
    apply returns_io_bind in Hr as [(tra & trb & [] & -> & Ha%admit_request_Ok & Hr)|(e & Ha & ->)]; eauto;
    subst tra; apply returns_bind in Hr as (tr1 & tr2 & r1 & -> & Hr1 & Hr2); right; exists tr1, tr2.
  - destruct Hr2 as [-> ->]. left. split_and!; try done. by left.
  - destruct (is_generic_failure r1) eqn:E.
    + right. by exists more, r1.
    + destruct Hr2 as [-> ->]. left. split_and!; try done. by right.
Qed.

Lemma read_attempts_guarded {A} loc st max (read : io A) : one_get loc read →
  ∀ more tr r, returns (read_attempts more st max read) tr r → guarded st tr.
Proof.
  intros Hone. induction more as [|more IH]; intros tr r Hr;
    apply read_attempts_cases in Hr as [(e & Ha & _)|(tr1 & tr2 & [(Hr & -> & -> & _)|(m & r1 & Hm & Hr & _ & -> & Hr2)])];
    try (apply admit_request_Err in Ha as [_ Ha]; by eapply guarded_refused); try done;
    destruct (Hone _ _ Hr) as (inm & a & ->).
  - by apply (guarded_call st (Read max)); [|constructor].
  - by apply (guarded_call st (Read max)); [|constructor].
  - injection Hm as <-. apply (guarded_call st (Read max)); [done|]. by eapply IH.
Qed.

Lemma one_get_intro {A} loc inm (k : Result GetResult StoreError → io A) :
  (∀ a tr r, returns (k a) tr r → tr = []) → one_get loc (let* got := call (EGet loc inm) in k got).
Proof.
  intros Hk tr r Hr. returns_inv. apply Hk in Hr as ->. eauto.
Qed.

(** C39. Admission: with guards attached, every client request of the scoped store
    directly follows its admission by every guard in attachment order, and a refusal
    ends the operation before the client is invoked. *)
Theorem requests_are_guarded st :
  (∀ key max tr r, returns (store_read st key max) tr r → guarded st tr)
  ∧ (∀ key max tr r, returns (store_read_integrity st key max) tr r → guarded st tr)
  ∧ (∀ key v max tr r, returns (read_if_changed st key v max) tr r → guarded st tr)
  ∧ (∀ key body tr r, returns (store_create st key body) tr r → guarded st tr)
  ∧ (∀ key body v tr r, returns (store_update st key body v) tr r → guarded st tr)
  ∧ (∀ tr r, returns (list_scoped st) tr r → guarded st tr)
  ∧ (∀ keys tr r, returns (delete_immutable_batch st keys) tr r → guarded st tr).
Proof.
  split_and!.
  - intros key max tr r. apply (read_attempts_guarded (location st key)), one_get_intro.
    intros [g|[]] tr' r' Hr; try (by destruct Hr as [-> _]).
    returns_inv; done || (by match goal with Hl : returns (lift _) _ _ |- _ => destruct Hl as [-> _] end).
  - intros key max tr r. apply (read_attempts_guarded (location st key)), one_get_intro.
    intros [g|[]] tr' r' Hr; try (by destruct Hr as [-> _]).
    returns_inv; done || (by match goal with Hl : returns (lift _) _ _ |- _ => destruct Hl as [-> _] end).
  - intros key v max tr r. unfold read_if_changed. destruct (e_tag v) as [t|]; [|intros [-> _]; constructor].
    apply (read_attempts_guarded (location st key)), one_get_intro.
    intros [g|[]] tr' r' Hr; try (by destruct Hr as [-> _]).
    returns_inv; done || (by match goal with Hl : returns (lift _) _ _ |- _ => destruct Hl as [-> _] end).
  - intros key body tr r Hr. eapply guarded_admit; [exact Hr|]. clear Hr tr. intros tr Hr.
    returns_inv. eexists _, _, _, _. split; [done|]. split; [apply Z.eqb_refl|].
    match type of Hr with returns (match ?x with _ => _ end) _ _ => destruct x as [|[]] end;
      destruct Hr as [-> _]; constructor.
  - intros key body v tr r Hr. eapply guarded_admit; [exact Hr|]. clear Hr tr. intros tr Hr.
    returns_inv. eexists _, _, _, _. split; [done|]. split; [apply Z.eqb_refl|].
    match type of Hr with returns (match ?x with _ => _ end) _ _ => destruct x as [|[]] end;
      destruct Hr as [-> _]; constructor.
  - intros tr r Hr. unfold list_scoped in Hr.
    apply returns_bind in Hr as (tr1 & tr2 & [[]|e] & -> & Ha & Hr).
    + apply admit_request_Ok in Ha as ->. returns_inv.
      by apply (guarded_call st List); [|constructor].
    + destruct Hr as [-> _]. rewrite app_nil_r. apply admit_request_Err in Ha as [_ Ha]. by eapply guarded_refused.
  - intros keys tr r Hr. unfold delete_immutable_batch in Hr.
    destruct (_ <? _); [destruct Hr as [-> _]; constructor|].
    destruct (_ =? _); [destruct Hr as [-> _]; constructor|].
    eapply guarded_admit; [exact Hr|]. clear Hr tr. intros tr Hr.
    returns_inv. eexists _, _, _, _. split; [done|]. split.
    + simpl. unfold len. rewrite length_fmap. apply Z.eqb_refl.
    + destruct (first_delete_error _); destruct Hr as [-> _]; constructor.
Qed.

(** ** Safe reads *)

Lemma ev_gets_admitted r ids : ev_gets (admitted r ids) = [].
Proof. induction ids; [done|]. unfold admitted. by rewrite fmap_cons. Qed.
Lemma ev_puts_admitted r ids : ev_puts (admitted r ids) = [].
Proof. induction ids; [done|]. unfold admitted. by rewrite fmap_cons. Qed.
Lemma ev_deletes_admitted r ids : ev_deletes (admitted r ids) = [].
Proof. induction ids; [done|]. unfold admitted. by rewrite fmap_cons. Qed.
Lemma ev_gets_refused r ids tr : refused r ids tr → ev_gets tr = [] ∧ ev_puts tr = [] ∧ ev_deletes tr = [].
Proof.
  intros (pre & id & post & _ & ->).
  by rewrite ev_gets_app, ev_puts_app, ev_deletes_app, ev_gets_admitted, ev_puts_admitted, ev_deletes_admitted.
Qed.

Record read_trace (loc : Path) (attempts : nat) (tr : list Ev) : Prop := {
  read_gets : Forall (λ l, l = loc) (ev_gets tr);
  read_count : (length (ev_gets tr) ≤ attempts)%nat;
  read_no_puts : ev_puts tr = [];
  read_no_deletes : ev_deletes tr = []
}.

Lemma read_attempts_trace {A} loc st max (read : io A) : one_get loc read →
  ∀ more tr r, returns (read_attempts more st max read) tr r →
  read_trace loc (S more) tr
  ∧ (is_generic_failure r = true → length (ev_gets tr) = S more)
  ∧ ((∃ tr', returns read tr' r) ∨ r = Err ERequestDenied).
Proof.
  intros Hone. induction more as [|more IH]; intros tr r Hr;
    apply read_attempts_cases in Hr
      as [(e & Ha & ->)|(tr1 & tr2 & [(Hr & -> & -> & Hg)|(m & r1 & Hm & Hr & _ & -> & Hr2)])]; try done.
  1,3: apply admit_request_Err in Ha as [-> Ha]; apply ev_gets_refused in Ha as (Hg & Hp & Hd);
    (split; [split; rewrite ?Hg; simpl; (done || lia)|]; split; [done|by right]).
  1,2: destruct (Hone _ _ Hr) as (inm & a & ->); split_and!; [split|..];
    rewrite ?ev_gets_app, ?ev_puts_app, ?ev_deletes_app, ?ev_gets_admitted, ?ev_puts_admitted, ?ev_deletes_admitted;
    simpl; try done; try lia; eauto; try (by repeat constructor);
    (intros Hf; destruct Hg as [Hg|Hg]; [done|congruence]).
  injection Hm as <-. destruct (Hone _ _ Hr) as (inm & a & ->). destruct (IH _ _ Hr2) as ([Hg Hc Hp Hd] & Hgen & Hres).
  split_and!; [split|..]; rewrite ?ev_gets_app, ?ev_puts_app, ?ev_deletes_app, ?ev_gets_admitted, ?ev_puts_admitted, ?ev_deletes_admitted;
    simpl; try done; try lia.
  - by constructor.
  - intros Hf. rewrite Hgen by done. done.
Qed.

Lemma collect_object_bound result max o :
  0 ≤ max → collect_object result max = Ok o → len (stored_bytes o) ≤ max.
Proof.
  unfold collect_object. intros Hm Hc. inv_ok. simpl.
  match goal with Hk : collect_chunks _ _ _ = Ok _ |- _ => apply collect_chunks_Ok in Hk as (_ & _ & _ & Hb) end; [lia|].
  unfold len. simpl. lia.
Qed.

Lemma store_read_one_get st key max :
  one_get (location st key) (
    let* got := call (EGet (location st key) None) in
    match got with
    | Ok result => let! a := lift (collect_object result max) in ok (Some a)
    | Err SNotFound => ok None
    | Err e => fail (EStore e)
    end).
Proof.
  apply one_get_intro. intros [g|[]] tr' r' Hr; try (by destruct Hr as [-> _]).
  returns_inv; done || (by match goal with Hl : returns (lift _) _ _ |- _ => destruct Hl as [-> _] end).
Qed.

(** A safe read makes at most three GETs, all of its own key, and no other client
    request; it gives up with a transport failure only after the third; and the body
    it returns never exceeds the caller's bound. *)
Theorem safe_read_bounded st key max tr r :
  0 ≤ max → returns (store_read st key max) tr r →
  read_trace (location st key) SAFE_READ_ATTEMPTS tr
  ∧ (r = Err (EStore SGeneric) → length (ev_gets tr) = SAFE_READ_ATTEMPTS)
  ∧ (∀ o, r = Ok (Some o) → len (stored_bytes o) ≤ max).
Proof.
  intros Hm Hr. apply (read_attempts_trace (location st key)) in Hr as (Ht & Hg & Hres);
    [|apply store_read_one_get].
  split_and!; [done| |].
  - intros ->. by apply Hg.
  - intros o ->. destruct Hres as [[tr' Hr]|]; [|done].
    apply returns_bind in Hr as (? & ? & [g|[]] & -> & _ & Hr); try (by destruct Hr as [_ ?]).
    returns_inv. by eapply collect_object_bound.
Qed.

(** ** Deletion *)

Lemma first_delete_error_None results :
  first_delete_error results = None ↔
  Forall (λ r, match r with Ok _ => True | Err e => e = SNotFound end) results.
Proof.
  unfold first_delete_error.
  assert (∀ o, foldl (λ first_error (result : Result Path StoreError), match result with
      | Err e => if negb (bool_decide (e = SNotFound)) && negb (bool_decide (is_Some first_error))
                 then Some e else first_error
      | Ok _ => first_error end) o results = None
    ↔ o = None ∧ Forall (λ r, match r with Ok _ => True | Err e => e = SNotFound end) results) as Hg.
  { induction results as [|r results IH]; intros o; simpl; [split; [by intros ->|by intros [-> _]]|].
    rewrite IH, Forall_cons. destruct r as [p|e]; [tauto|].
    destruct (decide (e = SNotFound)) as [->|Hne].
    - rewrite bool_decide_eq_true_2 by done. simpl. tauto.
    - rewrite bool_decide_eq_false_2 by done. destruct o as [o|].
      + rewrite (bool_decide_eq_true_2 (is_Some (Some o))) by done. simpl. naive_solver.
      + rewrite (bool_decide_eq_false_2 (is_Some None)) by (by intros []). simpl. naive_solver. }
  rewrite Hg. tauto.
Qed.

(** Batched deletion submits exactly the canonical paths of the given immutable
    keys, at most a thousand, never the head; it succeeds exactly when every key was
    deleted or already missing. *)
Theorem delete_batch_exact st keys tr r :
  returns (delete_immutable_batch st keys) tr r →
  ev_puts tr = [] ∧ ev_gets tr = []
  ∧ (ev_deletes tr = [] ∨ ev_deletes tr = immutable_location st <$> keys ∧ len keys ≤ MAX_DELETE_BATCH)
  ∧ (r = Ok () → keys = [] ∨ ∃ results,
       MkEv (EDeleteStream (immutable_location st <$> keys)) results ∈ tr
       ∧ Forall (λ r, match r with Ok _ => True | Err e => e = SNotFound end) results).
Proof.
  unfold delete_immutable_batch. destruct (_ <? _) eqn:E1; [by intros [-> ->]; split_and!; auto|].
  destruct (_ =? _) eqn:E2.
  { intros [-> ->]. split_and!; auto. intros _. left. destruct keys; [done|].
    rewrite len_cons in E2. pose proof (len_nonneg keys). lia. }
  intros Hr. apply returns_io_bind in Hr as [(tr1 & tr2 & [] & -> & Ha%admit_request_Ok & Hr)|(e & Ha & ->)].
  - subst tr1. returns_inv.
    match type of Hr with returns (match first_delete_error ?res with _ => _ end) _ _ => rename res into results end.
    assert (x0 = [] ∧ (r = Ok () → first_delete_error results = None)) as [-> Hok].
    { destruct (first_delete_error results); by destruct Hr as [-> ->]. }
    rewrite ev_puts_app, ev_gets_app, ev_deletes_app, ev_gets_admitted, ev_puts_admitted, ev_deletes_admitted.
    split_and!; [done|done|right; split; [cbn; by rewrite app_nil_r|lia]|].
    intros Hr'. right. exists results. split; [set_solver|]. by apply first_delete_error_None, Hok.
  - apply admit_request_Err in Ha as [-> Ha]. apply ev_gets_refused in Ha as (-> & -> & ->). split_and!; auto. done.
Qed.
End admission.
