(* ===== verification/Log.v ===== *)
(** * The log handle: reads and head publication

    The private half of [src/log.rs]: views, validation, verified reads of commits,
    nodes and checkpoints, the object-graph walk, fresh immutable objects, and the
    bounded conditional publication of a head. *)

From S2P Require Import Prelude Types Head Cbor Wire Format Prog Store.

Definition MAX_CONCURRENT_READS : nat := 32.
Definition MAX_FRESH_OBJECT_ATTEMPTS : nat := 16.
Definition MAX_HEAD_PUBLICATION_ATTEMPTS : nat := 16.

(** [publication_evidence]. *)
Definition publication_evidence {A} (result : Result A Error) : Result (option A) Error :=
  match result with
  | Ok value => Ok (Some value)
  | Err (EStore _) | Err ERequestDenied => Ok None
  | Err error => Err error
  end.

Inductive GraphWalk := Reachability | VerifyBlobs.

#[global] Instance GraphWalk_eq_dec : EqDecision GraphWalk.
Proof. solve_decision. Defined.

(** [HeadPublication]. *)
Inductive HeadPublication :=
  | Updated (v : View)
  | Changed (current : View) (attempted_generation : Z)
  | Contended (v : View)
  | PublicationPending.

(** [CommitRecord], [CheckpointRecord] and [ReferenceNode]. *)
Record CommitRecord := MkCommitRecord {
  record_reference : CommitRef;
  record_expected_tip : option Digest;
  record_operation : bytes;
  record_result : bytes;
  record_objects : list ObjectRef
}.

Record CheckpointRecord := MkCheckpointRecord {
  checkpoint_snapshot : bytes;
  checkpoint_objects : list ObjectRef
}.

Record ReferenceNode := MkReferenceNode { ref_payload : bytes; ref_children : list ObjectRef }.

(** [StagedObject]. *)
Record StagedObject := MkStagedObject {
  staged_object_ref : ObjectRef;
  staged_domain : Z;
  staged_epoch : Z
}.

(** [Log::is_collection_candidate]. *)
Definition is_collection_candidate (candidates : list CollectionCandidate) (key : ImmutableKey) : bool :=
  bool_decide (is_Some (binary_search (S (length candidates)) candidate_key candidates key 0 (length candidates))).

Definition is_blocked (blocked : option (list CollectionCandidate)) (key : ImmutableKey) : bool :=
  match blocked with Some blocked => is_collection_candidate blocked key | None => false end.

Section log.
Context `{Target} `{Blake3} `{Cbor} `{!DerivedDecode} `{ObjectPath} `{Text}.

(** [Log]. *)
Record Log := MkLog {
  log_store : ScopedStore;
  log_options : Options;
  log_incarnation : Uuid;
  log_staging_domain : Z
}.

(** [Log::with_request_guard]. *)
Definition with_request_guard (log : Log) (guard : Guard) : Log :=
  MkLog (store_with_request_guard (log_store log) guard) (log_options log) (log_incarnation log)
    (log_staging_domain log).

(** [Log::commit_read_window]. *)
Definition commit_read_window (log : Log) (cap : Z) : Z :=
  Z.min cap (Z.max (max_object_bytes (log_options log) / Z.max (max_commit_bytes (log_options log)) 1) 1).

(** *** Keys *)

Definition object_immutable_key (log : Log) (object : ObjectRef) : ImmutableKey :=
  MkImmutableKey (log_incarnation log)
    (match obj_kind object with Blob => KBlob | Node => KNode | Checkpoint => KCheckpoint end)
    (obj_storage_id object) (obj_digest object).

Definition object_key (log : Log) (object : ObjectRef) : StoreKey :=
  Immutable (object_immutable_key log object).

Definition commit_immutable_key (log : Log) (reference : CommitRef) : ImmutableKey :=
  MkImmutableKey (log_incarnation log) KCommit (commit_storage_id reference) (commit_digest reference).

Definition commit_key (log : Log) (reference : CommitRef) : StoreKey :=
  Immutable (commit_immutable_key log reference).

Definition collection_plan_key (incarnation : Uuid) (reference : CollectionPlanRef) : ImmutableKey :=
  MkImmutableKey incarnation KCollectionPlan (plan_storage_id reference) (plan_digest reference).

(** *** Validation *)

Definition validate_view (log : Log) (view : View) : Result () Error :=
  if negb (bool_decide (head_log_id (view_head view) = store_log_id (log_store log)))
  then Err (invalid "the view belongs to another log")
  else if negb (bool_decide (head_incarnation (view_head view) = log_incarnation log))
  then Err (invalid "the view belongs to another log incarnation")
  else if negb (bool_decide (head_options (view_head view) = log_options log))
  then Err (ConfigurationMismatch "options")
  else Ok ().

Definition validate_prepared_sizes (log : Log) (operation result : bytes) : Result () Error :=
  if max_inline_operation_bytes (log_options log) <? len operation
  then Err (LimitExceeded "inline operation bytes")
  else if max_inline_result_bytes (log_options log) <? len result
  then Err (LimitExceeded "inline result bytes")
  else Ok ().

Definition validate_object_count (log : Log) (objects : list ObjectRef) : Result () Error :=
  if max_object_refs (log_options log) <? len objects
  then Err (LimitExceeded "object references") else Ok ().

Definition publication_objects (log : Log) (objects : list ObjectRef) : Result Z Error :=
  let? count := subtree_objects objects in
  if negb (match usize_try_from count with
           | Some count => count <=? max_collection_objects (log_options log)
           | None => false
           end)
  then Err (LimitExceeded "publication objects")
  else Ok count.

Definition validate_dependencies (log : Log) (objects : list ObjectRef) : Result () Error :=
  do? validate_object_count log objects;
  if existsb (λ object, bool_decide (obj_kind object = Checkpoint)) objects
  then Err (invalid "application dependencies cannot name a checkpoint")
  else
    do? publication_objects log objects;
    Ok ().

Definition staged_object (log : Log) (view : View) (object : ObjectRef) : StagedObject :=
  MkStagedObject object (log_staging_domain log) (head_collection_epoch (view_head view)).

Definition validate_staged_object (log : Log) (view : View) (object : StagedObject) : Result () Error :=
  if negb (staged_domain object =? log_staging_domain log)
     || negb (staged_epoch object =? head_collection_epoch (view_head view))
  then Err InvalidStagedObject
  else Ok ().

Fixpoint validate_each_staged (log : Log) (view : View) (objects : list StagedObject) : Result () Error :=
  match objects with
  | [] => Ok ()
  | object :: objects => do? validate_staged_object log view object; validate_each_staged log view objects
  end.

Definition validate_staged_objects (log : Log) (view : View) (objects : list StagedObject)
    : Result () Error :=
  do? validate_view log view;
  if max_object_refs (log_options log) <? len objects
  then Err (LimitExceeded "object references")
  else validate_each_staged log view objects.

Definition proof_matches (log : Log) (proof : Z) : bool := proof =? log_staging_domain log.

Definition validate_head_size (options : Options) (b : bytes) : Result () Error :=
  if max_head_bytes options <? len b then Err (LimitExceeded "encoded head bytes") else Ok ().

Definition validate_checkpoint_bytes (log : Log) (length : Z) : Result () Error :=
  if max_checkpoint_bytes (log_options log) <? length
  then Err (LimitExceeded "encoded checkpoint bytes")
  else if max_object_bytes (log_options log) <? length
  then Err (LimitExceeded "object bytes")
  else Ok ().

Definition validate_commit_position (log : Log) (view : View) (transaction_id : TransactionId)
    : Result () Error :=
  if max_tail_entries (log_options log) <=? len (head_tail (view_head view))
  then Err (LimitExceeded "active tail entries")
  else if existsb (λ entry, bool_decide (commit_transaction_id entry = transaction_id))
            (head_entries (view_head view))
  then Err (invalid "the transaction ID is already committed")
  else Ok ().

Definition validate_prepared (log : Log) (prepared : PreparedCommit) : Result () Error :=
  do? validate_view log (prep_view prepared);
  do? validate_prepared_sizes log (prep_operation prepared) (prep_result prepared);
  do? validate_dependencies log (prep_objects prepared);
  validate_commit_position log (prep_view prepared) (prep_transaction_id prepared).

(** [Log::encode_prepared]. *)
Definition prepared_body (log : Log) (prepared : PreparedCommit) : CommitBody := {|
  cb_log_id := store_log_id (log_store log);
  cb_incarnation := log_incarnation log;
  cb_transaction_id := prep_transaction_id prepared;
  cb_expected_tip := tip (view_head (prep_view prepared));
  cb_operation := prep_operation prepared;
  cb_result := prep_result prepared;
  cb_objects := prep_objects prepared
|}.

Definition encode_prepared (log : Log) (prepared : PreparedCommit) : Result (CommitRef * bytes) Error :=
  let b := encode_commit (prepared_body log prepared) in
  if max_commit_bytes (log_options log) <? len b
  then Err (LimitExceeded "encoded commit bytes")
  else
    let? length := ok_or (u64_try_from (len b)) (LimitExceeded "commit byte length") in
    Ok (MkCommitRef (head_next_sequence (view_head (prep_view prepared)))
          (prep_transaction_id prepared) (prep_storage_id prepared) (digest_of b) length, b).

(** *** Views *)

(** [Log::view]: a fresh shared allocation. *)
Definition new_view (head : Head) (version : UpdateVersion) : prog View :=
  let* id := call ENewArc in
  Done (MkView id head version).

(** [Log::view_from_stored]. *)
Definition view_from_stored (log : Log) (stored : StoredObject) : io View :=
  let! head := lift (decode_head (stored_bytes stored)) in
  if negb (bool_decide (head_log_id head = store_log_id (log_store log)))
  then fail (invalid "the durable head belongs to another log")
  else if negb (bool_decide (head_incarnation head = log_incarnation log))
  then fail (invalid "the durable head belongs to another log incarnation")
  else if negb (bool_decide (head_options head = log_options log))
  then fail (ConfigurationMismatch "options")
  else
    let* view := new_view head (stored_version stored) in
    ok view.

(** [Log::head_from_stored] and [load_existing_head]. *)
Definition head_from_stored (st : ScopedStore) (options : Options) (stored : StoredObject)
    : Result Head Error :=
  let? head := decode_head (stored_bytes stored) in
  if negb (bool_decide (head_log_id head = store_log_id st))
  then Err (invalid "the durable head belongs to another log")
  else if negb (bool_decide (head_options head = options))
  then Err (ConfigurationMismatch "options")
  else Ok head.

Definition load_existing_head (st : ScopedStore) (options : Options) : io (Head * UpdateVersion) :=
  let! read := store_read st HeadKey (max_head_bytes options) in
  let! stored := lift (ok_or read LogNotFound) in
  let! head := lift (head_from_stored st options stored) in
  ok (head, stored_version stored).

(** [Log::load]. *)
Definition load (log : Log) : io View :=
  let! read := store_read (log_store log) HeadKey (max_head_bytes (log_options log)) in
  let! stored := lift (ok_or read (invalid "the opened log has no durable head")) in
  view_from_stored log stored.

(** [Log::refresh]. *)
Definition refresh (log : Log) (view : View) : io (option View) :=
  do! lift (validate_view log view);
  let! read := read_if_changed (log_store log) HeadKey (view_version view)
                 (max_head_bytes (log_options log)) in
  match read with
  | NotModified => ok None
  | Modified stored => let! v := view_from_stored log stored in ok (Some v)
  | Missing => fail (invalid "the opened log has no durable head")
  end.

(** [Log::missing_read_error]: the error that explains a missing object. *)
Definition missing_read_error (log : Log) (view : View) : io Error :=
  let! current := load log in
  match Z.compare (head_collection_epoch (view_head current)) (head_collection_epoch (view_head view)) with
  | Gt => ok ViewExpired
  | Eq => ok CorruptObject
  | Lt => fail (invalid "the durable collection epoch precedes the supplied view")
  end.

(** *** Immutable objects *)

(** [Log::verify_object]. *)
Definition verify_object (object : ObjectRef) (b : bytes) : Result () Error :=
  do? validate_count object;
  let? actual_len := ok_or (u64_try_from (len b)) (LimitExceeded "object byte length") in
  if negb (actual_len =? obj_len object) || negb (bool_decide (digest_of b = obj_digest object))
  then Err CorruptObject
  else Ok ().

(** [Log::read_immutable_optional], [read_immutable] and [read_immutable_for_view]. *)
Definition read_immutable_optional (log : Log) (object : ObjectRef) : io (option bytes) :=
  let! declared_len := lift (ok_or (usize_try_from (obj_len object)) (LimitExceeded "object byte length")) in
  if max_object_bytes (log_options log) <? declared_len
  then fail (LimitExceeded "object bytes")
  else
    let! read := store_read (log_store log) (object_key log object) declared_len in
    match read with
    | None => ok None
    | Some stored =>
        do! lift (verify_object object (stored_bytes stored));
        ok (Some (stored_bytes stored))
    end.

Definition read_immutable (log : Log) (object : ObjectRef) : io bytes :=
  let! read := read_immutable_optional log object in
  lift (ok_or read (invalid "a referenced object is missing")).

Definition read_immutable_for_view (log : Log) (view : View) (object : ObjectRef) : io bytes :=
  let! read := read_immutable_optional log object in
  match read with
  | None => let! e := missing_read_error log view in fail e
  | Some b => ok b
  end.

(** [Log::verify_object_durable]. *)
Definition verify_object_durable (log : Log) (object : ObjectRef) : io () :=
  let! declared_len := lift (ok_or (usize_try_from (obj_len object)) (LimitExceeded "object byte length")) in
  if max_object_bytes (log_options log) <? declared_len
  then fail (LimitExceeded "object bytes")
  else
    let! read := store_read_integrity (log_store log) (object_key log object) declared_len in
    let! '(d, length) := lift (ok_or read (invalid "a referenced object is missing")) in
    if negb (bool_decide (d = obj_digest object)) || negb (length =? obj_len object)
    then fail CorruptObject
    else ok ().

(** [Log::decode_node_reference]. *)
Definition decode_node_reference (log : Log) (object : ObjectRef) (b : bytes) : Result NodeBody Error :=
  let? node := decode_node b (log_options log) in
  let? count := subtree_objects (node_children node) in
  if negb (obj_subtree_objects object =? count) then Err CorruptObject else Ok node.

(** [Log::decode_checkpoint_reference]. *)
Definition decode_checkpoint_reference (log : Log) (reference : CheckpointRef) (b : bytes)
    : Result CheckpointBody Error :=
  let? checkpoint := decode_checkpoint b in
  do? validate_dependencies log (kb_objects checkpoint);
  let? count := subtree_objects (kb_objects checkpoint) in
  if negb (obj_subtree_objects (checkpoint_object reference) =? count) then Err CorruptObject
  else if negb (bool_decide (kb_log_id checkpoint = store_log_id (log_store log)))
       || negb (bool_decide (kb_incarnation checkpoint = log_incarnation log))
       || negb (kb_through_sequence checkpoint =? through_sequence reference)
       || negb (bool_decide (kb_through_commit checkpoint = through_commit reference))
  then Err (invalid "a checkpoint does not match its index reference")
  else Ok checkpoint.

(** [Log::load_checkpoint] and [load_checkpoint_for_view]. *)
Definition load_checkpoint (log : Log) (reference : CheckpointRef) : io CheckpointBody :=
  let! b := read_immutable log (checkpoint_object reference) in
  lift (decode_checkpoint_reference log reference b).

Definition load_checkpoint_for_view (log : Log) (view : View) (reference : CheckpointRef)
    : io CheckpointBody :=
  let! b := read_immutable_for_view log view (checkpoint_object reference) in
  lift (decode_checkpoint_reference log reference b).

(** *** Commits *)

(** The checks of [read_commit_optional] on a stored commit. *)
Definition commit_record_of (log : Log) (reference : CommitRef) (b : bytes) : Result CommitRecord Error :=
  let? length := ok_or (u64_try_from (len b)) (LimitExceeded "commit byte length") in
  if negb (length =? commit_len reference) || negb (bool_decide (digest_of b = commit_digest reference))
  then Err CorruptObject
  else
    let? commit := decode_commit b in
    do? validate_prepared_sizes log (cb_operation commit) (cb_result commit);
    do? validate_dependencies log (cb_objects commit);
    if negb (bool_decide (cb_log_id commit = store_log_id (log_store log)))
       || negb (bool_decide (cb_incarnation commit = log_incarnation log))
       || negb (bool_decide (cb_transaction_id commit = commit_transaction_id reference))
    then Err (invalid "a commit does not match its head reference")
    else Ok (MkCommitRecord reference (cb_expected_tip commit) (cb_operation commit)
               (cb_result commit) (cb_objects commit)).

(** [Log::read_commit_optional]. *)
Definition read_commit_optional (log : Log) (reference : CommitRef) : io (option CommitRecord) :=
  let! max := lift (ok_or (u64_try_from (max_commit_bytes (log_options log)))
                      (LimitExceeded "encoded commit bytes")) in
  if max <? commit_len reference then fail (LimitExceeded "encoded commit bytes")
  else
    let! declared_len := lift (ok_or (usize_try_from (commit_len reference))
                                 (LimitExceeded "commit byte length")) in
    let* read := store_read (log_store log) (commit_key log reference) declared_len in
    let! stored := lift (map_err read (λ error,
      if bool_decide (error = LimitExceeded "read bytes") then CorruptObject else error)) in
    match stored with
    | None => ok None
    | Some stored => let! r := lift (commit_record_of log reference (stored_bytes stored)) in ok (Some r)
    end.

(** [Log::read_commit]. *)
Definition read_commit (log : Log) (reference : CommitRef) : io CommitRecord :=
  let! read := read_commit_optional log reference in
  lift (ok_or read (invalid "a referenced commit is missing")).

(** [Log::tail_records], consumed by [step]: records in sequence order, each linked to
    its predecessor. *)
Fixpoint tail_loop {S} (log : Log) (view : View) (refs : list CommitRef) (expected_tip : option Digest)
    (step : S → CommitRecord → Result S Error) (s : S) : io S :=
  match refs with
  | [] => ok s
  | reference :: refs =>
      let! read := read_commit_optional log reference in
      match read with
      | None => let! e := missing_read_error log view in fail e
      | Some record =>
          if negb (bool_decide (record_expected_tip record = expected_tip))
          then fail (invalid "the commit tail has a broken parent chain")
          else
            let! s := lift (step s record) in
            tail_loop log view refs (Some (commit_digest (record_reference record))) step s
      end
  end.

Definition tail_records {S} (log : Log) (view : View) (step : S → CommitRecord → Result S Error) (s : S)
    : io S :=
  do! lift (validate_view log view);
  tail_loop log view (head_tail (view_head view)) (through_commit <$> head_checkpoint (view_head view)) step s.

(** [Log::remember_tail], [tail_is_verified] and [verify_tail]. *)
Definition remember_tail (log : Log) (view : View) : io () :=
  let* _ := call (ESetTail (view_id view) (log_staging_domain log)) in ok ().

Definition tail_is_verified (log : Log) (view : View) : io bool :=
  let* proof := call (EGetTail (view_id view)) in
  ok (match proof with Some proof => proof_matches log proof | None => false end).

Definition verify_tail (log : Log) (view : View) : io () :=
  do! lift (validate_view log view);
  let! verified := tail_is_verified log view in
  if verified then ok ()
  else
    do! tail_records log view (λ _ _, Ok ()) ();
    remember_tail log view.

(** *** Collection plans *)

(** When a missing plan explains an old view: the reader's head fell behind a
    completed collection. *)
Definition plan_superseded (current head : Head) (reference : CollectionPlanRef) : bool :=
  (head_generation head <? head_generation current)
  && negb (bool_decide (head_active_plan current = Some reference))
  && ((head_collection_epoch head <? head_collection_epoch current)
      || ((head_collection_epoch current =? head_collection_epoch head)
          && bool_decide (head_active_plan current = None))).

(** [Log::read_collection_plan]. *)
Definition read_collection_plan (log : Log) (head : Head) (reference : CollectionPlanRef)
    : io CollectionPlan :=
  let! declared_len := lift (ok_or (usize_try_from (plan_len reference))
                               (LimitExceeded "collection plan byte length")) in
  if max_collection_plan_bytes (log_options log) <? declared_len
  then fail (LimitExceeded "encoded collection plan bytes")
  else
    let! read := store_read (log_store log)
                   (Immutable (collection_plan_key (head_incarnation head) reference)) declared_len in
    match read with
    | None =>
        let! current := load log in
        if plan_superseded (view_head current) head reference
        then fail ViewExpired
        else fail (invalid "the active collection plan is missing")
    | Some stored =>
        if negb (len (stored_bytes stored) =? declared_len)
           || negb (bool_decide (digest_of (stored_bytes stored) = plan_digest reference))
        then fail CorruptObject
        else
          let! plan := lift (decode_collection_plan (stored_bytes stored) (log_options log)) in
          if negb (bool_decide (plan_log_id plan = store_log_id (log_store log)))
             || negb (plan_collection_epoch plan =? head_collection_epoch head)
          then fail (invalid "the collection plan does not match its head fence")
          else ok plan
    end.

(** [Log::active_collection_candidates]: loads once per view. *)
Definition active_collection_candidates (log : Log) (view : View) : io (option (list CollectionCandidate)) :=
  match head_active_plan (view_head view) with
  | None => ok None
  | Some plan_ref =>
      let* cached := call (EGetCandidates (view_id view)) in
      match cached with
      | Some candidates => ok (Some candidates)
      | None =>
          let* cached := call (EGetCandidates (view_id view)) in
          match cached with
          | Some candidates => ok (Some candidates)
          | None =>
              let! plan := read_collection_plan log (view_head view) plan_ref in
              let* candidates := call (EInitCandidates (view_id view) (plan_candidates plan)) in
              ok (Some candidates)
          end
      end
  end.

(** *** The object graph *)

Definition Visited : Type := gmap ImmutableKey (Z * Z).

(** [Log::enqueue_object]. *)
Definition enqueue_object (log : Log) (object : ObjectRef) (visited : Visited)
    (blocked : option (list CollectionCandidate)) (pending : list ObjectRef)
    : Result (Visited * list ObjectRef) Error :=
  if bool_decide (obj_kind object = Checkpoint)
  then Err (invalid "application dependencies cannot name a checkpoint")
  else
    do? validate_count object;
    let key := object_immutable_key log object in
    if is_blocked blocked key then Err CollectionFence
    else
      let metadata := (obj_len object, obj_subtree_objects object) in
      match visited !! key with
      | Some declared =>
          if negb (bool_decide (declared = metadata)) then Err CorruptObject else Ok (visited, pending)
      | None =>
          let visited := <[key := metadata]> visited in
          if max_collection_objects (log_options log) <? Z.of_nat (size visited)
          then Err (LimitExceeded "collection live objects")
          else
            let? length := ok_or (usize_try_from (obj_len object)) (LimitExceeded "object byte length") in
            if max_object_bytes (log_options log) <? length
            then Err (LimitExceeded "object bytes")
            else Ok (visited, pending ++ [object])
      end.

Fixpoint enqueue_all (log : Log) (objects : list ObjectRef) (visited : Visited)
    (blocked : option (list CollectionCandidate)) (pending : list ObjectRef)
    : Result (Visited * list ObjectRef) Error :=
  match objects with
  | [] => Ok (visited, pending)
  | object :: objects =>
      let? '(visited, pending) := enqueue_object log object visited blocked pending in
      enqueue_all log objects visited blocked pending
  end.

(** The admission loop of [mark_object_graph]: starts reads while fewer than
    [MAX_CONCURRENT_READS] are active and their declared bytes fit. *)
Fixpoint start_reads (log : Log) (mode : GraphWalk) (pending : list ObjectRef)
    (reads : list (Z * ObjectRef)) (active_bytes : Z)
    : Result (list ObjectRef * list (Z * ObjectRef) * Z) Error :=
  match pending with
  | [] => Ok ([], reads, active_bytes)
  | object :: rest =>
      if (MAX_CONCURRENT_READS <=? length reads)%nat then Ok (pending, reads, active_bytes)
      else if bool_decide (mode = Reachability) && bool_decide (obj_kind object = Blob)
      then start_reads log mode rest reads active_bytes
      else
        let? b := ok_or (usize_try_from (obj_len object)) (LimitExceeded "object byte length") in
        if negb (bool_decide (reads = []))
           && (saturating_sub (max_object_bytes (log_options log)) active_bytes <? b)
        then Ok (pending, reads, active_bytes)
        else
          let? active_bytes := ok_or (usize_checked_add active_bytes b) (LimitExceeded "graph read bytes") in
          start_reads log mode rest (reads ++ [(b, object)]) active_bytes
  end.

(** [Log::read_graph_children]. *)
Definition read_graph_children (log : Log) (object : ObjectRef) : io (list ObjectRef) :=
  match obj_kind object with
  | Blob => do! verify_object_durable log object; ok []
  | Node =>
      let! b := read_immutable log object in
      let! node := lift (decode_node_reference log object b) in
      ok (node_children node)
  | Checkpoint => fail (invalid "application dependencies cannot name a checkpoint")
  end.

Definition OUT_OF_FUEL : Error := invalid "graph walk turns exhausted".

(** The loop of [mark_object_graph].  A read completes when the scheduler picks it.
    Every turn retires one read of a distinct visited object, so
    [max_collection_objects] bounds the turns. *)
Fixpoint graph_loop (fuel : nat) (log : Log) (blocked : option (list CollectionCandidate))
    (mode : GraphWalk) (visited : Visited) (pending : list ObjectRef)
    (reads : list (Z * ObjectRef)) (active_bytes : Z) : io Visited :=
  match fuel with
  | O => fail OUT_OF_FUEL
  | S fuel =>
      let! '(pending, reads, active_bytes) := lift (start_reads log mode pending reads active_bytes) in
      match reads with
      | [] => ok visited
      | _ :: _ =>
          let* choice := call (ENextRead (length reads)) in
          let index := Nat.modulo choice (length reads) in
          match reads !! index with
          | None => fail OUT_OF_FUEL
          | Some (b, object) =>
              let! children := read_graph_children log object in
              let! '(visited, pending) := lift (enqueue_all log children visited blocked pending) in
              graph_loop fuel log blocked mode visited pending (delete index reads) (active_bytes - b)
          end
      end
  end.

Definition graph_fuel (log : Log) : nat := S (Z.to_nat (max_collection_objects (log_options log))).

(** [Log::mark_object_graph]. *)
Definition mark_object_graph (log : Log) (roots : list ObjectRef) (visited : Visited)
    (blocked : option (list CollectionCandidate)) (mode : GraphWalk) : io Visited :=
  let! '(visited, pending) := lift (enqueue_all log roots visited blocked []) in
  graph_loop (graph_fuel log) log blocked mode visited pending [] 0.

(** [Log::verify_object_graph] and [verify_publication_dependencies]. *)
Definition verify_object_graph (log : Log) (objects : list ObjectRef) : io () :=
  do! mark_object_graph log objects ∅ None VerifyBlobs;
  ok ().

Definition verify_publication_dependencies (log : Log) (view : View) (objects : list ObjectRef)
    : io (option (list CollectionCandidate)) :=
  let! blocked := active_collection_candidates log view in
  do! mark_object_graph log objects ∅ blocked VerifyBlobs;
  ok blocked.

(** [Log::verify_publication]. *)
Definition verify_publication (log : Log) (view : View) (new_key : ImmutableKey)
    (objects : list ObjectRef) (staging : Z) : io () :=
  let! blocked :=
    if proof_matches log staging then active_collection_candidates log view
    else verify_publication_dependencies log view objects in
  if is_blocked blocked new_key then fail CollectionFence else ok ().

(** [Log::verify_published_commit] and [verify_checkpoint]. *)
Definition verify_published_commit (log : Log) (reference : CommitRef) : io () :=
  let! record := read_commit log reference in
  verify_object_graph log (record_objects record).

Definition verify_checkpoint (log : Log) (reference : CheckpointRef) : io () :=
  let! checkpoint := load_checkpoint log reference in
  verify_object_graph log (kb_objects checkpoint).

(** *** Creating immutable objects *)

(** [Log::ensure_immutable]. *)
Definition ensure_immutable (log : Log) (key : StoreKey) (b : bytes) : io () :=
  let* created := store_create (log_store log) key b in
  match created with
  | Ok true => ok ()
  | _ =>
      let create_error := match created with Err e => Some e | Ok _ => None end in
      let! read := store_read (log_store log) key (len b) in
      match read with
      | Some stored => if bool_decide (stored_bytes stored = b) then ok () else fail CorruptObject
      | None => fail (default (invalid "an immutable object is missing") create_error)
      end
  end.

(** The loop of [create_fresh_object_with]. *)
Fixpoint fresh_object_attempts (attempts : nat) (log : Log) (kind : ObjectKind) (b : bytes)
    (length subtree : Z) (blocked : option (list CollectionCandidate)) : io ObjectRef :=
  match attempts with
  | O => fail (LimitExceeded "fresh physical storage identity")
  | S attempts =>
      let* id := call ENewUuid in
      let object := MkObjectRef kind (MkStorageId id) (digest_of b) length subtree in
      if is_blocked blocked (object_immutable_key log object)
      then fresh_object_attempts attempts log kind b length subtree blocked
      else
        let! created := store_create (log_store log) (object_key log object) b in
        if created then ok object
        else fresh_object_attempts attempts log kind b length subtree blocked
  end.

(** [Log::create_fresh_object_with], called with [StorageId::new]. *)
Definition create_fresh_object_with (log : Log) (kind : ObjectKind) (b : bytes) (subtree : Z)
    (blocked : option (list CollectionCandidate)) : io ObjectRef :=
  let! length := lift (ok_or (u64_try_from (len b)) (LimitExceeded "object byte length")) in
  fresh_object_attempts MAX_FRESH_OBJECT_ATTEMPTS log kind b length subtree blocked.

(** The loop of [create_collection_plan]. *)
Fixpoint plan_attempts (attempts : nat) (log : Log) (b : bytes) (length : Z) : io CollectionPlanRef :=
  match attempts with
  | O => fail (LimitExceeded "fresh physical storage identity")
  | S attempts =>
      let* id := call ENewUuid in
      let reference := MkCollectionPlanRef (MkStorageId id) (digest_of b) length in
      let! created := store_create (log_store log)
        (Immutable (collection_plan_key (log_incarnation log) reference)) b in
      if created then ok reference else plan_attempts attempts log b length
  end.

(** [Log::create_collection_plan]; its [MAX_ATTEMPTS] is 16. *)
Definition create_collection_plan (log : Log) (plan : CollectionPlan) : io CollectionPlanRef :=
  let! b := lift (encode_collection_plan plan (log_options log)) in
  let! length := lift (ok_or (u64_try_from (len b)) (LimitExceeded "collection plan byte length")) in
  plan_attempts 16 log b length.

(** [Log::cleanup_collection_plan]. *)
Definition cleanup_collection_plan (log : Log) (key : ImmutableKey) : io () :=
  let* deleted := delete_immutable_batch (log_store log) [key] in
  do! lift (publication_evidence deleted);
  ok ().

(** *** Publishing a head *)

(** [Log::update_head]. *)
Definition update_head (log : Log) (current : View) (candidate : Head) : io (option View) :=
  let! b := lift (encode_head candidate) in
  do! lift (validate_head_size (log_options log) b);
  let! version := store_update (log_store log) HeadKey b (view_version current) in
  match version with
  | None => ok None
  | Some version => let* view := new_view candidate version in ok (Some view)
  end.

(** [current.head() == view.head() && current.storage_version() == ..]. *)
Definition same_view (a b : View) : bool :=
  bool_decide (view_head a = view_head b) && bool_decide (view_version a = view_version b).

(** The loop of [publish_head_compatible], with [more] attempts after this one. *)
Fixpoint publish_attempts (more : nat) (log : Log) (source view : View)
    (candidate : View → Result Head Error) (compatible : Head → Head → bool) : io HeadPublication :=
  let! head := lift (candidate view) in
  let* updated := update_head log view head in
  match updated with
  | Ok (Some next) => ok (Updated next)
  | Ok None =>
      let* loaded := load log in
      let! evidence := lift (publication_evidence loaded) in
      match evidence with
      | None => ok PublicationPending
      | Some current =>
          if negb (compatible (view_head source) (view_head current))
          then ok (Changed current (head_generation (view_head view)))
          else if same_view current view then ok PublicationPending
          else if head_generation (view_head current) <=? head_generation (view_head view)
          then fail (invalid "head version changed without a monotonic head change")
          else match more with
          | O => ok (Contended current)
          | S more => publish_attempts more log source current candidate compatible
          end
      end
  | Err (EStore _) => ok PublicationPending
  | Err error => fail error
  end.

(** [Log::publish_head_compatible], [publish_head] and [publish_checkpoint_head]. *)
Definition publish_head_compatible (log : Log) (source : View) (candidate : View → Result Head Error)
    (compatible : Head → Head → bool) : io HeadPublication :=
  publish_attempts (MAX_HEAD_PUBLICATION_ATTEMPTS - 1) log source source candidate compatible.

Definition publish_head (log : Log) (source : View) (candidate : View → Result Head Error)
    : io HeadPublication :=
  publish_head_compatible log source candidate has_same_publication_base.

Definition publish_checkpoint_head (log : Log) (source : View) (candidate : View → Result Head Error)
    : io HeadPublication :=
  publish_head_compatible log source candidate has_checkpoint_append_base.
End log.
