(* ===== verification/LogOps.v ===== *)
(** * The public operations of a log

    Opening, retention, staging and reading of objects, commits and their recovery,
    checkpoints, and collection: the public half of [src/log.rs]. *)

From S2P Require Import Prelude Types Head Cbor Wire Format Prog Store Log.

(** ** Outcomes *)

(** [PendingCommit] and [PendingCheckpoint]. *)
Record PendingCommit := MkPendingCommit {
  pending_prepared : option PreparedCommit;
  pending_commit_ref : CommitRef;
  pending_token : option bytes
}.

Record PendingCheckpoint := MkPendingCheckpoint {
  pc_view : View;
  pc_staging_domain : Z;
  pc_through : CommitRef;
  pc_checkpoint : CheckpointRef
}.

Inductive CommitStatus :=
  | CommitCommitted (v : View)
  | CommitConflict (v : View)
  | CommitPending (p : PendingCommit).

Inductive Resolution :=
  | ResCommitted (v : View)
  | ResNotCommitted (v : View)
  | ResStillPending (p : PendingCommit)
  | ResExpired (v : View).

Definition resolution_of (c : Classified) : Resolution :=
  match c with
  | Committed v => ResCommitted v
  | NotCommitted v => ResNotCommitted v
  | Expired v => ResExpired v
  end.

Inductive CheckpointStatus :=
  | CheckpointPublished (v : View)
  | CheckpointConflict (v : View)
  | CheckpointPending (p : PendingCheckpoint).

Inductive CheckpointResolution :=
  | CResPublished (v : View)
  | CResNotPublished (v : View)
  | CResStillPending (p : PendingCheckpoint)
  | CResExpired (v : View).

Inductive RetentionStatus :=
  | RetentionApplied (v : View)
  | RetentionActiveCollection (v : View)
  | RetentionConflict (v : View)
  | RetentionPending.

Record CollectionReport := MkCollectionReport {
  candidate_count : Z;
  report_candidate_bytes : Z;
  delete_attempts : Z
}.

Inductive CollectionStart :=
  | StartEmpty (report : CollectionReport)
  | StartInstalled (v : View) (report : CollectionReport)
  | StartActive (v : View)
  | StartRetained (v : View)
  | StartConflict (v : View)
  | StartPending.

Inductive CollectionFinish :=
  | FinishComplete (v : View) (report : CollectionReport)
  | FinishConflict (v : View) (report : CollectionReport)
  | FinishPending (report : CollectionReport).

Section ops.
Context `{Target} `{Blake3} `{Cbor} `{!DerivedDecode} `{ObjectPath} `{Text}.

(** ** Opening *)

(** The branch of [Log::open] that creates a missing head. *)
Definition open_create (st : ScopedStore) (options : Options) : io Uuid :=
  let* u := call ENewUuid in
  let initial := head_empty (store_log_id st) u options in
  let! initial_bytes := lift (encode_head initial) in
  do! lift (validate_head_size options initial_bytes);
  let* created := store_create st HeadKey initial_bytes in
  match created with
  | Ok true => ok (head_incarnation initial)
  | Ok false =>
      let! '(head, _) := load_existing_head st options in
      ok (head_incarnation head)
  | Err create_error =>
      let! read := store_read st HeadKey (max_head_bytes options) in
      match read with
      | Some stored => let! head := lift (head_from_stored st options stored) in ok (head_incarnation head)
      | None => fail create_error
      end
  end.

(** [Log::open]. *)
Definition log_open (backend : ValidatedBackend) (log_id : LogId) (options : Options) : io Log :=
  let st := backend_scope backend log_id in
  let! read := store_read st HeadKey (max_head_bytes options) in
  let! incarnation :=
    match read with
    | Some stored => let! head := lift (head_from_stored st options stored) in ok (head_incarnation head)
    | None => open_create st options
    end in
  let* domain := call ENewArc in
  ok (MkLog st options incarnation domain).

(** [Log::open_existing_with_view] and [open_existing]. *)
Definition open_existing_with_view (backend : ValidatedBackend) (log_id : LogId) (options : Options)
    : io (Log * View) :=
  let st := backend_scope backend log_id in
  let! '(head, version) := load_existing_head st options in
  let* domain := call ENewArc in
  let log := MkLog st options (head_incarnation head) domain in
  let* view := new_view head version in
  ok (log, view).

Definition open_existing (backend : ValidatedBackend) (log_id : LogId) (options : Options) : io Log :=
  let! '(log, _) := open_existing_with_view backend log_id options in
  ok log.

(** ** Retention *)

Definition retention_status (state : RetentionHeadState) (view : View) : RetentionStatus :=
  match state with
  | Applied => RetentionApplied view
  | ActiveCollection => RetentionActiveCollection view
  | Conflict => RetentionConflict view
  end.

(** The loop of [change_retention], with [more] attempts after this one. *)
Fixpoint retention_attempts (more : nat) (log : Log) (view current : View) (change : RetentionChange)
    : io RetentionStatus :=
  if is_acquire change
     && (max_retention_ids (log_options log) <=? Z.of_nat (size (head_retention_ids (view_head current))))
  then fail (LimitExceeded "retention IDs")
  else
    let! candidate := lift (advance_generation (retention_apply change (view_head current))) in
    let* updated := update_head log current candidate in
    match updated with
    | Ok (Some next) => ok (RetentionApplied next)
    | Ok None =>
        let* loaded := load log in
        let! evidence := lift (publication_evidence loaded) in
        match evidence with
        | None => ok RetentionPending
        | Some next =>
            if same_view next current then ok RetentionPending
            else if is_acquire change
              && negb (head_collection_epoch (view_head next) =? head_collection_epoch (view_head view))
            then ok (RetentionConflict next)
            else
              let state := retention_classify change (view_head next) in
              match more with
              | S more =>
                  if is_acquire change && bool_decide (state = Conflict)
                  then
                    if head_generation (view_head next) <=? head_generation (view_head current)
                    then fail (invalid "head version changed without a monotonic head change")
                    else retention_attempts more log view next change
                  else ok (retention_status state next)
              | O => ok (retention_status state next)
              end
        end
    | Err (EStore _) => ok RetentionPending
    | Err error => fail error
    end.

(** [Log::change_retention]. *)
Definition change_retention (log : Log) (view : View) (change : RetentionChange) : io RetentionStatus :=
  do! lift (validate_view log view);
  let source := retention_classify change (view_head view) in
  if negb (bool_decide (source = Conflict)) then
    let! refreshed := refresh log view in
    match refreshed with
    | None => ok (retention_status source view)
    | Some current =>
        if is_acquire change
           && negb (head_collection_epoch (view_head current) =? head_collection_epoch (view_head view))
        then ok (RetentionConflict current)
        else ok (retention_status (retention_classify change (view_head current)) current)
    end
  else retention_attempts (MAX_HEAD_PUBLICATION_ATTEMPTS - 1) log view view change.

(** [Log::retain], [release_retention] and [clear_retentions_after_drain]. *)
Definition retain (log : Log) (view : View) (id : RetentionId) : io RetentionStatus :=
  change_retention log view (Acquire id).
Definition release_retention (log : Log) (view : View) (id : RetentionId) : io RetentionStatus :=
  change_retention log view (Release id).
Definition clear_retentions_after_drain (log : Log) (view : View) : io RetentionStatus :=
  change_retention log view ClearAfterDrain.

(** ** Objects *)

(** [Log::put_object]. *)
Definition put_object (log : Log) (view : View) (b : bytes) : io StagedObject :=
  do! lift (validate_view log view);
  if max_object_bytes (log_options log) <? len b then fail (LimitExceeded "object bytes")
  else
    let! blocked := active_collection_candidates log view in
    let! object := create_fresh_object_with log Blob b 1 blocked in
    ok (staged_object log view object).

(** [Log::node_size]. *)
Definition log_node_size (log : Log) (payload_bytes : Z) (children : list ObjectRef) : Result Z Error :=
  let? s := node_size payload_bytes ((λ child, (obj_len child, obj_subtree_objects child)) <$> children)
              (log_options log) in
  Ok (size_encoded s).

(** [Log::put_node]. *)
Definition put_node (log : Log) (view : View) (payload : bytes) (children : list StagedObject)
    : io StagedObject :=
  do! lift (validate_staged_objects log view children);
  let node := MkNodeBody payload (staged_object_ref <$> children) in
  let! subtree := lift (subtree_objects (node_children node)) in
  let! b := lift (encode_node node (log_options log)) in
  let! blocked := active_collection_candidates log view in
  let! object := create_fresh_object_with log Node b subtree blocked in
  ok (staged_object log view object).

(** [Log::stage_objects]. *)
Definition stage_objects (log : Log) (view : View) (objects : list ObjectRef) : io (list StagedObject) :=
  do! lift (validate_view log view);
  do! lift (validate_dependencies log objects);
  do! verify_publication_dependencies log view objects;
  ok (staged_object log view <$> objects).

(** [Log::read_object], [read_node] and [read_staged_node]. *)
Definition read_object (log : Log) (view : View) (object : ObjectRef) : io bytes :=
  do! lift (validate_view log view);
  if negb (bool_decide (obj_kind object = Blob))
  then fail (invalid "a payload read requires a blob reference")
  else read_immutable_for_view log view object.

Definition read_node (log : Log) (view : View) (object : ObjectRef) : io ReferenceNode :=
  do! lift (validate_view log view);
  if negb (bool_decide (obj_kind object = Node))
  then fail (invalid "a node read requires a reference-node object")
  else
    let! b := read_immutable_for_view log view object in
    let! node := lift (decode_node_reference log object b) in
    ok (MkReferenceNode (node_payload node) (node_children node)).

Definition read_staged_node (log : Log) (view : View) (node : StagedObject)
    : io (bytes * list StagedObject) :=
  do! lift (validate_view log view);
  do! lift (validate_staged_object log view node);
  let! node := read_node log view (staged_object_ref node) in
  ok (ref_payload node, staged_object log view <$> ref_children node).

(** ** Commits *)

(** [Log::preflight]. *)
Definition preflight (log : Log) (view : View) (transaction_id : TransactionId) : Result () Error :=
  do? validate_view log view;
  validate_commit_position log view transaction_id.

(** [Log::prepare]; the storage identity is fresh. *)
Definition prepare (log : Log) (view : View) (transaction_id : TransactionId)
    (operation result : bytes) (objects : list StagedObject) : io PreparedCommit :=
  do! lift (validate_staged_objects log view objects);
  do! lift (publication_objects log (staged_object_ref <$> objects));
  do! lift (validate_prepared_sizes log operation result);
  do! lift (validate_commit_position log view transaction_id);
  let* id := call ENewUuid in
  ok (MkPreparedCommit view (log_staging_domain log) transaction_id (MkStorageId id) operation result
        (staged_object_ref <$> objects)).

Definition with_domain (prepared : PreparedCommit) (domain : Z) : PreparedCommit :=
  MkPreparedCommit (prep_view prepared) domain (prep_transaction_id prepared) (prep_storage_id prepared)
    (prep_operation prepared) (prep_result prepared) (prep_objects prepared).

(** [Log::commit]. *)
Definition commit (log : Log) (prepared : PreparedCommit) : io CommitStatus :=
  do! lift (validate_prepared log prepared);
  let! '(commit_ref, commit_bytes) := lift (encode_prepared log prepared) in
  do! verify_publication log (prep_view prepared) (commit_immutable_key log commit_ref)
        (prep_objects prepared) (prep_staging_domain prepared);
  do! ensure_immutable log (commit_key log commit_ref) commit_bytes;
  let prepared := with_domain prepared (log_staging_domain log) in
  let pending := MkPendingCommit (Some prepared) commit_ref None in
  let! published := publish_head log (prep_view prepared) (λ v, candidate_head (view_head v) commit_ref) in
  match published with
  | Updated next =>
      let! verified := tail_is_verified log (prep_view prepared) in
      do! (if verified then remember_tail log next else ok ());
      ok (CommitCommitted next)
  | PublicationPending => ok (CommitPending pending)
  | Contended current => ok (CommitConflict current)
  | Changed current _ =>
      let! classified := lift (classify_resolution commit_ref current) in
      match classified with
      | Committed v => ok (CommitCommitted v)
      | NotCommitted v => ok (CommitConflict v)
      | Expired _ => ok (CommitPending pending)
      end
  end.

(** [Log::validate_pending]. *)
Definition validate_pending (log : Log) (prepared : PreparedCommit) (commit_ref : CommitRef)
    : Result () Error :=
  do? validate_view log (prep_view prepared);
  do? validate_prepared_sizes log (prep_operation prepared) (prep_result prepared);
  do? validate_dependencies log (prep_objects prepared);
  if max_tail_entries (log_options log) <=? len (head_tail (view_head (prep_view prepared)))
  then Err (LimitExceeded "active tail entries")
  else
    let? '(expected_ref, _) := encode_prepared log prepared in
    if negb (bool_decide (expected_ref = commit_ref))
    then Err (invalid "pending commit evidence does not match its candidate")
    else Ok ().

(** [publication_evidence(p.await)?.is_none()]. *)
Definition evidence_missing {A} (p : io A) : io bool :=
  let* r := p in
  let! evidence := lift (publication_evidence r) in
  ok (match evidence with None => true | Some _ => false end).

(** The body of [Log::resolve] for evidence that holds its prepared commit. *)
Definition resolve_prepared (log : Log) (prepared : PreparedCommit) (commit_ref : CommitRef)
    (token : option bytes) : io Resolution :=
  let pending := MkPendingCommit (Some prepared) commit_ref token in
  do! lift (validate_pending log prepared commit_ref);
  let* loaded := load log in
  let! evidence := lift (publication_evidence loaded) in
  match evidence with
  | None => ok (ResStillPending pending)
  | Some current =>
      let! publication_view := lift (retention_publication_view (prep_view prepared) current) in
      match publication_view with
      | None =>
          let! resolution := lift (classify_resolution commit_ref current) in
          let! unverified :=
            match resolution with
            | Committed v =>
                if tail_contains v commit_ref && negb (proof_matches log (prep_staging_domain prepared))
                then evidence_missing (verify_published_commit log commit_ref)
                else ok false
            | _ => ok false
            end in
          if unverified then ok (ResStillPending pending) else ok (resolution_of resolution)
      | Some publication_view =>
          let! '(_, commit_bytes) := lift (encode_prepared log prepared) in
          let! unverified := evidence_missing (verify_publication log (prep_view prepared)
            (commit_immutable_key log commit_ref) (prep_objects prepared) (prep_staging_domain prepared)) in
          if unverified then ok (ResStillPending pending)
          else
            let! unstaged :=
              if negb (proof_matches log (prep_staging_domain prepared))
              then evidence_missing (ensure_immutable log (commit_key log commit_ref) commit_bytes)
              else ok false in
            if unstaged then ok (ResStillPending pending)
            else
              let pending := MkPendingCommit (Some (with_domain prepared (log_staging_domain log)))
                               commit_ref token in
              let* published := publish_head log publication_view
                (λ v, candidate_head (view_head v) commit_ref) in
              match published with
              | Ok (Updated v) => ok (ResCommitted v)
              | Ok PublicationPending | Err (EStore _) | Err ERequestDenied => ok (ResStillPending pending)
              | Ok (Contended current) => ok (ResNotCommitted current)
              | Err error => fail error
              | Ok (Changed current _) =>
                  let! c := lift (classify_resolution commit_ref current) in
                  ok (resolution_of c)
              end
      end
  end.

(** [Log::recovered_commit_ref]. *)
Definition recovered_body (recovered : RecoveryToken) : CommitBody := {|
  cb_log_id := tok_log_id recovered;
  cb_incarnation := tok_incarnation recovered;
  cb_transaction_id := tok_transaction_id recovered;
  cb_expected_tip := tok_tip recovered;
  cb_operation := tok_operation recovered;
  cb_result := tok_result recovered;
  cb_objects := tok_objects recovered
|}.

Definition recovered_commit_ref (log : Log) (recovered : RecoveryToken) : Result CommitRef Error :=
  if negb (bool_decide (tok_log_id recovered = store_log_id (log_store log)))
  then Err (invalid "the view belongs to another log")
  else if negb (bool_decide (tok_incarnation recovered = log_incarnation log))
  then Err (invalid "the view belongs to another log incarnation")
  else
    let? od := options_digest (log_options log) in
    if negb (bool_decide (tok_options_digest recovered = od)) then Err (ConfigurationMismatch "options")
    else
      do? validate_prepared_sizes log (tok_operation recovered) (tok_result recovered);
      do? validate_dependencies log (tok_objects recovered);
      let commit_bytes := encode_commit (recovered_body recovered) in
      if max_commit_bytes (log_options log) <? len commit_bytes
      then Err (LimitExceeded "encoded commit bytes")
      else
        let? length := ok_or (u64_try_from (len commit_bytes)) (LimitExceeded "commit byte length") in
        Ok (MkCommitRef (tok_next_sequence recovered) (tok_transaction_id recovered)
              (tok_storage_id recovered) (digest_of commit_bytes) length).

(** [Log::resume]. *)
Definition resume (log : Log) (token : bytes) : io Resolution :=
  let! recovered := lift (decode_recovery_token token) in
  let! commit_ref := lift (recovered_commit_ref log recovered) in
  let pending := MkPendingCommit None commit_ref (Some token) in
  let* loaded := load log in
  let! evidence := lift (publication_evidence loaded) in
  match evidence with
  | None => ok (ResStillPending pending)
  | Some current =>
      let head := view_head current in
      let! head_bytes := lift (encode_head head) in
      let full_digest := digest_of head_bytes in
      let exact := bool_decide (view_version current = tok_version recovered)
                   && (head_generation head =? tok_generation recovered)
                   && bool_decide (full_digest = tok_head_digest recovered) in
      let! base := lift (publication_base_digest head) in
      let retention_only := bool_decide (base = tok_publication_base_digest recovered) in
      if exact || (retention_only && (tok_generation recovered <? head_generation head)) then
        if negb (head_next_sequence head =? tok_next_sequence recovered)
           || negb (bool_decide (tip head = tok_tip recovered))
        then fail (invalid "recovery token source fields disagree")
        else
          let* domain := call ENewArc in
          let prepared := MkPreparedCommit current domain (tok_transaction_id recovered)
            (tok_storage_id recovered) (tok_operation recovered) (tok_result recovered)
            (tok_objects recovered) in
          let! '(recomputed, _) := lift (encode_prepared log prepared) in
          if negb (bool_decide (recomputed = commit_ref))
          then fail (invalid "recovery token candidate disagrees with source")
          else
            let! resolution := resolve_prepared log prepared commit_ref None in
            ok (match resolution with ResStillPending _ => ResStillPending pending | other => other end)
      else if retention_only && (head_generation head <=? tok_generation recovered)
      then fail (invalid "head version changed without a monotonic head change")
      else
        let! resolution := lift (classify_resolution commit_ref current) in
        let! unverified :=
          match resolution with
          | Committed v =>
              if tail_contains v commit_ref
              then evidence_missing (verify_published_commit log commit_ref)
              else ok false
          | _ => ok false
          end in
        if unverified then ok (ResStillPending pending) else ok (resolution_of resolution)
  end.

(** [PendingCommit::recovery_token]. *)
Definition pending_recovery_token (pending : PendingCommit) : Result bytes Error :=
  match pending_prepared pending, pending_token pending with
  | Some prepared, _ => encode_recovery_token prepared
  | None, Some token => Ok token
  | None, None => Err (InvalidFormat "pending commit has no recovery evidence")
  end.

(** [Log::resolve]. *)
Definition resolve (log : Log) (pending : PendingCommit) : io Resolution :=
  match pending_prepared pending with
  | None =>
      let! token := lift (pending_recovery_token pending) in
      resume log token
  | Some prepared => resolve_prepared log prepared (pending_commit_ref pending) (pending_token pending)
  end.

(** [Log::read_tail]. *)
Definition read_tail (log : Log) (view : View) : io (list CommitRecord) :=
  let! records := tail_records log view (λ acc record, Ok (acc ++ [record])) [] in
  do! remember_tail log view;
  ok records.

(** [Log::read_tail_record_optional] and [read_tail_record]. *)
Definition read_tail_record_optional (log : Log) (view : View) (index : nat) : io (option CommitRecord) :=
  do! lift (validate_view log view);
  let! reference := lift (ok_or (head_tail (view_head view) !! index)
                            (invalid "history cursor exceeds the active tail")) in
  let expected_tip :=
    match index with
    | O => through_commit <$> head_checkpoint (view_head view)
    | S previous => commit_digest <$> head_tail (view_head view) !! previous
    end in
  let! read := read_commit_optional log reference in
  match read with
  | None => ok None
  | Some record =>
      if negb (bool_decide (record_expected_tip record = expected_tip))
      then fail (invalid "the commit tail has a broken parent chain")
      else ok (Some record)
  end.

Definition read_tail_record (log : Log) (view : View) (index : nat) : io CommitRecord :=
  let! read := read_tail_record_optional log view index in
  match read with
  | Some record => ok record
  | None => let! e := missing_read_error log view in fail e
  end.
End ops.
