(* ===== verification/LogMaintain.v ===== *)
(** * Checkpoints and collection

    Publication and recovery of checkpoints, the live-object walk, and the two halves
    of a collection: installing a fenced deletion plan and executing it.  The
    maintenance operations of [src/log.rs]. *)

From S2P Require Import Prelude Types Head Cbor Wire Format Prog Store Log LogOps.

Section maintain.
Context `{Target} `{Blake3} `{Cbor} `{!DerivedDecode} `{ObjectPath} `{Text}.

(** ** Checkpoints *)

(** The body [publish_checkpoint] stores. *)
Definition checkpoint_body (log : Log) (through : CommitRef) (snapshot : bytes)
    (objects : list StagedObject) : CheckpointBody := {|
  kb_log_id := store_log_id (log_store log);
  kb_incarnation := log_incarnation log;
  kb_through_sequence := commit_sequence through;
  kb_through_commit := commit_digest through;
  kb_snapshot := snapshot;
  kb_objects := staged_object_ref <$> objects
|}.

(** [Log::publish_checkpoint]. *)
Definition publish_checkpoint (log : Log) (view : View) (through : CommitRef) (snapshot : bytes)
    (objects : list StagedObject) : io CheckpointStatus :=
  do! lift (validate_staged_objects log view objects);
  let! subtree := lift (publication_objects log (staged_object_ref <$> objects)) in
  do! verify_tail log view;
  let b := encode_checkpoint (checkpoint_body log through snapshot objects) in
  do! lift (validate_checkpoint_bytes log (len b));
  let! blocked := active_collection_candidates log view in
  let! object := create_fresh_object_with log Checkpoint b subtree blocked in
  let checkpoint := MkCheckpointRef (commit_sequence through) (commit_digest through) object in
  let pending := MkPendingCheckpoint view (log_staging_domain log) through checkpoint in
  let! published := publish_checkpoint_head log view
    (λ v, checkpoint_head (view_head v) through (checkpoint_object checkpoint)) in
  match published with
  | Updated next =>
      do! (if head_next_sequence (view_head next) =? head_next_sequence (view_head view)
           then remember_tail log next else ok ());
      ok (CheckpointPublished next)
  | Changed current attempted_generation =>
      let! evidence := lift (classify_checkpoint checkpoint current attempted_generation) in
      match evidence with
      | EvidencePublished v => ok (CheckpointPublished v)
      | EvidenceNotPublished v => ok (CheckpointConflict v)
      | EvidenceExpired _ => ok (CheckpointPending pending)
      end
  | Contended current => ok (CheckpointConflict current)
  | PublicationPending => ok (CheckpointPending pending)
  end.

(** [Log::verify_checkpoint_publication]. *)
Definition verify_checkpoint_publication (log : Log) (pending : PendingCheckpoint) : io () :=
  let key := object_immutable_key log (checkpoint_object (pc_checkpoint pending)) in
  if proof_matches log (pc_staging_domain pending)
  then verify_publication log (pc_view pending) key [] (pc_staging_domain pending)
  else
    let! checkpoint := load_checkpoint log (pc_checkpoint pending) in
    verify_publication log (pc_view pending) key (kb_objects checkpoint) (pc_staging_domain pending).

(** The branch of [resolve_checkpoint] that retries the publication. *)
Definition retry_checkpoint (log : Log) (pending : PendingCheckpoint) (publication_view : View)
    : io CheckpointResolution :=
  let object := checkpoint_object (pc_checkpoint pending) in
  let! unverified_tail := evidence_missing (verify_tail log (pc_view pending)) in
  let! unverified :=
    if unverified_tail then ok true
    else evidence_missing (verify_checkpoint_publication log pending) in
  if unverified then ok (CResStillPending pending)
  else
    let pending := MkPendingCheckpoint (pc_view pending) (log_staging_domain log)
                     (pc_through pending) (pc_checkpoint pending) in
    let* published := publish_checkpoint_head log publication_view
      (λ v, checkpoint_head (view_head v) (pc_through pending) object) in
    match published with
    | Ok (Updated v) => ok (CResPublished v)
    | Ok PublicationPending | Err (EStore _) | Err ERequestDenied => ok (CResStillPending pending)
    | Ok (Contended current) => ok (CResNotPublished current)
    | Err error => fail error
    | Ok (Changed current attempted_generation) =>
        let! evidence := lift (classify_checkpoint (pc_checkpoint pending) current attempted_generation) in
        match evidence with
        | EvidencePublished v => ok (CResPublished v)
        | EvidenceNotPublished v => ok (CResNotPublished v)
        | EvidenceExpired v => ok (CResExpired v)
        end
    end.

(** The branch of [resolve_checkpoint] whose head can no longer take the candidate. *)
Definition classify_pending_checkpoint (log : Log) (pending : PendingCheckpoint) (current : View)
    : io CheckpointResolution :=
  let! evidence := lift (classify_checkpoint (pc_checkpoint pending) current
                           (head_generation (view_head (pc_view pending)))) in
  match evidence with
  | EvidencePublished v =>
      if proof_matches log (pc_staging_domain pending) then ok (CResPublished v)
      else
        let* verified := verify_checkpoint log (pc_checkpoint pending) in
        match verified with
        | Ok _ => ok (CResPublished v)
        | Err (EStore _) | Err ERequestDenied => ok (CResStillPending pending)
        | Err error => fail error
        end
  | EvidenceNotPublished v => ok (CResNotPublished v)
  | EvidenceExpired v => ok (CResExpired v)
  end.

(** [Log::resolve_checkpoint]. *)
Definition resolve_checkpoint (log : Log) (pending : PendingCheckpoint) : io CheckpointResolution :=
  do! lift (validate_view log (pc_view pending));
  let! original := lift (checkpoint_head (view_head (pc_view pending)) (pc_through pending)
                           (checkpoint_object (pc_checkpoint pending))) in
  if negb (bool_decide (head_checkpoint original = Some (pc_checkpoint pending)))
  then fail (invalid "pending checkpoint evidence does not match its candidate")
  else
    let* loaded := load log in
    let! evidence := lift (publication_evidence loaded) in
    match evidence with
    | None => ok (CResStillPending pending)
    | Some current =>
        let! publication_view := lift (checkpoint_publication_view (pc_view pending) current) in
        match publication_view with
        | None => classify_pending_checkpoint log pending current
        | Some publication_view => retry_checkpoint log pending publication_view
        end
    end.

(** [Log::read_checkpoint]. *)
Definition read_checkpoint (log : Log) (view : View) : io (option CheckpointRecord) :=
  do! lift (validate_view log view);
  match head_checkpoint (view_head view) with
  | None => ok None
  | Some reference =>
      let! declared_len := lift (ok_or (usize_try_from (obj_len (checkpoint_object reference)))
                                   (LimitExceeded "checkpoint byte length")) in
      do! lift (validate_checkpoint_bytes log declared_len);
      let! checkpoint := load_checkpoint_for_view log view reference in
      ok (Some (MkCheckpointRecord (kb_snapshot checkpoint) (kb_objects checkpoint)))
  end.

(** ** Marking *)

(** [Log::insert_live]. *)
Definition insert_live (log : Log) (live : Visited) (key : ImmutableKey) (length subtree : Z)
    : Result Visited Error :=
  if match live !! key with
     | Some declared => negb (bool_decide (declared = (length, subtree)))
     | None => false
     end
  then Err CorruptObject
  else
    let live := <[key := (length, subtree)]> live in
    if max_collection_objects (log_options log) <? Z.of_nat (size live)
    then Err (LimitExceeded "collection live objects")
    else Ok live.

(** [roots.extend(..)], within the live-object bound. *)
Definition extend_roots (log : Log) (roots objects : list ObjectRef) : Result (list ObjectRef) Error :=
  if max_collection_objects (log_options log) - len roots <? len objects
  then Err (LimitExceeded "collection live objects")
  else Ok (roots ++ objects).

(** One turn of the tail loop of [mark_live]. *)
Definition mark_live_record (log : Log) (s : Visited * list ObjectRef) (record : CommitRecord)
    : Result (Visited * list ObjectRef) Error :=
  let '(live, roots) := s in
  let? live := insert_live log live (commit_immutable_key log (record_reference record))
                 (commit_len (record_reference record)) 0 in
  let? roots := extend_roots log roots (record_objects record) in
  Ok (live, roots).

(** The checkpoint part of [mark_live]. *)
Definition mark_live_checkpoint (log : Log) (view : View) (live : Visited) (roots : list ObjectRef)
    : io (Visited * list ObjectRef) :=
  match head_checkpoint (view_head view) with
  | None => ok (live, roots)
  | Some reference =>
      let object := checkpoint_object reference in
      let! live := lift (insert_live log live (object_immutable_key log object) (obj_len object)
                           (obj_subtree_objects object)) in
      let! checkpoint := load_checkpoint log reference in
      let! roots := lift (extend_roots log roots (kb_objects checkpoint)) in
      ok (live, roots)
  end.

(** [Log::mark_live]. *)
Definition mark_live (log : Log) (view : View) : io Visited :=
  let! '(live, roots) := tail_records log view (mark_live_record log) (∅, []) in
  do! remember_tail log view;
  let! '(live, roots) := mark_live_checkpoint log view live roots in
  mark_object_graph log roots live None Reachability.

(** ** Starting a collection *)

(** The scan of [start_collection_with_limit]: [remaining] items of the listing are
    still allowed.  The flag says that the listing ended. *)
Fixpoint scan_candidates (live : Visited) (max_candidates : Z) (remaining : nat)
    (listed : list (Result ListedObject Error)) (candidates : gmap ImmutableKey Z)
    : Result (gmap ImmutableKey Z * bool) Error :=
  match remaining with
  | O => Ok (candidates, false)
  | S remaining =>
      match listed with
      | [] => Ok (candidates, true)
      | item :: listed =>
          let? item := item in
          match immutable_key item with
          | None => scan_candidates live max_candidates remaining listed candidates
          | Some key =>
              if bool_decide (is_Some (live !! key))
              then scan_candidates live max_candidates remaining listed candidates
              else if match candidates !! key with
                      | Some size => negb (size =? listed_size item)
                      | None => false
                      end
              then Err CorruptObject
              else
                let candidates := <[key := listed_size item]> candidates in
                if Z.of_nat (size candidates) =? max_candidates then Ok (candidates, false)
                else scan_candidates live max_candidates remaining listed candidates
          end
      end
  end.

(** [candidates.into_iter().map(..).collect()] of the [BTreeMap]. *)
Definition candidate_list (candidates : gmap ImmutableKey Z) : list CollectionCandidate :=
  (λ key, MkCollectionCandidate key (default 0 (candidates !! key))) <$> btree_iter (dom candidates).

(** The head update of [start_collection_with_limit] and its recovery. *)
Definition install_plan (log : Log) (view : View) (epoch : Z) (plan_ref : CollectionPlanRef)
    (report : CollectionReport) : io CollectionStart :=
  let plan_key := collection_plan_key (log_incarnation log) plan_ref in
  let! candidate := lift (install_plan_head (view_head view) epoch plan_ref) in
  let* updated := update_head log view candidate in
  match updated with
  | Ok (Some next) => ok (StartInstalled next report)
  | Ok None =>
      let* loaded := load log in
      match loaded with
      | Ok current =>
          if bool_decide (head_active_plan (view_head current) = Some plan_ref)
          then ok (StartInstalled current report)
          else if same_view current view then ok StartPending
          else do! cleanup_collection_plan log plan_key; ok (StartConflict current)
      | Err (EStore _) | Err ERequestDenied => ok StartPending
      | Err error => fail error
      end
  | Err (EStore _) => ok StartPending
  | Err error => fail error
  end.

(** The plan [start_collection_with_limit] stores. *)
Definition deletion_plan (log : Log) (epoch : Z) (candidates : gmap ImmutableKey Z) : CollectionPlan :=
  MkCollectionPlan (store_log_id (log_store log)) epoch (candidate_list candidates).

(** [Log::start_collection_with_limit]. *)
Definition start_collection_with_limit (log : Log) (view : View) (max_candidates : Z)
    : io CollectionStart :=
  if (max_candidates =? 0) || (max_collection_objects (log_options log) <? max_candidates)
  then fail (LimitExceeded "collection candidate objects")
  else
    do! lift (validate_view log view);
    if bool_decide (is_Some (head_active_plan (view_head view))) then ok (StartActive view)
    else if negb (bool_decide (head_retention_ids (view_head view) = ∅)) then ok (StartRetained view)
    else
      let! live := mark_live log view in
      let! scan_limit := lift (ok_or (
        limit ← usize_checked_add (Z.of_nat (size live)) max_candidates;
        usize_checked_add limit 1) (LimitExceeded "collection scan objects")) in
      let* listed := list_scoped (log_store log) in
      let! '(candidates, complete) :=
        lift (scan_candidates live max_candidates (Z.to_nat scan_limit) listed ∅) in
      if bool_decide (candidates = ∅) && negb complete
      then fail (LimitExceeded "collection scan objects")
      else if bool_decide (candidates = ∅) then ok (StartEmpty (MkCollectionReport 0 0 0))
      else
        let! epoch := lift (ok_or (u64_checked_add (head_collection_epoch (view_head view)) 1)
                              (LimitExceeded "collection epoch")) in
        let plan := deletion_plan log epoch candidates in
        let! total := lift (candidate_bytes plan) in
        let report := MkCollectionReport (len (plan_candidates plan)) total 0 in
        let! plan_ref := create_collection_plan log plan in
        install_plan log view epoch plan_ref report.

(** [Log::start_collection]. *)
Definition start_collection (log : Log) (view : View) : io CollectionStart :=
  start_collection_with_limit log view (max_collection_objects (log_options log)).

(** ** Executing a collection *)

(** The loop of [clear_collection_plan], with [more] attempts after this one. *)
Fixpoint clear_attempts (more : nat) (log : Log) (current : View) (plan_ref : CollectionPlanRef)
    (plan_key : ImmutableKey) (report : CollectionReport) : io CollectionFinish :=
  let! candidate := lift (clear_plan_head (view_head current)) in
  let* updated := update_head log current candidate in
  match updated with
  | Ok (Some next) =>
      do! cleanup_collection_plan log plan_key;
      ok (FinishComplete next report)
  | Ok None =>
      let* loaded := load log in
      let! evidence := lift (publication_evidence loaded) in
      match evidence with
      | None => ok (FinishPending report)
      | Some reloaded =>
          if same_view reloaded current then ok (FinishPending report)
          else match head_active_plan (view_head reloaded) with
          | None =>
              do! cleanup_collection_plan log plan_key;
              ok (FinishComplete reloaded report)
          | Some active =>
              if negb (bool_decide (active = plan_ref)) then ok (FinishConflict reloaded report)
              else if head_generation (view_head reloaded) <=? head_generation (view_head current)
              then fail (invalid "head version changed without a monotonic head change")
              else match more with
              | O => ok (FinishConflict reloaded report)
              | S more => clear_attempts more log reloaded plan_ref plan_key report
              end
          end
      end
  | Err (EStore _) | Err ERequestDenied => ok (FinishPending report)
  | Err error => fail error
  end.

(** [Log::clear_collection_plan]. *)
Definition clear_collection_plan (log : Log) (current : View) (plan_ref : CollectionPlanRef)
    (plan_key : ImmutableKey) (report : CollectionReport) : io CollectionFinish :=
  clear_attempts (MAX_HEAD_PUBLICATION_ATTEMPTS - 1) log current plan_ref plan_key report.

Definition add_attempts (report : CollectionReport) (n : Z) : CollectionReport :=
  MkCollectionReport (candidate_count report) (report_candidate_bytes report)
    (delete_attempts report + n).

(** The deletion loop of [resume_collection]: [inl] stops early with that report, [inr]
    is the report after the last batch. *)
Fixpoint delete_batches (log : Log) (batches : list (list CollectionCandidate))
    (report : CollectionReport) : io (CollectionReport + CollectionReport) :=
  match batches with
  | [] => ok (inr report)
  | batch :: batches =>
      let attempted := add_attempts report (len batch) in
      let* deleted := delete_immutable_batch (log_store log) (candidate_key <$> batch) in
      match deleted with
      | Ok _ => delete_batches log batches attempted
      | Err ERequestDenied => ok (inl report)
      | Err (EStore _) => ok (inl attempted)
      | Err error => fail error
      end
  end.

(** [Log::resume_collection]. *)
Definition resume_collection (log : Log) (view : View) : io CollectionFinish :=
  do! lift (validate_view log view);
  let requested_plan := head_active_plan (view_head view) in
  let! current := load log in
  match head_active_plan (view_head current) with
  | None =>
      do! match requested_plan with
          | Some requested =>
              cleanup_collection_plan log
                (collection_plan_key (head_incarnation (view_head view)) requested)
          | None => ok ()
          end;
      ok (FinishComplete current (MkCollectionReport 0 0 0))
  | Some plan_ref =>
      if negb (bool_decide (requested_plan = Some plan_ref))
      then ok (FinishConflict current (MkCollectionReport 0 0 0))
      else
        let plan_key := collection_plan_key (head_incarnation (view_head current)) plan_ref in
        let! plan := read_collection_plan log (view_head current) plan_ref in
        let! total := lift (candidate_bytes plan) in
        let report := MkCollectionReport (len (plan_candidates plan)) total 0 in
        let! deleted := delete_batches log (chunks (Z.to_nat MAX_DELETE_BATCH) (plan_candidates plan))
                          report in
        match deleted with
        | inl report => ok (FinishPending report)
        | inr report => clear_collection_plan log current plan_ref plan_key report
        end
  end.
End maintain.
