(* ===== verification/History.v ===== *)
(** * Recovery history

    [src/history.rs]: a bounded cursor over one view's checkpoint and active tail.  The
    cursor is mutated in place, so [next] returns it beside its result, on errors too. *)

From S2P Require Import Prelude Types Head Cbor Wire Format Prog Store Log LogOps LogMaintain.

Definition READ_AHEAD : Z := 8.

(** [Authenticated]. *)
Record Authenticated (R : Type) := MkAuthenticated { auth_record : R; auth_proofs : list StagedObject }.
Arguments MkAuthenticated {R} auth_record auth_proofs.
Arguments auth_record {R} _.
Arguments auth_proofs {R} _.

(** [HistoryItem]. *)
Inductive HistoryItem :=
  | HistoryCheckpoint (c : Authenticated CheckpointRecord)
  | HistoryCommit (c : Authenticated CommitRecord).

Section history.
Context `{Target} `{Blake3} `{Cbor} `{!DerivedDecode} `{ObjectPath} `{Text}.

(** [HistoryCursor]. *)
Record HistoryCursor := MkHistoryCursor {
  cursor_log : Log;
  cursor_view : View;
  checkpoint_read : bool;
  next_commit : nat;
  ready : list (Result (option CommitRecord) Error);
  complete : bool
}.

Definition set_checkpoint_read (c : HistoryCursor) : HistoryCursor :=
  MkHistoryCursor (cursor_log c) (cursor_view c) true (next_commit c) (ready c) (complete c).
Definition set_ready (r : list (Result (option CommitRecord) Error)) (c : HistoryCursor) : HistoryCursor :=
  MkHistoryCursor (cursor_log c) (cursor_view c) (checkpoint_read c) (next_commit c) r (complete c).
Definition set_next_commit (n : nat) (c : HistoryCursor) : HistoryCursor :=
  MkHistoryCursor (cursor_log c) (cursor_view c) (checkpoint_read c) n (ready c) (complete c).
Definition set_complete (c : HistoryCursor) : HistoryCursor :=
  MkHistoryCursor (cursor_log c) (cursor_view c) (checkpoint_read c) (next_commit c) (ready c) true.

(** [HistoryCursor::clone]: the read-ahead is not shared. *)
Definition cursor_clone (c : HistoryCursor) : HistoryCursor := set_ready [] c.

(** [record_proofs]. *)
Definition record_proofs (log : Log) (view : View) (objects : list ObjectRef) : list StagedObject :=
  staged_object log view <$> objects.

(** [history]. *)
Definition history (log : Log) (view : View) : Result HistoryCursor Error :=
  do? validate_view log view;
  Ok (MkHistoryCursor log view false 0 [] false).

(** [futures::future::join_all]: every future runs to completion. *)
Fixpoint join_all {A} (futures : list (prog A)) : prog (list A) :=
  match futures with
  | [] => Done []
  | p :: futures =>
      let* a := p in
      let* l := join_all futures in
      Done (a :: l)
  end.

(** The read-ahead of [HistoryCursor::next]. *)
Definition fill_ready (c : HistoryCursor) : prog HistoryCursor :=
  let tail_len := len (head_tail (view_head (cursor_view c))) in
  let window := commit_read_window (cursor_log c) READ_AHEAD in
  let last := Z.min tail_len (Z.of_nat (next_commit c) + window) in
  match ready c with
  | [] =>
      let* results := join_all ((λ index, read_tail_record_optional (cursor_log c) (cursor_view c) index)
        <$> seq (next_commit c) (Z.to_nat last - next_commit c)) in
      Done (set_ready results c)
  | _ :: _ => Done c
  end.

(** The commit branch of [HistoryCursor::next]. *)
Definition next_commit_item (c : HistoryCursor) : prog (Result (option HistoryItem) Error * HistoryCursor) :=
  let* c := fill_ready c in
  match ready c with
  | [] => Done (Err CorruptObject, c)
  | Ok (Some record) :: rest =>
      let c := set_next_commit (S (next_commit c)) (set_ready rest c) in
      Done (Ok (Some (HistoryCommit (MkAuthenticated record
        (record_proofs (cursor_log c) (cursor_view c) (record_objects record))))), c)
  | Ok None :: _ =>
      let c := set_ready [] c in
      let* e := missing_read_error (cursor_log c) (cursor_view c) in
      Done (match e with Ok e => Err e | Err e => Err e end, c)
  | Err error :: _ => Done (Err error, set_ready [] c)
  end.

(** [HistoryCursor::next]. *)
Definition next (c : HistoryCursor) : prog (Result (option HistoryItem) Error * HistoryCursor) :=
  if complete c then Done (Ok None, c)
  else
    let commits c :=
      if (next_commit c <? length (head_tail (view_head (cursor_view c))))%nat then next_commit_item c
      else
        let* _ := remember_tail (cursor_log c) (cursor_view c) in
        Done (Ok None, set_complete c) in
    if checkpoint_read c then commits c
    else
      let* checkpoint := read_checkpoint (cursor_log c) (cursor_view c) in
      match checkpoint with
      | Err e => Done (Err e, c)
      | Ok (Some record) =>
          let c := set_checkpoint_read c in
          Done (Ok (Some (HistoryCheckpoint (MkAuthenticated record
            (record_proofs (cursor_log c) (cursor_view c) (checkpoint_objects record))))), c)
      | Ok None => commits (set_checkpoint_read c)
      end.

(** [tail_record]. *)
Definition tail_record (log : Log) (view : View) (index : nat) : io (Authenticated CommitRecord) :=
  let! record := read_tail_record log view index in
  ok (MkAuthenticated record (record_proofs log view (record_objects record))).
End history.
