(* ===== verification/ByteStream.v ===== *)
(** * Byte streams

    [src/byte_stream.rs]: bounded byte streams over immutable blobs and an authenticated
    descriptor node.  The writer and the reader are mutated in place, so [write] and
    [read_at] return them beside their result, on errors too. *)

From Stdlib Require Import Strings.Byte.
From S2P Require Import Prelude Types Head Cbor Wire Format Prog Store Log LogOps.

(** [b"OLBS\0\0\0\x01"]. *)
Definition TAG : bytes := [x4f; x4c; x42; x53; x00; x00; x00; x01].
Definition DESCRIPTOR_BYTES : Z := 24.
Definition MAX_CHUNK_BYTES : Z := 2 * 1024 * 1024.

(** [byte_stream::invalid]. *)
Definition invalid_stream : Error := InvalidFormat "invalid byte stream".

(** [u64::div_ceil] and [usize::div_ceil]. *)
Definition div_ceil (a b : Z) : Z := (a + b - 1) / b.

Section byte_stream.
Context `{Target} `{Blake3} `{Cbor} `{!DerivedDecode} `{ObjectPath} `{Text}.

(** [ByteWriter]. *)
Record ByteWriter := MkByteWriter {
  writer_log : Log;
  writer_view : View;
  writer_chunk_bytes : Z;
  writer_capacity : Z;
  writer_len : Z;
  writer_buffer : bytes;
  writer_children : list StagedObject;
  writer_failed : bool
}.

Definition set_buffer (b : bytes) (w : ByteWriter) : ByteWriter :=
  MkByteWriter (writer_log w) (writer_view w) (writer_chunk_bytes w) (writer_capacity w) (writer_len w)
    b (writer_children w) (writer_failed w).
Definition push_child (c : StagedObject) (w : ByteWriter) : ByteWriter :=
  MkByteWriter (writer_log w) (writer_view w) (writer_chunk_bytes w) (writer_capacity w) (writer_len w)
    (writer_buffer w) (writer_children w ++ [c]) (writer_failed w).
Definition set_failed (failed : bool) (w : ByteWriter) : ByteWriter :=
  MkByteWriter (writer_log w) (writer_view w) (writer_chunk_bytes w) (writer_capacity w) (writer_len w)
    (writer_buffer w) (writer_children w) failed.
Definition set_len (length : Z) (w : ByteWriter) : ByteWriter :=
  MkByteWriter (writer_log w) (writer_view w) (writer_chunk_bytes w) (writer_capacity w) length
    (writer_buffer w) (writer_children w) (writer_failed w).

(** [ByteReader]: the two most recently used chunks are cached. *)
Record ByteReader := MkByteReader {
  reader_log : Log;
  reader_view : View;
  reader_chunk_bytes : Z;
  reader_len : Z;
  reader_children : list ObjectRef;
  reader_cached : option (Z * bytes) * option (Z * bytes)
}.

Definition set_cached (c : option (Z * bytes) * option (Z * bytes)) (r : ByteReader) : ByteReader :=
  MkByteReader (reader_log r) (reader_view r) (reader_chunk_bytes r) (reader_len r) (reader_children r) c.

(** ** Opening a writer *)

(** A descriptor node over [count] full chunks fits the log's limits. *)
Definition descriptor_fits (options : Options) (chunk_bytes count : Z) : bool :=
  match node_size DESCRIPTOR_BYTES (replicate (Z.to_nat count) (chunk_bytes, 1)) options with
  | Ok _ => true
  | Err _ => false
  end.

(** The [while low < high] loop of [byte_writer]: a bisection of at most one turn per bit of
    [usize]. *)
Fixpoint capacity_search (turns : nat) (fits : Z → bool) (low high : Z) : Z :=
  match turns with
  | O => low
  | S turns =>
      if low <? high then
        let mid := low + div_ceil (high - low) 2 in
        if fits mid then capacity_search turns fits mid high
        else capacity_search turns fits low (mid - 1)
      else low
  end.

Definition USIZE_TURNS : nat := 65.

Definition stream_chunk_bytes (options : Options) : Z := Z.min (max_object_bytes options) MAX_CHUNK_BYTES.

(** [u64::checked_mul]. *)
Definition u64_checked_mul (a b : Z) : option Z := if a * b <=? u64_max then Some (a * b) else None.

(** [Log::byte_writer]. *)
Definition byte_writer (log : Log) (view : View) : Result ByteWriter Error :=
  let options := log_options log in
  let chunk_bytes := stream_chunk_bytes options in
  do? log_node_size log DESCRIPTOR_BYTES [];
  let high := Z.min (max_object_refs options) (max_object_bytes options / 32) in
  let low := capacity_search USIZE_TURNS (descriptor_fits options chunk_bytes) 0 high in
  let? capacity := ok_or (u64_checked_mul low chunk_bytes) (LimitExceeded "byte stream length") in
  Ok (MkByteWriter log view chunk_bytes capacity 0 [] [] false).

(** ** Writing *)

(** The [while !data.is_empty()] loop of [ByteWriter::write].  Each turn consumes at least
    one byte while the buffer is shorter than a chunk. *)
Fixpoint write_chunks (turns : nat) (w : ByteWriter) (data : bytes) : prog (Result () Error * ByteWriter) :=
  match data with
  | [] => Done (Ok (), w)
  | _ :: _ =>
      match turns with
      | O => Done (Err invalid_stream, w)
      | S turns =>
          let n := Z.to_nat (Z.min (len data) (writer_chunk_bytes w - len (writer_buffer w))) in
          let w := set_buffer (writer_buffer w ++ take n data) w in
          let data := drop n data in
          if len (writer_buffer w) =? writer_chunk_bytes w then
            let* staged := put_object (writer_log w) (writer_view w) (writer_buffer w) in
            let w := set_buffer [] w in
            match staged with
            | Ok child => write_chunks turns (push_child child w) data
            | Err e => Done (Err e, w)
            end
          else write_chunks turns w data
      end
  end.

(** [ByteWriter::write]. *)
Definition write (w : ByteWriter) (data : bytes) : prog (Result () Error * ByteWriter) :=
  if writer_failed w then Done (Err invalid_stream, w)
  else
    let w := set_failed true w in
    let length := u64_checked_add (writer_len w) (len data) in
    match (match length with Some l => if l <=? writer_capacity w then Some l else None | None => None end) with
    | None => Done (Err (LimitExceeded "byte stream length"), w)
    | Some length =>
        let* '(r, w) := write_chunks (Datatypes.length data) w data in
        match r with
        | Ok _ => Done (Ok (), set_failed false (set_len length w))
        | Err e => Done (Err e, w)
        end
    end.

(** The descriptor [finish] writes. *)
Definition stream_descriptor (length chunk_bytes : Z) : bytes :=
  TAG ++ be_bytes 8 length ++ be_bytes 8 chunk_bytes.

(** [ByteWriter::finish]. *)
Definition finish (w : ByteWriter) : io StagedObject :=
  if writer_failed w then fail invalid_stream
  else
    let! children :=
      match writer_buffer w with
      | [] => ok (writer_children w)
      | _ :: _ =>
          let! child := put_object (writer_log w) (writer_view w) (writer_buffer w) in
          ok (writer_children w ++ [child])
      end in
    match children with
    | [child] => ok child
    | _ => put_node (writer_log w) (writer_view w)
             (stream_descriptor (writer_len w) (writer_chunk_bytes w)) children
    end.

(** ** Reading *)

(** [number(offset)] of [open_bytes]. *)
Definition descriptor_number (descriptor : bytes) (offset : nat) : Z :=
  of_be_bytes (take 8 (drop offset descriptor)).

(** The bytes of the chunk at [index]. *)
Definition expected_chunk (length chunk_bytes : Z) (index : nat) : Z :=
  Z.min (length - Z.of_nat index * chunk_bytes) chunk_bytes.

Definition valid_chunk (length chunk_bytes : Z) (index : nat) (child : ObjectRef) : bool :=
  bool_decide (obj_kind child = Blob) && (obj_len child =? expected_chunk length chunk_bytes index).

(** [Log::open_bytes]. *)
Definition open_bytes (log : Log) (view : View) (root : ObjectRef) : io ByteReader :=
  let limit := stream_chunk_bytes (log_options log) in
  if bool_decide (obj_kind root = Blob) then
    do! lift (validate_view log view);
    do! lift (validate_count root);
    if limit <? obj_len root then fail (LimitExceeded "byte stream chunk bytes")
    else
      let! b := read_object log view root in
      ok (MkByteReader log view limit (obj_len root) [root] (Some (0, b), None))
  else
    let! node := read_node log view root in
    let descriptor := ref_payload node in
    if negb (len descriptor =? DESCRIPTOR_BYTES) || negb (bool_decide (take 8 descriptor = TAG))
    then fail invalid_stream
    else
      let length := descriptor_number descriptor 8 in
      let chunk_bytes := descriptor_number descriptor 16 in
      if (chunk_bytes =? 0) || (limit <? chunk_bytes)
         || negb (div_ceil length chunk_bytes =? len (ref_children node))
      then fail invalid_stream
      else if negb (forallb id (imap (valid_chunk length chunk_bytes) (ref_children node)))
      then fail invalid_stream
      else ok (MkByteReader log view chunk_bytes length (ref_children node) (None, None)).

(** [ByteReader::len] and [is_empty]. *)
Definition reader_is_empty (r : ByteReader) : bool := reader_len r =? 0.

Definition cached_at (index : Z) (c : option (Z * bytes)) : bool :=
  match c with Some (cached, _) => cached =? index | None => false end.

(** The cache lookup of [read_at]: the chunk at [index] becomes the first of the pair.  The
    inner [None] is the panic of [self.children[index]]. *)
Definition fetch_chunk (r : ByteReader) (index : Z) : prog (option (Result () Error) * ByteReader) :=
  if cached_at index (reader_cached r).1 then Done (Some (Ok ()), r)
  else if cached_at index (reader_cached r).2
  then Done (Some (Ok ()), set_cached ((reader_cached r).2, (reader_cached r).1) r)
  else
    let r := set_cached ((reader_cached r).1, None) r in
    match reader_children r !! Z.to_nat index with
    | None => Done (None, r)
    | Some child =>
        let* read := read_object (reader_log r) (reader_view r) child in
        match read with
        | Err e => Done (Some (Err e), r)
        | Ok b => Done (Some (Ok ()), set_cached (Some (index, b), (reader_cached r).1) r)
        end
    end.

(** [bytes.slice(start..start + max_len.min(bytes.len() - start))]; [None] is its panic. *)
Definition slice_chunk (b : bytes) (start max_len : Z) : option bytes :=
  if len b <? start then None
  else Some (take (Z.to_nat (Z.min max_len (len b - start))) (drop (Z.to_nat start) b)).

(** [ByteReader::read_at]; the outer [None] is a panic. *)
Definition read_at (r : ByteReader) (offset max_len : Z) : prog (option (Result bytes Error) * ByteReader) :=
  if (max_len =? 0) || (reader_len r <=? offset) then Done (Some (Ok []), r)
  else
    match usize_try_from (offset / reader_chunk_bytes r) with
    | None => Done (Some (Err invalid_stream), r)
    | Some index =>
        let* '(fetched, r) := fetch_chunk r index in
        match fetched with
        | None => Done (None, r)
        | Some (Err e) => Done (Some (Err e), r)
        | Some (Ok _) =>
            match (reader_cached r).1 with
            | None => Done (Some (Err invalid_stream), r)
            | Some (_, b) =>
                match usize_try_from (offset mod reader_chunk_bytes r) with
                | None => Done (Some (Err invalid_stream), r)
                | Some start =>
                    match slice_chunk b start max_len with
                    | None => Done (None, r)
                    | Some slice => Done (Some (Ok slice), r)
                    end
                end
            end
        end
    end.
End byte_stream.
