(* ===== verification/Protocol.v ===== *)
(** * The protocol a log client follows

    A policy over the requests of one log handle.  It names the evidence that must
    already be in the trace before each write or deletion: a head is replaced only
    conditionally on a version whose contents were observed, by a head that is one
    [head_step] away, after the object it newly names is known to be durable under an
    identity drawn in the head's own collection epoch, with references that are usable in
    it; a plan is installed only with candidates that were listed and are outside a set
    that holds what the fenced head keeps and is closed under references; objects are
    deleted only on the authority of the plan the observed head names, and the plan's
    fence is cleared only after every deletion was acknowledged. *)

From S2P Require Import Prelude Types Head LogSpec Cbor Wire Format Typed Prog Wp Store StoreProps Log LogOps LogMaintain.

(** ** What a head needs *)

Definition object_key_of (incarnation : Uuid) (o : ObjectRef) : ImmutableKey :=
  MkImmutableKey incarnation
    (match obj_kind o with Blob => KBlob | Node => KNode | Checkpoint => KCheckpoint end)
    (obj_storage_id o) (obj_digest o).

Definition commit_key_of (incarnation : Uuid) (c : CommitRef) : ImmutableKey :=
  MkImmutableKey incarnation KCommit (commit_storage_id c) (commit_digest c).

(** The commits of its tail and its checkpoint. *)
Inductive keeps (h : Head) : ImmutableKey → Prop :=
  | keeps_commit c : c ∈ head_tail h → keeps h (commit_key_of (head_incarnation h) c)
  | keeps_checkpoint cp : head_checkpoint h = Some cp →
      keeps h (object_key_of (head_incarnation h) (checkpoint_object cp)).

Section protocol.
Context `{Target} `{Blake3} `{Cbor} `{!DerivedDecode} `{ObjectPath} `{Text}.

(** The objects that the content of an immutable object refers to. *)
Definition content_refs (options : Options) (kind : ImmutableKind) (b : bytes) : list ObjectRef :=
  match kind with
  | KCommit => match decode_commit b with Ok body => cb_objects body | Err _ => [] end
  | KCheckpoint => match decode_checkpoint b with Ok body => kb_objects body | Err _ => [] end
  | KNode => match decode_node b options with Ok node => node_children node | Err _ => [] end
  | KBlob | KCollectionPlan => []
  end.

(** What the caller brings to an operation: views it observed earlier, whose heads are
    of their Rust types, contents this handle stored under immutable keys earlier, and
    storage identities it drew and objects it staged in the collection epoch of a head. *)
Record Caller := MkCaller {
  known_view : View → Prop;
  known_content : ImmutableKey → bytes → Prop;
  known_id : StorageId → Head → Prop;
  known_object : ObjectRef → Head → Prop;
  known_typed v : known_view v → head_typed (view_head v)
}.

Context (log : Log) (caller : Caller).

Definition head_path : Path := location (log_store log) HeadKey.
Definition key_path (key : ImmutableKey) : Path := immutable_location (log_store log) key.

(** ** Evidence in a trace *)

(** A GET of [loc] returned [b] at [version]. *)
Definition got (past : list Ev) (loc : Path) (stored : StoredObject) : Prop :=
  ∃ if_none_match result max,
    MkEv (EGet loc if_none_match) (Ok result) ∈ past ∧ collect_object result max = Ok stored.

(** The view is a decoded durable head of this log. *)
Definition loaded (past : list Ev) (v : View) : Prop :=
  ∃ stored, got past head_path stored ∧ decode_head (stored_bytes stored) = Ok (view_head v)
    ∧ stored_version stored = view_version v ∧ validate_view log v = Ok ().

(** The view is a head whose conditional write was acknowledged. *)
Definition acknowledged (past : list Ev) (v : View) : Prop :=
  head_typed (view_head v)
  ∧ ∃ observed b, MkEv (EPut head_path b (PutUpdate observed)) (Ok (view_version v)) ∈ past
    ∧ encode_head (view_head v) = Ok b.

Definition witnessed (past : list Ev) (v : View) : Prop :=
  known_view caller v ∨ loaded past v ∨ acknowledged past v.

(** The bytes are at the key: created by an acknowledged write, or read. *)
Definition has_content (past : list Ev) (key : ImmutableKey) (b : bytes) : Prop :=
  known_content caller key b
  ∨ (∃ version, MkEv (EPut (key_path key) b PutCreate) (Ok version) ∈ past)
  ∨ ∃ stored, got past (key_path key) stored ∧ stored_bytes stored = b.

(** The object's content is at its key. *)
Definition durable (past : list Ev) (key : ImmutableKey) : Prop :=
  ∃ b, digest_of b = key_digest key ∧ has_content past key b.

Definition plan_read (past : list Ev) (plan_ref : CollectionPlanRef) (plan : CollectionPlan) : Prop :=
  ∃ stored, got past (key_path (collection_plan_key (log_incarnation log) plan_ref)) stored
    ∧ digest_of (stored_bytes stored) = plan_digest plan_ref
    ∧ decode_collection_plan (stored_bytes stored) (log_options log) = Ok plan.

Definition delete_acknowledged (past : list Ev) (loc : Path) : Prop :=
  ∃ locations results, MkEv (EDeleteStream locations) results ∈ past ∧ loc ∈ locations
    ∧ Forall (λ r, match r with Ok _ => True | Err e => e = SNotFound end) results.

Definition plan_executed (past : list Ev) (plan_ref : CollectionPlanRef) : Prop :=
  ∃ plan, plan_read past plan_ref plan
    ∧ ∀ c, c ∈ plan_candidates plan → delete_acknowledged past (key_path (candidate_key c)).

(** The identity was drawn after a head of this collection epoch was observed. *)
Definition drawn (past : list Ev) (id : StorageId) (epoch : Z) : Prop :=
  ∃ v, witnessed past v ∧ head_collection_epoch (view_head v) = epoch
    ∧ (known_id caller id (view_head v) ∨ (MkEv ENewUuid (storage_uuid id) ∈ past ∧ known_view caller v)).

(** The object was staged for a head of this collection epoch. *)
Definition usable (past : list Ev) (o : ObjectRef) (epoch : Z) : Prop :=
  ∃ v, witnessed past v ∧ head_collection_epoch (view_head v) = epoch ∧ known_object caller o (view_head v).

Definition refs_of (key : ImmutableKey) (b : bytes) : list ObjectRef := content_refs (log_options log) (key_kind key) b.

(** The content [b] of the key is new in the epoch, and so is what it refers to, or staged. *)
Definition grounded (past : list Ev) (key : ImmutableKey) (b : bytes) (epoch : Z) : Prop :=
  drawn past (key_storage_id key) epoch ∧ ∀ o, o ∈ refs_of key b → usable past o epoch.

(** The caller drew the identity, and staged the object, in the collection epoch of the view. *)
Definition id_known (id : StorageId) (view : View) : Prop :=
  ∀ h, head_collection_epoch h = head_collection_epoch (view_head view) → known_id caller id h.
Definition object_known (o : ObjectRef) (view : View) : Prop :=
  ∀ h, head_collection_epoch h = head_collection_epoch (view_head view) → known_object caller o h.
Definition refs_known (kind : ImmutableKind) (b : bytes) (view : View) : Prop :=
  ∀ o, o ∈ content_refs (log_options log) kind b → object_known o view.

(** In the collection epoch [epoch], the content counts as grounded after any observed head. *)
Definition grounded_in (past : list Ev) (key : ImmutableKey) (b : bytes) (epoch : Z) : Prop :=
  ∀ past' v, past ⊆ past' → witnessed past' v → head_collection_epoch (view_head v) = epoch →
    grounded past' key b epoch.

(** The object was listed in the log's namespace with this size. *)
Definition listed (past : list Ev) (key : ImmutableKey) (size : Z) : Prop :=
  ∃ items loc, MkEv (EList (store_scope (log_store log))) items ∈ past ∧ Ok (loc, size) ∈ items
    ∧ classify_immutable (store_scope (log_store log)) loc = Some key.

(** The references of a member of [live], as they were read, are in [live]. *)
Definition refs_live (past : list Ev) (live : ImmutableKey → Prop) (key : ImmutableKey) : Prop :=
  key_kind key = KBlob
  ∨ ∃ stored, got past (key_path key) stored ∧ digest_of (stored_bytes stored) = key_digest key
      ∧ ∀ o, o ∈ refs_of key (stored_bytes stored) → live (object_immutable_key log o).

(** The plan was stored, schedules only listed objects, and none of a set that holds what
    [h] keeps and everything that refers to. *)
Definition planned (past : list Ev) (h : Head) (plan_ref : CollectionPlanRef) : Prop :=
  ∃ plan b version (live : ImmutableKey → Prop),
    encode_collection_plan plan (log_options log) = Ok b ∧ digest_of b = plan_digest plan_ref
    ∧ MkEv (EPut (key_path (collection_plan_key (log_incarnation log) plan_ref)) b PutCreate) (Ok version) ∈ past
    ∧ plan_log_id plan = store_log_id (log_store log)
    ∧ plan_collection_epoch plan = head_collection_epoch h + 1
    ∧ (∀ key, keeps h key → live key)
    ∧ ((∀ cp, head_checkpoint h = Some cp → obj_kind (checkpoint_object cp) = Checkpoint) →
       ∀ key, live key → refs_live past live key)
    ∧ ∀ c, c ∈ plan_candidates plan →
        listed past (candidate_key c) (candidate_size c) ∧ ¬ live (candidate_key c).

(** ** The policy *)

(** The head updates of the protocol, each after its evidence. *)
Inductive head_write (past : list Ev) : Head → Head → Prop :=
  | write_commit h c b h' :
      commit_sequence c = head_next_sequence h →
      digest_of b = commit_digest c →
      has_content past (commit_immutable_key log c) b →
      grounded past (commit_immutable_key log c) b (head_collection_epoch h) →
      candidate_head h c = Ok h' →
      head_write past h h'
  | write_checkpoint h through object b h' :
      digest_of b = obj_digest object →
      has_content past (object_immutable_key log object) b →
      usable past object (head_collection_epoch h)
        ∨ grounded past (object_immutable_key log object) b (head_collection_epoch h) →
      checkpoint_head h through object = Ok h' →
      head_write past h h'
  | write_retention h change h' :
      retention_classify change h = Conflict →
      advance_generation (retention_apply change h) = Ok h' →
      head_write past h h'
  | write_install h plan_ref h' :
      head_active_plan h = None →
      head_retention_ids h = ∅ →
      durable past (collection_plan_key (log_incarnation log) plan_ref) →
      planned past h plan_ref →
      install_plan_head h (head_collection_epoch h + 1) plan_ref = Ok h' →
      head_write past h h'
  | write_clear h plan_ref h' :
      head_active_plan h = Some plan_ref →
      plan_executed past plan_ref →
      clear_plan_head h = Ok h' →
      head_write past h h'.

Inductive allowed (past : list Ev) : ∀ R, Event R → Prop :=
  | allow_reading R (e : Event R) : reading e = true → allowed past R e
  | allow_create key b :
      key_incarnation key = log_incarnation log → uuid_wf (storage_uuid (key_storage_id key)) = true →
      digest_of b = key_digest key →
      allowed past _ (EPut (key_path key) b PutCreate)
  | allow_genesis incarnation b :
      head_typed (head_empty (store_log_id (log_store log)) incarnation (log_options log)) →
      encode_head (head_empty (store_log_id (log_store log)) incarnation (log_options log)) = Ok b →
      len b ≤ max_head_bytes (log_options log) →
      allowed past _ (EPut head_path b PutCreate)
  | allow_head v h' b :
      witnessed past v → validate_view log v = Ok () → head_write past (view_head v) h' →
      head_typed h' → encode_head h' = Ok b →
      len b ≤ max_head_bytes (log_options log) →
      allowed past _ (EPut head_path b (PutUpdate (view_version v)))
  | allow_collect v plan_ref plan keys :
      witnessed past v → validate_view log v = Ok () → head_active_plan (view_head v) = Some plan_ref →
      plan_read past plan_ref plan → keys ⊆ (candidate_key <$> plan_candidates plan) →
      allowed past _ (EDeleteStream (key_path <$> keys))
  | allow_cleanup v plan_ref :
      witnessed past v → head_active_plan (view_head v) ≠ Some plan_ref → plan_ref_wf plan_ref = true →
      allowed past _ (EDeleteStream [key_path (collection_plan_key (log_incarnation log) plan_ref)]).

(** Fresh [Arc] allocations are not the handle's own. *)
Definition fresh_arcs R (e : Event R) : R → Prop :=
  match e with ENewArc => λ id, id ≠ log_staging_domain log | _ => λ _, True end.

(** [Uuid::new_v4] returns 16 bytes. *)
Definition uuid_answers R (e : Event R) : R → Prop :=
  match e with ENewUuid => λ u, uuid_wf u = true | _ => λ _, True end.

(** ** Evidence persists *)

Lemma got_mono past past' loc stored : past ⊆ past' → got past loc stored → got past' loc stored.
Proof. intros Hs (i & r & m & Hin & Hc). exists i, r, m. eauto. Qed.

Lemma loaded_mono past past' v : past ⊆ past' → loaded past v → loaded past' v.
Proof. intros Hs (o & Hg & Hrest). exists o. split; [by eapply got_mono|done]. Qed.

Lemma loaded_view past v : loaded past v → validate_view log v = Ok ().
Proof. by intros (o & _ & _ & _ & Hv). Qed.

Lemma acknowledged_mono past past' v : past ⊆ past' → acknowledged past v → acknowledged past' v.
Proof. intros Hs (Ht & o & b & Hin & He). split; [done|]. exists o, b. eauto. Qed.

Lemma witnessed_mono past past' v : past ⊆ past' → witnessed past v → witnessed past' v.
Proof.
  intros Hs [?|[?|?]]; [by left|right; left; by eapply loaded_mono|right; right; by eapply acknowledged_mono].
Qed.

Lemma has_content_mono past past' key b : past ⊆ past' → has_content past key b → has_content past' key b.
Proof.
  intros Hs [?|[[v Hin]|(o & Hg & Hb)]]; [by left|right; left; eauto|right; right].
  exists o. split; [by eapply got_mono|done].
Qed.

Lemma durable_mono past past' key : past ⊆ past' → durable past key → durable past' key.
Proof. intros Hs (b & Hd & Hb). exists b. split; [done|by eapply has_content_mono]. Qed.

Lemma stored_durable past key b : digest_of b = key_digest key → has_content past key b → durable past key.
Proof. intros Hd Hs. by exists b. Qed.

Lemma plan_read_mono past past' r p : past ⊆ past' → plan_read past r p → plan_read past' r p.
Proof. intros Hs (o & Hg & Hrest). exists o. split; [by eapply got_mono|done]. Qed.

Lemma delete_acknowledged_mono past past' loc :
  past ⊆ past' → delete_acknowledged past loc → delete_acknowledged past' loc.
Proof. intros Hs (l & r & Hin & Hrest). exists l, r. eauto. Qed.

Lemma plan_executed_mono past past' r : past ⊆ past' → plan_executed past r → plan_executed past' r.
Proof.
  intros Hs (p & Hp & Hd). exists p. split; [by eapply plan_read_mono|].
  intros c Hc. eapply delete_acknowledged_mono; eauto.
Qed.

Lemma drawn_mono past past' id epoch : past ⊆ past' → drawn past id epoch → drawn past' id epoch.
Proof.
  intros Hs (v & Hw & He & Hd). exists v. split_and!; [by eapply witnessed_mono|done|].
  destruct Hd as [?|[Hin ?]]; [by left|right]. split; [by apply Hs|done].
Qed.

Lemma usable_mono past past' o epoch : past ⊆ past' → usable past o epoch → usable past' o epoch.
Proof. intros Hs (v & Hw & He). exists v. split; [by eapply witnessed_mono|done]. Qed.

Lemma grounded_mono past past' key b epoch : past ⊆ past' → grounded past key b epoch → grounded past' key b epoch.
Proof. intros Hs [Hd Ho]. split; [by eapply drawn_mono|]. intros o Hin. eapply usable_mono; eauto. Qed.

Lemma grounded_in_mono past past' key b epoch :
  past ⊆ past' → grounded_in past key b epoch → grounded_in past' key b epoch.
Proof. intros Hs Hd past2 v Hs2. apply Hd. set_solver. Qed.

Lemma known_grounded past key b view :
  id_known (key_storage_id key) view → refs_known (key_kind key) b view →
  grounded_in past key b (head_collection_epoch (view_head view)).
Proof.
  intros Hk Ho past' v _ Hw He. split; [exists v; split_and!; [done|done|left; by apply Hk]|].
  intros o Hin. exists v. split_and!; [done|done|by apply Ho].
Qed.

Lemma listed_mono past past' key size : past ⊆ past' → listed past key size → listed past' key size.
Proof. intros Hs (items & loc & Hin & Hk). exists items, loc. eauto. Qed.

Lemma refs_live_mono past past' live key : past ⊆ past' → refs_live past live key → refs_live past' live key.
Proof. intros Hs [?|(o & Hg & Ho)]; [by left|right]. exists o. split; [by eapply got_mono|done]. Qed.

Lemma planned_mono past past' h r : past ⊆ past' → planned past h r → planned past' h r.
Proof.
  intros Hs (plan & b & v & live & He & Hd & Hin & Hl & Hc & Hk & Hr & Hall).
  exists plan, b, v, live. split_and!; [done|done|by apply Hs|done|done|done| |].
  - intros Hcp key Hkey. eapply refs_live_mono; [done|by apply Hr].
  - intros c Hcand. destruct (Hall c Hcand) as [? ?]. split; [by eapply listed_mono|done].
Qed.

Lemma head_write_mono past past' h h' : past ⊆ past' → head_write past h h' → head_write past' h h'.
Proof.
  intros Hs [???????|??????? Hg|????|?????|????];
    [eapply write_commit|eapply write_checkpoint|eapply write_retention|eapply write_install|eapply write_clear];
    eauto using has_content_mono, durable_mono, grounded_mono, planned_mono, plan_executed_mono.
  destruct Hg; [left; by eapply usable_mono|right; by eapply grounded_mono].
Qed.

(** Evidence from storage is of its Rust type. *)
Lemma witnessed_typed `{!CborLaws} `{!DerivedDecodeLaws} past v :
  witnessed past v → head_typed (view_head v).
Proof.
  intros [Hk|[(o & _ & Hd & _)|[Ht _]]]; [by eapply known_typed|by eapply decode_head_typed|done].
Qed.

(** An allowed head replacement is a step of the abstract protocol. *)
Lemma head_write_step past h h' b : head_write past h h' → encode_head h' = Ok b → head_step h h'.
Proof.
  intros Hw He. assert (validate h' = Ok ()) as Hv.
  { unfold encode_head in He. destruct (validate h') as [[]|]; [done|]. inv_ok. }
  destruct Hw; [eapply step_commit|eapply step_checkpoint|eapply step_retention|eapply step_install|eapply step_clear];
    eauto.
Qed.
End protocol.

Create HintDb protocol.
#[export] Hint Resolve witnessed_mono has_content_mono durable_mono grounded_mono planned_mono loaded_mono plan_read_mono plan_executed_mono
  head_write_mono : protocol.
