(* ===== verification/ProtocolSpecs.v ===== *)
(** * Specifications of the log's internal operations

    Reading operations, the effects of conditional writes and immutable creation, and
    what a returned view, record or reference says about the trace. *)

From S2P Require Import Prelude Types Head LogSpec Cbor Wire Format Typed Prog Wp Store StoreProps Log LogOps LogMaintain.
From S2P Require Import Protocol.

(** ** Reading operations *)

Section reads.
Context `{Target} `{Blake3} `{Cbor} `{!DerivedDecode} `{ObjectPath} `{Text}.

Lemma before_request_reads g r : reads_only (before_request g r).
Proof. induction g as [id|p IHp n IHn]; simpl; [done|]. solve_reads. Qed.

Lemma admit_request_reads st r : reads_only (admit_request st r).
Proof. pose proof before_request_reads. unfold admit_request. solve_reads. Qed.

Lemma retry_safe_read_reads {A} st max (p : io A) : reads_only p → reads_only (retry_safe_read st max p).
Proof.
  intros Hp. pose proof admit_request_reads. unfold retry_safe_read.
  generalize (SAFE_READ_ATTEMPTS - 1)%nat. intros more. induction more; simpl; solve_reads.
Qed.

Lemma store_read_reads st key max : reads_only (store_read st key max).
Proof. apply retry_safe_read_reads. solve_reads. Qed.

Lemma store_read_integrity_reads st key max : reads_only (store_read_integrity st key max).
Proof. apply retry_safe_read_reads. solve_reads. Qed.

Lemma read_if_changed_reads st key v max : reads_only (read_if_changed st key v max).
Proof. unfold read_if_changed. destruct (e_tag v); [|done]. apply retry_safe_read_reads. solve_reads. Qed.

Lemma list_scoped_reads st : reads_only (list_scoped st).
Proof. pose proof admit_request_reads. unfold list_scoped. solve_reads. Qed.
End reads.

#[export] Hint Resolve admit_request_reads store_read_reads store_read_integrity_reads read_if_changed_reads
  list_scoped_reads : reads.

Section log_reads.
Context `{Target} `{Blake3} `{Cbor} `{!DerivedDecode} `{ObjectPath} `{Text} (log : Log).

Lemma view_from_stored_reads stored : reads_only (view_from_stored log stored).
Proof. unfold view_from_stored, new_view. solve_reads. Qed.

Lemma load_reads : reads_only (load log).
Proof. pose proof view_from_stored_reads. unfold load. solve_reads. Qed.

Lemma refresh_reads view : reads_only (refresh log view).
Proof. pose proof view_from_stored_reads. unfold refresh. solve_reads. Qed.

Lemma missing_read_error_reads view : reads_only (missing_read_error log view).
Proof. pose proof load_reads. unfold missing_read_error. solve_reads. Qed.

Lemma read_immutable_optional_reads object : reads_only (read_immutable_optional log object).
Proof. unfold read_immutable_optional. solve_reads. Qed.

Lemma read_immutable_reads object : reads_only (read_immutable log object).
Proof. pose proof read_immutable_optional_reads. unfold read_immutable. solve_reads. Qed.

Lemma verify_object_durable_reads object : reads_only (verify_object_durable log object).
Proof. unfold verify_object_durable. solve_reads. Qed.

Lemma load_checkpoint_reads reference : reads_only (load_checkpoint log reference).
Proof. pose proof read_immutable_reads. unfold load_checkpoint. solve_reads. Qed.

Lemma read_commit_optional_reads reference : reads_only (read_commit_optional log reference).
Proof. unfold read_commit_optional. solve_reads. Qed.

Lemma read_commit_reads reference : reads_only (read_commit log reference).
Proof. pose proof read_commit_optional_reads. unfold read_commit. solve_reads. Qed.

Lemma tail_records_reads {S} view (step : S → CommitRecord → Result S Error) s :
  reads_only (tail_records log view step s).
Proof.
  pose proof read_commit_optional_reads. pose proof missing_read_error_reads.
  unfold tail_records. apply reads_only_io_bind; [done|]. intros _. generalize (through_commit <$> head_checkpoint (view_head view)).
  revert s. induction (head_tail (view_head view)) as [|c refs IH]; intros s tip; simpl; solve_reads.
Qed.

Lemma remember_tail_reads view : reads_only (remember_tail log view).
Proof. unfold remember_tail. solve_reads. Qed.

Lemma verify_tail_reads view : reads_only (verify_tail log view).
Proof.
  pose proof remember_tail_reads. pose proof @tail_records_reads.
  unfold verify_tail, tail_is_verified. solve_reads.
Qed.

Lemma read_collection_plan_reads head reference : reads_only (read_collection_plan log head reference).
Proof. pose proof load_reads. unfold read_collection_plan. solve_reads. Qed.

Lemma active_collection_candidates_reads view : reads_only (active_collection_candidates log view).
Proof. pose proof read_collection_plan_reads. unfold active_collection_candidates. solve_reads. Qed.

Lemma read_graph_children_reads object : reads_only (read_graph_children log object).
Proof.
  pose proof read_immutable_reads. pose proof verify_object_durable_reads.
  unfold read_graph_children. solve_reads.
Qed.

Lemma mark_object_graph_reads roots visited blocked mode :
  reads_only (mark_object_graph log roots visited blocked mode).
Proof.
  pose proof read_graph_children_reads. unfold mark_object_graph.
  apply reads_only_io_bind; [done|]. intros [visited' pending]. generalize (@nil (Z * ObjectRef)) 0.
  revert visited' pending. induction (graph_fuel log) as [|fuel IH]; intros; simpl; solve_reads.
Qed.

Lemma verify_publication_reads view key objects staging :
  reads_only (verify_publication log view key objects staging).
Proof.
  pose proof active_collection_candidates_reads. pose proof mark_object_graph_reads.
  unfold verify_publication, verify_publication_dependencies. solve_reads.
Qed.

Lemma verify_object_graph_reads objects : reads_only (verify_object_graph log objects).
Proof. pose proof mark_object_graph_reads. unfold verify_object_graph. solve_reads. Qed.

Lemma verify_published_commit_reads reference : reads_only (verify_published_commit log reference).
Proof.
  pose proof verify_object_graph_reads. pose proof read_commit_reads.
  unfold verify_published_commit. solve_reads.
Qed.

Lemma verify_checkpoint_reads reference : reads_only (verify_checkpoint log reference).
Proof.
  pose proof verify_object_graph_reads. pose proof load_checkpoint_reads.
  unfold verify_checkpoint. solve_reads.
Qed.

Lemma mark_live_reads view : reads_only (mark_live log view).
Proof.
  pose proof @tail_records_reads. pose proof remember_tail_reads. pose proof load_checkpoint_reads.
  pose proof mark_object_graph_reads. unfold mark_live, mark_live_checkpoint. solve_reads.
Qed.
End log_reads.

#[export] Hint Resolve load_reads refresh_reads missing_read_error_reads read_immutable_reads
  load_checkpoint_reads read_commit_reads tail_records_reads remember_tail_reads verify_tail_reads
  read_collection_plan_reads active_collection_candidates_reads mark_object_graph_reads
  verify_publication_reads verify_object_graph_reads verify_published_commit_reads verify_checkpoint_reads
  mark_live_reads : reads.

(** ** Results of reads *)

Section read_results.
Context `{Target} `{Blake3} `{Cbor} `{!DerivedDecode} `{ObjectPath} `{Text}.

Lemma read_attempts_Ok {A} st max (read : io A) : ∀ more tr a,
  returns (read_attempts more st max read) tr (Ok a) → ∃ tr', tr' ⊆ tr ∧ returns read tr' (Ok a).
Proof.
  induction more as [|more IH]; intros tr a Hr;
    apply read_attempts_cases in Hr
      as [(e & _ & ?)|(tr1 & tr2 & [(Hr & -> & -> & _)|(m & r1 & Hm & _ & _ & -> & Hr)])]; try done;
    try (exists tr1; split; [set_solver|done]).
  injection Hm as <-. destruct (IH _ _ Hr) as (tr' & Hs & Hr'). exists tr'. split; [set_solver|done].
Qed.

Lemma got_in tr loc inm result max stored :
  MkEv (EGet loc inm) (Ok result) ∈ tr → collect_object result max = Ok stored → got tr loc stored.
Proof. intros Hin Hc. by exists inm, result, max. Qed.

Lemma store_read_got st key max tr o :
  returns (store_read st key max) tr (Ok (Some o)) → got tr (location st key) o.
Proof.
  intros (tr' & Hs & Hr)%read_attempts_Ok. apply (got_mono tr'); [done|].
  apply returns_bind in Hr as (tr1 & tr2 & a & -> & (g & t & -> & -> & ->) & Hr).
  destruct g as [g|[]]; try (by destruct Hr). returns_inv. eapply got_in; [constructor|symmetry; eassumption].
Qed.

Lemma read_if_changed_got st key v max tr o :
  returns (read_if_changed st key v max) tr (Ok (Modified o)) → got tr (location st key) o.
Proof.
  unfold read_if_changed. destruct (e_tag v) as [t|]; [|by intros [_ ?]].
  intros (tr' & Hs & Hr)%read_attempts_Ok. apply (got_mono tr'); [done|].
  apply returns_bind in Hr as (tr1 & tr2 & a & -> & (g & t' & -> & -> & ->) & Hr).
  destruct g as [g|[]]; try (by destruct Hr). returns_inv. eapply got_in; [constructor|symmetry; eassumption].
Qed.

Context (log : Log).

Lemma view_from_stored_returns stored tr v :
  returns (view_from_stored log stored) tr (Ok v) →
  decode_head (stored_bytes stored) = Ok (view_head v) ∧ stored_version stored = view_version v
  ∧ validate_view log v = Ok ().
Proof.
  unfold view_from_stored. intros Hr. returns_inv.
  destruct (negb _) eqn:E1; [by destruct Hr|]. destruct (negb (bool_decide (head_incarnation _ = _))) eqn:E2; [by destruct Hr|].
  destruct (negb (bool_decide (head_options _ = _))) eqn:E3; [by destruct Hr|].
  unfold new_view in Hr. returns_inv.
  match goal with Hd : Ok _ = decode_head _ |- _ => rewrite <-Hd end.
  unfold validate_view. simpl. by rewrite E1, E2, E3.
Qed.

Lemma load_loaded tr v : returns (load log) tr (Ok v) → loaded log tr v.
Proof.
  unfold load. intros Hr. returns_inv.
  match goal with Hl : Ok _ = ok_or _ _ |- _ => symmetry in Hl; apply ok_or_Ok in Hl; subst end.
  apply view_from_stored_returns in Hr as (Hd & Hv & Hview). eexists. split_and!; [|done..].
  eapply got_mono; [|by eapply store_read_got]. set_solver.
Qed.

Lemma refresh_loaded view tr v : returns (refresh log view) tr (Ok (Some v)) → loaded log tr v.
Proof.
  unfold refresh. intros Hr. returns_inv.
  match type of Hr with returns (match ?r with _ => _ end) _ _ => destruct r as [|stored|] end;
    try (by destruct Hr). returns_inv.
  match goal with Hs : returns (view_from_stored _ _) _ _ |- _ =>
    apply view_from_stored_returns in Hs as (Hd & Hv & Hview) end.
  exists stored. split_and!; [|done..]. eapply got_mono; [|by eapply read_if_changed_got]. set_solver.
Qed.

Lemma validate_view_eq view :
  validate_view log view = Ok () →
  head_log_id (view_head view) = store_log_id (log_store log)
  ∧ head_incarnation (view_head view) = log_incarnation log
  ∧ head_options (view_head view) = log_options log.
Proof. unfold validate_view. intros Hv. inv_ok. bool_hyps. done. Qed.

Lemma store_read_key_got key max tr o :
  returns (store_read (log_store log) (Immutable key) max) tr (Ok (Some o)) → got tr (key_path log key) o.
Proof. apply (store_read_got (log_store log) (Immutable key)). Qed.

Lemma read_collection_plan_returns head reference tr plan :
  head_incarnation head = log_incarnation log →
  returns (read_collection_plan log head reference) tr (Ok plan) → plan_read log tr reference plan.
Proof.
  unfold read_collection_plan. intros Hi Hr. returns_inv.
  destruct (_ <? _); [by destruct Hr|]. returns_inv.
  match type of Hr with returns (match ?r with _ => _ end) _ _ => destruct r as [stored|] end.
  - destruct (_ || _) eqn:E; [by destruct Hr|]. returns_inv.
    match type of Hr with returns (if ?b then _ else _) _ _ => destruct b end; [by destruct Hr|]. returns_inv.
    exists stored. bool_hyps. split_and!; [|done|done].
    rewrite <-Hi. eapply got_mono; [|by eapply store_read_key_got]. set_solver.
  - returns_inv. destruct (plan_superseded _ _ _); by destruct Hr.
Qed.

Lemma read_immutable_got object tr b :
  returns (read_immutable log object) tr (Ok b) →
  digest_of b = obj_digest object
  ∧ ∃ stored, got tr (key_path log (object_immutable_key log object)) stored ∧ stored_bytes stored = b.
Proof.
  unfold read_immutable, read_immutable_optional. intros Hr. returns_inv.
  match goal with Hl : Ok _ = ok_or _ _ |- _ => symmetry in Hl; apply ok_or_Ok in Hl; subst end.
  match goal with Hp : returns (if ?c then _ else _) _ _ |- _ => destruct c; [by destruct Hp|] end. returns_inv.
  match goal with Hp : returns (match ?r with Some _ => _ | None => _ end) _ _ |- _ => destruct r as [stored|]; [|by destruct Hp] end.
  returns_inv.
  split.
  - match goal with Hv : Ok _ = verify_object _ _ |- _ => symmetry in Hv; unfold verify_object in Hv; inv_ok; bool_hyps; done end.
  - eexists. split; [|done]. eapply got_mono; [|by eapply store_read_key_got]. set_solver.
Qed.
End read_results.

(** ** Writes *)

Section writes.
Context `{Target} `{Blake3} `{Cbor} `{!DerivedDecode} `{ObjectPath} `{Text} (log : Log) (caller : Caller).
Context (possible : Answers).

Local Abbreviation WP := (wp (allowed log caller) possible).

Lemma wp_read {A} past (p : prog A) (Q : list Ev → A → Prop) :
  reads_only p → (∀ past' a, past ⊆ past' → Q past' a) → WP past p Q.
Proof. apply wp_reads. intros. by apply allow_reading. Qed.

Lemma wp_read_returns {A} past (p : prog A) (Q : list Ev → A → Prop) :
  reads_only p → (∀ tr a, returns p tr a → Q (past ++ tr) a) → WP past p Q.
Proof. intros Hp HQ. apply wp_returns; [intros; by apply allow_reading|done|]. intros tr a _. apply HQ. Qed.

(** Sequencing after a program that only reads. *)
Lemma wp_io_read {A B} past (p : io A) (f : A → io B) (Q : list Ev → Result B Error → Prop) :
  reads_only p → (∀ past' e, past ⊆ past' → Q past' (Err e)) →
  (∀ past' a, past ⊆ past' → WP past' (f a) Q) → WP past (io_bind p f) Q.
Proof. intros Hp He Ha. apply wp_io_bind, wp_read; [done|]. intros past' [a|e] Hs; eauto. Qed.

(** Sequencing after local work. *)
Lemma wp_io_lift {A B} past (r : Result A Error) (f : A → io B) (Q : list Ev → Result B Error → Prop) :
  (∀ e, Q past (Err e)) → (∀ a, r = Ok a → WP past (f a) Q) → WP past (io_bind (lift r) f) Q.
Proof. intros He Ha. apply wp_io_bind, wp_lift. destruct r; eauto. Qed.

Lemma wp_load past (Q : list Ev → Result View Error → Prop) :
  (∀ past' v, past ⊆ past' → loaded log past' v → Q past' (Ok v)) →
  (∀ past' e, past ⊆ past' → Q past' (Err e)) → WP past (load log) Q.
Proof.
  intros Hok Herr. apply wp_read_returns; [apply load_reads|]. intros tr [v|e] Hr; [|apply Herr; set_solver].
  apply Hok; [set_solver|]. eapply loaded_mono; [|by eapply load_loaded]. set_solver.
Qed.

Lemma wp_refresh past view (Q : list Ev → Result (option View) Error → Prop) :
  (∀ past' v, past ⊆ past' → loaded log past' v → Q past' (Ok (Some v))) →
  (∀ past', past ⊆ past' → Q past' (Ok None)) →
  (∀ past' e, past ⊆ past' → Q past' (Err e)) → WP past (refresh log view) Q.
Proof.
  intros Hok Hnone Herr. apply wp_read_returns; [apply refresh_reads|].
  intros tr [[v|]|e] Hr; [|apply Hnone; set_solver|apply Herr; set_solver].
  apply Hok; [set_solver|]. eapply loaded_mono; [|by eapply refresh_loaded]. set_solver.
Qed.

(** *** Immutable objects *)

Lemma wp_store_create past key b (Q : list Ev → Result bool Error → Prop) :
  key_incarnation key = log_incarnation log → uuid_wf (storage_uuid (key_storage_id key)) = true →
  digest_of b = key_digest key →
  (∀ past' version, past ⊆ past' → MkEv (EPut (key_path log key) b PutCreate) (Ok version) ∈ past' →
     has_content log caller past' key b → Q past' (Ok true)) →
  (∀ past' r, past ⊆ past' → r ≠ Ok true → Q past' r) →
  WP past (store_create (log_store log) (Immutable key) b) Q.
Proof.
  intros Hi Hu Hd Htrue Hrest. unfold store_create.
  apply wp_io_read; [apply admit_request_reads|intros; by apply Hrest|].
  intros past1 _ Hs1. apply wp_bind, wp_call; [by apply (allow_create log caller past1 key)|].
  intros [version|e] _.
  - apply (Htrue _ version); [set_solver|set_solver|]. right; left. exists version. set_solver.
  - destruct e; apply Hrest; solve [set_solver|done].
Qed.

Lemma wp_ensure_immutable past key b (Q : list Ev → Result () Error → Prop) :
  key_incarnation key = log_incarnation log → uuid_wf (storage_uuid (key_storage_id key)) = true →
  digest_of b = key_digest key →
  (∀ past', past ⊆ past' → has_content log caller past' key b → Q past' (Ok ())) →
  (∀ past' e, past ⊆ past' → Q past' (Err e)) →
  WP past (ensure_immutable log (Immutable key) b) Q.
Proof.
  intros Hi Hu Hd Hok Herr. unfold ensure_immutable. apply wp_bind.
  assert (∀ past1 (o : option Error), past ⊆ past1 →
    WP past1 (let! read := store_read (log_store log) (Immutable key) (len b) in
      match read with
      | Some stored => if bool_decide (stored_bytes stored = b) then ok () else fail CorruptObject
      | None => fail (default (invalid "an immutable object is missing") o)
      end) Q) as Hread.
  { intros past1 o Hs. apply wp_io_bind, wp_read_returns; [apply store_read_reads|].
    intros tr [[stored|]|e] Hr; [|apply Herr; set_solver..].
    case_bool_decide as Hb; [|apply Herr; set_solver]. apply Hok; [set_solver|].
    right; right. exists stored. split; [|done].
    eapply got_mono; [|by eapply store_read_key_got]. set_solver. }
  apply wp_store_create; [done|done|done|intros past' version Hs _ Hdur; by apply Hok|].
  intros past' [[|]|e] Hs Hne; [done|by apply Hread..].
Qed.

Section fresh.
Context (Huuid : ∀ R (e : Event R) r, possible R e r → uuid_answers R e r).

Lemma wp_fresh_object kind b length subtree blocked (Q : list Ev → Result ObjectRef Error → Prop) :
  ∀ attempts past,
  (∀ past' id, past ⊆ past' →
     possible _ ENewUuid (storage_uuid id) → MkEv ENewUuid (storage_uuid id) ∈ past' →
     let object := MkObjectRef kind id (digest_of b) length subtree in
     has_content log caller past' (object_immutable_key log object) b →
     is_blocked blocked (object_immutable_key log object) = false → Q past' (Ok object)) →
  (∀ past' e, past ⊆ past' → Q past' (Err e)) →
  WP past (fresh_object_attempts attempts log kind b length subtree blocked) Q.
Proof.
  induction attempts as [|attempts IH]; intros past Hok Herr; simpl; [by apply Herr|].
  split; [by apply allow_reading|]. intros id Hid.
  assert (past ⊆ past ++ [MkEv ENewUuid id]) as Hs0 by set_solver.
  assert (∀ past1, past ⊆ past1 →
    WP past1 (fresh_object_attempts attempts log kind b length subtree blocked) Q) as Hagain.
  { intros past1 Hs. apply IH; intros; [apply Hok|apply Herr]; eauto; set_solver. }
  destruct (is_blocked _ _) eqn:Hblk; [by apply Hagain|].
  apply wp_io_bind, wp_store_create; [done|by apply Huuid in Hid|done|..].
  - intros past' version Hs _ Hd. apply Hok; eauto; set_solver.
  - intros past' [[|]|e] Hs Hne; [done|apply Hagain; set_solver|apply Herr; set_solver].
Qed.

Lemma wp_create_fresh_object past kind b subtree blocked (Q : list Ev → Result ObjectRef Error → Prop) :
  (∀ past' object, past ⊆ past' →
     has_content log caller past' (object_immutable_key log object) b →
     is_blocked blocked (object_immutable_key log object) = false →
     obj_kind object = kind → obj_digest object = digest_of b → obj_len object = len b →
     obj_subtree_objects object = subtree →
     possible _ ENewUuid (storage_uuid (obj_storage_id object)) →
     MkEv ENewUuid (storage_uuid (obj_storage_id object)) ∈ past' → len b ≤ u64_max → Q past' (Ok object)) →
  (∀ past' e, past ⊆ past' → Q past' (Err e)) →
  WP past (create_fresh_object_with log kind b subtree blocked) Q.
Proof.
  intros Hok Herr. unfold create_fresh_object_with. apply wp_io_lift; [by intros; apply Herr|].
  intros length [-> [_ Hl]]%ok_or_Ok%u64_try_from_Some. apply wp_fresh_object; [|done].
  intros past' id Hs Hid Hin object Hd Hb. by apply Hok.
Qed.

Lemma wp_create_plan past plan (Q : list Ev → Result CollectionPlanRef Error → Prop) :
  (∀ past' r b version, past ⊆ past' →
     durable log caller past' (collection_plan_key (log_incarnation log) r) →
     encode_collection_plan plan (log_options log) = Ok b → digest_of b = plan_digest r →
     MkEv (EPut (key_path log (collection_plan_key (log_incarnation log) r)) b PutCreate) (Ok version) ∈ past' →
     possible _ ENewUuid (storage_uuid (plan_storage_id r)) →
     (uuid_wf (storage_uuid (plan_storage_id r)) = true → plan_ref_wf r = true) → Q past' (Ok r)) →
  (∀ past' e, past ⊆ past' → Q past' (Err e)) →
  WP past (create_collection_plan log plan) Q.
Proof.
  intros Hok Herr. unfold create_collection_plan.
  apply wp_io_lift; [by intros; apply Herr|]. intros b Hb.
  apply wp_io_lift; [by intros; apply Herr|]. intros length [-> Hl]%ok_or_Ok%u64_try_from_Some.
  generalize 16%nat. intros attempts. revert past Hok Herr.
  induction attempts as [|attempts IH]; intros past Hok Herr; simpl; [by apply Herr|].
  split; [by apply allow_reading|]. intros id Hid.
  apply wp_io_bind, wp_store_create; [done|by apply Huuid in Hid|done|..].
  - intros past' version Hs Hin Hd. eapply Hok; [set_solver|by eapply stored_durable|done|done|done|done|]. intros Hu.
    apply plan_ref_created_wf; [done|done].
  - intros past' [[|]|e] Hs Hne; [done| |apply Herr; set_solver].
    apply IH; [|intros; apply Herr; set_solver]. intros past1 r b' version Hs1. eapply Hok. set_solver.
Qed.

End fresh.

(** *** Heads *)

Lemma wp_update_head past view candidate (Q : list Ev → Result (option View) Error → Prop) :
  witnessed log caller past view → validate_view log view = Ok () →
  head_write log caller past (view_head view) candidate → head_typed candidate →
  (∀ past' next, past ⊆ past' → acknowledged log past' next → view_head next = candidate →
     Q past' (Ok (Some next))) →
  (∀ past', past ⊆ past' → Q past' (Ok None)) →
  (∀ past' e, past ⊆ past' → Q past' (Err e)) →
  WP past (update_head log view candidate) Q.
Proof.
  intros Hw Hview Hh Ht Hok Hnone Herr. unfold update_head.
  apply wp_io_lift; [by intros; apply Herr|]. intros b Hb.
  apply wp_io_lift; [by intros; apply Herr|]. intros [] Hsize.
  apply wp_io_bind. unfold store_update.
  apply wp_io_read; [apply admit_request_reads|intros; by apply Herr|].
  intros past1 _ Hs1. apply wp_bind, wp_call.
  { apply (allow_head log caller past1 view candidate); eauto with protocol.
    unfold validate_head_size in Hsize. inv_ok. lia. }
  intros [version|e] _.
  - split; [by apply allow_reading|]. intros id _. apply Hok; [set_solver| |done].
    split; [done|]. exists (view_version view), b. split; [set_solver|done].
  - destruct e; try (apply Herr; set_solver); apply Hnone; set_solver.
Qed.

(** *** Publication *)

Lemma compatible_view_Some source current compatible v :
  compatible_publication_view source current compatible = Ok (Some v) →
  v = current ∧ (view_head current = view_head source ∨ compatible (view_head source) (view_head current) = true).
Proof.
  unfold compatible_publication_view. intros Hv.
  destruct (_ && _) eqn:E; [inv_ok; bool_hyps; auto|].
  destruct (compatible _ _); simpl in Hv; inv_ok; auto.
Qed.

Section publication.
Context (source : View) (candidate : View → Result Head Error) (compatible : Head → Head → bool).
Context `{!CborLaws} `{!DerivedDecodeLaws}.

(** The views a publication from [source] is attempted on. *)
Definition target (v : View) : Prop :=
  v = source ∨ compatible (view_head source) (view_head v) = true.

(** What each outcome of a publication says. *)
Definition publication_post (past : list Ev) (r : Result HeadPublication Error) : Prop :=
  match r with
  | Ok (Updated next) =>
      acknowledged log past next ∧ ∃ v, target v ∧ candidate v = Ok (view_head next)
  | Ok (Changed current g) =>
      loaded log past current ∧ compatible (view_head source) (view_head current) = false
      ∧ ∃ v, target v ∧ head_generation (view_head v) = g
  | Ok (Contended current) =>
      loaded log past current ∧ compatible (view_head source) (view_head current) = true
  | Ok PublicationPending => True
  | Err _ => True
  end.

Lemma wp_publish_attempts : ∀ more past view,
  witnessed log caller past view → validate_view log view = Ok () → target view →
  (∀ past' v h, past ⊆ past' → witnessed log caller past' v → target v → head_typed (view_head v) → candidate v = Ok h →
     head_write log caller past' (view_head v) h ∧ head_typed h) →
  WP past (publish_attempts more log source view candidate compatible) publication_post.
Proof.
  induction more as [|more IH]; intros past view Hw Hview Ht Hc; simpl;
    (apply wp_io_lift; [done|]; intros h Hh;
     destruct (Hc past view h ltac:(done) Hw Ht ltac:(by eapply witnessed_typed) Hh) as [Hwrite Htyped];
     apply wp_bind; apply wp_update_head; [done|done|done|done| | |intros past' [] Hs; done];
     [intros past' next Hs Ha <-; simpl; split; [done|]; by exists view|]);
    (intros past1 Hs1; apply wp_bind, wp_load;
      [|intros past2 e Hs2; apply wp_io_lift; [done|]; intros [v|] He;
        [by destruct e|done]]);
    (intros past2 current Hs2 Hl; simpl; apply wp_io_lift; [done|]; intros o [= <-];
     destruct (compatible _ _) eqn:Hcomp; simpl; [|by split_and!; eauto];
     destruct (same_view _ _); [done|]; destruct (_ <=? _); [done|]).
  - done.
  - apply IH; [by right; left|by eapply loaded_view|by right|]. intros past' v h' Hs. apply Hc. set_solver.
Qed.

Lemma wp_publish past :
  witnessed log caller past source → validate_view log source = Ok () →
  (∀ past' v h, past ⊆ past' → witnessed log caller past' v → target v → head_typed (view_head v) → candidate v = Ok h →
     head_write log caller past' (view_head v) h ∧ head_typed h) →
  WP past (publish_head_compatible log source candidate compatible) publication_post.
Proof. intros Hw Hview Hc. apply wp_publish_attempts; [done|done|by left|done]. Qed.
End publication.
End writes.
