(* ===== verification/Progress.v ===== *)
(** * Progress

    A commit makes progress whenever its environment lets it: when guards admit and storage
    acknowledges every write, a commit of objects this handle staged, on a head without a
    collection plan, is committed, with exactly two writes. *)

From S2P Require Import Prelude Types Head Cbor Wire Format Typed Prog Wp Store Log LogOps Protocol.

Section progress.
Context `{Target} `{Blake3} `{Cbor} `{!DerivedDecode} `{ObjectPath} `{Text}.

(** Every request is admitted and every write acknowledged. *)
Definition granted R (e : Event R) : R → Prop :=
  match e with
  | EAdmit _ _ => λ admitted, admitted = true
  | EPut _ _ _ => λ r, ∃ version, r = Ok version
  | _ => λ _, True
  end.

Local Abbreviation WP := (wp (λ _ _ _, True) granted).

Lemma ev_puts_snoc past R (e : Event R) r : (match e with EPut _ _ _ => False | _ => True end) →
  ev_puts (past ++ [MkEv e r]) = ev_puts past.
Proof. intros He. rewrite ev_puts_app. destruct e; try done; apply app_nil_r. Qed.

Lemma wp_quiet_call {R} past (e : Event R) (Q : list Ev → R → Prop) :
  (match e with EPut _ _ _ => False | _ => True end) →
  (∀ past' r, ev_puts past' = ev_puts past → granted R e r → Q past' r) → WP past (call e) Q.
Proof. intros He HQ. split; [done|]. intros r Hr. apply HQ; [by apply ev_puts_snoc|done]. Qed.

Lemma wp_before_request g request : ∀ past (Q : list Ev → bool → Prop),
  (∀ past', ev_puts past' = ev_puts past → Q past' true) → WP past (before_request g request) Q.
Proof.
  induction g as [id|g1 IH1 g2 IH2]; intros past Q HQ; cbn [before_request].
  - apply wp_quiet_call; [done|]. intros past' r Hp ->. by apply HQ.
  - apply wp_bind, IH1. intros past1 Hp1. apply IH2. intros past2 Hp2. apply HQ. congruence.
Qed.

Lemma wp_admit past st request (Q : list Ev → Result () Error → Prop) :
  (∀ past', ev_puts past' = ev_puts past → Q past' (Ok ())) → WP past (admit_request st request) Q.
Proof.
  intros HQ. unfold admit_request. destruct (store_guard st) as [g|]; [|by apply HQ].
  apply wp_bind, wp_before_request. intros past' Hp. by apply HQ.
Qed.

Lemma wp_create past st key b (Q : list Ev → Result bool Error → Prop) :
  (∀ past', ev_puts past' = ev_puts past ++ [(location st key, b, PutCreate)] → Q past' (Ok true)) →
  WP past (store_create st key b) Q.
Proof.
  intros HQ. unfold store_create. apply wp_io_bind, wp_admit. intros past1 Hp1.
  apply wp_bind, wp_call; [done|]. intros r [version ->]. apply HQ. by rewrite ev_puts_app, Hp1.
Qed.

Lemma wp_update past st key b observed (Q : list Ev → Result (option UpdateVersion) Error → Prop) :
  (∀ past' version, ev_puts past' = ev_puts past ++ [(location st key, b, PutUpdate observed)] →
     Q past' (Ok (Some version))) →
  WP past (store_update st key b observed) Q.
Proof.
  intros HQ. unfold store_update. apply wp_io_bind, wp_admit. intros past1 Hp1.
  apply wp_bind, wp_call; [done|]. intros r [version ->]. apply HQ. by rewrite ev_puts_app, Hp1.
Qed.

Lemma wp_update_head_granted past log view h hb (Q : list Ev → Result (option View) Error → Prop) :
  encode_head h = Ok hb → len hb ≤ max_head_bytes (log_options log) →
  (∀ past' v, ev_puts past' = ev_puts past ++ [(head_path log, hb, PutUpdate (view_version view))] →
     view_head v = h → Q past' (Ok (Some v))) →
  WP past (update_head log view h) Q.
Proof.
  intros He Hlen HQ. unfold update_head. rewrite He. apply wp_io_bind, wp_lift. cbn beta iota.
  unfold validate_head_size. destruct (_ <? _) eqn:E; [lia|]. apply wp_io_bind, wp_lift. cbn beta iota.
  apply wp_io_bind, wp_update. intros past1 version Hp1. apply wp_bind, wp_bind, wp_quiet_call; [done|].
  intros past2 id Hp2 _. apply HQ; [|done]. by rewrite Hp2, Hp1.
Qed.

(** The first attempt to publish succeeds. *)
Lemma wp_publish_granted past log source candidate compatible h hb (Q : list Ev → Result HeadPublication Error → Prop) :
  candidate source = Ok h → encode_head h = Ok hb → len hb ≤ max_head_bytes (log_options log) →
  (∀ past' v, ev_puts past' = ev_puts past ++ [(head_path log, hb, PutUpdate (view_version source))] →
     view_head v = h → Q past' (Ok (Updated v))) →
  WP past (publish_head_compatible log source candidate compatible) Q.
Proof.
  intros Hc He Hlen HQ. unfold publish_head_compatible. generalize (MAX_HEAD_PUBLICATION_ATTEMPTS - 1)%nat.
  intros [|more]; cbn [publish_attempts]; rewrite Hc; apply wp_io_bind, wp_lift; cbn beta iota;
    apply wp_bind; (eapply wp_update_head_granted; [exact He|exact Hlen|exact HQ]).
Qed.

Lemma wp_commit_granted log prepared c b h hb :
  validate_prepared log prepared = Ok () → encode_prepared log prepared = Ok (c, b) →
  candidate_head (view_head (prep_view prepared)) c = Ok h → encode_head h = Ok hb →
  len hb ≤ max_head_bytes (log_options log) →
  proof_matches log (prep_staging_domain prepared) = true → head_active_plan (view_head (prep_view prepared)) = None →
  WP [] (commit log prepared) (λ past r, ∃ v, r = Ok (CommitCommitted v) ∧ view_head v = h
    ∧ ev_puts past = [(key_path log (commit_immutable_key log c), b, PutCreate);
                      (head_path log, hb, PutUpdate (view_version (prep_view prepared)))]).
Proof.
  intros Hv He Hc Hh Hlen Hproof Hplan. unfold commit. rewrite Hv, He.
  apply wp_io_bind, wp_lift. cbn beta iota. apply wp_io_bind, wp_lift. cbn beta iota.
  unfold verify_publication, active_collection_candidates. rewrite Hproof, Hplan.
  apply wp_io_bind, wp_io_bind, wp_lift. cbn beta iota. apply wp_lift. cbn beta iota.
  apply wp_io_bind. unfold ensure_immutable. apply wp_bind, wp_create. intros past1 Hp1. cbn beta iota.
  apply wp_io_bind. eapply wp_publish_granted; [exact Hc|exact Hh|exact Hlen|]. intros past2 v Hp2 Hvh.
  cbn beta iota. unfold tail_is_verified. apply wp_io_bind, wp_bind, wp_quiet_call; [done|].
  intros past3 proof Hp3 _. apply wp_lift. cbn beta iota.
  assert (∀ past4, ev_puts past4 = ev_puts past3 → ∃ v0, Ok (CommitCommitted v) = Ok (E := Error) (CommitCommitted v0)
    ∧ view_head v0 = h ∧ ev_puts past4
      = [(key_path log (commit_immutable_key log c), b, PutCreate);
         (head_path log, hb, PutUpdate (view_version (prep_view prepared)))]) as Hdone.
  { intros past4 Hp4. exists v. split_and!; [done|done|]. rewrite Hp4, Hp3, Hp2, Hp1. done. }
  apply wp_io_bind. destruct (match proof with Some _ => _ | None => _ end); [|by apply Hdone].
  unfold remember_tail. apply wp_bind, wp_quiet_call; [done|]. intros past4 [] Hp4 _. by apply Hdone.
Qed.

(** C14. Progress: when every request is admitted and every write acknowledged, a commit
    that this handle prepared and staged, within its limits and on a head without a
    collection plan, is committed at its first attempt: it writes its record and then the
    head, nothing else, and returns the head that names it. *)
Theorem commit_makes_progress log prepared c b h hb tr r :
  validate_prepared log prepared = Ok () → encode_prepared log prepared = Ok (c, b) →
  candidate_head (view_head (prep_view prepared)) c = Ok h → encode_head h = Ok hb →
  len hb ≤ max_head_bytes (log_options log) →
  proof_matches log (prep_staging_domain prepared) = true →
  head_active_plan (view_head (prep_view prepared)) = None →
  possible_trace granted tr → returns (commit log prepared) tr r →
  (∃ v, r = Ok (CommitCommitted v) ∧ view_head v = h)
  ∧ ev_puts tr = [(key_path log (commit_immutable_key log c), b, PutCreate);
                  (head_path log, hb, PutUpdate (view_version (prep_view prepared)))].
Proof.
  intros Hv He Hc Hh Hlen Hproof Hplan Hg Hr.
  destruct (wp_sound _ _ [] _ _ _ _ (wp_commit_granted log prepared c b h hb Hv He Hc Hh Hlen Hproof Hplan) Hg Hr)
    as [_ (v & -> & Hvh & Hp)].
  split; [by exists v|done].
Qed.
End progress.
