(* ===== verification/CommitProtocol.v ===== *)
(** * Commits and their recovery follow the protocol

    What [Log::commit], [resolve] and [resume] do to shared storage under every
    sequence of answers, and what each outcome they report is worth. *)

From S2P Require Import Prelude Types Head LogSpec Cbor Wire Format Typed Prog Wp Store StoreProps Log LogOps LogMaintain.
From S2P Require Import Protocol ProtocolSpecs.

Section commits.
Context `{Target} `{Blake3} `{CborLaws} `{!DerivedDecode} `{!DerivedDecodeLaws} `{ObjectPath} `{Text}.
Context (log : Log) (caller : Caller).
Context (possible : Answers).

Local Abbreviation WP := (wp (allowed log caller) possible).

(** ** Loaded heads *)

Lemma decode_head_valid b h : decode_head b = Ok h → validate h = Ok ().
Proof. unfold decode_head. intros Hd. inv_ok. by destruct (validate h) as [[]|]. Qed.

Lemma loaded_ok past v : loaded log past v → head_ok (view_head v).
Proof. intros (o & _ & Hd & _). eapply validate_Ok_head_ok, decode_head_valid, Hd. Qed.

(** A commit at the next sequence is not yet among the entries. *)
Lemma fresh_sequence_absent h v c :
  head_ok h → view_head v = h → commit_sequence c = head_next_sequence h → contains_commit v c = false.
Proof.
  intros Hok <- Hseq. apply not_true_iff_false. unfold contains_commit. rewrite existsb_exists.
  intros (e & He%list_elem_of_In & Heq%bool_decide_eq_true_1). subst e.
  pose proof (ok_next _ Hok). unfold head_entries in He. apply elem_of_app in He as [He|He].
  - apply list_elem_of_lookup in He as [i Hi]. pose proof (ok_tail _ Hok i c Hi).
    apply lookup_lt_Some in Hi. unfold len in *. lia.
  - apply list_elem_of_lookup in He as [i Hi]. pose proof (ok_outcomes _ Hok i c Hi).
    apply lookup_lt_Some in Hi. unfold len in *. lia.
Qed.

Lemma candidate_contains v h c next :
  candidate_head h c = Ok (view_head next) → v = next → contains_commit v c = true.
Proof.
  intros (Hh & _)%candidate_head_Ok ->. unfold contains_commit, head_entries. rewrite Hh. simpl.
  apply existsb_exists. exists c. split; [|by apply bool_decide_eq_true_2].
  apply list_elem_of_In. set_solver.
Qed.

Lemma classify_Committed c v v' :
  classify_resolution c v = Ok (Committed v') → v' = v ∧ contains_commit v c = true.
Proof.
  unfold classify_resolution. destruct (contains_commit v c); [by intros [= <-]|].
  destruct (_ <? _); [destruct (existsb _ _)|destruct (_ <? _)]; congruence.
Qed.

Lemma classify_other c v r :
  classify_resolution c v = Ok r → (∀ v', r ≠ Committed v') →
  contains_commit v c = false ∧ (r = NotCommitted v ∨ r = Expired v ∧ commit_sequence c < head_next_sequence (view_head v)).
Proof.
  unfold classify_resolution. intros Hr Hne. destruct (contains_commit v c).
  { inv_ok. by destruct (Hne v). }
  destruct (_ <? _) eqn:E; [destruct (existsb _ _)|]; inv_ok; split; auto.
  right. split; [done|]. lia.
Qed.

Lemma encode_prepared_ref prepared c b :
  encode_prepared log prepared = Ok (c, b) →
  commit_sequence c = head_next_sequence (view_head (prep_view prepared))
  ∧ digest_of b = commit_digest c ∧ commit_transaction_id c = prep_transaction_id prepared
  ∧ commit_storage_id c = prep_storage_id prepared.
Proof. unfold encode_prepared. intros He. by inv_ok. Qed.

(** The identifiers of a prepared commit are 16-byte values. *)
Definition prepared_typed (prepared : PreparedCommit) : Prop :=
  uuid_wf (transaction_uuid (prep_transaction_id prepared)) = true
  ∧ uuid_wf (storage_uuid (prep_storage_id prepared)) = true.

Lemma encode_prepared_wf prepared c b :
  encode_prepared log prepared = Ok (c, b) → prepared_typed prepared →
  in_u64 (commit_sequence c) = true → commit_ref_wf c = true.
Proof.
  unfold encode_prepared. intros He [Ht Hi] Hs. inv_ok.
  match goal with Hu : u64_try_from _ = Some _ |- _ => apply u64_try_from_Some in Hu as [-> Hl] end.
  by apply commit_ref_created_wf.
Qed.

(** ** Publishing a commit *)

Lemma same_base_next h h' : has_same_publication_base h h' = true → head_next_sequence h' = head_next_sequence h.
Proof. intros Hb. by rewrite (same_publication_base_eq _ _ Hb). Qed.

Lemma same_base_epoch h h' :
  has_same_publication_base h h' = true → head_collection_epoch h' = head_collection_epoch h.
Proof. intros Hb. by rewrite (same_publication_base_eq _ _ Hb). Qed.

Lemma wp_publish_commit past source c b :
  witnessed log caller past source → validate_view log source = Ok () →
  commit_sequence c = head_next_sequence (view_head source) → digest_of b = commit_digest c →
  has_content log caller past (commit_immutable_key log c) b →
  grounded_in log caller past (commit_immutable_key log c) b (head_collection_epoch (view_head source)) →
  (in_u64 (commit_sequence c) = true → commit_ref_wf c = true) →
  WP past (publish_head log source (λ v, candidate_head (view_head v) c))
    (publication_post log source (λ v, candidate_head (view_head v) c) has_same_publication_base).
Proof.
  intros Hw Hview Hseq Hdig Hd Hdrawn Hc. apply wp_publish; [done..|].
  assert (commit_ref_wf c = true) as Hwf.
  { apply Hc. rewrite Hseq. by eapply typed_next, witnessed_typed. }
  intros past' v h Hs Hwv Ht Htyped Hh. split; [|by eapply candidate_typed].
  assert (head_collection_epoch (view_head v) = head_collection_epoch (view_head source)) as He.
  { destruct Ht as [->|Ht]; [done|]. by apply same_base_epoch in Ht. }
  apply (write_commit log caller past' _ c b); [|done|by eapply has_content_mono|rewrite He; by eapply Hdrawn|done].
  rewrite Hseq. destruct Ht as [->|Ht]; [done|]. by apply same_base_next in Ht.
Qed.

(** ** Commit *)

(** What a commit's outcome says: the commit record is durable; [Committed] carries an
    observed head that names it; [Conflict] carries a decoded durable head that does
    not; [Pending] keeps the evidence to resolve it. *)
Definition commit_post (prepared : PreparedCommit) (past : list Ev) (r : Result CommitStatus Error) : Prop :=
  match r with
  | Err _ => True
  | Ok status =>
      ∃ c b, encode_prepared log prepared = Ok (c, b) ∧ durable log caller past (commit_immutable_key log c)
      ∧ match status with
        | CommitCommitted v => witnessed log caller past v ∧ contains_commit v c = true
        | CommitConflict v => loaded log past v ∧ contains_commit v c = false
        | CommitPending p =>
            pending_commit_ref p = c
            ∧ pending_prepared p = Some (with_domain prepared (log_staging_domain log))
        end
  end.

(** The record of a prepared commit is grounded in its view's epoch. *)
Definition prepared_grounded (past : list Ev) (prepared : PreparedCommit) : Prop :=
  ∀ c b, encode_prepared log prepared = Ok (c, b) →
    grounded_in log caller past (commit_immutable_key log c) b (head_collection_epoch (view_head (prep_view prepared))).

(** The caller drew the identity of a prepared commit and staged its objects in the
    collection epoch of its view. *)
Definition prepared_known (prepared : PreparedCommit) : Prop :=
  id_known caller (prep_storage_id prepared) (prep_view prepared)
  ∧ ∀ c b, encode_prepared log prepared = Ok (c, b) → refs_known log caller KCommit b (prep_view prepared).

Lemma known_prepared past prepared : prepared_known prepared → prepared_grounded past prepared.
Proof.
  intros [Hi Hr] c b He. apply known_grounded; [|by eapply Hr]. simpl. by apply encode_prepared_ref in He as (_ & _ & _ & ->).
Qed.

Lemma wp_commit past prepared :
  witnessed log caller past (prep_view prepared) → prepared_typed prepared → prepared_grounded past prepared →
  WP past (commit log prepared) (commit_post prepared).
Proof.
  intros Hk Htyped Hdrawn. unfold commit. apply wp_io_lift; [done|]. intros [] Hprep.
  assert (validate_view log (prep_view prepared) = Ok ()) as Hview.
  { unfold validate_prepared in Hprep. by destruct (validate_view _ _) as [[]|]. }
  apply wp_io_lift; [done|]. intros [c b] He. pose proof (encode_prepared_ref _ _ _ He) as (Hseq & Hdig & _ & Hstore).
  apply wp_io_read; [apply verify_publication_reads|done|]. intros past1 [] Hs1.
  apply wp_io_bind, wp_ensure_immutable; [done|simpl; rewrite Hstore; by apply Htyped|done| |done]. intros past2 Hs2 Hd.
  apply wp_io_bind. eapply wp_mono; [eapply wp_publish_commit; [eapply witnessed_mono; [|done]; set_solver|done|done|done|done| |by eapply encode_prepared_wf]|].
  { eapply grounded_in_mono; [|by apply Hdrawn]. set_solver. }
  apply (stored_durable log caller _ (commit_immutable_key log c)) in Hd; [|done].
  intros past3 r Hs3 Hpost. destruct r as [[next|current g|current|]|e]; cbv beta iota; simpl in Hpost; [..|done].
  - destruct Hpost as (Ha & v & _ & Hc).
    unfold tail_is_verified. apply wp_io_read; [solve_reads|done|]. intros past4 verified Hs4.
    apply wp_io_read; [destruct verified; [apply remember_tail_reads|done]|done|]. intros past5 [] Hs5.
    exists c, b. split_and!; [done| | |by eapply candidate_contains].
    + eapply durable_mono; [|done]. set_solver.
    + right; right. eapply acknowledged_mono; [|done]. set_solver.
  - destruct Hpost as (Hl & _ & _). apply wp_io_lift; [done|]. intros k Hk'.
    destruct k as [v|v|v]; (exists c, b; split; [done|]).
    + apply classify_Committed in Hk' as [-> Hc]. split; [by eapply durable_mono|].
      split; [by right; left|done].
    + apply classify_other in Hk' as [Hc [[= ->]|[? _]]]; [|done|done].
      split; [by eapply durable_mono|done].
    + split; [by eapply durable_mono|done].
  - destruct Hpost as (Hl & Hb%same_base_next). exists c, b. split_and!; [done|by eapply durable_mono|done|].
    eapply fresh_sequence_absent; [by eapply loaded_ok|done|]. simpl in Hb. lia.
  - exists c, b. split_and!; [done|by eapply durable_mono|done|done].
Qed.

(** ** Recovery *)

(** What a resolution says of the commit [c]. *)
Definition resolution_post (c : CommitRef) (past : list Ev) (r : Result Resolution Error) : Prop :=
  match r with
  | Ok (ResCommitted v) => witnessed log caller past v ∧ contains_commit v c = true
  | Ok (ResNotCommitted v) => loaded log past v ∧ contains_commit v c = false
  | Ok (ResExpired v) =>
      loaded log past v ∧ contains_commit v c = false
      ∧ commit_sequence c < head_next_sequence (view_head v)
  | Ok (ResStillPending p) => pending_commit_ref p = c
  | Err _ => True
  end.

Lemma resolution_of_post past c v k :
  loaded log past v → classify_resolution c v = Ok k → resolution_post c past (Ok (resolution_of k)).
Proof.
  intros Hl Hk. destruct k as [v'|v'|v']; simpl.
  - apply classify_Committed in Hk as [-> Hc]. split; [by right; left|done].
  - apply classify_other in Hk as [Hc [[= ->]|[? _]]]; done.
  - apply classify_other in Hk as [Hc [?|[[= ->] ?]]]; done.
Qed.

Lemma evidence_missing_reads {A} (p : io A) : reads_only p → reads_only (evidence_missing p).
Proof. intros Hp. unfold evidence_missing. solve_reads. Qed.

(** The retried publication of [resolve_prepared]. *)
Lemma wp_retry_commit past view c b pending :
  loaded log past view → commit_sequence c = head_next_sequence (view_head view) → digest_of b = commit_digest c →
  has_content log caller past (commit_immutable_key log c) b → pending_commit_ref pending = c →
  grounded_in log caller past (commit_immutable_key log c) b (head_collection_epoch (view_head view)) →
  (in_u64 (commit_sequence c) = true → commit_ref_wf c = true) →
  WP past (let* published := publish_head log view (λ v, candidate_head (view_head v) c) in
    match published with
    | Ok (Updated v) => ok (ResCommitted v)
    | Ok PublicationPending | Err (EStore _) | Err ERequestDenied => ok (ResStillPending pending)
    | Ok (Contended current) => ok (ResNotCommitted current)
    | Err error => fail error
    | Ok (Changed current _) =>
        let! k := lift (classify_resolution c current) in ok (resolution_of k)
    end) (resolution_post c).
Proof.
  intros Hl Hseq Hdig Hd Hp Hdrawn Hwf. apply wp_bind.
  eapply wp_mono; [eapply wp_publish_commit; [by right; left|by eapply loaded_view|done|done|done|done|done]|].
  intros past' r Hs Hpost. destruct r as [[next|current g|current|]|e]; cbv beta iota; simpl in Hpost.
  - destruct Hpost as (Ha & v & _ & Hc). split; [by right; right|by eapply candidate_contains].
  - destruct Hpost as (Hl' & _ & _). apply wp_io_lift; [done|]. intros k Hk. by eapply resolution_of_post.
  - destruct Hpost as (Hl' & Hb%same_base_next). split; [done|].
    eapply fresh_sequence_absent; [by eapply loaded_ok|done|]. lia.
  - done.
  - by destruct e.
Qed.

Lemma validate_pending_ref prepared c :
  validate_pending log prepared c = Ok () → ∃ b, encode_prepared log prepared = Ok (c, b).
Proof. unfold validate_pending. intros Hv. inv_ok. case_match; inv_ok; bool_hyps; subst; eauto. Qed.

Lemma wp_resolve_prepared past prepared c token :
  (proof_matches log (prep_staging_domain prepared) = true → ∀ b, encode_prepared log prepared = Ok (c, b) →
     known_content caller (commit_immutable_key log c) b) →
  prepared_typed prepared → prepared_grounded past prepared →
  WP past (resolve_prepared log prepared c token) (resolution_post c).
Proof.
  intros Hknown Htyped Hdrawn. unfold resolve_prepared. apply wp_io_lift; [done|]. intros [] Hv.
  apply validate_pending_ref in Hv as [b He]. pose proof (encode_prepared_ref _ _ _ He) as (Hseq & Hdig & _ & Hstore).
  pose proof (encode_prepared_wf _ _ _ He Htyped) as Hwf. apply wp_bind, wp_load; [|intros past1 e Hs1; apply wp_io_lift; [done|]; intros [v|] Ho; [by destruct e|done]].
  intros past1 current Hs1 Hl. apply wp_io_lift; [done|]. intros o [= <-].
  apply wp_io_lift; [done|]. intros [view|] Hview.
  - apply compatible_view_Some in Hview as [-> Hcomp].
    assert (commit_sequence c = head_next_sequence (view_head current)) as Hseq'.
    { rewrite Hseq. destruct Hcomp as [->|Hb%same_base_next]; done. }
    assert (grounded_in log caller past (commit_immutable_key log c) b (head_collection_epoch (view_head current))) as Hdrawn'.
    { specialize (Hdrawn _ _ He). destruct Hcomp as [->|Hb%same_base_epoch]; [done|]. by rewrite Hb. }
    apply wp_io_lift; [done|]. intros [c' b'] He'. rewrite He in He'. injection He' as <- <-.
    apply wp_io_read; [apply evidence_missing_reads, verify_publication_reads|done|].
    intros past2 [|] Hs2; [done|]. apply wp_io_bind.
    destruct (proof_matches _ _) eqn:Hproof; cbv beta iota delta [negb].
    + apply (wp_retry_commit _ _ _ b); [eapply loaded_mono; [|done]; set_solver|done|done|by left; apply Hknown|done|eapply grounded_in_mono; [|done]; set_solver|done].
    + unfold evidence_missing at 1. apply wp_bind, wp_ensure_immutable; [done|simpl; rewrite Hstore; by apply Htyped|done| |].
      * intros past3 Hs3 Hd. apply (wp_retry_commit _ _ _ b); [eapply loaded_mono; [|done]; set_solver|done|done|done|done|eapply grounded_in_mono; [|done]; set_solver|done].
      * intros past3 e Hs3. apply wp_io_lift; [done|]. intros [[]|] Ho; [by destruct e|done].
  - apply wp_io_lift; [done|]. intros k Hk. apply wp_io_read; [|done|].
    + pose proof verify_published_commit_reads. destruct k; try done.
      destruct (_ && _); [|done]. by apply evidence_missing_reads.
    + intros past2 [|] Hs2; [done|]. eapply resolution_of_post; [|done]. by eapply loaded_mono.
Qed.

(** The token was made for this head, or for one with its publication base. *)
Definition token_matches (t : RecoveryToken) (h : Head) : Prop :=
  (∃ b, encode_head h = Ok b ∧ digest_of b = tok_head_digest t)
  ∨ publication_base_digest h = Ok (tok_publication_base_digest t).

(** The identity of the token was drawn, and the objects of its record were staged, for the
    heads it matches. *)
Definition token_known (token : bytes) : Prop :=
  ∀ t h, decode_recovery_token token = Ok t → token_matches t h →
    known_id caller (tok_storage_id t) h
    ∧ ∀ o, o ∈ content_refs (log_options log) KCommit (encode_commit (recovered_body t)) → known_object caller o h.

(** The record rebuilt on a matching head is the token's. *)
Lemma recovered_record t c current domain c' b :
  recovered_commit_ref log t = Ok c → tip (view_head current) = tok_tip t →
  encode_prepared log (MkPreparedCommit current domain (tok_transaction_id t) (tok_storage_id t) (tok_operation t)
    (tok_result t) (tok_objects t)) = Ok (c', b) →
  b = encode_commit (recovered_body t) ∧ commit_storage_id c' = tok_storage_id t.
Proof.
  unfold recovered_commit_ref, encode_prepared. intros Hr Ht He. inv_ok. bool_hyps. split; [|done].
  unfold prepared_body, recovered_body. simpl. by rewrite Ht; congruence.
Qed.

(** A token that resolves describes a commit, and the resolution is about it. *)
Definition resume_post (token : bytes) (past : list Ev) (r : Result Resolution Error) : Prop :=
  match r with
  | Ok _ => ∃ t c, decode_recovery_token token = Ok t ∧ recovered_commit_ref log t = Ok c
      ∧ resolution_post c past r
  | Err _ => True
  end.

Lemma wp_resume_token past token :
  (∀ R (e : Event R) r, possible R e r → fresh_arcs log R e r) → token_known token →
  WP past (resume log token) (resume_post token).
Proof.
  intros Hfresh Htoken. unfold resume. apply wp_io_lift; [done|]. intros t Ht.
  apply wp_io_lift; [done|]. intros c Hc.
  apply (wp_mono _ _ _ _ (resolution_post c)).
  2:{ intros past' [r|e] Hs Hpost; [by exists t, c|done]. }
  apply wp_bind, wp_load; [|intros past1 e Hs1; apply wp_io_lift; [done|]; intros [v|] Ho; [by destruct e|done]].
  intros past1 current Hs1 Hl. apply wp_io_lift; [done|]. intros o [= <-].
  apply wp_io_lift; [done|]. intros head_bytes Hbytes. apply wp_io_lift; [done|]. intros base Hbase.
  destruct (_ || _) eqn:Hmatch.
  - destruct (negb _ || negb _) eqn:Hsource; [done|].
    apply orb_false_iff in Hsource as [_ Htip]. apply negb_false_iff, bool_decide_eq_true_1 in Htip.
    apply wp_bind, wp_call; [by apply allow_reading|].
    intros domain Hdom%Hfresh. apply wp_io_lift; [done|]. intros [c' b'] _.
    destruct (negb _) eqn:Hc'; [done|]. apply wp_io_bind. eapply wp_mono; [apply wp_resolve_prepared|].
    + simpl. unfold proof_matches. simpl in Hdom. intros ?%Z.eqb_eq. done.
    + by eapply decode_token_typed.
    + assert (token_matches t (view_head current)) as Hm.
      { apply orb_prop in Hmatch as [Hm|Hm]; bool_hyps; subst; [left; eauto|by right]. }
      destruct (Htoken _ _ Ht Hm) as [Hi Ho].
      intros c0 b0 He0 past2 v Hs2 Hw He. apply (recovered_record _ _ _ _ _ _ Hc Htip) in He0 as [-> Hid].
      assert (witnessed log caller past2 current) as Hcur by (right; left; eapply loaded_mono; [|done]; set_solver).
      split.
      * exists current. split_and!; [done|done|left]. simpl. by rewrite Hid.
      * intros o Hin. exists current. split_and!; [done|done|by apply Ho].
    + intros past2 [[v|v|p|v]|e] Hs2 Hpost; done.
  - clear Hmatch. destruct (_ && _); [done|]. apply wp_io_lift; [done|]. intros k Hk. apply wp_io_read; [|done|].
    + pose proof verify_published_commit_reads. destruct k; try done.
      destruct (tail_contains _ _); [|done]. by apply evidence_missing_reads.
    + intros past2 [|] Hs2; [done|]. eapply resolution_of_post; [|done]. by eapply loaded_mono.
Qed.

Lemma wp_resume past token :
  (∀ R (e : Event R) r, possible R e r → fresh_arcs log R e r) → token_known token →
  WP past (resume log token) (λ past' r, ∀ t c, decode_recovery_token token = Ok t →
    recovered_commit_ref log t = Ok c → resolution_post c past' r).
Proof.
  intros Hfresh Htoken. eapply wp_mono; [by apply wp_resume_token|].
  intros past' [r|e] _ Hpost t c Ht Hc; [|done]. destruct Hpost as (t' & c' & Ht' & Hc' & Hpost). congruence.
Qed.
End commits.

(** ** The operations *)

Section claims.
Context `{Target} `{Blake3} `{CborLaws} `{!DerivedDecode} `{!DerivedDecodeLaws} `{ObjectPath} `{Text}.
Context (log : Log) (caller : Caller).

(** C8. A commit follows the protocol whatever storage answers: it replaces the head
    only conditionally, by the next head of the log, and only after its record is
    durable under an identity drawn in the head's collection epoch and names only objects
    staged in it; [Committed] is
    reported only with an observed head that names the commit, and [Conflict] only with
    a durable head that does not. *)
Theorem commit_follows_protocol prepared tr r :
  known_view caller (prep_view prepared) → prepared_typed prepared →
  prepared_known log caller prepared →
  returns (commit log prepared) tr r →
  follows (allowed log caller) [] tr ∧ commit_post log caller prepared tr r.
Proof.
  intros Hk Ht Hi. apply (wp_sound _ (λ _ _ _, True) []); [by apply wp_commit; [left| |apply known_prepared]|]. by apply Forall_true.
Qed.

(** C12. Resolving an uncertain commit follows the protocol: it retries the publication
    only on a durable head at the commit's own position, after the record is durable,
    and every verdict is backed by an observed head that settles it. *)
Theorem resolve_follows_protocol pending prepared tr r :
  pending_prepared pending = Some prepared → prepared_typed prepared →
  (proof_matches log (prep_staging_domain prepared) = true →
     ∀ b, encode_prepared log prepared = Ok (pending_commit_ref pending, b) →
       known_content caller (commit_immutable_key log (pending_commit_ref pending)) b) →
  prepared_known log caller prepared →
  returns (resolve log pending) tr r →
  follows (allowed log caller) [] tr ∧ resolution_post log caller (pending_commit_ref pending) tr r.
Proof.
  intros Hp Ht Hk Hi. unfold resolve. rewrite Hp.
  apply (wp_sound _ (λ _ _ _, True) []); [by apply wp_resolve_prepared; [..|apply known_prepared]|]. by apply Forall_true.
Qed.

End claims.
