(* ===== verification/GraphProps.v ===== *)
(** * The object-graph walk

    [mark_object_graph] under every completion order of its concurrent reads: its turn
    bound is never reached, and a successful walk has visited every object reachable
    through authenticated nodes, none of them fenced. *)

From S2P Require Import Prelude Types Head Cbor Wire Format Prog Wp Store StoreProps Log LogOps LogMaintain.
From S2P Require Import Protocol ProtocolSpecs.

Section graph.
Context `{Target} `{Blake3} `{Cbor} `{!DerivedDecode} `{ObjectPath} `{Text} (log : Log).
Context (blocked : option (list CollectionCandidate)) (mode : GraphWalk).

Local Abbreviation key_of := (object_immutable_key log).
Definition meta (o : ObjectRef) : Z * Z := (obj_len o, obj_subtree_objects o).
Definition room (visited : Visited) : nat := (Z.to_nat (max_collection_objects (log_options log)) - size visited)%nat.

(** What admission to the walk checks of an object. *)
Record admissible (o : ObjectRef) : Prop := {
  adm_kind : obj_kind o ≠ Checkpoint;
  adm_count : validate_count o = Ok ();
  adm_unblocked : is_blocked blocked (key_of o) = false;
  adm_len : obj_len o ≤ max_object_bytes (log_options log)
}.

(** ** Admission *)

Lemma enqueue_object_Ok o visited pending visited' pending' :
  enqueue_object log o visited blocked pending = Ok (visited', pending') →
  visited' !! key_of o = Some (meta o)
  ∧ ((visited' = visited ∧ pending' = pending)
     ∨ (visited' = <[key_of o := meta o]> visited ∧ pending' = pending ++ [o] ∧ admissible o
        ∧ visited !! key_of o = None ∧ Z.of_nat (size visited') ≤ max_collection_objects (log_options log))).
Proof.
  unfold enqueue_object. intros He. inv_ok. bool_hyps.
  destruct (is_blocked _ _) eqn:Hb; [done|]. fold (meta o) in He.
  destruct (visited !! key_of o) as [declared|] eqn:Hv.
  - inv_ok. bool_hyps. subst. auto.
  - destruct (_ <? _) eqn:E1; [done|]. inv_ok. match goal with Hu : usize_try_from _ = Some _ |- _ => apply usize_try_from_Some in Hu as [-> ?] end.
    split; [apply lookup_insert_eq|]. right. split_and!; try done; [|lia].
    split; [done|by destruct (validate_count o) as [[]|]|done|lia].
Qed.

Lemma enqueue_all_Ok objects : ∀ visited pending visited' pending',
  enqueue_all log objects visited blocked pending = Ok (visited', pending') →
  visited ⊆ visited' ∧ pending ⊆ pending'
  ∧ (∀ o, o ∈ objects → visited' !! key_of o = Some (meta o))
  ∧ (∀ key m, visited' !! key = Some m →
       visited !! key = Some m ∨ ∃ o, key_of o = key ∧ m = meta o ∧ admissible o ∧ o ∈ pending')
  ∧ (length pending' + room visited' ≤ length pending + room visited)%nat
  ∧ (visited' = visited ∨ Z.of_nat (size visited') ≤ max_collection_objects (log_options log)).
Proof.
  induction objects as [|o objects IH]; intros visited pending visited' pending'; simpl.
  - intros [= <- <-]. split_and!; try done; [by intros ? ?%elem_of_nil|eauto|by left].
  - intros He. apply result_bind_Ok in He as ([v1 p1] & H1' & He).
    apply enqueue_object_Ok in H1' as (Hv & Hcase).
    apply IH in He as (Hsub & Hpend & Hall & Hinv & Hroom & Hsize).
    assert (visited ⊆ v1) as Hsub1.
    { destruct Hcase as [[-> _]|(-> & _ & _ & Hn & _)]; [done|by apply insert_subseteq]. }
    split_and!.
    + by etrans.
    + destruct Hcase as [[_ ->]|(_ & -> & _)]; [done|]. set_solver.
    + intros x [->|Hx]%elem_of_cons; [|by apply Hall]. by eapply lookup_weaken.
    + intros key m [Hm|?]%Hinv; [|by right]. destruct Hcase as [[-> ->]|(-> & -> & Ha & Hn & _)]; [by left|].
      apply lookup_insert_Some in Hm as [[<- <-]|[_ Hm]]; [|by left]. right. exists o. split_and!; try done. set_solver.
    + destruct Hcase as [[-> ->]|(Hv1 & -> & _ & Hn & Hs)]; [done|].
      assert (size v1 = S (size visited)) by (rewrite Hv1; by apply map_size_insert_None).
      unfold room in *. rewrite length_app in Hroom. simpl in Hroom. lia.
    + destruct Hsize as [->|?]; [|by right]. destruct Hcase as [[-> _]|(_ & _ & _ & _ & Hs)]; [by left|by right].
Qed.

Lemma start_reads_Ok pending : ∀ reads active pending' reads' active',
  start_reads log mode pending reads active = Ok (pending', reads', active') →
  (length pending' + length reads' ≤ length pending + length reads)%nat
  ∧ (reads' = [] → pending' = [])
  ∧ (∀ o, o ∈ pending → o ∈ pending' ∨ (∃ b, (b, o) ∈ reads')
          ∨ (mode = Reachability ∧ obj_kind o = Blob))
  ∧ reads ⊆ reads'.
Proof.
  induction pending as [|o rest IH]; intros reads active pending' reads' active'; cbn [start_reads].
  - intros [= <- <- <-]. split_and!; try done. by intros ? ?%elem_of_nil.
  - destruct (_ <=? _)%nat eqn:E1.
    { intros [= <- <- <-]. split_and!; try done; [|by left].
      intros ->. apply Nat.leb_le in E1. simpl in E1. unfold MAX_CONCURRENT_READS in E1. lia. }
    destruct (_ && _) eqn:E2.
    { intros Hs%IH. bool_hyps. destruct Hs as (Hl & He & Hin & Hr). split_and!; try done; [simpl; lia|].
      intros x [->|Hx]%elem_of_cons; [by auto|by apply Hin]. }
    intros Hs. inv_ok. destruct (negb _ && _) eqn:E3.
    { inv_ok. split_and!; try done; [|by left]. intros Hn. bool_hyps. done. }
    inv_ok. apply IH in Hs as (Hl & He & Hin & Hr). rewrite length_app in Hl. simpl in *. split_and!; try done; [lia| |set_solver].
    intros y [->|Hy]%elem_of_cons; [|by apply Hin]. right; left. exists x. apply Hr. set_solver.
Qed.

(** ** Turns *)

(** Fuel above the objects still to retire does not change the walk. *)
Lemma graph_loop_fuel fuel : ∀ n visited pending reads active tr r,
  (length pending + length reads + room visited < fuel)%nat →
  (length pending + length reads + room visited < n)%nat →
  returns (graph_loop fuel log blocked mode visited pending reads active) tr r →
  returns (graph_loop n log blocked mode visited pending reads active) tr r.
Proof.
  induction fuel as [|fuel IH]; intros n visited pending reads active tr r Hf Hn; [lia|].
  destruct n as [|n]; [lia|]. cbn [graph_loop]. rewrite !returns_io_bind. intros Hr.
  destruct Hr as [(tr1 & tr2 & [[p1 r1] a1] & -> & Hs & Hr)|He]; [left|by right].
  exists tr1, tr2, (p1, r1, a1). split_and!; [done|done|]. destruct Hs as [-> Hs].
  symmetry in Hs. apply start_reads_Ok in Hs as (Hl & _ & _ & _).
  destruct r1 as [|x r1]; [done|]. set (reads' := x :: r1) in *.
  apply returns_bind in Hr as (t1 & t2 & choice & -> & Hc & Hr). apply returns_bind.
  exists t1, t2, choice. split_and!; [done|done|].
  destruct (reads' !! _) as [[b object]|] eqn:Hl'; [|done].
  apply returns_io_bind in Hr as [(u1 & u2 & children & -> & Hch & Hr)|He]; apply returns_io_bind; [left|by right].
  exists u1, u2, children. split_and!; [done|done|].
  apply returns_io_bind in Hr as [(w1 & w2 & [v2 p2] & -> & He & Hr)|He]; apply returns_io_bind; [left|by right].
  exists w1, w2, (v2, p2). split_and!; [done|done|]. destruct He as [-> He]. symmetry in He.
  apply enqueue_all_Ok in He as (_ & _ & _ & _ & Hroom & _).
  assert (S (length (delete (choice `mod` length reads') reads')) = length reads')%nat.
  { rewrite length_delete by (by eexists). apply lookup_lt_Some in Hl'. lia. }
  apply IH; [lia|lia|done].
Qed.

Lemma graph_fuel_enough roots visited pending visited0 :
  enqueue_all log roots visited0 blocked [] = Ok (visited, pending) →
  (length pending + length (@nil (Z * ObjectRef)) + room visited < graph_fuel log)%nat.
Proof. intros (_ & _ & _ & _ & Hroom & _)%enqueue_all_Ok. unfold graph_fuel, room in *. simpl in *. lia. Qed.

(** ** Coverage *)

(** A blob's content was read and matched its reference. *)
Definition verified (tr : list Ev) (o : ObjectRef) : Prop :=
  ∃ inm result max, MkEv (EGet (key_path log (key_of o)) inm) (Ok result) ∈ tr
    ∧ collect_integrity result max = Ok (obj_digest o, obj_len o).

(** The object was retired: its edges are visited, or it has none. *)
Definition walked (tr : list Ev) (visited : Visited) (o : ObjectRef) : Prop :=
  match obj_kind o with
  | Node =>
      ∃ stored node, got tr (key_path log (key_of o)) stored
        ∧ digest_of (stored_bytes stored) = obj_digest o
        ∧ decode_node_reference log o (stored_bytes stored) = Ok node
        ∧ ∀ child, child ∈ node_children node → visited !! key_of child = Some (meta child)
  | Blob => mode = Reachability ∨ verified tr o
  | Checkpoint => False
  end.

Lemma walked_mono tr tr' (visited visited' : Visited) o :
  tr ⊆ tr' → visited ⊆ visited' → walked tr visited o → walked tr' visited' o.
Proof.
  intros Ht Hv. unfold walked. destruct (obj_kind o); [| |done].
  - intros [?|(i & res & m & Hin & Hc)]; [by left|right]. exists i, res, m. eauto.
  - intros (s & node & Hg & Hd & Hn & Hc). exists s, node. split_and!; try done; [by eapply got_mono|].
    intros child Hch. eapply lookup_weaken; eauto.
Qed.

Lemma store_read_integrity_verified key max tr d l :
  returns (store_read_integrity (log_store log) (Immutable key) max) tr (Ok (Some (d, l))) →
  ∃ inm result max, MkEv (EGet (key_path log key) inm) (Ok result) ∈ tr ∧ collect_integrity result max = Ok (d, l).
Proof.
  intros (tr' & Hs & Hr)%read_attempts_Ok.
  apply returns_bind in Hr as (t1 & t2 & a & -> & (g & t & -> & -> & ->) & Hr).
  destruct g as [g|[]]; try (by destruct Hr). returns_inv.
  exists None, g, max. split; [|by symmetry]. apply Hs. set_solver.
Qed.

Lemma read_graph_children_walked o tr children (visited : Visited) :
  returns (read_graph_children log o) tr (Ok children) →
  (∀ child, child ∈ children → visited !! key_of child = Some (meta child)) → walked tr visited o.
Proof.
  unfold read_graph_children, walked. intros Hr Hc. destruct (obj_kind o); [| |by destruct Hr].
  - right. returns_inv. match goal with Hd : returns (verify_object_durable _ _) _ _ |- _ => unfold verify_object_durable in Hd end.
    returns_inv. match goal with Hd : returns (if ?c then _ else _) _ _ |- _ => destruct c; [by destruct Hd|] end.
    returns_inv. match goal with Hl : Ok _ = ok_or ?x _ |- _ => symmetry in Hl; apply ok_or_Ok in Hl; subst x end.
    match goal with Hd : returns (let (_, _) := ?p in _) _ _ |- _ => destruct p as [d l] end.
    match goal with Hd : returns (if ?c then _ else _) _ _ |- _ => destruct c eqn:E; [by destruct Hd|] end.
    bool_hyps. subst. match goal with Hz : (_ =? _) = true |- _ => apply Z.eqb_eq in Hz; subst end.
    match goal with Hi : returns (store_read_integrity _ _ _) _ _ |- _ =>
      apply store_read_integrity_verified in Hi as (i & res & m & Hin & Hcol) end.
    exists i, res, m. split; [set_solver|done].
  - returns_inv. match goal with Hi : returns (read_immutable _ _) _ _ |- _ => apply read_immutable_got in Hi as (Hd & s & Hg & <-) end.
    eexists s, _. split_and!; [|done|symmetry; eassumption|done]. eapply got_mono; [|done]. set_solver.
Qed.

(** Every visited key was given, or belongs to an admissible object that is pending,
    being read, or retired. *)
Definition covered (visited0 visited : Visited) (tr : list Ev) (open : ObjectRef → Prop) : Prop :=
  ∀ key m, visited !! key = Some m →
    visited0 !! key = Some m
    ∨ ∃ o, key_of o = key ∧ m = meta o ∧ admissible o ∧ (open o ∨ walked tr visited o).

Definition in_flight (pending : list ObjectRef) (reads : list (Z * ObjectRef)) (o : ObjectRef) : Prop :=
  o ∈ pending ∨ ∃ b, (b, o) ∈ reads.

Lemma delete_elem {A} (l : list A) i x y : l !! i = Some x → y ∈ l → y = x ∨ y ∈ delete i l.
Proof.
  intros Hi [j Hj]%list_elem_of_lookup. destruct (decide (i = j)) as [->|Hne]; [left; congruence|right].
  apply list_elem_of_lookup. destruct (decide (j < i)%nat).
  - exists j. by rewrite list_lookup_delete_lt.
  - exists (j - 1)%nat. rewrite list_lookup_delete_ge by lia. by replace (S (j - 1)) with j by lia.
Qed.

Lemma graph_loop_covers visited0 fuel : ∀ visited pending reads active past tr visited',
  covered visited0 visited past (in_flight pending reads) →
  returns (graph_loop fuel log blocked mode visited pending reads active) tr (Ok visited') →
  visited ⊆ visited' ∧ covered visited0 visited' (past ++ tr) (λ _, False)
  ∧ (visited' = visited ∨ Z.of_nat (size visited') ≤ max_collection_objects (log_options log)).
Proof.
  induction fuel as [|fuel IH]; intros visited pending reads active past tr visited' Hcov Hr; [by destruct Hr|].
  cbn [graph_loop] in Hr. apply returns_io_bind_Ok in Hr as (tr1 & tr2 & [[p1 r1] a1] & -> & [-> Hs] & Hr).
  symmetry in Hs. apply start_reads_Ok in Hs as (_ & Hempty & Hin & Hreads).
  assert (covered visited0 visited past (in_flight p1 r1)) as Hcov1.
  { intros key m [?|(o & Hk & Hm & Ha & [[Ho|[b Ho]]|Hw])]%Hcov; [by left|right; exists o; split_and!; try done..].
    - destruct (Hin o Ho) as [?|[?|[Hmode Hkind]]]; [left; by left|left; by right|right].
      unfold walked. rewrite Hkind. by left.
    - left. right. exists b. by apply Hreads.
    - by right. }
  clear Hcov. destruct r1 as [|x r1].
  - destruct Hr as [-> [= ->]]. split_and!; [done| |by left]. rewrite app_nil_r. intros key m [?|(o & Hk & Hm & Ha & Ho)]%Hcov1; [by left|].
    right. exists o. split_and!; try done. right. destruct Ho as [[Ho|[b Ho]]|Hw]; [|by apply elem_of_nil in Ho|done].
    rewrite Hempty in Ho by done. by apply elem_of_nil in Ho.
  - set (reads' := x :: r1) in *.
    apply returns_bind in Hr as (t1 & t2 & choice & -> & Hc & Hr).
    destruct (reads' !! _) as [[b object]|] eqn:Hl; [|by destruct Hr].
    apply returns_io_bind_Ok in Hr as (u1 & u2 & children & -> & Hch & Hr).
    apply returns_io_bind_Ok in Hr as (w1 & w2 & [v2 p2] & -> & [-> He] & Hr). symmetry in He.
    apply enqueue_all_Ok in He as (Hsub & Hpend & Hall & Hnew & _ & Hsize).
    assert (walked (past ++ t1 ++ u1) v2 object) as Hw.
    { eapply (walked_mono u1); [set_solver|reflexivity|]. by eapply read_graph_children_walked. }
    apply (IH _ _ _ _ (past ++ t1 ++ u1)) in Hr as (Hsub' & Hcov' & Hsize').
    + split_and!; [by etrans| |].
      * revert Hcov'. by rewrite <-!app_assoc.
      * destruct Hsize' as [->|?]; [|by right]. by destruct Hsize as [->|?]; [left|right].
    + intros key m [Hold|(o & Hk & Hm & Ha & Ho)]%Hnew.
      * apply Hcov1 in Hold as [?|(o & Hk & Hm & Ha & Ho)]; [by left|right].
        exists o. split_and!; try done. destruct Ho as [[Ho|[b' Ho]]|Ho].
        -- left. left. by apply Hpend.
        -- destruct (delete_elem _ _ _ _ Hl Ho) as [[= -> ->]|Ho']; [by right|left; right; eauto].
        -- right. eapply walked_mono; [|exact Hsub|exact Ho]. set_solver.
      * right. exists o. split_and!; try done. left. by left.
Qed.

Lemma mark_object_graph_covers roots visited0 tr visited :
  returns (mark_object_graph log roots visited0 blocked mode) tr (Ok visited) →
  visited0 ⊆ visited
  ∧ (∀ o, o ∈ roots → visited !! key_of o = Some (meta o))
  ∧ (∀ key m, visited !! key = Some m →
       visited0 !! key = Some m
       ∨ ∃ o, key_of o = key ∧ m = meta o ∧ admissible o ∧ walked tr visited o)
  ∧ (visited = visited0 ∨ Z.of_nat (size visited) ≤ max_collection_objects (log_options log)).
Proof.
  unfold mark_object_graph. intros Hr.
  apply returns_io_bind_Ok in Hr as (tr1 & tr2 & [v1 p1] & -> & [-> He] & Hr). symmetry in He.
  apply enqueue_all_Ok in He as (Hsub & _ & Hall & Hnew & _ & Hsize).
  apply (graph_loop_covers visited0 _ _ _ _ _ []) in Hr as (Hsub' & Hcov & Hsize').
  - split_and!.
    + by etrans.
    + intros o Ho. eapply lookup_weaken; eauto.
    + intros key m [?|(o & Hk & Hm & Ha & [[]|Hw])]%Hcov; [by left|right]. by exists o.
    + destruct Hsize' as [->|?]; [|by right]. by destruct Hsize as [->|?]; [left|right].
  - intros key m [?|(o & Hk & Hm & Ha & Ho)]%Hnew; [by left|right]. exists o. split_and!; try done. left. by left.
Qed.
End graph.

Section claims.
Context `{Target} `{Blake3} `{Cbor} `{!DerivedDecode} `{ObjectPath} `{Text} (log : Log).
Context (blocked : option (list CollectionCandidate)) (mode : GraphWalk).

(** C17. A successful graph walk is complete under every completion order of its
    concurrent reads: it visits every root, every newly visited object is admissible and
    not fenced, every visited node was read with its declared digest and all of its
    children are visited, and in verification mode every visited blob's content was
    checked. *)
Theorem graph_walk_complete roots visited0 tr visited :
  returns (mark_object_graph log roots visited0 blocked mode) tr (Ok visited) →
  visited0 ⊆ visited
  ∧ (∀ o, o ∈ roots → visited !! object_immutable_key log o = Some (meta o))
  ∧ (∀ key m, visited !! key = Some m →
       visited0 !! key = Some m
       ∨ ∃ o, object_immutable_key log o = key ∧ m = meta o ∧ admissible log blocked o
              ∧ walked log mode tr visited o)
  ∧ (visited = visited0 ∨ Z.of_nat (size visited) ≤ max_collection_objects (log_options log)).
Proof. apply mark_object_graph_covers. Qed.

(** C18. The walk terminates within its object bound: allowing it any larger number of
    turns changes neither its requests nor its result, so the bound is never the reason
    it stops. *)
Theorem graph_walk_terminates roots visited0 visited pending n tr r :
  enqueue_all log roots visited0 blocked [] = Ok (visited, pending) → (graph_fuel log ≤ n)%nat →
  returns (mark_object_graph log roots visited0 blocked mode) tr r
  ↔ returns (graph_loop n log blocked mode visited pending [] 0) tr r.
Proof.
  intros He Hn. pose proof (graph_fuel_enough log blocked _ _ _ _ He) as Hf.
  unfold mark_object_graph. rewrite He. change (lift (Ok (visited, pending))) with (ok (visited, pending)).
  split.
  - intros Hr. apply returns_io_bind in Hr as [(t1 & t2 & p & -> & [-> [= ->]] & Hr)|(e & [_ ?] & _)]; [|done].
    eapply graph_loop_fuel; [| |exact Hr]; lia.
  - intros Hr. apply returns_io_bind. left. exists [], tr, (visited, pending). split_and!; [done|done|].
    eapply graph_loop_fuel; [| |exact Hr]; lia.
Qed.
End claims.
