(* ===== verification/TailProps.v ===== *)
(** * The authenticated tail and the history cursor

    Records read from a view's tail are the hash-chained commits its head names, and the
    cursor of [src/history.rs] delivers exactly the checkpoint and those commits, in
    order, resuming where it stopped after an error. *)

From S2P Require Import Prelude Types Head Cbor Wire Format Prog Wp Store StoreProps Log LogOps LogMaintain.
From S2P Require Import History Protocol ProtocolSpecs.

Section tail.
Context `{Target} `{Blake3} `{Cbor} `{!DerivedDecode} `{ObjectPath} `{Text} (log : Log).

(** The record is the decoded content of the commit object [c], which was read and whose
    digest and length are the ones [c] declares. *)
Definition commit_authentic (tr : list Ev) (c : CommitRef) (record : CommitRecord) : Prop :=
  ∃ stored, got tr (key_path log (commit_immutable_key log c)) stored
    ∧ digest_of (stored_bytes stored) = commit_digest c ∧ len (stored_bytes stored) = commit_len c
    ∧ commit_record_of log c (stored_bytes stored) = Ok record ∧ record_reference record = c.

(** Each record names its predecessor's digest. *)
Fixpoint chained (tip : option Digest) (records : list CommitRecord) : Prop :=
  match records with
  | [] => True
  | r :: records => record_expected_tip r = tip ∧ chained (Some (commit_digest (record_reference r))) records
  end.

Lemma commit_authentic_mono tr tr' c record :
  tr ⊆ tr' → commit_authentic tr c record → commit_authentic tr' c record.
Proof. intros Hs (o & Hg & Hrest). exists o. split; [by eapply got_mono|done]. Qed.

Lemma commit_record_of_Ok c b record :
  commit_record_of log c b = Ok record →
  digest_of b = commit_digest c ∧ len b = commit_len c ∧ record_reference record = c.
Proof.
  unfold commit_record_of. intros Hr. inv_ok. bool_hyps.
  match goal with Hu : u64_try_from _ = Some _ |- _ => apply u64_try_from_Some in Hu as [-> _] end.
  split_and!; [done|lia|done].
Qed.

Lemma read_commit_optional_authentic c tr record :
  returns (read_commit_optional log c) tr (Ok (Some record)) → commit_authentic tr c record.
Proof.
  unfold read_commit_optional. intros Hr. returns_inv.
  destruct (_ <? _); [by destruct Hr|]. returns_inv.
  match type of Hr with returns (match ?s with _ => _ end) _ _ => destruct s as [stored|]; [|by destruct Hr] end.
  returns_inv. match goal with Hm : Ok (Some _) = map_err ?x _ |- _ => destruct x as [o|]; [simpl in Hm; injection Hm as <-|done] end.
  exists stored. match goal with Hc : Ok _ = commit_record_of _ _ _ |- _ => symmetry in Hc; pose proof (commit_record_of_Ok _ _ _ Hc) as (? & ? & ?) end.
  split_and!; try done. eapply got_mono; [|by eapply store_read_key_got]. solve_sub.
Qed.

Lemma missing_read_error_fails {A} view tr (a : A) :
  ¬ returns (let! e := missing_read_error log view in fail e) tr (Ok a).
Proof. intros Hr. returns_inv. Qed.

Lemma tail_loop_authentic {S} view (step : S → CommitRecord → Result S Error) refs : ∀ tip s tr s',
  returns (tail_loop log view refs tip step s) tr (Ok s') →
  ∃ records, Forall2 (commit_authentic tr) refs records ∧ chained tip records
             ∧ try_fold step s records = Ok s'.
Proof.
  induction refs as [|c refs IH]; intros tip s tr s' Hr; cbn [tail_loop] in Hr.
  { returns_inv. by exists []. }
  apply returns_io_bind_Ok in Hr as (tr1 & tr2 & [record|] & -> & Hread & Hr);
    [|by apply missing_read_error_fails in Hr].
  destruct (negb _) eqn:Htip; [by destruct Hr|]. bool_hyps.
  apply returns_io_bind_Ok in Hr as (t1 & t2 & s1 & -> & [-> Hstep] & Hr).
  apply IH in Hr as (records & Hall & Hch & Hfold).
  apply read_commit_optional_authentic in Hread.
  exists (record :: records). split_and!; [|done|].
  - constructor; [eapply commit_authentic_mono; [|done]; solve_sub|].
    eapply Forall2_impl; [done|]. intros. eapply commit_authentic_mono; [|done]. solve_sub.
  - simpl. by rewrite <-Hstep.
Qed.

Lemma tail_records_authentic {S} view (step : S → CommitRecord → Result S Error) s tr s' :
  returns (tail_records log view step s) tr (Ok s') →
  ∃ records, Forall2 (commit_authentic tr) (head_tail (view_head view)) records
    ∧ chained (through_commit <$> head_checkpoint (view_head view)) records
    ∧ try_fold step s records = Ok s'.
Proof.
  unfold tail_records. intros Hr. apply returns_io_bind_Ok in Hr as (? & tr2 & [] & -> & [-> _] & Hr).
  by apply tail_loop_authentic in Hr.
Qed.

Lemma try_fold_snoc {A} (l acc : list A) :
  try_fold (E := Error) (λ acc x, Ok (acc ++ [x])) acc l = Ok (acc ++ l).
Proof.
  revert acc. induction l as [|x l IH]; intros acc; simpl; [by rewrite app_nil_r|].
  by rewrite IH, <-app_assoc.
Qed.

(** C22. Reading the tail returns exactly the commits the head names, in order: each is
    the decoded content of an object read under its declared digest and length, and the
    records form one hash chain from the checkpoint. *)
Theorem read_tail_authentic view tr records :
  returns (read_tail log view) tr (Ok records) →
  Forall2 (commit_authentic tr) (head_tail (view_head view)) records
  ∧ chained (through_commit <$> head_checkpoint (view_head view)) records
  ∧ record_reference <$> records = head_tail (view_head view).
Proof.
  unfold read_tail. intros Hr. apply returns_io_bind_Ok in Hr as (t1 & t2 & l & -> & Ht & Hr).
  apply returns_io_bind_Ok in Hr as (u1 & u2 & [] & -> & _ & Hr). returns_inv.
  apply tail_records_authentic in Ht as (records & Hall & Hch & Hfold).
  rewrite try_fold_snoc in Hfold. injection Hfold as <-. split_and!.
  - eapply Forall2_impl; [done|]. intros. eapply commit_authentic_mono; [|done]. solve_sub.
  - done.
  - simpl. clear Hch. induction Hall as [|c r cs rs Hc _ IH]; [done|]. rewrite fmap_cons, IH.
    by destruct Hc as (_ & _ & _ & _ & _ & ->).
Qed.

(** ** The cursor *)

(** The digest a record at [index] must name. *)
Definition predecessor (view : View) (index : nat) : option Digest :=
  match index with
  | O => through_commit <$> head_checkpoint (view_head view)
  | S previous => commit_digest <$> head_tail (view_head view) !! previous
  end.

Definition linked_record (tr : list Ev) (view : View) (index : nat) (record : CommitRecord) : Prop :=
  ∃ c, head_tail (view_head view) !! index = Some c ∧ commit_authentic tr c record
       ∧ record_expected_tip record = predecessor view index.

Lemma linked_record_mono tr tr' view index record :
  tr ⊆ tr' → linked_record tr view index record → linked_record tr' view index record.
Proof. intros Hs (c & Hc & Ha & Ht). exists c. split_and!; try done. by eapply commit_authentic_mono. Qed.

Lemma read_tail_record_optional_linked view index tr record :
  returns (read_tail_record_optional log view index) tr (Ok (Some record)) → linked_record tr view index record.
Proof.
  unfold read_tail_record_optional. intros Hr. returns_inv.
  match goal with Hl : Ok ?r = ok_or _ _ |- _ => symmetry in Hl; apply ok_or_Ok in Hl; rename r into c end.
  match type of Hr with returns (match ?r with _ => _ end) _ _ => destruct r as [rec|]; [|by destruct Hr] end.
  destruct (negb _) eqn:Htip; [by destruct Hr|]. returns_inv. bool_hyps.
  exists c. split_and!; [done| |by destruct index].
  eapply commit_authentic_mono; [|by eapply read_commit_optional_authentic]. solve_sub.
Qed.

(** The read-ahead holds the results for the next indices. *)
Definition cursor_ok (tr : list Ev) (c : HistoryCursor) : Prop :=
  cursor_log c = log
  ∧ (∀ i record, ready c !! i = Some (Ok (Some record)) →
       linked_record tr (cursor_view c) (next_commit c + i) record)
  ∧ (next_commit c + length (ready c) ≤ length (head_tail (view_head (cursor_view c))))%nat
  ∧ (complete c = true →
       checkpoint_read c = true ∧ next_commit c = length (head_tail (view_head (cursor_view c)))).

Lemma join_all_returns {A} (l : list (prog A)) : ∀ tr results,
  returns (join_all l) tr results →
  length results = length l
  ∧ ∀ i a, results !! i = Some a → ∃ p tr', l !! i = Some p ∧ tr' ⊆ tr ∧ returns p tr' a.
Proof.
  induction l as [|p l IH]; intros tr results Hr; cbn [join_all] in Hr.
  { destruct Hr as [-> ->]. by split. }
  apply returns_bind in Hr as (t1 & t2 & a & -> & Hp & Hr).
  apply returns_bind in Hr as (u1 & u2 & rs & -> & Hl & [-> ->]).
  apply IH in Hl as [Hlen Hl]. split; [simpl; by f_equal|].
  intros [|i] x Hx; simpl in Hx.
  - injection Hx as <-. exists p, t1. split_and!; [done|set_solver|done].
  - destruct (Hl i x Hx) as (q & tr' & Hq & Hs & Hr'). exists q, tr'. split_and!; [done|set_solver|done].
Qed.

Lemma fill_ready_ok past c tr c' :
  cursor_ok past c → (next_commit c < length (head_tail (view_head (cursor_view c))))%nat →
  complete c = false → returns (fill_ready c) tr c' →
  cursor_ok (past ++ tr) c' ∧ cursor_view c' = cursor_view c ∧ next_commit c' = next_commit c
  ∧ checkpoint_read c' = checkpoint_read c ∧ complete c' = false.
Proof.
  intros (Hlog & Hready & Hlen & Hcomp) Hlt Hc Hr. unfold fill_ready in Hr.
  destruct (ready c) as [|x rest] eqn:Er.
  - apply returns_bind in Hr as (t1 & t2 & results & -> & Hj & [-> ->]). rewrite app_nil_r.
    apply join_all_returns in Hj as [Hjl Hj]. rewrite length_fmap, length_seq in Hjl.
    unfold set_ready. cbn. split; [unfold cursor_ok; cbn; split_and!; [done| | |congruence]|done].
    + intros i record Hi. destruct (Hj i _ Hi) as (p & tr' & Hp & Hs & Hr).
      apply list_lookup_fmap_Some in Hp as (j & -> & Hj'). apply lookup_seq in Hj' as [-> _].
      rewrite Hlog in Hr. eapply linked_record_mono; [|by eapply read_tail_record_optional_linked]. set_solver.
    + rewrite Hjl. unfold len. lia.
  - destruct Hr as [-> ->]. rewrite app_nil_r. split_and!; try done. split_and!; try done.
    + rewrite Er. done.
    + by rewrite Er.
Qed.

(** The record is the decoded content of the checkpoint object the head names. *)
Definition checkpoint_authentic (tr : list Ev) (view : View) (record : CheckpointRecord) : Prop :=
  ∃ cp stored body, head_checkpoint (view_head view) = Some cp
    ∧ got tr (key_path log (object_immutable_key log (checkpoint_object cp))) stored
    ∧ digest_of (stored_bytes stored) = obj_digest (checkpoint_object cp)
    ∧ decode_checkpoint_reference log cp (stored_bytes stored) = Ok body
    ∧ record = MkCheckpointRecord (kb_snapshot body) (kb_objects body).

Lemma read_immutable_for_view_got view object tr b :
  returns (read_immutable_for_view log view object) tr (Ok b) → returns (read_immutable log object) tr (Ok b).
Proof.
  unfold read_immutable_for_view, read_immutable. intros Hr.
  apply returns_io_bind_Ok in Hr as (t1 & t2 & [x|] & -> & Ho & Hr); [|by apply missing_read_error_fails in Hr].
  returns_inv. apply returns_io_bind_Ok. by exists t1, [], (Some x).
Qed.

Lemma read_checkpoint_authentic view tr record :
  returns (read_checkpoint log view) tr (Ok (Some record)) → checkpoint_authentic tr view record.
Proof.
  unfold read_checkpoint. intros Hr. apply returns_io_bind_Ok in Hr as (? & tr2 & [] & -> & [-> _] & Hr).
  destruct (head_checkpoint (view_head view)) as [cp|] eqn:Ecp; [|by destruct Hr].
  apply returns_io_bind_Ok in Hr as (? & ? & declared & -> & [-> _] & Hr).
  apply returns_io_bind_Ok in Hr as (? & ? & [] & -> & [-> _] & Hr).
  apply returns_io_bind_Ok in Hr as (t1 & t2 & body & -> & Hl & Hr). returns_inv.
  unfold load_checkpoint_for_view in Hl. apply returns_io_bind_Ok in Hl as (u1 & u2 & b & -> & Hb & [-> Hd]).
  apply read_immutable_for_view_got, read_immutable_got in Hb as (Hdig & stored & Hg & <-).
  exists cp, stored, body. split_and!; try done. eapply got_mono; [|done]. solve_sub.
Qed.

(** What one call of [next] delivers, and how far it moves the cursor. *)
Definition next_post (past : list Ev) (c c' : HistoryCursor) (r : Result (option HistoryItem) Error) : Prop :=
  match r with
  | Ok (Some (HistoryCheckpoint a)) =>
      checkpoint_read c = false ∧ checkpoint_read c' = true ∧ next_commit c' = next_commit c
      ∧ checkpoint_authentic past (cursor_view c) (auth_record a)
  | Ok (Some (HistoryCommit a)) =>
      next_commit c' = S (next_commit c) ∧ checkpoint_read c' = true
      ∧ linked_record past (cursor_view c) (next_commit c) (auth_record a)
      ∧ auth_proofs a = staged_object log (cursor_view c) <$> record_objects (auth_record a)
  | Ok None => complete c' = true ∧ next_commit c' = next_commit c
  | Err _ => next_commit c' = next_commit c ∧ complete c' = false
  end.

Lemma next_commit_item_step past c tr r c' :
  cursor_ok past c → (next_commit c < length (head_tail (view_head (cursor_view c))))%nat →
  complete c = false → checkpoint_read c = true → returns (next_commit_item c) tr (r, c') →
  cursor_ok (past ++ tr) c' ∧ cursor_view c' = cursor_view c ∧ next_post (past ++ tr) c c' r.
Proof.
  intros Hok Hlt Hcomp Hcp Hr. unfold next_commit_item in Hr.
  apply returns_bind in Hr as (t1 & t2 & c1 & -> & Hf & Hr).
  apply (fill_ready_ok past) in Hf as (Hok1 & Hview & Hnext & Hcp1 & Hcomp1); try done.
  pose proof Hok1 as (Hlog & Hready & Hlen & _).
  destruct (ready c1) as [|[[record|]|e] rest].
  - destruct Hr as [-> [= -> ->]]. rewrite app_nil_r. by split_and!.
  - destruct Hr as [-> [= -> ->]]. rewrite app_nil_r. cbn. split; [|split; [done|split_and!]].
    + split_and!; cbn; [done| |simpl in Hlen; lia|congruence]. intros i x Hx.
      replace (S (next_commit c1 + i)) with (next_commit c1 + S i)%nat by lia. by apply Hready.
    + by rewrite Hnext.
    + by rewrite Hcp1.
    + rewrite <-Hview, <-Hnext. replace (next_commit c1) with (next_commit c1 + 0)%nat by lia. by apply Hready.
    + unfold record_proofs. by rewrite Hlog, Hview.
  - apply returns_bind in Hr as (u1 & u2 & e & -> & _ & [-> [= -> ->]]).
    split_and!; [|done|by destruct e].
    split_and!; cbn; [done|by intros i x Hx|simpl in *; lia|congruence].
  - destruct Hr as [-> [= -> ->]]. split_and!; [|done|done].
    split_and!; cbn; [done|by intros i x Hx|simpl in *; lia|congruence].
Qed.

Lemma next_step past c tr r c' :
  cursor_ok past c → returns (next c) tr (r, c') →
  cursor_ok (past ++ tr) c' ∧ cursor_view c' = cursor_view c ∧ next_post (past ++ tr) c c' r.
Proof.
  intros Hok Hr. unfold next in Hr. destruct (complete c) eqn:Hcomp.
  { destruct Hr as [-> [= -> ->]]. by rewrite app_nil_r. }
  assert (∀ past c tr, cursor_ok past c → complete c = false → checkpoint_read c = true →
    returns (if (next_commit c <? length (head_tail (view_head (cursor_view c))))%nat then next_commit_item c
             else let* _ := remember_tail (cursor_log c) (cursor_view c) in Done (Ok None, set_complete c))
      tr (r, c') →
    cursor_ok (past ++ tr) c' ∧ cursor_view c' = cursor_view c ∧ next_post (past ++ tr) c c' r) as Hcommits.
  { clear. intros past c tr Hok Hcomp Hcp Hr. destruct (_ <? _)%nat eqn:Hlt.
    - apply Nat.ltb_lt in Hlt. by eapply next_commit_item_step.
    - apply Nat.ltb_ge in Hlt. apply returns_bind in Hr as (t1 & t2 & u & -> & _ & [-> [= -> ->]]).
      destruct Hok as (Hlog & Hready & Hlen & _). split_and!; try done.
      split_and!; cbn; [done| |lia|intros _; split; [done|lia]].
      intros i x Hx. apply Hready in Hx. eapply linked_record_mono; [|done]. solve_sub. }
  destruct (checkpoint_read c) eqn:Hcp; [by eapply Hcommits|].
  apply returns_bind in Hr as (t1 & t2 & [[record|]|e] & -> & Hread & Hr); destruct Hok as (Hlog & Hready & Hlen & Hc).
  - destruct Hr as [-> [= -> ->]]. rewrite Hlog in Hread. apply read_checkpoint_authentic in Hread. cbn.
    split_and!; try done.
    + split_and!; cbn; [done| |done|congruence]. intros i x Hx. apply Hready in Hx.
      eapply linked_record_mono; [|done]. solve_sub.
    + destruct Hread as (cp & s & body & ? & Hg & ?). exists cp, s, body. split; [done|].
      split; [|done]. eapply got_mono; [|done]. solve_sub.
  - apply (Hcommits (past ++ t1)) in Hr; [|split_and!; cbn; [done| |done|congruence]|done|done].
    + rewrite <-app_assoc in Hr. destruct Hr as (Hok' & Hv & Hpost). split_and!; [done|done|].
      destruct r as [[[a|a]|]|e]; cbn in *; try done. by destruct Hpost.
    + intros i x Hx. apply Hready in Hx. eapply linked_record_mono; [|done]. solve_sub.
  - destruct Hr as [-> [= -> ->]]. split_and!; try done. split_and!; try done.
    intros i x Hx. apply Hready in Hx. eapply linked_record_mono; [|done]. solve_sub.
Qed.

End tail.
