(* ===== verification/CollectProps.v ===== *)
(** * Collection spares live objects

    The deletion plan that [start_collection] installs is disjoint from the live set:
    the tail commits, the checkpoint and everything reachable from them. *)

From S2P Require Import Prelude Types Head LogSpec Cbor Wire Format Prog Wp Store StoreProps Log LogOps LogMaintain.
From S2P Require Import Protocol ProtocolSpecs GraphProps TailProps.

Section collect.
Context `{Target} `{Blake3} `{Cbor} `{!DerivedDecode} `{ObjectPath} `{Text} (log : Log).

Local Abbreviation key_of := (object_immutable_key log).

(** ** The live set *)

(** Everything the view's history needs, closed under authenticated edges. *)
Record live_set (view : View) (tr : list Ev) (live : Visited) : Prop := {
  live_commits c : c ∈ head_tail (view_head view) → is_Some (live !! commit_immutable_key log c);
  live_commit_objects : ∃ records, Forall2 (commit_authentic log tr) (head_tail (view_head view)) records
    ∧ ∀ r o, r ∈ records → o ∈ record_objects r → is_Some (live !! key_of o);
  live_checkpoint cp : head_checkpoint (view_head view) = Some cp →
    is_Some (live !! key_of (checkpoint_object cp))
    ∧ ∃ stored body, got tr (key_path log (key_of (checkpoint_object cp))) stored
      ∧ digest_of (stored_bytes stored) = obj_digest (checkpoint_object cp)
      ∧ decode_checkpoint_reference log cp (stored_bytes stored) = Ok body
      ∧ ∀ o, o ∈ kb_objects body → is_Some (live !! key_of o);
  live_closed key : is_Some (live !! key) →
    (∃ c, c ∈ head_tail (view_head view) ∧ key = commit_immutable_key log c)
    ∨ (∃ cp, head_checkpoint (view_head view) = Some cp ∧ key = key_of (checkpoint_object cp))
    ∨ ∃ o, key_of o = key ∧ walked log Reachability tr live o
}.

Lemma insert_live_Ok (live live' : Visited) key l s :
  insert_live log live key l s = Ok live' → live' = <[key := (l, s)]> live ∧ live ⊆ live'.
Proof.
  unfold insert_live, Visited in *. intros Hi. destruct (live !! key) as [d|] eqn:E; inv_ok; bool_hyps.
  - subst. split; [done|]. by rewrite (insert_id live).
  - split; [done|]. by apply insert_subseteq.
Qed.

Lemma mark_live_records_Ok records : ∀ (live : Visited) roots live' roots',
  try_fold (mark_live_record log) (live, roots) records = Ok (live', roots') →
  live ⊆ live' ∧ roots ⊆ roots'
  ∧ (∀ r, r ∈ records → is_Some (live' !! commit_immutable_key log (record_reference r))
                        ∧ record_objects r ⊆ roots')
  ∧ (∀ key, is_Some (live' !! key) →
       is_Some (live !! key) ∨ ∃ r, r ∈ records ∧ key = commit_immutable_key log (record_reference r)).
Proof.
  induction records as [|r records IH]; intros live roots live' roots'; simpl.
  - intros [= <- <-]. split_and!; try done; [by intros ? ?%elem_of_nil|by left].
  - intros Hf. apply result_bind_Ok in Hf as ([l1 r1] & Hstep & Hf). inv_ok.
    match goal with Hi : insert_live _ _ _ _ _ = Ok _ |- _ => apply insert_live_Ok in Hi as [-> Hsub1] end.
    match goal with He : extend_roots _ _ _ = Ok _ |- _ => unfold extend_roots in He; inv_ok end.
    apply IH in Hf as (Hsub & Hroots & Hall & Hinv). split_and!.
    + by etrans.
    + set_solver.
    + intros x [->|Hx]%elem_of_cons; [|by apply Hall]. split; [|set_solver].
      eexists. eapply lookup_weaken; [|done]. apply lookup_insert_eq.
    + intros key [Hk|(x & Hx & ->)]%Hinv; [|right; exists x; split; [by right|done]].
      apply lookup_insert_is_Some in Hk as [<-|[_ Hk]]; [|by left]. right. exists r. split; [by left|done].
Qed.

Lemma record_references tr refs records :
  Forall2 (commit_authentic log tr) refs records → record_reference <$> records = refs.
Proof.
  induction 1 as [|c r cs rs Hc _ IH]; [done|]. rewrite fmap_cons, IH. by destruct Hc as (_ & _ & _ & _ & _ & ->).
Qed.

Lemma load_checkpoint_returns cp tr body :
  returns (load_checkpoint log cp) tr (Ok body) →
  ∃ stored, got tr (key_path log (key_of (checkpoint_object cp))) stored
    ∧ digest_of (stored_bytes stored) = obj_digest (checkpoint_object cp)
    ∧ decode_checkpoint_reference log cp (stored_bytes stored) = Ok body.
Proof.
  unfold load_checkpoint. intros Hr. returns_inv.
  match goal with Hi : returns (read_immutable _ _) _ _ |- _ => apply read_immutable_got in Hi as (Hd & s & Hg & <-) end.
  exists s. split_and!; [|done|by symmetry]. eapply got_mono; [|done]. set_solver.
Qed.

(** The checkpoint's part of the walk. *)
Lemma mark_live_checkpoint_Ok view (live : Visited) roots tr live' roots' :
  returns (mark_live_checkpoint log view live roots) tr (Ok (live', roots')) →
  live ⊆ live' ∧ roots ⊆ roots'
  ∧ (∀ key, is_Some (live' !! key) → is_Some (live !! key)
       ∨ ∃ cp, head_checkpoint (view_head view) = Some cp ∧ key = key_of (checkpoint_object cp))
  ∧ (∀ cp, head_checkpoint (view_head view) = Some cp →
       is_Some (live' !! key_of (checkpoint_object cp))
       ∧ ∃ stored body, got tr (key_path log (key_of (checkpoint_object cp))) stored
         ∧ digest_of (stored_bytes stored) = obj_digest (checkpoint_object cp)
         ∧ decode_checkpoint_reference log cp (stored_bytes stored) = Ok body ∧ kb_objects body ⊆ roots').
Proof.
  unfold mark_live_checkpoint. destruct (head_checkpoint (view_head view)) as [cp|].
  - intros Hr. apply returns_io_bind_Ok in Hr as (? & ? & l1 & -> & [-> Hi] & Hr). symmetry in Hi.
    apply insert_live_Ok in Hi as [-> Hsub].
    apply returns_io_bind_Ok in Hr as (t1 & t2 & body & -> & Hl & Hr).
    apply returns_io_bind_Ok in Hr as (? & ? & r1 & -> & [-> He] & Hr). returns_inv.
    symmetry in He. unfold extend_roots in He. inv_ok.
    apply load_checkpoint_returns in Hl as (s & Hg & Hd & Hdec). split_and!; [done|set_solver|..].
    + intros key Hk. apply lookup_insert_is_Some in Hk as [<-|[_ Hk]]; [|by left]. right. by exists cp.
    + intros cp' [= <-]. split; [eexists; apply lookup_insert_eq|]. exists s, body.
      split_and!; [|done|done|set_solver]. eapply got_mono; [|done]. set_solver.
  - intros Hr. returns_inv. split_and!; try done. by left.
Qed.

Lemma mark_live_set view tr live : returns (mark_live log view) tr (Ok live) → live_set view tr live.
Proof.
  unfold mark_live. intros Hr.
  apply returns_io_bind_Ok in Hr as (t1 & t2 & [l1 r1] & -> & Ht & Hr).
  apply returns_io_bind_Ok in Hr as (u1 & u2 & [] & -> & _ & Hr).
  apply returns_io_bind_Ok in Hr as (w1 & w2 & [l2 r2] & -> & Hcp & Hr).
  apply tail_records_authentic in Ht as (records & Hall & _ & Hfold).
  apply mark_live_records_Ok in Hfold as (_ & _ & Hrec & Hinv1).
  apply mark_live_checkpoint_Ok in Hcp as (Hsub2 & Hroots2 & Hinv2 & Hcp).
  apply mark_object_graph_covers in Hr as (Hsub3 & Hroots3 & Hinv3 & _).
  pose proof (record_references _ _ _ Hall) as Hrefs.
  assert (∀ key, is_Some (l2 !! key) → is_Some (live !! key)) as Hlive.
  { intros key [m Hm]. eexists. by eapply lookup_weaken. }
  assert (∀ o, o ∈ r2 → is_Some (live !! key_of o)) as Hobj by (intros o Ho; eexists; by apply Hroots3).
  split.
  - intros c Hc. rewrite <-Hrefs in Hc. apply list_elem_of_fmap in Hc as (r & -> & Hr').
    apply Hlive. destruct (Hrec r Hr') as [[m Hm] _]. eexists. by eapply lookup_weaken.
  - exists records. split.
    + eapply Forall2_impl; [done|]. intros. eapply commit_authentic_mono; [|done]. set_solver.
    + intros r o Hr' Ho. apply Hobj, Hroots2. by apply (Hrec r Hr').
  - intros cp Ecp. destruct (Hcp cp Ecp) as (Hs & s & body & Hg & Hd & Hdec & Hb). split; [by apply Hlive|].
    exists s, body. split_and!; [|done|done|by intros o Ho; apply Hobj, Hb].
    eapply got_mono; [|done]. set_solver.
  - intros key [m Hm]. apply Hinv3 in Hm as [Hm|(o & Hk & _ & _ & Hw)].
    + destruct (Hinv2 key) as [Hk|Hk]; [by eexists| |by right; left].
      apply Hinv1 in Hk as [[? Hk]|(r & Hr' & ->)]; [by apply lookup_empty_Some in Hk|].
      left. exists (record_reference r). split; [|done]. rewrite <-Hrefs. by apply list_elem_of_fmap_2.
    + right; right. exists o. split; [done|]. eapply walked_mono; [|reflexivity|done]. set_solver.
Qed.

(** What the head keeps is live. *)
Lemma live_keeps view tr live key :
  live_set view tr live → head_incarnation (view_head view) = log_incarnation log →
  keeps (view_head view) key → is_Some (live !! key).
Proof.
  intros Hlive Hi [c Hc|cp Hcp].
  - unfold commit_key_of. rewrite Hi. by apply (live_commits _ _ _ Hlive).
  - unfold object_key_of. rewrite Hi. by apply (live_checkpoint _ _ _ Hlive).
Qed.

Lemma commit_record_refs c b record :
  commit_record_of log c b = Ok record → content_refs (log_options log) KCommit b = record_objects record.
Proof. unfold commit_record_of. intros Hr. inv_ok. simpl. by match goal with Hd : decode_commit _ = Ok _ |- _ => rewrite Hd end. Qed.

(** The live set is closed under the references of what was read. *)
Lemma live_refs view tr live key :
  live_set view tr live →
  (∀ cp, head_checkpoint (view_head view) = Some cp → obj_kind (checkpoint_object cp) = Checkpoint) →
  is_Some (live !! key) → refs_live log tr (λ key, is_Some (live !! key)) key.
Proof.
  intros Hlive Hkind [(c & Hc & ->)|[(cp & Hcp & ->)|(o & <- & Hw)]]%(live_closed _ _ _ Hlive).
  - destruct (live_commit_objects _ _ _ Hlive) as (records & Hall & Hobj).
    apply list_elem_of_lookup in Hc as [i Hi]. destruct (Forall2_lookup_l _ _ _ _ _ Hall Hi) as (r & Hr & s & Hg & Hd & _ & Hrec & _).
    right. exists s. split_and!; [done|done|]. unfold refs_of. cbn [key_kind commit_immutable_key]. rewrite (commit_record_refs _ _ _ Hrec).
    intros o Ho. eapply Hobj; [|done]. by eapply list_elem_of_lookup_2.
  - destruct (live_checkpoint _ _ _ Hlive cp Hcp) as (_ & s & body & Hg & Hd & Hdec & Hobj). right. exists s.
    split_and!; [done|done|]. unfold refs_of. simpl. rewrite (Hkind cp Hcp). simpl.
    unfold decode_checkpoint_reference in Hdec. inv_ok. by match goal with Hx : decode_checkpoint _ = Ok _ |- _ => rewrite Hx end.
  - unfold walked in Hw. unfold refs_live, refs_of. simpl. destruct (obj_kind o); [by left| |done]. right.
    destruct Hw as (s & node & Hg & Hd & Hdec & Hc). exists s. split_and!; [done|done|].
    unfold decode_node_reference in Hdec. inv_ok. simpl.
    match goal with Hx : decode_node _ _ = Ok _ |- _ => rewrite Hx end. intros child Hin. eexists. by apply Hc.
Qed.

(** ** The scan *)

(** No candidate is live. *)
Lemma scan_candidates_spares live max : ∀ remaining items cands cands' fin key,
  scan_candidates live max remaining items cands = Ok (cands', fin) →
  is_Some (cands' !! key) → is_Some (cands !! key) ∨ live !! key = None.
Proof.
  induction remaining as [|remaining IH]; intros items cands cands' fin key; simpl.
  { intros [= <- <-]. by left. }
  destruct items as [|item items]; [intros [= <- <-]; by left|].
  intros Hs Hk. apply result_bind_Ok in Hs as (it & -> & Hs).
  destruct (immutable_key it) as [k|]; [|by eapply IH].
  case_bool_decide as Hl; [by eapply IH|]. apply eq_None_not_Some in Hl.
  destruct (match cands !! k with Some _ => _ | None => _ end); [done|].
  assert (is_Some (<[k := listed_size it]> cands !! key) → is_Some (cands !! key) ∨ live !! key = None) as Hins.
  { intros [<-|[_ ?]]%lookup_insert_is_Some; [by right|by left]. }
  destruct (_ =? _); [injection Hs as <- <-; by apply Hins|].
  eapply IH in Hs as [?|?]; [by apply Hins|by right|done].
Qed.

Lemma scan_candidates_size live max : ∀ remaining items cands cands' fin,
  scan_candidates live max remaining items cands = Ok (cands', fin) →
  Z.of_nat (size cands) < max → Z.of_nat (size cands') ≤ max.
Proof.
  induction remaining as [|remaining IH]; intros items cands cands' fin; simpl.
  { intros [= <- <-] ?. lia. }
  destruct items as [|item items]; [intros [= <- <-] ?; lia|].
  intros Hs Hlt. apply result_bind_Ok in Hs as (it & -> & Hs).
  destruct (immutable_key it) as [k|]; [|by eapply IH].
  case_bool_decide as Hl; [by eapply IH|].
  destruct (match cands !! k with Some _ => _ | None => _ end); [done|].
  assert (size (<[k := listed_size it]> cands) ≤ S (size cands))%nat as Hsz.
  { rewrite map_size_insert. destruct (cands !! k); unfold id; lia. }
  destruct (_ =? _) eqn:E; [injection Hs as <- <-; lia|]. eapply IH; [done|lia].
Qed.

(** Every candidate is an item of the listing. *)
Lemma scan_candidates_items live max : ∀ remaining items cands cands' fin key size,
  scan_candidates live max remaining items cands = Ok (cands', fin) → cands' !! key = Some size →
  cands !! key = Some size ∨ Ok (MkListedObject (Some key) size) ∈ items.
Proof.
  induction remaining as [|remaining IH]; intros items cands cands' fin key size; simpl.
  { intros [= <- <-]. by left. }
  destruct items as [|item items]; [intros [= <- <-]; by left|].
  intros Hs Hk. apply result_bind_Ok in Hs as ([ik sz] & -> & Hs). simpl in Hs.
  destruct ik as [k|]; [|eapply IH in Hs as [?|?]; [by left|right; by right|done]].
  case_bool_decide; [eapply IH in Hs as [?|?]; [by left|right; by right|done]|].
  destruct (match cands !! k with Some _ => _ | None => _ end); [done|].
  assert (<[k := sz]> cands !! key = Some size → cands !! key = Some size ∨
    Ok (MkListedObject (Some key) size) ∈ Ok (MkListedObject (Some k) sz) :: items) as Hins.
  { intros [[-> ->]|[_ ?]]%lookup_insert_Some; [right; by left|by left]. }
  destruct (_ =? _); [injection Hs as <- <-; by apply Hins|].
  eapply IH in Hs as [?|?]; [by apply Hins|right; by right|done].
Qed.

(** An item of the listing is an object of the log's namespace. *)
Lemma list_scoped_listed tr items key size :
  returns (list_scoped (log_store log)) tr items → Ok (MkListedObject (Some key) size) ∈ items →
  listed log tr key size.
Proof.
  unfold list_scoped. intros Hr Hin. apply returns_bind in Hr as (t1 & t2 & a & -> & _ & Hr).
  destruct a as [[]|e]; [|destruct Hr as [-> ->]; by apply list_elem_of_singleton in Hin].
  apply returns_bind in Hr as (u1 & u2 & answer & -> & (r & ? & -> & -> & ->) & [-> ->]).
  apply list_elem_of_fmap in Hin as ([[loc sz]|e] & Heq & Hin); [|done].
  injection Heq as Hcl <-. exists r, loc. split_and!; [set_solver|done|done].
Qed.

Lemma candidate_list_lookup cands c :
  c ∈ candidate_list cands → cands !! candidate_key c = Some (candidate_size c).
Proof.
  unfold candidate_list. intros (key & -> & Hk)%list_elem_of_fmap. simpl.
  rewrite btree_iter_elements in Hk. apply elem_of_elements, elem_of_dom in Hk as [size ->]. done.
Qed.

Lemma candidate_list_elem cands c :
  c ∈ candidate_list cands → is_Some (cands !! candidate_key c).
Proof. intros Hc%candidate_list_lookup. by eexists. Qed.

Lemma candidate_list_length cands : len (candidate_list cands) = Z.of_nat (size cands).
Proof.
  unfold candidate_list, len. rewrite length_fmap, btree_iter_elements.
  by rewrite <-(size_dom cands).
Qed.

(** ** The installed plan *)

Lemma create_collection_plan_returns plan tr plan_ref :
  returns (create_collection_plan log plan) tr (Ok plan_ref) →
  ∃ b version, encode_collection_plan plan (log_options log) = Ok b ∧ digest_of b = plan_digest plan_ref
    ∧ MkEv (EPut (key_path log (collection_plan_key (log_incarnation log) plan_ref)) b PutCreate) (Ok version) ∈ tr.
Proof.
  unfold create_collection_plan. intros Hr.
  apply returns_io_bind_Ok in Hr as (? & ? & b & -> & [-> Hb] & Hr).
  apply returns_io_bind_Ok in Hr as (? & tr2 & l & -> & [-> _] & Hr). simpl.
  exists b. revert tr2 Hr. generalize 16%nat. intros attempts. induction attempts as [|attempts IH]; intros tr2 Hr; [by destruct Hr|].
  cbn [plan_attempts] in Hr. apply returns_bind in Hr as (t1 & t2 & id & -> & _ & Hr).
  apply returns_io_bind_Ok in Hr as (u1 & u2 & created & -> & Hc & Hr).
  destruct created.
  - returns_inv. unfold store_create in Hc. apply returns_io_bind_Ok in Hc as (w1 & w2 & [] & -> & _ & Hc).
    apply returns_bind in Hc as (x1 & x2 & a & -> & (v & ? & -> & -> & ->) & Hc).
    destruct v as [v|[]]; try (by destruct Hc). exists v. split_and!; [done|done|]. set_solver.
  - destruct (IH _ Hr) as (v & ? & ? & Hin). exists v. split_and!; [done|done|]. set_solver.
Qed.

Lemma install_plan_Installed view epoch plan_ref report tr v report' :
  returns (install_plan log view epoch plan_ref report) tr (Ok (StartInstalled v report')) →
  head_active_plan (view_head v) = Some plan_ref ∧ report' = report.
Proof.
  unfold install_plan. intros Hr. apply returns_io_bind_Ok in Hr as (? & ? & h & -> & [-> Hh] & Hr).
  apply returns_bind in Hr as (t1 & t2 & updated & -> & Hu & Hr).
  destruct updated as [[next|]|e]; [| |by destruct e; destruct Hr].
  - returns_inv. split; [|done]. unfold update_head, new_view in Hu. returns_inv.
    match goal with Hm : returns (match ?o with _ => _ end) _ _ |- _ => destruct o; [|by destruct Hm] end. returns_inv. simpl.
    symmetry in Hh. unfold install_plan_head in Hh. by inv_ok.
  - apply returns_bind in Hr as (u1 & u2 & loaded & -> & _ & Hr).
    destruct loaded as [current|e]; [|by destruct e; destruct Hr].
    case_bool_decide as Hp; [by returns_inv|]. destruct (same_view _ _); [by destruct Hr|]. by returns_inv.
Qed.

(** C9. Collection spares live objects: an installed plan is a durable, non-empty set of
    at most the requested number of keys, disjoint from a live set that holds the view's
    tail commits, its checkpoint and every object reachable from them through
    authenticated references. *)
Theorem collection_spares_live view max_candidates tr v report :
  0 ≤ max_candidates →
  returns (start_collection_with_limit log view max_candidates) tr (Ok (StartInstalled v report)) →
  ∃ live plan plan_ref b version,
    live_set view tr live
    ∧ head_active_plan (view_head v) = Some plan_ref
    ∧ encode_collection_plan plan (log_options log) = Ok b ∧ digest_of b = plan_digest plan_ref
    ∧ MkEv (EPut (key_path log (collection_plan_key (log_incarnation log) plan_ref)) b PutCreate) (Ok version) ∈ tr
    ∧ 0 < len (plan_candidates plan) ≤ max_candidates
    ∧ candidate_count report = len (plan_candidates plan)
    ∧ ∀ c, c ∈ plan_candidates plan → live !! candidate_key c = None.
Proof.
  intros Hpos. unfold start_collection_with_limit. destruct (_ || _) eqn:Hmax; [by intros [_ ?]|].
  intros Hr. apply returns_io_bind_Ok in Hr as (? & ? & [] & -> & [-> _] & Hr).
  case_bool_decide; [by destruct Hr|]. destruct (negb _); [by destruct Hr|].
  apply returns_io_bind_Ok in Hr as (t1 & t2 & live & -> & Hlive & Hr).
  apply returns_io_bind_Ok in Hr as (? & ? & limit & -> & [-> _] & Hr).
  apply returns_bind in Hr as (u1 & u2 & listed & -> & _ & Hr).
  apply returns_io_bind_Ok in Hr as (? & ? & [cands fin] & -> & [-> Hscan] & Hr).
  destruct (_ && _); [by destruct Hr|]. case_bool_decide as Hne; [by destruct Hr|].
  apply returns_io_bind_Ok in Hr as (? & ? & epoch & -> & [-> _] & Hr).
  apply returns_io_bind_Ok in Hr as (? & ? & total & -> & [-> _] & Hr).
  apply returns_io_bind_Ok in Hr as (w1 & w2 & plan_ref & -> & Hplan & Hr).
  apply install_plan_Installed in Hr as [Hact ->].
  apply create_collection_plan_returns in Hplan as (b & version & Hb & Hd & Hin).
  symmetry in Hscan. apply orb_false_elim in Hmax as [Hnz%Z.eqb_neq _].
  assert (∀ key, is_Some (cands !! key) → live !! key = None) as Hdis.
  { intros key Hk. eapply scan_candidates_spares in Hscan as [[? ?%lookup_empty_Some]|?]; done. }
  apply scan_candidates_size in Hscan as Hsz; [|rewrite map_size_empty; lia].
  exists live, (deletion_plan log epoch cands), plan_ref, b, version. simpl. split_and!; try done.
  - apply mark_live_set in Hlive. destruct Hlive as [L1 (records & L2 & L2') L3 L4]. split.
    + done.
    + exists records. split; [|done]. eapply Forall2_impl; [done|]. intros. eapply commit_authentic_mono; [|done]. set_solver.
    + intros cp Hcp. destruct (L3 cp Hcp) as (? & s & body & Hg & Hrest). split; [done|]. exists s, body.
      split; [|done]. eapply got_mono; [|done]. set_solver.
    + intros key [?|[?|(o & Hk & Hw)]]%L4; [by left|by right; left|right; right].
      exists o. split; [done|]. eapply walked_mono; [|reflexivity|done]. set_solver.
  - set_solver.
  - rewrite candidate_list_length. assert (size cands ≠ 0%nat) by (by rewrite map_size_empty_iff). lia.
  - by rewrite candidate_list_length.
  - intros c Hc. by apply Hdis, candidate_list_elem.
Qed.
End collect.
