(* ===== verification/MaintainProtocol.v ===== *)
(** * Retention, checkpoints and collection follow the protocol

    What the maintenance operations do to shared storage under every sequence of
    answers, and what each outcome they report is worth. *)

From S2P Require Import Prelude Types Head LogSpec Cbor Wire Format Typed Prog Wp Store StoreProps Log LogOps LogMaintain.
From S2P Require Import Protocol ProtocolSpecs GraphProps TailProps CollectProps.

Section maintenance.
Context `{Target} `{Blake3} `{CborLaws} `{!DerivedDecode} `{!DerivedDecodeLaws} `{ObjectPath} `{Text}.
Context (log : Log) (caller : Caller).
Context (possible : Answers).

Local Abbreviation WP := (wp (allowed log caller) possible).

(** ** Retention *)

Lemma retention_applied change h h' :
  retention_classify change h = Conflict →
  advance_generation (retention_apply change h) = Ok h' → retention_classify change h' = Applied.
Proof.
  intros _ [-> _]%advance_generation_Ok. destruct change as [id|id|]; simpl.
  - rewrite bool_decide_eq_true_2 by set_solver. done.
  - rewrite bool_decide_eq_false_2 by set_solver. done.
  - by rewrite bool_decide_eq_true_2.
Qed.

Lemma retention_epoch change h h' :
  advance_generation (retention_apply change h) = Ok h' → head_collection_epoch h' = head_collection_epoch h.
Proof. intros [-> _]%advance_generation_Ok. by destruct change. Qed.

(** An applied retention is visible in an observed head, and an acquired one in the
    collection epoch of the view it was requested for. *)
Definition retention_post (view : View) (change : RetentionChange) (past : list Ev)
    (r : Result RetentionStatus Error) : Prop :=
  match r with
  | Ok (RetentionApplied v) =>
      witnessed log caller past v ∧ retention_classify change (view_head v) = Applied
      ∧ (is_acquire change = true →
         head_collection_epoch (view_head v) = head_collection_epoch (view_head view))
  | Ok (RetentionActiveCollection v) =>
      witnessed log caller past v ∧ retention_classify change (view_head v) = ActiveCollection
  | Ok (RetentionConflict v) => witnessed log caller past v
  | Ok RetentionPending => True
  | Err _ => True
  end.

Lemma retention_status_post view change past v :
  witnessed log caller past v →
  (is_acquire change = true →
   head_collection_epoch (view_head v) = head_collection_epoch (view_head view)) →
  retention_post view change past (Ok (retention_status (retention_classify change (view_head v)) v)).
Proof. intros Hw He. destruct (retention_classify _ _) eqn:E; simpl; eauto. Qed.

Lemma wp_retention_attempts view change : change_typed change → ∀ more past current,
  witnessed log caller past current → validate_view log current = Ok () →
  retention_classify change (view_head current) = Conflict →
  (is_acquire change = true →
   head_collection_epoch (view_head current) = head_collection_epoch (view_head view)) →
  WP past (retention_attempts more log view current change) (retention_post view change).
Proof.
  intros Hchange.
  induction more as [|more IH]; intros past current Hw Hview Hc He; cbn [retention_attempts];
    (destruct (is_acquire change && _); [done|]; apply wp_io_lift; [done|]; intros h Hh;
     apply wp_bind, wp_update_head; [done|done|by eapply write_retention|by eapply retention_typed, Hchange; [|eapply witnessed_typed]| | |by intros past' []]);
    try (intros past1 next Hs1 Ha <-; split_and!;
         [by right; right|by eapply retention_applied|intros; by rewrite (retention_epoch _ _ _ Hh), He]);
    (intros past1 Hs1; apply wp_bind, wp_load;
      [|intros past2 e Hs2; apply wp_io_lift; [done|]; intros [v|] Ho; [by destruct e|done]];
     intros past2 next Hs2 Hl; apply wp_io_lift; [done|]; intros o [= <-];
     assert (witnessed log caller past2 next) by (by right; left);
     destruct (same_view _ _); [done|];
     destruct (is_acquire change && negb _) eqn:Heq; [done|]);
    assert (is_acquire change = true →
      head_collection_epoch (view_head next) = head_collection_epoch (view_head view)) as He'
      by (intros Hacq; rewrite Hacq in Heq; simpl in Heq; lia).
  - by apply retention_status_post.
  - destruct (is_acquire change && bool_decide _) eqn:Hretry; [|by apply retention_status_post].
    destruct (_ <=? _); [done|]. apply IH; [done|by eapply loaded_view| |done]. by bool_hyps.
Qed.

Lemma wp_change_retention past view change :
  witnessed log caller past view → change_typed change →
  WP past (change_retention log view change) (retention_post view change).
Proof.
  intros Hk Hchange. unfold change_retention. apply wp_io_lift; [done|]. intros [] Hview.
  destruct (negb _) eqn:E; bool_hyps.
  - apply wp_io_bind, wp_refresh; [| |done].
    + intros past1 v Hs Hl. assert (witnessed log caller past1 v) by (by right; left). cbv beta iota.
      destruct (is_acquire change && negb _) eqn:Heq; [done|]. apply retention_status_post; [done|].
      intros Hacq. rewrite Hacq in Heq. simpl in Heq. lia.
    + intros past1 Hs. apply retention_status_post; [by eapply witnessed_mono|done].
  - by apply wp_retention_attempts.
Qed.

(** ** Checkpoints *)

Lemma checkpoint_head_checkpoint h through object h' :
  checkpoint_head h through object = Ok h' →
  head_checkpoint h' = Some (MkCheckpointRef (commit_sequence through) (commit_digest through) object).
Proof. by intros (? & _ & -> & _)%checkpoint_head_Ok. Qed.

Lemma classify_checkpoint_Ok cp v g e :
  classify_checkpoint cp v g = Ok e →
  match e with
  | EvidencePublished v' => v' = v ∧ head_checkpoint (view_head v) = Some cp
  | EvidenceNotPublished v' | EvidenceExpired v' => v' = v ∧ head_checkpoint (view_head v) ≠ Some cp
  end.
Proof.
  unfold classify_checkpoint. intros He. case_bool_decide; [by inv_ok|]. inv_ok.
  destruct (_ ?= _); by inv_ok.
Qed.

(** The view names the checkpoint, whose object is durable. *)
Definition published_checkpoint (past : list Ev) (v : View) (cp : CheckpointRef) : Prop :=
  witnessed log caller past v ∧ head_checkpoint (view_head v) = Some cp
  ∧ durable log caller past (object_immutable_key log (checkpoint_object cp)).

Definition checkpoint_status_post (view : View) (through : CommitRef) (past : list Ev)
    (r : Result CheckpointStatus Error) : Prop :=
  match r with
  | Ok (CheckpointPublished v) =>
      ∃ object, published_checkpoint past v
        (MkCheckpointRef (commit_sequence through) (commit_digest through) object)
  | Ok (CheckpointConflict v) => loaded log past v
  | Ok (CheckpointPending p) =>
      pc_view p = view ∧ pc_through p = through
      ∧ durable log caller past (object_immutable_key log (checkpoint_object (pc_checkpoint p)))
  | Err _ => True
  end.

Lemma append_base_epoch h h' :
  has_checkpoint_append_base h h' = true → head_collection_epoch h' = head_collection_epoch h.
Proof.
  unfold has_checkpoint_append_base. destruct (strip_prefix _ _); [|done]. intros Hb. bool_hyps. lia.
Qed.

(** After any head of the epoch was observed, the checkpoint object is usable or new. *)
Definition checkpoint_grounded (past : list Ev) (object : ObjectRef) (b : bytes) (epoch : Z) : Prop :=
  ∀ past' v, past ⊆ past' → witnessed log caller past' v → head_collection_epoch (view_head v) = epoch →
    usable log caller past' object epoch ∨ grounded log caller past' (object_immutable_key log object) b epoch.

Lemma wp_publish_checkpoint_head past source through object b :
  witnessed log caller past source → validate_view log source = Ok () → digest_of b = obj_digest object →
  has_content log caller past (object_immutable_key log object) b →
  checkpoint_grounded past object b (head_collection_epoch (view_head source)) →
  object_typed object →
  WP past (publish_checkpoint_head log source (λ v, checkpoint_head (view_head v) through object))
    (publication_post log source (λ v, checkpoint_head (view_head v) through object)
       has_checkpoint_append_base).
Proof.
  intros Hw Hview Hdig Hd Hdrawn Ho. apply wp_publish; [done..|].
  intros past' v h Hs Hwv Htarget Ht Hh. split; [|by eapply checkpoint_typed].
  apply (write_checkpoint log caller past' _ through object b); [done|by eapply has_content_mono| |done].
  assert (head_collection_epoch (view_head v) = head_collection_epoch (view_head source)) as He.
  { destruct Htarget as [->|Hb]; [done|]. by apply append_base_epoch in Hb. }
  rewrite He. by eapply Hdrawn.
Qed.

Lemma wp_publish_checkpoint view through snapshot objects :
  known_view caller view → (∀ R (e : Event R) r, possible R e r → uuid_answers R e r) →
  Forall (λ o, object_ref_wf (staged_object_ref o) = true) objects →
  refs_known log caller KCheckpoint (encode_checkpoint (checkpoint_body log through snapshot objects)) view →
  WP [] (publish_checkpoint log view through snapshot objects) (checkpoint_status_post view through).
Proof.
  intros Hk Huuid Hobjects Hrefs. unfold publish_checkpoint. apply wp_io_lift; [done|]. intros [] Hstaged.
  assert (validate_view log view = Ok ()) as Hview.
  { unfold validate_staged_objects in Hstaged. by destruct (validate_view _ _) as [[]|]. }
  apply wp_io_lift; [done|]. intros subtree Hsubtree.
  assert (1 ≤ subtree ≤ u64_max) as Hrange.
  { unfold publication_objects in Hsubtree. inv_ok. eapply subtree_objects_range; [|done]. by apply Forall_fmap. }
  apply wp_io_read; [apply verify_tail_reads|done|]. intros past1 [] Hs1.
  apply wp_io_lift; [done|]. intros [] _.
  apply wp_io_read; [apply active_collection_candidates_reads|done|]. intros past2 blocked Hs2.
  apply wp_io_bind, wp_create_fresh_object; [done| |done].
  intros past3 [kind id digest length subtree'] Hs3 Hd _ Hkind Hdig Hlen Hsub Hid%Huuid Hnew Hlen64. cbn in Hkind, Hdig, Hlen, Hsub, Hid, Hnew.
  subst kind digest length subtree'. set (object := MkObjectRef _ _ _ _ _) in *.
  apply wp_io_bind. eapply wp_mono; [eapply wp_publish_checkpoint_head;
    [by left|done|done|exact Hd| |by apply object_created_typed]|].
  { intros past' v Hs' Hw Hev. right. split.
    - exists view. split_and!; [by left|done|right; split; [by apply Hs'|done]].
    - intros o Ho. exists v. split_and!; [done|done|by apply Hrefs]. }
  apply (stored_durable log caller _ (object_immutable_key log object)) in Hd; [|done].
  intros past4 r Hs4 Hpost. destruct r as [[next|current g|current|]|e]; cbv beta iota; simpl in Hpost; [..|done].
  - destruct Hpost as (Ha & v & _ & Hc). apply wp_io_read; [|done|].
    + destruct (_ =? _); [apply remember_tail_reads|done].
    + intros past5 [] Hs5. exists object. split_and!; [|by eapply checkpoint_head_checkpoint|].
      * right; right. by eapply acknowledged_mono.
      * eapply durable_mono; [|exact Hd]. set_solver.
  - destruct Hpost as (Hl & _). apply wp_io_lift; [done|]. intros e He%classify_checkpoint_Ok.
    destruct e as [v|v|v]; destruct He as [-> Hc].
    + exists object. split_and!; [by right; left|done|by eapply durable_mono].
    + done.
    + split_and!; [done|done|]. by eapply durable_mono.
  - by destruct Hpost.
  - split_and!; [done|done|]. by eapply durable_mono.
Qed.

Definition checkpoint_resolution_post (cp : CheckpointRef) (past : list Ev)
    (r : Result CheckpointResolution Error) : Prop :=
  match r with
  | Ok (CResPublished v) => witnessed log caller past v ∧ head_checkpoint (view_head v) = Some cp
  | Ok (CResNotPublished v) => loaded log past v
  | Ok (CResExpired v) => loaded log past v ∧ head_checkpoint (view_head v) ≠ Some cp
  | Ok (CResStillPending p) => pc_checkpoint p = cp
  | Err _ => True
  end.

(** The caller stored the pending checkpoint's object. *)
Definition pending_content (pending : PendingCheckpoint) : Prop :=
  ∃ b, digest_of b = obj_digest (checkpoint_object (pc_checkpoint pending))
    ∧ known_content caller (object_immutable_key log (checkpoint_object (pc_checkpoint pending))) b.

Lemma wp_verify_checkpoint_publication past pending (Q : list Ev → Result () Error → Prop) :
  (proof_matches log (pc_staging_domain pending) = true → pending_content pending) →
  (∀ past' b, past ⊆ past' → digest_of b = obj_digest (checkpoint_object (pc_checkpoint pending)) →
     has_content log caller past' (object_immutable_key log (checkpoint_object (pc_checkpoint pending))) b →
     Q past' (Ok ())) →
  (∀ past' e, past ⊆ past' → Q past' (Err e)) →
  WP past (verify_checkpoint_publication log pending) Q.
Proof.
  intros Hknown Hok Herr. unfold verify_checkpoint_publication.
  destruct (proof_matches _ _) eqn:E.
  - apply wp_read; [apply verify_publication_reads|]. intros past' [[]|e] Hs; [|by apply Herr].
    destruct (Hknown eq_refl) as (b & Hd & Hb). apply (Hok _ b); [done|done|by left].
  - apply wp_io_bind, wp_read_returns; [apply load_checkpoint_reads|].
    intros tr [body|e] Hr; [|apply Herr; set_solver].
    unfold load_checkpoint in Hr. returns_inv.
    match goal with Hi : returns (read_immutable _ _) _ _ |- _ => apply read_immutable_got in Hi as (Hd & o & Hg & Hb) end.
    apply wp_read; [apply verify_publication_reads|]. intros past' [[]|e] Hs; [|apply Herr; set_solver].
    eapply Hok; [set_solver|exact Hd|]. right; right. exists o. split; [|done].
    eapply got_mono; [|done]. set_solver.
Qed.

Lemma wp_resolve_checkpoint pending :
  (proof_matches log (pc_staging_domain pending) = true → pending_content pending) →
  object_typed (checkpoint_object (pc_checkpoint pending)) →
  object_known caller (checkpoint_object (pc_checkpoint pending)) (pc_view pending) →
  WP [] (resolve_checkpoint log pending) (checkpoint_resolution_post (pc_checkpoint pending)).
Proof.
  intros Hknown Hobject Hdrawn. unfold resolve_checkpoint. apply wp_io_lift; [done|]. intros [] _.
  apply wp_io_lift; [done|]. intros original Ho. destruct (negb _) eqn:E; [done|]. bool_hyps.
  apply wp_bind, wp_load; [|intros past1 e Hs1; apply wp_io_lift; [done|]; intros [v|] Hv; [by destruct e|done]].
  intros past1 current Hs1 Hl. apply wp_io_lift; [done|]. intros o [= <-].
  apply wp_io_lift; [done|]. intros [view|] Hview.
  - apply compatible_view_Some in Hview as [-> Hcomp].
    assert (head_collection_epoch (view_head current) = head_collection_epoch (view_head (pc_view pending))) as Hepoch.
    { destruct Hcomp as [->|Hb%append_base_epoch]; done. }
    unfold retry_checkpoint. apply wp_io_read; [|done|].
    { unfold evidence_missing. pose proof verify_tail_reads. solve_reads. }
    intros past2 [|] Hs2; [done|]. apply wp_io_bind. unfold evidence_missing. apply wp_bind.
    apply wp_verify_checkpoint_publication; [done| |].
    2:{ intros past3 e Hs3. apply wp_io_lift; [done|]. intros [[]|] Hm; [by destruct e|done]. }
    intros past3 b Hs3 Hdig Hd. apply wp_io_lift; [done|]. intros o [= <-]. apply wp_bind.
    eapply wp_mono; [eapply wp_publish_checkpoint_head; [|by eapply loaded_view|exact Hdig|exact Hd| |done]|].
    { right; left. eapply loaded_mono; [|done]. set_solver. }
    { rewrite Hepoch. intros past' v _ Hw Hev. left. exists v. split_and!; [done|done|by apply Hdrawn]. }
    intros past4 r Hs4 Hpost. destruct r as [[next|c g|c|]|e]; cbv beta iota; simpl in Hpost; [..|by destruct e].
    + destruct Hpost as (Ha & v & _ & Hc%checkpoint_head_checkpoint). split; [by right; right|].
      apply checkpoint_head_checkpoint in Ho. congruence.
    + destruct Hpost as (Hl' & _). apply wp_io_lift; [done|]. intros e He%classify_checkpoint_Ok.
      destruct e as [v|v|v]; destruct He as [-> Hc]; [split; [by right; left|done]|done|done].
    + by destruct Hpost.
    + done.
  - unfold classify_pending_checkpoint. apply wp_io_lift; [done|]. intros e He%classify_checkpoint_Ok.
    destruct e as [v|v|v]; destruct He as [-> Hc]; [|done|done].
    destruct (proof_matches _ _); [by split; [right; left|]|].
    apply wp_bind, wp_read; [apply verify_checkpoint_reads|].
    intros past2 [[]|e] Hs2; [|by destruct e]. split; [|done]. right; left. by eapply loaded_mono.
Qed.

(** ** Collection *)

Lemma wp_delete_batch past keys (Q : list Ev → Result () Error → Prop) :
  (∀ past', past ⊆ past' → allowed log caller past' _ (EDeleteStream (key_path log <$> keys))) →
  (∀ past', past ⊆ past' → (∀ key, key ∈ keys → delete_acknowledged past' (key_path log key)) →
     Q past' (Ok ())) →
  (∀ past' e, past ⊆ past' → Q past' (Err e)) →
  WP past (delete_immutable_batch (log_store log) keys) Q.
Proof.
  intros Hallow Hok Herr. unfold delete_immutable_batch.
  destruct (_ <? _); [by apply Herr|]. destruct (_ =? _) eqn:E.
  { apply Hok; [done|]. intros key Hkey. destruct keys; [by apply elem_of_nil in Hkey|].
    rewrite len_cons in E. pose proof (len_nonneg keys). lia. }
  apply wp_io_read; [apply admit_request_reads|intros; by apply Herr|].
  intros past1 [] Hs1. apply wp_bind, wp_call; [by apply Hallow|]. intros results _.
  destruct (first_delete_error results) as [e|] eqn:Ef; [apply Herr; set_solver|].
  apply Hok; [set_solver|]. intros key Hkey. exists (key_path log <$> keys), results. split_and!.
  - set_solver.
  - by apply list_elem_of_fmap_2.
  - by apply first_delete_error_None.
Qed.

Lemma wp_cleanup past v plan_ref (Q : list Ev → Result () Error → Prop) :
  witnessed log caller past v → head_active_plan (view_head v) ≠ Some plan_ref → plan_ref_wf plan_ref = true →
  (∀ past' r, past ⊆ past' → Q past' r) →
  WP past (cleanup_collection_plan log (collection_plan_key (log_incarnation log) plan_ref)) Q.
Proof.
  intros Hw Hne Hwf HQ. unfold cleanup_collection_plan. apply wp_bind, wp_delete_batch.
  - intros past' Hs. simpl. apply (allow_cleanup log caller past' v); [by eapply witnessed_mono|done|done].
  - intros past' Hs _. by apply HQ.
  - intros past' e Hs. apply wp_io_lift; [by intros; apply HQ|]. intros o _. by apply HQ.
Qed.

Lemma wp_delete_batches v plan_ref plan : ∀ batches past report,
  witnessed log caller past v → validate_view log v = Ok () → head_active_plan (view_head v) = Some plan_ref →
  plan_read log past plan_ref plan → concat batches ⊆ plan_candidates plan →
  WP past (delete_batches log batches report)
    (λ past' r, past ⊆ past' ∧ match r with
       | Ok (inr _) => ∀ c, c ∈ concat batches → delete_acknowledged past' (key_path log (candidate_key c))
       | _ => True
       end).
Proof.
  induction batches as [|batch batches IH]; intros past report Hw Hview Ha Hr Hsub; cbn [delete_batches].
  { split; [done|]. intros c Hc. simpl in Hc. by apply elem_of_nil in Hc. }
  apply wp_bind, wp_delete_batch.
  - intros past' Hs. eapply (allow_collect log caller past' v); eauto with protocol.
    simpl in Hsub. intros key (c & -> & Hc)%list_elem_of_fmap. apply list_elem_of_fmap_2. set_solver.
  - intros past1 Hs1 Hack. eapply wp_mono; [apply IH; eauto with protocol; set_solver|].
    intros past2 r Hs2 [_ Hpost]. split; [set_solver|]. destruct r as [[|]|]; try done.
    intros x [Hc|Hc]%elem_of_app; [|by apply Hpost].
    eapply delete_acknowledged_mono; [exact Hs2|]. apply Hack. by apply list_elem_of_fmap_2.
  - intros past' [] Hs; by split.
Qed.

(** [Complete] carries an observed head with no fence. *)
Definition finish_post (past : list Ev) (r : Result CollectionFinish Error) : Prop :=
  match r with
  | Ok (FinishComplete v _) => witnessed log caller past v ∧ head_active_plan (view_head v) = None
  | Ok (FinishConflict v _) => witnessed log caller past v
  | Ok (FinishPending _) => True
  | Err _ => True
  end.

Lemma wp_clear_attempts plan_ref report : ∀ more past current,
  witnessed log caller past current → validate_view log current = Ok () →
  head_active_plan (view_head current) = Some plan_ref → plan_executed log past plan_ref →
  WP past (clear_attempts more log current plan_ref
             (collection_plan_key (log_incarnation log) plan_ref) report) finish_post.
Proof.
  induction more as [|more IH]; intros past current Hw Hview Ha Hx; cbn [clear_attempts];
    (apply wp_io_lift; [done|]; intros h Hh; apply wp_bind, wp_update_head;
      [done|done|by eapply write_clear|by eapply clear_typed; [|eapply witnessed_typed]| | |by intros past' []]);
    try (intros past1 next Hs1 Hack <-; apply wp_io_bind;
         assert (head_active_plan (view_head next) = None) as Hnone
           by (unfold clear_plan_head in Hh; by apply advance_generation_Ok in Hh as [-> _]);
         apply (wp_cleanup _ next); [by right; right|by rewrite Hnone|exact (typed_plan _ (witnessed_typed _ _ _ _ Hw) _ Ha)|];
         intros past2 [[]|e] Hs2; [|done];
         split; [right; right; by eapply acknowledged_mono|done]);
    (intros past1 Hs1; apply wp_bind, wp_load;
      [|intros past2 e Hs2; apply wp_io_lift; [done|]; intros [v|] Ho; [by destruct e|done]];
     intros past2 reloaded Hs2 Hl; apply wp_io_lift; [done|]; intros o [= <-];
     destruct (same_view _ _); [done|];
     destruct (head_active_plan (view_head reloaded)) as [active|] eqn:Hact;
      [|apply wp_io_bind, (wp_cleanup _ reloaded);
        [by right; left|by rewrite Hact|exact (typed_plan _ (witnessed_typed _ _ _ _ Hw) _ Ha)|];
        intros past3 [[]|e] Hs3; [|done]; split; [right; left; by eapply loaded_mono|done]];
     destruct (negb _) eqn:Hsame; [by right; left|]; bool_hyps; subst active;
     destruct (_ <=? _); [done|]).
  - by right; left.
  - apply IH; [by right; left|by eapply loaded_view|done|]. eapply plan_executed_mono; [|done]. set_solver.
Qed.

Lemma wp_resume_collection past view :
  head_typed (view_head view) → WP past (resume_collection log view) finish_post.
Proof.
  intros Htyped. unfold resume_collection. apply wp_io_lift; [done|]. intros [] Hv.
  apply validate_view_eq in Hv as (_ & Hinc & _).
  apply wp_io_bind, wp_load; [|done]. intros past1 current Hs1 Hl. cbv beta iota.
  assert (witnessed log caller past1 current) as Hw by (by right; left).
  destruct (head_active_plan (view_head current)) as [plan_ref|] eqn:Ha.
  - destruct (negb _) eqn:E; [done|]. bool_hyps.
    pose proof Hl as (? & _ & _ & _ & (_ & Hinc' & _)%validate_view_eq).
    apply wp_io_bind, wp_read_returns; [apply read_collection_plan_reads|].
    intros tr [plan|e] Hr; [|done]. cbv beta iota.
    assert (plan_read log (past1 ++ tr) plan_ref plan) as Hplan.
    { eapply plan_read_mono; [|by eapply read_collection_plan_returns]. set_solver. }
    apply wp_io_lift; [done|]. intros total _. apply wp_io_bind.
    eapply wp_mono; [eapply (wp_delete_batches current plan_ref plan)|].
    + eapply witnessed_mono; [|done]. set_solver.
    + by eapply loaded_view.
    + done.
    + done.
    + by rewrite concat_chunks by (compute; lia).
    + intros past2 [[report|report]|e] _ [Hs2 Hpost]; [done| |done]. cbv beta iota.
      unfold clear_collection_plan. rewrite Hinc'. apply wp_clear_attempts; [|by eapply loaded_view|done|].
      * eapply witnessed_mono; [|exact Hw]. set_solver.
      * exists plan. split; [by eapply plan_read_mono|]. intros c Hc. apply Hpost.
        by rewrite concat_chunks by (compute; lia).
  - apply wp_io_bind. destruct (head_active_plan (view_head view)) as [requested|] eqn:Hreq; [|done].
    rewrite Hinc. apply (wp_cleanup _ current); [done|by rewrite Ha|by eapply typed_plan|].
    intros past2 [[]|e] Hs2; [|done]. split; [by eapply witnessed_mono|done].
Qed.

(** [Installed] carries an observed head whose fence names a durable plan. *)
Definition start_post (past : list Ev) (r : Result CollectionStart Error) : Prop :=
  match r with
  | Ok (StartInstalled v _) =>
      witnessed log caller past v ∧ ∃ plan_ref, head_active_plan (view_head v) = Some plan_ref
        ∧ durable log caller past (collection_plan_key (log_incarnation log) plan_ref)
  | Ok (StartActive v) => witnessed log caller past v ∧ is_Some (head_active_plan (view_head v))
  | Ok (StartRetained v) => witnessed log caller past v ∧ head_retention_ids (view_head v) ≠ ∅
  | Ok (StartConflict v) => loaded log past v
  | Ok (StartEmpty _) | Ok StartPending => True
  | Err _ => True
  end.

Lemma wp_install_plan past view plan_ref report :
  witnessed log caller past view → validate_view log view = Ok () →
  head_active_plan (view_head view) = None →
  head_retention_ids (view_head view) = ∅ →
  durable log caller past (collection_plan_key (log_incarnation log) plan_ref) →
  planned log past (view_head view) plan_ref →
  head_collection_epoch (view_head view) + 1 ≤ u64_max → plan_ref_wf plan_ref = true →
  WP past (install_plan log view (head_collection_epoch (view_head view) + 1) plan_ref report) start_post.
Proof.
  intros Hw Hview Ha Hr Hd Hplanned Hepoch Hplan. unfold install_plan. apply wp_io_lift; [done|]. intros h Hh.
  apply wp_bind, wp_update_head; [done|done|by eapply write_install|by eapply install_typed; [|eapply witnessed_typed| |]| | |by intros past' []].
  - intros past1 next Hs1 Hack <-. split; [by right; right|]. exists plan_ref. split; [|by eapply durable_mono].
    unfold install_plan_head in Hh. apply result_bind_Ok in Hh as (h0 & _ & [= <-]). done.
  - intros past1 Hs1. apply wp_bind, wp_load; [|by intros past2 []]. intros past2 current Hs2 Hl. cbv beta iota.
    case_bool_decide as Hp.
    + split; [by right; left|]. exists plan_ref. split; [done|]. eapply durable_mono; [|done]. set_solver.
    + destruct (same_view _ _); [done|]. apply wp_io_bind, (wp_cleanup _ current); [by right; left|done|done|].
      intros past3 [[]|e] Hs3; [|done]. by eapply loaded_mono.
Qed.

Lemma wp_start_collection past view max_candidates :
  witnessed log caller past view → (∀ R (e : Event R) r, possible R e r → uuid_answers R e r) →
  WP past (start_collection_with_limit log view max_candidates) start_post.
Proof.
  intros Hk Huuid. unfold start_collection_with_limit. destruct (_ || _); [done|].
  apply wp_io_lift; [done|]. intros [] Hview.
  case_bool_decide as Hact; [done|]. apply eq_None_not_Some in Hact.
  destruct (negb _) eqn:Hret; bool_hyps; [done|].
  apply wp_io_bind, wp_read_returns; [apply mark_live_reads|].
  intros tr1 [live|e] Hlive; [|done]. cbv beta iota. apply mark_live_set in Hlive.
  apply wp_io_lift; [done|]. intros scan_limit _.
  apply wp_bind, wp_read_returns; [apply list_scoped_reads|]. intros tr2 items Hitems.
  apply wp_io_lift; [done|]. intros [candidates complete] Hscan.
  destruct (_ && _); [done|]. case_bool_decide; [done|].
  apply wp_io_lift; [done|]. intros epoch [-> Hepoch]%ok_or_Ok%checked_add_Some.
  apply wp_io_lift; [done|]. intros total _.
  apply wp_io_bind, wp_create_plan; [done| |done]. intros past3 plan_ref b version Hs3 Hd Hb Hdig Hput Hid%Huuid Hwf.
  apply wp_install_plan; [eapply witnessed_mono; [|done]; set_solver|done|done|done|done| |done|by apply Hwf].
  exists (deletion_plan log (head_collection_epoch (view_head view) + 1) candidates), b, version, (λ key, is_Some (live !! key)).
  split_and!; [done..| | |].
  { intros key. apply (live_keeps log _ _ _ _ Hlive). by apply validate_view_eq in Hview as (_ & ? & _). }
  { intros Hcp key Hkey. eapply refs_live_mono; [|by eapply live_refs]. set_solver. }
  intros c Hc%candidate_list_lookup. split.
  - eapply listed_mono; [|eapply list_scoped_listed; [done|]]; [set_solver|].
    by destruct (scan_candidates_items _ _ _ _ _ _ _ _ _ Hscan Hc) as [?%lookup_empty_Some|?].
  - intros [m Hm]. apply (scan_candidates_spares _ _ _ _ _ _ _ (candidate_key c)) in Hscan as [[? ?%lookup_empty_Some]|Hn];
      [done|congruence|by eexists].
Qed.

(** ** Staging and opening *)

(** A staged object's content is durable under its own digest, and its key is not
    scheduled for deletion. *)
Definition staged_post (view : View) (kind : ObjectKind) (b : bytes) (past : list Ev)
    (r : Result StagedObject Error) : Prop :=
  ∀ staged, r = Ok staged →
    has_content log caller past (object_immutable_key log (staged_object_ref staged)) b
    ∧ obj_kind (staged_object_ref staged) = kind ∧ obj_digest (staged_object_ref staged) = digest_of b
    ∧ obj_len (staged_object_ref staged) = len b
    ∧ validate_staged_object log view staged = Ok ().

Lemma staged_valid view object : validate_staged_object log view (staged_object log view object) = Ok ().
Proof. unfold validate_staged_object. simpl. by rewrite !Z.eqb_refl. Qed.

Context (Huuid : ∀ R (e : Event R) r, possible R e r → uuid_answers R e r).

Lemma wp_put_object view b :
  WP [] (put_object log view b) (staged_post view Blob b).
Proof.
  unfold put_object. apply wp_io_lift; [done|]. intros [] _. destruct (_ <? _); [done|].
  apply wp_io_read; [apply active_collection_candidates_reads|done|]. intros past1 blocked Hs1.
  apply wp_io_bind, wp_create_fresh_object; [done| |done].
  intros past2 object Hs2 Hd _ Hkind Hdig Hlen _ _ _ _ staged [= <-]. simpl.
  split_and!; [done..|apply staged_valid].
Qed.

Lemma wp_put_node view payload children :
  WP [] (put_node log view payload children)
    (λ past r, ∀ staged, r = Ok staged →
       ∃ b, encode_node (MkNodeBody payload (staged_object_ref <$> children)) (log_options log) = Ok b
            ∧ subtree_objects (staged_object_ref <$> children) = Ok (obj_subtree_objects (staged_object_ref staged))
            ∧ staged_post view Node b past r).
Proof.
  unfold put_node. apply wp_io_lift; [done|]. intros [] _. apply wp_io_lift; [done|]. intros subtree Hsub.
  apply wp_io_lift; [done|]. intros b Hb.
  apply wp_io_read; [apply active_collection_candidates_reads|done|]. intros past1 blocked Hs1.
  apply wp_io_bind, wp_create_fresh_object; [done| |done].
  intros past2 object Hs2 Hd _ Hkind Hdig Hlen Hsubt _ _ _ staged [= <-]. exists b. split_and!; [done| |].
  - simpl. by rewrite Hsubt.
  - intros staged [= <-]. simpl. split_and!; [done..|apply staged_valid].
Qed.

Lemma wp_log_open backend log_id options :
  log_store log = backend_scope backend log_id → log_options log = options →
  log_id_wf (store_log_id (log_store log)) = true → options_wf options = true →
  WP [] (log_open backend log_id options) (λ _ _, True).
Proof.
  intros Hst <- Hid Hopt. unfold log_open. rewrite <-Hst.
  assert (∀ st opts, reads_only (load_existing_head st opts)) as Hload.
  { intros. unfold load_existing_head. solve_reads. }
  apply wp_io_read; [apply store_read_reads|done|]. intros past1 read Hs1.
  apply wp_io_bind. apply (wp_mono _ _ _ _ (λ _ _, True)).
  2:{ intros past2 [incarnation|e] _ _; [|done]. split; [by apply allow_reading|]. done. }
  destruct read as [stored|]; [apply wp_read; [solve_reads|done]|].
  unfold open_create. split; [by apply allow_reading|]. intros u Hu%Huuid. apply wp_io_lift; [done|]. intros b Hb.
  apply wp_io_lift; [done|]. intros [] Hsize. apply wp_bind. unfold store_create.
  assert (∀ past r, WP past (match r with
    | Ok true => ok (head_incarnation (head_empty (store_log_id (log_store log)) u (log_options log)))
    | Ok false =>
        let! '(head, _) := load_existing_head (log_store log) (log_options log) in ok (head_incarnation head)
    | Err create_error =>
        let! read := store_read (log_store log) HeadKey (max_head_bytes (log_options log)) in
        match read with
        | Some stored =>
            let! head := lift (head_from_stored (log_store log) (log_options log) stored) in
            ok (head_incarnation head)
        | None => fail create_error
        end
    end) (λ _ _, True)) as Hrest.
  { intros past [[|]|e]; apply wp_read; try done; solve_reads. }
  apply wp_io_read; [apply admit_request_reads|intros past' e _; exact (Hrest past' (Err e))|].
  intros past2 [] Hs2.
  apply wp_bind, wp_call; [eapply allow_genesis; [by apply empty_typed|done|]; unfold validate_head_size in Hsize; inv_ok; lia|].
  intros [v|[]] _;
    first [exact (Hrest _ (Ok true))|exact (Hrest _ (Ok false))|exact (Hrest _ (Err _))].
Qed.
End maintenance.

(** ** The operations *)

Section claims.
Context `{Target} `{Blake3} `{CborLaws} `{!DerivedDecode} `{!DerivedDecodeLaws} `{ObjectPath} `{Text}.
Context (log : Log) (caller : Caller).

Lemma protocol_sound {A} (p : prog A) (Q : list Ev → A → Prop) tr r :
  wp (allowed log caller) (λ _ _ _, True) [] p Q → returns p tr r →
  follows (allowed log caller) [] tr ∧ Q tr r.
Proof. intros Hwp Hr. eapply (wp_sound _ _ []) in Hr; [done|done|by apply Forall_true]. Qed.

Lemma protocol_sound_uuid {A} (p : prog A) (Q : list Ev → A → Prop) tr r :
  wp (allowed log caller) uuid_answers [] p Q → possible_trace uuid_answers tr → returns p tr r →
  follows (allowed log caller) [] tr ∧ Q tr r.
Proof. intros Hwp Hp Hr. by eapply (wp_sound _ _ []) in Hr. Qed.

(** C21. Changing a retention follows the protocol, and an applied change is visible in
    an observed head; an acquired retention holds in the collection epoch of the view it
    was requested for, so it protects the objects that view names. *)
Theorem retention_follows_protocol view change tr r :
  known_view caller view → change_typed change → returns (change_retention log view change) tr r →
  follows (allowed log caller) [] tr ∧ retention_post log caller view change tr r.
Proof. intros Hk Hc. apply protocol_sound. by apply wp_change_retention; [left|]. Qed.

(** C20. Publishing a checkpoint follows the protocol: the head names the checkpoint only
    after its object is durable and refers only to objects staged in the head's collection
    epoch, and [Published] carries an observed head that names a checkpoint through the
    requested commit. *)
Theorem checkpoint_follows_protocol view through snapshot objects tr r :
  known_view caller view → Forall (λ o, object_ref_wf (staged_object_ref o) = true) objects →
  refs_known log caller KCheckpoint (encode_checkpoint (checkpoint_body log through snapshot objects)) view →
  possible_trace uuid_answers tr → returns (publish_checkpoint log view through snapshot objects) tr r →
  follows (allowed log caller) [] tr ∧ checkpoint_status_post log caller view through tr r.
Proof. intros Hk Ho Hr. apply protocol_sound_uuid. by apply wp_publish_checkpoint. Qed.

(** Resolving an uncertain checkpoint follows the protocol, and every verdict is
    backed by an observed head that settles it. *)
Theorem resolve_checkpoint_follows_protocol pending tr r :
  (proof_matches log (pc_staging_domain pending) = true → pending_content log caller pending) →
  object_typed (checkpoint_object (pc_checkpoint pending)) →
  object_known caller (checkpoint_object (pc_checkpoint pending)) (pc_view pending) →
  returns (resolve_checkpoint log pending) tr r →
  follows (allowed log caller) [] tr ∧ checkpoint_resolution_post log caller (pc_checkpoint pending) tr r.
Proof. intros Hk Ho Hi. apply protocol_sound. by apply wp_resolve_checkpoint. Qed.


(** C10. Executing a collection deletes only candidates of the plan the durable head
    names, and clears the fence only after every candidate's deletion was acknowledged;
    [Complete] carries an observed head without a fence. *)
Theorem resume_collection_follows_protocol view tr r :
  head_typed (view_head view) → returns (resume_collection log view) tr r →
  follows (allowed log caller) [] tr ∧ finish_post log caller tr r.
Proof. intros Ht. apply protocol_sound. by apply wp_resume_collection. Qed.

(** Opening a log follows the protocol: the only write it makes is the conditional
    creation of the empty head. *)
Lemma open_follows_protocol backend log_id options tr r :
  log_store log = backend_scope backend log_id → log_options log = options →
  log_id_wf (store_log_id (log_store log)) = true → options_wf options = true →
  possible_trace uuid_answers tr →
  returns (log_open backend log_id options) tr r → follows (allowed log caller) [] tr.
Proof.
  intros Hst Ho Hid Hopt Hp Hr. eapply (protocol_sound_uuid _ (λ _ _, True)) in Hr as [Hf _]; [done| |done].
  by apply wp_log_open.
Qed.

(** Staging follows the protocol: a staged blob or node is durable under the digest
    of exactly its encoded content before its proof is returned. *)
Theorem staging_follows_protocol view :
  (∀ b tr r, possible_trace uuid_answers tr → returns (put_object log view b) tr r →
     follows (allowed log caller) [] tr ∧ staged_post log caller view Blob b tr r)
  ∧ (∀ payload children tr r, possible_trace uuid_answers tr → returns (put_node log view payload children) tr r →
     follows (allowed log caller) [] tr
     ∧ ∀ staged, r = Ok staged →
         ∃ b, encode_node (MkNodeBody payload (staged_object_ref <$> children)) (log_options log) = Ok b
              ∧ subtree_objects (staged_object_ref <$> children)
                = Ok (obj_subtree_objects (staged_object_ref staged))
              ∧ staged_post log caller view Node b tr r).
Proof.
  split; intros *; intros Hu Hr.
  - exact (protocol_sound_uuid _ _ _ _ (wp_put_object log caller _ (λ _ _ _ Ha, Ha) view b) Hu Hr).
  - exact (protocol_sound_uuid _ _ _ _ (wp_put_node log caller _ (λ _ _ _ Ha, Ha) view payload children) Hu Hr).
Qed.
End claims.
