(* ===== verification/World.v ===== *)
(** * Concurrent clients of one log

    Any number of clients run the operations of a log concurrently against one object
    store.  A system state is the store, the requests made so far and the running
    operations; a step starts an operation, lets one running operation make its next
    request, loses an operation, or lets a write whose answer was an error take effect
    late.  The heads ever stored are one chain of updates from the empty head, and every
    client's view is one of them. *)

From S2P Require Import Prelude Types Head LogSpec Cbor Wire Format Typed Prog Wp Store StoreProps Log LogOps LogMaintain.
From S2P Require Import Protocol ProtocolSpecs CommitProtocol MaintainProtocol.

(** ** Object storage *)

Section storage.
Context `{Target} `{ObjectPath}.

(** The objects, every write that took effect (oldest first), and the writes answered
    with an error, which may still take effect. *)
Record World := MkWorld {
  w_objects : gmap Path (bytes * UpdateVersion);
  w_written : list (Path * bytes * UpdateVersion);
  w_late : list (Path * bytes * PutMode)
}.

(** [PutMode]: when a write may take effect. *)
Definition admits (w : World) (loc : Path) (mode : PutMode) : Prop :=
  match mode with
  | PutOverwrite => True
  | PutCreate => w_objects w !! loc = None
  | PutUpdate v => ∃ b, w_objects w !! loc = Some (b, v)
  end.

(** A version identifies what was written at a location. *)
Definition identifies (w : World) (loc : Path) (b : bytes) (v : UpdateVersion) : Prop :=
  ∀ b', (loc, b', v) ∈ w_written w → b' = b.

Definition write_object (loc : Path) (b : bytes) (v : UpdateVersion) (w : World) : World :=
  MkWorld (<[loc := (b, v)]> (w_objects w)) (w_written w ++ [(loc, b, v)]) (w_late w).

Definition leave_late (loc : Path) (b : bytes) (mode : PutMode) (w : World) : World :=
  MkWorld (w_objects w) (w_written w) (w_late w ++ [(loc, b, mode)]).

Definition remove_objects (gone : list Path) (w : World) : World :=
  MkWorld (foldr delete (w_objects w) gone) (w_written w) (w_late w).

(** A GET that succeeds serves the current object, if its body arrives completely. *)
Definition get_answer (w : World) (loc : Path) (r : Result GetResult StoreError) : Prop :=
  match r with
  | Ok result => ∃ b v, w_objects w !! loc = Some (b, v)
      ∧ ∀ max stored, collect_object result max = Ok stored → stored = MkStoredObject b v
  | Err _ => True
  end.

(** The answers of storage and their effects. *)
Definition serves (w : World) {R} (e : Event R) : R → World → Prop :=
  match e in Event R return R → World → Prop with
  | EGet loc _ => λ r w', w' = w ∧ get_answer w loc r
  | EPut loc b mode => λ r w',
      match r with
      | Ok v => admits w loc mode ∧ identifies w loc b v ∧ w' = write_object loc b v w
      | Err _ => w' = leave_late loc b mode w
      end
  | EDelete loc => λ _ w', ∃ gone, gone ⊆ [loc] ∧ w' = remove_objects gone w
  | EDeleteStream locations => λ _ w', ∃ gone, gone ⊆ locations ∧ w' = remove_objects gone w
  | _ => λ _ w', w' = w
  end.
End storage.

(** ** Operations *)

Section operations.
Context `{Target} `{Blake3} `{CborLaws} `{!DerivedDecode} `{!DerivedDecodeLaws} `{ObjectPath} `{Text}.

(** The operations of the public interface; [OpRead] is any operation that only reads. *)
Inductive Operation :=
  | OpOpen (backend : ValidatedBackend) (log_id : LogId) (options : Options)
  | OpLoad
  | OpRefresh (view : View)
  | OpRetention (view : View) (change : RetentionChange)
  | OpPutObject (view : View) (b : bytes)
  | OpPutNode (view : View) (payload : bytes) (children : list StagedObject)
  | OpCommit (prepared : PreparedCommit)
  | OpResolve (pending : PendingCommit)
  | OpResume (token : bytes)
  | OpPublishCheckpoint (view : View) (through : CommitRef) (snapshot : bytes) (objects : list StagedObject)
  | OpResolveCheckpoint (pending : PendingCheckpoint)
  | OpStartCollection (view : View) (max_candidates : Z)
  | OpResumeCollection (view : View)
  | OpRead (A : Type) (p : io A).

Definition outcome (o : Operation) : Type :=
  match o with
  | OpOpen _ _ _ => Log
  | OpLoad => View
  | OpRefresh _ => option View
  | OpRetention _ _ => RetentionStatus
  | OpPutObject _ _ | OpPutNode _ _ _ => StagedObject
  | OpCommit _ => CommitStatus
  | OpResolve _ | OpResume _ => Resolution
  | OpPublishCheckpoint _ _ _ _ => CheckpointStatus
  | OpResolveCheckpoint _ => CheckpointResolution
  | OpStartCollection _ _ => CollectionStart
  | OpResumeCollection _ => CollectionFinish
  | OpRead A _ => A
  end.

Definition op_prog (log : Log) (o : Operation) : io (outcome o) :=
  match o return io (outcome o) with
  | OpOpen backend log_id options => log_open backend log_id options
  | OpLoad => load log
  | OpRefresh view => refresh log view
  | OpRetention view change => change_retention log view change
  | OpPutObject view b => put_object log view b
  | OpPutNode view payload children => put_node log view payload children
  | OpCommit prepared => commit log prepared
  | OpResolve pending => resolve log pending
  | OpResume token => resume log token
  | OpPublishCheckpoint view through snapshot objects => publish_checkpoint log view through snapshot objects
  | OpResolveCheckpoint pending => resolve_checkpoint log pending
  | OpStartCollection view max_candidates => start_collection_with_limit log view max_candidates
  | OpResumeCollection view => resume_collection log view
  | OpRead A p => p
  end.

(** What an outcome says, from the specifications of the operations. *)
Definition op_post (log : Log) (caller : Caller) (o : Operation) (past : list Ev)
    : Result (outcome o) Error → Prop :=
  match o return Result (outcome o) Error → Prop with
  | OpLoad => λ r, ∀ v, r = Ok v → loaded log past v
  | OpRefresh _ => λ r, ∀ v, r = Ok (Some v) → loaded log past v
  | OpRetention view change => retention_post log caller view change past
  | OpPutObject view b => staged_post log caller view Blob b past
  | OpCommit prepared => commit_post log caller prepared past
  | OpResolve pending => resolution_post log caller (pending_commit_ref pending) past
  | OpResume token => λ r, ∀ t c, decode_recovery_token token = Ok t →
      recovered_commit_ref log t = Ok c → resolution_post log caller c past r
  | OpPublishCheckpoint view through _ _ => checkpoint_status_post log caller view through past
  | OpResolveCheckpoint pending => checkpoint_resolution_post log caller (pc_checkpoint pending) past
  | OpStartCollection _ _ => start_post log caller past
  | OpResumeCollection _ => finish_post log caller past
  | OpOpen _ _ _ | OpPutNode _ _ _ | OpRead _ _ => λ _, True
  end.

(** A caller with no evidence of its own. *)
Definition nobody : Caller :=
  MkCaller (λ _, False) (λ _ _, False) (λ _ _, False) (λ _ _, False) (λ _ f, False_ind _ f).
End operations.

(** ** The system *)

Section system.
Context `{Target} `{Blake3} `{CborLaws} `{!DerivedDecode} `{!DerivedDecodeLaws} `{ObjectPath} `{Text}.

(** The log: its scope in the bucket, its identifier and the options every client opens
    it with. *)
Context (scope : Path) (log_id : LogId) (options : Options).

Record handle (log : Log) : Prop := {
  handle_scope : store_scope (log_store log) = scope;
  handle_id : store_log_id (log_store log) = log_id;
  handle_options : log_options log = options
}.

(** The view was observed by a client of the log. *)
Definition seen (past : list Ev) (v : View) : Prop :=
  ∃ log, handle log ∧ witnessed log nobody past v.

Lemma seen_typed past v : seen past v → head_typed (view_head v).
Proof. intros (log & _ & Hw). by eapply witnessed_typed. Qed.

(** A client's evidence when it calls an operation; [ids] and [objects] say which storage
    identities and objects it may use with a head. *)
Definition caller_of (ids : StorageId → Head → Prop) (objects : ObjectRef → Head → Prop) (log : Log) (past : list Ev)
    : Caller :=
  MkCaller (seen past) (has_content log nobody past) ids objects (seen_typed past).

(** When a client may call an operation: views come from earlier observations, proofs of
    this handle's staging domain from objects it made durable, identifiers are 16 bytes. *)
Definition op_ready (log : Log) (past : list Ev) (o : Operation) : Prop :=
  match o with
  | OpOpen backend id opts => log_store log = backend_scope backend id ∧ id = log_id ∧ opts = options
  | OpLoad | OpRefresh _ | OpPutObject _ _ | OpPutNode _ _ _ | OpResume _ => True
  | OpRetention view change => seen past view ∧ change_typed change
  | OpCommit prepared => seen past (prep_view prepared) ∧ prepared_typed prepared
  | OpResolve pending => ∃ prepared, pending_prepared pending = Some prepared ∧ prepared_typed prepared
      ∧ (proof_matches log (prep_staging_domain prepared) = true →
         ∀ b, encode_prepared log prepared = Ok (pending_commit_ref pending, b) →
           has_content log nobody past (commit_immutable_key log (pending_commit_ref pending)) b)
  | OpPublishCheckpoint view _ _ objects =>
      seen past view ∧ Forall (λ o, object_ref_wf (staged_object_ref o) = true) objects
  | OpResolveCheckpoint pending =>
      (proof_matches log (pc_staging_domain pending) = true →
       durable log nobody past (object_immutable_key log (checkpoint_object (pc_checkpoint pending))))
      ∧ object_typed (checkpoint_object (pc_checkpoint pending))
  | OpStartCollection view _ | OpResumeCollection view => seen past view
  | OpRead A p => reads_only p
  end.

(** The identities and objects an operation publishes are usable with the heads it
    publishes on. *)
Definition op_known (caller : Caller) (log : Log) (o : Operation) : Prop :=
  match o with
  | OpCommit prepared => prepared_known log caller prepared
  | OpResolve pending => ∀ prepared, pending_prepared pending = Some prepared → prepared_known log caller prepared
  | OpResume token => token_known log caller token
  | OpPublishCheckpoint view through snapshot objects =>
      refs_known log caller KCheckpoint (encode_checkpoint (checkpoint_body log through snapshot objects)) view
  | OpResolveCheckpoint pending => object_known caller (checkpoint_object (pc_checkpoint pending)) (pc_view pending)
  | _ => True
  end.

(** Every identity and every object with every head. *)
Definition anything {A} (_ : A) (_ : Head) : Prop := True.

Lemma op_anything log past o : op_known (caller_of anything anything log past) log o.
Proof. by destruct o. Qed.

(** Allocations are fresh and UUIDs have 16 bytes. *)
Definition answers (log : Log) R (e : Event R) (r : R) : Prop := fresh_arcs log R e r ∧ uuid_answers R e r.

(** A running operation: its requests so far and what is left of it. *)
Record Task := MkTask {
  task_log : Log;
  task_op : Operation;
  task_trace : list Ev;
  task_prog : io (outcome task_op)
}.

Record System := MkSystem {
  sys_world : World;
  sys_past : list Ev;
  sys_tasks : list Task
}.

Inductive sys_step : System → System → Prop :=
  | sys_start w past tasks log o :
      handle log → op_ready log past o →
      sys_step (MkSystem w past tasks) (MkSystem w past (tasks ++ [MkTask log o [] (op_prog log o)]))
  | sys_request w w' past tasks tasks' log o tr R (e : Event R) k r :
      serves w e r w' → answers log R e r →
      sys_step (MkSystem w past (tasks ++ MkTask log o tr (Vis e k) :: tasks'))
        (MkSystem w' (past ++ [MkEv e r]) (tasks ++ MkTask log o (tr ++ [MkEv e r]) (k r) :: tasks'))
  | sys_lost w past tasks t tasks' :
      sys_step (MkSystem w past (tasks ++ t :: tasks')) (MkSystem w past (tasks ++ tasks'))
  | sys_late w past tasks loc b mode v :
      (loc, b, mode) ∈ w_late w → admits w loc mode → identifies w loc b v →
      sys_step (MkSystem w past tasks) (MkSystem (write_object loc b v w) past tasks).

Definition sys_init : System := MkSystem (MkWorld ∅ [] []) [] [].

(** ** Operations follow the protocol *)

Context (Hid : log_id_wf log_id = true) (Hoptions : options_wf options = true).

Lemma op_wp ids objects log past o :
  handle log → op_ready log past o → op_known (caller_of ids objects log past) log o →
  wp (allowed log (caller_of ids objects log past)) (answers log) [] (op_prog log o)
    (op_post log (caller_of ids objects log past) o).
Proof.
  intros [Hscope Hlog Hopt] Hready Hids.
  assert (∀ R (e : Event R) r, answers log R e r → uuid_answers R e r) as Huuid by (by intros R e r [_ ?]).
  destruct o; simpl in Hready, Hids |- *.
  - destruct Hready as (Hst & -> & ->). apply wp_log_open; [done..|by rewrite Hlog|done].
  - apply wp_load; [by intros past' v _ Hl v' [= <-]|done].
  - apply wp_refresh; [by intros past' v _ Hl v' [= <-]|done|done].
  - destruct Hready as [Hseen Hc]. by apply wp_change_retention; [left|].
  - by apply wp_put_object.
  - eapply wp_mono; [by apply wp_put_node|done].
  - destruct Hready as [Hseen Ht]. by apply wp_commit; [left| |apply known_prepared].
  - destruct Hready as (prepared & Hp & Ht & Hd). unfold resolve. rewrite Hp.
    by apply wp_resolve_prepared; [| |apply known_prepared; exact (Hids _ Hp)].
  - apply wp_resume; [by intros R e r [? _]|exact Hids].
  - destruct Hready as [Hseen Ho]. by apply wp_publish_checkpoint.
  - destruct Hready as [Hd Ho]. by apply wp_resolve_checkpoint.
  - by apply wp_start_collection; [left|].
  - apply wp_resume_collection. by eapply seen_typed.
  - by apply wp_read.
Qed.
End system.
