(* ===== verification/Linear.v ===== *)
(** * One history for every client

    The heads ever stored in a system form one chain of updates from the empty head.
    Every view a client observes, every commit reported as published and every object a
    head names is accounted for in it. *)

From S2P Require Import Prelude Types Head LogSpec Cbor Wire Format FormatHead Typed Prog Wp Store StoreProps Log LogOps LogMaintain.
From S2P Require Import Protocol ProtocolSpecs CommitProtocol MaintainProtocol World.

(** ** Chains of heads *)

Section linked.
Context `{Target} (log_id : LogId) (options : Options).

Record linked (hs : list Head) : Prop := {
  linked_first h : hs !! 0%nat = Some h →
    ∃ incarnation, h = head_empty log_id incarnation options ∧ validate h = Ok ();
  linked_next i h h' : hs !! i = Some h → hs !! S i = Some h' → head_step h h'
}.

Lemma linked_nil : linked [].
Proof. by split. Qed.

Lemma linked_genesis incarnation :
  validate (head_empty log_id incarnation options) = Ok () → linked [head_empty log_id incarnation options].
Proof. intros Hv. split; [|by intros []]. intros h [= <-]. by exists incarnation. Qed.

Lemma linked_snoc hs h h' : linked hs → last hs = Some h → head_step h h' → linked (hs ++ [h']).
Proof.
  intros [Hfirst Hnext] Hlast Hstep. rewrite last_lookup in Hlast.
  assert (hs ≠ []) as Hne by (by intros ->). split.
  - intros h0 Hh0. rewrite lookup_app_l in Hh0; [by apply Hfirst|]. destruct hs; [done|simpl; lia].
  - intros i a b Ha Hb. destruct (decide (S i < length hs)%nat) as [Hi|Hi].
    + rewrite lookup_app_l in Ha, Hb by lia. by eapply Hnext.
    + pose proof (lookup_lt_Some _ _ _ Hb) as Hl. rewrite length_app in Hl. simpl in Hl.
      rewrite lookup_app_l in Ha by lia. rewrite lookup_app_r in Hb by lia.
      replace (S i - length hs)%nat with 0%nat in Hb by lia. injection Hb as <-.
      replace (pred (length hs)) with i in Hlast by lia. congruence.
Qed.

Lemma linked_steps hs i j h h' :
  linked hs → hs !! i = Some h → hs !! j = Some h' → (i ≤ j)%nat → rtc head_step h h'.
Proof.
  intros Hl Hi. revert h'. induction j as [|j IH]; intros h' Hj Hle.
  { replace i with 0%nat in Hi by lia. simplify_eq. apply rtc_refl. }
  destruct (decide (i = S j)) as [->|Hne]; [simplify_eq; apply rtc_refl|].
  destruct (lookup_lt_is_Some_2 hs j) as [x Hx]; [apply lookup_lt_Some in Hj; lia|].
  eapply rtc_r; [apply IH; [done|lia]|by eapply linked_next].
Qed.

Lemma linked_reachable hs h : linked hs → h ∈ hs → reachable h.
Proof.
  intros Hl [i Hi]%list_elem_of_lookup.
  destruct (lookup_lt_is_Some_2 hs 0) as [h0 H0']; [apply lookup_lt_Some in Hi; lia|].
  destruct (linked_first _ Hl h0 H0') as (incarnation & -> & Hv).
  exists log_id, incarnation, options. split; [done|]. eapply linked_steps; [done..|lia].
Qed.

(** Two heads of a chain: one was updated into the other. *)
Lemma linked_total hs h h' : linked hs → h ∈ hs → h' ∈ hs → rtc head_step h h' ∨ rtc head_step h' h.
Proof.
  intros Hl [i Hi]%list_elem_of_lookup [j Hj]%list_elem_of_lookup.
  destruct (decide (i ≤ j)%nat); [left|right]; eapply linked_steps; eauto; lia.
Qed.

Lemma linked_last hs h h' : linked hs → h ∈ hs → last hs = Some h' → rtc head_step h h'.
Proof.
  intros Hl [i Hi]%list_elem_of_lookup Hlast. rewrite last_lookup in Hlast.
  eapply linked_steps; [done..|]. apply lookup_lt_Some in Hi. lia.
Qed.
End linked.

(** ** What a head names *)

(** The commits, the checkpoint and the collection plan of a head. *)
Inductive names (h : Head) : ImmutableKey → Prop :=
  | names_commit c : c ∈ head_entries h → names h (commit_key_of (head_incarnation h) c)
  | names_checkpoint c : head_checkpoint h = Some c →
      names h (object_key_of (head_incarnation h) (checkpoint_object c))
  | names_plan p : head_active_plan h = Some p → names h (collection_plan_key (head_incarnation h) p).

Lemma head_step_incarnation `{Target} h h' : head_step h h' → head_incarnation h' = head_incarnation h.
Proof.
  destruct 1 as [h c h' _ Hc _|h through object h' Hc _|h change h' _ Hc _|h p h' _ _ Hc _|h p h' _ Hc _].
  - by apply candidate_head_Ok in Hc as (-> & _).
  - by apply checkpoint_head_Ok in Hc as (? & _ & -> & _).
  - apply advance_generation_Ok in Hc as [-> _]. by destruct change.
  - unfold install_plan_head in Hc. inv_ok. by apply advance_generation_Ok in Hok as [-> _].
  - by apply advance_generation_Ok in Hc as [-> _].
Qed.

(** A head update names only what the head named before and what was durable. *)
Lemma head_write_names `{Target} `{Blake3} `{Cbor} `{!DerivedDecode} `{ObjectPath} `{Text} log caller past h h' key :
  head_write log caller past h h' → head_incarnation h = log_incarnation log →
  names h' key → names h key ∨ durable log caller past key.
Proof.
  intros Hw Hi Hn.
  destruct Hw as [h c b h' Hseq Hdig Hd _ Hc|h through object b h' Hdig Hd _ Hc|h change h' _ Hc|h p h' _ _ Hd _ Hc|h p h' Hp _ Hc].
  1-2: apply stored_durable in Hd; [|done].
  - apply candidate_head_Ok in Hc as (-> & _). destruct Hn as [c' Hc'|c' Hc'|p Hp]; simpl in *.
    + unfold head_entries in Hc'. simpl in Hc'. rewrite !elem_of_app, list_elem_of_singleton in Hc'.
      destruct Hc' as [[Hc' | ->] |Hc'].
      * left. apply names_commit. apply elem_of_app. by left.
      * right. unfold commit_key_of. rewrite Hi. exact Hd.
      * left. apply names_commit. apply elem_of_app. by right.
    + left. by apply (names_checkpoint h).
    + left. by apply (names_plan h).
  - apply checkpoint_head_Ok in Hc as (i & Hi' & -> & _). destruct Hn as [c' Hc'|c' Hc'|p Hp]; simpl in *.
    + left. apply names_commit. unfold head_entries in *. simpl in Hc'. apply elem_of_app in Hc' as [Hc'|Hc'].
      * apply elem_of_app. left. by eapply drop_subset.
      * apply elem_of_keep_window, elem_of_app in Hc' as [Hc'|Hc']; apply elem_of_app; [by right|left].
        by eapply take_subset.
    + injection Hc' as <-. simpl. right. unfold object_key_of. rewrite Hi. exact Hd.
    + left. by apply (names_plan h).
  - left. apply advance_generation_Ok in Hc as [-> _].
    destruct change; (destruct Hn as [c' Hc'|c' Hc'|p Hp]; simpl in *;
      [by apply (names_commit h)|by apply (names_checkpoint h)|by apply (names_plan h)]).
  - unfold install_plan_head in Hc. inv_ok. apply advance_generation_Ok in Hok as [-> _].
    destruct Hn as [c' Hc'|c' Hc'|p' Hp']; simpl in *.
    + left. by apply (names_commit h).
    + left. by apply (names_checkpoint h).
    + injection Hp' as <-. right. rewrite Hi. exact Hd.
  - left. apply advance_generation_Ok in Hc as [-> _]. destruct Hn as [c' Hc'|c' Hc'|p' Hp']; simpl in *.
    + by apply (names_commit h).
    + by apply (names_checkpoint h).
    + done.
Qed.

(** ** The invariant of a system *)

Section history.
Context `{Target} `{Blake3} `{CborLaws} `{!DerivedDecode} `{!DerivedDecodeLaws} `{ObjectPathLaws} `{Text}.
Context (scope : Path) (log_id : LogId) (options : Options).

Definition head_at : Path := join scope (str "index.cbor").
Definition key_at (key : ImmutableKey) : Path := foldl join scope (immutable_parts key).

Lemma key_not_head key : key_at key ≠ head_at.
Proof.
  intros Heq. destruct (prefix_match_first scope (str "data") (drop 1 (immutable_parts key))) as [r1 H1']; [done|].
  destruct (prefix_match_first scope (str "index.cbor") []) as [r2 H2']; [done|].
  change (foldl join scope (str "data" :: drop 1 (immutable_parts key))) with (key_at key) in H1'.
  change (foldl join scope [str "index.cbor"]) with head_at in H2'. rewrite Heq, H2' in H1'. done.
Qed.

(** The heads ever stored, oldest first. *)
Definition head_writes (w : World) : list (bytes * UpdateVersion) :=
  omap (λ '(loc, b, v), if bool_decide (loc = head_at) then Some (b, v) else None) (w_written w).

Lemma elem_of_head_writes w b v : (b, v) ∈ head_writes w ↔ (head_at, b, v) ∈ w_written w.
Proof.
  unfold head_writes. rewrite list_elem_of_omap. split.
  - intros ([[loc b'] v'] & Hin & Heq). case_bool_decide; simplify_eq. done.
  - intros Hin. exists (head_at, b, v). by rewrite bool_decide_eq_true_2.
Qed.

Lemma head_writes_head b v w : head_writes (write_object head_at b v w) = head_writes w ++ [(b, v)].
Proof. unfold head_writes. simpl. rewrite omap_app. simpl. by rewrite bool_decide_eq_true_2. Qed.

Lemma head_writes_other loc b v w : loc ≠ head_at → head_writes (write_object loc b v w) = head_writes w.
Proof.
  intros Hne. unfold head_writes. simpl. rewrite omap_app. simpl. rewrite bool_decide_eq_false_2 by done.
  apply app_nil_r.
Qed.

(** The stored bytes are this head. *)
Definition stores (x : bytes * UpdateVersion) (h : Head) : Prop :=
  decode_head x.1 = Ok h ∧ len x.1 ≤ u64_max.

(** The view is a head that was stored. *)
Definition in_history (w : World) (v : View) : Prop :=
  ∃ b, (b, view_version v) ∈ head_writes w ∧ decode_head b = Ok (view_head v).

(** The object was written under its own digest. *)
Definition stored (w : World) (key : ImmutableKey) : Prop :=
  ∃ b v, (key_at key, b, v) ∈ w_written w ∧ digest_of b = key_digest key.

(** The bytes were written at the key. *)
Definition content_at (w : World) (key : ImmutableKey) (b : bytes) : Prop := ∃ v, (key_at key, b, v) ∈ w_written w.

(** A write of the head that may take effect: the empty head, or an update of a stored
    one by a head that names only stored objects. *)
Definition head_put (w : World) (b : bytes) (mode : PutMode) : Prop :=
  match mode with
  | PutOverwrite => False
  | PutCreate => ∃ incarnation, decode_head b = Ok (head_empty log_id incarnation options)
      ∧ validate (head_empty log_id incarnation options) = Ok () ∧ len b ≤ u64_max
  | PutUpdate v => ∃ b0 h h', (b0, v) ∈ head_writes w ∧ decode_head b0 = Ok h
      ∧ decode_head b = Ok h' ∧ len b ≤ u64_max ∧ head_step h h'
      ∧ (∀ key, names h' key → names h key ∨ stored w key)
  end.

Definition late_ok (w : World) (x : Path * bytes * PutMode) : Prop :=
  x.1.1 = head_at → head_put w x.1.2 x.2.

(** An answer that was given is accounted for in the store's history. *)
Definition recorded (w : World) (ev : Ev) : Prop :=
  match ev with
  | MkEv e r =>
      match e in Event R return R → Prop with
      | EGet loc _ => λ r, ∀ result max o, r = Ok result → collect_object result max = Ok o →
          (loc, stored_bytes o, stored_version o) ∈ w_written w
      | EPut loc b _ => λ r, ∀ v, r = Ok v → (loc, b, v) ∈ w_written w
      | _ => λ _, True
      end r
  end.

Definition task_ok (w : World) (past : list Ev) (t : Task) : Prop :=
  handle scope log_id options (task_log t) ∧ task_trace t ⊆ past
  ∧ ∃ caller, (∀ v, known_view caller v → in_history w v) ∧ (∀ key b, known_content caller key b → content_at w key b)
    ∧ wp (allowed (task_log t) caller) (answers (task_log t)) (task_trace t) (task_prog t)
        (op_post (task_log t) caller (task_op t)).

Record world_ok (w : World) : Prop := {
  ok_objects loc b v : w_objects w !! loc = Some (b, v) → (loc, b, v) ∈ w_written w;
  ok_current : w_objects w !! head_at = last (head_writes w);
  ok_versions b b' v : (b, v) ∈ head_writes w → (b', v) ∈ head_writes w → b = b';
  ok_chain : ∃ hs, Forall2 stores (head_writes w) hs ∧ linked log_id options hs
    ∧ (∀ h key, h ∈ hs → names h key → stored w key);
  ok_late : Forall (late_ok w) (w_late w)
}.

Record sys_ok (s : System) : Prop := {
  sys_ok_world : world_ok (sys_world s);
  sys_ok_past : Forall (recorded (sys_world s)) (sys_past s);
  sys_ok_tasks : Forall (task_ok (sys_world s) (sys_past s)) (sys_tasks s)
}.

(** *** The history only grows *)

Definition extends (w w' : World) : Prop :=
  w_written w ⊆ w_written w' ∧ head_writes w `prefix_of` head_writes w'.

Lemma extends_refl w : extends w w.
Proof. by split. Qed.

Lemma extends_write loc b v w : extends w (write_object loc b v w).
Proof.
  split; [intros x Hx; apply elem_of_app; by left|]. destruct (decide (loc = head_at)) as [->|Hne].
  - rewrite head_writes_head. by apply prefix_app_r.
  - by rewrite head_writes_other.
Qed.

Lemma in_history_mono w w' v : extends w w' → in_history w v → in_history w' v.
Proof.
  intros [Hs _] (b & Hin & Hd). exists b. split; [|done]. rewrite elem_of_head_writes in *. by apply Hs.
Qed.

Lemma content_at_mono w w' key b : extends w w' → content_at w key b → content_at w' key b.
Proof. intros [Hs _] [v Hin]. exists v. by apply Hs. Qed.

Lemma stored_mono w w' key : extends w w' → stored w key → stored w' key.
Proof. intros [Hs _] (b & v & Hin & Hd). exists b, v. split; [by apply Hs|done]. Qed.

Lemma head_put_mono w w' b mode : extends w w' → head_put w b mode → head_put w' b mode.
Proof.
  intros He. destruct mode as [| |v]; [done..|]. intros (b0 & h & h' & Hin & Hd & Hd' & Hl & Hs & Hn).
  exists b0, h, h'. split_and!; try done.
  - destruct He as [Hs' _]. rewrite elem_of_head_writes in *. by apply Hs'.
  - intros key [?|?]%Hn; [by left|right; by eapply stored_mono].
Qed.

Lemma late_ok_mono w w' x : extends w w' → late_ok w x → late_ok w' x.
Proof. intros He Hl Hx. by eapply head_put_mono, Hl. Qed.

Lemma recorded_mono w w' ev : extends w w' → recorded w ev → recorded w' ev.
Proof. intros [Hs _]. destruct ev as [R e r], e; simpl; try done; naive_solver. Qed.

Lemma task_ok_mono w w' past past' t : extends w w' → past ⊆ past' → task_ok w past t → task_ok w' past' t.
Proof.
  intros He Hs (Hh & Htr & caller & Hv & Hk & Hwp). split_and!; [done|set_solver|].
  exists caller. split_and!; [|by intros; eapply content_at_mono; eauto|done].
  intros; eapply in_history_mono; eauto.
Qed.

(** *** A write that takes effect *)

Lemma head_empty_names incarnation key : ¬ names (head_empty log_id incarnation options) key.
Proof. intros [c Hc|c Hc|p Hp]; [by apply elem_of_nil in Hc|done..]. Qed.

Lemma ok_chain_create w b v :
  world_ok w → w_objects w !! head_at = None → head_put w b PutCreate →
  ∃ hs, Forall2 stores (head_writes w ++ [(b, v)]) hs ∧ linked log_id options hs
    ∧ (∀ h key, h ∈ hs → names h key → stored (write_object head_at b v w) key).
Proof.
  intros Hok Hnone (incarnation & Hd & Hv & Hl). rewrite (ok_current _ Hok) in Hnone.
  apply last_None in Hnone. rewrite Hnone.
  exists [head_empty log_id incarnation options]. split_and!.
  - by repeat constructor.
  - by apply linked_genesis.
  - intros h key ->%list_elem_of_singleton Hn. by apply head_empty_names in Hn.
Qed.

Lemma ok_chain_update w b v v0 b1 :
  world_ok w → w_objects w !! head_at = Some (b1, v0) → head_put w b (PutUpdate v0) →
  ∃ hs, Forall2 stores (head_writes w ++ [(b, v)]) hs ∧ linked log_id options hs
    ∧ (∀ h key, h ∈ hs → names h key → stored (write_object head_at b v w) key).
Proof.
  intros Hok Hcur (b0 & h & h' & Hin & Hd & Hd' & Hl & Hstep & Hn). rewrite (ok_current _ Hok) in Hcur.
  destruct (ok_chain _ Hok) as (hs & Hhs & Hlink & Hnames).
  assert (b0 = b1) as ->.
  { eapply (ok_versions _ Hok); [done|]. apply last_Some in Hcur as [l ->]. set_solver. }
  assert (last hs = Some h) as Hlast.
  { apply last_Some in Hcur as [l Hl']. rewrite Hl' in Hhs. apply Forall2_app_inv_l in Hhs as (hs1 & hs2 & _ & Hx & ->).
    apply Forall2_cons_inv_l in Hx as (h1 & hs3 & [Hd1 _] & Hnil & ->). apply Forall2_nil_inv_l in Hnil as ->.
    rewrite last_snoc. simpl in Hd1. congruence. }
  exists (hs ++ [h']). split_and!.
  - apply Forall2_app; [done|]. by repeat constructor.
  - by eapply linked_snoc.
  - pose proof (extends_write head_at b v w) as He.
    intros h0 key [Hh0| ->%list_elem_of_singleton]%elem_of_app Hk; (eapply stored_mono; [done|]).
    + by eapply Hnames.
    + destruct (Hn key Hk) as [Hk'|]; [|done]. eapply Hnames; [|done]. apply last_Some in Hlast as [l ->]. set_solver.
Qed.

Lemma world_ok_write loc b v mode w :
  world_ok w → (loc = head_at → head_put w b mode) → admits w loc mode → identifies w loc b v →
  world_ok (write_object loc b v w).
Proof.
  intros Hok Hput Hadm Hident. pose proof (extends_write loc b v w) as He. split.
  - intros loc' b' v'. simpl. rewrite elem_of_app, list_elem_of_singleton.
    destruct (decide (loc' = loc)) as [->|Hne].
    + rewrite lookup_insert_eq. intros [= <- <-]. by right.
    + rewrite lookup_insert_ne by done. intros Hl. left. by apply (ok_objects _ Hok).
  - simpl. destruct (decide (loc = head_at)) as [->|Hne].
    + by rewrite lookup_insert_eq, head_writes_head, last_snoc.
    + rewrite lookup_insert_ne, head_writes_other by done. apply (ok_current _ Hok).
  - intros b1 b2 v'. destruct (decide (loc = head_at)) as [->|Hne].
    + rewrite head_writes_head, !elem_of_app, !list_elem_of_singleton.
      intros [Hi1|[= -> ->]] [Hi2|E]; try (by injection E); try (injection E as -> ->).
      * by eapply (ok_versions _ Hok).
      * apply Hident. by apply elem_of_head_writes.
      * symmetry. apply Hident. by apply elem_of_head_writes.
    + rewrite head_writes_other by done. apply (ok_versions _ Hok).
  - destruct (decide (loc = head_at)) as [->|Hne].
    + rewrite head_writes_head. specialize (Hput eq_refl). destruct mode as [| |v0]; [done| |].
      * by apply ok_chain_create.
      * destruct Hadm as [b1 Hb1]. by eapply ok_chain_update.
    + rewrite head_writes_other by done. destruct (ok_chain _ Hok) as (hs & Hhs & Hlink & Hn).
      exists hs. split_and!; [done|done|]. intros h key Hh Hk. eapply stored_mono; [done|]. by eapply Hn.
  - eapply Forall_impl; [apply (ok_late _ Hok)|]. intros x. by apply late_ok_mono.
Qed.

(** *** Evidence of a client *)

Context (log : Log) (Hlog : handle scope log_id options log).

Lemma handle_head : head_path log = head_at.
Proof. unfold head_path, head_at. simpl. by rewrite (handle_scope _ _ _ _ Hlog). Qed.

Lemma handle_key key : key_path log key = key_at key.
Proof. unfold key_path, key_at, immutable_location. by rewrite (handle_scope _ _ _ _ Hlog). Qed.

Context (w : World) (past : list Ev) (caller : Caller).
Context (Hok : world_ok w) (Hpast : Forall (recorded w) past).
Context (Hviews : ∀ v, known_view caller v → in_history w v) (Hkeys : ∀ key b, known_content caller key b → content_at w key b).

Lemma got_written loc o : got past loc o → (loc, stored_bytes o, stored_version o) ∈ w_written w.
Proof.
  intros (i & result & max & Hin & Hc). rewrite Forall_forall in Hpast. by apply (Hpast _ Hin result max o).
Qed.

Lemma put_written loc b mode v : MkEv (EPut loc b mode) (Ok v) ∈ past → (loc, b, v) ∈ w_written w.
Proof. intros Hin. rewrite Forall_forall in Hpast. by apply (Hpast _ Hin v). Qed.

Lemma stores_bound b v : (b, v) ∈ head_writes w → len b ≤ u64_max.
Proof.
  intros [i Hi]%list_elem_of_lookup. destruct (ok_chain _ Hok) as (hs & Hhs & _).
  by destruct (Forall2_lookup_l _ _ _ _ _ Hhs Hi) as (h & _ & _ & ?).
Qed.

Lemma witnessed_history v : witnessed log caller past v → in_history w v.
Proof.
  intros [Hk|[(o & Hg & Hd & Hver & _)|(Ht & observed & b & Hin & He)]]; [by apply Hviews| |].
  - exists (stored_bytes o). split; [|done]. apply elem_of_head_writes. rewrite <-Hver, <-handle_head.
    by apply got_written.
  - assert ((b, view_version v) ∈ head_writes w) as Hb.
    { apply elem_of_head_writes. rewrite <-handle_head. by eapply put_written. }
    exists b. split; [done|]. apply typed_roundtrip; [done|done|by eapply stores_bound].
Qed.

Lemma has_content_written key b : has_content log caller past key b → content_at w key b.
Proof.
  intros [Hk|[[v Hin]|(o & Hg & <-)]]; [by apply Hkeys| |]; unfold content_at; rewrite <-handle_key.
  - exists v. by eapply put_written.
  - exists (stored_version o). by apply got_written.
Qed.

Lemma durable_stored key : durable log caller past key → stored w key.
Proof. intros (b & Hd & [v Hb]%has_content_written). by exists b, v. Qed.

(** *** What the protocol lets a client write and delete *)

Context (Hoptions : options_wf options = true).

Lemma max_head_u64 : max_head_bytes options ≤ u64_max.
Proof.
  unfold options_wf, in_usize in Hoptions. bool_hyps. destruct usize_max_cases as [E|E]; unfold u32_max, u64_max in *; lia.
Qed.

Lemma allowed_writes R (e : Event R) :
  allowed log caller past R e →
  match e with
  | EPut loc b mode => loc = head_at → head_put w b mode
  | EDelete loc => loc ≠ head_at
  | EDeleteStream locations => head_at ∉ locations
  | _ => True
  end.
Proof.
  destruct 1 as [R e Hr|key b _ _|incarnation b Ht He Hl|v h' b Hw Hv Hh Ht He Hl|v plan_ref plan keys _ _ _ _|v plan_ref _ _].
  - by destruct e.
  - intros Heq. rewrite handle_key in Heq. by apply key_not_head in Heq.
  - intros _. rewrite (handle_id _ _ _ _ Hlog), (handle_options _ _ _ _ Hlog) in *. pose proof max_head_u64.
    exists incarnation. split_and!; [apply typed_roundtrip; [done|done|lia]| |lia].
    unfold encode_head in He. by destruct (validate _) as [[]|].
  - intros _. rewrite (handle_options _ _ _ _ Hlog) in Hl. pose proof max_head_u64.
    destruct (witnessed_history v Hw) as (b0 & Hin & Hd). exists b0, (view_head v), h'. split_and!; try done.
    + apply typed_roundtrip; [done|done|lia].
    + lia.
    + by eapply head_write_step.
    + intros key Hn. eapply head_write_names in Hn as [Hn|Hn]; [by left|right; by apply durable_stored|done|].
      by apply validate_view_eq in Hv as (_ & ? & _).
  - intros (key & Heq & _)%list_elem_of_fmap. rewrite handle_key in Heq. by eapply key_not_head.
  - intros Heq%list_elem_of_singleton. rewrite handle_key in Heq. by eapply key_not_head.
Qed.
End history.

(** ** Every step keeps the invariant *)

Section preservation.
Context `{Target} `{Blake3} `{CborLaws} `{!DerivedDecode} `{!DerivedDecodeLaws} `{ObjectPathLaws} `{Text}.
Context (scope : Path) (log_id : LogId) (options : Options).
Context (Hid : log_id_wf log_id = true) (Hoptions : options_wf options = true).

Local Abbreviation step := (sys_step scope log_id options).
Local Abbreviation sys_inv := (sys_ok scope log_id options).
Local Abbreviation world_inv := (world_ok scope log_id options).

Lemma lookup_foldr_delete (m : gmap Path (bytes * UpdateVersion)) gone loc x :
  foldr delete m gone !! loc = Some x → m !! loc = Some x.
Proof.
  induction gone as [|g gone IH]; simpl; [done|]. intros [_ Hl]%lookup_delete_Some. by apply IH.
Qed.

Lemma lookup_foldr_delete_ne (m : gmap Path (bytes * UpdateVersion)) gone loc :
  loc ∉ gone → foldr delete m gone !! loc = m !! loc.
Proof.
  induction gone as [|g gone IH]; simpl; [done|]. intros [Hne Hn]%not_elem_of_cons.
  rewrite lookup_delete_ne by done. by apply IH.
Qed.

Lemma world_ok_remove gone w :
  world_inv w → head_at scope ∉ gone → world_inv (remove_objects gone w) ∧ extends scope w (remove_objects gone w).
Proof.
  intros [Hobj Hcur Hver Hchain Hlate] Hn. split; [|done]. split; try done.
  - intros loc b v Hl%lookup_foldr_delete. by apply Hobj.
  - simpl. rewrite lookup_foldr_delete_ne by done. done.
Qed.

Lemma world_ok_late loc b mode w :
  world_inv w → (loc = head_at scope → head_put scope log_id options w b mode) →
  world_inv (leave_late loc b mode w) ∧ extends scope w (leave_late loc b mode w).
Proof.
  intros [Hobj Hcur Hver Hchain Hlate] Hput. split; [|done]. split; try done.
  apply Forall_app. split; [done|]. constructor; [|constructor]. exact Hput.
Qed.

Lemma serves_ok log caller tr R (e : Event R) r w w' :
  handle scope log_id options log → world_inv w → Forall (recorded w) tr →
  (∀ v, known_view caller v → in_history scope w v) → (∀ key b, known_content caller key b → content_at scope w key b) →
  allowed log caller tr R e → serves w e r w' →
  world_inv w' ∧ extends scope w w' ∧ recorded w' (MkEv e r).
Proof.
  intros Hlog Hok Htr Hv Hk Ha%(allowed_writes scope log_id options log Hlog w tr caller Hok Htr Hv Hk Hoptions) Hs.
  destruct e as [| |loc b mode|loc|locations| | | | | | | |]; simpl in Hs; try (by subst w').
  - destruct Hs as [-> Hg]. split_and!; [done|done|]. intros result max o -> Hc. simpl in Hg.
    destruct Hg as (b & v & Hl & Hcol). apply Hcol in Hc as ->. by apply (ok_objects _ _ _ _ Hok).
  - destruct r as [v|err].
    + destruct Hs as (Hadm & Hident & ->). split_and!; [by eapply world_ok_write|apply extends_write|].
      intros v' [= <-]. simpl. set_solver.
    + subst w'. destruct (world_ok_late loc b mode w Hok Ha). by split_and!.
  - destruct Hs as (gone & Hsub & ->).
    destruct (world_ok_remove gone w Hok); [|by split_and!].
    intros Hin%Hsub%list_elem_of_singleton. by apply Ha.
  - destruct Hs as (gone & Hsub & ->).
    destruct (world_ok_remove gone w Hok); [|by split_and!]. intros Hin. by apply Ha, Hsub.
Qed.

Lemma sys_ok_init : sys_inv sys_init.
Proof.
  split; [|constructor..]. split; simpl; try done.
  - by intros b b' v ?%elem_of_nil.
  - exists []. split_and!; [constructor|apply linked_nil|]. by intros h key ?%elem_of_nil.
Qed.

Lemma task_ok_start w past log o :
  world_inv w → Forall (recorded w) past → handle scope log_id options log → op_ready scope log_id options log past o →
  task_ok scope log_id options w past (MkTask log o [] (op_prog log o)).
Proof.
  intros Hok Hpast Hlog Hready. split_and!; [done|set_solver|].
  exists (caller_of scope log_id options anything anything log past). split_and!.
  - intros v (log' & Hlog' & Hw). by eapply (witnessed_history scope log_id options log' Hlog' w past nobody).
  - intros key b Hd. by eapply (has_content_written scope log_id options log Hlog w past nobody).
  - apply op_wp; [done..|apply op_anything].
Qed.

Lemma task_ok_request w w' past tr log o R (e : Event R) k r :
  extends scope w w' → answers log R e r →
  task_ok scope log_id options w past (MkTask log o tr (Vis e k)) →
  task_ok scope log_id options w' (past ++ [MkEv e r]) (MkTask log o (tr ++ [MkEv e r]) (k r)).
Proof.
  intros He Hans (Hlog & Htr & caller & Hv & Hk & Hwp). simpl in Htr, Hwp. destruct Hwp as [_ Hwp].
  split_and!; [done|simpl; set_solver|]. exists caller. split_and!.
  - intros v Hkv. eapply in_history_mono; [done|by apply Hv].
  - intros key b Hkk. eapply content_at_mono; [done|by apply Hk].
  - by apply Hwp.
Qed.

Lemma sys_ok_step s s' : sys_inv s → step s s' → sys_inv s'.
Proof.
  intros [Hok Hpast Htasks] Hs.
  destruct Hs as [w past tasks log o Hlog Hready|w w' past tasks tasks' log o tr R e k r Hserve Hans
    |w past tasks t tasks'|w past tasks loc b mode v Hin Hadm Hident]; simpl in *.
  - split; simpl; [done|done|]. apply Forall_app. split; [done|]. constructor; [by apply task_ok_start|constructor].
  - apply Forall_app in Htasks as [Ht1 Ht2]. apply Forall_cons in Ht2 as [Ht Ht2].
    pose proof Ht as (Hlog & Htr & caller & Hv & Hk & Hwp). simpl in Hlog, Htr, Hwp. destruct Hwp as [Ha _].
    assert (Forall (recorded w) tr) as Hrec.
    { rewrite Forall_forall in *. intros ev Hev. by apply Hpast, Htr. }
    destruct (serves_ok _ _ _ _ _ _ _ _ Hlog Hok Hrec Hv Hk Ha Hserve) as (Hok' & He & Hr).
    split; simpl; [done| |].
    + apply Forall_app. split; [|by constructor]. eapply Forall_impl; [done|]. intros ev. by eapply recorded_mono.
    + assert (∀ t, task_ok scope log_id options w past t → task_ok scope log_id options w' (past ++ [MkEv e r]) t) as Hm.
      { intros t' Ht'. eapply task_ok_mono; [done| |done]. set_solver. }
      apply Forall_app. split; [by eapply Forall_impl|]. constructor; [by eapply task_ok_request|by eapply Forall_impl].
  - split; simpl; [done|done|]. apply Forall_app in Htasks as [? [? ?]%Forall_cons]. by apply Forall_app.
  - assert (late_ok scope log_id options w (loc, b, mode)) as Hl.
    { pose proof (ok_late _ _ _ _ Hok) as Hl. rewrite Forall_forall in Hl. by apply Hl. }
    pose proof (extends_write scope loc b v w) as He. split; simpl.
    + by eapply world_ok_write.
    + eapply Forall_impl; [done|]. intros ev. by eapply recorded_mono.
    + eapply Forall_impl; [done|]. intros t Ht. by eapply task_ok_mono.
Qed.

Lemma sys_ok_steps s s' : sys_inv s → rtc step s s' → sys_inv s'.
Proof. intros Hi Hs. revert Hi. induction Hs as [|s s1 s' Hstep _ IH]; intros Hi; [done|]. by eapply IH, sys_ok_step. Qed.

Lemma reachable_ok s : rtc step sys_init s → sys_inv s.
Proof. by apply sys_ok_steps, sys_ok_init. Qed.

(** A step only adds to the history. *)
Lemma sys_step_extends s s' : sys_inv s → step s s' → extends scope (sys_world s) (sys_world s').
Proof.
  intros [Hok Hpast Htasks] Hs.
  destruct Hs as [w past tasks log o Hlog Hready|w w' past tasks tasks' log o tr R e k r Hserve Hans
    |w past tasks t tasks'|w past tasks loc b mode v Hin Hadm Hident]; simpl in *; try apply extends_refl;
    [|apply extends_write].
  apply Forall_app in Htasks as [Ht1 Ht2]. apply Forall_cons in Ht2 as [Ht Ht2].
  pose proof Ht as (Hlog & Htr & caller & Hv & Hk & Hwp). simpl in Hlog, Htr, Hwp. destruct Hwp as [Ha _].
  eapply serves_ok in Hserve as (_ & He & _); [done|done|done| |done..].
  rewrite Forall_forall in *. intros ev Hev. by apply Hpast, Htr.
Qed.

Lemma sys_steps_extends s s' : sys_inv s → rtc step s s' → extends scope (sys_world s) (sys_world s').
Proof.
  intros Hi Hs. revert Hi. induction Hs as [|s s1 s' Hstep _ IH]; intros Hi; [apply extends_refl|].
  destruct (sys_step_extends _ _ Hi Hstep) as [Hw Hp], (IH (sys_ok_step _ _ Hi Hstep)) as [Hw' Hp'].
  split; [set_solver|by etrans].
Qed.
End preservation.
