(* ===== verification/Agreement.v ===== *)
(** * What concurrent clients can rely on

    The published log of a chain of heads, and the guarantees of a system of concurrent
    clients: one history, agreeing views, permanent commits, and heads that name only
    stored objects. *)

From S2P Require Import Prelude Types Head LogSpec Cbor Wire Format FormatHead Typed Prog Wp Store StoreProps Log LogOps LogMaintain.
From S2P Require Import Protocol ProtocolSpecs CommitProtocol MaintainProtocol World Linear.

(** ** The published log of a chain *)

(** The commit an update appends. *)
Definition appended (h h' : Head) : list CommitRef :=
  if head_next_sequence h' =? head_next_sequence h + 1 then option_list (last (head_tail h')) else [].

Fixpoint published (hs : list Head) : list CommitRef :=
  match hs with
  | h :: ((h' :: _) as hs) => appended h h' ++ published hs
  | _ => []
  end.

Lemma published_snoc hs h h' : published ((hs ++ [h]) ++ [h']) = published (hs ++ [h]) ++ appended h h'.
Proof.
  induction hs as [|x hs IH]; [simpl; by rewrite app_nil_r|].
  destruct hs as [|y hs]; cbn [app published] in *; [by rewrite !app_nil_r|]. by rewrite IH, app_assoc.
Qed.

Lemma published_app hs k : published hs `prefix_of` published (hs ++ k).
Proof.
  induction k as [|h' k IH] using rev_ind; [by rewrite app_nil_r|]. rewrite app_assoc. etrans; [exact IH|].
  destruct (hs ++ k) as [|x l _] using rev_ind; [apply prefix_nil|]. rewrite published_snoc. by apply prefix_app_r.
Qed.

Section published.
Context `{Target} (log_id : LogId) (options : Options).

Lemma linked_app hs k : linked log_id options (hs ++ k) → linked log_id options hs.
Proof.
  intros [Hf Hn]. split.
  - intros h Hh. apply Hf. by apply lookup_app_l_Some.
  - intros i h h' Hh Hh'. eapply Hn; by apply lookup_app_l_Some.
Qed.

Lemma step_appended h h' L :
  head_ok h → represents h (MkAbsLog L (base_start h)) → head_step h h' →
  head_ok h' ∧ represents h' (MkAbsLog (L ++ appended h h') (base_start h')).
Proof.
  intros Hok Hrep Hstep. destruct (head_step_simulates _ _ _ Hok Hrep Hstep) as (Hok' & _). split; [done|].
  assert (∀ k, head_next_sequence k = head_next_sequence h → appended h k = []) as Hsame.
  { intros k Hk. unfold appended. by rewrite Hk, (proj2 (Z.eqb_neq _ _)) by lia. }
  destruct Hstep as [h c h' Hseq Hc _|h through object h' Hc _|h change h' _ Hc _|h p h' _ _ Hc _|h p h' _ Hc _].
  - pose proof (represents_commit _ _ _ _ _ Hrep Hseq Hc) as Hr.
    apply candidate_head_Ok in Hc as (-> & _). unfold appended. simpl. rewrite Z.eqb_refl, last_snoc. exact Hr.
  - destruct (represents_checkpoint _ _ _ _ _ _ Hok Hrep Hc) as [Hr _].
    assert (head_next_sequence h' = head_next_sequence h) as Hn by (by apply checkpoint_head_Ok in Hc as (? & _ & -> & _)).
    rewrite Hsame, app_nil_r by done. by rewrite (rep_base _ _ Hr).
  - apply advance_generation_Ok in Hc as [-> _]. rewrite Hsame, app_nil_r by (by destruct change).
    by eapply represents_same_log; [destruct change; exact Hrep|destruct change..].
  - unfold install_plan_head in Hc. inv_ok. apply advance_generation_Ok in Hok0 as [-> _].
    rewrite Hsame, app_nil_r by done. by eapply represents_same_log.
  - apply advance_generation_Ok in Hc as [-> _]. rewrite Hsame, app_nil_r by done. by eapply represents_same_log.
Qed.

(** The last head of a chain represents the chain's published log. *)
Lemma linked_represents hs h :
  linked log_id options hs → last hs = Some h →
  head_ok h ∧ represents h (MkAbsLog (published hs) (base_start h)).
Proof.
  revert h. induction hs as [|h' hs IH] using rev_ind; intros h Hl Hlast; [done|].
  rewrite last_snoc in Hlast. injection Hlast as <-.
  destruct (last hs) as [h0|] eqn:E.
  - pose proof (linked_app _ _ Hl) as Hl0. destruct (IH h0 Hl0 eq_refl) as [Hok Hrep].
    apply last_Some in E as [k ->]. rewrite published_snoc. apply step_appended; [done|done|].
    eapply (linked_next _ _ _ Hl (length k)).
    + rewrite lookup_app_l by (rewrite length_app; simpl; lia). by apply list_lookup_middle.
    + rewrite lookup_app_r by (rewrite length_app; simpl; lia). rewrite length_app. simpl.
      by replace (S (length k) - (length k + 1))%nat with 0%nat by lia.
  - apply last_None in E as ->. destruct (linked_first _ _ _ Hl h' eq_refl) as (incarnation & -> & Hv).
    split; [by apply validate_Ok_head_ok|apply represents_empty].
Qed.

(** Every commit a head of the chain retains is in the published log at its sequence. *)
Lemma linked_commit hs h c :
  linked log_id options hs → h ∈ hs → c ∈ head_entries h →
  published hs !! Z.to_nat (commit_sequence c) = Some c.
Proof.
  intros Hl (l1 & l2 & ->)%list_elem_of_split Hc.
  replace (l1 ++ h :: l2) with ((l1 ++ [h]) ++ l2) in * by (by rewrite <-app_assoc).
  destruct (linked_represents (l1 ++ [h]) h) as [Hok Hrep]; [by eapply linked_app|apply last_snoc|].
  apply (entries_lookup h _ Hok Hrep) in Hc as [_ Hc]. eapply prefix_lookup_Some; [exact Hc|apply published_app].
Qed.
End published.

(** ** Guarantees of a system *)

Section guarantees.
Context `{Target} `{Blake3} `{CborLaws} `{!DerivedDecode} `{!DerivedDecodeLaws} `{ObjectPathLaws} `{Text}.
Context (scope : Path) (log_id : LogId) (options : Options).

Definition decoded_head (x : bytes * UpdateVersion) : option Head :=
  match decode_head x.1 with Ok h => Some h | Err _ => None end.

(** The stored heads, decoded, oldest first. *)
Definition head_history (w : World) : list Head :=
  omap decoded_head (head_writes scope w).

Lemma stores_history l hs : Forall2 stores l hs → omap decoded_head l = hs.
Proof.
  induction 1 as [|x h l hs [Hd _] _ IH]; [done|]. simpl. unfold decoded_head at 1. rewrite Hd. by f_equal.
Qed.

Lemma history_ok w :
  world_ok scope log_id options w →
  Forall2 stores (head_writes scope w) (head_history w) ∧ linked log_id options (head_history w)
  ∧ ∀ h key, h ∈ head_history w → names h key → stored scope w key.
Proof.
  intros Hok. destruct (ok_chain _ _ _ _ Hok) as (hs & Hhs & Hrest).
  unfold head_history. by rewrite (stores_history _ _ Hhs).
Qed.

Lemma in_history_elem w v :
  world_ok scope log_id options w → in_history scope w v → view_head v ∈ head_history w.
Proof.
  intros Hok (b & [i Hi]%list_elem_of_lookup & Hd). destruct (history_ok w Hok) as (Hhs & _).
  destruct (Forall2_lookup_l _ _ _ _ _ Hhs Hi) as (h & Hh & Hd' & _). simpl in Hd'.
  apply list_elem_of_lookup. exists i. congruence.
Qed.

Lemma history_prefix w w' : extends scope w w' → head_history w `prefix_of` head_history w'.
Proof. intros [_ [k Hk]]. unfold head_history. rewrite Hk, omap_app. by apply prefix_app_r. Qed.

Context (Hid : log_id_wf log_id = true) (Hoptions : options_wf options = true).

Local Abbreviation step := (sys_step scope log_id options).

(** A finished task has the outcome its specification promises, from evidence that the
    store accounts for. *)
Lemma task_outcome s log o tr r :
  sys_ok scope log_id options s → MkTask log o tr (Done r) ∈ sys_tasks s →
  ∃ caller, handle scope log_id options log ∧ op_post log caller o tr r
    ∧ ∀ v, witnessed log caller tr v → in_history scope (sys_world s) v.
Proof.
  intros [Hok Hpast Htasks] Hin. rewrite Forall_forall in Htasks.
  destruct (Htasks _ Hin) as (Hlog & Htr & caller & Hv & Hk & Hwp). simpl in *.
  exists caller. split_and!; [done|done|]. intros v. apply (witnessed_history scope log_id options log Hlog); try done.
  rewrite Forall_forall in *. intros ev Hev. by apply Hpast, Htr.
Qed.

Lemma seen_history s v :
  sys_ok scope log_id options s → seen scope log_id options (sys_past s) v → in_history scope (sys_world s) v.
Proof.
  intros [Hok Hpast _] (log & Hlog & Hw).
  by apply (witnessed_history scope log_id options log Hlog _ (sys_past s) nobody).
Qed.

(** The task has reported that the commit [c] is published. *)
Definition reports_commit (t : Task) (c : CommitRef) : Prop :=
  match task_op t as o return io (outcome o) → Prop with
  | OpCommit prepared => λ p, ∃ v b,
      p = Done (Ok (CommitCommitted v)) ∧ encode_prepared (task_log t) prepared = Ok (c, b)
  | OpResolve pending => λ p, ∃ v, p = Done (Ok (ResCommitted v)) ∧ pending_commit_ref pending = c
  | OpResume token => λ p, ∃ v recovered, p = Done (Ok (ResCommitted v))
      ∧ decode_recovery_token token = Ok recovered ∧ recovered_commit_ref (task_log t) recovered = Ok c
  | _ => λ _, False
  end (task_prog t).

Lemma reports_commit_history s t c :
  sys_ok scope log_id options s → t ∈ sys_tasks s → reports_commit t c →
  ∃ h, h ∈ head_history (sys_world s) ∧ c ∈ head_entries h.
Proof.
  intros Hs Hin Hr.
  assert (∃ v, in_history scope (sys_world s) v ∧ contains_commit v c = true) as (v & Hv & Hc).
  { destruct t as [log o tr p]. destruct o; cbn in Hr; try done.
    - destruct Hr as (v & b & Hp & He). cbn in Hp, He. subst p. destruct (task_outcome _ _ _ _ _ Hs Hin) as (caller & _ & Hpost & Hh).
      simpl in Hpost. destruct Hpost as (c' & b' & He' & _ & Hw & Hc). rewrite He in He'. injection He' as <- <-.
      exists v. split; [by apply Hh|done].
    - destruct Hr as (v & Hp & <-). cbn in Hp. subst p. destruct (task_outcome _ _ _ _ _ Hs Hin) as (caller & _ & Hpost & Hh).
      destruct Hpost as [Hw Hc]. exists v. split; [by apply Hh|done].
    - destruct Hr as (v & recovered & Hp & Hd & Hrc). cbn in Hp, Hrc. subst p.
      destruct (task_outcome _ _ _ _ _ Hs Hin) as (caller & _ & Hpost & Hh).
      destruct (Hpost _ _ Hd Hrc) as [Hw Hc]. exists v. split; [by apply Hh|done]. }
  exists (view_head v). split; [by apply in_history_elem; [apply (sys_ok_world _ _ _ _ Hs)|]|].
  by rewrite (contains_commit_elem (view_head v)), bool_decide_eq_true in Hc.
Qed.

(** C1. One history: whatever any number of concurrent clients do, and however storage
    loses answers, delays writes and clients, the heads ever stored decode to one chain
    of head updates from the empty head, the durable head is the last of it, and a later
    history only extends an earlier one. *)
Theorem one_history s s' :
  rtc step sys_init s → rtc step s s' →
  length (head_history (sys_world s)) = length (head_writes scope (sys_world s))
  ∧ linked log_id options (head_history (sys_world s))
  ∧ w_objects (sys_world s) !! head_at scope = last (head_writes scope (sys_world s))
  ∧ head_history (sys_world s) `prefix_of` head_history (sys_world s').
Proof.
  intros Hs Hs'. apply reachable_ok in Hs as Hok; [|done..]. destruct Hok as [Hw Hp Ht].
  destruct (history_ok _ Hw) as (Hhs & Hl & _). split_and!; [by eapply eq_sym, Forall2_length|done|apply (ok_current _ _ _ _ Hw)|].
  eapply history_prefix, sys_steps_extends; [..|done]; done.
Qed.

(** C2. Clients agree: of any two views that any clients observed, one was updated into
    the other; a storage version names one head; and two commits at the same sequence in
    their tails and outcomes are the same commit. *)
Theorem clients_agree s v v' :
  rtc step sys_init s → seen scope log_id options (sys_past s) v → seen scope log_id options (sys_past s) v' →
  (rtc head_step (view_head v) (view_head v') ∨ rtc head_step (view_head v') (view_head v))
  ∧ (view_version v = view_version v' → view_head v = view_head v')
  ∧ (∀ c d, c ∈ head_entries (view_head v) → d ∈ head_entries (view_head v') →
       commit_sequence c = commit_sequence d → c = d).
Proof.
  intros Hs%reachable_ok Hv%seen_history Hv'%seen_history; [|done..]. pose proof (sys_ok_world _ _ _ _ Hs) as Hw.
  destruct (history_ok _ Hw) as (_ & Hl & _).
  pose proof (in_history_elem _ _ Hw Hv) as Hin. pose proof (in_history_elem _ _ Hw Hv') as Hin'. split_and!.
  - by eapply linked_total.
  - destruct Hv as (b & Hb & Hd), Hv' as (b' & Hb' & Hd'). intros Heq. rewrite Heq in Hb.
    pose proof (ok_versions _ _ _ _ Hw _ _ _ Hb Hb'). congruence.
  - intros c d Hc Hd Heq. eapply linked_commit in Hc; [|done..]. eapply linked_commit in Hd; [|done..]. congruence.
Qed.

(** C3. Committed is permanent: once a commit, a resolution or a resumed token reports
    that a commit is published, the published log of every later history holds it at its
    sequence, and the durable head represents that log. *)
Theorem committed_is_permanent s s' t c :
  rtc step sys_init s → t ∈ sys_tasks s → reports_commit t c → rtc step s s' →
  published (head_history (sys_world s')) !! Z.to_nat (commit_sequence c) = Some c
  ∧ ∃ h, last (head_history (sys_world s')) = Some h
      ∧ represents h (MkAbsLog (published (head_history (sys_world s'))) (base_start h)).
Proof.
  intros Hs%reachable_ok Hin Hr Hs'; [|done..]. destruct (reports_commit_history _ _ _ Hs Hin Hr) as (h & Hh & Hc).
  assert (sys_ok scope log_id options s') as Hok' by (eapply sys_ok_steps; [..|done]; done).
  destruct (history_ok _ (sys_ok_world _ _ _ _ Hok')) as (_ & Hl & _).
  assert (head_history (sys_world s) `prefix_of` head_history (sys_world s')) as Hpre.
  { eapply history_prefix, sys_steps_extends; [..|done]; done. }
  assert (h ∈ head_history (sys_world s')) as Hh'.
  { destruct Hpre as [k ->]. apply elem_of_app. by left. }
  split; [by eapply linked_commit|]. destruct (last (head_history (sys_world s'))) as [h'|] eqn:E.
  - exists h'. split; [done|]. by eapply linked_represents.
  - apply last_None in E. rewrite E in Hh'. by apply elem_of_nil in Hh'.
Qed.

(** C4. No head names an object that was never stored: every commit, checkpoint and
    collection plan that a head of the history names was written at its own key with
    bytes of its own digest. *)
Theorem heads_name_stored_objects s h key :
  rtc step sys_init s → h ∈ head_history (sys_world s) → names h key → stored scope (sys_world s) key.
Proof.
  intros Hs%reachable_ok Hh Hn; [|done..]. destruct (history_ok _ (sys_ok_world _ _ _ _ Hs)) as (_ & _ & Hnames).
  by eapply Hnames.
Qed.
End guarantees.
