(* ===== verification/Fence.v ===== *)
(** * The collection fence over a store's history

    What the head of a log keeps and everything that refers to, the plans its history
    installed and the objects that are still in the store: no plan ever schedules an object
    that is reachable from a head at or after its installation, and a missing object was
    scheduled.  The invariants are kept by every write, late write and deletion that a
    client's evidence allows. *)

From S2P Require Import Prelude Types Head LogSpec Cbor Wire Format FormatPlan FormatHead Typed Prog Wp Store StoreProps.
From S2P Require Import Log LogOps LogMaintain Protocol ProtocolSpecs CommitProtocol MaintainProtocol World Linear Agreement.

(** ** Updates of the fence *)

Section steps.
Context `{Target}.

Lemma head_step_fence h h' :
  head_step h h' → is_Some (head_active_plan h') →
  (head_active_plan h' = head_active_plan h ∧ head_collection_epoch h' = head_collection_epoch h)
  ∨ head_collection_epoch h' = head_collection_epoch h + 1.
Proof.
  destruct 1 as [h c h' _ Hc _|h through object h' Hc _|h change h' _ Hc _|h p h' _ _ Hc _|h p h' _ Hc _].
  - apply candidate_head_Ok in Hc as (-> & _). by left.
  - apply checkpoint_head_Ok in Hc as (? & _ & -> & _). by left.
  - apply advance_generation_Ok in Hc as [-> _]. left. by destruct change.
  - unfold install_plan_head in Hc. inv_ok. by right.
  - apply advance_generation_Ok in Hc as [-> _]. by intros [].
Qed.

Lemma head_step_epoch_le h h' : head_step h h' → head_collection_epoch h ≤ head_collection_epoch h'.
Proof. intros [->|[-> _]]%head_step_epoch; lia. Qed.

Lemma head_steps_epoch_le h h' : rtc head_step h h' → head_collection_epoch h ≤ head_collection_epoch h'.
Proof. induction 1 as [|x y z Hs _ IH]; [done|]. apply head_step_epoch_le in Hs. lia. Qed.

(** Within one collection epoch, a fence was there from the start. *)
Lemma head_steps_same_plan h h' p :
  rtc head_step h h' → head_collection_epoch h' ≤ head_collection_epoch h → head_active_plan h' = Some p →
  head_active_plan h = Some p.
Proof.
  induction 1 as [|h h1 h' Hs Hr IH]; intros He Hp; [done|].
  pose proof (head_step_epoch_le _ _ Hs). pose proof (head_steps_epoch_le _ _ Hr).
  assert (head_active_plan h1 = Some p) as Hp1 by (apply IH; [lia|done]).
  destruct (head_step_fence _ _ Hs) as [[<- _]|Hx]; [by eexists|done|lia].
Qed.

Lemma head_steps_incarnation h h' : rtc head_step h h' → head_incarnation h' = head_incarnation h.
Proof. induction 1 as [|h h1 h' Hs _ IH]; [done|]. by rewrite IH, (head_step_incarnation _ _ Hs). Qed.

(** What a typed head keeps is an object other than a plan. *)
Lemma keeps_typed h key :
  head_typed h → keeps h key → immutable_key_wf key = true ∧ key_kind key ≠ KCollectionPlan.
Proof.
  intros Ht [c Hc|cp Hcp]; unfold immutable_key_wf; simpl; rewrite (typed_incarnation _ Ht); simpl.
  - pose proof (typed_tail _ Ht c Hc) as Hwf. unfold commit_ref_wf in Hwf. bool_hyps. split; [|done]. by apply andb_true_iff.
  - pose proof (typed_checkpoint _ Ht cp Hcp) as [Hwf _]. unfold checkpoint_ref_wf, object_ref_wf in Hwf. bool_hyps.
    split; [by apply andb_true_iff|]. by destruct (obj_kind _).
Qed.
End steps.

(** ** The invariant *)

Section fence.
Context `{Target} `{Blake3} `{CborLaws} `{!DerivedDecode} `{!DerivedDecodeLaws} `{ObjectPathLaws} `{TextLaws}.
Context (scope : Path) (log_id : LogId) (options : Options).

Local Abbreviation hist := (head_history scope).
Local Abbreviation uuid_of key := (storage_uuid (key_storage_id key)).

Lemma key_at_inj key key' :
  immutable_key_wf key = true → immutable_key_wf key' = true → key_at scope key = key_at scope key' → key = key'.
Proof.
  intros Hk Hk' Heq. unfold key_at in Heq.
  pose proof (prefix_match_join scope _ (immutable_parts_safe _ Hk)) as P.
  rewrite Heq, (prefix_match_join scope _ (immutable_parts_safe _ Hk')) in P.
  assert (Immutable key' = Immutable key) as Hi; [|by injection Hi].
  apply (key_parts_inj (unvalidated scope log_id)); [done|done|]. change (immutable_parts key' = immutable_parts key). congruence.
Qed.

Definition written_at (w : World) (key : ImmutableKey) : Prop := ∃ b v, (key_at scope key, b, v) ∈ w_written w.

(** An object that the stored content of the key refers to. *)
Definition child (w : World) (key key' : ImmutableKey) : Prop :=
  ∃ b v o, immutable_key_wf key = true ∧ (key_at scope key, b, v) ∈ w_written w
    ∧ o ∈ content_refs options (key_kind key) b ∧ key' = object_key_of (key_incarnation key) o.

(** What the head keeps, and everything that can be reached from it. *)
Definition needed (w : World) (h : Head) (key : ImmutableKey) : Prop :=
  ∃ root, keeps h root ∧ rtc (child w) root key.

(** The object was stored, and so was everything that can be reached from it. *)
Definition solid (w : World) (key : ImmutableKey) : Prop :=
  immutable_key_wf key = true ∧ key_kind key ≠ KCollectionPlan ∧ written_at w key.
Definition closed (w : World) (key : ImmutableKey) : Prop := ∀ key', rtc (child w) key key' → solid w key'.

(** The plan of the head's fence, as it is stored. *)
Definition plan_at (w : World) (h : Head) (plan : CollectionPlan) : Prop :=
  ∃ p b v, head_active_plan h = Some p
    ∧ (key_at scope (collection_plan_key (head_incarnation h) p), b, v) ∈ w_written w
    ∧ digest_of b = plan_digest p ∧ decode_collection_plan b options = Ok plan.

(** The head's fence schedules the object for deletion. *)
Definition scheduled (w : World) (h : Head) (key : ImmutableKey) : Prop :=
  ∃ plan c, plan_at w h plan ∧ c ∈ plan_candidates plan ∧ candidate_key c = key.

(** Everything the head's fence schedules satisfies [P]. *)
Definition plan_all (w : World) (h : Head) (P : ImmutableKey → Prop) : Prop :=
  is_Some (head_active_plan h) →
  ∃ plan, plan_at w h plan ∧ ∀ c, c ∈ plan_candidates plan → P (candidate_key c).

(** The stored bytes, and the publication bases of the stored heads, have distinct digests. *)
Definition collision_free (w : World) : Prop :=
  (∀ loc b v loc' b' v', (loc, b, v) ∈ w_written w → (loc', b', v') ∈ w_written w →
     digest_of b = digest_of b' → b = b')
  ∧ ∀ h h' d, h ∈ hist w → h' ∈ hist w →
      publication_base_digest h = Ok d → publication_base_digest h' = Ok d → has_same_publication_base h h' = true.

(** No plan installed up to the epoch schedules an object of this kind: one with this
    identity, or one that can be reached from this object. *)
Definition unscheduled (w : World) (P : ImmutableKey → Prop) (epoch : Z) : Prop :=
  (∃ h, h ∈ hist w ∧ epoch ≤ head_collection_epoch h)
  ∧ ∀ h, h ∈ hist w → head_collection_epoch h ≤ epoch → plan_all w h (λ key, ¬ P key).
Definition safe (w : World) (u : Uuid) (epoch : Z) : Prop := unscheduled w (λ key, uuid_of key = u) epoch.
Definition deep (w : World) (key : ImmutableKey) (epoch : Z) : Prop := unscheduled w (rtc (child w) key) epoch.

(** A head update that what is stored justifies. *)
Definition fenced_update (w : World) (h h' : Head) : Prop :=
  (∀ key, keeps h' key → closed w key ∧ (keeps h key ∨ deep w key (head_collection_epoch h)))
  ∧ (is_Some (head_active_plan h') → head_active_plan h' = head_active_plan h
     ∨ plan_all w h' (λ key, written_at w key ∧ ¬ needed w h' key)).

Definition fenced_put (w : World) (b : bytes) (mode : PutMode) : Prop :=
  match mode with
  | PutUpdate v => ∃ b0 h h', (b0, v) ∈ head_writes scope w ∧ decode_head b0 = Ok h ∧ decode_head b = Ok h'
      ∧ fenced_update w h h'
  | _ => True
  end.

(** A write that may take effect: content under its own digest, or a justified head. *)
Definition fenced_write (w : World) (x : Path * bytes * PutMode) : Prop :=
  (∀ key, immutable_key_wf key = true → x.1.1 = key_at scope key → digest_of x.1.2 = key_digest key)
  ∧ (x.1.1 = head_at scope → fenced_put w x.1.2 x.2).

Record fenced (w : World) : Prop := {
  fence_plans h : h ∈ hist w → plan_all w h (written_at w);
  fence_spares i j h h' :
    hist w !! i = Some h → hist w !! j = Some h' → (i ≤ j)%nat → plan_all w h (λ key, ¬ needed w h' key);
  fence_closed h key : h ∈ hist w → keeps h key → closed w key;
  fence_present key : immutable_key_wf key = true → key_kind key ≠ KCollectionPlan → written_at w key →
    is_Some (w_objects w !! key_at scope key) ∨ ∃ h, h ∈ hist w ∧ scheduled w h key;
  fence_digest key b v :
    immutable_key_wf key = true → (key_at scope key, b, v) ∈ w_written w → digest_of b = key_digest key;
  fence_late : Forall (fenced_write w) (w_late w)
}.

(** *** The history only grows *)

Lemma written_at_mono w w' key : w_written w ⊆ w_written w' → written_at w key → written_at w' key.
Proof. intros Hs (b & v & Hin). exists b, v. by apply Hs. Qed.

Lemma plan_at_mono w w' h plan : w_written w ⊆ w_written w' → plan_at w h plan → plan_at w' h plan.
Proof. intros Hs (p & b & v & Hp & Hin & Hrest). exists p, b, v. split; [done|split; [by apply Hs|done]]. Qed.

Lemma scheduled_mono w w' h key : w_written w ⊆ w_written w' → scheduled w h key → scheduled w' h key.
Proof. intros Hs (plan & c & Hp & Hc). exists plan, c. split; [by eapply plan_at_mono|done]. Qed.

Lemma plan_all_mono w w' h (P P' : ImmutableKey → Prop) :
  w_written w ⊆ w_written w' → (∀ key, P key → P' key) → plan_all w h P → plan_all w' h P'.
Proof.
  intros Hs HP Hall Ha. destruct (Hall Ha) as (plan & Hp & Hc). exists plan. split; [by eapply plan_at_mono|eauto].
Qed.

Lemma plan_all_same w h h' P :
  head_active_plan h' = head_active_plan h → head_incarnation h' = head_incarnation h →
  plan_all w h P → plan_all w h' P.
Proof.
  intros Ha Hi Hall Hs. rewrite Ha in Hs. destruct (Hall Hs) as (plan & (p & b & v & Hp) & Hc).
  exists plan. split; [|done]. exists p, b, v. by rewrite Ha, Hi.
Qed.

(** Without collisions, a fence is one plan. *)
Lemma plan_at_unique w h plan plan' : collision_free w → plan_at w h plan → plan_at w h plan' → plan = plan'.
Proof.
  intros [Hfree _] (p & b & v & Hp & Hin & Hd & Hdec) (p' & b' & v' & Hp' & Hin' & Hd' & Hdec').
  assert (b = b') by (eapply Hfree; [done|done|]; congruence). congruence.
Qed.

Lemma plan_all_scheduled w h P key : collision_free w → plan_all w h P → scheduled w h key → P key.
Proof.
  intros Hfree Hall (plan & c & Hp & Hc & <-). pose proof Hp as (p & _ & _ & Ha & _).
  destruct Hall as (plan' & Hp' & HP); [by eexists|]. apply HP. by rewrite (plan_at_unique _ _ _ _ Hfree Hp' Hp).
Qed.

(** More was written, and at most one head was added. *)
Definition grows (w w' : World) : Prop :=
  w_written w ⊆ w_written w'
  ∧ (hist w' = hist w ∨ ∃ h', hist w' = hist w ++ [h']
      ∧ match last (hist w) with Some h => head_step h h' | None => head_active_plan h' = None end).

Lemma grows_elem w w' h : grows w w' → h ∈ hist w → h ∈ hist w'.
Proof. intros [_ [->|(h' & -> & _)]] Hh; [done|]. apply elem_of_app. by left. Qed.

Lemma linked_epoch_le w h h' :
  linked log_id options (hist w) → h ∈ hist w → last (hist w) = Some h' →
  head_collection_epoch h ≤ head_collection_epoch h'.
Proof. intros Hl Hh Hlast. eapply head_steps_epoch_le, linked_last; eauto. Qed.

Lemma unscheduled_grows w w' (P P' : ImmutableKey → Prop) epoch :
  linked log_id options (hist w) → grows w w' → (∀ key, P' key → P key) →
  unscheduled w P epoch → unscheduled w' P' epoch.
Proof.
  intros Hl Hg HP [(h0 & Hh0 & He0) Hall]. pose proof Hg as [Hs Hhist]. split.
  { exists h0. split; [by eapply grows_elem|done]. }
  assert (∀ h, h ∈ hist w → head_collection_epoch h ≤ epoch → plan_all w' h (λ key, ¬ P' key)) as Hold.
  { intros h Hh He. eapply plan_all_mono; [done| |by apply Hall]. auto. }
  destruct Hhist as [->|(h' & -> & Hnew)]; [done|].
  intros h [Hh| ->%list_elem_of_singleton]%elem_of_app He; [by apply Hold|].
  intros Ha. destruct (last (hist w)) as [h|] eqn:Hlast; [|by rewrite Hnew in Ha; destruct Ha].
  destruct (head_step_fence _ _ Hnew Ha) as [[Hsame Hep]|Hep].
  - refine (plan_all_same _ h h' (λ key, ¬ P' key) _ _ _ Ha); [done|by apply head_step_incarnation|]. apply Hold; [|lia].
    apply last_Some in Hlast as [l ->]. set_solver.
  - pose proof (linked_epoch_le _ _ _ Hl Hh0 Hlast). lia.
Qed.

Lemma safe_grows w w' u epoch :
  linked log_id options (hist w) → grows w w' → safe w u epoch → safe w' u epoch.
Proof. intros Hl Hg. by apply unscheduled_grows. Qed.

(** Content is stored under its own digest, and digests do not collide: what is stored
    once keeps its references. *)
Definition content_ok (w : World) : Prop :=
  collision_free w
  ∧ ∀ key b v, immutable_key_wf key = true → (key_at scope key, b, v) ∈ w_written w → digest_of b = key_digest key.

Lemma content_unique w key b v b' v' :
  content_ok w → immutable_key_wf key = true →
  (key_at scope key, b, v) ∈ w_written w → (key_at scope key, b', v') ∈ w_written w → b = b'.
Proof.
  intros [[Hfree _] Hd] Hwf Hin Hin'. eapply Hfree; [done|done|]. by rewrite (Hd _ _ _ Hwf Hin), (Hd _ _ _ Hwf Hin').
Qed.

Lemma reaches_grows w w' key key' :
  w_written w ⊆ w_written w' → content_ok w' → closed w key → rtc (child w') key key' → rtc (child w) key key'.
Proof.
  intros Hs Hc Hcl Hr. revert Hcl. induction Hr as [|key k1 key' Hk _ IH]; intros Hcl; [done|].
  destruct (Hcl key) as (Hwf & _ & b0 & v0 & Hin0); [done|]. destruct Hk as (b & v & o & _ & Hin & Ho & ->).
  assert (child w key (object_key_of (key_incarnation key) o)) as Hk.
  { exists b0, v0, o. split_and!; [done|done| |done]. by rewrite (content_unique _ _ _ _ _ _ Hc Hwf (Hs _ Hin0) Hin). }
  eapply rtc_l; [done|]. apply IH. intros k Hk'. apply Hcl. by eapply rtc_l.
Qed.

Lemma solid_mono w w' key : w_written w ⊆ w_written w' → solid w key → solid w' key.
Proof. intros Hs (Hwf & Hk & Hw). split_and!; [done|done|by eapply written_at_mono]. Qed.

Lemma closed_grows w w' key : w_written w ⊆ w_written w' → content_ok w' → closed w key → closed w' key.
Proof. intros Hs Hc Hcl k Hk. eapply solid_mono; [done|]. apply Hcl. by eapply reaches_grows. Qed.

Lemma deep_grows w w' key epoch :
  linked log_id options (hist w) → grows w w' → content_ok w' → closed w key → deep w key epoch → deep w' key epoch.
Proof. intros Hl Hg Hc Hcl. apply unscheduled_grows; [done|done|]. intros k. by apply reaches_grows; [apply Hg|..]. Qed.

Lemma needed_grows w w' h key :
  w_written w ⊆ w_written w' → content_ok w' → (∀ root, keeps h root → closed w root) → needed w' h key → needed w h key.
Proof. intros Hs Hc Hcl (root & Hk & Hr). exists root. split; [done|]. eapply reaches_grows; eauto. Qed.

Lemma fenced_update_grows w w' h h' :
  linked log_id options (hist w) → grows w w' → content_ok w' → fenced_update w h h' → fenced_update w' h h'.
Proof.
  intros Hl Hg Hc [Hk Hp]. pose proof Hg as [Hs _]. split.
  - intros key Hkey. destruct (Hk key Hkey) as [Hcl Hor]. split; [by eapply closed_grows|].
    destruct Hor; [by left|right; by eapply deep_grows].
  - intros [?|Hall]%Hp; [by left|right]. eapply plan_all_mono; [done| |done].
    intros key [? Hn]. split; [by eapply written_at_mono|]. intros Hlive. apply Hn. eapply needed_grows; [done|done| |done].
    intros root Hroot. by apply Hk.
Qed.

Lemma fenced_write_grows w w' x :
  linked log_id options (hist w) → grows w w' → content_ok w' → fenced_write w x → fenced_write w' x.
Proof.
  intros Hl Hg Hc [Hd Hput]. split; [done|]. intros Hx%Hput. destruct x as [[loc b] mode], mode as [| |v]; [done..|].
  destruct Hx as (b0 & h & h' & Hin & Hdec & Hdec' & Hu). exists b0, h, h'. split_and!; [|done|done|by eapply fenced_update_grows].
  rewrite elem_of_head_writes in *. by apply Hg.
Qed.

(** *** Writes *)

Lemma head_history_head b v w h :
  decode_head b = Ok h → hist (write_object (head_at scope) b v w) = hist w ++ [h].
Proof.
  intros Hd. unfold head_history. rewrite head_writes_head, omap_app. simpl. unfold decoded_head at 2. simpl.
  by rewrite Hd.
Qed.

Lemma head_history_other loc b v w : loc ≠ head_at scope → hist (write_object loc b v w) = hist w.
Proof. intros Hne. unfold head_history. by rewrite head_writes_other. Qed.

(** The head a conditional write replaces is the last of the history. *)
Lemma replaced_head w b0 b1 v0 h :
  world_ok scope log_id options w → w_objects w !! head_at scope = Some (b1, v0) →
  (b0, v0) ∈ head_writes scope w → decode_head b0 = Ok h → last (hist w) = Some h.
Proof.
  intros Hok Hcur Hin Hd. rewrite (ok_current _ _ _ _ Hok) in Hcur. apply last_Some in Hcur as [l Hl].
  assert (b0 = b1) as -> by (eapply (ok_versions _ _ _ _ Hok); [done|]; rewrite Hl; set_solver).
  unfold head_history. rewrite Hl, omap_app. simpl. unfold decoded_head at 2. simpl. by rewrite Hd, last_snoc.
Qed.

Lemma write_grows loc b v mode w :
  world_ok scope log_id options w → (loc = head_at scope → head_put scope log_id options w b mode) →
  admits w loc mode → grows w (write_object loc b v w).
Proof.
  intros Hok Hput Hadm. split; [apply (extends_write scope)|].
  destruct (decide (loc = head_at scope)) as [->|Hne]; [right|left; by apply head_history_other].
  specialize (Hput eq_refl). destruct mode as [| |v0]; [done| |].
  - destruct Hput as (incarnation & Hd & _ & _). eexists. split; [by apply head_history_head|].
    simpl in Hadm. rewrite (ok_current _ _ _ _ Hok), last_None in Hadm. unfold head_history. by rewrite Hadm.
  - destruct Hadm as [b1 Hb1], Hput as (b0 & h & h' & Hin & Hd & Hd' & _ & Hstep & _).
    exists h'. split; [by apply head_history_head|]. by rewrite (replaced_head _ _ _ _ _ Hok Hb1 Hin Hd).
Qed.

(** The plans of the past spare what the new head keeps. *)
Lemma update_spares w i h0 h h' :
  linked log_id options (hist w) → collision_free w → fenced w → fenced_update w h h' →
  hist w !! i = Some h0 → last (hist w) = Some h → plan_all w h0 (λ key, ¬ needed w h' key).
Proof.
  intros Hl Hfree Hf [Hk _] Hi Hlast Ha. rewrite last_lookup in Hlast.
  destruct (fence_spares _ Hf i _ _ _ Hi Hlast) as (plan & Hp & Hc); [apply lookup_lt_Some in Hi; lia|done|].
  exists plan. split; [done|]. intros c Hin (root & Hkeep & Hr).
  apply Hk in Hkeep as [_ [Hkeep|[_ Hdeep]]]; [by eapply Hc; [|exists root]|].
  apply list_elem_of_lookup_2 in Hi as Hh0. rewrite <-last_lookup in Hlast.
  eapply (plan_all_scheduled _ h0 _ (candidate_key c)) in Hdeep; [by apply Hdeep|done|done|by eapply linked_epoch_le|].
  by exists plan, c.
Qed.

(** What holds of the head's fence and of the objects the write concerns. *)
Lemma update_fence w h h' :
  linked log_id options (hist w) → collision_free w → fenced w → fenced_update w h h' →
  head_step h h' → last (hist w) = Some h →
  plan_all w h' (λ key, written_at w key ∧ ¬ needed w h' key).
Proof.
  intros Hl Hfree Hf Hu Hstep Hlast Ha. destruct Hu as [Hk Hp] eqn:E. clear E.
  destruct (Hp Ha) as [Hsame|Hall]; [|by apply Hall].
  refine (plan_all_same _ h h' (λ key, written_at w key ∧ ¬ needed w h' key) _ _ _ Ha);
    [done|by apply head_step_incarnation|]. clear Ha. intros Ha.
  pose proof Hlast as Hi. rewrite last_lookup in Hi.
  destruct (update_spares w _ h h h' Hl Hfree Hf Hu Hi Hlast Ha) as (plan & Hpl & Hc). exists plan. split; [done|].
  intros c Hin. split; [|by apply Hc]. eapply plan_all_scheduled; [done|eapply (fence_plans _ Hf); by eapply list_elem_of_lookup_2|].
  by exists plan, c.
Qed.

(** The part of the invariant about heads. *)
Definition fenced_heads (w : World) : Prop :=
  (∀ h, h ∈ hist w → plan_all w h (written_at w))
  ∧ (∀ i j h h', hist w !! i = Some h → hist w !! j = Some h' → (i ≤ j)%nat → plan_all w h (λ key, ¬ needed w h' key))
  ∧ ∀ h key, h ∈ hist w → keeps h key → closed w key.

Lemma fenced_head w b v h h' :
  linked log_id options (hist w) → collision_free w → fenced w → fenced_update w h h' → head_step h h' →
  last (hist w) = Some h → decode_head b = Ok h' → content_ok (write_object (head_at scope) b v w) →
  fenced_heads (write_object (head_at scope) b v w).
Proof.
  intros Hl Hfree Hf Hu Hstep Hlast Hd Hcok. set (w' := write_object _ b v w) in *.
  assert (hist w' = hist w ++ [h']) as Hw' by (by apply head_history_head).
  assert (w_written w ⊆ w_written w') as Hs by (apply (extends_write scope)).
  assert (∀ a root, a ∈ hist w ++ [h'] → keeps a root → closed w root) as Hclosed.
  { intros a root [Ha| ->%list_elem_of_singleton]%elem_of_app Hk; [by eapply (fence_closed _ Hf)|by apply (proj1 Hu)]. }
  assert (∀ a key, a ∈ hist w ++ [h'] → needed w' a key → needed w a key) as Hlive.
  { intros a key Ha. apply needed_grows; [done|done|]. intros root. by apply Hclosed. }
  pose proof (update_fence _ _ _ Hl Hfree Hf Hu Hstep Hlast) as Hnew. unfold fenced_heads. rewrite Hw'. split_and!.
  - intros h0 [Hh0| ->%list_elem_of_singleton]%elem_of_app.
    + eapply plan_all_mono; [done| |by apply (fence_plans _ Hf)]. intros key. by apply written_at_mono.
    + eapply plan_all_mono; [done| |done]. intros key [? _]. by eapply written_at_mono.
  - intros i j a a' Hi Hj Hle. apply list_elem_of_lookup_2 in Hj as Ha'.
    assert (plan_all w a (λ key, ¬ needed w a' key)) as Hall; [|eapply plan_all_mono; [done| |done]; eauto].
    apply lookup_app_Some in Hj as [Hj|[Hlen Hj]].
    { rewrite lookup_app_l in Hi by (apply lookup_lt_Some in Hj; lia). by eapply (fence_spares _ Hf). }
    apply list_lookup_singleton_Some in Hj as [_ <-].
    apply lookup_app_Some in Hi as [Hi|[_ [_ <-]%list_lookup_singleton_Some]]; [by eapply update_spares|].
    eapply plan_all_mono; [done| |done]. by intros key [_ ?].
  - intros a key Ha Hk. eapply closed_grows; [done|done|by eapply Hclosed].
Qed.

Lemma fenced_heads_write loc b v mode w :
  world_ok scope log_id options w → collision_free w → fenced w →
  (loc = head_at scope → head_put scope log_id options w b mode) → fenced_write w (loc, b, mode) →
  admits w loc mode → content_ok (write_object loc b v w) → fenced_heads (write_object loc b v w).
Proof.
  intros Hok Hfree Hf Hput [_ Hfput] Hadm Hcok. destruct (history_ok scope log_id options _ Hok) as (_ & Hl & _).
  pose proof (proj1 (extends_write scope loc b v w)) as Hs.
  destruct (decide (loc = head_at scope)) as [->|Hne].
  - specialize (Hput eq_refl). specialize (Hfput eq_refl). destruct mode as [| |v0]; [done| |].
    + destruct Hput as (incarnation & Hd & _ & _). simpl in Hadm.
      rewrite (ok_current _ _ _ _ Hok), last_None in Hadm.
      assert (hist (write_object (head_at scope) b v w) = [head_empty log_id incarnation options]) as Hw'.
      { erewrite head_history_head by done. unfold head_history. by rewrite Hadm. }
      unfold fenced_heads. rewrite Hw'. split_and!.
      * intros h ->%list_elem_of_singleton. by intros [].
      * intros i j h h' [_ <-]%list_lookup_singleton_Some _ _. by intros [].
      * intros h key ->%list_elem_of_singleton [c Hc|cp Hcp]; [by apply elem_of_nil in Hc|done].
    + destruct Hadm as [b1 Hb1], Hput as (b0 & h & h' & Hin & Hd & Hd' & _ & Hstep & _).
      destruct Hfput as (b2 & k & k' & Hin2 & Hk & Hk' & Hu). simpl in Hk'.
      assert (b2 = b0) as -> by (by eapply (ok_versions _ _ _ _ Hok)).
      assert (k = h) as -> by congruence. assert (k' = h') as -> by congruence.
      eapply fenced_head; try done. by eapply replaced_head.
  - unfold fenced_heads. rewrite head_history_other by done. split_and!.
    + intros h Hh. eapply plan_all_mono; [done| |by apply (fence_plans _ Hf)]. intros key. by apply written_at_mono.
    + intros i j h h' Hi Hj Hle. eapply plan_all_mono; [done| |by eapply (fence_spares _ Hf)]. intros key Hn Hlive.
      apply Hn. eapply needed_grows; [done|done| |done]. intros root. eapply (fence_closed _ Hf). by eapply list_elem_of_lookup_2.
    + intros h key Hh Hk. eapply closed_grows; [done|done|by eapply (fence_closed _ Hf)].
Qed.

Lemma fenced_content loc b v mode w :
  fenced w → fenced_write w (loc, b, mode) → collision_free (write_object loc b v w) → content_ok (write_object loc b v w).
Proof.
  intros Hf Hw Hfree. split; [done|]. intros key b' v' Hwf [Hin|Hin]%elem_of_app; [by eapply (fence_digest _ Hf)|].
  apply list_elem_of_singleton in Hin as [= <- -> _]. by apply (proj1 Hw).
Qed.

(** A justified write keeps the invariant. *)
Lemma fenced_write_ok loc b v mode w :
  world_ok scope log_id options w → collision_free w → fenced w →
  (loc = head_at scope → head_put scope log_id options w b mode) → fenced_write w (loc, b, mode) →
  admits w loc mode → collision_free (write_object loc b v w) → fenced (write_object loc b v w).
Proof.
  intros Hok Hfree Hf Hput Hw Hadm Hfree'. pose proof (write_grows loc b v mode w Hok Hput Hadm) as Hg.
  pose proof (fenced_content loc b v mode w Hf Hw Hfree') as Hcok.
  destruct (fenced_heads_write loc b v mode w Hok Hfree Hf Hput Hw Hadm Hcok) as (Hplans & Hspares & Hclosed).
  destruct (history_ok scope log_id options _ Hok) as (_ & Hl & _). pose proof Hg as [Hs _]. split; [done|done|done|..].
  - intros key Hwf Hkind (b' & v' & Hin). simpl in Hin |- *.
    destruct (decide (key_at scope key = loc)) as [<-|Hne]; [rewrite lookup_insert_eq; left; by eexists|].
    rewrite lookup_insert_ne by done. apply elem_of_app in Hin as [Hin|Hin].
    + destruct (fence_present _ Hf key Hwf Hkind) as [?|(h & Hh & Hsch)]; [by exists b', v'|by left|right].
      exists h. split; [by eapply grows_elem|by eapply scheduled_mono].
    + apply list_elem_of_singleton in Hin as [= ? _ _]. done.
  - apply Hcok.
  - eapply Forall_impl; [apply (fence_late _ Hf)|]. intros x. by apply fenced_write_grows.
Qed.

(** *** Deletions and writes left pending *)

(** Only plans and scheduled objects are deleted. *)
Definition fenced_gone (w : World) (gone : list Path) : Prop :=
  ∀ key, immutable_key_wf key = true → key_kind key ≠ KCollectionPlan → key_at scope key ∈ gone →
    ∃ h, h ∈ hist w ∧ scheduled w h key.

Lemma fenced_remove gone w : fenced w → fenced_gone w gone → fenced (remove_objects gone w).
Proof.
  intros [Hplans Hspares Hclosed Hpresent Hdigest Hlate] Hgone. split; try done.
  intros key Hwf Hkind Hin. destruct (decide (key_at scope key ∈ gone)) as [Hg|Hg]; [right; by apply Hgone|].
  simpl. rewrite lookup_foldr_delete_ne by done. by apply Hpresent.
Qed.

Lemma fenced_leave_late loc b mode w :
  fenced w → fenced_write w (loc, b, mode) → fenced (leave_late loc b mode w).
Proof.
  intros [Hplans Hspares Hclosed Hpresent Hdigest Hlate] Hw. split; try done.
  apply Forall_app. split; [done|]. constructor; [exact Hw|constructor].
Qed.

(** ** What a new head may name *)

Lemma fenced_content_ok w : fenced w → collision_free w → content_ok w.
Proof. intros Hf Hfree. split; [done|]. intros key b v. by apply (fence_digest _ Hf). Qed.

(** A new object whose references are out of every plan's reach is, too. *)
Lemma fresh_deep w key b epoch :
  fenced w → collision_free w → immutable_key_wf key = true → key_kind key ≠ KCollectionPlan → content_at scope w key b →
  safe w (uuid_of key) epoch →
  (∀ o, o ∈ content_refs options (key_kind key) b →
     closed w (object_key_of (key_incarnation key) o) ∧ deep w (object_key_of (key_incarnation key) o) epoch) →
  closed w key ∧ deep w key epoch.
Proof.
  intros Hf Hfree Hwf Hkind [v Hin] [Hhead Hsafe] Hrefs.
  assert (∀ k, rtc (child w) key k → k = key ∨ ∃ o, o ∈ content_refs options (key_kind key) b
    ∧ rtc (child w) (object_key_of (key_incarnation key) o) k) as Hinv.
  { intros k [->|(k1 & (b' & v' & o & _ & Hin' & Ho & ->) & Hr)]%rtc_inv; [by left|right]. exists o.
    by rewrite (content_unique _ _ _ _ _ _ (fenced_content_ok _ Hf Hfree) Hwf Hin Hin'). }
  split.
  - intros k [->|(o & Ho & Hr)]%Hinv; [split_and!; [done|done|by exists b, v]|]. by apply (Hrefs o Ho).
  - split; [done|]. intros h Hh He Ha. destruct (Hsafe h Hh He Ha) as (plan & Hp & Hc). exists plan. split; [done|].
    intros c Hcand [Heq|(o & Ho & Hr)]%Hinv; [by apply (Hc c Hcand); rewrite Heq|].
    destruct (Hrefs o Ho) as [_ [_ Hdeep]].
    eapply (plan_all_scheduled _ h _ (candidate_key c)) in Hdeep; [by apply Hdeep|done|done|done|]. by exists plan, c.
Qed.

(** What can be reached from a stored head is out of the reach of every plan of its epoch. *)
Lemma needed_deep w h key :
  linked log_id options (hist w) → fenced w → h ∈ hist w → needed w h key →
  closed w key ∧ deep w key (head_collection_epoch h).
Proof.
  intros Hl Hf Hh (root & Hk & Hr). split.
  { intros k Hk'. apply (fence_closed _ Hf h root Hh Hk). by etrans. }
  split; [by exists h|]. intros h0 Hh0 He.
  apply list_elem_of_lookup in Hh as [i Hi], Hh0 as [j Hj].
  assert (∀ k, ¬ needed w h k → ¬ rtc (child w) key k) as Hweak.
  { intros k Hn Hk'. apply Hn. exists root. split; [done|by etrans]. }
  destruct (decide (j ≤ i)%nat) as [Hle|Hgt].
  { eapply plan_all_mono; [done|exact Hweak|by eapply (fence_spares _ Hf)]. }
  intros Ha. assert (rtc head_step h h0) as Hsteps by (eapply linked_steps; [done..|lia]). pose proof Ha as [p Hp].
  refine (plan_all_same _ h h0 (λ k, ¬ rtc (child w) key k) _ _ _ Ha).
  - by rewrite Hp, (head_steps_same_plan _ _ _ Hsteps He Hp).
  - by apply head_steps_incarnation.
  - eapply plan_all_mono; [done|exact Hweak|by eapply (fence_spares _ Hf)].
Qed.

(** ** What can be reached from a head is in the store *)

(** What can be reached from a head is there unless a later head's fence scheduled it. *)
Lemma fenced_needed w i h key :
  world_ok scope log_id options w → collision_free w → fenced w → hist w !! i = Some h → needed w h key →
  (∃ b v, w_objects w !! key_at scope key = Some (b, v) ∧ digest_of b = key_digest key)
  ∨ ∃ j h', (i < j)%nat ∧ hist w !! j = Some h' ∧ scheduled w h' key.
Proof.
  intros Hok Hfree Hf Hi Hlive. pose proof (list_elem_of_lookup_2 _ _ _ Hi) as Hh. pose proof Hlive as (root & Hk & Hr).
  destruct (fence_closed _ Hf h root Hh Hk key Hr) as (Hwf & Hkind & Hw).
  destruct (fence_present _ Hf key Hwf Hkind Hw) as [[[b v] Hb]|(h0 & [j Hj]%list_elem_of_lookup & Hsch)].
  - left. exists b, v. split; [done|]. eapply (fence_digest _ Hf); [done|]. by apply (ok_objects _ _ _ _ Hok).
  - right. exists j, h0. split_and!; [|done|done]. destruct (decide (i < j)%nat) as [?|Hle]; [done|].
    assert (plan_all w h0 (λ k, ¬ needed w h k)) as Hall by (eapply (fence_spares _ Hf); [done..|lia]).
    by destruct (plan_all_scheduled _ _ _ _ Hfree Hall Hsch).
Qed.

(** What can be reached from the last head is there. *)
Lemma fenced_needed_last w h key :
  world_ok scope log_id options w → collision_free w → fenced w → last (hist w) = Some h → needed w h key →
  ∃ b v, w_objects w !! key_at scope key = Some (b, v) ∧ digest_of b = key_digest key.
Proof.
  intros Hok Hfree Hf Hlast Hk. rewrite last_lookup in Hlast.
  destruct (fenced_needed _ _ _ _ Hok Hfree Hf Hlast Hk) as [?|(j & h' & Hj & Hl & _)]; [done|].
  apply lookup_lt_Some in Hl. lia.
Qed.

(** While a retention taken in the epoch of a head is held, what can be reached from the
    head is there. *)
Lemma fenced_retained w i k h h' key :
  world_ok scope log_id options w → collision_free w → fenced w →
  hist w !! i = Some h → hist w !! k = Some h' → (i ≤ k)%nat →
  head_collection_epoch h' = head_collection_epoch h →
  (∀ j x, (k ≤ j)%nat → hist w !! j = Some x → head_retention_ids x ≠ ∅) → needed w h key →
  ∃ b v, w_objects w !! key_at scope key = Some (b, v) ∧ digest_of b = key_digest key.
Proof.
  intros Hok Hfree Hf Hi Hk Hle Hepoch Hheld Hkeep.
  destruct (fenced_needed _ _ _ _ Hok Hfree Hf Hi Hkeep) as [?|(j & x & Hj & Hx & Hsch)]; [done|exfalso].
  destruct (history_ok scope log_id options _ Hok) as (_ & Hl & _).
  pose proof Hsch as (plan & c & (p & b & v & Hp & Hrest) & Hc).
  assert (j < k)%nat as Hjk.
  { destruct (decide (j < k)%nat) as [?|Hge]; [done|]. destruct (Hheld j x); [lia|done|].
    eapply ok_exclusive; [|by eexists]. apply ok_collection, (reachable_refines x).
    eapply linked_reachable; [done|by eapply list_elem_of_lookup_2]. }
  assert (rtc head_step h x) as Hhx by (eapply linked_steps; [done..|lia]).
  assert (rtc head_step x h') as Hxh by (eapply linked_steps; [done..|lia]).
  pose proof (head_steps_epoch_le _ _ Hxh).
  assert (head_active_plan h = Some p) as Hph by (eapply head_steps_same_plan; [done|lia|done]).
  assert (scheduled w h key) as Hsch'.
  { exists plan, c. split; [|done]. exists p, b, v. by rewrite <-(head_steps_incarnation _ _ Hhx). }
  assert (plan_all w h (λ k, ¬ needed w h k)) as Hall by (by eapply (fence_spares _ Hf)).
  by destruct (plan_all_scheduled _ _ _ _ Hfree Hall Hsch').
Qed.
End fence.
