(* ===== verification/Reclaim.v ===== *)
(** * Collection under concurrency

    The system of [World] with an environment that draws fresh identities and lists only
    what was stored, and with callers that publish an identity in the collection epoch in
    which they drew it, and objects in the epoch in which they created or read them.
    Whatever the clients do, the durable head's tail commits, its checkpoint and every
    object that can be reached from them are in the store: no collection removes them. *)

From S2P Require Import Prelude Types Head LogSpec Cbor Wire Format FormatPlan FormatHead Typed Prog Wp Store StoreProps.
From S2P Require Import Log LogOps LogMaintain Protocol ProtocolSpecs CommitProtocol MaintainProtocol World Linear Agreement Fence.

Lemma snoc_eq_middle {A} (l l1 l2 : list A) x y :
  l ++ [y] = l1 ++ x :: l2 → (l = l1 ∧ y = x ∧ l2 = []) ∨ ∃ k, l2 = k ++ [y] ∧ l = l1 ++ x :: k.
Proof.
  destruct l2 as [|z k _] using rev_ind; intros Heq.
  - left. by apply app_inj_tail in Heq as [-> ->].
  - right. exists k. rewrite app_comm_cons, app_assoc in Heq. by apply app_inj_tail in Heq as [-> ->].
Qed.

Section reclaim.
Context `{Target} `{Blake3} `{CborLaws} `{!DerivedDecode} `{!DerivedDecodeLaws} `{ObjectPathLaws} `{TextLaws}.
Context (scope : Path) (log_id : LogId) (options : Options).
Context (Hid : log_id_wf log_id = true) (Hoptions : options_wf options = true).

Local Abbreviation hist := (head_history scope).
Local Abbreviation epoch_of v := (head_collection_epoch (view_head v)).
Local Abbreviation uuid_of key := (storage_uuid (key_storage_id key)).

(** ** Environment and callers *)

(** An object of the log was stored under the identity. *)
Definition used (w : World) (u : Uuid) : Prop :=
  ∃ key, immutable_key_wf key = true ∧ uuid_of key = u ∧ written_at scope w key.

(** A listing holds stored objects, with 64-bit sizes. *)
Definition lists_stored (w : World) (items : list (Result (Path * Z) StoreError)) : Prop :=
  ∀ loc size, Ok (loc, size) ∈ items → in_u64 size = true ∧ ∃ b v, (loc, b, v) ∈ w_written w.

(** [Uuid::new_v4] does not repeat an identity in use. *)
Definition honest (w : World) {R} (e : Event R) : R → Prop :=
  match e in Event R return R → Prop with
  | ENewUuid => λ u, ¬ used w u
  | EList _ => lists_stored w
  | _ => λ _, True
  end.

(** The identity was drawn after a client had observed the view. *)
Definition drawn_after (past : list Ev) (id : StorageId) (v : View) : Prop :=
  ∃ past1 past2, past = past1 ++ MkEv ENewUuid (storage_uuid id) :: past2 ∧ seen scope log_id options past1 v.

(** The token was made for the head. *)
Definition token_of (t : RecoveryToken) (h : Head) : Prop :=
  (∃ b, encode_head h = Ok b ∧ digest_of b = tok_head_digest t)
  ∧ publication_base_digest h = Ok (tok_publication_base_digest t).

(** The head is of the collection epoch of the view, as far as the caller can tell. *)
Definition same_epoch (v : View) (h : Head) : Prop :=
  head_collection_epoch h = epoch_of v ∨ ∃ t, token_of t (view_head v) ∧ token_matches t h.

Definition epoch_ids (past : list Ev) (id : StorageId) (h : Head) : Prop :=
  ∃ v, drawn_after past id v ∧ same_epoch v h.

(** A reference that was read. *)
Definition read_child (log : Log) (past : list Ev) (key key' : ImmutableKey) : Prop :=
  ∃ stored o, got past (key_path log key) stored ∧ digest_of (stored_bytes stored) = key_digest key
    ∧ o ∈ refs_of log key (stored_bytes stored) ∧ key' = object_immutable_key log o.

(** The objects a client may publish in an epoch: those it created after it had observed
    a head of the epoch, with references to such objects ([put_object], [put_node]), and
    those it read from a head of the epoch (histories, [read_staged_node]). *)
Inductive staged (log : Log) (past : list Ev) (epoch : Z) : ObjectRef → Prop :=
  | staged_new o b v :
      drawn_after past (obj_storage_id o) v → epoch_of v = epoch → object_ref_wf o = true →
      digest_of b = obj_digest o → has_content log nobody past (object_immutable_key log o) b →
      (∀ o', o' ∈ refs_of log (object_immutable_key log o) b → staged log past epoch o') →
      staged log past epoch o
  | staged_read o v root :
      seen scope log_id options past v → epoch_of v = epoch → validate_view log v = Ok () → keeps (view_head v) root →
      rtc (read_child log past) root (object_immutable_key log o) →
      staged log past epoch o.

(** Every object the record names is staged. *)
Definition refs_staged (log : Log) (past : list Ev) (epoch : Z) (kind : ImmutableKind) (b : bytes) : Prop :=
  ∀ o, o ∈ content_refs (log_options log) kind b → staged log past epoch o.

Definition prepared_ready (log : Log) (past : list Ev) (prepared : PreparedCommit) : Prop :=
  drawn_after past (prep_storage_id prepared) (prep_view prepared)
  ∧ ∀ c b, encode_prepared log prepared = Ok (c, b) → refs_staged log past (epoch_of (prep_view prepared)) KCommit b.

(** Identities and objects are published in the epoch they were drawn and staged in: a
    prepared commit's by [prepare], a token's by the [prepare] of the view the token
    describes, a checkpoint's by [publish_checkpoint]. *)
Definition staging_ready (log : Log) (past : list Ev) (o : Operation) : Prop :=
  match o with
  | OpCommit prepared => prepared_ready log past prepared
  | OpResolve pending => ∀ prepared, pending_prepared pending = Some prepared → prepared_ready log past prepared
  | OpResume token => ∀ t, decode_recovery_token token = Ok t →
      ∃ v, drawn_after past (tok_storage_id t) v ∧ token_of t (view_head v)
        ∧ refs_staged log past (epoch_of v) KCommit (encode_commit (recovered_body t))
  | OpPublishCheckpoint view through snapshot objects =>
      refs_staged log past (epoch_of view) KCheckpoint (encode_checkpoint (checkpoint_body log through snapshot objects))
  | OpResolveCheckpoint pending =>
      staged log past (epoch_of (pc_view pending)) (checkpoint_object (pc_checkpoint pending))
  | _ => True
  end.

Definition epoch_objects (log : Log) (past : list Ev) (o : ObjectRef) (h : Head) : Prop :=
  ∃ v, seen scope log_id options past v ∧ staged log past (epoch_of v) o ∧ same_epoch v h.

Lemma drawn_seen past id v : drawn_after past id v → seen scope log_id options past v.
Proof.
  intros (past1 & past2 & -> & log & Hlog & Hw). exists log. split; [done|]. eapply witnessed_mono; [|done]. set_solver.
Qed.

Lemma staged_seen log past epoch o :
  staged log past epoch o → ∃ v, seen scope log_id options past v ∧ epoch_of v = epoch.
Proof. destruct 1 as [o b v Hd He|o v root Hs He]; exists v; [split; [by eapply drawn_seen|done]|done]. Qed.

(** What was staged stays staged. *)
Lemma drawn_after_app past past' id v : drawn_after past id v → drawn_after (past ++ past') id v.
Proof. intros (past1 & past2 & -> & Hs). exists past1, (past2 ++ past'). by rewrite <-app_assoc. Qed.

Lemma read_child_app log past past' key key' : read_child log past key key' → read_child log (past ++ past') key key'.
Proof.
  intros (stored & o & (inm & result & max & Hin & Hc) & Hrest). exists stored, o. split; [|done].
  exists inm, result, max. split; [apply elem_of_app; by left|done].
Qed.

Lemma staged_app log past past' epoch o : staged log past epoch o → staged log (past ++ past') epoch o.
Proof.
  assert (past ⊆ past ++ past') as Hsub by (intros ev Hev; apply elem_of_app; by left).
  induction 1 as [o b v Hd He Hwf Hdig Hs _ IH|o v root Hv He Hval Hk Hr].
  - eapply staged_new; [by apply drawn_after_app|done..|by eapply has_content_mono|done].
  - eapply staged_read; [|done..|]; [destruct Hv as (l & Hl & Hw); exists l; split; [done|by eapply witnessed_mono]|].
    eapply rtc_subrel; [|done]. intros key key'. apply read_child_app.
Qed.

Lemma staged_known log past o v h :
  staged log past (epoch_of v) o → head_collection_epoch h = epoch_of v → epoch_objects log past o h.
Proof.
  intros Hs He. destruct (staged_seen _ _ _ _ Hs) as (v' & Hv' & Heq). exists v'. rewrite Heq.
  split_and!; [done|done|left; congruence].
Qed.

Lemma prepared_ready_known log past prepared :
  prepared_ready log past prepared →
  prepared_known log (caller_of scope log_id options (epoch_ids past) (epoch_objects log past) log past) prepared.
Proof.
  intros [Hd Ho]. split; [intros h He; exists (prep_view prepared); split; [done|by left]|].
  intros c b Hb o Hin h He. by eapply staged_known; [eapply Ho|].
Qed.

Lemma staging_ready_op log past o :
  staging_ready log past o →
  op_known (caller_of scope log_id options (epoch_ids past) (epoch_objects log past) log past) log o.
Proof.
  destruct o; simpl; try done.
  - apply prepared_ready_known.
  - intros Hd prepared Hp. by apply prepared_ready_known, Hd.
  - intros Hd t h Ht Hm. destruct (Hd t Ht) as (v & Hv & Hof & Hs). split; [exists v; split; [done|right; by exists t]|].
    intros o Ho. exists v. split_and!; [by eapply drawn_seen|by apply Hs|right; by exists t].
  - intros Hd o Ho h He. by eapply staged_known; [apply Hd|].
  - intros Hd h He. by eapply staged_known.
Qed.

(** The steps of [sys_step] in such an environment. *)
Inductive gc_step : System → System → Prop :=
  | gc_start w past tasks log o :
      handle scope log_id options log → uuid_wf (log_incarnation log) = true →
      op_ready scope log_id options log past o → staging_ready log past o →
      gc_step (MkSystem w past tasks) (MkSystem w past (tasks ++ [MkTask log o [] (op_prog log o)]))
  | gc_request w w' past tasks tasks' log o tr R (e : Event R) k r :
      serves w e r w' → answers log R e r → honest w e r →
      gc_step (MkSystem w past (tasks ++ MkTask log o tr (Vis e k) :: tasks'))
        (MkSystem w' (past ++ [MkEv e r]) (tasks ++ MkTask log o (tr ++ [MkEv e r]) (k r) :: tasks'))
  | gc_lost w past tasks t tasks' :
      gc_step (MkSystem w past (tasks ++ t :: tasks')) (MkSystem w past (tasks ++ tasks'))
  | gc_late w past tasks loc b mode v :
      (loc, b, mode) ∈ w_late w → admits w loc mode → identifies w loc b v →
      gc_step (MkSystem w past tasks) (MkSystem (write_object loc b v w) past tasks).

Lemma gc_step_sys s s' : gc_step s s' → sys_step scope log_id options s s'.
Proof. destruct 1; by econstructor. Qed.

Lemma gc_steps_sys s s' : rtc gc_step s s' → rtc (sys_step scope log_id options) s s'.
Proof. induction 1; [done|]. eapply rtc_l; [by apply gc_step_sys|done]. Qed.

(** ** The invariant *)

(** What a client's evidence is worth. *)
Record evidence_ok (log : Log) (w : World) (tr : list Ev) (caller : Caller) : Prop := {
  evidence_views v : known_view caller v → in_history scope w v;
  evidence_keys key b : known_content caller key b → content_at scope w key b;
  evidence_objects o h : known_object caller o h →
    ∃ v, in_history scope w v ∧ same_epoch v h ∧ closed scope options w (object_immutable_key log o)
      ∧ deep scope options w (object_immutable_key log o) (epoch_of v);
  evidence_ids id h : known_id caller id h →
    ∃ v, in_history scope w v ∧ safe scope options w (storage_uuid id) (epoch_of v) ∧ same_epoch v h;
  evidence_drawn u v : MkEv ENewUuid u ∈ tr → known_view caller v → safe scope options w u (epoch_of v)
}.

Definition listed_ok (w : World) (ev : Ev) : Prop :=
  match ev with
  | MkEv e r => match e in Event R return R → Prop with EList _ => lists_stored w | _ => λ _, True end r
  end.

Definition gc_task (w : World) (past : list Ev) (t : Task) : Prop :=
  handle scope log_id options (task_log t) ∧ uuid_wf (log_incarnation (task_log t)) = true ∧ task_trace t ⊆ past
  ∧ ∃ caller, evidence_ok (task_log t) w (task_trace t) caller
    ∧ wp (allowed (task_log t) caller) (answers (task_log t)) (task_trace t) (task_prog t)
        (op_post (task_log t) caller (task_op t)).

Record gc_ok (s : System) : Prop := {
  gc_fenced : fenced scope options (sys_world s);
  gc_listed : Forall (listed_ok (sys_world s)) (sys_past s);
  gc_drawn past1 past2 u v : sys_past s = past1 ++ MkEv ENewUuid u :: past2 →
    seen scope log_id options past1 v → safe scope options (sys_world s) u (epoch_of v);
  gc_tasks : Forall (gc_task (sys_world s) (sys_past s)) (sys_tasks s)
}.

(** ** What the protocol lets a client write and delete *)

Lemma history_bytes w h :
  world_ok scope log_id options w → h ∈ hist w → ∃ b v, (head_at scope, b, v) ∈ w_written w ∧ decode_head b = Ok h.
Proof.
  intros Hok [i Hi]%list_elem_of_lookup. destruct (history_ok scope log_id options _ Hok) as (Hhs & _).
  destruct (Forall2_lookup_r _ _ _ _ _ Hhs Hi) as ([b v] & Hx & Hd & _). exists b, v. split; [|done].
  apply elem_of_head_writes. by eapply list_elem_of_lookup_2.
Qed.

(** Heads of the history that a caller takes to be of one epoch are of one epoch. *)
Lemma same_epoch_eq w v h :
  world_ok scope log_id options w → collision_free scope w → in_history scope w v → h ∈ hist w →
  same_epoch v h → head_collection_epoch h = epoch_of v.
Proof.
  intros Hok [Hbytes Hbases] Hv%(in_history_elem scope log_id options) Hh [?|(t & [(b & Hb & Hd) Hbase] & Hm)]; [done| |done].
  destruct Hm as [(b' & Hb' & Hd')|Hm].
  - destruct (history_bytes w (view_head v) Hok Hv) as (x & ? & Hx & Hdx).
    destruct (history_bytes w h Hok Hh) as (y & ? & Hy & Hdy).
    apply head_canonical in Hdx as Hex, Hdy as Hey. destruct Hex as [Hex _], Hey as [Hey _].
    assert (x = y) as -> by (eapply Hbytes; [done|done|]; congruence). congruence.
  - symmetry. eapply same_base_epoch, Hbases; done.
Qed.

Section evidence.
Context (log : Log) (Hlog : handle scope log_id options log) (Hinc : uuid_wf (log_incarnation log) = true).
Context (w : World) (tr : list Ev) (caller : Caller).
Context (Hok : world_ok scope log_id options w) (Hfree : collision_free scope w).
Context (Hrec : Forall (recorded w) tr) (Hlisted : Forall (listed_ok w) tr) (Hev : evidence_ok log w tr caller).
Context (Hf : fenced scope options w).

Lemma witnessed_in v : witnessed log caller tr v → in_history scope w v.
Proof.
  apply (witnessed_history scope log_id options log Hlog _ _ _ Hok Hrec). apply (evidence_views _ _ _ _ Hev).
Qed.

Lemma drawn_safe id epoch : drawn log caller tr id epoch → safe scope options w (storage_uuid id) epoch.
Proof.
  intros (v & Hw%witnessed_in & <- & [Hk|[Hin Hk]]); [|by apply (evidence_drawn _ _ _ _ Hev)].
  destruct (evidence_ids _ _ _ _ Hev _ _ Hk) as (v0 & Hv0 & Hsafe & Hsame).
  erewrite same_epoch_eq; [done|done|done|done|by eapply in_history_elem|done].
Qed.

Lemma usable_deep o epoch :
  usable log caller tr o epoch →
  closed scope options w (object_immutable_key log o) ∧ deep scope options w (object_immutable_key log o) epoch.
Proof.
  intros (v & Hw%witnessed_in & <- & Hk). destruct (evidence_objects _ _ _ _ Hev _ _ Hk) as (v0 & Hv0 & Hsame & Hcl & Hd).
  split; [done|]. erewrite same_epoch_eq; [done|done|done|done|by eapply in_history_elem|done].
Qed.

Lemma grounded_deep key b epoch :
  immutable_key_wf key = true → key_kind key ≠ KCollectionPlan → key_incarnation key = log_incarnation log →
  has_content log caller tr key b → grounded log caller tr key b epoch →
  closed scope options w key ∧ deep scope options w key epoch.
Proof.
  intros Hwf Hkind Hi Hs [Hd%drawn_safe Ho]. apply (fresh_deep scope options w key b); [done..| |done|].
  - by eapply (has_content_written scope log_id options log Hlog w tr caller Hrec (evidence_keys _ _ _ _ Hev)).
  - intros o Hin. rewrite Hi. apply usable_deep, Ho. unfold refs_of. by rewrite (handle_options _ _ _ _ Hlog).
Qed.

Lemma keeps_same h h' key :
  head_incarnation h' = head_incarnation h → head_tail h' = head_tail h → head_checkpoint h' = head_checkpoint h →
  keeps h' key ↔ keeps h key.
Proof.
  intros Hi Ht Hc. split; intros [c Hin|cp Hcp].
  - rewrite Hi. rewrite Ht in Hin. by apply keeps_commit.
  - rewrite Hi. rewrite Hc in Hcp. by apply keeps_checkpoint.
  - rewrite <-Hi. rewrite <-Ht in Hin. by apply keeps_commit.
  - rewrite <-Hi. rewrite <-Hc in Hcp. by apply keeps_checkpoint.
Qed.

Lemma listed_written key size :
  listed log tr key size → immutable_key_wf key = true ∧ in_u64 size = true ∧ written_at scope w key.
Proof.
  intros (items & loc & Hin & Hitem & Hc). rewrite Forall_forall in Hlisted. apply Hlisted in Hin. simpl in Hin.
  destruct (Hin _ _ Hitem) as [Hsize (b & v & Hw)]. apply classify_sound in Hc as [-> Hwf]. split_and!; [done|done|].
  exists b, v. rewrite <-(handle_key scope log_id options log Hlog). done.
Qed.

(** A set that is closed under the references that were read is closed. *)
Lemma reaches_live (L : ImmutableKey → Prop) root key :
  (∀ key, L key → refs_live log tr L key) → key_incarnation root = log_incarnation log → L root →
  rtc (child scope options w) root key → L key.
Proof.
  intros Hrefs Hi HL Hr. revert Hi HL. induction Hr as [|root k1 key Hk _ IH]; intros Hi HL; [done|].
  destruct Hk as (b & v & o & Hwf & Hin & Ho & ->). apply IH; [done|].
  destruct (Hrefs root HL) as [Hblob|(s & Hg & Hd & Hlive)]; [by rewrite Hblob in Ho; apply elem_of_nil in Ho|].
  assert (b = stored_bytes s) as ->.
  { eapply (content_unique scope w root); [by eapply fenced_content_ok|done|done|].
    rewrite <-(handle_key scope log_id options log Hlog). by eapply got_written. }
  rewrite Hi. apply Hlive. unfold refs_of. by rewrite (handle_options _ _ _ _ Hlog).
Qed.

(** An installed plan is stored as the fence names it, and schedules stored objects only. *)
Lemma planned_fence h h' plan_ref :
  planned log tr h plan_ref → (∀ cp, head_checkpoint h = Some cp → obj_kind (checkpoint_object cp) = Checkpoint) →
  head_typed h' → head_active_plan h' = Some plan_ref →
  head_incarnation h' = log_incarnation log → head_collection_epoch h' = head_collection_epoch h + 1 →
  (∀ key, keeps h' key → keeps h key) →
  plan_all scope options w h' (λ key, written_at scope w key ∧ ¬ needed scope options w h' key).
Proof.
  intros (plan & b & version & L & He & Hd & Hput & Hplog & Hpe & Hroots & Hrefs & Hall) Hkind Ht Ha Hi Hepoch Hkeep _.
  rewrite (handle_options _ _ _ _ Hlog) in He. exists plan. split.
  - exists plan_ref, b, version. split_and!; [done| |done|].
    + rewrite Hi, <-(handle_key scope log_id options log Hlog). by eapply put_written.
    + apply plan_roundtrip; [done| |done]. unfold plan_wf. rewrite Hplog, (handle_id _ _ _ _ Hlog), Hid, Hpe, <-Hepoch.
      rewrite (typed_epoch _ Ht). simpl. apply forallb_Forall, Forall_forall. intros c Hc. destruct (Hall c Hc) as [Hl _].
      apply listed_written in Hl as (Hwf & Hsize & _). unfold candidate_wf. by rewrite Hwf, Hsize.
  - intros c Hc. destruct (Hall c Hc) as [Hl Hn]. split; [by apply listed_written in Hl as (_ & _ & ?)|].
    intros (root & Hk & Hr). apply Hn. eapply (reaches_live L); [by apply Hrefs| | |exact Hr]; [|by apply Hroots, Hkeep].
    destruct Hk; exact Hi.
Qed.

Lemma history_kind h cp : h ∈ hist w → head_checkpoint h = Some cp → obj_kind (checkpoint_object cp) = Checkpoint.
Proof.
  intros Hh Hcp. destruct (history_bytes w h Hok Hh) as (b & v & _ & Hd).
  apply decode_head_valid, validate_Ok_head_ok in Hd. by eapply ok_base_kind, ok_base.
Qed.

Lemma head_write_fenced v h' :
  in_history scope w v → validate_view log v = Ok () → head_write log caller tr (view_head v) h' → head_typed h' →
  fenced_update scope options w (view_head v) h'.
Proof.
  intros Hv%(in_history_elem scope log_id options); [|done]. intros (_ & Hi & _)%validate_view_eq Hw Ht.
  generalize dependent (view_head v). clear v. intros h Hh Hi Hw.
  assert (∀ key, keeps h key → closed scope options w key ∧ (keeps h key ∨ deep scope options w key (head_collection_epoch h))) as Hold.
  { intros key Hk. split; [by eapply (fence_closed _ _ _ Hf)|by left]. }
  assert (∀ key, closed scope options w key ∧ deep scope options w key (head_collection_epoch h) →
    closed scope options w key ∧ (keeps h key ∨ deep scope options w key (head_collection_epoch h))) as Hnew by tauto.
  pose proof (keeps_typed h') as Hwf.
  destruct Hw as [h c b h' _ _ Hs Hg Hc|h through object b h' _ Hs Hg Hc|h change h' _ Hc|h p h' _ _ _ Hp Hc|h p h' _ _ Hc].
  - apply candidate_head_Ok in Hc as (-> & _). split; [|by left]. intros key Hk.
    destruct (Hwf key Ht Hk) as [Hkwf Hkind], Hk as [c' Hc'|cp Hcp]; simpl in Hkwf, Hkind |- *.
    + apply elem_of_app in Hc' as [Hc'| ->%list_elem_of_singleton]; [by apply Hold, keeps_commit|].
      apply Hnew. unfold commit_immutable_key in Hs, Hg. rewrite <-Hi in Hs, Hg. by eapply grounded_deep.
    + by apply Hold, keeps_checkpoint.
  - apply checkpoint_head_Ok in Hc as (i & _ & -> & _). split; [|by left]. intros key Hk.
    destruct (Hwf key Ht Hk) as [Hkwf Hkind], Hk as [c' Hc'|cp Hcp]; simpl in Hkwf, Hkind |- *.
    + apply Hold, keeps_commit. simpl in Hc'. by apply (drop_subset (S i)).
    + injection Hcp as <-. apply Hnew. unfold object_immutable_key in Hs, Hg. rewrite <-Hi in Hs, Hg.
      destruct Hg; [|by eapply grounded_deep]. simpl. rewrite Hi. by apply usable_deep.
  - apply advance_generation_Ok in Hc as [-> _]. split; [|left; by destruct change].
    intros key Hk. apply Hold. eapply keeps_same, Hk; by destruct change.
  - unfold install_plan_head in Hc. inv_ok. apply advance_generation_Ok in Hok0 as [-> _].
    assert (∀ key, keeps (set_active_plan (Some p) (set_collection_epoch (head_collection_epoch h + 1)
      (set_generation (head_generation h + 1) h))) key → keeps h key) as Hk by (intros key; by apply keeps_same).
    split; [intros key ?; by apply Hold, Hk|]. intros _. right. eapply planned_fence; try done.
    intros cp. by apply history_kind.
  - apply advance_generation_Ok in Hc as [-> _]. split; [|by intros []]. intros key Hk. apply Hold. by eapply keeps_same, Hk.
Qed.

(** A plan that was read is the plan of the fence it was read for. *)
Lemma plan_read_at v plan_ref plan :
  validate_view log v = Ok () → head_active_plan (view_head v) = Some plan_ref →
  plan_read log tr plan_ref plan → plan_at scope options w (view_head v) plan.
Proof.
  intros (_ & Hi & _)%validate_view_eq Ha (o & Hg & Hd & Hdec). rewrite (handle_options _ _ _ _ Hlog) in Hdec.
  exists plan_ref, (stored_bytes o), (stored_version o). split_and!; [done| |done|done].
  rewrite Hi, <-(handle_key scope log_id options log Hlog). by eapply got_written.
Qed.

Lemma plan_key_wf p : plan_ref_wf p = true → immutable_key_wf (collection_plan_key (log_incarnation log) p) = true.
Proof. unfold plan_ref_wf, immutable_key_wf. intros Hp. bool_hyps. simpl. rewrite Hinc. simpl. by apply andb_true_iff. Qed.

(** Every request a client's evidence allows is one the fence allows. *)
Lemma allowed_fenced R (e : Event R) :
  allowed log caller tr R e →
  match e with
  | EPut loc b mode => fenced_write scope options w (loc, b, mode)
  | EDelete loc => False
  | EDeleteStream locations => fenced_gone scope options w locations
  | _ => True
  end.
Proof.
  pose proof (handle_key scope log_id options log Hlog) as Hkey.
  assert (∀ key, key_at scope key ≠ head_path log) as Hhead.
  { intros key. rewrite (handle_head scope log_id options log Hlog). apply key_not_head. }
  destruct 1 as [R e Hr|key b Hki Hu Hd|incarnation b _ _ _|v h' b Hw Hv Hh Ht He Hl|v plan_ref plan keys Hw Hv Ha Hp Hs
    |v plan_ref _ _ Hp].
  - by destruct e.
  - split; simpl; rewrite Hkey; [|by intros ?%key_not_head]. intros key' Hwf' Heq.
    apply (key_at_inj scope log_id) in Heq as <-; [done| |done]. unfold immutable_key_wf.
    by rewrite Hki, Hinc, Hu, <-Hd, digest_of_wf.
  - split; [intros key _ Heq; by destruct (Hhead key)|done].
  - split; [intros key _ Heq; by destruct (Hhead key)|]. intros _. rewrite (handle_options _ _ _ _ Hlog) in Hl.
    pose proof (max_head_u64 options Hoptions).
    destruct (witnessed_in v Hw) as (b0 & Hin & Hd). exists b0, (view_head v), h'. split_and!; [done|done| |].
    + apply typed_roundtrip; [done|done|simpl; lia].
    + by apply head_write_fenced; [apply witnessed_in|..].
  - intros key Hwf _ (k & Heq & Hk)%list_elem_of_fmap. rewrite Hkey in Heq. apply Hs, list_elem_of_fmap in Hk as (c & -> & Hc).
    exists (view_head v). split; [by eapply in_history_elem, witnessed_in|]. exists plan, c. split_and!; [by eapply plan_read_at|done|].
    destruct Hp as (o & _ & _ & Hdec%plan_decoded_wf). unfold plan_wf in Hdec. bool_hyps.
    match goal with Hf : forallb _ _ = true |- _ => rewrite forallb_Forall, Forall_forall in Hf; apply Hf in Hc end.
    symmetry. apply (key_at_inj scope log_id); [done| |done]. unfold candidate_wf in Hc. by bool_hyps.
  - intros key Hwf Hkind Heq%list_elem_of_singleton. rewrite Hkey in Heq.
    apply (key_at_inj scope log_id) in Heq as ->; [done|done|by apply plan_key_wf].
Qed.
End evidence.

(** ** Every step keeps the invariant *)

Lemma served_fenced log caller tr R (e : Event R) r w w' :
  handle scope log_id options log → uuid_wf (log_incarnation log) = true →
  world_ok scope log_id options w → collision_free scope w → collision_free scope w' → fenced scope options w →
  Forall (recorded w) tr → Forall (listed_ok w) tr → evidence_ok log w tr caller →
  allowed log caller tr R e → serves w e r w' → fenced scope options w' ∧ grows scope w w'.
Proof.
  intros Hlog Hinc Hok Hfree Hfree' Hf Hrec Hlisted Hev Ha Hs.
  pose proof (allowed_writes scope log_id options log Hlog w tr caller Hok Hrec
    (evidence_views _ _ _ _ Hev) (evidence_keys _ _ _ _ Hev) Hoptions _ _ Ha) as Hw.
  apply (allowed_fenced log Hlog Hinc w tr caller Hok Hfree Hrec Hlisted Hev Hf) in Ha.
  assert (grows scope w w) as Hrefl by (split; [done|by left]).
  destruct e as [| |loc b mode|loc|locations| | | | | | | |]; simpl in Hs; try (by subst w').
  - by destruct Hs as [-> _].
  - destruct r as [v|err].
    + destruct Hs as (Hadm & _ & ->). split; [by eapply fenced_write_ok|by eapply write_grows].
    + subst w'. split; [by apply fenced_leave_late|done].
  - done.
  - destruct Hs as (gone & Hsub & ->). split; [|done]. apply fenced_remove; [done|].
    intros key Hwf Hk Hin. by apply Ha, Hsub.
Qed.

Lemma evidence_grows log w w' tr caller :
  world_ok scope log_id options w → extends scope w w' → grows scope w w' → content_ok scope w' →
  evidence_ok log w tr caller → evidence_ok log w' tr caller.
Proof.
  intros Hok He Hg Hc [Hv Hk Ho Hi Hd]. destruct (history_ok scope log_id options _ Hok) as (_ & Hl & _).
  pose proof Hg as [Hsub _]. split.
  - intros v Hkv. eapply in_history_mono; [done|by apply Hv].
  - intros key b Hkk. eapply content_at_mono; [done|by apply Hk].
  - intros o h (v & Hin & Hsame & Hcl & Hdeep)%Ho. exists v.
    split_and!; [by eapply in_history_mono|done|by eapply closed_grows|by eapply deep_grows].
  - intros id h (v & Hin & Hs & Hsame)%Hi. exists v.
    split_and!; [by eapply in_history_mono|by eapply safe_grows|done].
  - intros u v Hu Hkv. eapply safe_grows; [done|done|by apply Hd].
Qed.

Lemma gc_task_grows w w' past past' t :
  world_ok scope log_id options w → extends scope w w' → grows scope w w' → content_ok scope w' → past ⊆ past' →
  gc_task w past t → gc_task w' past' t.
Proof.
  intros Hok He Hg Hc Hs (Hlog & Hinc & Htr & caller & Hev & Hwp). split_and!; [done|done|set_solver|].
  exists caller. split; [by eapply evidence_grows|done].
Qed.

Lemma listed_ok_grows w w' ev : grows scope w w' → listed_ok w ev → listed_ok w' ev.
Proof.
  intros [Hs _]. destruct ev as [R e r], e; simpl; try done. intros Hl loc size Hin.
  destruct (Hl loc size Hin) as [? (b & v & ?)]. split; [done|]. exists b, v. by apply Hs.
Qed.

(** A new identity is safe in every epoch so far. *)
Lemma fresh_safe w u v :
  world_ok scope log_id options w → fenced scope options w → ¬ used w u → in_history scope w v →
  safe scope options w u (epoch_of v).
Proof.
  intros Hok Hf Hfresh Hv%(in_history_elem scope log_id options); [|done]. split; [by exists (view_head v)|].
  intros h Hh _ Ha. destruct (fence_plans _ _ _ Hf h Hh Ha) as (plan & Hp & Hc). exists plan. split; [done|].
  intros c Hin Hu. apply Hfresh. exists (candidate_key c). split_and!; [|done|by apply Hc].
  destruct Hp as (p & b & ver & _ & _ & _ & Hdec%plan_decoded_wf). unfold plan_wf in Hdec. bool_hyps.
  match goal with Hx : forallb _ _ = true |- _ => rewrite forallb_Forall, Forall_forall in Hx; apply Hx in Hin end.
  unfold candidate_wf in Hin. by bool_hyps.
Qed.

Lemma collision_free_extends w w' : extends scope w w' → collision_free scope w' → collision_free scope w.
Proof.
  intros He [Hb Hh]. pose proof He as [Hs _]. apply (history_prefix scope) in He as [k Hk]. split.
  - intros loc b v loc' b' v' Hin Hin'. by eapply Hb; apply Hs.
  - intros h h' d Hin Hin'. apply Hh; rewrite Hk; apply elem_of_app; by left.
Qed.

Lemma gc_ok_init : gc_ok sys_init.
Proof.
  split; [|constructor| |constructor].
  - split; simpl.
    + by intros h ?%elem_of_nil.
    + by intros i j h h' ?.
    + by intros h key ?%elem_of_nil.
    + by intros key _ _ (b & v & ?%elem_of_nil).
    + by intros key b v _ ?%elem_of_nil.
    + constructor.
  - by intros [] ?.
Qed.

(** What was read is stored. *)
Lemma read_child_stored w past log key key' :
  world_ok scope log_id options w → Forall (recorded w) past → handle scope log_id options log →
  immutable_key_wf key = true → key_incarnation key = log_incarnation log →
  read_child log past key key' → child scope options w key key' ∧ key_incarnation key' = log_incarnation log.
Proof.
  intros Hok Hrec Hlog Hwf Hi (stored & o & Hg & Hd & Ho & ->). split; [|done].
  exists (stored_bytes stored), (stored_version stored), o. rewrite Hi. split_and!; [done| | |done].
  - rewrite <-(handle_key scope log_id options log Hlog). by eapply got_written.
  - unfold refs_of in Ho. by rewrite (handle_options _ _ _ _ Hlog) in Ho.
Qed.

Lemma read_reaches w past log root key :
  world_ok scope log_id options w → Forall (recorded w) past → handle scope log_id options log →
  closed scope options w root → key_incarnation root = log_incarnation log →
  rtc (read_child log past) root key → rtc (child scope options w) root key.
Proof.
  intros Hok Hrec Hlog Hcl Hi Hr. revert Hcl Hi. induction Hr as [|root k1 key Hk _ IH]; intros Hcl Hi; [done|].
  destruct (Hcl root) as [Hwf _]; [done|].
  destruct (read_child_stored w past log root k1 Hok Hrec Hlog Hwf Hi Hk) as [Hk' Hi'].
  eapply rtc_l; [done|]. apply IH; [|done]. intros k Hr'. apply Hcl. by eapply rtc_l.
Qed.

(** A staged object is stored with all that can be reached from it, out of the reach of
    every plan of the epoch. *)
Lemma staged_deep w past log epoch o :
  world_ok scope log_id options w → collision_free scope w → fenced scope options w → Forall (recorded w) past →
  (∀ past1 past2 u v, past = past1 ++ MkEv ENewUuid u :: past2 → seen scope log_id options past1 v →
     safe scope options w u (epoch_of v)) →
  (∀ v, seen scope log_id options past v → in_history scope w v) →
  handle scope log_id options log → uuid_wf (log_incarnation log) = true →
  staged log past epoch o →
  closed scope options w (object_immutable_key log o) ∧ deep scope options w (object_immutable_key log o) epoch.
Proof.
  intros Hok Hfree Hf Hrec Hdrawn Hseen Hlog Hinc.
  induction 1 as [o b v Hd He Hwf Hdig Hs _ IH|o v root Hv He Hval Hk Hr].
  - destruct Hd as (past1 & past2 & Hp & Hsee). unfold object_ref_wf in Hwf. bool_hyps.
    apply (fresh_deep scope options w _ b); [done|done| | | | |].
    + unfold immutable_key_wf. simpl. rewrite Hinc. simpl. by apply andb_true_iff.
    + simpl. by destruct (obj_kind o).
    + by eapply (has_content_written scope log_id options log Hlog w past nobody).
    + rewrite <-He. by eapply Hdrawn.
    + intros o' Ho'. apply IH. unfold refs_of. by rewrite (handle_options _ _ _ _ Hlog).
  - destruct (history_ok scope log_id options _ Hok) as (_ & Hl & _). rewrite <-He.
    assert (view_head v ∈ hist w) as Hh by (by eapply in_history_elem, Hseen).
    eapply needed_deep; [done..|]. exists root. split; [done|]. eapply read_reaches; [done..|by eapply (fence_closed _ _ _ Hf)| |done].
    apply validate_view_eq in Hval as (_ & Hi & _). rewrite <-Hi. by destruct Hk.
Qed.

Lemma gc_task_start w past log o :
  world_ok scope log_id options w → collision_free scope w → fenced scope options w → Forall (recorded w) past →
  (∀ past1 past2 u v, past = past1 ++ MkEv ENewUuid u :: past2 → seen scope log_id options past1 v →
     safe scope options w u (epoch_of v)) →
  handle scope log_id options log → uuid_wf (log_incarnation log) = true →
  op_ready scope log_id options log past o → staging_ready log past o →
  gc_task w past (MkTask log o [] (op_prog log o)).
Proof.
  intros Hok Hfree Hf Hrec Hdrawn Hlog Hinc Hready Hst. split_and!; [done|done|set_solver|].
  assert (∀ past1 v, past1 ⊆ past → seen scope log_id options past1 v → in_history scope w v) as Hseen.
  { intros past1 v Hsub (log' & Hlog' & Hw). eapply (witnessed_history scope log_id options log' Hlog' w past nobody); try done.
    by eapply witnessed_mono. }
  exists (caller_of scope log_id options (epoch_ids past) (epoch_objects log past) log past). split; [split|].
  - intros v. by apply Hseen.
  - intros key b Hd. by eapply (has_content_written scope log_id options log Hlog w past nobody).
  - intros x h (v & Hv & Hs & Hsame). exists v. split_and!; [by eapply Hseen|done|..];
      eapply staged_deep; try done; intros ?; by apply Hseen.
  - intros id h (v & (past1 & past2 & Hp & Hs) & Hsame). exists v. split_and!; [|by eapply Hdrawn|done].
    eapply Hseen; [|done]. rewrite Hp. set_solver.
  - by intros u v ?%elem_of_nil.
  - apply op_wp; [done..|by apply staging_ready_op].
Qed.

Lemma honest_fresh w ev u :
  match ev with MkEv e r => honest w e r end → ev = MkEv ENewUuid u → ¬ used w u.
Proof. by intros Hh ->. Qed.

(** The task after its request was answered. *)
Lemma gc_task_request w w' past tr log o R (e : Event R) k r :
  world_ok scope log_id options w → fenced scope options w → extends scope w w' → grows scope w w' →
  content_ok scope w' → answers log R e r → honest w e r →
  gc_task w past (MkTask log o tr (Vis e k)) →
  gc_task w' (past ++ [MkEv e r]) (MkTask log o (tr ++ [MkEv e r]) (k r)).
Proof.
  intros Hok Hf He Hg Hc Hans Hhon (Hlog & Hinc & Htr & caller & Hev & [_ Hwp]). simpl in Htr.
  split_and!; [done|done|simpl; set_solver|]. exists caller. split; [|by apply Hwp].
  destruct (history_ok scope log_id options _ Hok) as (_ & Hl & _).
  pose proof (evidence_grows _ _ _ _ _ Hok He Hg Hc Hev) as [Hv Hk Ho Hi Hd]. split; [done..|]. simpl.
  intros u v [Hu|Hu]%elem_of_app Hkv; [by apply Hd|]. apply list_elem_of_singleton in Hu.
  eapply safe_grows; [done|done|]. apply fresh_safe; [done|done| |by apply (evidence_views _ _ _ _ Hev)].
  by apply (honest_fresh w (MkEv e r)).
Qed.

Lemma gc_ok_request w w' past tasks tasks' log o tr R (e : Event R) k r :
  let s := MkSystem w past (tasks ++ MkTask log o tr (Vis e k) :: tasks') in
  sys_ok scope log_id options s → collision_free scope w → collision_free scope w' → gc_ok s →
  serves w e r w' → answers log R e r → honest w e r →
  gc_ok (MkSystem w' (past ++ [MkEv e r]) (tasks ++ MkTask log o (tr ++ [MkEv e r]) (k r) :: tasks')).
Proof.
  intros s Hsys Hfree Hfree' [Hf Hlisted Hdrawn Htasks] Hserve Hans Hhon. pose proof Hsys as [Hok Hpast _].
  unfold s in Hok, Hpast, Hf, Hlisted, Hdrawn, Htasks. simpl in *.
  apply Forall_app in Htasks as [Ht1 Ht2]. apply Forall_cons in Ht2 as [Ht Ht2].
  pose proof Ht as (Hlog & Hinc & Htr & caller & Hev & [Ha _]). simpl in Hlog, Hinc, Htr.
  assert (Forall (recorded w) tr) as Hrec by (rewrite Forall_forall in *; auto).
  assert (Forall (listed_ok w) tr) as Hltr by (rewrite Forall_forall in *; auto).
  destruct (served_fenced _ _ _ _ _ _ _ _ Hlog Hinc Hok Hfree Hfree' Hf Hrec Hltr Hev Ha Hserve) as [Hf' Hg].
  pose proof (fenced_content_ok _ _ _ Hf' Hfree') as Hcok.
  destruct (serves_ok scope log_id options Hid Hoptions _ _ _ _ _ _ _ _ Hlog Hok Hrec (evidence_views _ _ _ _ Hev)
    (evidence_keys _ _ _ _ Hev) Ha Hserve) as (_ & He & _).
  destruct (history_ok scope log_id options _ Hok) as (_ & Hl & _). split; simpl.
  - done.
  - apply Forall_app. split; [eapply Forall_impl; [exact Hlisted|]; intros ev; by apply listed_ok_grows|].
    constructor; [|constructor]. apply (listed_ok_grows w); [done|]. by destruct e.
  - intros past1 past2 u v Hp Hseen. eapply safe_grows; [done|done|].
    apply snoc_eq_middle in Hp as [(<- & Hx & _)|(l & _ & Hp)]; [|by eapply Hdrawn].
    apply fresh_safe; [done|done|by apply (honest_fresh w (MkEv e r))|].
    exact (seen_history scope log_id options s v Hsys Hseen).
  - assert (∀ t, gc_task w past t → gc_task w' (past ++ [MkEv e r]) t) as Hm.
    { intros t. apply gc_task_grows; [done..|set_solver]. }
    apply Forall_app. split; [by eapply Forall_impl|]. constructor; [by eapply gc_task_request|by eapply Forall_impl].
Qed.

Lemma gc_ok_step s s' :
  sys_ok scope log_id options s → collision_free scope (sys_world s) → collision_free scope (sys_world s') →
  gc_ok s → gc_step s s' → gc_ok s'.
Proof.
  intros Hsys Hfree Hfree' Hgc Hs.
  destruct Hs as [w past tasks log o Hlog Hinc Hready Hids|w w' past tasks tasks' log o tr R e k r Hserve Hans Hhon
    |w past tasks t tasks'|w past tasks loc b mode v Hin Hadm Hident]; [|by eapply gc_ok_request| |];
    destruct Hsys as [Hok Hpast _], Hgc as [Hf Hlisted Hdrawn Htasks]; simpl in *.
  - split; simpl; [done..|]. apply Forall_app. split; [done|]. constructor; [by apply gc_task_start|constructor].
  - split; simpl; [done..|]. apply Forall_app in Htasks as [? [? ?]%Forall_cons]. by apply Forall_app.
  - assert (loc = head_at scope → head_put scope log_id options w b mode) as Hput.
    { pose proof (ok_late _ _ _ _ Hok) as Hl. rewrite Forall_forall in Hl. by apply (Hl _ Hin). }
    assert (fenced_write scope options w (loc, b, mode)) as Hfw.
    { pose proof (fence_late _ _ _ Hf) as Hl. rewrite Forall_forall in Hl. by apply (Hl _ Hin). }
    pose proof (extends_write scope loc b v w) as He.
    assert (grows scope w (write_object loc b v w)) as Hg by (by eapply write_grows).
    pose proof (fenced_write_ok scope log_id options loc b v mode w Hok Hfree Hf Hput Hfw Hadm Hfree') as Hf'.
    pose proof (fenced_content_ok _ _ _ Hf' Hfree') as Hcok.
    destruct (history_ok scope log_id options _ Hok) as (_ & Hl & _). split; simpl.
    + done.
    + eapply Forall_impl; [exact Hlisted|]. intros ev. by apply listed_ok_grows.
    + intros past1 past2 u v' Hp Hseen. eapply safe_grows; [done|done|by eapply Hdrawn].
    + eapply Forall_impl; [exact Htasks|]. intros t. by apply gc_task_grows.
Qed.

Lemma gc_reachable s : rtc gc_step sys_init s → collision_free scope (sys_world s) → gc_ok s.
Proof.
  intros Hs. pattern s. revert s Hs. apply rtc_ind_r; [intros _; apply gc_ok_init|].
  intros s s' Hs Hstep IH Hfree. apply gc_steps_sys, reachable_ok in Hs; [|done..].
  assert (collision_free scope (sys_world s)) as Hfree'.
  { eapply collision_free_extends; [|done]. eapply sys_step_extends; [done..|by apply gc_step_sys]. }
  by eapply gc_ok_step; [..|done]; [|auto..].
Qed.


(** C6. A retained view stays readable: from a retention that was applied in the view's
    collection epoch, for as long as some retention is held, every commit of the view's
    tail, its checkpoint and every blob and node that can be reached from them are in the
    store, even when later heads no longer name them. *)
Theorem retained_view_stays_readable s i k h h' key :
  rtc gc_step sys_init s → collision_free scope (sys_world s) →
  hist (sys_world s) !! i = Some h → hist (sys_world s) !! k = Some h' → (i ≤ k)%nat →
  head_collection_epoch h' = head_collection_epoch h →
  (∀ j x, (k ≤ j)%nat → hist (sys_world s) !! j = Some x → head_retention_ids x ≠ ∅) →
  needed scope options (sys_world s) h key →
  ∃ b v, w_objects (sys_world s) !! key_at scope key = Some (b, v) ∧ digest_of b = key_digest key.
Proof.
  intros Hs Hfree. pose proof (gc_reachable s Hs Hfree) as [Hf _ _ _].
  apply gc_steps_sys, reachable_ok in Hs as [Hok _ _]; [|done..]. by eapply (fenced_retained scope log_id options).
Qed.
End reclaim.
