(* ===== verification/Sim.v ===== *)
(** * The fault-injecting store

    [src/sim.rs]: an object-store wrapper with one-shot faults, pauses and request
    accounting.  Its state is behind a mutex, so a method is a program over the critical
    sections it enters, the calls it makes to the wrapped store and the pause it waits
    for; requests interleave between those events. *)

From S2P Require Import Prelude Types Head Prog.

(** ** Types of [object_store] *)

(** What the wrapper passes through without looking inside. *)
Class StoreApi := {
  PutOptions : Type;
  PutMultipartOptions : Type;
  GetOptions : Type;
  CopyOptions : Type;
  RenameOptions : Type;
  PutResult : Type;
  GetReply : Type;
  ListResult : Type;
  ObjectMeta : Type;
  (** A [Box<dyn MultipartUpload>] and a listing of the wrapped store. *)
  Upload : Type;
  Listing : Type;
  (** [GetOptions::head] and [GetResult::range]. *)
  get_head : GetOptions → bool;
  get_range : GetReply → Z * Z;
  (** Error sources that the wrapper did not create. *)
  Foreign : Type
}.

(** ** Operations and faults *)

(** [Operation]. *)
Inductive SimOperation :=
  | SimPut | MultipartCreate | MultipartPart | MultipartComplete | MultipartAbort
  | SimGet | GetRanges | SimDelete | SimList | ListWithDelimiter | SimCopy | SimRename.

#[global] Instance SimOperation_eq_dec : EqDecision SimOperation.
Proof. solve_decision. Defined.

Definition operation_code (o : SimOperation) : positive :=
  match o with
  | SimPut => 1 | MultipartCreate => 2 | MultipartPart => 3 | MultipartComplete => 4 | MultipartAbort => 5
  | SimGet => 6 | GetRanges => 7 | SimDelete => 8 | SimList => 9 | ListWithDelimiter => 10
  | SimCopy => 11 | SimRename => 12
  end%positive.

Definition operation_of_code (p : positive) : option SimOperation :=
  match p with
  | 1 => Some SimPut | 2 => Some MultipartCreate | 3 => Some MultipartPart | 4 => Some MultipartComplete
  | 5 => Some MultipartAbort | 6 => Some SimGet | 7 => Some GetRanges | 8 => Some SimDelete
  | 9 => Some SimList | 10 => Some ListWithDelimiter | 11 => Some SimCopy | 12 => Some SimRename | _ => None
  end%positive.

#[global] Program Instance SimOperation_countable : Countable SimOperation :=
  {| encode := operation_code; decode := operation_of_code |}.
Next Obligation. by intros []. Qed.

(** [FailurePhase]. *)
Inductive FailurePhase := Before | After.
#[global] Instance FailurePhase_eq_dec : EqDecision FailurePhase.
Proof. solve_decision. Defined.

(** [PutRejection]. *)
Inductive PutRejection := RejectPrecondition | RejectAlreadyExists.

(** [Failure]. *)
Record Failure := MkFailure {
  failure_operation : SimOperation;
  failure_occurrence : Z;
  failure_phase : FailurePhase
}.

(** [RequestOutcome]. *)
Inductive RequestOutcome := Succeeded | BackendError | InjectedBefore | InjectedAfter.
#[global] Instance RequestOutcome_eq_dec : EqDecision RequestOutcome.
Proof. solve_decision. Defined.

(** ** Metrics *)

(** [OperationMetrics]. *)
Record OperationMetrics := MkOperationMetrics {
  requests : Z;
  succeeded : Z;
  visible_mutations : Z;
  backend_errors : Z;
  injected_before : Z;
  injected_after : Z;
  op_uploaded_bytes : Z;
  op_downloaded_bytes : Z
}.

(** [OperationMetrics::default]. *)
Definition no_metrics : OperationMetrics := MkOperationMetrics 0 0 0 0 0 0 0 0.

(** [usize_to_u64]. *)
Definition usize_to_u64 (n : Z) : Z := default u64_max (u64_try_from n).

(** [is_mutation]. *)
Definition is_mutation (o : SimOperation) : bool :=
  match o with SimPut | MultipartComplete | SimDelete | SimCopy | SimRename => true | _ => false end.

Section metrics.
Context `{ObjectPath}.

(** [RequestEvent]. *)
Record RequestEvent := MkRequestEvent {
  event_sequence : Z;
  event_operation : SimOperation;
  event_occurrence : Z;
  event_path : Path;
  event_uploaded : Z;
  event_downloaded : Z;
  event_outcome : RequestOutcome
}.

(** [Metrics]. *)
Record Metrics := MkMetrics {
  metrics_operations : gmap SimOperation OperationMetrics;
  metrics_events : list RequestEvent
}.

(** [Metrics::operation]. *)
Definition metrics_operation (m : Metrics) (o : SimOperation) : OperationMetrics :=
  default no_metrics (metrics_operations m !! o).

(** [Iterator::sum] of one counter over the map's values. *)
Definition metrics_sum (counter : OperationMetrics → Z) (m : Metrics) : Z :=
  foldr (λ x total, counter x.2 + total) 0 (map_to_list (metrics_operations m)).

(** [Metrics::total_requests], [uploaded_bytes] and [downloaded_bytes]. *)
Definition total_requests (m : Metrics) : Z := metrics_sum requests m.
Definition metrics_uploaded_bytes (m : Metrics) : Z := metrics_sum op_uploaded_bytes m.
Definition metrics_downloaded_bytes (m : Metrics) : Z := metrics_sum op_downloaded_bytes m.

(** ** State *)

(** [ScheduledPause]; the gate stands for its two channels. *)
Record ScheduledPause := MkScheduledPause {
  pause_operation : SimOperation;
  pause_occurrence : Z;
  pause_phase : FailurePhase;
  pause_gate : Z
}.

(** [State]. *)
Record State := MkState {
  next_sequence : Z;
  metrics : Metrics;
  failures : list Failure;
  rejected_puts : list (Z * FailurePhase * PutRejection);
  pause : option ScheduledPause;
  record_events : bool
}.

(** [State::default]. *)
Definition state_default : State := MkState 0 (MkMetrics ∅ []) [] [] None true.

Definition set_metrics (m : Metrics) (s : State) : State :=
  MkState (next_sequence s) m (failures s) (rejected_puts s) (pause s) (record_events s).
Definition set_faults (f : list Failure) (r : list (Z * FailurePhase * PutRejection)) (s : State) : State :=
  MkState (next_sequence s) (metrics s) f r (pause s) (record_events s).
Definition set_pause (p : option ScheduledPause) (s : State) : State :=
  MkState (next_sequence s) (metrics s) (failures s) (rejected_puts s) p (record_events s).

(** [RequestTicket]. *)
Record RequestTicket := MkRequestTicket {
  ticket_sequence : Z;
  ticket_operation : SimOperation;
  ticket_occurrence : Z;
  ticket_uploaded : Z
}.

(** ** Scheduling *)

Definition other_failure (o : SimOperation) (occurrence : Z) (f : Failure) : bool :=
  negb (bool_decide (failure_operation f = o)) || negb (failure_occurrence f =? occurrence).

Definition other_rejection (occurrence : Z) (r : Z * FailurePhase * PutRejection) : bool :=
  negb (r.1.1 =? occurrence).

(** [FaultStore::schedule]. *)
Definition schedule (f : Failure) (s : State) : State :=
  let rejected :=
    if bool_decide (failure_operation f = SimPut)
    then List.filter (other_rejection (failure_occurrence f)) (rejected_puts s)
    else rejected_puts s in
  set_faults (List.filter (other_failure (failure_operation f) (failure_occurrence f)) (failures s) ++ [f]) rejected s.

(** [FaultStore::fail_next]. *)
Definition fail_next (o : SimOperation) (phase : FailurePhase) (s : State) : State :=
  let occurrence := u64_saturating_add (requests (metrics_operation (metrics s) o)) 1 in
  let rejected :=
    if bool_decide (o = SimPut) then List.filter (other_rejection occurrence) (rejected_puts s)
    else rejected_puts s in
  set_faults (List.filter (other_failure o occurrence) (failures s) ++ [MkFailure o occurrence phase]) rejected s.

(** [FaultStore::reject_put_at], [reject_put_before] and [reject_put_after]. *)
Definition reject_put_at (occurrence : Z) (phase : FailurePhase) (rejection : PutRejection) (s : State) : State :=
  set_faults (List.filter (other_failure SimPut occurrence) (failures s))
    (List.filter (other_rejection occurrence) (rejected_puts s) ++ [(occurrence, phase, rejection)]) s.
Definition reject_put_before (occurrence : Z) (rejection : PutRejection) : State → State :=
  reject_put_at occurrence Before rejection.
Definition reject_put_after (occurrence : Z) (rejection : PutRejection) : State → State :=
  reject_put_at occurrence After rejection.

(** [FaultStore::schedule_pause] on a fresh gate; [None] is the panic of its assertion. *)
Definition schedule_pause (o : SimOperation) (occurrence : Z) (phase : FailurePhase) (gate : Z) (s : State)
    : option State :=
  match pause s with
  | Some _ => None
  | None => Some (set_pause (Some (MkScheduledPause o occurrence phase gate)) s)
  end.

(** [FaultStore::pause_next] and [pause_at]. *)
Definition pause_next (o : SimOperation) (phase : FailurePhase) (gate : Z) (s : State) : option State :=
  schedule_pause o (u64_saturating_add (requests (metrics_operation (metrics s) o)) 1) phase gate s.
Definition pause_at (o : SimOperation) (occurrence : Z) (phase : FailurePhase) (gate : Z) (s : State)
    : option State :=
  schedule_pause o occurrence phase gate s.

(** [pause_next_put], [pause_put_at] and the same for reads and deletions. *)
Definition pause_next_put : FailurePhase → Z → State → option State := pause_next SimPut.
Definition pause_put_at : Z → FailurePhase → Z → State → option State := pause_at SimPut.
Definition pause_next_get : FailurePhase → Z → State → option State := pause_next SimGet.
Definition pause_get_at : Z → FailurePhase → Z → State → option State := pause_at SimGet.
Definition pause_next_delete : FailurePhase → Z → State → option State := pause_next SimDelete.
Definition pause_delete_at : Z → FailurePhase → Z → State → option State := pause_at SimDelete.

(** [FaultStore::clear_failures], [pending_failures], [record_events] and [reset]. *)
Definition clear_failures (s : State) : State := set_faults [] [] s.
Definition pending_failures (s : State) : list Failure := failures s.
Definition set_record_events (enabled : bool) (s : State) : State :=
  MkState (next_sequence s) (metrics s) (failures s) (rejected_puts s) (pause s) enabled.
Definition reset (s : State) : State := state_default.

(** [sort_unstable_by_key(|event| event.sequence)], by insertion. *)
Fixpoint insert_event (e : RequestEvent) (l : list RequestEvent) : list RequestEvent :=
  match l with
  | [] => [e]
  | x :: l => if event_sequence e <=? event_sequence x then e :: x :: l else x :: insert_event e l
  end.
Definition sort_events (l : list RequestEvent) : list RequestEvent := foldr insert_event [] l.

(** [FaultStore::metrics]. *)
Definition store_metrics (s : State) : Metrics :=
  MkMetrics (metrics_operations (metrics s)) (sort_events (metrics_events (metrics s))).

(** ** Critical sections of a request *)

Definition update_operation (o : SimOperation) (f : OperationMetrics → OperationMetrics) (s : State) : State :=
  set_metrics (MkMetrics (<[o := f (metrics_operation (metrics s) o)]> (metrics_operations (metrics s)))
                 (metrics_events (metrics s))) s.

Definition count_request (m : OperationMetrics) : OperationMetrics :=
  MkOperationMetrics (u64_saturating_add (requests m) 1) (succeeded m) (visible_mutations m) (backend_errors m)
    (injected_before m) (injected_after m) (op_uploaded_bytes m) (op_downloaded_bytes m).

(** [FaultStore::start]. *)
Definition start (o : SimOperation) (uploaded : Z) (s : State) : RequestTicket * State :=
  let sequence := u64_saturating_add (next_sequence s) 1 in
  let s := MkState sequence (metrics s) (failures s) (rejected_puts s) (pause s) (record_events s) in
  let s := update_operation o count_request s in
  (MkRequestTicket sequence o (requests (metrics_operation (metrics s) o)) uploaded, s).

(** The first element that satisfies a test, removed: [position] and [remove]. *)
Fixpoint take_first {A} (test : A → bool) (l : list A) : option (A * list A) :=
  match l with
  | [] => None
  | x :: l =>
      if test x then Some (x, l)
      else match take_first test l with
           | Some (y, l) => Some (y, x :: l)
           | None => None
           end
  end.

Definition same_phase (a b : FailurePhase) : bool := bool_decide (a = b).

(** [FaultStore::take_failure]. *)
Definition take_failure (t : RequestTicket) (phase : FailurePhase) (s : State) : bool * State :=
  match take_first (λ f, bool_decide (failure_operation f = ticket_operation t)
                         && (failure_occurrence f =? ticket_occurrence t)
                         && same_phase (failure_phase f) phase) (failures s) with
  | Some (_, rest) => (true, set_faults rest (rejected_puts s) s)
  | None => (false, s)
  end.

(** [FaultStore::take_rejected_put]. *)
Definition take_rejected_put (t : RequestTicket) (phase : FailurePhase) (s : State)
    : option PutRejection * State :=
  if negb (bool_decide (ticket_operation t = SimPut)) then (None, s)
  else
    match take_first (λ r, (r.1.1 =? ticket_occurrence t) && same_phase r.1.2 phase) (rejected_puts s) with
    | Some (r, rest) => (Some r.2, set_faults (failures s) rest s)
    | None => (None, s)
    end.

(** [state.pause.take_if(..)] of [enter_pause]. *)
Definition take_pause (t : RequestTicket) (phase : FailurePhase) (s : State) : option Z * State :=
  match pause s with
  | Some p =>
      if bool_decide (pause_operation p = ticket_operation t) && (pause_occurrence p =? ticket_occurrence t)
         && same_phase (pause_phase p) phase
      then (Some (pause_gate p), set_pause None s)
      else (None, s)
  | None => (None, s)
  end.

Definition visible (o : SimOperation) (outcome : RequestOutcome) : bool :=
  is_mutation o && match outcome with Succeeded | InjectedAfter => true | _ => false end.

Definition count_outcome (o : SimOperation) (uploaded downloaded : Z) (outcome : RequestOutcome)
    (m : OperationMetrics) : OperationMetrics :=
  let bump b n := if b : bool then u64_saturating_add n 1 else n in
  MkOperationMetrics (requests m)
    (bump (bool_decide (outcome = Succeeded)) (succeeded m))
    (bump (visible o outcome) (visible_mutations m))
    (bump (bool_decide (outcome = BackendError)) (backend_errors m))
    (bump (bool_decide (outcome = InjectedBefore)) (injected_before m))
    (bump (bool_decide (outcome = InjectedAfter)) (injected_after m))
    (u64_saturating_add (op_uploaded_bytes m) uploaded)
    (u64_saturating_add (op_downloaded_bytes m) downloaded).

Definition finished_event (t : RequestTicket) (path : Path) (uploaded downloaded : Z) (outcome : RequestOutcome)
    : RequestEvent :=
  MkRequestEvent (ticket_sequence t) (ticket_operation t) (ticket_occurrence t) path uploaded downloaded outcome.

(** [FaultStore::finish]. *)
Definition sim_finish (t : RequestTicket) (path : Path) (downloaded : Z) (outcome : RequestOutcome) (s : State)
    : State :=
  let uploaded := if bool_decide (outcome = InjectedBefore) then 0 else ticket_uploaded t in
  let s := update_operation (ticket_operation t)
             (count_outcome (ticket_operation t) uploaded downloaded outcome) s in
  if record_events s
  then set_metrics (MkMetrics (metrics_operations (metrics s))
                      (metrics_events (metrics s) ++ [finished_event t path uploaded downloaded outcome])) s
  else s.
End metrics.

(** ** Programs of the wrapper *)

(** [InjectedFailure]. *)
Record InjectedFailure `{ObjectPath} := MkInjectedFailure {
  injected_operation : SimOperation;
  injected_occurrence : Z;
  injected_phase : FailurePhase;
  injected_path : Path
}.
Arguments MkInjectedFailure {_} _ _ _ _.

Section store.
Context `{ObjectPath} `{StoreApi}.

(** The source of an [object_store::Error]: a boxed error of the wrapper or another one. *)
Inductive ErrorSource :=
  | Injected (failure : InjectedFailure)
  | Other (source : Foreign).

(** [object_store::Error], as far as the wrapper builds and inspects it. *)
Inductive SimError :=
  | Generic (store : string) (source : ErrorSource)
  | Precondition (path : Path) (source : ErrorSource)
  | AlreadyExists (path : Path) (source : ErrorSource)
  | AnyError (source : ErrorSource).

(** [FAULT_STORE_NAME]. *)
Definition FAULT_STORE_NAME : string := "object-log-fault-store".

(** [FaultStore::is_injected]. *)
Definition is_injected (e : SimError) : bool :=
  match e with
  | Generic store _ => bool_decide (store = FAULT_STORE_NAME)
  | Precondition _ source | AlreadyExists _ source =>
      match source with Injected _ => true | Other _ => false end
  | AnyError _ => false
  end.

Definition injected_failure (t : RequestTicket) (phase : FailurePhase) (path : Path) : InjectedFailure :=
  MkInjectedFailure (ticket_operation t) (ticket_occurrence t) phase path.

(** [FaultStore::injected_error] and [rejected_error]. *)
Definition injected_error (t : RequestTicket) (phase : FailurePhase) (path : Path) : SimError :=
  Generic FAULT_STORE_NAME (Injected (injected_failure t phase path)).
Definition rejected_error (t : RequestTicket) (path : Path) (phase : FailurePhase) (rejection : PutRejection)
    : SimError :=
  let source := Injected (injected_failure t phase path) in
  match rejection with
  | RejectPrecondition => Precondition path source
  | RejectAlreadyExists => AlreadyExists path source
  end.

(** Calls to the wrapped store. *)
Inductive Inner : Type → Type :=
  | InnerPut (location : Path) (payload : bytes) (options : PutOptions) : Inner PutResult
  | InnerPutMultipart (location : Path) (options : PutMultipartOptions) : Inner Upload
  | InnerGet (location : Path) (options : GetOptions) : Inner GetReply
  | InnerGetRanges (location : Path) (ranges : list (Z * Z)) : Inner (list bytes)
  | InnerDelete (location : Path) : Inner ()
  | InnerListWithDelimiter (prefix : option Path) : Inner ListResult
  | InnerCopy (from to : Path) (options : CopyOptions) : Inner ()
  | InnerRename (from to : Path) (options : RenameOptions) : Inner ()
  | InnerPutPart (upload : Upload) (data : bytes) : Inner ()
  | InnerComplete (upload : Upload) : Inner PutResult
  | InnerAbort (upload : Upload) : Inner ().

(** What a method does: critical sections, calls to the wrapped store, and a pause. *)
Inductive SimEvent : Type → Type :=
  | SStart (o : SimOperation) (uploaded : Z) : SimEvent RequestTicket
  | STakeFailure (t : RequestTicket) (phase : FailurePhase) : SimEvent bool
  | STakeRejected (t : RequestTicket) (phase : FailurePhase) : SimEvent (option PutRejection)
  | STakePause (t : RequestTicket) (phase : FailurePhase) : SimEvent (option Z)
  | SFinish (t : RequestTicket) (path : Path) (downloaded : Z) (outcome : RequestOutcome) : SimEvent ()
  | SInner {A} (q : Inner A) : SimEvent (Result A SimError)
  (** [self.inner.list(prefix)] and polling it. *)
  | SList (prefix : option Path) : SimEvent Listing
  | SListNext (listing : Listing) : SimEvent (option (Result ObjectMeta SimError))
  (** [pause.entered.send(())] and [pause.release.await]. *)
  | SEntered (gate : Z) : SimEvent ()
  | SReleased (gate : Z) : SimEvent ().

Inductive sim (A : Type) : Type :=
  | Ret (a : A)
  | Act {R : Type} (e : SimEvent R) (k : R → sim A).
#[local] Arguments Ret {A} a.
#[local] Arguments Act {A R} e k.

Fixpoint sbind {A B} (p : sim A) (f : A → sim B) : sim B :=
  match p with
  | Ret a => f a
  | Act e k => Act e (λ r, sbind (k r) f)
  end.

Definition act {R} (e : SimEvent R) : sim R := Act e Ret.
End store.
Arguments Ret {_ _ A} a.
Arguments Act {_ _ A R} e k.

Declare Scope sim_scope.
Delimit Scope sim_scope with sim.
Notation "'let&' x := e 'in' k" := (sbind e (fun x => k))
  (at level 10, x name, e at level 200, k at level 200) : sim_scope.
Notation "'do&' e ; k" := (sbind e (fun _ => k))
  (at level 10, e at level 200, k at level 200) : sim_scope.
#[global] Open Scope sim_scope.

Section methods.
Context `{ObjectPath} `{StoreApi}.

(** [FaultStore::enter_pause]. *)
Definition enter_pause (t : RequestTicket) (phase : FailurePhase) : sim () :=
  let& gate := act (STakePause t phase) in
  match gate with
  | None => Ret ()
  | Some gate => do& act (SEntered gate); act (SReleased gate)
  end.

(** [FaultStore::execute]. *)
Definition execute {A} (t : RequestTicket) (path : Path) (q : Inner A) (downloaded : A → Z)
    : sim (Result A SimError) :=
  do& enter_pause t Before;
  let& rejection := act (STakeRejected t Before) in
  match rejection with
  | Some rejection =>
      do& act (SFinish t path 0 InjectedBefore);
      Ret (Err (rejected_error t path Before rejection))
  | None =>
      let& fail := act (STakeFailure t Before) in
      if fail : bool then
        do& act (SFinish t path 0 InjectedBefore);
        Ret (Err (injected_error t Before path))
      else
        let& result := act (SInner q) in
        match result with
        | Ok value =>
            do& enter_pause t After;
            let& fail_after := act (STakeFailure t After) in
            let& rejected_put := act (STakeRejected t After) in
            let outcome :=
              if fail_after || match rejected_put with Some _ => true | None => false end
              then InjectedAfter else Succeeded in
            do& act (SFinish t path (downloaded value) outcome);
            Ret (match rejected_put with
                 | Some rejection => Err (rejected_error t path After rejection)
                 | None => if fail_after : bool then Err (injected_error t After path) else Ok value
                 end)
        | Err error =>
            do& act (SFinish t path 0 BackendError);
            Ret (Err error)
        end
  end.

(** [?] after [.await]. *)
Definition try_sim {A B} (p : sim (Result A SimError)) (f : A → sim (Result B SimError)) : sim (Result B SimError) :=
  let& r := p in
  match r with Ok a => f a | Err e => Ret (Err e) end.

(** [ObjectStore::put_opts]. *)
Definition put_opts (location : Path) (payload : bytes) (options : PutOptions) : sim (Result PutResult SimError) :=
  let& t := act (SStart SimPut (usize_to_u64 (len payload))) in
  execute t location (InnerPut location payload options) (λ _, 0).

(** [FaultMultipartUpload]. *)
Record FaultMultipartUpload := MkFaultUpload { upload_inner : Upload; upload_location : Path }.

(** [ObjectStore::put_multipart_opts]. *)
Definition put_multipart_opts (location : Path) (options : PutMultipartOptions)
    : sim (Result FaultMultipartUpload SimError) :=
  let& t := act (SStart MultipartCreate 0) in
  try_sim (execute t location (InnerPutMultipart location options) (λ _, 0)) (λ upload,
    Ret (Ok (MkFaultUpload upload location))).

(** [ObjectStore::get_opts]. *)
Definition get_opts (location : Path) (options : GetOptions) : sim (Result GetReply SimError) :=
  let& t := act (SStart SimGet 0) in
  let returns_body := negb (get_head options) in
  execute t location (InnerGet location options)
    (λ result, if returns_body then saturating_sub (get_range result).2 (get_range result).1 else 0).

(** [ObjectStore::get_ranges]. *)
Definition get_ranges (location : Path) (ranges : list (Z * Z)) : sim (Result (list bytes) SimError) :=
  let& t := act (SStart GetRanges 0) in
  execute t location (InnerGetRanges location ranges)
    (foldl (λ total b, u64_saturating_add total (usize_to_u64 (len b))) 0).

(** [FaultStore::delete_one]. *)
Definition delete_one (location : Path) : sim (Result Path SimError) :=
  let& t := act (SStart SimDelete 0) in
  try_sim (execute t location (InnerDelete location) (λ _, 0)) (λ _, Ret (Ok location)).

(** [ObjectStore::delete_stream], polled to its end. *)
Fixpoint delete_stream (locations : list (Result Path SimError)) : sim (list (Result Path SimError)) :=
  match locations with
  | [] => Ret []
  | location :: locations =>
      let& r := match location with Ok location => delete_one location | Err e => Ret (Err e) end in
      let& rest := delete_stream locations in
      Ret (r :: rest)
  end.

(** The stream [ObjectStore::list] returns: one error, or the unfolded listing. *)
Inductive ListStream :=
  | ListOnce (error : SimError)
  | ListUnfold (inner : Listing) (t : RequestTicket) (path : option Path) (recorded : bool)
  | ListDone.

(** [prefix.cloned().unwrap_or_default()]. *)
Context (default_path : Path).
Definition event_path_of (prefix : option Path) : Path := default default_path prefix.

(** [ObjectStore::list]. *)
Definition sim_list (prefix : option Path) : sim ListStream :=
  let& t := act (SStart SimList 0) in
  let& fail := act (STakeFailure t Before) in
  if fail : bool then
    do& act (SFinish t (event_path_of prefix) 0 InjectedBefore);
    Ret (ListOnce (injected_error t Before (event_path_of prefix)))
  else
    let& inner := act (SList prefix) in
    Ret (ListUnfold inner t prefix false).

(** Polling the stream of [list]. *)
Definition list_next (s : ListStream) : sim (option (Result ObjectMeta SimError) * ListStream) :=
  match s with
  | ListOnce error => Ret (Some (Err error), ListDone)
  | ListDone => Ret (None, ListDone)
  | ListUnfold inner t prefix recorded =>
      let& item := act (SListNext inner) in
      match item with
      | Some (Ok meta) => Ret (Some (Ok meta), ListUnfold inner t prefix recorded)
      | Some (Err error) =>
          do& (if recorded then Ret () else act (SFinish t (event_path_of prefix) 0 BackendError));
          Ret (Some (Err error), ListUnfold inner t prefix true)
      | None =>
          if recorded then Ret (None, ListDone)
          else
            let& fail := act (STakeFailure t After) in
            if fail : bool then
              do& act (SFinish t (event_path_of prefix) 0 InjectedAfter);
              Ret (Some (Err (injected_error t After (event_path_of prefix))), ListUnfold inner t prefix true)
            else
              do& act (SFinish t (event_path_of prefix) 0 Succeeded);
              Ret (None, ListDone)
      end
  end.

(** [ObjectStore::list_with_delimiter]. *)
Definition list_with_delimiter (prefix : option Path) : sim (Result ListResult SimError) :=
  let& t := act (SStart ListWithDelimiter 0) in
  execute t (event_path_of prefix) (InnerListWithDelimiter prefix) (λ _, 0).

(** [ObjectStore::copy_opts] and [rename_opts]. *)
Definition copy_opts (from to : Path) (options : CopyOptions) : sim (Result () SimError) :=
  let& t := act (SStart SimCopy 0) in
  execute t to (InnerCopy from to options) (λ _, 0).
Definition rename_opts (from to : Path) (options : RenameOptions) : sim (Result () SimError) :=
  let& t := act (SStart SimRename 0) in
  execute t to (InnerRename from to options) (λ _, 0).

(** [MultipartUpload::put_part], driven to completion. *)
Definition put_part (u : FaultMultipartUpload) (data : bytes) : sim (Result () SimError) :=
  let& t := act (SStart MultipartPart (usize_to_u64 (len data))) in
  let location := upload_location u in
  let& fail := act (STakeFailure t Before) in
  if fail : bool then
    do& act (SFinish t location 0 InjectedBefore);
    Ret (Err (injected_error t Before location))
  else
    let& result := act (SInner (InnerPutPart (upload_inner u) data)) in
    match result with
    | Ok _ =>
        let& fail := act (STakeFailure t After) in
        if fail : bool then
          do& act (SFinish t location 0 InjectedAfter);
          Ret (Err (injected_error t After location))
        else
          do& act (SFinish t location 0 Succeeded);
          Ret (Ok ())
    | Err error =>
        do& act (SFinish t location 0 BackendError);
        Ret (Err error)
    end.

(** [MultipartUpload::complete] and [abort]. *)
Definition complete (u : FaultMultipartUpload) : sim (Result PutResult SimError) :=
  let& t := act (SStart MultipartComplete 0) in
  execute t (upload_location u) (InnerComplete (upload_inner u)) (λ _, 0).
Definition abort (u : FaultMultipartUpload) : sim (Result () SimError) :=
  let& t := act (SStart MultipartAbort 0) in
  execute t (upload_location u) (InnerAbort (upload_inner u)) (λ _, 0).
End methods.
