(* ===== verification/SimProps.v ===== *)
(** * The fault-injecting store behaves as documented

    What one request of the wrapper does and reports, and what its counters, tickets and
    scheduled faults satisfy under every interleaving of requests and test controls. *)

From S2P Require Import Prelude Types Head Prog Sim.

(** ** Traces of one request *)

Record SEv `{ObjectPath} `{StoreApi} := MkSEv { sev_type : Type; sev_event : SimEvent sev_type; sev_answer : sev_type }.
Arguments MkSEv {_ _ _} sev_event sev_answer.

Section traces.
Context `{ObjectPath} `{StoreApi}.

Fixpoint sreturns {A} (p : sim A) (tr : list SEv) (a : A) : Prop :=
  match p with
  | Ret a' => tr = [] ∧ a = a'
  | Act e k => ∃ r tr', tr = MkSEv e r :: tr' ∧ sreturns (k r) tr' a
  end.

Lemma sreturns_bind {A B} (p : sim A) (f : A → sim B) tr b :
  sreturns (sbind p f) tr b ↔
  ∃ tr1 tr2 a, tr = tr1 ++ tr2 ∧ sreturns p tr1 a ∧ sreturns (f a) tr2 b.
Proof.
  revert tr. induction p as [a|R e k IH]; intros tr; simpl.
  - split; [intros Hr; by exists [], tr, a|]. by intros (? & ? & ? & -> & [-> ->] & Hr).
  - split.
    + intros (r & tr' & -> & (tr1 & tr2 & a & -> & Hp & Hf)%IH).
      exists (MkSEv e r :: tr1), tr2, a. split_and!; [done| |done]. by exists r, tr1.
    + intros (? & tr2 & a & -> & (r & tr' & -> & Hp) & Hf). exists r, (tr' ++ tr2). split; [done|].
      apply IH. by exists tr', tr2, a.
Qed.

(** The answers of the wrapped store to calls, and the recorded outcomes. *)
Definition calls_inner (ev : SEv) : bool :=
  match sev_event ev with SInner _ => true | _ => false end.
Definition inner_calls (tr : list SEv) : list SEv := List.filter calls_inner tr.
Definition outcomes (tr : list SEv) : list (RequestTicket * Path * Z * RequestOutcome) :=
  omap (λ ev, match sev_event ev with SFinish t path downloaded o => Some (t, path, downloaded, o) | _ => None end) tr.

Lemma inner_calls_app tr tr' : inner_calls (tr ++ tr') = inner_calls tr ++ inner_calls tr'.
Proof. unfold inner_calls. induction tr as [|ev tr IH]; simpl; [done|]. destruct (calls_inner ev); by rewrite IH. Qed.
Lemma outcomes_app tr tr' : outcomes (tr ++ tr') = outcomes tr ++ outcomes tr'.
Proof. apply omap_app. Qed.

(** A request is recorded once.  An injected failure before the call reaches the wrapped
    store without a call; otherwise the store is called once, and the caller gets its
    answer unless a failure after the call hides a success. *)
Definition request_spec {A} (t : RequestTicket) (path : Path) (q : Inner A) (downloaded : A → Z)
    (tr : list SEv) (r : Result A SimError) : Prop :=
  ∃ n outcome, outcomes tr = [(t, path, n, outcome)]
  ∧ match outcome with
    | InjectedBefore => inner_calls tr = [] ∧ n = 0 ∧ ∃ e, r = Err e ∧ is_injected e = true
    | BackendError => ∃ e, inner_calls tr = [MkSEv (SInner q) (Err e)] ∧ n = 0 ∧ r = Err e
    | Succeeded => ∃ v, inner_calls tr = [MkSEv (SInner q) (Ok v)] ∧ n = downloaded v ∧ r = Ok v
    | InjectedAfter => ∃ v e, inner_calls tr = [MkSEv (SInner q) (Ok v)] ∧ n = downloaded v
        ∧ r = Err e ∧ is_injected e = true
    end.

Lemma enter_pause_quiet t phase tr r :
  sreturns (enter_pause t phase) tr r → outcomes tr = [] ∧ inner_calls tr = [].
Proof.
  intros (gate & tr' & -> & Hr). destruct gate as [gate|]; simpl in Hr.
  - destruct Hr as ([] & tr1 & -> & [] & tr2 & -> & -> & _). done.
  - by destruct Hr as [-> _].
Qed.

Lemma injected_rejected t path phase rejection : is_injected (rejected_error t path phase rejection) = true.
Proof. by destruct rejection. Qed.

Lemma injected_generic t path phase : is_injected (injected_error t phase path) = true.
Proof. unfold is_injected, injected_error. by apply bool_decide_eq_true_2. Qed.

Lemma execute_spec {A} t path (q : Inner A) downloaded tr r :
  sreturns (execute t path q downloaded) tr r → request_spec t path q downloaded tr r.
Proof.
  unfold execute. intros (tr1 & tr2 & ? & -> & [Ho1 Hi1]%enter_pause_quiet & Hr)%sreturns_bind.
  unfold request_spec. rewrite outcomes_app, inner_calls_app, Ho1, Hi1. cbn [app].
  destruct Hr as ([rejection|] & tr3 & -> & Hr); cbn [sbind act] in Hr.
  { destruct Hr as ([] & tr4 & -> & -> & ->). exists 0, InjectedBefore. split_and!; try done.
    eexists. split; [done|apply injected_rejected]. }
  destruct Hr as ([|] & tr4 & -> & Hr); cbn [sbind act] in Hr.
  { destruct Hr as ([] & tr5 & -> & -> & ->). exists 0, InjectedBefore. split_and!; try done.
    eexists. split; [done|apply injected_generic]. }
  destruct Hr as ([value|error] & tr5 & -> & Hr); cbn [sbind act] in Hr.
  2:{ destruct Hr as ([] & tr6 & -> & -> & ->). exists 0, BackendError. split; [done|]. by exists error. }
  apply sreturns_bind in Hr as (tr6 & tr7 & ? & -> & [Ho6 Hi6]%enter_pause_quiet & Hr).
  destruct Hr as (fail_after & tr8 & -> & rejected & tr9 & -> & [] & tr10 & -> & -> & ->).
  change (outcomes (MkSEv (STakeRejected t Before) None :: MkSEv (STakeFailure t Before) false
    :: MkSEv (SInner q) (Ok value) :: ?tr)) with (outcomes tr).
  change (inner_calls (MkSEv (STakeRejected t Before) None :: MkSEv (STakeFailure t Before) false
    :: MkSEv (SInner q) (Ok value) :: ?tr)) with (MkSEv (SInner q) (Ok value) :: inner_calls tr).
  rewrite outcomes_app, inner_calls_app, Ho6, Hi6.
  destruct rejected as [rejection|], fail_after; (eexists _, _; split; [reflexivity|]; cbn);
    (exists value; eauto using injected_rejected, injected_generic).
Qed.

Lemma put_part_spec u data tr r :
  sreturns (put_part u data) tr r →
  ∃ t tr', tr = MkSEv (SStart MultipartPart (usize_to_u64 (len data))) t :: tr'
    ∧ request_spec t (upload_location u) (InnerPutPart (upload_inner u) data) (λ _, 0) tr' r.
Proof.
  intros (t & tr1 & -> & Hr). exists t, tr1. split; [done|]. simpl in Hr.
  destruct Hr as ([|] & tr2 & -> & Hr); simpl in Hr.
  { destruct Hr as ([] & tr3 & -> & -> & ->). exists 0, InjectedBefore. split_and!; try done.
    eexists. split; [done|apply injected_generic]. }
  destruct Hr as ([[]|error] & tr3 & -> & Hr); simpl in Hr.
  2:{ destruct Hr as ([] & tr4 & -> & -> & ->). exists 0, BackendError. split; [done|]. by exists error. }
  destruct Hr as ([|] & tr4 & -> & Hr); simpl in Hr; destruct Hr as ([] & tr5 & -> & -> & ->).
  - exists 0, InjectedAfter. split; [done|]. eexists (), _. split_and!; [done..|apply injected_generic].
  - exists 0, Succeeded. split; [done|]. by exists ().
Qed.
(** A request reports what happened to it: a scheduled failure before the call returns
    an injected error and never reaches the wrapped store; otherwise the wrapped store is
    called exactly once with the caller's request, its error is passed through, and its
    success is passed through or, when a failure is scheduled after the call, hidden behind
    an injected error; the outcome is recorded once, with the bytes received. *)
Theorem requests_report_their_outcome :
  (∀ A t path (q : Inner A) downloaded tr r,
     sreturns (execute t path q downloaded) tr r → request_spec t path q downloaded tr r)
  ∧ (∀ location payload options tr r, sreturns (put_opts location payload options) tr r →
     ∃ t tr', tr = MkSEv (SStart SimPut (usize_to_u64 (len payload))) t :: tr'
       ∧ request_spec t location (InnerPut location payload options) (λ _, 0) tr' r)
  ∧ (∀ u data tr r, sreturns (put_part u data) tr r →
     ∃ t tr', tr = MkSEv (SStart MultipartPart (usize_to_u64 (len data))) t :: tr'
       ∧ request_spec t (upload_location u) (InnerPutPart (upload_inner u) data) (λ _, 0) tr' r).
Proof.
  split; [intros A; apply execute_spec|]. split; [|apply put_part_spec].
  intros location payload options tr r (t & tr' & -> & Hr). exists t, tr'. split; [done|]. by apply execute_spec.
Qed.
End traces.

(** ** Concurrent requests *)

Section concurrent.
Context `{ObjectPath} `{StoreApi}.

(** The effect of an event on the shared state; answers of the wrapped store and of
    pauses are arbitrary. *)
Definition perform (s : State) {R} (e : SimEvent R) : R → State → Prop :=
  match e in SimEvent R return R → State → Prop with
  | SStart o uploaded => λ r s', start o uploaded s = (r, s')
  | STakeFailure t phase => λ r s', take_failure t phase s = (r, s')
  | STakeRejected t phase => λ r s', take_rejected_put t phase s = (r, s')
  | STakePause t phase => λ r s', take_pause t phase s = (r, s')
  | SFinish t path downloaded outcome => λ _ s', s' = sim_finish t path downloaded outcome s
  | _ => λ _ s', s' = s
  end.

(** The ticket a task holds: issued by [start], given back by [finish]. *)
Definition hold {R} (e : SimEvent R) : R → option RequestTicket → option RequestTicket :=
  match e in SimEvent R return R → option RequestTicket → option RequestTicket with
  | SStart _ _ => λ t _, Some t
  | SFinish _ _ _ _ => λ _ _, None
  | _ => λ _ h, h
  end.

Definition uses {R} (e : SimEvent R) (h : option RequestTicket) : Prop :=
  match e with
  | SStart _ _ => h = None
  | STakeFailure t _ | STakeRejected t _ | STakePause t _ | SFinish t _ _ _ => h = Some t
  | _ => True
  end.

(** The program starts only without a ticket and otherwise works for the one it holds. *)
Fixpoint owes {A} (h : option RequestTicket) (p : sim A) (Q : option RequestTicket → A → Prop) : Prop :=
  match p with
  | Ret a => Q h a
  | Act e k => uses e h ∧ ∀ r, owes (hold e r h) (k r) Q
  end.

Lemma owes_bind {A B} (p : sim A) (f : A → sim B) Q : ∀ h,
  owes h p (λ h' a, owes h' (f a) Q) → owes h (sbind p f) Q.
Proof. induction p as [a|R e k IH]; intros h; simpl; [done|]. intros [Hu Hk]. split; [done|]. eauto. Qed.

Lemma owes_mono {A} (p : sim A) (Q Q' : option RequestTicket → A → Prop) : ∀ h,
  (∀ h a, Q h a → Q' h a) → owes h p Q → owes h p Q'.
Proof. induction p as [a|R e k IH]; intros h HQ; simpl; [apply HQ|]. intros [Hu Hk]. split; [done|]. eauto. Qed.

Lemma enter_pause_owes t phase : owes (Some t) (enter_pause t phase) (λ h _, h = Some t).
Proof. split; [done|]. by intros [gate|]. Qed.

Lemma execute_owes {A} t path (q : Inner A) downloaded :
  owes (Some t) (execute t path q downloaded) (λ h _, h = None).
Proof.
  unfold execute. apply owes_bind. eapply owes_mono; [|apply enter_pause_owes]. intros h _ ->.
  split; [done|]. intros [rejection|]; [by split|]. split; [done|]. intros [|]; [by split|].
  split; [done|]. intros [value|error]; [|by split]. cbn [sbind act].
  apply owes_bind. eapply owes_mono; [|apply enter_pause_owes]. intros h _ ->.
  split; [done|]. intros fail. split; [done|]. intros rejected. by split.
Qed.

Lemma method_owes {A B} o uploaded path (q : RequestTicket → Inner A) downloaded (f : Result A SimError → sim B) :
  (∀ r, owes None (f r) (λ h _, h = None)) →
  owes None (let& t := act (SStart o uploaded) in let& r := execute t path (q t) downloaded in f r) (λ h _, h = None).
Proof.
  intros Hf. split; [done|]. intros t. cbn [sbind act hold]. apply owes_bind. eapply owes_mono; [|apply execute_owes]. by intros h r ->.
Qed.

Lemma method_owes_ret {A} o uploaded path (q : Inner A) downloaded :
  owes None (let& t := act (SStart o uploaded) in execute t path q downloaded) (λ h _, h = None).
Proof. split; [done|]. intros t. apply execute_owes. Qed.

(** A consumer that polls the stream of [list] at most [n] times. *)
Context (default_path : Path).

Fixpoint poll_list (n : nat) (s : ListStream) : sim (list (Result ObjectMeta SimError)) :=
  match n with
  | O => Ret []
  | S n =>
      let& r := list_next default_path s in
      match r.1 with
      | None => Ret []
      | Some item => let& rest := poll_list n r.2 in Ret (item :: rest)
      end
  end.

Definition stream_holds (s : ListStream) : option RequestTicket :=
  match s with ListUnfold _ t _ false => Some t | _ => None end.

Lemma poll_list_owes n : ∀ s, owes (stream_holds s) (poll_list n s) (λ _ _, True).
Proof.
  induction n as [|n IH]; intros s; [done|]. cbn [poll_list].
  assert (∀ s' (item : Result ObjectMeta SimError), owes (stream_holds s')
    (let& rest := poll_list n s' in Ret (item :: rest)) (λ _ _, True)) as Hrest.
  { intros s' item. apply owes_bind. eapply owes_mono; [|apply IH]. done. }
  destruct s as [error|inner t prefix recorded|]; [apply (Hrest ListDone)| |done].
  cbn [list_next sbind act]. split; [by destruct recorded|].
  intros [[meta|error]|]; cbn [sbind].
  - apply (Hrest (ListUnfold inner t prefix recorded)).
  - destruct recorded; [apply (Hrest (ListUnfold inner t prefix true))|]. split; [done|]. intros [].
    apply (Hrest (ListUnfold inner t prefix true)).
  - destruct recorded; [done|]. split; [done|]. intros [|]; (split; [done|]); intros [];
      [apply (Hrest (ListUnfold inner t prefix true))|done].
Qed.

(** The methods of the store, as tasks that start without a ticket. *)
Inductive method : ∀ A, sim A → Prop :=
  | method_put location payload options : method _ (put_opts location payload options)
  | method_put_multipart location options : method _ (put_multipart_opts location options)
  | method_get location options : method _ (get_opts location options)
  | method_get_ranges location ranges : method _ (get_ranges location ranges)
  | method_delete locations : method _ (delete_stream locations)
  | method_list prefix n : method _ (let& s := sim_list default_path prefix in poll_list n s)
  | method_list_with_delimiter prefix : method _ (list_with_delimiter default_path prefix)
  | method_copy from to options : method _ (copy_opts from to options)
  | method_rename from to options : method _ (rename_opts from to options)
  | method_put_part u data : method _ (put_part u data)
  | method_complete u : method _ (complete u)
  | method_abort u : method _ (abort u).

Lemma delete_stream_owes locations : owes None (delete_stream locations) (λ h _, h = None).
Proof.
  induction locations as [|location locations IH]; [done|]. cbn [delete_stream]. apply owes_bind.
  assert (∀ r : Result Path SimError, owes None (let& rest := delete_stream locations in Ret (r :: rest)) (λ h _, h = None)) as Hrest.
  { intros r. apply owes_bind. eapply owes_mono; [|exact IH]. by intros h a ->. }
  destruct location as [location|e]; [|apply Hrest].
  unfold delete_one, try_sim. split; [done|]. intros t. cbn [sbind act hold]. apply owes_bind. eapply owes_mono; [|apply execute_owes].
  intros h r ->. destruct r; apply Hrest.
Qed.

Lemma method_starts A (p : sim A) : method A p → owes None p (λ _ _, True).
Proof.
  destruct 1.
  - eapply owes_mono; [|apply method_owes_ret]. done.
  - unfold put_multipart_opts, try_sim. eapply owes_mono; [|apply (method_owes _ _ _ (λ _, InnerPutMultipart _ _))]; [done|].
    by intros [].
  - eapply owes_mono; [|apply method_owes_ret]. done.
  - eapply owes_mono; [|apply method_owes_ret]. done.
  - eapply owes_mono; [|apply delete_stream_owes]. done.
  - split; [done|]. intros t. split; [done|]. intros [|]; cbn [sbind act].
    + split; [done|]. intros []. apply (poll_list_owes n (ListOnce _)).
    + split; [done|]. intros inner. apply (poll_list_owes n (ListUnfold inner t _ false)).
  - eapply owes_mono; [|apply method_owes_ret]. done.
  - eapply owes_mono; [|apply method_owes_ret]. done.
  - eapply owes_mono; [|apply method_owes_ret]. done.
  - split; [done|]. intros t. split; [done|]. intros [|]; cbn [sbind act]; [by split|].
    split; [done|]. intros [[]|error]; cbn [sbind act]; [|by split]. split; [done|]. by intros [|].
  - eapply owes_mono; [|apply method_owes_ret]. done.
  - eapply owes_mono; [|apply method_owes_ret]. done.
Qed.

(** Test controls that keep the metrics. *)
Inductive control : State → State → Prop :=
  | control_schedule f s : control s (schedule f s)
  | control_fail_next o phase s : control s (fail_next o phase s)
  | control_reject occurrence phase rejection s : control s (reject_put_at occurrence phase rejection s)
  | control_clear s : control s (clear_failures s)
  | control_record enabled s : control s (set_record_events enabled s)
  | control_pause_next o phase gate s s' : pause_next o phase gate s = Some s' → control s s'
  | control_pause_at o occurrence phase gate s s' : pause_at o occurrence phase gate s = Some s' → control s s'.

Record STask := MkSTask {
  st_type : Type;
  st_ticket : option RequestTicket;
  st_prog : sim st_type
}.

(** The store, its running requests and the tickets of requests that were dropped. *)
Record Harness := MkHarness {
  h_state : State;
  h_tasks : list STask;
  h_lost : list RequestTicket
}.

Definition open_tickets (h : Harness) : list RequestTicket := omap st_ticket (h_tasks h) ++ h_lost h.

Inductive harness_step : Harness → Harness → Prop :=
  | harness_call s tasks lost A (p : sim A) :
      method A p → harness_step (MkHarness s tasks lost) (MkHarness s (tasks ++ [MkSTask A None p]) lost)
  | harness_act s s' tasks tasks' lost A t R (e : SimEvent R) (k : R → sim A) r :
      perform s e r s' →
      harness_step (MkHarness s (tasks ++ MkSTask A t (Act e k) :: tasks') lost)
        (MkHarness s' (tasks ++ MkSTask A (hold e r t) (k r) :: tasks') lost)
  | harness_control s s' tasks lost :
      control s s' → harness_step (MkHarness s tasks lost) (MkHarness s' tasks lost)
  | harness_drop s tasks t tasks' lost :
      harness_step (MkHarness s (tasks ++ t :: tasks') lost)
        (MkHarness s (tasks ++ tasks') (option_list (st_ticket t) ++ lost)).

Definition harness_init : Harness := MkHarness state_default [] [].

(** *** A request that runs alone *)

(** The wrapped store and pauses, by a function of each event. *)
Definition Oracle : Type := ∀ R, SimEvent R → R.

Definition perform_alone (oracle : Oracle) (s : State) {R} (e : SimEvent R) : R * State :=
  match e in SimEvent R return (R : Type) * State with
  | SStart o uploaded => start o uploaded s
  | STakeFailure t phase => take_failure t phase s
  | STakeRejected t phase => take_rejected_put t phase s
  | STakePause t phase => take_pause t phase s
  | SFinish t path downloaded outcome => ((), sim_finish t path downloaded outcome s)
  | SInner q => (oracle _ (SInner q), s)
  | SList prefix => (oracle _ (SList prefix), s)
  | SListNext listing => (oracle _ (SListNext listing), s)
  | SEntered gate => ((), s)
  | SReleased gate => ((), s)
  end.

Fixpoint run_alone {A} (oracle : Oracle) (p : sim A) (held : option RequestTicket) (s : State)
    : A * option RequestTicket * State :=
  match p with
  | Ret a => (a, held, s)
  | Act e k => let '(r, s) := perform_alone oracle s e in run_alone oracle (k r) (hold e r held) s
  end.

Fixpoint trace_alone {A} (oracle : Oracle) (p : sim A) (s : State) : list SEv :=
  match p with
  | Ret _ => []
  | Act e k => MkSEv e (perform_alone oracle s e).1
      :: trace_alone oracle (k (perform_alone oracle s e).1) (perform_alone oracle s e).2
  end.

Lemma run_alone_returns {A} oracle (p : sim A) : ∀ held s,
  sreturns p (trace_alone oracle p s) (run_alone oracle p held s).1.1.
Proof.
  induction p as [a|R e k IH]; intros held s; simpl; [done|].
  destruct (perform_alone oracle s e) as [r s1]. simpl. exists r, (trace_alone oracle (k r) s1). eauto.
Qed.

Lemma perform_alone_ok oracle s R (e : SimEvent R) :
  perform s e (perform_alone oracle s e).1 (perform_alone oracle s e).2.
Proof.
  destruct e; simpl; try done; by destruct (_ : _ * State).
Qed.

Lemma run_alone_steps {A} oracle (p : sim A) : ∀ held s tasks lost,
  rtc harness_step (MkHarness s (tasks ++ [MkSTask A held p]) lost)
    (MkHarness (run_alone oracle p held s).2
       (tasks ++ [MkSTask A (run_alone oracle p held s).1.2 (Ret (run_alone oracle p held s).1.1)]) lost).
Proof.
  induction p as [a|R e k IH]; intros held s tasks lost; simpl; [apply rtc_refl|].
  pose proof (perform_alone_ok oracle s R e) as Hp. destruct (perform_alone oracle s e) as [r s1].
  eapply rtc_l; [|exact (IH r (hold e r held) s1 tasks lost)]. by apply harness_act.
Qed.
End concurrent.
