(* ===== verification/SimAccounting.v ===== *)
(** * Counters, tickets and faults of the fault-injecting store

    Invariants of the wrapper's state under every interleaving of requests, dropped
    requests and test controls. *)

From S2P Require Import Prelude Types Head Prog Sim SimProps.

(** ** Counters *)

Section counters.
Context `{ObjectPath} `{StoreApi}.

Definition of_operation (o : SimOperation) (t : RequestTicket) : bool := bool_decide (ticket_operation t = o).

Definition count_open (o : SimOperation) (open : list RequestTicket) : Z := len (List.filter (of_operation o) open).

Lemma count_open_cons o t open :
  count_open o (t :: open) = count_open o open + if of_operation o t then 1 else 0.
Proof. unfold count_open. simpl. destruct (of_operation o t); rewrite ?len_cons; lia. Qed.

Lemma count_open_perm o open open' : open ≡ₚ open' → count_open o open = count_open o open'.
Proof. induction 1; rewrite ?count_open_cons; try done; lia. Qed.

Lemma count_open_nonneg o open : 0 ≤ count_open o open.
Proof. apply len_nonneg. Qed.

(** Every request is counted once: as completed with its outcome or as still open. *)
Record counted (o : SimOperation) (m : OperationMetrics) (open : Z) : Prop := {
  counted_succeeded : 0 ≤ succeeded m;
  counted_backend : 0 ≤ backend_errors m;
  counted_before : 0 ≤ injected_before m;
  counted_after : 0 ≤ injected_after m;
  counted_requests : requests m < u64_max →
    requests m = succeeded m + backend_errors m + injected_before m + injected_after m + open;
  counted_visible : requests m < u64_max →
    visible_mutations m = if is_mutation o then succeeded m + injected_after m else 0
}.

Definition op_metrics (s : State) (o : SimOperation) : OperationMetrics := metrics_operation (metrics s) o.

Lemma op_metrics_update s o f o' :
  op_metrics (update_operation o f s) o' = if decide (o = o') then f (op_metrics s o) else op_metrics s o'.
Proof.
  unfold op_metrics, metrics_operation, update_operation. simpl. destruct (decide (o = o')) as [<-|Hne].
  - by rewrite lookup_insert_eq.
  - by rewrite lookup_insert_ne.
Qed.

Lemma counted_start o m open :
  0 ≤ open → counted o m open → counted o (count_request m) (open + 1).
Proof.
  intros Ho [? ? ? ? Hr Hv]. split; simpl; try done; unfold u64_saturating_add; intros Hlt.
  - destruct (Z.min_spec (requests m + 1) u64_max); lia.
  - apply Hv. destruct (Z.min_spec (requests m + 1) u64_max); lia.
Qed.

Lemma counted_finish o m open uploaded downloaded outcome :
  0 ≤ open → counted o m (open + 1) → counted o (count_outcome o uploaded downloaded outcome m) open.
Proof.
  intros Ho [? ? ? ? Hr Hv].
  destruct outcome; split; unfold count_outcome, visible;
    cbn [requests succeeded visible_mutations backend_errors injected_before injected_after];
    repeat (case_bool_decide; try done); try (unfold u64_saturating_add, u64_max; lia);
    intros Hlt; specialize (Hr Hlt); try specialize (Hv Hlt); destruct (is_mutation o); cbn [andb]; unfold u64_saturating_add, u64_max in *; lia.
Qed.
End counters.

(** ** Tickets *)

Section tickets.
Context `{ObjectPath} `{StoreApi}.

Definition ticket_number (o : SimOperation) (t : RequestTicket) : option Z :=
  if bool_decide (ticket_operation t = o) then Some (ticket_occurrence t) else None.
Definition event_number (o : SimOperation) (e : RequestEvent) : option Z :=
  if bool_decide (event_operation e = o) then Some (event_occurrence e) else None.

(** The occurrences of an operation that are open or recorded. *)
Definition numbers (s : State) (open : list RequestTicket) (o : SimOperation) : list Z :=
  omap (ticket_number o) open ++ omap (event_number o) (metrics_events (metrics s)).

Record accounts (s : State) (open : list RequestTicket) : Prop := {
  acc_counted o : counted o (op_metrics s o) (count_open o open);
  acc_numbers o : requests (op_metrics s o) < u64_max →
    NoDup (numbers s open o) ∧ Forall (λ n, 1 ≤ n ≤ requests (op_metrics s o)) (numbers s open o)
}.

Lemma accounts_perm s open open' : open ≡ₚ open' → accounts s open → accounts s open'.
Proof.
  intros Hp [Hc Hn]. split; intros o.
  - by rewrite <-(count_open_perm o open open').
  - intros Hlt. destruct (Hn o Hlt) as [Hd Hall]. assert (numbers s open o ≡ₚ numbers s open' o) as Hnp.
    { unfold numbers. by rewrite Hp. }
    split; [by rewrite <-Hnp|by rewrite <-Hnp].
Qed.

Lemma accounts_same s s' open : metrics s' = metrics s → accounts s open → accounts s' open.
Proof. intros Hm [Hc Hn]. unfold op_metrics, numbers in *. split; intros o; unfold op_metrics, numbers; rewrite Hm; auto. Qed.

Lemma accounts_init : accounts state_default [].
Proof.
  assert (∀ o, op_metrics state_default o = no_metrics) as E.
  { intros o. unfold op_metrics, metrics_operation. simpl. by rewrite lookup_empty. }
  split; intros o; rewrite E.
  - split; try done. by destruct (is_mutation o).
  - intros _. split; constructor.
Qed.

Lemma start_metrics s o uploaded t s' :
  start o uploaded s = (t, s') →
  ticket_operation t = o ∧ ticket_occurrence t = u64_saturating_add (requests (op_metrics s o)) 1
  ∧ metrics_events (metrics s') = metrics_events (metrics s)
  ∧ ∀ o', op_metrics s' o' = if decide (o = o') then count_request (op_metrics s o) else op_metrics s o'.
Proof.
  unfold start. intros [= <- <-]. set (s0 := MkState _ _ _ _ _ _).
  split_and!; [done| |done|].
  - cbn [ticket_occurrence]. unfold metrics_operation at 1. cbn [metrics_operations].
    by rewrite lookup_insert_eq.
  - intros o'. by rewrite op_metrics_update.
Qed.

Lemma accounts_start s o uploaded t s' open :
  start o uploaded s = (t, s') → accounts s open →
  accounts s' (t :: open).
Proof.
  intros (Ho & Hocc & Hev & Hm)%start_metrics [Hc Hn].
  split; intros o'; rewrite Hm.
  - rewrite count_open_cons. unfold of_operation. rewrite Ho. destruct (decide (o = o')) as [<-|Hne].
    + rewrite bool_decide_eq_true_2 by done. apply counted_start; [apply count_open_nonneg|done].
    + rewrite bool_decide_eq_false_2, Z.add_0_r by done. done.
  - assert (numbers s' (t :: open) o' = option_list (ticket_number o' t) ++ numbers s open o') as ->.
    { unfold numbers. rewrite Hev. simpl. by destruct (ticket_number o' t). }
    unfold ticket_number. rewrite Ho, Hocc. destruct (decide (o = o')) as [<-|Hne].
    + rewrite bool_decide_eq_true_2 by done. cbn [requests count_request option_list app]. intros Hlt.
      assert (requests (op_metrics s o) < u64_max) as Hlt' by (unfold u64_saturating_add in Hlt; lia).
      destruct (Hn o Hlt') as [Hd Hall].
      assert (u64_saturating_add (requests (op_metrics s o)) 1 = requests (op_metrics s o) + 1) as ->
        by (unfold u64_saturating_add; lia).
      assert (0 ≤ requests (op_metrics s o)) as Hpos.
      { destruct (Hc o) as [? ? ? ? Hr _]. specialize (Hr Hlt'). pose proof (count_open_nonneg o open). lia. }
      split.
      * constructor; [|done]. rewrite Forall_forall in Hall. intros Hin%Hall. lia.
      * constructor; [lia|]. eapply Forall_impl; [exact Hall|]. simpl. lia.
    + rewrite bool_decide_eq_false_2 by done. intros Hlt. by apply (Hn o').
Qed.

Lemma accounts_finish s t path downloaded outcome open :
  accounts s (t :: open) → accounts (sim_finish t path downloaded outcome s) open.
Proof.
  intros [Hc Hn]. unfold sim_finish.
  set (uploaded := if bool_decide _ then _ else _).
  set (s1 := update_operation (ticket_operation t) (count_outcome (ticket_operation t) uploaded downloaded outcome) s).
  assert (∀ o, counted o (op_metrics s1 o) (count_open o open)) as Hc1.
  { intros o. unfold s1. rewrite op_metrics_update. specialize (Hc o).
    rewrite count_open_cons in Hc. unfold of_operation in Hc. destruct (decide (ticket_operation t = o)) as [<-|Hne].
    - rewrite bool_decide_eq_true_2 in Hc by done. apply counted_finish; [apply count_open_nonneg|done].
    - by rewrite bool_decide_eq_false_2, Z.add_0_r in Hc by done. }
  assert (∀ o, requests (op_metrics s1 o) = requests (op_metrics s o)) as Hreq.
  { intros o. unfold s1. rewrite op_metrics_update. by destruct (decide _) as [<-|]. }
  assert (∀ o, numbers s (t :: open) o ≡ₚ
    option_list (ticket_number o t) ++ numbers s open o) as Hnum.
  { intros o. unfold numbers. simpl. by destruct (ticket_number o t). }
  destruct (record_events s1).
  - split; [done|]. intros o. change (op_metrics (set_metrics _ s1) o) with (op_metrics s1 o). rewrite Hreq. intros Hlt.
    destruct (Hn o Hlt) as [Hd Hall].
    assert (numbers (set_metrics (MkMetrics (metrics_operations (metrics s1)) (metrics_events (metrics s1)
      ++ [finished_event t path uploaded downloaded outcome])) s1) open o ≡ₚ numbers s (t :: open) o) as Hp.
    { rewrite Hnum. unfold numbers. simpl. rewrite omap_app. simpl.
      change (event_number o (finished_event t path uploaded downloaded outcome)) with (ticket_number o t).
      destruct (ticket_number o t); simpl; rewrite ?app_nil_r; [|done].
      rewrite app_assoc. by rewrite Permutation_app_comm. }
    split; [by rewrite Hp|by rewrite Hp].
  - split; [done|]. intros o. rewrite Hreq. intros Hlt. destruct (Hn o Hlt) as [Hd Hall].
    rewrite Hnum in Hd, Hall. apply NoDup_app in Hd as (_ & _ & Hd). apply Forall_app in Hall as [_ Hall]. done.
Qed.
End tickets.

(** ** Scheduled faults *)

Section faults.
Context `{ObjectPath} `{StoreApi}.

Definition failure_key (f : Failure) : SimOperation * Z := (failure_operation f, failure_occurrence f).
Definition rejection_key (r : Z * FailurePhase * PutRejection) : SimOperation * Z := (SimPut, r.1.1).

(** The requests that a scheduled fault is waiting for. *)
Definition fault_keys (s : State) : list (SimOperation * Z) :=
  (failure_key <$> failures s) ++ (rejection_key <$> rejected_puts s).

Lemma elem_of_List_filter {A} (test : A → bool) l x : x ∈ List.filter test l ↔ x ∈ l ∧ test x = true.
Proof. rewrite !list_elem_of_In. apply filter_In. Qed.

Lemma filter_sublist {A} (test : A → bool) l : List.filter test l `sublist_of` l.
Proof. induction l as [|x l IH]; simpl; [constructor|]. destruct (test x); by constructor. Qed.

Lemma fmap_filter_sublist {A B} (f : A → B) test l : f <$> List.filter test l `sublist_of` f <$> l.
Proof. induction l as [|x l IH]; simpl; [constructor|]. destruct (test x); by constructor. Qed.

Lemma take_first_Some {A} (test : A → bool) l x rest :
  take_first test l = Some (x, rest) → test x = true ∧ l ≡ₚ x :: rest.
Proof.
  revert rest. induction l as [|y l IH]; intros rest; simpl; [done|]. destruct (test y) eqn:E; [by intros [= <- <-]|].
  destruct (take_first test l) as [[z l']|]; [|done]. intros [= <- <-].
  destruct (IH l' eq_refl) as [Ht Hp]. split; [done|]. rewrite Hp. apply Permutation_swap.
Qed.

Lemma take_first_None {A} (test : A → bool) l : take_first test l = None → ∀ x, x ∈ l → test x = false.
Proof.
  induction l as [|y l IH]; simpl; [by intros _ x ?%elem_of_nil|]. destruct (test y) eqn:E; [done|].
  destruct (take_first test l) as [[z l']|]; [done|]. intros _ x [->|Hx]%elem_of_cons; [done|by apply IH].
Qed.

(** A new fault replaces the one scheduled for the same request. *)
Lemma schedule_keys o occurrence phase f r s :
  f = MkFailure o occurrence phase →
  r = (if bool_decide (o = SimPut) then List.filter (other_rejection occurrence) (rejected_puts s) else rejected_puts s) →
  NoDup (fault_keys s) →
  NoDup (fault_keys (set_faults (List.filter (other_failure o occurrence) (failures s) ++ [f]) r s)).
Proof.
  intros -> -> Hd. unfold fault_keys. simpl. rewrite fmap_app, <-app_assoc. cbn [fmap list_fmap app].
  rewrite <-Permutation_middle. apply NoDup_cons. split.
  - rewrite elem_of_app, !list_elem_of_fmap. intros [(f & Heq & [_ Ho]%elem_of_List_filter)|(x & Heq & Hx)].
    + unfold other_failure in Ho. injection Heq as E1 E2. simpl in E1, E2. rewrite <-E1, <-E2 in Ho.
      by rewrite bool_decide_eq_true_2, Z.eqb_refl in Ho.
    + injection Heq as E1 E2. simpl in E1, E2. rewrite bool_decide_eq_true_2 in Hx by done.
      apply elem_of_List_filter in Hx as [_ Hx]. unfold other_rejection in Hx. by rewrite <-E2, Z.eqb_refl in Hx.
  - eapply sublist_NoDup; [exact Hd|]. apply sublist_app; [apply fmap_filter_sublist|].
    destruct (bool_decide _); [apply fmap_filter_sublist|done].
Qed.

Lemma reject_keys occurrence phase rejection s :
  NoDup (fault_keys s) → NoDup (fault_keys (reject_put_at occurrence phase rejection s)).
Proof.
  intros Hd. unfold fault_keys, reject_put_at. simpl. rewrite fmap_app, app_assoc. cbn [fmap list_fmap app].
  rewrite Permutation_app_comm. apply NoDup_cons. split.
  - rewrite elem_of_app, !list_elem_of_fmap.
    intros [(f & Heq & [_ Ho]%elem_of_List_filter)|(x & Heq & [_ Ho]%elem_of_List_filter)].
    + unfold other_failure in Ho. injection Heq as E1 E2. simpl in E1, E2. rewrite <-E1, <-E2 in Ho.
      by rewrite bool_decide_eq_true_2, Z.eqb_refl in Ho.
    + unfold other_rejection in Ho. injection Heq as E2. simpl in E2. by rewrite <-E2, Z.eqb_refl in Ho.
  - eapply sublist_NoDup; [exact Hd|]. apply sublist_app; apply fmap_filter_sublist.
Qed.

Lemma control_keys s s' : control s s' → NoDup (fault_keys s) → NoDup (fault_keys s').
Proof.
  destruct 1 as [f s|o phase s|occurrence phase rejection s|s|enabled s|o phase gate s s' Hp|o n phase gate s s' Hp]; intros Hd.
  - destruct f as [o n phase]. by eapply schedule_keys.
  - by eapply schedule_keys.
  - by apply reject_keys.
  - constructor.
  - done.
  - unfold pause_next, schedule_pause in Hp. destruct (pause s); by inversion Hp.
  - unfold pause_at, schedule_pause in Hp. destruct (pause s); by inversion Hp.
Qed.

Lemma control_metrics s s' : control s s' → metrics s' = metrics s.
Proof.
  destruct 1 as [f s|o phase s|occurrence phase rejection s|s|enabled s|o phase gate s s' Hp|o n phase gate s s' Hp]; try done.
  - unfold pause_next, schedule_pause in Hp. destruct (pause s); by inversion Hp.
  - unfold pause_at, schedule_pause in Hp. destruct (pause s); by inversion Hp.
Qed.

(** A fault fires exactly when it is scheduled for the request and phase, and nothing stays
    scheduled for that request. *)
Lemma take_failure_keys t phase s b s' :
  take_failure t phase s = (b, s') → NoDup (fault_keys s) →
  NoDup (fault_keys s') ∧ metrics s' = metrics s
  ∧ (b = true ↔ MkFailure (ticket_operation t) (ticket_occurrence t) phase ∈ failures s)
  ∧ (b = true → (ticket_operation t, ticket_occurrence t) ∉ fault_keys s').
Proof.
  unfold take_failure. destruct (take_first _ (failures s)) as [[f rest]|] eqn:E; intros [= <- <-] Hd.
  - apply take_first_Some in E as [Ht Hp]. unfold same_phase in Ht. bool_hyps. subst phase.
    assert (f = MkFailure (ticket_operation t) (ticket_occurrence t) (failure_phase f)) as Hf
      by (destruct f; simpl in *; f_equal; [done|lia]).
    assert (fault_keys s ≡ₚ failure_key f :: fault_keys (set_faults rest (rejected_puts s) s)) as Hk.
    { unfold fault_keys. cbn [failures rejected_puts set_faults]. by rewrite Hp. }
    rewrite Hk in Hd. apply NoDup_cons in Hd as [Hn Hd]. split_and!; [done|done| |].
    + split; [|done]. intros _. rewrite Hp, <-Hf. left.
    + intros _. rewrite Hf in Hn. exact Hn.
  - pose proof (take_first_None _ _ E) as Hnone. split_and!; [done|done| |done]. split; [done|].
    intros Hin%Hnone. unfold same_phase in Hin. simpl in Hin.
    by rewrite !bool_decide_eq_true_2, Z.eqb_refl in Hin.
Qed.

Lemma take_rejected_keys t phase s b s' :
  take_rejected_put t phase s = (b, s') → NoDup (fault_keys s) →
  NoDup (fault_keys s') ∧ metrics s' = metrics s
  ∧ (is_Some b ↔ ticket_operation t = SimPut ∧ ∃ rejection, (ticket_occurrence t, phase, rejection) ∈ rejected_puts s)
  ∧ (is_Some b → (ticket_operation t, ticket_occurrence t) ∉ fault_keys s').
Proof.
  unfold take_rejected_put. destruct (negb _) eqn:Hop.
  { intros [= <- <-] Hd. bool_hyps. split_and!; [done|done| |by intros [? ?]].
    split; [by intros [? ?]|]. by intros [? _]. }
  bool_hyps. destruct (take_first _ (rejected_puts s)) as [[r rest]|] eqn:E; intros [= <- <-] Hd.
  - apply take_first_Some in E as [Ht Hp]. unfold same_phase in Ht. bool_hyps.
    assert (r = (ticket_occurrence t, phase, r.2)) as Hr
      by (destruct r as [[n p] k]; simpl in *; by repeat f_equal; [lia|]).
    assert (fault_keys s ≡ₚ rejection_key r :: fault_keys (set_faults (failures s) rest s)) as Hk.
    { unfold fault_keys. cbn [failures rejected_puts set_faults]. rewrite Hp. cbn [fmap list_fmap].
      by rewrite Permutation_middle. }
    rewrite Hk in Hd. apply NoDup_cons in Hd as [Hn Hd]. split_and!; [done|done| |].
    + split; [|by eexists]. intros _. split; [done|]. exists r.2. rewrite <-Hr, Hp. left.
    + intros _. rewrite Hop. unfold rejection_key in Hn. by rewrite Hr in Hn.
  - pose proof (take_first_None _ _ E) as Hnone. split_and!; [done|done| |by intros [? ?]]. split; [by intros [? ?]|].
    intros (_ & k & Hin%Hnone). unfold same_phase in Hin. simpl in Hin.
    by rewrite bool_decide_eq_true_2, Z.eqb_refl in Hin.
Qed.
End faults.

(** ** The harness *)

Section harness.
Context `{ObjectPath} `{StoreApi} (default_path : Path).

Local Abbreviation step := (harness_step default_path).

Record harness_ok (h : Harness) : Prop := {
  ok_accounts : accounts (h_state h) (open_tickets h);
  ok_faults : NoDup (fault_keys (h_state h));
  ok_tasks : Forall (λ t, owes (st_ticket t) (st_prog t) (λ _ _, True)) (h_tasks h)
}.

Lemma open_middle s tasks t tasks' lost :
  open_tickets (MkHarness s (tasks ++ t :: tasks') lost)
  ≡ₚ option_list (st_ticket t) ++ open_tickets (MkHarness s (tasks ++ tasks') lost).
Proof.
  unfold open_tickets. cbn [h_tasks h_lost]. rewrite !omap_app. cbn [omap list_omap].
  destruct (st_ticket t) as [x|]; cbn [option_list app]; [|done].
  rewrite <-!app_assoc. cbn [app]. by rewrite <-Permutation_middle.
Qed.

(** The shared state and the tickets after one event of a task. *)
Lemma perform_ok R (e : SimEvent R) r s s' held open :
  uses e held → perform s e r s' → accounts s (option_list held ++ open) → NoDup (fault_keys s) →
  accounts s' (option_list (hold e r held) ++ open) ∧ NoDup (fault_keys s').
Proof.
  intros Hu Hp Hacc Hd. destruct e as [o uploaded|t phase|t phase|t phase|t path downloaded outcome| | | | |];
    simpl in Hu, Hp |- *; try (by subst s').
  - subst held. split; [by eapply accounts_start|]. unfold start in Hp. by injection Hp as _ <-.
  - destruct (take_failure_keys _ _ _ _ _ Hp Hd) as (Hd' & Hm & _). split; [by eapply accounts_same|done].
  - destruct (take_rejected_keys _ _ _ _ _ Hp Hd) as (Hd' & Hm & _). split; [by eapply accounts_same|done].
  - assert (metrics s' = metrics s ∧ fault_keys s' = fault_keys s) as [Hm Hk].
    { unfold take_pause in Hp. destruct (pause s); [destruct (_ && _)|]; by injection Hp as <- <-. }
    split; [by eapply accounts_same|by rewrite Hk].
  - subst held s'. split; [by apply accounts_finish|]. unfold sim_finish. by destruct (record_events _).
Qed.

Lemma harness_ok_init : harness_ok harness_init.
Proof. split; [apply accounts_init|constructor|constructor]. Qed.

Lemma harness_ok_step h h' : harness_ok h → step h h' → harness_ok h'.
Proof.
  intros [Hacc Hd Ht] Hs. destruct Hs as [s tasks lost A p Hm|s s' tasks tasks' lost A t R e k r Hp|s s' tasks lost Hc
    |s tasks t tasks' lost]; simpl in *.
  - split; simpl; [|done|].
    + eapply accounts_perm; [|exact Hacc]. unfold open_tickets. simpl. rewrite omap_app. simpl. by rewrite app_nil_r.
    + apply Forall_app. split; [done|]. constructor; [by eapply method_starts|constructor].
  - apply Forall_app in Ht as [Ht1 Ht2]. apply Forall_cons in Ht2 as [[Hu Hk] Ht2].
    apply (accounts_perm _ _ _ (open_middle _ _ _ _ _)) in Hacc. cbn [st_ticket h_state] in Hacc.
    destruct (perform_ok _ _ _ _ _ _ _ Hu Hp Hacc Hd) as [Hacc' Hd']. split; simpl; [|done|].
    + eapply accounts_perm; [|exact Hacc']. by rewrite open_middle.
    + apply Forall_app. split; [done|]. constructor; [apply Hk|done].
  - split; simpl; [|by eapply control_keys|done]. eapply accounts_same; [by apply control_metrics|done].
  - apply Forall_app in Ht as [Ht1 Ht2]. apply Forall_cons in Ht2 as [_ Ht2]. split; simpl; [|done|by apply Forall_app].
    eapply accounts_perm; [|exact Hacc]. rewrite open_middle. unfold open_tickets. simpl.
    rewrite !app_assoc. by rewrite (Permutation_app_comm (option_list _)).
Qed.

Lemma harness_ok_steps h h' : rtc step h h' → harness_ok h → harness_ok h'.
Proof. induction 1 as [|h0 h1 h' Hs _ IH]; intros Hi; [done|]. by eapply IH, harness_ok_step. Qed.

Lemma harness_reachable h : rtc step harness_init h → harness_ok h.
Proof. intros Hs. eapply harness_ok_steps; [done|apply harness_ok_init]. Qed.


(** Faults are one-shot and deterministic: at most one fault waits for any request; the
    request it was scheduled for takes it, in its phase and no other request does; and once
    taken nothing is scheduled for that request any more. *)
Theorem faults_fire_once h t phase :
  rtc step harness_init h →
  NoDup (fault_keys (h_state h))
  ∧ (∀ b s', take_failure t phase (h_state h) = (b, s') →
       (b = true ↔ MkFailure (ticket_operation t) (ticket_occurrence t) phase ∈ failures (h_state h))
       ∧ (b = true → (ticket_operation t, ticket_occurrence t) ∉ fault_keys s'))
  ∧ (∀ b s', take_rejected_put t phase (h_state h) = (b, s') →
       (is_Some b ↔ ticket_operation t = SimPut
          ∧ ∃ rejection, (ticket_occurrence t, phase, rejection) ∈ rejected_puts (h_state h))
       ∧ (is_Some b → (ticket_operation t, ticket_occurrence t) ∉ fault_keys s')).
Proof.
  intros Hs. destruct (harness_reachable h Hs) as [_ Hd _]. split; [done|]. split; intros b s' Ht.
  - by destruct (take_failure_keys _ _ _ _ _ Ht Hd) as (_ & _ & ? & ?).
  - by destruct (take_rejected_keys _ _ _ _ _ Ht Hd) as (_ & _ & ? & ?).
Qed.
End harness.
