(* ===== verification/WalTransport.v ===== *)
(** * Transport of the WAL component

    [examples/wal-component/src/transport.rs] and [request_retry.rs]: the byte and call
    budget of a session, the replay of idempotent requests, the race of an upload with its
    response, and the bounded writes of an upload. *)

From Stdlib Require Import Strings.Byte.
From stdpp Require Import pretty.
From S2P Require Import Prelude Types.

(** ** The budget of a session *)

Record Budget := MkBudget {
  max_calls : Z;
  max_bytes : Z;
  calls : Z;
  transferred : Z
}.

(** [Budget::charge]: one [fetch_update]; [None] leaves the counter unchanged. *)
Definition charge (counter limit amount : Z) : option Z :=
  next ← u64_checked_add counter amount;
  if next <=? limit then Some next else None.

(** [Budget::call] and [transfer]: the new budget, and whether the charge was accepted. *)
Definition budget_call (b : Budget) : bool * Budget :=
  match charge (calls b) (max_calls b) 1 with
  | Some n => (true, MkBudget (max_calls b) (max_bytes b) n (transferred b))
  | None => (false, b)
  end.

Definition budget_transfer (bytes : Z) (b : Budget) : bool * Budget :=
  match u64_try_from bytes with
  | None => (false, b)
  | Some bytes =>
      match charge (transferred b) (max_bytes b) bytes with
      | Some n => (true, MkBudget (max_calls b) (max_bytes b) (calls b) n)
      | None => (false, b)
      end
  end.

(** [Transport::new] and [usage]. *)
Definition transport_new (max_calls max_bytes : Z) : option Budget :=
  if (max_calls =? 0) || (max_bytes =? 0) then None else Some (MkBudget max_calls max_bytes 0 0).
Definition transport_usage (b : Budget) : Z * Z := (calls b, transferred b).

Inductive Charge := ChargeCall | ChargeBytes (bytes : Z).

Definition apply_charge (c : Charge) (b : Budget) : bool * Budget :=
  match c with ChargeCall => budget_call b | ChargeBytes bytes => budget_transfer bytes b end.

(** Charges in the order they reach the shared counters. *)
Fixpoint apply_charges (cs : list Charge) (b : Budget) : list bool * Budget :=
  match cs with
  | [] => ([], b)
  | c :: cs =>
      let '(accepted, b) := apply_charge c b in
      let '(rest, b) := apply_charges cs b in
      (accepted :: rest, b)
  end.

(** What the accepted charges add up to. *)
Definition charged_calls (cs : list Charge) (accepted : list bool) : Z :=
  foldr (λ x total, match x with (ChargeCall, true) => 1 + total | _ => total end) 0 (zip cs accepted).
Definition charged_bytes (cs : list Charge) (accepted : list bool) : Z :=
  foldr (λ x total, match x with (ChargeBytes n, true) => n + total | _ => total end) 0 (zip cs accepted).

Lemma charge_Some counter limit amount n :
  charge counter limit amount = Some n ↔ n = counter + amount ∧ n ≤ limit ∧ n ≤ u64_max.
Proof.
  unfold charge, u64_checked_add. destruct (_ <=? u64_max) eqn:E; simpl; [destruct (_ <=? limit) eqn:E'|];
    (split; [intros [= <-]|intros (-> & ? & ?)]); try lia; try done; f_equal; lia.
Qed.

(** Whatever charges interleave, usage is the sum of the accepted charges and never exceeds
    the limits, and a charge is refused only when it would exceed one. *)
Lemma budget_exact cs : ∀ b, 0 ≤ calls b ≤ max_calls b → 0 ≤ transferred b ≤ max_bytes b →
  let '(accepted, b') := apply_charges cs b in
  length accepted = length cs
  ∧ calls b' = calls b + charged_calls cs accepted ∧ 0 ≤ calls b' ≤ max_calls b
  ∧ transferred b' = transferred b + charged_bytes cs accepted ∧ 0 ≤ transferred b' ≤ max_bytes b.
Proof.
  induction cs as [|c cs IH]; intros b Hc Ht; simpl; [unfold charged_calls, charged_bytes; simpl; split_and!; lia|].
  assert (∀ a b1, apply_charge c b = (a, b1) → max_calls b1 = max_calls b ∧ max_bytes b1 = max_bytes b
    ∧ 0 ≤ calls b1 ≤ max_calls b ∧ 0 ≤ transferred b1 ≤ max_bytes b
    ∧ calls b1 = calls b + charged_calls [c] [a] ∧ transferred b1 = transferred b + charged_bytes [c] [a]) as Hone.
  { intros a b1. destruct c as [|n]; simpl; unfold budget_call, budget_transfer, charged_calls, charged_bytes; simpl.
    - destruct (charge _ _ _) as [m|] eqn:E; [apply charge_Some in E as (-> & ? & ?)|]; intros [= <- <-]; simpl; lia.
    - destruct (u64_try_from n) as [n'|] eqn:En; [apply u64_try_from_Some in En as [-> ?]|intros [= <- <-]; lia].
      destruct (charge _ _ _) as [m|] eqn:E; [apply charge_Some in E as (-> & ? & ?)|]; intros [= <- <-]; simpl; lia. }
  destruct (apply_charge c b) as [a b1]. destruct (Hone a b1 eq_refl) as (E1 & E2 & H1' & H2' & E3 & E4).
  specialize (IH b1). rewrite E1, E2 in IH. specialize (IH H1' H2'). destruct (apply_charges cs b1) as [accepted b'].
  destruct IH as (Hl & Hcalls & ? & Hbytes & ?). unfold charged_calls, charged_bytes in *. simpl in *.
  destruct c, a; simpl in *; split_and!; lia.
Qed.

(** ** Replay of requests *)

(** [http::Method], as far as the code distinguishes it. *)
Inductive HttpMethod := GET | HEAD | PUT | OtherMethod (name : string).
#[global] Instance HttpMethod_eq_dec : EqDecision HttpMethod.
Proof. solve_decision. Defined.

(** [http::Uri]. *)
Record Uri := MkUri {
  uri_scheme : option string;
  uri_authority : option bytes;
  uri_path : bytes;
  uri_path_and_query : option bytes
}.

(** [http::Request]: header names in lower case, every value of a repeated name. *)
Record HttpRequest := MkHttpRequest {
  request_method : HttpMethod;
  request_uri : Uri;
  request_headers : list (string * bytes);
  request_body : bytes
}.

Definition IF_MATCH : string := "if-match".
Definition IF_NONE_MATCH : string := "if-none-match".

(** [condition(name)] of [retry_request]: the header's value when it has exactly one. *)
Definition condition (r : HttpRequest) (name : string) : option bytes :=
  match omap (λ h : string * bytes, if bool_decide (h.1 = name) then Some h.2 else None) (request_headers r) with
  | [value] => Some value
  | _ => None
  end.

(** A quoted entity tag with no other quote or comma: a single strong validator. *)
Definition quote : byte := x22.
Definition comma : byte := x2c.
Definition single_tag (value : bytes) : bool :=
  (2 <=? len value) && bool_decide (head value = Some quote) && bool_decide (last value = Some quote)
  && negb (existsb (λ b, bool_decide (b = quote) || bool_decide (b = comma))
             (take (length value - 2) (drop 1 value))).

Definition is_read (r : HttpRequest) : bool :=
  (bool_decide (request_method r = GET) || bool_decide (request_method r = HEAD)) && (len (request_body r) =? 0).
Definition is_create (r : HttpRequest) : bool :=
  match condition r IF_NONE_MATCH with Some v => bool_decide (v = str "*") | None => false end.
Definition is_update (r : HttpRequest) : bool :=
  match condition r IF_MATCH with Some v => single_tag v | None => false end.
Definition conditional_put (r : HttpRequest) : bool :=
  bool_decide (request_method r = PUT) && (is_create r || is_update r).

Section retry.
(** [HttpResponse] and [HttpError] of [object_store::client]. *)
Context {HttpResponse HttpError : Type} (status : HttpResponse → Z).

Definition Answer : Type := Result HttpResponse HttpError.

(** Attempts of a request. *)
Inductive http (A : Type) :=
  | HDone (a : A)
  | HAttempt (r : HttpRequest) (k : Answer → http A).
#[local] Arguments HDone {A} a.
#[local] Arguments HAttempt {A} r k.

Definition is_success (r : HttpResponse) : bool := (200 <=? status r) && (status r <? 300).

(** [retry_request]. *)
Definition retry_request (request : HttpRequest) (retryable_error : HttpError → bool) : http Answer :=
  if negb (is_read request) && negb (conditional_put request)
  then HAttempt request HDone
  else
    HAttempt request (λ first,
      match first with
      | Ok response => HDone (Ok response)
      | Err error =>
          if retryable_error error then
            HAttempt request (λ response,
              HDone (if is_read request || match response with Ok r => is_success r | Err _ => false end
                     then response else Err error))
          else HDone (Err error)
      end).

Fixpoint hreturns {A} (p : http A) (tr : list (HttpRequest * Answer)) (a : A) : Prop :=
  match p with
  | HDone a' => tr = [] ∧ a = a'
  | HAttempt r k => ∃ answer tr', tr = (r, answer) :: tr' ∧ hreturns (k answer) tr' a
  end.

(** A request is sent at most twice and only unchanged: the second time only for a read
    without a body or a write with exactly one create or strong update condition, and only
    after a retryable error; the replay's answer is used for a read or when it succeeded,
    and otherwise the caller keeps the first error, so an uncertain write stays uncertain. *)
Theorem replay_is_bounded request retryable_error tr a :
  hreturns (retry_request request retryable_error) tr a →
  (tr = [(request, a)])
  ∨ (∃ error second, tr = [(request, Err error); (request, second)] ∧ retryable_error error = true
     ∧ (is_read request = true ∨ conditional_put request = true)
     ∧ a = if is_read request || match second with Ok r => is_success r | Err _ => false end
           then second else Err error).
Proof.
  unfold retry_request. destruct (negb _ && negb _) eqn:Hkind.
  { intros (answer & tr' & -> & -> & ->). by left. }
  assert (is_read request = true ∨ conditional_put request = true) as Hreplay.
  { apply andb_false_iff in Hkind as [?%negb_false_iff|?%negb_false_iff]; auto. }
  intros ([response|error] & tr' & -> & Hr); simpl in Hr.
  { destruct Hr as [-> ->]. by left. }
  destruct (retryable_error error) eqn:Hretry.
  - destruct Hr as (second & tr2 & -> & -> & ->). right. by exists error, second.
  - destruct Hr as [-> ->]. by left.
Qed.
End retry.
Arguments HDone {_ _ A} a.
Arguments HAttempt {_ _ A} r k.

(** ** Upload and response *)

Section exchange.
Context {T E : Type} (is_success : T → bool).

(** Which of the two futures of [finish_exchange] completes first. *)
Inductive Completed := UploadFirst | ResponseFirst.

(** [finish_exchange]; a response that settles the exchange drops the upload. *)
Definition finish_exchange (order : Completed) (upload : Result () E) (response : Result T E) : Result T E :=
  match order with
  | UploadFirst =>
      match upload with
      | Ok _ => response
      | Err upload_error =>
          match response with
          | Ok r => if negb (is_success r) then Ok r else Err upload_error
          | Err _ => Err upload_error
          end
      end
  | ResponseFirst =>
      match response with
      | Ok r => if negb (is_success r) then Ok r else match upload with Ok _ => Ok r | Err e => Err e end
      | Err e => match upload with Ok _ => Err e | Err e' => Err e' end
      end
  end.

(** The order does not matter: a definite rejection wins, then an upload error, then the
    response. *)
Lemma finish_exchange_order order upload response :
  finish_exchange order upload response
  = match response with
    | Ok r => if negb (is_success r) then Ok r else match upload with Ok _ => Ok r | Err e => Err e end
    | Err e => match upload with Ok _ => Err e | Err e' => Err e' end
    end.
Proof. destruct order, upload as [[]|e], response as [r|e']; simpl; try done; by destruct (is_success r). Qed.
End exchange.

(** ** Writing a chunk *)

Section write_chunk.
Context `{Target} {E : Type}.

(** [write_chunk] against the answers of [check_write] and [write], in order: the pieces it
    wrote, and its result unless it is still pending. *)
Fixpoint write_chunk (b : bytes) (answers : list (Result Z E * Result () E)) : list bytes * option (Result () E) :=
  match b with
  | [] => ([], Some (Ok ()))
  | _ :: _ =>
      match answers with
      | [] => ([], None)
      | (Err e, _) :: _ => ([], Some (Err e))
      | (Ok available, written) :: answers =>
          if available =? 0 then write_chunk b answers
          else
            let count := Z.to_nat (Z.min (default usize_max (usize_try_from available)) (len b)) in
            match written with
            | Err e => ([], Some (Err e))
            | Ok _ =>
                let '(pieces, r) := write_chunk (drop count b) answers in
                (take count b :: pieces, r)
            end
      end
  end.

(** The pieces are a prefix of the chunk, all of it on success. *)
Lemma write_chunk_prefix answers : ∀ b pieces r,
  write_chunk b answers = (pieces, r) →
  concat pieces `prefix_of` b ∧ (r = Some (Ok ()) → concat pieces = b).
Proof.
  induction answers as [|[available written] answers IH]; intros [|x b] pieces r; simpl.
  - by intros [= <- <-].
  - intros [= <- <-]. split; [apply prefix_nil|done].
  - intros [= <- <-]. by destruct available, written.
  - destruct available as [available|e]; [|intros [= <- <-]; split; [apply prefix_nil|done]].
    destruct (available =? 0); [apply IH|]. destruct written as [[]|e].
    + set (count := Z.to_nat _). destruct (write_chunk (drop count (x :: b)) answers) as [pieces' r'] eqn:Ew.
      intros [= <- <-]. destruct (IH _ _ _ Ew) as [Hp Hr]. cbn [concat]. rewrite <-(take_drop count (x :: b)) at 2 4.
      split; [by apply prefix_app|]. intros Hok. by rewrite Hr.
    + intros [= <- <-]. split; [apply prefix_nil|done].
Qed.
End write_chunk.

(** ** One exchange *)

(** The headers [Service::call_once] sends, from the exact size of the body when it is
    known; [HeaderMap::insert] replaces every value of a name. *)
Definition EXPECT : string := "expect".
Definition CONTENT_LENGTH : string := "content-length".

Definition contains_key (headers : list (string * bytes)) (name : string) : bool :=
  existsb (λ h, bool_decide (h.1 = name)) headers.
Definition insert_header (name : string) (value : bytes) (headers : list (string * bytes)) : list (string * bytes) :=
  filter (λ h, h.1 ≠ name) headers ++ [(name, value)].

Definition decimal (n : Z) : bytes := str (pretty (Z.to_N n)).

Definition outgoing_headers (method : HttpMethod) (headers : list (string * bytes)) (exact : option Z)
    : list (string * bytes) :=
  let headers :=
    if bool_decide (method = PUT) && (contains_key headers IF_MATCH || contains_key headers IF_NONE_MATCH)
       && match exact with Some length => 0 <? length | None => false end
    then insert_header EXPECT (str "100-continue") headers
    else headers in
  if negb (contains_key headers CONTENT_LENGTH)
  then match exact with Some length => insert_header CONTENT_LENGTH (decimal length) headers | None => headers end
  else headers.

(** The first-byte and between-bytes limits: one second for the metadata service. *)
Definition METADATA_AUTHORITY : bytes := str "169.254.169.254".
Definition read_timeout (authority : option bytes) (path : bytes) (configured : option Z) : option Z :=
  if bool_decide (authority = Some METADATA_AUTHORITY)
     && bool_decide (take (length (str "/latest/")) path = str "/latest/")
  then Some 1000000000 else configured.

(** [Transport::connect]: an overall timeout is refused, the two others are nanoseconds. *)
Definition connect (timeout : bool) (connect_nanos read_nanos : option (option Z)) : option (option Z * option Z) :=
  let duration (d : option (option Z)) : option (option Z) :=
    match d with
    | None => Some None
    | Some None => None
    | Some (Some nanos) => Some <$> u64_try_from nanos
    end in
  if timeout then None
  else
    c ← duration connect_nanos;
    r ← duration read_nanos;
    Some (c, r).

Section call_once.
Context `{Target} {E : Type} (quota : E).

(** The [upload] future: each data frame is charged before it is written; [None] is a
    trailer frame.  The pieces written, its result, and the budget. *)
Fixpoint upload (frames : list (Result (option bytes) E)) (answers : list (list (Result Z E * Result () E)))
    (finished : Result () E) (b : Budget) : list bytes * option (Result () E) * Budget :=
  match frames with
  | [] => ([], Some finished, b)
  | Err e :: _ => ([], Some (Err e), b)
  | Ok None :: frames => upload frames answers finished b
  | Ok (Some data) :: frames =>
      match budget_transfer (len data) b with
      | (false, b) => ([], Some (Err quota), b)
      | (true, b) =>
          let '(pieces, r) := write_chunk data (default [] (head answers)) in
          match r with
          | Some (Ok _) =>
              let '(rest, r, b) := upload frames (tail answers) finished b in
              (pieces ++ rest, r, b)
          | _ => (pieces, r, b)
          end
      end
  end.

(** The body of the response: each chunk is charged before it is delivered, and the
    consumer stops at the first error. *)
Fixpoint response_chunks (chunks : list (Result bytes E)) (b : Budget) : list bytes * option E * Budget :=
  match chunks with
  | [] => ([], None, b)
  | Err e :: _ => ([], Some e, b)
  | Ok chunk :: chunks =>
      match budget_transfer (len chunk) b with
      | (false, b) => ([], Some quota, b)
      | (true, b) =>
          let '(rest, e, b) := response_chunks chunks b in
          (chunk :: rest, e, b)
      end
  end.

Lemma budget_transfer_spec n b : ∀ accepted b', budget_transfer n b = (accepted, b') → 0 ≤ n →
  max_bytes b' = max_bytes b ∧ (max_calls b' = max_calls b ∧ calls b' = calls b)
  ∧ transferred b' = transferred b + (if accepted then n else 0)
  ∧ (accepted = true → transferred b' ≤ max_bytes b)
  ∧ (accepted = false → max_bytes b < transferred b + n ∨ u64_max < transferred b + n ∨ u64_max < n).
Proof.
  intros accepted b'. unfold budget_transfer. destruct (u64_try_from n) as [n'|] eqn:En.
  - apply u64_try_from_Some in En as [-> Hn]. destruct (charge _ _ _) as [m|] eqn:Ec.
    + apply charge_Some in Ec as (-> & ? & ?). intros [= <- <-] ?. simpl. split_and!; try done; lia.
    + intros [= <- <-] ?. split_and!; try done; [lia|]. intros _.
      destruct (decide (transferred b + n ≤ max_bytes b)); [|lia].
      destruct (decide (transferred b + n ≤ u64_max)); [|lia].
      exfalso. assert (charge (transferred b) (max_bytes b) n = Some (transferred b + n)) by (by apply charge_Some).
      congruence.
  - intros [= <- <-] ?. split_and!; try done; [lia|]. intros _. right; right.
    destruct (decide (n ≤ u64_max)); [|lia]. exfalso.
    unfold u64_try_from, in_u64 in En. case_match; [done|]. lia.
Qed.

(** An upload writes no more bytes than it was charged for. *)
Lemma upload_charged frames : ∀ answers finished b pieces r b',
  upload frames answers finished b = (pieces, r, b') →
  max_bytes b' = max_bytes b ∧ (max_calls b' = max_calls b ∧ calls b' = calls b)
  ∧ transferred b + len (concat pieces) ≤ transferred b'
  ∧ (transferred b ≤ max_bytes b → transferred b' ≤ max_bytes b).
Proof.
  induction frames as [|[[data|]|e] frames IH]; intros answers finished b pieces r b'; simpl.
  - intros [= <- <- <-]. change (len (concat [])) with 0. lia.
  - destruct (budget_transfer _ _) as [[] b1] eqn:Eb;
      apply budget_transfer_spec in Eb as (Hm & [Hmc Hcalls] & Ht & Hle & _); try apply len_nonneg.
    + destruct (write_chunk _ _) as [p1 r1] eqn:Ew. apply write_chunk_prefix in Ew as [[k Hk] _].
      assert (len (concat p1) ≤ len data) as Hp.
      { rewrite Hk, len_app. pose proof (len_nonneg k). lia. }
      destruct r1 as [[[]|e]|].
      * destruct (upload frames _ _ _) as [[p2 r2] b2] eqn:Eu. apply IH in Eu as (Hm' & [Hmc' Hcalls'] & Hlen & Hle').
        intros [= <- <- <-]. rewrite concat_app, len_app. specialize (Hle eq_refl). split_and!; lia.
      * intros [= <- <- <-]. specialize (Hle eq_refl). split_and!; lia.
      * intros [= <- <- <-]. specialize (Hle eq_refl). split_and!; lia.
    + intros [= <- <- <-]. change (len (concat [])) with 0. split_and!; lia.
  - apply IH.
  - intros [= <- <- <-]. change (len (concat [])) with 0. lia.
Qed.

(** A consumer receives exactly the bytes it was charged for. *)
Lemma response_charged chunks : ∀ b delivered e b',
  response_chunks chunks b = (delivered, e, b') →
  max_bytes b' = max_bytes b
  ∧ transferred b' = transferred b + len (concat delivered)
  ∧ (transferred b ≤ max_bytes b → transferred b' ≤ max_bytes b).
Proof.
  induction chunks as [|[chunk|e] chunks IH]; intros b delivered e' b'; simpl.
  - intros [= <- <- <-]. change (len (concat [])) with 0. lia.
  - destruct (budget_transfer _ _) as [[] b1] eqn:Eb;
      apply budget_transfer_spec in Eb as (Hm & _ & Ht & Hle & _); try apply len_nonneg.
    + destruct (response_chunks _ _) as [[d2 e2] b2] eqn:Er. apply IH in Er as (Hm' & Hlen & Hle').
      intros [= <- <- <-]. simpl. rewrite len_app. specialize (Hle eq_refl). split_and!; lia.
    + intros [= <- <- <-]. change (len (concat [])) with 0. split_and!; lia.
  - intros [= <- <- <-]. change (len (concat [])) with 0. lia.
Qed.
End call_once.

(** ** Digests of signed requests *)

(** [object_store::client::DigestAlgorithm], as far as the code distinguishes it. *)
Inductive DigestAlgorithm := Sha256 | OtherAlgorithm (name : string).

Section crypto.
(** The [sha2] and [hmac] crates: a digest of the bytes absorbed so far, and an
    authentication of them under a key made from a secret. *)
Context {Key E : Type} (sha256 : bytes → bytes) (new_from_slice : bytes → option Key) (hmac : Key → bytes → bytes).
Context (unsupported : E).

(** [Hash] and [Authentication]: what was absorbed, and the last result. *)
Record Hash := MkHash { hash_state : bytes; hash_output : bytes }.
Record Authentication := MkAuthentication { auth_key : Key; auth_state : bytes; auth_output : bytes }.

Definition zeros : bytes := replicate 32 x00.

(** [Crypto::digest], [hmac] and [sign]. *)
Definition crypto_digest (algorithm : DigestAlgorithm) : Result Hash E :=
  match algorithm with Sha256 => Ok (MkHash [] zeros) | _ => Err unsupported end.
Definition crypto_hmac (algorithm : DigestAlgorithm) (secret : bytes) : Result Authentication E :=
  match algorithm with
  | Sha256 => let? key := ok_or (new_from_slice secret) unsupported in Ok (MkAuthentication key [] zeros)
  | _ => Err unsupported
  end.
Definition crypto_sign (secret : bytes) : Result () E := Err unsupported.

(** [update] and [finish]; [finish] works on a copy, so a context can go on. *)
Definition hash_update (h : Hash) (data : bytes) : Hash := MkHash (hash_state h ++ data) (hash_output h).
Definition hash_finish (h : Hash) : bytes * Hash := (sha256 (hash_state h), MkHash (hash_state h) (sha256 (hash_state h))).
Definition auth_update (a : Authentication) (data : bytes) : Authentication :=
  MkAuthentication (auth_key a) (auth_state a ++ data) (auth_output a).
Definition auth_finish (a : Authentication) : bytes * Authentication :=
  (hmac (auth_key a) (auth_state a), MkAuthentication (auth_key a) (auth_state a) (hmac (auth_key a) (auth_state a))).

(** Uses of a context, in order. *)
Inductive ContextUse := Update (data : bytes) | Finish.

Fixpoint use_hash (uses : list ContextUse) (h : Hash) : list bytes :=
  match uses with
  | [] => []
  | Update data :: uses => use_hash uses (hash_update h data)
  | Finish :: uses => let '(digest, h) := hash_finish h in digest :: use_hash uses h
  end.

Fixpoint use_auth (uses : list ContextUse) (a : Authentication) : list bytes :=
  match uses with
  | [] => []
  | Update data :: uses => use_auth uses (auth_update a data)
  | Finish :: uses => let '(tag, a) := auth_finish a in tag :: use_auth uses a
  end.

(** What each [Finish] should see: everything absorbed before it. *)
Fixpoint absorbed (uses : list ContextUse) (before : bytes) : list bytes :=
  match uses with
  | [] => []
  | Update data :: uses => absorbed uses (before ++ data)
  | Finish :: uses => before :: absorbed uses before
  end.

(** However updates are split and however often a result is asked for in between, each
    result is the digest, or the authentication, of all the data given before it. *)
Lemma contexts_exact uses :
  (∀ h, use_hash uses h = sha256 <$> absorbed uses (hash_state h))
  ∧ (∀ a, use_auth uses a = hmac (auth_key a) <$> absorbed uses (auth_state a)).
Proof. split; induction uses as [|[data|] uses IH]; intros c; simpl; rewrite ?IH; done. Qed.
End crypto.
