(* ===== verification/WalExchange.v ===== *)
(** * HTTP exchanges of the WAL component

    The rest of [examples/wal-component/src/transport.rs]: building the outgoing request,
    one exchange ([Service::call_once]) and a call with its replay ([Service::call]), over
    arbitrary answers of the WASI host.  Every attempt is charged before it is sent, and
    bodies are charged in both directions. *)

From Stdlib Require Import Strings.Byte.
From S2P Require Import Prelude Types WalTransport.

(** ** Errors *)

(** [wasi::http::types::ErrorCode], as far as the code distinguishes it. *)
Inductive ErrorCode :=
  | ConnectionTerminated
  | ConnectionReadTimeout
  | HttpResponseIncomplete
  | HttpProtocolError
  | OtherCode (name : string).

(** [HttpError] by its source; [QUOTA_EXCEEDED] is a text. *)
Inductive HttpError := Quota | Code (code : ErrorCode) | Text (message : string).

(** The [retryable_error] of [Service::call]. *)
Definition retryable_error (error : HttpError) : bool :=
  match error with
  | Code (ConnectionTerminated | ConnectionReadTimeout | HttpResponseIncomplete | HttpProtocolError) => true
  | _ => false
  end.

(** ** Outgoing requests *)

(** [wasi::http::types::Method] and [Scheme]. *)
Inductive WasiMethod :=
  | MGet | MHead | MPost | MPut | MDelete | MConnect | MOptions | MTrace | MPatch
  | MOther (name : string).
Inductive WasiScheme := SchemeHttp | SchemeHttps | SchemeOther (name : string).

(** [http::Method::as_str]. *)
Definition method_str (m : HttpMethod) : string :=
  match m with GET => "GET" | HEAD => "HEAD" | PUT => "PUT" | OtherMethod name => name end.

Definition wasi_method (name : string) : WasiMethod :=
  if bool_decide (name = "GET"%string) then MGet
  else if bool_decide (name = "HEAD"%string) then MHead
  else if bool_decide (name = "POST"%string) then MPost
  else if bool_decide (name = "PUT"%string) then MPut
  else if bool_decide (name = "DELETE"%string) then MDelete
  else if bool_decide (name = "CONNECT"%string) then MConnect
  else if bool_decide (name = "OPTIONS"%string) then MOptions
  else if bool_decide (name = "TRACE"%string) then MTrace
  else if bool_decide (name = "PATCH"%string) then MPatch
  else MOther name.

Definition wasi_scheme (name : string) : WasiScheme :=
  if bool_decide (name = "http"%string) then SchemeHttp
  else if bool_decide (name = "https"%string) then SchemeHttps
  else SchemeOther name.

Record OutgoingRequest := MkOutgoingRequest {
  out_headers : list (string * bytes);
  out_method : WasiMethod;
  out_path : option bytes;
  out_scheme : option WasiScheme;
  out_authority : option bytes
}.

(** Which values the host accepts for a request. *)
Record Host := MkHost {
  accepts_headers : list (string * bytes) → option string;
  accepts_method : WasiMethod → bool;
  accepts_path : option bytes → bool;
  accepts_scheme : option WasiScheme → bool;
  accepts_authority : option bytes → bool
}.

Definition check (accepted : bool) (error : HttpError) : Result () HttpError :=
  if accepted then Ok () else Err error.

(** [outgoing_request]. *)
Definition outgoing_request (host : Host) (method : HttpMethod) (uri : Uri) (headers : list (string * bytes))
    : Result OutgoingRequest HttpError :=
  let invalid := Text "invalid outgoing HTTP request" in
  match accepts_headers host headers with
  | Some error => Err (Text error)
  | None =>
      let method := wasi_method (method_str method) in
      do? check (accepts_method host method) invalid;
      do? check (accepts_path host (uri_path_and_query uri)) invalid;
      let scheme := wasi_scheme <$> uri_scheme uri in
      do? check (accepts_scheme host scheme) invalid;
      do? check (accepts_authority host (uri_authority uri)) invalid;
      Ok (MkOutgoingRequest headers method (uri_path_and_query uri) scheme (uri_authority uri))
  end.

(** ** One exchange *)

(** The polls of [incoming_body]: an empty chunk waits, [Closed] ends the stream. *)
Inductive ReadAnswer := ReadChunk (chunk : bytes) | ReadClosed | ReadFailed (error : HttpError).

Fixpoint incoming_body (reads : list ReadAnswer) : list (Result bytes HttpError) :=
  match reads with
  | [] => []
  | ReadChunk [] :: reads => incoming_body reads
  | ReadChunk chunk :: reads => Ok chunk :: incoming_body reads
  | ReadClosed :: _ => []
  | ReadFailed error :: reads => Err error :: incoming_body reads
  end.

(** [HttpResponse]: status, headers, and the chunks its body stream will deliver. *)
Record HttpResponse := MkHttpResponse {
  response_status : Z;
  response_headers : list (string * bytes);
  response_body : list (Result bytes HttpError)
}.

(** How the host answers one exchange: its fallible calls in order, the frames of the body
    that were taken and what writing them answered, the response, and which of the two
    completed first. *)
Record Exchange := MkExchange {
  x_host : Host;
  x_setup : list (Result () HttpError);
  x_exact : option Z;
  x_frames : list (Result (option bytes) HttpError);
  x_writes : list (list (Result Z HttpError * Result () HttpError));
  x_finished : Result () HttpError;
  x_order : Completed;
  x_response : Result (Z * list (string * bytes)) HttpError;
  x_consume : Result () HttpError;
  x_reads : list ReadAnswer;
  x_build : Result () HttpError
}.

(** The body and output resources, the three time limits and the dispatch, until one fails. *)
Fixpoint all_ok (steps : list (Result () HttpError)) : Result () HttpError :=
  match steps with
  | [] => Ok ()
  | step :: steps => do? step; all_ok steps
  end.

(** [(200..300).contains(&response.status())]. *)
Definition status_success (status : Z) : bool := (200 <=? status) && (status <? 300).

(** [Service]: the time limits [connect] configured, in nanoseconds. *)
Record Service := MkService { service_connect : option Z; service_read : option Z }.

(** A request handed to the host, with its connect limit and its first-byte and
    between-bytes limit. *)
Record Dispatch := MkDispatch {
  dispatch_request : OutgoingRequest;
  dispatch_connect : option Z;
  dispatch_read : option Z
}.

Section exchange.
Context `{Target} (service : Service).

(** [finish_exchange] on the two futures; an upload that is still running is dropped by a
    rejection that arrives first, and otherwise awaited. *)
Definition await_exchange (x : Exchange) (uploaded : option (Result () HttpError))
    : option (Result (Z * list (string * bytes)) HttpError) :=
  match uploaded, x_order x, x_response x with
  | Some uploaded, _, _ => Some (finish_exchange (λ r, status_success r.1) (x_order x) uploaded (x_response x))
  | None, ResponseFirst, Ok r => if negb (status_success r.1) then Some (Ok r) else None
  | None, _, _ => None
  end.

(** [Service::call_once]: its result unless it is still running, what was sent, and the
    budget. *)
Definition call_once (x : Exchange) (request : HttpRequest) (b : Budget)
    : option (Result HttpResponse HttpError) * option Dispatch * Budget :=
  let '(admitted, b) := budget_call b in
  if negb admitted then (Some (Err Quota), None, b)
  else
    let headers := outgoing_headers (request_method request) (request_headers request) (x_exact x) in
    let read := read_timeout (uri_authority (request_uri request)) (uri_path (request_uri request))
                  (service_read service) in
    match outgoing_request (x_host x) (request_method request) (request_uri request) headers with
    | Err error => (Some (Err error), None, b)
    | Ok outgoing =>
        match all_ok (x_setup x) with
        | Err error => (Some (Err error), None, b)
        | Ok _ =>
            let '(_, uploaded, b) := upload Quota (x_frames x) (x_writes x) (x_finished x) b in
            (match await_exchange x uploaded with
             | None => None
             | Some (Err error) => Some (Err error)
             | Some (Ok (status, headers)) =>
                 Some (do? x_consume x;
                       do? x_build x;
                       Ok (MkHttpResponse status headers (incoming_body (x_reads x))))
             end, Some (MkDispatch outgoing (service_connect service) read), b)
        end
    end.

Local Abbreviation attempts := (http (HttpResponse := HttpResponse) (HttpError := HttpError)).

(** Attempts run against the host, each with its own exchange. *)
Fixpoint run_attempts {A} (p : attempts A)
    (xs : list Exchange) (b : Budget) : option A * list Dispatch * Budget :=
  match p with
  | HDone a => (Some a, [], b)
  | HAttempt request k =>
      match xs with
      | [] => (None, [], b)
      | x :: xs =>
          let '(answer, sent, b) := call_once x request b in
          match answer with
          | None => (None, option_list sent, b)
          | Some answer =>
              let '(a, rest, b) := run_attempts (k answer) xs b in
              (a, option_list sent ++ rest, b)
          end
      end
  end.

(** [Service::call]. *)
Definition service_call (xs : list Exchange) (request : HttpRequest) (b : Budget)
    : option (Result HttpResponse HttpError) * list Dispatch * Budget :=
  run_attempts (retry_request response_status request retryable_error) xs b.

(** ** Bounds *)

(** The counters are within the limits, which are [u64]. *)
Definition budget_ok (b : Budget) : Prop :=
  0 ≤ calls b ≤ max_calls b ∧ max_calls b ≤ u64_max ∧ 0 ≤ transferred b ≤ max_bytes b.

(** At most [n] calls were charged. *)
Definition spent (n : Z) (b b' : Budget) : Prop :=
  max_calls b' = max_calls b ∧ max_bytes b' = max_bytes b ∧ budget_ok b'
  ∧ calls b ≤ calls b' ≤ calls b + n ∧ transferred b ≤ transferred b'.

Lemma spent_refl b : budget_ok b → spent 0 b b.
Proof. unfold spent. intros. split_and!; try done; lia. Qed.

Lemma spent_trans n m b1 b2 b3 : spent n b1 b2 → spent m b2 b3 → spent (n + m) b1 b3.
Proof. intros (? & ? & ? & ? & ?) (? & ? & ? & ? & ?). unfold spent. split_and!; try done; lia. Qed.

(** A call is refused exactly when the limit is reached. *)
Lemma budget_call_spec b admitted b' : budget_call b = (admitted, b') → budget_ok b →
  if admitted then calls b' = calls b + 1 ∧ spent 1 b b' else b' = b ∧ calls b = max_calls b.
Proof.
  intros Hc (Hcalls & Hmax & Ht). unfold budget_call in Hc. destruct (charge _ _ _) as [n|] eqn:Ec; injection Hc as <- <-.
  - apply charge_Some in Ec as (-> & ? & ?). unfold spent, budget_ok. simpl. split_and!; try done; lia.
  - split; [done|]. destruct (decide (calls b + 1 ≤ max_calls b)); [|lia]. exfalso.
    assert (charge (calls b) (max_calls b) 1 = Some (calls b + 1)) by (apply charge_Some; lia). congruence.
Qed.

Lemma upload_spent frames answers finished b pieces r b' :
  upload Quota frames answers finished b = (pieces, r, b') → budget_ok b → spent 0 b b' ∧ calls b' = calls b.
Proof.
  intros (Hm & [Hmc Hc] & Hlen & Hle)%upload_charged (Hcalls & Hmax & Ht). pose proof (len_nonneg (concat pieces)).
  unfold spent, budget_ok. rewrite Hm, Hmc, Hc. split_and!; try done; lia.
Qed.

(** The dispatch of [request] in an exchange. *)
Definition dispatched (x : Exchange) (request : HttpRequest) (d : Dispatch) : Prop :=
  outgoing_request (x_host x) (request_method request) (request_uri request)
    (outgoing_headers (request_method request) (request_headers request) (x_exact x)) = Ok (dispatch_request d)
  ∧ dispatch_connect d = service_connect service
  ∧ dispatch_read d = read_timeout (uri_authority (request_uri request)) (uri_path (request_uri request))
                        (service_read service).

(** One exchange: it is charged before anything is sent, and refused at the limit. *)
Lemma call_once_spent x request b r sent b' :
  call_once x request b = (r, sent, b') → budget_ok b →
  spent 1 b b' ∧ (is_Some sent → calls b' = calls b + 1)
  ∧ (∀ o, sent = Some o → dispatched x request o)
  ∧ (calls b = max_calls b → r = Some (Err Quota) ∧ sent = None ∧ b' = b).
Proof.
  intros Hcall Hb. unfold call_once in Hcall. destruct (budget_call b) as [admitted b1] eqn:Ec.
  apply budget_call_spec in Ec; [|done]. destruct admitted; cbn [negb] in Hcall.
  - destruct Ec as [Hc Hs]. assert (budget_ok b1) as Hb1 by apply Hs. pose proof Hb1 as (? & _ & _).
    pose proof Hs as (Hmc & _). assert (calls b = max_calls b → False) as Hlim by lia.
    destruct (outgoing_request _ _ _ _) as [o|e] eqn:Eo; [|injection Hcall as <- <- <-; split_and!; try done; by intros []].
    destruct (all_ok _) as [[]|e]; [|injection Hcall as <- <- <-; split_and!; try done; by intros []].
    destruct (upload _ _ _ _ _) as [[pieces uploaded] b2] eqn:Eu. apply upload_spent in Eu as [Hs2 Hc2]; [|done].
    injection Hcall as _ <- <-. split_and!; [by eapply (spent_trans 1 0)|lia|by intros o' [= <-]|done].
  - destruct Ec as [-> Hlim]. injection Hcall as <- <- <-. split; [|done].
    unfold spent. split_and!; try done; lia.
Qed.

Definition sent_for (xs : list Exchange) (request : HttpRequest) (d : Dispatch) : Prop :=
  ∃ x, x ∈ xs ∧ dispatched x request d.

(** [p] makes at most [n] attempts, all of [request]. *)
Fixpoint attempts_at_most {A} (request : HttpRequest) (n : nat) (p : attempts A) : Prop :=
  match p with
  | HDone _ => True
  | HAttempt r k => match n with O => False | S n => r = request ∧ ∀ answer, attempts_at_most request n (k answer) end
  end.

Lemma run_attempts_spent {A} request (p : attempts A) : ∀ n xs b r sent b',
  attempts_at_most request n p → run_attempts p xs b = (r, sent, b') → budget_ok b →
  spent (Z.of_nat n) b b' ∧ Z.of_nat (length sent) ≤ calls b' - calls b ∧ Forall (sent_for xs request) sent.
Proof.
  assert (∀ n b, budget_ok b → spent (Z.of_nat n) b b) as Hnone.
  { intros n b Hb. unfold spent. split_and!; try done; lia. }
  induction p as [a|request' k IH]; intros n xs b r sent b' Hn Hrun Hb; cbn [run_attempts] in Hrun.
  { injection Hrun as <- <- <-. split_and!; [by apply Hnone|simpl; lia|done]. }
  destruct n as [|n]; [done|]. destruct Hn as [-> Hn].
  destruct xs as [|x xs]; [injection Hrun as <- <- <-; split_and!; [by apply Hnone|simpl; lia|done]|].
  destruct (call_once x request b) as [[answer s1] b1] eqn:Ec.
  apply call_once_spent in Ec as (Hs1 & Hcharged & Hout & _); [|done].
  assert (Z.of_nat (length (option_list s1)) ≤ calls b1 - calls b) as Hlen1.
  { destruct s1 as [o|]; simpl; [rewrite Hcharged by done; lia|]. destruct Hs1 as (_ & _ & _ & ? & _). lia. }
  assert (Forall (sent_for (x :: xs) request) (option_list s1)) as Hall1.
  { destruct s1 as [o|]; simpl; [|done]. apply Forall_singleton. exists x. split; [by left|by apply Hout]. }
  rewrite Nat2Z.inj_succ, <-Z.add_1_l. assert (budget_ok b1) as Hb1 by apply Hs1.
  destruct answer as [answer|].
  - destruct (run_attempts (k answer) xs b1) as [[a rest] b2] eqn:Er.
    apply (IH answer n) in Er as (Hs2 & Hlen2 & Hall2); [|done|done]. injection Hrun as <- <- <-.
    split_and!; [by eapply spent_trans|rewrite length_app; lia|]. apply Forall_app. split; [done|].
    eapply Forall_impl; [exact Hall2|]. intros o (y & Hy & Ho). exists y. split; [by right|done].
  - injection Hrun as <- <- <-. split_and!; [|done|done]. eapply spent_trans; [done|by apply Hnone].
Qed.

Lemma retry_attempts request (retryable : HttpError → bool) :
  attempts_at_most request 2 (retry_request response_status request retryable)
  ∧ (is_read request = false → conditional_put request = false →
     attempts_at_most request 1 (retry_request response_status request retryable)).
Proof.
  unfold retry_request. split.
  - destruct (_ && _); [by split|]. split; [done|]. intros [response|error]; [done|]. by destruct (retryable error).
  - intros -> ->. by split.
Qed.

(** C29. The transport is bounded whatever the host answers: a call is sent at most twice,
    and twice only for a read or a conditional write, each time as the same request and
    only after it was charged; the counters never exceed their limits, a call at the limit
    is refused without being sent, and a response body delivers exactly the bytes it was
    charged for. *)
Theorem transport_is_bounded xs request b r sent b' :
  budget_ok b → service_call xs request b = (r, sent, b') →
  spent 2 b b' ∧ Z.of_nat (length sent) ≤ calls b' - calls b ∧ Forall (sent_for xs request) sent
  ∧ ((1 < length sent)%nat → is_read request = true ∨ conditional_put request = true)
  ∧ (calls b = max_calls b → xs ≠ [] → r = Some (Err Quota) ∧ sent = [] ∧ b' = b)
  ∧ (∀ response delivered e b'', r = Some (Ok response) →
       response_chunks Quota (response_body response) b' = (delivered, e, b'') →
       transferred b'' = transferred b' + len (concat delivered) ∧ transferred b'' ≤ max_bytes b).
Proof.
  intros Hb Hcall. pose proof (retry_attempts request retryable_error) as [H2 H1'].
  destruct (run_attempts_spent request _ 2 _ _ _ _ _ H2 Hcall Hb) as (Hs & Hlen & Hall).
  split_and!; [done|done|done| | |].
  - intros Htwo. destruct (is_read request) eqn:Hr; [by left|]. destruct (conditional_put request) eqn:Hp; [by right|].
    destruct (run_attempts_spent request _ 1 _ _ _ _ _ (H1' eq_refl eq_refl) Hcall Hb) as ((_ & _ & _ & Hc & _) & Hlen' & _).
    lia.
  - intros Hlim Hxs. destruct xs as [|x xs]; [done|].
    destruct (call_once x request b) as [[answer s1] b1] eqn:Ec.
    destruct (call_once_spent _ _ _ _ _ _ Ec Hb) as (_ & _ & _ & Hrefused). destruct (Hrefused Hlim) as (-> & -> & ->).
    unfold service_call, retry_request in Hcall.
    destruct (_ && _); cbn [run_attempts] in Hcall; rewrite Ec in Hcall; cbn in Hcall; by injection Hcall as <- <- <-.
  - intros response delivered e b'' _ Hd. apply response_charged in Hd as (_ & Ht & Hle).
    destruct Hs as (_ & Hm & (_ & _ & Hb') & _). split; [done|]. lia.
Qed.
End exchange.
