(* ===== verification/WalExecutor.v ===== *)
(** * Executor of the WAL component

    [examples/wal-component/src/executor.rs]: the single-threaded loop that polls a future
    and, while it is pending, waits on the host resources the future subscribed to.

    Polling a future is a tree of actions: subscriptions, their drops, and host calls.  The
    tree is interpreted twice, over the executor's shared slots and waiting list and over
    the list of armed subscriptions that they stand for. *)

From S2P Require Import Prelude Types.

(** [std::task::Poll], a pending future with the state it is in. *)
Inductive Poll (A S : Type) := Ready (a : A) | Pending (s : S).
Arguments Ready {A S} a.
Arguments Pending {A S} s.

(** A [Slot] is an allocation, named by its number. *)
Definition Slot : Type := nat.

Inductive act (World Pollable Waker B : Type) : Type :=
  | Return (b : B)
  | Subscribe (p : Pollable) (waker : Waker) (k : Slot → act World Pollable Waker B)
  | Unsubscribe (slot : Slot) (k : act World Pollable Waker B)
  | Ask {R : Type} (host : World → R * World) (k : R → act World Pollable Waker B).
Arguments Return {_ _ _ B} b.
Arguments Subscribe {_ _ _ B} p waker k.
Arguments Unsubscribe {_ _ _ B} slot k.
Arguments Ask {_ _ _ B R} host k.

(** [Future]: its states, a poll of one, and the subscriptions that dropping it drops. *)
Record Future (World Pollable Waker A : Type) := MkFuture {
  fut_state : Type;
  fut_init : fut_state;
  fut_poll : fut_state → Waker → act World Pollable Waker (Poll A fut_state);
  fut_tokens : fut_state → list Slot
}.
Arguments MkFuture {_ _ _ _} _ _ _ _.
Arguments fut_state {_ _ _ _} f : rename.
Arguments fut_init {_ _ _ _} f : rename.
Arguments fut_poll {_ _ _ _} f s waker : rename.
Arguments fut_tokens {_ _ _ _} f s : rename.

(** What [run] does: return, panic, or still be waiting after the polls it was given. *)
Inductive Outcome (A : Type) := Returned (a : A) | Panicked | Waiting.
Arguments Returned {A} a.
Arguments Panicked {A}.
Arguments Waiting {A}.

(** ** The executor *)

Section executor.
Context {World Pollable Waker : Type}.
Local Abbreviation act := (act World Pollable Waker).
Local Abbreviation Future := (Future World Pollable Waker).

(** [Slot]s by number, with what their mutex holds; [WAITING]; and the [Subscription]s
    that were not dropped. *)
Record Executor := MkExecutor {
  slots : list (option Pollable);
  waiting : list (Slot * Waker);
  subscriptions : gset Slot
}.

(** [slot.lock().unwrap()]. *)
Definition content (cells : list (option Pollable)) (slot : Slot) : option Pollable := mjoin (cells !! slot).

(** [subscribe]. *)
Definition subscribe (p : Pollable) (waker : Waker) (x : Executor) : Slot * Executor :=
  let slot := length (slots x) in
  (slot, MkExecutor (slots x ++ [Some p]) (waiting x ++ [(slot, waker)]) ({[slot]} ∪ subscriptions x)).

(** [Subscription::drop]. *)
Definition drop_subscription (slot : Slot) (x : Executor) : Executor :=
  MkExecutor (<[slot := None]> (slots x)) (waiting x) (subscriptions x ∖ {[slot]}).

(** The actions of a poll. *)
Fixpoint perform {B} (a : act B) (x : Executor) (w : World) : B * Executor * World :=
  match a with
  | Return b => (b, x, w)
  | Subscribe p waker k => let '(slot, x) := subscribe p waker x in perform (k slot) x w
  | Unsubscribe slot k => perform k (drop_subscription slot x) w
  | Ask host k => let '(r, w) := host w in perform (k r) x w
  end.

(** [WAITING.retain(|(slot, _)| slot.is_some())]. *)
Definition retain_waiting (x : Executor) : Executor :=
  MkExecutor (slots x) (filter (λ e : Slot * Waker, is_Some (content (slots x) e.1)) (waiting x)) (subscriptions x).

(** [slots.into_iter().filter_map(..)]: each slot's pollable is taken out of it. *)
Fixpoint take_active (entries : list (Slot * Waker)) (cells : list (option Pollable))
    : list (Slot * Pollable * Waker) * list (option Pollable) :=
  match entries with
  | [] => ([], cells)
  | (slot, waker) :: entries =>
      let pollable := content cells slot in
      let '(active, cells) := take_active entries (<[slot := None]> cells) in
      (match pollable with Some p => (slot, p, waker) :: active | None => active end, cells)
  end.

(** [ready[index] = true] for each index; out of range is a panic. *)
Fixpoint mark_ready (indices : list Z) (ready : list bool) : option (list bool) :=
  match indices with
  | [] => Some ready
  | index :: indices =>
      if (0 <=? index) && (index <? Z.of_nat (length ready))
      then mark_ready indices (<[Z.to_nat index := true]> ready) else None
  end.

(** [Arc::strong_count]: the references of the loop and the subscription's. *)
Definition occurrences (slot : Slot) (l : list Slot) : nat := length (filter (λ s, s = slot) l).
Definition strong_count (held : list Slot) (live : gset Slot) (slot : Slot) : nat :=
  (occurrences slot held + if decide (slot ∈ live) then 1 else 0)%nat.

(** The host of the component: [wasi::io::poll::poll], and waking a task. *)
Context (poll : list Pollable → World → list Z * World).
Context (wake : Waker → World → World).
Context (noop : Waker).

(** The loop over [ready.into_iter().zip(active)]. *)
Fixpoint settle (entries : list (bool * (Slot * Pollable * Waker))) (live : gset Slot)
    (cells : list (option Pollable)) (kept : list (Slot * Waker)) (w : World)
    : list (option Pollable) * list (Slot * Waker) * World :=
  match entries with
  | [] => (cells, kept, w)
  | (is_ready, (slot, pollable, waker)) :: entries =>
      if is_ready : bool then settle entries live cells kept (wake waker w)
      else if bool_decide (1 < strong_count (slot :: entries.*2.*1.*1 ++ kept.*1) live slot)%nat
      then settle entries live (<[slot := Some pollable]> cells) (kept ++ [(slot, waker)]) w
      else settle entries live cells kept w
  end.

(** What [run] does when its future is pending; [None] is a panic. *)
Definition turn (x : Executor) (w : World) : option (Executor * World) :=
  let '(active, cells) := take_active (waiting x) (slots x) in
  if bool_decide (active = []) then None
  else
    let '(indices, w) := poll (active.*1.*2) w in
    ready ← mark_ready indices (replicate (length active) false);
    let '(cells, kept, w) := settle (zip ready active) (subscriptions x) cells [] w in
    Some (MkExecutor cells kept (subscriptions x), w).

Fixpoint run_loop {A} (f : Future A) (polls : nat) (s : fut_state f) (x : Executor) (w : World)
    : Outcome A * Executor * World :=
  match polls with
  | O => (Waiting, x, w)
  | S polls =>
      let '(r, x, w) := perform (fut_poll f s noop) x w in
      match r with
      | Ready a => (Returned a, x, w)
      | Pending s =>
          match turn x w with
          | None => (Panicked, x, w)
          | Some (x, w) => run_loop f polls s x w
          end
      end
  end.

(** [run], for a number of polls. *)
Definition run {A} (f : Future A) (polls : nat) (x : Executor) (w : World) : Outcome A * Executor * World :=
  run_loop f polls (fut_init f) (retain_waiting x) w.

(** ** Its specification

    The subscriptions that wait for the host, in the order they were made: a drop disarms,
    a turn waits on all of them, wakes those that are ready and keeps the others. *)

Record Armed := MkArmed { next_slot : nat; armed : list (Slot * Pollable * Waker) }.

Fixpoint spec_perform {B} (a : act B) (st : Armed) (w : World) : B * Armed * World :=
  match a with
  | Return b => (b, st, w)
  | Subscribe p waker k =>
      spec_perform (k (next_slot st)) (MkArmed (S (next_slot st)) (armed st ++ [(next_slot st, p, waker)])) w
  | Unsubscribe slot k =>
      spec_perform k (MkArmed (next_slot st) (filter (λ e : Slot * Pollable * Waker, e.1.1 ≠ slot) (armed st))) w
  | Ask host k => let '(r, w) := host w in spec_perform (k r) st w
  end.

Definition in_range (n : nat) (indices : list Z) : bool := forallb (λ i, (0 <=? i) && (i <? Z.of_nat n)) indices.
Definition flags (n : nat) (indices : list Z) : list bool := (λ i, bool_decide (Z.of_nat i ∈ indices)) <$> seq 0 n.

Definition selected {A} (flag : bool) (ready : list bool) (l : list A) : list A :=
  (filter (λ e : bool * A, e.1 = flag) (zip ready l)).*2.

Definition spec_turn (st : Armed) (w : World) : option (Armed * World) :=
  match armed st with
  | [] => None
  | l =>
      let '(indices, w) := poll (l.*1.*2) w in
      if in_range (length l) indices then
        let ready := flags (length l) indices in
        Some (MkArmed (next_slot st) (selected false ready l), foldl (λ w e, wake e.2 w) w (selected true ready l))
      else None
  end.

Fixpoint spec_loop {A} (f : Future A) (polls : nat) (s : fut_state f) (st : Armed) (w : World)
    : Outcome A * Armed * World :=
  match polls with
  | O => (Waiting, st, w)
  | S polls =>
      let '(r, st, w) := spec_perform (fut_poll f s noop) st w in
      match r with
      | Ready a => (Returned a, st, w)
      | Pending s =>
          match spec_turn st w with
          | None => (Panicked, st, w)
          | Some (st, w) => spec_loop f polls s st w
          end
      end
  end.

(** ** The simulation *)

(** The subscriptions that an executor will wait on. *)
Definition armed_of (cells : list (option Pollable)) (entries : list (Slot * Waker)) : list (Slot * Pollable * Waker) :=
  omap (λ e : Slot * Waker, (λ p, (e.1, p, e.2)) <$> content cells e.1) entries.

(** Slots are in [WAITING] at most once, and a slot that holds a pollable has a live
    subscription. *)
Record executor_wf (x : Executor) : Prop := {
  wf_waiting : NoDup (waiting x).*1;
  wf_allocated : Forall (λ slot, slot < length (slots x))%nat (waiting x).*1;
  wf_live : ∀ slot p, content (slots x) slot = Some p → slot ∈ subscriptions x
}.

Definition abstract (x : Executor) : Armed := MkArmed (length (slots x)) (armed_of (slots x) (waiting x)).

Lemma content_insert cells (n m : Slot) o :
  (n < length cells)%nat → content (<[n := o]> cells) m = if decide (m = n) then o else content cells m.
Proof.
  intros Hn. unfold content. case_decide as Hm; [subst; by rewrite list_lookup_insert_eq|].
  by rewrite list_lookup_insert_ne.
Qed.

Lemma content_clear cells (n m : Slot) :
  content (<[n := None]> cells) m = if decide (m = n) then None else content cells m.
Proof.
  destruct (decide (n < length cells)%nat) as [Hn|Hn]; [by apply content_insert|].
  rewrite list_insert_ge by lia. case_decide as Hm; [|done]. subst. unfold content.
  by rewrite lookup_ge_None_2 by lia.
Qed.

Lemma content_Some_lt cells slot p : content cells slot = Some p → (slot < length cells)%nat.
Proof. unfold content. destruct (cells !! slot) eqn:Hl; [|done]. intros _. by eapply lookup_lt_Some. Qed.

Lemma armed_of_cons cells slot waker entries :
  armed_of cells ((slot, waker) :: entries)
  = match content cells slot with Some p => (slot, p, waker) :: armed_of cells entries | None => armed_of cells entries end.
Proof. unfold armed_of. simpl. by destruct (content cells slot). Qed.

Lemma armed_of_ext cells cells' entries :
  (∀ slot, slot ∈ entries.*1 → content cells slot = content cells' slot) → armed_of cells entries = armed_of cells' entries.
Proof.
  induction entries as [|[slot waker] entries IH]; intros Hc; [done|]. rewrite !armed_of_cons.
  rewrite Hc, IH; [done| |left]. intros. apply Hc. by right.
Qed.

Lemma armed_of_clear cells entries slot :
  armed_of (<[slot := None]> cells) entries
  = filter (λ e : Slot * Pollable * Waker, e.1.1 ≠ slot) (armed_of cells entries).
Proof.
  induction entries as [|[n waker] entries IH]; [done|]. rewrite !armed_of_cons, IH, content_clear.
  case_decide as Hn; destruct (content cells n) as [p|] eqn:Hp; simpl; try done.
  - by rewrite filter_cons_False by (simpl; tauto).
  - by rewrite filter_cons_True by done.
Qed.

Lemma perform_refines {B} (a : act B) : ∀ x w b x' w', executor_wf x → perform a x w = (b, x', w') →
  executor_wf x' ∧ spec_perform a (abstract x) w = (b, abstract x', w').
Proof.
  induction a as [b|p waker k IH|slot k IH|R host k IH]; intros x w b' x' w' Hx; cbn [perform spec_perform].
  - intros [= <- <- <-]. by split.
  - intros Hp. apply IH in Hp as [Hwf Hs]; [split; [done|]|].
    + rewrite <-Hs. f_equal. unfold abstract. simpl. rewrite length_app, Nat.add_1_r. f_equal.
      unfold armed_of at 2. rewrite omap_app. f_equal.
      * apply armed_of_ext. intros slot Hin. destruct Hx as [_ Ha _]. rewrite Forall_forall in Ha. apply Ha in Hin.
        unfold content. by rewrite lookup_app_l.
      * unfold content. simpl. by rewrite lookup_app_r, Nat.sub_diag by lia.
    + destruct Hx as [Hn Ha Hl]. split; simpl.
      * rewrite fmap_app. apply NoDup_app. split; [done|]. split; [|apply NoDup_singleton].
        intros s Hin Hs%list_elem_of_singleton. simpl in Hs. subst. rewrite Forall_forall in Ha. apply Ha in Hin. lia.
      * rewrite fmap_app, length_app. apply Forall_app. split; [|repeat constructor; simpl; lia].
        eapply Forall_impl; [exact Ha|]. simpl. lia.
      * intros s q Hc. destruct (decide (s = length (slots x))) as [->|Hne]; [set_solver|].
        pose proof (content_Some_lt _ _ _ Hc) as Hlt. rewrite length_app in Hlt. simpl in Hlt.
        unfold content in Hc. rewrite lookup_app_l in Hc by lia. apply Hl in Hc. set_solver.
  - intros Hp. apply IH in Hp as [Hwf Hs]; [split; [done|]|].
    + rewrite <-Hs. f_equal. unfold abstract. simpl. by rewrite length_insert, armed_of_clear.
    + destruct Hx as [Hn Ha Hl]. split; simpl; [done|by rewrite length_insert|].
      intros s q. rewrite content_clear. case_decide; [done|]. intros Hc%Hl. set_solver.
  - destruct (host w) as [r w1]. apply IH; done.
Qed.

Lemma take_active_spec entries : ∀ cells, NoDup entries.*1 →
  (take_active entries cells).1 = armed_of cells entries
  ∧ length (take_active entries cells).2 = length cells
  ∧ ∀ slot, content (take_active entries cells).2 slot = if decide (slot ∈ entries.*1) then None else content cells slot.
Proof.
  induction entries as [|[n waker] entries IH]; intros cells Hn; cbn [take_active].
  { split; [done|]. split; [done|]. intros slot. by rewrite decide_False by apply not_elem_of_nil. }
  rewrite fmap_cons in Hn. apply NoDup_cons in Hn as [Hni Hn]. specialize (IH (<[n := None]> cells) Hn).
  destruct (take_active entries (<[n := None]> cells)) as [active cells']. cbn [fst snd] in *.
  destruct IH as (Ha & Hlen & Hc). split; [|split].
  - rewrite Ha, (armed_of_ext _ cells); [by rewrite armed_of_cons; destruct (content cells n)|].
    intros slot Hin. rewrite content_clear. case_decide; [by subst|done].
  - by rewrite length_insert in Hlen.
  - intros slot. rewrite Hc, content_clear, fmap_cons. repeat case_decide; set_solver.
Qed.

Lemma mark_ready_spec indices : ∀ ready,
  mark_ready indices ready
  = if in_range (length ready) indices
    then Some (imap (λ i b, b || bool_decide (Z.of_nat i ∈ indices)) ready) else None.
Proof.
  induction indices as [|index indices IH]; intros ready; simpl.
  - f_equal. apply list_eq. intros i. rewrite list_lookup_imap. by destruct (ready !! i) as [[]|].
  - destruct (_ && _) eqn:Hr; [|done]. rewrite IH, length_insert. simpl. case_match; [|done]. f_equal.
    apply list_eq. intros i. rewrite !list_lookup_imap.
    destruct (decide (i = Z.to_nat index)) as [->|Hne].
    + assert (Z.to_nat index < length ready)%nat as Hlt by lia. rewrite list_lookup_insert_eq by done.
      destruct (lookup_lt_is_Some_2 ready (Z.to_nat index) Hlt) as [b ->]. simpl. f_equal.
      rewrite orb_comm, bool_decide_eq_true_2; [done|]. rewrite Z2Nat.id by lia. left.
    + rewrite list_lookup_insert_ne by done. destruct (ready !! i) as [b|]; [|done]. simpl. do 2 f_equal.
      apply bool_decide_ext. rewrite elem_of_cons. naive_solver lia.
Qed.

Lemma mark_none indices n :
  mark_ready indices (replicate n false) = if in_range n indices then Some (flags n indices) else None.
Proof.
  rewrite mark_ready_spec, length_replicate. case_match; [|done]. f_equal. apply list_eq. intros i.
  unfold flags. rewrite list_lookup_imap, list_lookup_fmap.
  destruct (decide (i < n)%nat).
  - by rewrite lookup_replicate_2, lookup_seq_lt by done.
  - by rewrite lookup_ge_None_2, lookup_seq_ge by (rewrite ?length_replicate; lia).
Qed.

Lemma selected_sub {A} flag ready (l : list A) : (length l ≤ length ready)%nat → selected flag ready l `sublist_of` l.
Proof.
  intros Hlen. unfold selected. rewrite <-(snd_zip ready l) at 2 by done. apply fmap_sublist, sublist_filter.
Qed.

(** Putting pollables back into their slots. *)
Definition restore (l : list (Slot * Pollable * Waker)) (cells : list (option Pollable)) : list (option Pollable) :=
  foldl (λ cells e, <[e.1.1 := Some e.1.2]> cells) cells l.

Lemma restore_spec l : ∀ cells, Forall (λ slot, slot < length cells)%nat l.*1.*1 → NoDup l.*1.*1 →
  length (restore l cells) = length cells
  ∧ armed_of (restore l cells) ((λ e, (e.1.1, e.2)) <$> l) = l
  ∧ ∀ slot, slot ∉ l.*1.*1 → content (restore l cells) slot = content cells slot.
Proof.
  induction l as [|[[n p] waker] l IH]; intros cells Hlt Hn; [done|]. rewrite !fmap_cons in *.
  apply NoDup_cons in Hn as [Hni Hn]. apply Forall_cons in Hlt as [Hlt Hall]. cbn [fst snd] in *.
  change (restore _ cells) with (restore l (<[n := Some p]> cells)).
  destruct (IH (<[n := Some p]> cells)) as (Hlen & Ha & Hc); [by rewrite length_insert|done|].
  rewrite length_insert in Hlen. split; [done|]. split.
  - rewrite armed_of_cons, Ha, Hc by done. rewrite content_insert by done. by rewrite decide_True.
  - intros slot Hs. rewrite Hc by set_solver. rewrite content_insert by done. apply decide_False. set_solver.
Qed.

Lemma settle_spec live entries : ∀ cells kept w,
  Forall (λ e : bool * (Slot * Pollable * Waker), e.2.1.1 ∈ live) entries →
  settle entries live cells kept w
  = (restore (filter (λ e, e.1 = false) entries).*2 cells,
     kept ++ ((λ e, (e.1.1, e.2)) <$> (filter (λ e, e.1 = false) entries).*2),
     foldl (λ w e, wake e.2 w) w (filter (λ e, e.1 = true) entries).*2).
Proof.
  induction entries as [|[is_ready [[slot p] waker]] entries IH]; intros cells kept w Hlive; cbn [settle].
  { by rewrite app_nil_r. }
  apply Forall_cons in Hlive as [Hl Hlive]. cbn [fst snd] in Hl. destruct is_ready.
  - rewrite IH by done. rewrite !filter_cons. by repeat case_decide.
  - rewrite bool_decide_eq_true_2.
    + rewrite IH, !filter_cons by done. repeat case_decide; try done. by rewrite !fmap_cons, <-app_assoc.
    + unfold strong_count, occurrences. rewrite decide_True by done. rewrite filter_cons_True by done. simpl. lia.
Qed.

Lemma armed_of_slots cells entries : (armed_of cells entries).*1.*1 `sublist_of` entries.*1.
Proof.
  induction entries as [|[slot waker] entries IH]; [done|]. rewrite armed_of_cons, fmap_cons.
  destruct (content cells slot); [rewrite !fmap_cons; by apply sublist_skip|by apply sublist_cons].
Qed.

Lemma armed_of_content cells entries e :
  e ∈ armed_of cells entries → content cells e.1.1 = Some e.1.2 ∧ (e.1.1, e.2) ∈ entries.
Proof.
  unfold armed_of. rewrite list_elem_of_omap. intros ([slot waker] & Hin & He). simpl in He.
  destruct (content cells slot) as [p|] eqn:Hc; [|done]. by injection He as <-.
Qed.

Lemma turn_refines x w : executor_wf x →
  match turn x w with
  | None => spec_turn (abstract x) w = None
  | Some (x', w') => executor_wf x' ∧ spec_turn (abstract x) w = Some (abstract x', w')
  end.
Proof.
  intros [Hn Ha Hl]. unfold turn, spec_turn. destruct (take_active_spec (waiting x) (slots x) Hn) as (Hact & Hlen & Hc).
  destruct (take_active (waiting x) (slots x)) as [active cells]. cbn [fst snd] in *. cbn [armed abstract].
  pose proof (armed_of_slots (slots x) (waiting x)) as Hslots. rewrite <-Hact in Hslots.
  assert (Forall (λ e : Slot * Pollable * Waker, e.1.1 ∈ subscriptions x) active) as Hlive.
  { apply Forall_forall. intros e He. subst active. apply armed_of_content in He as [He _]. by eapply Hl. }
  rewrite <-Hact. case_bool_decide as Hnil; [by rewrite Hnil|]. destruct active as [|e0 l0]; [done|].
  set (active := e0 :: l0) in *. destruct (poll _ w) as [indices w1]. rewrite mark_none.
  destruct (in_range (length active) indices); [cbn [mbind option_bind]|done].
  set (ready := flags (length active) indices).
  assert (length ready = length active) as Hready by (unfold ready, flags; by rewrite length_fmap, length_seq).
  rewrite settle_spec.
  2:{ apply Forall_forall. intros [b e] He. rewrite Forall_forall in Hlive. apply (Hlive e). by eapply elem_of_zip_r. }
  fold (selected false ready active) (selected true ready active).
  pose proof (selected_sub false ready active) as Hsub. rewrite Hready in Hsub. specialize (Hsub (le_n _)).
  set (kept := selected false ready active) in *.
  assert (kept.*1.*1 `sublist_of` (waiting x).*1) as Hkept by (etrans; [by apply fmap_sublist, fmap_sublist|done]).
  assert (NoDup kept.*1.*1) as Hnd by (by eapply sublist_NoDup).
  assert (Forall (λ slot, slot < length cells)%nat kept.*1.*1) as Hlt.
  { apply Forall_forall. intros s Hs. rewrite Hlen. rewrite Forall_forall in Ha. apply Ha. by eapply elem_of_sublist. }
  destruct (restore_spec kept cells Hlt Hnd) as (Hrl & Hra & Hrc).
  assert (((λ e : Slot * Pollable * Waker, (e.1.1, e.2)) <$> kept).*1 = kept.*1.*1) as Hfst.
  { by rewrite <-!list_fmap_compose. }
  split; [split|].
  - cbn [waiting app]. by rewrite Hfst.
  - cbn [waiting slots app]. rewrite Hfst. by rewrite Hrl.
  - cbn [slots subscriptions]. intros slot p Hp. destruct (decide (slot ∈ kept.*1.*1)) as [Hin|Hin].
    + apply list_elem_of_fmap in Hin as (e & -> & He). apply list_elem_of_fmap in He as (e' & -> & He).
      rewrite Forall_forall in Hlive. apply Hlive. by eapply elem_of_sublist.
    + rewrite Hrc, Hc in Hp by done. case_decide; [done|]. by eapply Hl.
  - unfold abstract. cbn [slots waiting next_slot app]. rewrite Hrl, Hlen. do 3 f_equal. symmetry. exact Hra.
Qed.

Lemma loop_refines {A} (f : Future A) polls : ∀ s x w o x' w', executor_wf x →
  run_loop f polls s x w = (o, x', w') → executor_wf x' ∧ spec_loop f polls s (abstract x) w = (o, abstract x', w').
Proof.
  induction polls as [|polls IH]; intros s x w o x' w' Hx; cbn [run_loop spec_loop].
  { intros [= <- <- <-]. by split. }
  destruct (perform (fut_poll f s noop) x w) as [[r x1] w1] eqn:Hp.
  apply perform_refines in Hp as [Hx1 ->]; [|done]. destruct r as [a|s1]; [by intros [= <- <- <-]|].
  pose proof (turn_refines x1 w1 Hx1) as Ht. destruct (turn x1 w1) as [[x2 w2]|].
  - destruct Ht as [Hx2 ->]. by apply IH.
  - rewrite Ht. by intros [= <- <- <-].
Qed.

Lemma armed_of_retain cells entries :
  armed_of cells (filter (λ e : Slot * Waker, is_Some (content cells e.1)) entries) = armed_of cells entries.
Proof.
  induction entries as [|[slot waker] entries IH]; [done|]. rewrite filter_cons, armed_of_cons. cbn [fst].
  case_decide as Hc; [rewrite armed_of_cons, IH; done|]. rewrite IH. destruct (content cells slot); [|done].
  by destruct Hc.
Qed.

Lemma retain_refines x : executor_wf x → executor_wf (retain_waiting x) ∧ abstract (retain_waiting x) = abstract x.
Proof.
  intros [Hn Ha Hl]. assert (waiting (retain_waiting x) `sublist_of` waiting x) as Hsub by apply sublist_filter.
  split; [split|].
  - eapply sublist_NoDup; [exact Hn|by apply fmap_sublist].
  - apply Forall_forall. intros slot Hs. rewrite Forall_forall in Ha. apply Ha.
    eapply elem_of_sublist; [exact Hs|by apply fmap_sublist].
  - exact Hl.
  - unfold abstract. f_equal. cbn [slots waiting retain_waiting]. apply armed_of_retain.
Qed.

(** C30. What the slots, the reference counts and the waiting list of [run] implement is the
    list of armed subscriptions: [run] waits on exactly the pollables of subscriptions that
    were made and neither dropped nor found ready, in their order, wakes the tasks of those
    that are ready, keeps the others, and panics only when nothing is armed or the host
    names a pollable it was not given. *)
Theorem run_refines {A} (f : Future A) polls x w o x' w' :
  executor_wf x → run f polls x w = (o, x', w') →
  executor_wf x' ∧ spec_loop f polls (fut_init f) (abstract x) w = (o, abstract x', w').
Proof.
  intros [Hr <-]%retain_refines Hrun. by apply loop_refines.
Qed.

End executor.
