(* ===== verification/WalFutures.v ===== *)
(** * Futures of the WAL component

    The asynchronous code of [examples/wal-component/src/transport.rs] as futures that the
    executor polls: what a future promises the executor, that the futures of an exchange
    keep those promises, and that the executor then runs them to completion. *)

From Stdlib Require Import Strings.Byte.
From S2P Require Import Prelude Types WalTransport WalExchange WalExecutor.

(** ** Combinators *)

Section futures.
Context {World Pollable Waker : Type}.
Local Abbreviation act := (act World Pollable Waker).
Local Abbreviation Future := (Future World Pollable Waker).
Local Abbreviation Armed := (@Armed Pollable Waker).

Fixpoint bind_act {B C} (a : act B) (k : B → act C) : act C :=
  match a with
  | Return b => k b
  | Subscribe p waker next => Subscribe p waker (λ slot, bind_act (next slot) k)
  | Unsubscribe slot next => Unsubscribe slot (bind_act next k)
  | Ask host next => Ask host (λ r, bind_act (next r) k)
  end.

Lemma spec_perform_bind {B C} (a : act B) (k : B → act C) : ∀ st w,
  spec_perform (bind_act a k) st w = let '(b, st, w) := spec_perform a st w in spec_perform (k b) st w.
Proof. induction a; intros st w; cbn; try done. by destruct (host w). Qed.

(** Dropping subscriptions. *)
Definition release {B} (tokens : list Slot) (a : act B) : act B := foldr Unsubscribe a tokens.

(** The [poll_fn] futures of [transport.rs]: drop the last subscription, run the body, and
    subscribe to the resource when the body is pending. *)
Definition poll_fn {S R} (body : S → World → Poll R S * World) (resource : World → Pollable * World) (s : S) : Future R :=
  MkFuture (S * option Slot) (s, None)
    (λ x waker,
       release (option_list x.2)
         (Ask (body x.1) (λ r,
            match r with
            | Ready a => Return (Ready a)
            | Pending s => Ask resource (λ p, Subscribe p waker (λ slot, Return (Pending (s, Some slot))))
            end)))
    (λ x, option_list x.2).

(** [async] code without an [await], and a future awaited before another. *)
Definition async {A} (host : World → A * World) : Future A :=
  MkFuture () tt (λ _ _, Ask host (λ a, Return (Ready a))) (λ _, []).

Definition and_then {A B} (f : Future B) (k : B → Future A) : Future A :=
  MkFuture (fut_state f + { b : B & fut_state (k b) }) (inl (fut_init f))
    (λ s waker,
       let second (b : B) (s : fut_state (k b)) :=
         bind_act (fut_poll (k b) s waker) (λ r,
           match r with Ready a => Return (Ready a) | Pending s => Return (Pending (inr (existT b s))) end) in
       match s with
       | inl s =>
           bind_act (fut_poll f s waker) (λ r,
             match r with Ready b => second b (fut_init (k b)) | Pending s => Return (Pending (inl s)) end)
       | inr (existT b s) => second b s
       end)
    (λ s, match s with inl s => fut_tokens f s | inr (existT b s) => fut_tokens (k b) s end).

(** [futures::future::select(left, right)] and what follows it: the first result either
    settles the answer, which drops the other future, or waits for the other one.  The
    environment picks which future is polled first. *)
Inductive Selecting (L R : Type) (A B C : Type) :=
  | Racing (l : L) (r : R)
  | AwaitLeft (f : B → A) (l : L)
  | AwaitRight (f : C → A) (r : R).
#[local] Arguments Racing {L R A B C} l r.
#[local] Arguments AwaitLeft {L R A B C} f l.
#[local] Arguments AwaitRight {L R A B C} f r.

Definition await {A B S} (g : Future B) (f : B → A) (wrap : fut_state g → S) (s : fut_state g) (waker : Waker)
    : act (Poll A S) :=
  bind_act (fut_poll g s waker) (λ r,
    match r with Ready b => Return (Ready (f b)) | Pending s => Return (Pending (wrap s)) end).

Definition select {A B C} (order : World → bool * World) (l : Future B) (r : Future C)
    (on_left : B → A + (C → A)) (on_right : C → A + (B → A)) : Future A :=
  MkFuture (Selecting (fut_state l) (fut_state r) A B C) (Racing (fut_init l) (fut_init r))
    (λ s waker,
       let left_done b sr :=
         match on_left b with
         | inl a => release (fut_tokens r sr) (Return (Ready a))
         | inr f => await r f (AwaitRight f) sr waker
         end in
       let right_done c sl :=
         match on_right c with
         | inl a => release (fut_tokens l sl) (Return (Ready a))
         | inr f => await l f (AwaitLeft f) sl waker
         end in
       match s with
       | Racing sl sr =>
           Ask order (λ left_first,
             if left_first : bool then
               bind_act (fut_poll l sl waker) (λ x,
                 match x with
                 | Ready b => left_done b sr
                 | Pending sl =>
                     bind_act (fut_poll r sr waker) (λ y,
                       match y with Ready c => right_done c sl | Pending sr => Return (Pending (Racing sl sr)) end)
                 end)
             else
               bind_act (fut_poll r sr waker) (λ y,
                 match y with
                 | Ready c => right_done c sl
                 | Pending sr =>
                     bind_act (fut_poll l sl waker) (λ x,
                       match x with Ready b => left_done b sr | Pending sl => Return (Pending (Racing sl sr)) end)
                 end))
       | AwaitLeft f sl => await l f (AwaitLeft f) sl waker
       | AwaitRight f sr => await r f (AwaitRight f) sr waker
       end)
    (λ s, match s with
          | Racing sl sr => fut_tokens l sl ++ fut_tokens r sr
          | AwaitLeft _ sl => fut_tokens l sl
          | AwaitRight _ sr => fut_tokens r sr
          end).

(** ** What a future promises the executor *)

Definition holds (st : Armed) (slot : Slot) : Prop := slot ∈ (armed st).*1.*1.

(** Dropping a subscription, and making one. *)
Definition disarm (tokens : list Slot) (st : Armed) : Armed :=
  MkArmed (next_slot st) (filter (λ e : Slot * Pollable * Waker, e.1.1 ∉ tokens) (armed st)).

Lemma holds_disarm tokens st n : holds (disarm tokens st) n ↔ holds st n ∧ n ∉ tokens.
Proof.
  unfold holds, disarm. simpl. rewrite !list_elem_of_fmap. split.
  - intros (e & -> & (e' & -> & [Hni Hin]%list_elem_of_filter)%list_elem_of_fmap).
    split; [|done]. exists e'.1. split; [done|]. apply list_elem_of_fmap. by exists e'.
  - intros [(e & -> & (e' & -> & Hin)%list_elem_of_fmap) Hni]. exists e'.1. split; [done|].
    apply list_elem_of_fmap. exists e'. split; [done|]. by apply list_elem_of_filter.
Qed.

Lemma release_perform {B} tokens (a : act B) : ∀ st w,
  spec_perform (release tokens a) st w = spec_perform a (disarm tokens st) w.
Proof.
  induction tokens as [|n tokens IH]; intros st w; cbn [release foldr spec_perform].
  - unfold disarm. f_equal. destruct st as [next l]. simpl. f_equal.
    induction l as [|e l IHl]; [done|]. rewrite filter_cons_True by apply not_elem_of_nil. by f_equal.
  - fold (release tokens a). rewrite IH. unfold disarm. simpl. do 2 f_equal. rewrite list_filter_filter.
    apply list_filter_iff. intros e. set_solver.
Qed.

Definition arm (p : Pollable) (waker : Waker) (st : Armed) : Armed :=
  MkArmed (S (next_slot st)) (armed st ++ [(next_slot st, p, waker)]).

Lemma holds_arm p waker st n : holds (arm p waker st) n ↔ holds st n ∨ n = next_slot st.
Proof. unfold holds, arm. simpl. rewrite !fmap_app, elem_of_app. by rewrite <-(list_elem_of_singleton n). Qed.

(** How many more times the host may answer a wait before every operation can finish. *)
Context (patience : World → nat).

(** A poll that owned [own] before and owns [own'] after: it leaves the subscriptions of
    others alone and arms nothing that it does not own. *)
Record effect (own own' : list Slot) (st : Armed) (w : World) (st' : Armed) (w' : World)
    : Prop := {
  eff_next : (next_slot st ≤ next_slot st')%nat;
  eff_wf : ∀ n, holds st' n → (n < next_slot st')%nat;
  eff_nodup : NoDup own';
  eff_own : ∀ n, n ∈ own' → n ∈ own ∨ (next_slot st ≤ n < next_slot st')%nat;
  eff_frame : ∀ n, n ∉ own → holds st n → holds st' n;
  eff_leak : ∀ n, holds st' n → (holds st n ∧ n ∉ own) ∨ n ∈ own';
  eff_patience : (patience w' ≤ patience w)%nat
}.

Record owned (own : list Slot) (st : Armed) : Prop := {
  owned_wf : ∀ n, holds st n → (n < next_slot st)%nat;
  owned_nodup : NoDup own;
  owned_next : ∀ n, n ∈ own → (n < next_slot st)%nat
}.

Lemma effect_owned own own' st w st' w' : owned own st → effect own own' st w st' w' → owned own' st'.
Proof. intros [_ _ Hn] [Hnext Hwf Hnd Hown _ _ _]. split; [done|done|]. intros n [H%Hn|H]%Hown; lia. Qed.

Lemma effect_refl own st w : owned own st → effect own own st w st w.
Proof. intros []. split; try done; [by left|]. intros n. destruct (decide (n ∈ own)); auto. Qed.

Lemma effect_trans own own1 own2 st w st1 w1 st2 w2 :
  owned own st → effect own own1 st w st1 w1 → effect own1 own2 st1 w1 st2 w2 → effect own own2 st w st2 w2.
Proof.
  intros [Hw _ _] [Hn1 Hw1 _ Ho1 Hf1 Hl1 Hp1] [Hn2 Hw2 Hd2 Ho2 Hf2 Hl2 Hp2]. split; [lia|done|done| | | |lia].
  - intros n [[H|H]%Ho1|H]%Ho2; [by left|right; lia..].
  - intros n Hni Hn. apply Hf2; [|by apply Hf1]. intros [H|H]%Ho1; [done|]. apply Hw in Hn. lia.
  - intros n [[[H|H]%Hl1 Hni]|H]%Hl2; [by left|done|by right].
Qed.

(** Subscriptions of others are carried along. *)
Lemma effect_frame own own' others st w st' w' :
  owned (own ++ others) st → effect own own' st w st' w' → effect (own ++ others) (own' ++ others) st w st' w'.
Proof.
  intros [Hw (Hd1 & Hdisj & Hd2)%NoDup_app Hlt] [Hn Hw' Hd' Ho Hf Hl Hp]. split; [done|done| | | | |done].
  - apply NoDup_app. split; [done|]. split; [|done]. intros n [H|H]%Ho Hin; [by eapply Hdisj|].
    specialize (Hlt n). rewrite elem_of_app in Hlt. specialize (Hlt (or_intror Hin)). lia.
  - intros n [[H|H]%Ho|H]%elem_of_app; rewrite elem_of_app; auto.
  - intros n Hni. rewrite elem_of_app in Hni. apply Hf. tauto.
  - intros n [[H Hni]|H]%Hl; rewrite !elem_of_app; [|auto]. destruct (decide (n ∈ others)); [auto|]. left. tauto.
Qed.

Lemma owned_perm own1 own2 st : own1 ≡ₚ own2 → owned own1 st → owned own2 st.
Proof. intros Hp [Hw Hd Hn]. split; [done|by rewrite <-Hp|]. intros n. rewrite <-Hp. apply Hn. Qed.

Lemma effect_perm own1 own2 own1' own2' st w st' w' :
  own1 ≡ₚ own2 → own1' ≡ₚ own2' → effect own1 own1' st w st' w' → effect own2 own2' st w st' w'.
Proof.
  intros Hp Hp' [Hn Hw Hd Ho Hf Hl Hpat]. split; [done|done|by rewrite <-Hp'| | | |done]; intros n.
  - rewrite <-Hp, <-Hp'. apply Ho.
  - rewrite <-Hp. apply Hf.
  - rewrite <-Hp, <-Hp'. apply Hl.
Qed.

Lemma owned_app_l own others st : owned (own ++ others) st → owned own st.
Proof.
  intros [Hw (Hd & _ & _)%NoDup_app Hn]. split; [done|done|]. intros n H. apply Hn, elem_of_app. by left.
Qed.

Lemma disarm_effect tokens st w : owned tokens st → effect tokens [] st w (disarm tokens st) w.
Proof.
  intros [Hw Hd Hn]. split; simpl; try lia.
  - intros n [Hh _]%holds_disarm. by apply Hw.
  - by apply NoDup_nil.
  - by intros n ?%not_elem_of_nil.
  - intros n Hni Hh. by apply holds_disarm.
  - intros n [Hh Hni]%holds_disarm. by left.
Qed.

Lemma arm_effect p waker st w : owned [] st → effect [] [next_slot st] st w (arm p waker st) w.
Proof.
  intros [Hw _ _]. split; simpl; try lia.
  - intros n [Hh%Hw|Hh]%holds_arm; lia.
  - apply NoDup_singleton.
  - intros n ->%list_elem_of_singleton. right. lia.
  - intros n _ Hh. apply holds_arm. by left.
  - intros n [Hh| ->]%holds_arm; [left|right; by left]. split; [done|]. apply not_elem_of_nil.
Qed.

(** A pending future waits: one of its subscriptions is armed, and the host is not done. *)
Definition waits (own : list Slot) (st : Armed) (w : World) : Prop :=
  (∃ n, n ∈ own ∧ holds st n) ∧ (0 < patience w)%nat.

Definition result_tokens {A S} (tokens : S → list Slot) (r : Poll A S) : list Slot :=
  match r with Ready _ => [] | Pending s => tokens s end.

(** [a] polls a future that owns [own], and that already waits if [stalled]. *)
Definition promises {A S} (tokens : S → list Slot) (own : list Slot) (stalled : bool) (a : act (Poll A S)) : Prop :=
  ∀ st w r st' w', owned own st → (stalled = true → waits own st w) → spec_perform a st w = (r, st', w') →
    effect own (result_tokens tokens r) st w st' w' ∧ ∀ s, r = Pending s → waits (tokens s) st' w'.

Record law {A} (f : Future A) : Prop := {
  law_init : fut_tokens f (fut_init f) = [];
  law_poll : ∀ s waker, promises (fut_tokens f) (fut_tokens f s) false (fut_poll f s waker)
}.

(** A host call that does not make the host less done. *)
Definition calm {R} (host : World → R * World) : Prop := ∀ w, (patience (host w).2 ≤ patience w)%nat.

Lemma promises_ready {A S} (tokens : S → list Slot) stalled (a : A) : promises tokens [] stalled (Return (Ready a)).
Proof. intros st w r st' w' Ho _ [= <- <- <-]. split; [by apply effect_refl|done]. Qed.

Lemma promises_pending {A S} (tokens : S → list Slot) own s :
  own ≡ₚ tokens s → promises (A := A) tokens own true (Return (Pending s)).
Proof.
  intros Hp st w r st' w' Ho Hw [= <- <- <-]. split.
  - eapply effect_perm; [reflexivity|exact Hp|by apply effect_refl].
  - intros s' [= <-]. destruct (Hw eq_refl) as [(n & Hn & Hh) Hpat]. split; [|done]. exists n. by rewrite <-Hp.
Qed.

Lemma promises_release {A S} (tokens : S → list Slot) own stalled (a : act (Poll A S)) :
  promises tokens [] false a → promises tokens own stalled (release own a).
Proof.
  intros Ha st w r st' w' Ho _. rewrite release_perform. intros Hr.
  pose proof (disarm_effect own st w Ho) as Hd.
  destruct (Ha _ _ _ _ _ (effect_owned _ _ _ _ _ _ Ho Hd) ltac:(done) Hr) as [He Hw].
  split; [by eapply effect_trans|done].
Qed.

Lemma promises_ask {A S R} (tokens : S → list Slot) own (host : World → R * World) (k : R → act (Poll A S)) :
  calm host → (∀ x, promises tokens own false (k x)) → promises tokens own false (Ask host k).
Proof.
  intros Hc Hk st w r st' w' Ho _. cbn [spec_perform]. specialize (Hc w). destruct (host w) as [x w1]. simpl in Hc.
  intros Hr. destruct (Hk x _ _ _ _ _ Ho ltac:(done) Hr) as [[] Hw]. split; [|done]. split; try done. lia.
Qed.

Lemma promises_perm {A S} (tokens : S → list Slot) own1 own2 stalled (a : act (Poll A S)) :
  own1 ≡ₚ own2 → promises tokens own1 stalled a → promises tokens own2 stalled a.
Proof.
  intros Hp Ha st w r st' w' Ho Hw Hr.
  destruct (Ha st w r st' w') as [He Hs]; [by apply (owned_perm own2)| |done|].
  - intros Hst. destruct (Hw Hst) as [(n & Hn & Hh) Hpat]. split; [|done]. exists n. by rewrite Hp.
  - split; [|done]. by eapply effect_perm; [exact Hp|reflexivity|].
Qed.

Lemma promises_weaken {A S} (tokens : S → list Slot) own (a : act (Poll A S)) :
  promises tokens own false a → promises tokens own true a.
Proof. intros Ha st w r st' w' Ho _. by apply Ha. Qed.

(** One future is polled beside the subscriptions of others. *)
Lemma promises_bind {A B S S'} (tokens : S → list Slot) (tokens' : S' → list Slot) own others
    (a : act (Poll B S)) (k : Poll B S → act (Poll A S')) :
  promises tokens own false a → (∀ b, promises tokens' others false (k (Ready b))) →
  (∀ s, promises tokens' (tokens s ++ others) true (k (Pending s))) →
  promises tokens' (own ++ others) false (bind_act a k).
Proof.
  intros Ha Hready Hpending st w r st' w' Ho _. rewrite spec_perform_bind.
  destruct (spec_perform a st w) as [[x st1] w1] eqn:Hx. intros Hr.
  destruct (Ha _ _ _ _ _ (owned_app_l _ _ _ Ho) ltac:(done) Hx) as [He Hw].
  pose proof (effect_frame _ _ others _ _ _ _ Ho He) as Hf. pose proof (effect_owned _ _ _ _ _ _ Ho Hf) as Ho1.
  assert (effect (result_tokens tokens x ++ others) (result_tokens tokens' r) st1 w1 st' w'
    ∧ ∀ s, r = Pending s → waits (tokens' s) st' w') as [He' Hw'].
  - destruct x as [b|s].
    + eapply Hready; [exact Ho1|done|exact Hr].
    + eapply Hpending; [exact Ho1| |exact Hr]. intros _. destruct (Hw s eq_refl) as [(n & Hn & Hh) Hpat].
      split; [|done]. exists n. split; [|done]. apply elem_of_app. by left.
  - split; [by eapply effect_trans|done].
Qed.

Lemma promises_await {A B S} (g : Future B) (f : B → A) (wrap : fut_state g → S) tokens s waker :
  law g → (∀ s, tokens (wrap s) = fut_tokens g s) → promises tokens (fut_tokens g s) false (await g f wrap s waker).
Proof.
  intros Hg Ht. unfold await. rewrite <-(app_nil_r (fut_tokens g s)).
  apply (promises_bind (fut_tokens g)); [by apply law_poll|intros; apply promises_ready|].
  intros s'. apply promises_pending. by rewrite Ht, app_nil_r.
Qed.

(** The body of a [poll_fn]: it is pending only while the host is not done. *)
Definition waits_for_host {S R} (body : S → World → Poll R S * World) : Prop :=
  ∀ s w, (patience (body s w).2 ≤ patience w)%nat ∧ ∀ s', (body s w).1 = Pending s' → (0 < patience (body s w).2)%nat.

Lemma poll_fn_law {S R} (body : S → World → Poll R S * World) (resource : World → Pollable * World) s :
  waits_for_host body → (∀ w, patience (resource w).2 = patience w) → law (poll_fn body resource s).
Proof.
  intros Hbody Hres. split; [done|]. intros [s' token] waker. apply promises_release.
  intros st w r st' w' Ho _. cbn [fst snd spec_perform]. destruct (Hbody s' w) as [Hcalm Hwait].
  destruct (body s' w) as [[a|s1] w1]; simpl in Hcalm.
  - intros [= <- <- <-]. split; [|done]. destruct (effect_refl [] st w Ho). split; try done.
  - cbn [spec_perform]. specialize (Hres w1). specialize (Hwait s1 eq_refl). simpl in Hwait.
    destruct (resource w1) as [p w2]. simpl in Hres. cbn [spec_perform]. fold (arm p waker st). intros [= <- <- <-].
    pose proof (arm_effect p waker st w Ho) as [He1 He2 He3 He4 He5 He6 _]. split; [split; try done; lia|].
    intros s2 [= <-]. split; [|lia]. exists (next_slot st). split; [by left|]. apply holds_arm. by right.
Qed.

Lemma async_law {A} (host : World → A * World) : calm host → law (async host).
Proof. intros Hc. split; [done|]. intros s waker. apply promises_ask; [done|]. intros a. apply promises_ready. Qed.

Lemma and_then_law {A B} (f : Future B) (k : B → Future A) : law f → (∀ b, law (k b)) → law (and_then f k).
Proof.
  intros Hf Hk. split; [exact (law_init _ Hf)|].
  assert (∀ b s waker, promises (fut_tokens (and_then f k)) (fut_tokens (k b) s) false
    (await (k b) id (λ s, inr (existT b s) : fut_state (and_then f k)) s waker)) as Hsecond.
  { intros b s waker. by apply promises_await. }
  intros [s|[b s]] waker; [|apply Hsecond]. cbn [fut_poll and_then].
  change (fut_tokens (and_then f k) (inl s)) with (fut_tokens f s). rewrite <-(app_nil_r (fut_tokens f s)).
  apply (promises_bind (fut_tokens f)); [by apply law_poll| |].
  - intros b. rewrite <-(law_init _ (Hk b)). apply Hsecond.
  - intros s'. apply promises_pending. by rewrite app_nil_r.
Qed.

Lemma select_law {A B C} (order : World → bool * World) (l : Future B) (r : Future C)
    (on_left : B → A + (C → A)) (on_right : C → A + (B → A)) :
  calm order → law l → law r → law (select order l r on_left on_right).
Proof.
  intros Ho Hl Hr. set (sel := select order l r on_left on_right).
  assert (∀ f s waker, promises (fut_tokens sel) (fut_tokens l s) false (await l f (AwaitLeft f) s waker)) as Hleft.
  { intros. by apply promises_await. }
  assert (∀ f s waker, promises (fut_tokens sel) (fut_tokens r s) false (await r f (AwaitRight f) s waker)) as Hright.
  { intros. by apply promises_await. }
  split; [by cbn; rewrite !law_init|]. intros [sl sr|f sl|f sr] waker; [|apply Hleft|apply Hright].
  apply promises_ask; [done|]. intros [].
  - apply (promises_bind (fut_tokens l)); [by apply law_poll|intros b|intros sl'].
    + destruct (on_left b); [apply promises_release, promises_ready|apply Hright].
    + apply promises_weaken, (promises_perm _ (fut_tokens r sr ++ fut_tokens l sl')); [by rewrite Permutation_app_comm|].
      apply (promises_bind (fut_tokens r)); [by apply law_poll|intros c|intros sr'].
      * destruct (on_right c); [apply promises_release, promises_ready|apply Hleft].
      * apply promises_pending. by rewrite Permutation_app_comm.
  - apply (promises_perm _ (fut_tokens r sr ++ fut_tokens l sl)); [by rewrite Permutation_app_comm|].
    apply (promises_bind (fut_tokens r)); [by apply law_poll|intros c|intros sr'].
    + destruct (on_right c); [apply promises_release, promises_ready|apply Hleft].
    + apply promises_weaken, (promises_perm _ (fut_tokens l sl ++ fut_tokens r sr')); [by rewrite Permutation_app_comm|].
      apply (promises_bind (fut_tokens l)); [by apply law_poll|intros b|intros sl'].
      * destruct (on_left b); [apply promises_release, promises_ready|apply Hright].
      * by apply promises_pending.
Qed.

End futures.

(** ** Running lawful futures *)

Section running.
Context {World Pollable Waker : Type}.
Local Abbreviation Future := (Future World Pollable Waker).
Context (poll : list Pollable → World → list Z * World) (wake : Waker → World → World) (noop : Waker).
Context (patience : World → nat).
Local Abbreviation law := (law patience).
Local Abbreviation waits := (waits patience).
Local Abbreviation spec_turn := (spec_turn poll wake).
Local Abbreviation spec_loop := (spec_loop poll wake noop).

(** The documented behaviour of [poll]: it names pollables it was given, and a wait brings
    the host closer to being done; waking a task does not undo that. *)
Record host_law : Prop := {
  host_poll : ∀ ps w, ps ≠ [] →
    in_range (length ps) (poll ps w).1 = true
    ∧ (patience (poll ps w).2 ≤ pred (patience w))%nat;
  host_wake : ∀ waker w, (patience (wake waker w) ≤ patience w)%nat
}.

Lemma wakes_calm l : host_law → ∀ w, (patience (foldl (λ w (e : Slot * Pollable * Waker), wake e.2 w) w l) ≤ patience w)%nat.
Proof.
  intros Hh. induction l as [|e l IH]; intros w; [done|]. simpl. etrans; [apply IH|apply Hh].
Qed.

Lemma spec_turn_waits own st w : host_law → owned own st → waits own st w →
  ∃ st' w', spec_turn st w = Some (st', w') ∧ owned own st' ∧ (patience w' < patience w)%nat
    ∧ ∀ n, holds st' n → holds st n.
Proof.
  intros Hh [Hw Hd Hn] [(n & Hin & Hheld) Hpat]. unfold spec_turn.
  assert ((armed st).*1.*2 ≠ []) as Hne. { unfold holds in Hheld. destruct (armed st); [by apply not_elem_of_nil in Hheld|done]. }
  destruct (host_poll Hh _ w Hne) as [Hrange Hless]. rewrite !length_fmap in Hrange.
  destruct (armed st) as [|e l] eqn:Ha; [done|]. rewrite <-Ha in *.
  destruct (poll _ w) as [indices w1]. simpl in Hrange, Hless. rewrite Hrange.
  eexists _, _. split; [done|].
  assert (∀ m, holds (MkArmed (next_slot st) (selected false (flags (length (armed st)) indices) (armed st))) m → holds st m)
    as Hsub.
  { intros m. unfold holds. simpl. intros Hm. eapply elem_of_sublist; [exact Hm|].
    apply fmap_sublist, fmap_sublist, selected_sub. unfold flags. by rewrite length_fmap, length_seq. }
  split; [|split; [|done]].
  - split; simpl; auto.
  - eapply Nat.le_lt_trans; [by apply wakes_calm|]. lia.
Qed.

Lemma spec_loop_completes {A} (f : Future A) : law f → host_law → ∀ polls s st w,
  owned (fut_tokens f s) st → (patience w < polls)%nat →
  ∃ a st' w', spec_loop f polls s st w = (Returned a, st', w') ∧ ∀ n, holds st' n → holds st n ∧ n ∉ fut_tokens f s.
Proof.
  intros Hf Hh. induction polls as [|polls IH]; intros s st w Ho Hlt; [lia|]. cbn [spec_loop].
  destruct (spec_perform (fut_poll f s noop) st w) as [[r st1] w1] eqn:Hp.
  destruct (law_poll _ f Hf s noop _ _ _ _ _ Ho ltac:(done) Hp) as [He Hw].
  destruct r as [a|s1].
  - exists a, st1, w1. split; [done|]. intros n [H|H]%(eff_leak _ _ _ _ _ _ _ He); [done|by apply not_elem_of_nil in H].
  - pose proof (effect_owned _ _ _ _ _ _ _ Ho He) as Ho1.
    destruct (spec_turn_waits _ _ _ Hh Ho1 (Hw s1 eq_refl)) as (st2 & w2 & -> & Ho2 & Hless & Hsub).
    pose proof (eff_patience _ _ _ _ _ _ _ He).
    destruct (IH s1 st2 w2 Ho2) as (a & st3 & w3 & -> & Hleak); [lia|]. exists a, st3, w3. split; [done|].
    intros n Hn%Hleak. destruct Hn as [H2' Hni]. apply Hsub in H2'.
    apply (eff_leak _ _ _ _ _ _ _ He) in H2' as [H2'|H2']; done.
Qed.
End running.

Lemma executor_owned {Pollable Waker} (x : @Executor Pollable Waker) : executor_wf x → owned [] (abstract x).
Proof.
  intros [_ Ha _]. split; [|by apply NoDup_nil|by intros n ?%not_elem_of_nil]. intros n Hn. rewrite Forall_forall in Ha.
  apply Ha. eapply elem_of_sublist; [exact Hn|apply armed_of_slots].
Qed.

(** ** The futures of an exchange *)

(** What the futures of [Service::call_once] ask of the host: the output stream of the
    request body, the response and the input stream of its body. *)
Record Streams (Host Pollable : Type) := MkStreams {
  check_write : Host → Result Z HttpError * Host;
  write : bytes → Host → Result () HttpError * Host;
  output_subscribe : Host → Pollable * Host;
  finish_body : Host → Result () HttpError * Host;
  get_response : Host → option (Result (Result (Z * list (string * bytes)) HttpError) ()) * Host;
  response_subscribe : Host → Pollable * Host;
  read : Host → ReadAnswer * Host;
  input_subscribe : Host → Pollable * Host
}.
Arguments MkStreams {_ _} _ _ _ _ _ _ _ _.
Arguments check_write {_ _} s _ : rename.
Arguments write {_ _} s _ _ : rename.
Arguments output_subscribe {_ _} s _ : rename.
Arguments finish_body {_ _} s _ : rename.
Arguments get_response {_ _} s _ : rename.
Arguments response_subscribe {_ _} s _ : rename.
Arguments read {_ _} s _ : rename.
Arguments input_subscribe {_ _} s _ : rename.

Section exchange_futures.
Context `{Target} {Host Pollable Waker : Type} (streams : Streams Host Pollable).

(** The session's budget is shared with the host's state. *)
Local Abbreviation World := (Budget * Host)%type.
Local Abbreviation Future := (Future World Pollable Waker).

(** A call to the host, and a charge to the budget. *)
Definition on_host {R} (call : Host → R * Host) (w : World) : R * World :=
  let '(r, h) := call w.2 in (r, (w.1, h)).
Definition charge_transfer (n : Z) (w : World) : bool * World :=
  let '(accepted, b) := budget_transfer n w.1 in (accepted, (b, w.2)).

(** The loop of [write_chunk], until its stream has no room; every turn writes something,
    so it ends within [fuel] turns when [fuel] is the chunk's length. *)
Fixpoint poll_write (fuel : nat) (b : bytes) (offset : nat) (w : World) : Poll (Result () HttpError) nat * World :=
  if (offset <? length b)%nat then
    match fuel with
    | O => (Pending offset, w)
    | S fuel =>
        let '(available, w) := on_host (check_write streams) w in
        match available with
        | Err e => (Ready (Err e), w)
        | Ok available =>
            if available =? 0 then (Pending offset, w)
            else
              let count := Z.to_nat (Z.min (default usize_max (usize_try_from available)) (len b - Z.of_nat offset)) in
              let '(written, w) := on_host (write streams (take count (drop offset b))) w in
              match written with
              | Err e => (Ready (Err e), w)
              | Ok _ => poll_write fuel b (offset + count)%nat w
              end
        end
    end
  else (Ready (Ok ()), w).

Definition write_future (b : bytes) : Future (Result () HttpError) :=
  poll_fn (poll_write (length b) b) (on_host (output_subscribe streams)) 0%nat.

(** The [upload] future: the frames of the body are futures of the request's own. *)
Fixpoint upload_future (frames : list (Future (Result (option bytes) HttpError))) : Future (Result () HttpError) :=
  match frames with
  | [] => async (on_host (finish_body streams))
  | frame :: frames =>
      and_then frame (λ r,
        match r with
        | Err e => async (pair (Err e))
        | Ok None => upload_future frames
        | Ok (Some data) =>
            and_then (async (charge_transfer (len data))) (λ accepted : bool,
              if accepted then
                and_then (write_future data) (λ r,
                  match r with Err e => async (pair (Err e)) | Ok _ => upload_future frames end)
              else async (pair (Err Quota)))
        end)
  end.

(** The [response] future. *)
Definition poll_response (_ : ()) (w : World) : Poll (Result (Z * list (string * bytes)) HttpError) () * World :=
  let '(answer, w) := on_host (get_response streams) w in
  match answer with
  | None => (Pending (), w)
  | Some (Err _) => (Ready (Err (Text "response already consumed")), w)
  | Some (Ok result) => (Ready result, w)
  end.
Definition response_future : Future (Result (Z * list (string * bytes)) HttpError) :=
  poll_fn poll_response (on_host (response_subscribe streams)) ().

(** One item of the stream of [incoming_body]. *)
Definition poll_read (_ : ()) (w : World) : Poll (option (Result bytes HttpError)) () * World :=
  let '(answer, w) := on_host (read streams) w in
  match answer with
  | ReadChunk [] => (Pending (), w)
  | ReadChunk chunk => (Ready (Some (Ok chunk)), w)
  | ReadClosed => (Ready None, w)
  | ReadFailed error => (Ready (Some (Err error)), w)
  end.
Definition next_chunk : Future (option (Result bytes HttpError)) :=
  poll_fn poll_read (on_host (input_subscribe streams)) ().

(** [finish_exchange]. *)
Definition on_upload {T E} (is_success : T → bool) (uploaded : Result () E) : Result T E + (Result T E → Result T E) :=
  match uploaded with
  | Ok _ => inr id
  | Err upload_error =>
      inr (λ response,
        match response with Ok r => if negb (is_success r) then Ok r else Err upload_error | Err _ => Err upload_error end)
  end.
Definition on_response {T E} (is_success : T → bool) (response : Result T E) : Result T E + (Result () E → Result T E) :=
  let awaited := inr (λ uploaded : Result () E, match uploaded with Err e => Err e | Ok _ => response end) in
  match response with
  | Ok r => if negb (is_success r) then inl (Ok r) else awaited
  | Err _ => awaited
  end.

Definition exchange_future {T E} (is_success : T → bool) (order : World → bool * World)
    (upload : Future (Result () E)) (response : Future (Result T E)) : Future (Result T E) :=
  select order upload response (on_upload is_success) (on_response is_success).

(** Whichever future completes first, the answer is that of [finish_exchange]. *)
Lemma exchange_answers {T E} (is_success : T → bool) (uploaded : Result () E) (response : Result T E) :
  (match on_upload is_success uploaded with inl a => a | inr f => f response end)
    = finish_exchange is_success UploadFirst uploaded response
  ∧ (match on_response is_success response with inl a => a | inr f => f uploaded end)
    = finish_exchange is_success ResponseFirst uploaded response.
Proof. destruct uploaded as [[]|e], response as [r|e']; simpl; try done; by destruct (is_success r). Qed.

(** What the host's streams document: an operation that has to wait is one the host can
    still make ready. *)
Context (patience : Host → nat).

Record streams_law : Prop := {
  law_check_write : ∀ h, (patience (check_write streams h).2 ≤ patience h)%nat
    ∧ ∀ n, (check_write streams h).1 = Ok n → 0 ≤ n ∧ (n = 0 → (0 < patience (check_write streams h).2)%nat);
  law_write : ∀ b h, (patience (write streams b h).2 ≤ patience h)%nat;
  law_finish : ∀ h, (patience (finish_body streams h).2 ≤ patience h)%nat;
  law_response : ∀ h, (patience (get_response streams h).2 ≤ patience h)%nat
    ∧ ((get_response streams h).1 = None → (0 < patience (get_response streams h).2)%nat);
  law_read : ∀ h, (patience (read streams h).2 ≤ patience h)%nat
    ∧ ((read streams h).1 = ReadChunk [] → (0 < patience (read streams h).2)%nat);
  law_subscribe : ∀ h, patience (output_subscribe streams h).2 = patience h
    ∧ patience (response_subscribe streams h).2 = patience h ∧ patience (input_subscribe streams h).2 = patience h
}.

Local Abbreviation world_patience := (λ w : World, patience w.2).
Local Abbreviation law := (law (Pollable := Pollable) (Waker := Waker) world_patience).

Lemma on_host_patience {R} (call : Host → R * Host) (w : World) : patience (on_host call w).2.2 = patience (call w.2).2.
Proof. unfold on_host. by destruct (call w.2). Qed.

Lemma on_host_answer {R} (call : Host → R * Host) (w : World) : (on_host call w).1 = (call w.2).1.
Proof. unfold on_host. by destruct (call w.2). Qed.

Lemma on_host_calm {R} (call : Host → R * Host) :
  (∀ h, (patience (call h).2 ≤ patience h)%nat) → calm world_patience (on_host call).
Proof. intros Hc w. rewrite on_host_patience. apply Hc. Qed.

Lemma poll_write_waits b fuel : streams_law → ∀ offset w, (length b - offset ≤ fuel)%nat →
  (patience (poll_write fuel b offset w).2.2 ≤ patience w.2)%nat
  ∧ ∀ offset', (poll_write fuel b offset w).1 = Pending offset' → (0 < patience (poll_write fuel b offset w).2.2)%nat.
Proof.
  intros Hs. induction fuel as [|fuel IH]; intros offset w Hfuel; cbn [poll_write].
  { assert ((offset <? length b)%nat = false) as -> by (apply Nat.ltb_ge; lia). done. }
  destruct (offset <? length b)%nat eqn:Hlt; [apply Nat.ltb_lt in Hlt|done].
  pose proof (on_host_patience (check_write streams) w) as Hp. pose proof (on_host_answer (check_write streams) w) as Ha.
  destruct (law_check_write Hs w.2) as [Hle Hok]. rewrite <-Hp in *. rewrite <-Ha in Hok.
  destruct (on_host (check_write streams) w) as [[available|e] w1]; cbn [fst snd] in *; [|done].
  destruct (Hok available eq_refl) as [Hnn Hzero]. destruct (available =? 0) eqn:Hz; [split; [done|]; intros; apply Hzero; lia|].
  set (count := Z.to_nat _). assert (1 ≤ count)%nat as Hcount.
  { unfold count, len. unfold usize_try_from. destruct (in_usize available); simpl; [lia|].
    destruct usize_max_cases as [-> | ->]; unfold u32_max, u64_max; lia. }
  pose proof (on_host_patience (write streams (take count (drop offset b))) w1) as Hp'.
  pose proof (law_write Hs (take count (drop offset b)) w1.2) as Hle'. rewrite <-Hp' in Hle'.
  destruct (on_host (write streams _) w1) as [[written|e] w2]; cbn [fst snd] in *; [|split; [lia|done]].
  destruct (IH (offset + count)%nat w2) as [Hle2 Hpend]; [lia|]. split; [lia|done].
Qed.

Lemma write_law b : streams_law → law (write_future b).
Proof.
  intros Hs. apply poll_fn_law.
  - intros offset w. by apply (poll_write_waits b (length b) Hs offset w ltac:(lia)).
  - intros w. rewrite on_host_patience. by apply law_subscribe.
Qed.

Lemma async_pure_law {A} (a : A) : law (async (pair a)).
Proof. apply async_law. by intros w. Qed.

Lemma upload_law frames : streams_law → Forall (λ f, law f) frames → law (upload_future frames).
Proof.
  intros Hs. induction 1 as [|frame frames Hf _ IH]; cbn [upload_future].
  { apply async_law, on_host_calm, Hs. }
  apply and_then_law; [done|]. intros [[data|]|e]; [|done|apply async_pure_law].
  apply and_then_law.
  { apply async_law. intros w. unfold charge_transfer. by destruct (budget_transfer _ _). }
  intros []; [|apply async_pure_law]. apply and_then_law; [by apply write_law|].
  intros [_|e]; [done|apply async_pure_law].
Qed.

Lemma response_law : streams_law → law response_future.
Proof.
  intros Hs. apply poll_fn_law.
  - intros s w. unfold poll_response. pose proof (on_host_patience (get_response streams) w) as Hp.
    pose proof (on_host_answer (get_response streams) w) as Ha. destruct (law_response Hs w.2) as [Hle Hnone].
    rewrite <-Hp in *. rewrite <-Ha in Hnone.
    destruct (on_host (get_response streams) w) as [[[r|]|] w1]; cbn [fst snd] in *; split; try done. intros; by apply Hnone.
  - intros w. rewrite on_host_patience. by apply law_subscribe.
Qed.

Lemma next_chunk_law : streams_law → law next_chunk.
Proof.
  intros Hs. apply poll_fn_law.
  - intros s w. unfold poll_read. pose proof (on_host_patience (read streams) w) as Hp.
    pose proof (on_host_answer (read streams) w) as Ha. destruct (law_read Hs w.2) as [Hle Hnone].
    rewrite <-Hp in *. rewrite <-Ha in Hnone.
    destruct (on_host (read streams) w) as [[[|]| |] w1]; cbn [fst snd] in *; split; try done. intros; by apply Hnone.
  - intros w. rewrite on_host_patience. by apply law_subscribe.
Qed.

(** ** Exchanges complete *)

Context (poll : list Pollable → World → list Z * World) (wake : Waker → World → World) (noop : Waker).

(** A future that keeps its promises is run to completion: with a host that answers every
    wait, [run] returns after at most [patience] waits, and what it leaves armed was armed
    before. *)
Definition completes {A} (f : Future A) (x : @Executor Pollable Waker) (w : World) : Prop :=
  ∃ a x' w', run poll wake noop f (S (patience w.2)) x w = (Returned a, x', w')
    ∧ executor_wf x' ∧ ∀ slot, holds (abstract x') slot → holds (abstract x) slot.

Lemma lawful_completes {A} (f : Future A) x w :
  law f → host_law poll wake world_patience → executor_wf x → completes f x w.
Proof.
  intros Hf Hh Hx. destruct (retain_refines x Hx) as [Hx1 Habs].
  assert (owned (fut_tokens f (fut_init f)) (abstract (retain_waiting x))) as Ho.
  { rewrite (law_init _ _ Hf). by apply executor_owned. }
  destruct (spec_loop_completes poll wake noop world_patience f Hf Hh (S (patience w.2)) _ _ w Ho (Nat.lt_succ_diag_r _))
    as (a & st & w' & Hloop & Hleak).
  unfold completes, run. destruct (run_loop poll wake noop f (S (patience w.2)) (fut_init f) (retain_waiting x) w) as [[o x'] w''] eqn:Hr.
  apply loop_refines in Hr as [Hx' Hspec]; [|done]. rewrite Hspec in Hloop. injection Hloop as -> <- ->.
  exists a, x', w'. split; [done|]. split; [done|]. intros slot Hs%Hleak. rewrite Habs in Hs. apply Hs.
Qed.

(** C31. An exchange never panics and never hangs: the race of its upload and response, and
    every read of the response's body, are run to completion by the executor, whatever the
    order in which their streams become ready and whichever future is polled first, as
    long as the host makes each awaited resource ready after finitely many waits; and no
    subscription of theirs stays armed. *)
Theorem exchange_completes frames order x w :
  streams_law → host_law poll wake world_patience → calm world_patience order →
  Forall (λ f, law f) frames → executor_wf x →
  completes (exchange_future (λ r : Z * list (string * bytes), status_success r.1) order (upload_future frames) response_future) x w
  ∧ completes next_chunk x w.
Proof.
  intros Hs Hh Ho Hf Hx. split; apply lawful_completes; try done.
  - apply select_law; [done|by apply upload_law|by apply response_law].
  - by apply next_chunk_law.
Qed.
End exchange_futures.

(** ** A chunk is written as if the calls blocked *)

Section scripted.
Context `{Target} {Waker : Type}.

(** A host that answers [check_write] and [write] from a script, and keeps what was written. *)
Definition Script : Type := list (Result Z HttpError * Result () HttpError) * list bytes.

Definition scripted_check (h : Script) : Result Z HttpError * Script :=
  match h.1 with
  | [] => (Ok 0, h)
  | (Err e, _) :: answers => (Err e, (answers, h.2))
  | (Ok available, _) :: answers => (Ok available, if available =? 0 then (answers, h.2) else h)
  end.

Definition scripted_write (b : bytes) (h : Script) : Result () HttpError * Script :=
  match h.1 with
  | [] => (Ok (), h)
  | (_, Ok _) :: answers => (Ok (), (answers, h.2 ++ [b]))
  | (_, Err e) :: answers => (Err e, (answers, h.2))
  end.

Definition scripted : Streams Script () :=
  MkStreams scripted_check scripted_write (pair ()) (pair (Ok ())) (pair None) (pair ()) (pair ReadClosed) (pair ()).

Local Abbreviation answers_typed := (Forall (λ a : Result Z HttpError * Result () HttpError, ∀ n, a.1 = Ok n → 0 ≤ n)).

(** One poll consumes the answers up to the first wait. *)
Lemma poll_write_script b bud fuel : ∀ answers offset out,
  (length b - offset ≤ fuel)%nat → answers_typed answers →
  ∃ r rest pieces, poll_write scripted fuel b offset (bud, (answers, out)) = (r, (bud, (rest, out ++ pieces)))
  ∧ match r with
    | Ready a => write_chunk (drop offset b) answers = (pieces, Some a)
    | Pending offset' =>
        (offset' < length b)%nat ∧ answers_typed rest ∧ (length rest < length answers ∨ (answers = [] ∧ rest = []))%nat
        ∧ write_chunk (drop offset b) answers
          = (pieces ++ (write_chunk (drop offset' b) rest).1, (write_chunk (drop offset' b) rest).2)
    end.
Proof.
  induction fuel as [|fuel IH]; intros answers offset out Hfuel Htyped; cbn [poll_write].
  { assert ((offset <? length b)%nat = false) as -> by (apply Nat.ltb_ge; lia). eexists _, answers, []. rewrite app_nil_r.
    split; [done|]. rewrite drop_ge by lia. by destruct answers as [|[[] []] ?]. }
  destruct (offset <? length b)%nat eqn:Hlt.
  2:{ apply Nat.ltb_ge in Hlt. eexists _, answers, []. rewrite app_nil_r. split; [done|]. rewrite drop_ge by lia.
      by destruct answers as [|[[] []] ?]. }
  apply Nat.ltb_lt in Hlt. unfold on_host. cbn [snd fst check_write scripted].
  assert (∃ y ys, drop offset b = y :: ys) as (y & ys & Hdrop).
  { destruct (drop offset b) eqn:Hd; [apply (f_equal length) in Hd; rewrite length_drop in Hd; simpl in Hd; lia|eauto]. }
  destruct answers as [|[[available|e] written] answers]; cbn [scripted_check fst snd].
  - cbn. eexists _, [], []. rewrite app_nil_r. split; [done|]. rewrite Hdrop. split_and!; [done|exact Htyped|by right|by rewrite Hdrop].
  - apply Forall_cons in Htyped as [Hnn Htyped]. specialize (Hnn available eq_refl).
    destruct (available =? 0) eqn:Hz.
    { eexists _, answers, []. rewrite app_nil_r. split; [done|]. rewrite Hdrop. cbn [write_chunk app]. rewrite Hz, <-Hdrop.
      split_and!; [done|done|left; simpl; lia|]. by destruct (write_chunk _ answers). }
    set (count := Z.to_nat _). cbn [write scripted scripted_write fst snd].
    assert (write_chunk (drop offset b) ((Ok available, written) :: answers)
      = match written with
        | Err e => ([], Some (Err e))
        | Ok _ => let '(pieces, r) := write_chunk (drop (offset + count) b) answers in (take count (drop offset b) :: pieces, r)
        end) as Hw.
    { rewrite <-drop_drop. assert (len (drop offset b) = len b - Z.of_nat offset) as Hlen.
      { unfold len. rewrite length_drop. lia. }
      rewrite Hdrop in *. cbn [write_chunk]. rewrite Hz, Hlen. done. }
    assert (1 ≤ count)%nat as Hcount.
    { unfold count, len. unfold usize_try_from. destruct (in_usize available); simpl; [lia|].
      destruct usize_max_cases as [-> | ->]; unfold u32_max, u64_max; lia. }
    rewrite Hw. destruct written as [[]|e]; cbn [fst snd].
    + destruct (IH answers (offset + count)%nat (out ++ [take count (drop offset b)])) as (r & rest & pieces & Heq & Hr);
        [lia|done|].
      eexists r, rest, (take count (drop offset b) :: pieces). split; [by rewrite <-app_assoc in Heq|].
      destruct r as [a|offset']; [by rewrite Hr|].
      destruct Hr as (Hoff & Hrest & Hless & ->). split_and!; [done|done| |done]. left. simpl. naive_solver lia.
    + eexists _, answers, []. by rewrite app_nil_r.
  - eexists _, answers, []. rewrite app_nil_r. split; [done|]. by rewrite Hdrop.
Qed.

Local Abbreviation World := (Budget * Script)%type.
Context (poll : list () → World → list Z * World) (noop : Waker).
Local Abbreviation idle := (λ (_ : Waker) (w : World), w).

(** The host's poll names what it was given and leaves the script alone. *)
Definition poll_only : Prop := ∀ ps w, ps ≠ [] → in_range (length ps) (poll ps w).1 = true ∧ (poll ps w).2 = w.

Lemma spec_turn_idle st w : poll_only → armed st ≠ [] → ∃ st', spec_turn poll idle st w = Some (st', w).
Proof.
  intros Hpoll Hne. unfold spec_turn. destruct (Hpoll (armed st).*1.*2 w) as [Hrange Hw]; [by destruct (armed st)|].
  rewrite !length_fmap in Hrange. destruct (armed st) as [|e l]; [done|]. destruct (poll _ w) as [indices w1].
  cbn [fst snd] in Hrange, Hw. subst w1. rewrite Hrange. eexists. do 2 f_equal. by induction (selected _ _ _).
Qed.

Lemma write_loop_script b bud : poll_only → ∀ polls answers offset token out st,
  answers_typed answers → (length answers < polls ∨ (answers = [] ∧ offset < length b))%nat →
  ∃ st' rest, spec_loop poll idle noop (write_future scripted b) polls (offset, token) st (bud, (answers, out))
    = (match (write_chunk (drop offset b) answers).2 with Some r => Returned r | None => Waiting end, st',
       (bud, (rest, out ++ (write_chunk (drop offset b) answers).1))).
Proof.
  intros Hpoll. induction polls as [|polls IH]; intros answers offset token out st Htyped Hpolls; cbn [spec_loop].
  { destruct Hpolls as [?|[-> Hlt]]; [lia|]. exists st, [].
    destruct (drop offset b) eqn:Hd; [apply (f_equal length) in Hd; rewrite length_drop in Hd; simpl in Hd; lia|].
    simpl. by rewrite app_nil_r. }
  cbn [write_future poll_fn fut_poll fst snd]. rewrite release_perform. cbn [spec_perform].
  destruct (poll_write_script b bud (length b) answers offset out ltac:(lia) Htyped) as (r & rest & pieces & -> & Hr).
  destruct r as [a|offset']; cbn [spec_perform]; [rewrite Hr; eauto|].
  destruct Hr as (Hoff & Hrest & Hless & ->). unfold on_host. cbn [output_subscribe scripted snd fst spec_perform].
  match goal with |- context [spec_turn poll idle ?st1 ?w1] =>
    destruct (spec_turn_idle st1 w1 Hpoll) as [st2 ->]; [cbn; by destruct (filter _ _)|] end.
  destruct (IH rest offset' (Some (next_slot (disarm (option_list token) st))) (out ++ pieces) st2 Hrest) as (st' & rest' & Heq).
  { destruct Hless as [?|[_ ->]]; [left|by right]. destruct Hpolls as [?|[-> _]]; simpl in *; lia. }
  exists st', rest'. rewrite app_assoc. exact Heq.
Qed.

(** C32. Run by the executor, [write_chunk] does exactly what its loop would do if the
    stream's calls blocked: the same pieces are written, in order, and it returns the same
    result, or still waits when the stream never has room again. *)
Theorem write_chunk_blocks b bud answers polls x :
  poll_only → answers_typed answers → (length answers < polls)%nat → executor_wf x →
  ∃ x' rest, run poll idle noop (write_future scripted b) polls x (bud, (answers, []))
    = (match (write_chunk b answers).2 with Some r => Returned r | None => Waiting end, x',
       (bud, (rest, (write_chunk b answers).1)))
  ∧ executor_wf x'.
Proof.
  intros Hpoll Htyped Hpolls Hx. destruct (retain_refines x Hx) as [Hx1 _]. unfold run.
  destruct (run_loop poll idle noop (write_future scripted b) polls (fut_init (write_future scripted b)) (retain_waiting x) (bud, (answers, [])))
    as [[o x'] w'] eqn:Hrun.
  apply loop_refines in Hrun as [Hx' Hspec]; [|done].
  destruct (write_loop_script b bud Hpoll polls answers 0 None [] (abstract (retain_waiting x)) Htyped (or_introl Hpolls))
    as (st' & rest & Hloop).
  change (fut_init (write_future scripted b)) with (0%nat, @None Slot) in Hspec. rewrite Hspec, drop_0 in Hloop.
  injection Hloop as -> _ ->. exists x', rest. by split.
Qed.
End scripted.
