(* ===== verification/WalSession.v ===== *)
(** * Sessions of the WAL component

    [examples/wal-component/src/lib.rs] and [maintenance.rs]: the resources the component
    exports ([session], [recovery], [candidate], [pending-checkpoint], [byte-writer],
    [byte-reader]) and how each of their functions uses a log and changes the resource.
    [executor::run] drives one future to completion, so an exported function is the
    program of that future; it returns the resource beside its result. *)

From S2P Require Import Prelude Types Head Cbor Wire Format Prog Store Log LogOps LogMaintain History ByteStream.
From S2P Require Import WalTransport.

(** ** Values of the exported interface *)

(** [Failure]; [FError e] is [Failure::Other(e.to_string())]. *)
Inductive Failure :=
  | FMissing
  | FExpired
  | FLimit (limit : string)
  | FOther (message : string)
  | FError (error : Error).

(** [From<object_log::Error> for Failure]. *)
Definition failure_of (error : Error) : Failure :=
  match error with
  | LogNotFound => FMissing
  | ViewExpired => FExpired
  | LimitExceeded limit => FLimit limit
  | error => FError error
  end.

Inductive RetentionState := RApplied | RActiveCollection | RConflict | RPending.
Inductive MaintenanceState := MComplete | MMore | MConflict | MPending | MRetained.
Record CollectionResult := MkCollectionResult {
  result_state : MaintenanceState;
  result_objects : Z;
  result_bytes : Z
}.

Inductive CredentialMode := StaticCredentials | InstanceRole.
Record LogLimits := MkLogLimits {
  limit_tail_entries : Z;
  limit_resolution_window : Z;
  limit_inline_operation_bytes : Z;
  limit_inline_result_bytes : Z;
  limit_object_refs : Z;
  limit_object_bytes : Z;
  limit_commit_bytes : Z;
  limit_head_bytes : Z;
  limit_checkpoint_bytes : Z;
  limit_retention_ids : Z;
  limit_collection_objects : Z;
  limit_collection_plan_bytes : Z
}.
Record Config := MkConfig {
  endpoint : bytes;
  bucket : bytes;
  region : bytes;
  credential_mode : CredentialMode;
  access_key : bytes;
  secret_key : bytes;
  session_token : option bytes;
  config_prefix : bytes;
  config_log_id : bytes;
  config_log_limits : LogLimits;
  limit_calls : Z;
  limit_bytes : Z
}.

(** What [s3_builder] sets on [AmazonS3Builder]: the same connector, crypto provider,
    time limits and absence of retries always, and either static keys or the instance
    metadata service. *)
Inductive S3Credentials :=
  | S3Static (access_key secret_key : bytes) (token : option bytes)
  | S3Metadata (endpoint : bytes).
Record S3Settings := MkS3Settings {
  s3_endpoint : bytes;
  s3_bucket : bytes;
  s3_region : bytes;
  s3_allow_http : bool;
  s3_connect_timeout : Z;
  s3_read_timeout : Z;
  s3_max_retries : Z;
  s3_credentials : S3Credentials
}.

Definition INSTANCE_METADATA_ENDPOINT : bytes := str "http://169.254.169.254".

(** [str::starts_with]. *)
Definition starts_with (value prefix : bytes) : bool := bool_decide (take (length prefix) value = prefix).

(** [s3_builder]; seconds for the time limits. *)
Definition s3_builder (settings : Config) : Result S3Settings Failure :=
  if bool_decide (region settings = []) then Err (FOther "S3 region is required")
  else
    let builder := MkS3Settings (endpoint settings) (bucket settings) (region settings)
      (starts_with (endpoint settings) (str "http://")) 5 30 0 in
    match credential_mode settings with
    | StaticCredentials =>
        if bool_decide (access_key settings = []) || bool_decide (secret_key settings = [])
           || bool_decide (session_token settings = Some [])
        then Err (FOther "static S3 credentials are incomplete")
        else Ok (builder (S3Static (access_key settings) (secret_key settings) (session_token settings)))
    | InstanceRole =>
        if negb (bool_decide (access_key settings = [])) || negb (bool_decide (secret_key settings = []))
           || bool_decide (is_Some (session_token settings))
        then Err (FOther "instance-role credentials cannot include static keys or a token")
        else Ok (builder (S3Metadata INSTANCE_METADATA_ENDPOINT))
    end.

(** [uuid::Uuid::from_slice], and the two identifiers built from it. *)
Definition uuid_from_slice (value : bytes) : option Uuid :=
  if len value =? UUID_LEN then Some (MkUuid value) else None.
Definition retention_id (value : bytes) : Result RetentionId Failure :=
  match uuid_from_slice value with
  | Some u => Ok (MkRetentionId u)
  | None => Err (FOther "retention ID must contain 16 bytes")
  end.
Definition wal_transaction_id (value : bytes) : Result TransactionId Failure :=
  match uuid_from_slice value with
  | Some u => Ok (MkTransactionId u)
  | None => Err (FOther "transaction ID must contain 16 bytes")
  end.

Section session.
Context `{Target} `{Blake3} `{Cbor} `{!DerivedDecode} `{ObjectPath} `{Text}.

(** [log_options]. *)
Definition usize_limit (value : Z) (name : string) : Result Z Failure :=
  match usize_try_from value with Some n => Ok n | None => Err (FOther (String.append "invalid " name)) end.
Definition log_options_of (l : LogLimits) : Result Options Failure :=
  let? a1 := usize_limit (limit_tail_entries l) "tail entry limit" in
  let? a2 := usize_limit (limit_resolution_window l) "resolution window" in
  let? a3 := usize_limit (limit_inline_operation_bytes l) "inline operation limit" in
  let? a4 := usize_limit (limit_inline_result_bytes l) "inline result limit" in
  let? a5 := usize_limit (limit_object_refs l) "object reference limit" in
  let? a6 := usize_limit (limit_object_bytes l) "object byte limit" in
  let? a7 := usize_limit (limit_commit_bytes l) "commit byte limit" in
  let? a8 := usize_limit (limit_head_bytes l) "head byte limit" in
  let? a9 := usize_limit (limit_checkpoint_bytes l) "checkpoint byte limit" in
  let? a10 := usize_limit (limit_retention_ids l) "retention limit" in
  let? a11 := usize_limit (limit_collection_objects l) "collection object limit" in
  let? a12 := usize_limit (limit_collection_plan_bytes l) "collection plan byte limit" in
  Ok {| max_tail_entries := a1; resolution_window := a2; max_inline_operation_bytes := a3;
        max_inline_result_bytes := a4; max_object_refs := a5; max_object_bytes := a6;
        max_commit_bytes := a7; max_head_bytes := a8; max_checkpoint_bytes := a9;
        max_retention_ids := a10; max_collection_objects := a11; max_collection_plan_bytes := a12 |}.

(** [executor::run(future)?] in an exported function. *)
Definition run {A} (p : io A) : prog (Result A Failure) :=
  let* r := p in
  Done (match r with Ok a => Ok a | Err e => Err (failure_of e) end).

(** The rest of an exported function after a failed [?] is skipped, with the resource as
    it was. *)
Definition or_fail {A B S} (s : S) (p : prog (Result A Failure)) (k : A → prog (Result B Failure * S))
    : prog (Result B Failure * S) :=
  let* r := p in
  match r with Ok a => k a | Err e => Done (Err e, s) end.

(** ** Sessions *)

(** [SessionState]; the transport is shared by the sessions refreshed from one another. *)
Record SessionState := MkSessionState {
  session_log : Log;
  session_view : View;
  session_transport : Z
}.

Definition replace_view (v : View) (s : SessionState) : SessionState :=
  MkSessionState (session_log s) v (session_transport s).

(** [SessionState::accept_retention]. *)
Definition accept_retention (s : SessionState) (status : RetentionStatus) : RetentionState * SessionState :=
  match status with
  | RetentionApplied view => (RApplied, replace_view view s)
  | RetentionActiveCollection view => (RActiveCollection, replace_view view s)
  | RetentionConflict view => (RConflict, replace_view view s)
  | RetentionPending => (RPending, s)
  end.

(** [GuestSession::has_active_collection], [retain], [release_retention] and
    [clear_retentions_after_drain]. *)
Definition has_active_collection (s : SessionState) : bool :=
  bool_decide (is_Some (head_active_plan (view_head (session_view s)))).
Definition change_session_retention (s : SessionState) (p : io RetentionStatus)
    : prog (Result RetentionState Failure * SessionState) :=
  or_fail s (run p) (λ status, let '(state, s) := accept_retention s status in Done (Ok state, s)).
Definition session_retain (s : SessionState) (id : bytes) : prog (Result RetentionState Failure * SessionState) :=
  or_fail s (Done (retention_id id)) (λ id,
    change_session_retention s (retain (session_log s) (session_view s) id)).
Definition session_release (s : SessionState) (id : bytes) : prog (Result RetentionState Failure * SessionState) :=
  or_fail s (Done (retention_id id)) (λ id,
    change_session_retention s (release_retention (session_log s) (session_view s) id)).
Definition session_clear (s : SessionState) : prog (Result RetentionState Failure * SessionState) :=
  change_session_retention s (clear_retentions_after_drain (session_log s) (session_view s)).

(** [maintenance::result]; [candidate_count as u64] of a [usize] is exact. *)
Definition maintenance_result (state : MaintenanceState) (report : option CollectionReport) : CollectionResult :=
  match report with
  | Some report => MkCollectionResult state (candidate_count report) (report_candidate_bytes report)
  | None => MkCollectionResult state 0 0
  end.

(** The part of [maintenance::collect] after a plan is installed or found active. *)
Definition collect_plan (s : SessionState) (view : View) : prog (Result CollectionResult Failure * SessionState) :=
  or_fail s (run (resume_collection (session_log s) view)) (λ finish,
    match finish with
    | FinishComplete view report => Done (Ok (maintenance_result MMore (Some report)), replace_view view s)
    | FinishPending report => Done (Ok (maintenance_result MPending (Some report)), s)
    | FinishConflict view report => Done (Ok (maintenance_result MConflict (Some report)), replace_view view s)
    end).

(** [maintenance::collect]. *)
Definition collect (s : SessionState) (max_candidates : Z) : prog (Result CollectionResult Failure * SessionState) :=
  or_fail s (run (start_collection_with_limit (session_log s) (session_view s) max_candidates)) (λ start,
    match start with
    | StartEmpty report => Done (Ok (maintenance_result MComplete (Some report)), s)
    | StartInstalled view _ | StartActive view => collect_plan (replace_view view s) view
    | StartConflict view => Done (Ok (maintenance_result MConflict None), replace_view view s)
    | StartRetained view => Done (Ok (maintenance_result MRetained None), replace_view view s)
    | StartPending => Done (Ok (maintenance_result MPending None), s)
    end).

(** [GuestSession::collect]. *)
Definition session_collect (s : SessionState) (max_candidates : Z)
    : prog (Result CollectionResult Failure * SessionState) :=
  match usize_try_from max_candidates with
  | None => Done (Err (FLimit "collection candidate objects"), s)
  | Some max_candidates => collect s max_candidates
  end.

(** [GuestSession::usage]: the shared budget of the session's transport. *)
Definition session_usage (budgets : Z → Budget) (s : SessionState) : Z * Z :=
  transport_usage (budgets (session_transport s)).

(** [GuestSession::refresh]: a new session; this one is unchanged. *)
Definition session_refresh (s : SessionState) : prog (Result SessionState Failure * SessionState) :=
  or_fail s (run (refresh (session_log s) (session_view s))) (λ current,
    Done (Ok (replace_view (default (session_view s) current) s), s)).

(** [GuestSession::resume]; [WalResolution] is the exported [Resolution]. *)
Inductive WalResolution := WCommitted | WNotCommitted | WStillPending (token : bytes) | WExpired.

Definition session_resume (s : SessionState) (token : bytes) : prog (Result WalResolution Failure * SessionState) :=
  or_fail s (run (resume (session_log s) token)) (λ resolution,
    match resolution with
    | ResCommitted view => Done (Ok WCommitted, replace_view view s)
    | ResNotCommitted view => Done (Ok WNotCommitted, replace_view view s)
    | ResExpired view => Done (Ok WExpired, replace_view view s)
    | ResStillPending pending =>
        or_fail s (run (lift (pending_recovery_token pending))) (λ token, Done (Ok (WStillPending token), s))
    end).

(** ** Recoveries *)

(** [LogState]. *)
Record LogState (T : Type) := MkLogState { state_log : Log; state_value : T }.
#[global] Arguments MkLogState {T} state_log state_value.
#[global] Arguments state_log {T} _.
#[global] Arguments state_value {T} _.

Definition set_value {T} (v : T) (s : LogState T) : LogState T := MkLogState (state_log s) v.

(** [LogState::live]. *)
Definition live {T} (s : LogState (option T)) (closed : string) : Result T Failure :=
  match state_value s with Some v => Ok v | None => Err (FOther closed) end.

Definition CandidateState : Type := LogState (option PreparedCommit).
Definition RecoveryState : Type := LogState HistoryCursor.
Definition PendingCheckpointState : Type := LogState (option PendingCheckpoint).

(** [WriterState] and [ReaderState]. *)
Definition WriterState : Type := option ByteWriter.
Definition ReaderState : Type := ByteReader.

(** [GuestSession::recover]. *)
Definition session_recover (s : SessionState) : Result RecoveryState Failure :=
  match history (session_log s) (session_view s) with
  | Ok cursor => Ok (MkLogState (session_log s) cursor)
  | Err e => Err (failure_of e)
  end.

Definition NOT_CONSUMED : Failure := FOther "recovery history must be consumed before publication".

(** [RecoveryState::recovered_view]. *)
Definition recovered_view (r : RecoveryState) : Result View Failure :=
  if negb (complete (state_value r)) then Err NOT_CONSUMED else Ok (cursor_view (state_value r)).

(** [Entry], [CommitRecord] and [HistoryItem] of the interface. *)
Record Entry := MkEntry { entry_data : bytes; entry_objects : list StagedObject }.
Record WalCommit := MkWalCommit {
  wal_sequence : Z;
  wal_transaction : bytes;
  wal_operation : bytes;
  wal_recorded_result : bytes;
  wal_objects : list StagedObject
}.
Inductive WalItem := WalCheckpoint (entry : Entry) | WalCommitted (record : WalCommit).

(** The conversion in [GuestRecovery::next]. *)
Definition wal_item (item : HistoryItem) : WalItem :=
  match item with
  | HistoryCheckpoint a => WalCheckpoint (MkEntry (checkpoint_snapshot (auth_record a)) (auth_proofs a))
  | HistoryCommit a =>
      let reference := record_reference (auth_record a) in
      WalCommitted (MkWalCommit (commit_sequence reference)
        (uuid_bytes (transaction_uuid (commit_transaction_id reference)))
        (record_operation (auth_record a)) (record_result (auth_record a)) (auth_proofs a))
  end.

(** [GuestRecovery::next]. *)
Definition recovery_next (r : RecoveryState) : prog (Result (option WalItem) Failure * RecoveryState) :=
  let* '(item, cursor) := next (state_value r) in
  Done (match item with Ok item => Ok (wal_item <$> item) | Err e => Err (failure_of e) end,
        set_value cursor r).

(** [GuestRecovery::write_bytes]. *)
Definition recovery_write_bytes (r : RecoveryState) : Result WriterState Failure :=
  let? view := recovered_view r in
  match byte_writer (state_log r) view with
  | Ok writer => Ok (Some writer)
  | Err e => Err (failure_of e)
  end.

(** A function of a recovery that needs its view; the recovery does not change. *)
Definition with_recovered {A} (r : RecoveryState) (k : View → prog (Result A Failure)) : prog (Result A Failure) :=
  match recovered_view r with Ok view => k view | Err e => Done (Err e) end.

(** [GuestRecovery::open_bytes], [read_node] and [put_node]. *)
Definition recovery_open_bytes (r : RecoveryState) (value : StagedObject) : prog (Result ReaderState Failure) :=
  with_recovered r (λ view, run (open_bytes (state_log r) view (staged_object_ref value))).
Definition recovery_read_node (r : RecoveryState) (value : StagedObject) : prog (Result Entry Failure) :=
  with_recovered r (λ view,
    let* node := run (read_staged_node (state_log r) view value) in
    Done (match node with Ok (data, objects) => Ok (MkEntry data objects) | Err e => Err e end)).
Definition recovery_put_node (r : RecoveryState) (data : bytes) (children : list StagedObject)
    : prog (Result StagedObject Failure) :=
  with_recovered r (λ view, run (put_node (state_log r) view data children)).

(** [GuestRecovery::prepare]. *)
Definition recovery_prepare (r : RecoveryState) (transaction operation result : bytes) (roots : list StagedObject)
    : prog (Result CandidateState Failure) :=
  with_recovered r (λ view,
    match wal_transaction_id transaction with
    | Err e => Done (Err e)
    | Ok transaction =>
        let* prepared := run (prepare (state_log r) view transaction operation result roots) in
        Done (match prepared with
              | Ok prepared => Ok (MkLogState (state_log r) (Some prepared))
              | Err e => Err e
              end)
    end).

(** [CheckpointOutcome]. *)
Inductive CheckpointOutcome :=
  | OutcomePublished
  | OutcomeConflict
  | OutcomePending (pending : PendingCheckpointState).

(** [GuestRecovery::checkpoint]. *)
Definition recovery_checkpoint (r : RecoveryState) (data : bytes) (roots : list StagedObject)
    : prog (Result CheckpointOutcome Failure) :=
  with_recovered r (λ view,
    match last (head_tail (view_head view)) with
    | None => Done (Err (FOther "checkpoint requires an active tail"))
    | Some through =>
        let* status := run (publish_checkpoint (state_log r) view through data roots) in
        Done (match status with
              | Ok (CheckpointPublished _) => Ok OutcomePublished
              | Ok (CheckpointConflict _) => Ok OutcomeConflict
              | Ok (CheckpointPending pending) => Ok (OutcomePending (MkLogState (state_log r) (Some pending)))
              | Err e => Err e
              end)
    end).

(** ** Publication *)

(** [GuestPendingCheckpoint::resolve]. *)
Inductive WalCheckpointResolution := WPublished | WNotPublished | WCheckpointPending | WCheckpointExpired.

Definition pending_resolve (p : PendingCheckpointState)
    : prog (Result WalCheckpointResolution Failure * PendingCheckpointState) :=
  or_fail p (Done (live p "resolved checkpoint")) (λ pending,
    or_fail p (run (resolve_checkpoint (state_log p) pending)) (λ resolution,
      match resolution with
      | CResPublished _ => Done (Ok WPublished, set_value None p)
      | CResNotPublished _ => Done (Ok WNotPublished, set_value None p)
      | CResExpired _ => Done (Ok WCheckpointExpired, set_value None p)
      | CResStillPending pending => Done (Ok WCheckpointPending, set_value (Some pending) p)
      end)).

(** [GuestCandidate::recovery_token]. *)
Definition candidate_token (c : CandidateState) : Result bytes Failure :=
  let? prepared := live c "published candidate" in
  match encode_recovery_token prepared with Ok token => Ok token | Err e => Err (failure_of e) end.

(** [Outcome]. *)
Inductive Outcome := PublishCommitted | PublishConflict | PublishPending (token : bytes).

(** [GuestCandidate::publish]: the candidate is taken once the log answered with a status. *)
Definition candidate_publish (c : CandidateState) : prog (Result Outcome Failure * CandidateState) :=
  or_fail c (Done (live c "published candidate")) (λ prepared,
    or_fail c (run (commit (state_log c) prepared)) (λ status,
      let c := set_value None c in
      match status with
      | CommitCommitted _ => Done (Ok PublishCommitted, c)
      | CommitConflict _ => Done (Ok PublishConflict, c)
      | CommitPending pending =>
          or_fail c (run (lift (pending_recovery_token pending))) (λ token, Done (Ok (PublishPending token), c))
      end)).

(** ** Byte streams *)

(** [GuestByteWriter::write] and [finish]; [finish] takes the writer in any case. *)
Definition CLOSED_WRITER : Failure := FOther "closed byte writer".

Definition writer_write (w : WriterState) (data : bytes) : prog (Result () Failure * WriterState) :=
  match w with
  | None => Done (Err CLOSED_WRITER, w)
  | Some writer =>
      let* '(r, writer) := write writer data in
      Done (match r with Ok u => Ok u | Err e => Err (failure_of e) end, Some writer)
  end.
Definition writer_finish (w : WriterState) : prog (Result StagedObject Failure * WriterState) :=
  match w with
  | None => Done (Err CLOSED_WRITER, None)
  | Some writer => let* r := run (finish writer) in Done (r, None)
  end.

(** [GuestByteReader::length] and [read_at]; the outer [None] is a panic. *)
Definition reader_length (r : ReaderState) : Z := reader_len r.
Definition reader_read_at (r : ReaderState) (offset max_len : Z)
    : prog (option (Result bytes Failure) * ReaderState) :=
  let* '(b, r) := read_at r offset max_len in
  Done ((λ b : Result bytes Error, match b with Ok b => Ok b | Err e => Err (failure_of e) end) <$> b, r).

(** ** Opening *)

(** [AmazonS3Builder::build], whose error is reported as text, and [Path::from]. *)
Context (build : S3Settings → option string) (path_from : bytes → Path).

(** [connect_store]; the transport's counters start at zero. *)
Definition connect_store (settings : Config) : Result Budget Failure :=
  match transport_new (limit_calls settings) (limit_bytes settings) with
  | None => Err (FOther "transport limits must be positive")
  | Some transport =>
      let? s3 := s3_builder settings in
      match build s3 with Some error => Err (FOther error) | None => Ok transport end
  end.

(** [open_session]: the session and its fresh transport. *)
Definition open_session (settings : Config) (create : bool) : prog (Result (SessionState * Budget) Failure) :=
  match connect_store settings with
  | Err e => Done (Err e)
  | Ok transport =>
      let backend := assume_validated (path_from (config_prefix settings)) in
      match log_id_new (config_log_id settings), log_options_of (config_log_limits settings) with
      | Err e, _ => Done (Err (failure_of e))
      | Ok _, Err e => Done (Err e)
      | Ok log_id, Ok options =>
          let* id := call ENewArc in
          let* opened := run (if create
            then let! log := log_open backend log_id options in
                 let! view := load log in
                 ok (log, view)
            else open_existing_with_view backend log_id options) in
          Done (match opened with
                | Ok (log, view) => Ok (MkSessionState log view id, transport)
                | Err e => Err e
                end)
      end
  end.

(** [validate_backend]. *)
Definition validate_backend (settings : Config) : prog (Result () Failure) :=
  match connect_store settings with
  | Err e => Done (Err e)
  | Ok _ =>
      let* validated := run (validated_backend_new (path_from (config_prefix settings))) in
      Done (match validated with Ok _ => Ok () | Err e => Err e end)
  end.
End session.
