(* ===== verification/Conclusive.v ===== *)
(** * Failures are conclusive

    A conditional head update that may have been applied is never reported as a
    failure: when [commit] or [resolve] returns an error or a negative outcome, storage
    refused every conditional update the call made. *)

From S2P Require Import Prelude Types Head LogSpec Cbor Wire Format Prog Wp Store StoreProps Log LogOps LogMaintain.
From S2P Require Import Protocol ProtocolSpecs.

Section conclusive.
Context `{Target} `{Blake3} `{Cbor} `{!DerivedDecode} `{ObjectPath} `{Text} (log : Log).

(** Storage refused the update: the precondition did not hold. *)
Definition refusal (e : StoreError) : bool :=
  match e with SPrecondition | SAlreadyExists => true | _ => false end.

Definition rejected_ev (ev : Ev) : Prop :=
  match ev with
  | MkEv e r =>
      match e in Event R return R → Prop with
      | EPut _ _ (PutUpdate _) => λ r, match r with Err e => refusal e = true | Ok _ => False end
      | _ => λ _, True
      end r
  end.

(** Every conditional update of the trace was refused. *)
Definition rejected (tr : list Ev) : Prop := Forall rejected_ev tr.

Local Abbreviation WP := (wp (λ _ _ _, True) (λ _ _ _, True)).

Lemma rejected_snoc past ev : rejected past → rejected_ev ev → rejected (past ++ [ev]).
Proof. intros. apply Forall_app. by split; [|constructor]. Qed.

Lemma reading_rejected R (e : Event R) r : reading e = true → rejected_ev (MkEv e r).
Proof. by destruct e. Qed.

Lemma wp_quiet {A} past (p : prog A) (Q : list Ev → A → Prop) :
  reads_only p → rejected past → (∀ past' a, rejected past' → Q past' a) → WP past p Q.
Proof.
  revert past. induction p as [a|R e k IH]; intros past Hp Hr HQ; simpl; [by apply HQ|].
  destruct Hp as [He Hk]. split; [done|]. intros r _. apply IH; [done| |done].
  by apply rejected_snoc, reading_rejected.
Qed.

Lemma wp_io_quiet {A B} past (p : io A) (f : A → io B) (Q : list Ev → Result B Error → Prop) :
  reads_only p → rejected past → (∀ past' e, rejected past' → Q past' (Err e)) →
  (∀ past' a, rejected past' → WP past' (f a) Q) → WP past (io_bind p f) Q.
Proof. intros Hp Hr He Ha. apply wp_io_bind, wp_quiet; [done|done|]. intros past' [a|e] Hr'; eauto. Qed.

Lemma wp_io_pure {A B} past (r : Result A Error) (f : A → io B) (Q : list Ev → Result B Error → Prop) :
  (∀ e, Q past (Err e)) → (∀ a, r = Ok a → WP past (f a) Q) → WP past (io_bind (lift r) f) Q.
Proof. intros He Ha. apply wp_io_bind. destruct r; simpl; eauto. Qed.

Lemma wp_ensure_quiet past key b (Q : list Ev → Result () Error → Prop) :
  rejected past → (∀ past' r, rejected past' → Q past' r) → WP past (ensure_immutable log key b) Q.
Proof.
  intros Hr HQ. unfold ensure_immutable, store_create. apply wp_bind.
  apply wp_io_quiet; [apply admit_request_reads|done| |].
  - intros past' e Hr'. apply wp_io_quiet; [apply store_read_reads|done|intros; by apply HQ|].
    intros past2 [o|] Hr2; [case_bool_decide|]; by apply HQ.
  - intros past1 [] Hr1. apply wp_bind, wp_call; [done|]. intros a _.
    assert (rejected (past1 ++ [MkEv (EPut (location (log_store log) key) b PutCreate) a])) as Hr2
      by (by apply rejected_snoc).
    assert (∀ past (o : option Error), rejected past →
      WP past (let! read := store_read (log_store log) key (len b) in
        match read with
        | Some stored => if bool_decide (stored_bytes stored = b) then ok () else fail CorruptObject
        | None => fail (default (invalid "an immutable object is missing") o)
        end) Q) as Hread.
    { intros past2 o Hp. apply wp_io_quiet; [apply store_read_reads|done|intros; by apply HQ|].
      intros past3 [s|] Hr3; [case_bool_decide|]; by apply HQ. }
    destruct a as [v|[]]; try (by apply Hread). by apply HQ.
Qed.

Lemma wp_update_conclusive past view candidate (Q : list Ev → Result (option View) Error → Prop) :
  rejected past →
  (∀ past' r, Q past' (Ok (Some r))) → (∀ past', rejected past' → Q past' (Ok None)) →
  (∀ past' e, rejected past' ∨ (∃ s, e = EStore s) → Q past' (Err e)) →
  WP past (update_head log view candidate) Q.
Proof.
  intros Hr Hsome Hnone Herr. unfold update_head, store_update.
  apply wp_io_pure; [intros; apply Herr; by left|]. intros b _.
  apply wp_io_pure; [intros; apply Herr; by left|]. intros [] _.
  apply wp_io_bind, wp_io_quiet; [apply admit_request_reads|done|intros; apply Herr; by left|].
  intros past1 [] Hr1. apply wp_bind, wp_call; [done|]. intros [v|e] _.
  - split; [done|]. intros id _. apply Hsome.
  - destruct e; try (apply Herr; right; eauto; fail); apply Hnone; by apply rejected_snoc.
Qed.

Definition inconclusive (r : Result HeadPublication Error) : bool :=
  match r with Ok (Updated _) | Ok PublicationPending => true | _ => false end.

Lemma wp_publish_conclusive source candidate compatible : ∀ more past view,
  rejected past →
  WP past (publish_attempts more log source view candidate compatible)
    (λ past' r, inconclusive r = true ∨ rejected past').
Proof.
  induction more as [|more IH]; intros past view Hr; cbn [publish_attempts];
    (apply wp_io_pure; [by right|]; intros h _; apply wp_bind, wp_update_conclusive;
      [done|by left| |intros past' e [Hr'|[s ->]]; [destruct e; (by left) || (by right)|by left]]);
    (intros past1 Hr1; apply wp_bind, wp_quiet; [apply load_reads|done|]; intros past2 loaded Hr2;
     apply wp_io_pure; [by right|]; intros [current|] _; [|by left];
     destruct (negb _); [by right|]; destruct (same_view _ _); [by left|]; destruct (_ <=? _); [by right|]).
  - by right.
  - by apply IH.
Qed.

Definition commit_failed (r : Result CommitStatus Error) : bool :=
  match r with Err _ | Ok (CommitConflict _) => true | _ => false end.

Definition resolution_failed (r : Result Resolution Error) : bool :=
  match r with Err _ | Ok (ResNotCommitted _) | Ok (ResExpired _) => true | _ => false end.

Lemma wp_commit_conclusive prepared :
  WP [] (commit log prepared) (λ past r, commit_failed r = true → rejected past).
Proof.
  assert (rejected []) as H0' by constructor.
  unfold commit. apply wp_io_pure; [done|]. intros [] _. apply wp_io_pure; [done|]. intros [c b] _.
  apply wp_io_quiet; [apply verify_publication_reads|done|done|]. intros past1 [] Hr1.
  apply wp_io_bind, wp_ensure_quiet; [done|]. intros past2 [[]|e] Hr2; cbv beta iota; [|done].
  apply wp_io_bind. unfold publish_head, publish_head_compatible.
  eapply wp_mono; [by apply wp_publish_conclusive|]. intros past3 r _ Hpost.
  destruct r as [[next|current g|current|]|e]; cbv beta iota; simpl in Hpost;
    [|destruct Hpost as [?|Hr3]; [done|]..].
  - unfold tail_is_verified, remember_tail. split; [done|]. intros proof _. simpl.
    destruct proof as [proof|]; simpl; [destruct (proof_matches _ _); simpl|]; done.
  - apply wp_io_pure; [by intros|]. intros [v|v|v] _; by intros ?.
  - by intros ?.
  - by intros ?.
  - by intros ?.
Qed.

Lemma wp_resolve_conclusive prepared c token :
  WP [] (resolve_prepared log prepared c token) (λ past r, resolution_failed r = true → rejected past).
Proof.
  assert (rejected []) as H0' by constructor.
  assert (∀ A (p : io A), reads_only p → reads_only (evidence_missing p)) as Hev.
  { intros A p Hp. unfold evidence_missing. solve_reads. }
  unfold resolve_prepared. apply wp_io_pure; [done|]. intros [] _.
  apply wp_bind, wp_quiet; [apply load_reads|done|]. intros past1 loaded Hr1.
  apply wp_io_pure; [done|]. intros [current|] _; [|done]. apply wp_io_pure; [done|]. intros [view|] _.
  - apply wp_io_pure; [done|]. intros [c' b] _.
    apply wp_io_quiet; [apply Hev, verify_publication_reads|done|done|]. intros past2 [|] Hr2; [done|].
    assert (∀ past pending, rejected past →
      WP past (let* published := publish_head log view (λ v, candidate_head (view_head v) c) in
        match published with
        | Ok (Updated v) => ok (ResCommitted v)
        | Ok PublicationPending | Err (EStore _) | Err ERequestDenied => ok (ResStillPending pending)
        | Ok (Contended current) => ok (ResNotCommitted current)
        | Err error => fail error
        | Ok (Changed current _) =>
            let! k := lift (classify_resolution c current) in ok (resolution_of k)
        end) (λ past r, resolution_failed r = true → rejected past)) as Hretry.
    { intros past pending Hr. apply wp_bind. eapply wp_mono; [by apply wp_publish_conclusive|].
      intros past3 r _ Hpost.
      destruct r as [[next|cur g|cur|]|e]; cbv beta iota; simpl in Hpost;
        [done|destruct Hpost as [?|Hr3]; [done|]..].
      - apply wp_io_pure; [by intros|]. intros k _. by intros ?.
      - by intros ?.
      - done.
      - destruct e; by intros ?. }
    apply wp_io_bind. destruct (proof_matches _ _); cbv beta iota delta [negb]; [by apply Hretry|].
    unfold evidence_missing. apply wp_bind, wp_ensure_quiet; [done|]. intros past3 r Hr3.
    apply wp_io_pure; [done|]. intros [[]|] _; [by apply Hretry|done].
  - apply wp_io_pure; [done|]. intros k _. apply wp_io_quiet; [|done|done|].
    + pose proof verify_published_commit_reads. destruct k; try done.
      destruct (_ && _); [|done]. by apply Hev.
    + intros past2 [|] Hr2; [done|]. by intros _.
Qed.

Lemma conclusive_sound {A} (p : io A) (Q : list Ev → Result A Error → Prop) tr r :
  WP [] p Q → returns p tr r → Q tr r.
Proof. intros Hwp Hr. eapply (wp_sound _ _ []) in Hr as [_ HQ]; [done|done|by apply Forall_true]. Qed.

(** C11. Failures are conclusive: when a commit or its resolution fails or reports that
    the commit was not published, every conditional head update it made was refused by
    storage, so an update that may have been applied always ends as committed or
    pending. *)
Theorem failures_are_conclusive :
  (∀ prepared tr r, returns (commit log prepared) tr r → commit_failed r = true → rejected tr)
  ∧ (∀ pending prepared tr r, pending_prepared pending = Some prepared →
       returns (resolve log pending) tr r → resolution_failed r = true → rejected tr).
Proof.
  split.
  - intros prepared tr r. intros Hr. exact (conclusive_sound _ _ _ _ (wp_commit_conclusive _) Hr).
  - intros pending prepared tr r Hp. unfold resolve. rewrite Hp. intros Hr.
    exact (conclusive_sound _ _ _ _ (wp_resolve_conclusive _ _ _) Hr).
Qed.
End conclusive.
