(* ===== verification/WalProps.v ===== *)
(** * The WAL component keeps the log's protocol

    A session's cached view is always an observed head of its log and what the session
    reports is true of that view; nothing is staged, read or published through a recovery
    before its whole history was delivered; a candidate is published at most once. *)

From S2P Require Import Prelude Types Head LogSpec Cbor Wire Format Typed Prog Wp Store StoreProps Log LogOps LogMaintain.
From S2P Require Import History ByteStream Protocol ProtocolSpecs CommitProtocol MaintainProtocol TailProps.
From S2P Require Import WalTransport WalSession.

(** ** Sessions *)

Section sessions.
Context `{Target} `{Blake3} `{CborLaws} `{!DerivedDecode} `{!DerivedDecodeLaws} `{ObjectPath} `{Text}.

(** The calls of a session that reach its log; [CRefresh] continues with the session it
    returns. *)
Inductive SessionCall :=
  | CRetain (id : bytes)
  | CRelease (id : bytes)
  | CClear
  | CCollect (max_candidates : Z)
  | CResume (token : bytes)
  | CRefresh.

Inductive SessionAnswer :=
  | ARetention (r : Result RetentionState Failure)
  | ACollection (r : Result CollectionResult Failure)
  | AResolution (r : Result WalResolution Failure)
  | ARefreshed (failed : option Failure).

Definition answered {A S} (f : A → SessionAnswer) (p : prog (A * S)) : prog (SessionAnswer * S) :=
  let* '(a, s) := p in Done (f a, s).

Definition session_call (s : SessionState) (c : SessionCall) : prog (SessionAnswer * SessionState) :=
  match c with
  | CRetain id => answered ARetention (session_retain s id)
  | CRelease id => answered ARetention (session_release s id)
  | CClear => answered ARetention (session_clear s)
  | CCollect n => answered ACollection (session_collect s n)
  | CResume token => answered AResolution (session_resume s token)
  | CRefresh =>
      let* '(r, s) := session_refresh s in
      Done (match r with Ok s' => (ARefreshed None, s') | Err e => (ARefreshed (Some e), s) end)
  end.

(** A session over its life: each answer with the session after it. *)
Fixpoint session_calls (s : SessionState) (calls : list SessionCall)
    : prog (list (SessionAnswer * SessionState)) :=
  match calls with
  | [] => Done []
  | c :: calls =>
      let* '(a, s) := session_call s c in
      let* rest := session_calls s calls in
      Done ((a, s) :: rest)
  end.

Context (log : Log) (caller : Caller).

Definition wal_answers R (e : Event R) (r : R) : Prop := fresh_arcs log R e r ∧ uuid_answers R e r.

Local Abbreviation WP := (wp (allowed log caller) wal_answers).

(** What an answer says of the session's view. *)
Definition session_says (c : SessionCall) (a : SessionAnswer) (s : SessionState) : Prop :=
  match c, a with
  | CRetain id, ARetention (Ok RApplied) =>
      retention_classify (Acquire (MkRetentionId (MkUuid id))) (view_head (session_view s)) = Applied
  | CRelease id, ARetention (Ok RApplied) =>
      retention_classify (Release (MkRetentionId (MkUuid id))) (view_head (session_view s)) = Applied
  | CClear, ARetention (Ok RApplied) =>
      retention_classify ClearAfterDrain (view_head (session_view s)) = Applied
  | CCollect _, ACollection (Ok result) =>
      match result_state result with
      | MMore => has_active_collection s = false
      | MRetained => head_retention_ids (view_head (session_view s)) ≠ ∅
      | _ => True
      end
  | CResume token, AResolution (Ok r) =>
      ∀ t c, decode_recovery_token token = Ok t → recovered_commit_ref log t = Ok c →
        match r with
        | WCommitted => contains_commit (session_view s) c = true
        | WNotCommitted => contains_commit (session_view s) c = false
        | WExpired => contains_commit (session_view s) c = false
            ∧ commit_sequence c < head_next_sequence (view_head (session_view s))
        | WStillPending _ => True
        end
  | _, _ => True
  end.

(** The session belongs to the log and its view was observed. *)
Definition session_ok (past : list Ev) (s : SessionState) : Prop :=
  session_log s = log ∧ witnessed log caller past (session_view s).

Definition call_post (c : SessionCall) (past : list Ev) (r : SessionAnswer * SessionState) : Prop :=
  session_ok past r.2 ∧ session_says c r.1 r.2.

Lemma session_ok_mono past past' s : past ⊆ past' → session_ok past s → session_ok past' s.
Proof. intros Hs [? ?]. split; [done|by eapply witnessed_mono]. Qed.

Lemma session_ok_view past s v : session_log s = log → witnessed log caller past v → session_ok past (replace_view v s).
Proof. by split. Qed.

(** A [run] that may fail: on failure the session is as it was. *)
Lemma wp_or_fail {A B S} past (s : S) (p : io A) (k : A → prog (Result B Failure * S))
    (Q : list Ev → Result A Error → Prop) (Q' : list Ev → Result B Failure * S → Prop) :
  WP past p Q → (∀ past' e, past ⊆ past' → Q' past' (Err e, s)) →
  (∀ past' a, past ⊆ past' → Q past' (Ok a) → WP past' (k a) Q') →
  WP past (or_fail s (run p) k) Q'.
Proof.
  intros Hp Herr Hok. unfold or_fail, run. apply wp_bind, wp_bind. eapply wp_mono; [exact Hp|].
  intros past' [a|e] Hs HQ; cbn; [by apply Hok|by apply Herr].
Qed.

Lemma wp_answered {A S} past (f : A → SessionAnswer) (p : prog (A * S)) (Q : list Ev → SessionAnswer * S → Prop) :
  WP past p (λ past' r, Q past' (f r.1, r.2)) → WP past (answered f p) Q.
Proof. intros Hp. unfold answered. apply wp_bind. eapply wp_mono; [exact Hp|]. by intros past' [a s] _. Qed.

Lemma wp_session_retention past s change c :
  session_ok past s → change_typed change →
  (∀ s', retention_classify change (view_head (session_view s')) = Applied → session_says c (ARetention (Ok RApplied)) s') →
  (∀ r s', r ≠ Ok RApplied → session_says c (ARetention r) s') →
  WP past (change_session_retention s (change_retention (session_log s) (session_view s) change))
    (λ past' r, call_post c past' (ARetention r.1, r.2)).
Proof.
  intros [Hlog Hw] Hc Happ Hother. unfold change_session_retention. rewrite Hlog.
  eapply wp_or_fail; [by apply wp_change_retention| |].
  { intros past' e Hs. split; [|by apply Hother]. eapply session_ok_mono; [done|]. by split. }
  intros past' [v|v|v|] Hs Hpost; cbn in Hpost |- *.
  - destruct Hpost as (Hv & Hcl & _). split; [by apply session_ok_view|by apply Happ].
  - destruct Hpost as [Hv _]. split; [by apply session_ok_view|by apply Hother].
  - split; [by apply session_ok_view|by apply Hother].
  - split; [|by apply Hother]. eapply session_ok_mono; [done|]. by split.
Qed.

Lemma retention_id_Ok id r : retention_id id = Ok r → r = MkRetentionId (MkUuid id) ∧ len id = UUID_LEN.
Proof. unfold retention_id, uuid_from_slice. destruct (_ =? _) eqn:E; [|done]. intros [= <-]. split; [done|lia]. Qed.

Lemma wp_session_collect past s n :
  session_ok past s → WP past (session_collect s n) (λ past' r, call_post (CCollect n) past' (ACollection r.1, r.2)).
Proof.
  intros Hs. unfold session_collect. destruct (usize_try_from n) as [m|]; [|by split]. destruct Hs as [Hlog Hw].
  assert (∀ past' r, past ⊆ past' → session_says (CCollect n) (ACollection r) s →
    call_post (CCollect n) past' (ACollection r, s)) as Hsame.
  { intros past' r Hs Hr. split; [|done]. eapply session_ok_mono; [done|]. by split. }
  unfold collect. rewrite Hlog. eapply wp_or_fail; [apply wp_start_collection; [done|by intros R e r []]| |].
  { intros. by apply Hsame. }
  assert (∀ past' v, past ⊆ past' → witnessed log caller past' v →
    WP past' (collect_plan (replace_view v s) v)
      (λ past' r, call_post (CCollect n) past' (ACollection r.1, r.2))) as Hplan.
  { intros past' v Hs Hv. unfold collect_plan. cbn [replace_view session_log]. rewrite Hlog.
    assert (∀ past'', past' ⊆ past'' → session_ok past'' (replace_view v s)) as Hkeep.
    { intros past'' Hs'. split; [done|by eapply witnessed_mono]. }
    eapply wp_or_fail; [by eapply wp_resume_collection, witnessed_typed| |].
    - intros past'' e Hs'. split; [by apply Hkeep|done].
    - intros past'' [w report|w report|report] Hs' Hpost; cbn in Hpost |- *.
      + destruct Hpost as [Hw' Hnone]. split; [by split|]. cbn. unfold has_active_collection. cbn. by rewrite Hnone.
      + by split; [split|].
      + split; [by apply Hkeep|done]. }
  intros past' [report|v report|v|v|v|] Hs Hpost; cbn in Hpost.
  - by apply Hsame.
  - apply Hplan; [done|by destruct Hpost].
  - apply Hplan; [done|by destruct Hpost].
  - destruct Hpost. by split; [split|].
  - split; [split; [done|by right; left]|done].
  - by apply Hsame.
Qed.

Lemma wp_session_resume past s token :
  session_ok past s → token_known log caller token →
  WP past (session_resume s token) (λ past' r, call_post (CResume token) past' (AResolution r.1, r.2)).
Proof.
  intros [Hlog Hw] Htoken. unfold session_resume. rewrite Hlog.
  assert (∀ past' r, past ⊆ past' → session_says (CResume token) (AResolution r) s →
    call_post (CResume token) past' (AResolution r, s)) as Hsame.
  { intros past' r Hs Hr. split; [|done]. eapply session_ok_mono; [done|]. by split. }
  eapply wp_or_fail; [by apply wp_resume_token; [intros R e r []|]|by intros; apply Hsame|].
  intros past' r Hs (t & c & Ht & Hc & Hpost).
  assert (∀ t' c', decode_recovery_token token = Ok t' → recovered_commit_ref log t' = Ok c' → c' = c) as Hthe
    by congruence.
  destruct r as [v|v|pending|v]; cbn in Hpost.
  - destruct Hpost as [Hv Hin]. split; [by split|by intros t' c' Ht' ->%(Hthe t')].
  - destruct Hpost as [Hv Hout]. split; [split; [done|by right; left]|by intros t' c' Ht' ->%(Hthe t')].
  - destruct (pending_recovery_token pending) as [b|e]; by apply Hsame.
  - destruct Hpost as (Hv & Hout & Hseq). split; [split; [done|by right; left]|by intros t' c' Ht' ->%(Hthe t')].
Qed.

(** The identity and the objects of a token that is resumed are usable with the heads the
    token matches. *)
Definition call_known (c : SessionCall) : Prop :=
  match c with CResume token => token_known log caller token | _ => True end.

Lemma wp_session_call past s c : session_ok past s → call_known c → WP past (session_call s c) (call_post c).
Proof.
  intros Hs Hknown. assert (∀ past' s' r c', past ⊆ past' → s' = s → session_says c' r s → call_post c' past' (r, s')) as Hsame.
  { intros past' s' r c' Hs' -> Hr. split; [by eapply session_ok_mono|done]. }
  destruct c as [id|id| |n|token|]; cbn [session_call].
  - apply wp_answered. unfold session_retain, or_fail. destruct (retention_id id) as [r|e] eqn:Eid; [|by apply Hsame].
    apply retention_id_Ok in Eid as [-> Hlen]. cbn [bind]. apply wp_session_retention; [done| |done|].
    + cbn. unfold uuid_wf. cbn. by apply Z.eqb_eq.
    + by intros [[]|] s'.
  - apply wp_answered. unfold session_release, or_fail. destruct (retention_id id) as [r|e] eqn:Eid; [|by apply Hsame].
    apply retention_id_Ok in Eid as [-> Hlen]. cbn [bind]. by apply wp_session_retention; [| | |intros [[]|] s'].
  - apply wp_answered, wp_session_retention; [done|done|done|by intros [[]|] s'].
  - by apply wp_answered, wp_session_collect.
  - by apply wp_answered, wp_session_resume.
  - unfold session_refresh. apply wp_bind. pose proof Hs as [Hlog Hw]. rewrite Hlog.
    eapply (wp_or_fail _ _ _ _ (λ past' r, ∀ v, r = Ok (Some v) → loaded log past' v)).
    + apply wp_refresh; [by intros past' v _ Hl v' [= <-]|done|done].
    + intros past' e Hs'. by apply Hsame.
    + intros past' [v|] Hs' Hl; cbn.
      * split; [|done]. apply session_ok_view; [done|]. right; left. by apply Hl.
      * apply Hsame; [done|by destruct s|done].
Qed.

Lemma wp_session_calls calls : Forall call_known calls → ∀ past s, session_ok past s →
  WP past (session_calls s calls) (λ past' rs,
    Forall2 (λ c r, session_ok past' r.2 ∧ session_says c r.1 r.2) calls rs).
Proof.
  induction 1 as [|c calls Hc _ IH]; intros past s Hs; cbn [session_calls]; [by constructor|].
  apply wp_bind. eapply wp_mono; [by apply wp_session_call|]. intros past1 [a s1] Hs1 [Hok Hsays].
  apply wp_bind. eapply wp_mono; [by apply IH|]. intros past2 rs Hs2 Hrs. constructor; [|done].
  split; [by eapply session_ok_mono|done].
Qed.

End sessions.

(** ** Recoveries *)

Section recoveries.
Context `{Target} `{Blake3} `{Cbor} `{!DerivedDecode} `{ObjectPath} `{Text}.

Lemma fill_ready_flag c tr c' :
  returns (fill_ready c) tr c' → checkpoint_read c' = checkpoint_read c ∧ cursor_view c' = cursor_view c.
Proof.
  unfold fill_ready. destruct (ready c); [|by intros [_ ->]].
  intros Hr. by apply returns_bind in Hr as (? & ? & results & _ & _ & [_ ->]).
Qed.

Lemma next_commit_item_flag c tr r c' :
  returns (next_commit_item c) tr (r, c') → checkpoint_read c' = checkpoint_read c.
Proof.
  unfold next_commit_item. intros Hr. apply returns_bind in Hr as (? & ? & c1 & _ & [Hf _]%fill_ready_flag & Hr).
  destruct (ready c1) as [|[[record|]|e] rest]; [by destruct Hr as [_ [= _ ->]]..| |by destruct Hr as [_ [= _ ->]]].
  by apply returns_bind in Hr as (? & ? & e & _ & _ & [_ [= _ ->]]).
Qed.

(** The checkpoint is passed over only when the head names none. *)
Lemma next_flag c tr r c' :
  returns (next c) tr (r, c') → complete c = false →
  (checkpoint_read c = true → checkpoint_read c' = true)
  ∧ (checkpoint_read c = false → checkpoint_read c' = true →
     (∃ a, r = Ok (Some (HistoryCheckpoint a))) ∨ head_checkpoint (view_head (cursor_view c)) = None).
Proof.
  intros Hr Hcomp. unfold next in Hr. rewrite Hcomp in Hr.
  assert (∀ c tr, returns (if (next_commit c <? length (head_tail (view_head (cursor_view c))))%nat then next_commit_item c
             else let* _ := remember_tail (cursor_log c) (cursor_view c) in Done (Ok None, set_complete c))
      tr (r, c') → checkpoint_read c' = checkpoint_read c) as Hcommits.
  { clear. intros c tr. destruct (_ <? _)%nat; [apply next_commit_item_flag|].
    intros Hr. by apply returns_bind in Hr as (? & ? & u & _ & _ & [_ [= _ ->]]). }
  destruct (checkpoint_read c) eqn:Hcp.
  - split; [|done]. intros _. by rewrite (Hcommits _ _ Hr).
  - split; [done|]. intros _ Hcp'. apply returns_bind in Hr as (t1 & t2 & read & _ & Hread & Hr).
    destruct read as [[record|]|e].
    + left. destruct Hr as [_ [= -> _]]. eauto.
    + right. unfold read_checkpoint in Hread. apply returns_io_bind_Ok in Hread as (? & ? & [] & _ & _ & Hread).
      destruct (head_checkpoint _) as [cp|]; [|done].
      apply returns_io_bind_Ok in Hread as (? & ? & ? & _ & _ & Hread).
      apply returns_io_bind_Ok in Hread as (? & ? & ? & _ & _ & Hread).
      apply returns_io_bind_Ok in Hread as (? & ? & ? & _ & _ & Hread). by destruct Hread.
    + destruct Hr as [_ [= _ ->]]. congruence.
Qed.

(** [next] called [n] times. *)
Fixpoint recovery_nexts (n : nat) (r : RecoveryState)
    : prog (list (Result (option WalItem) Failure) * RecoveryState) :=
  match n with
  | O => Done ([], r)
  | S n =>
      let* '(a, r) := recovery_next r in
      let* '(rest, r) := recovery_nexts n r in
      Done (a :: rest, r)
  end.

(** The items among the answers. *)
Definition delivered (answers : list (Result (option WalItem) Failure)) : list WalItem :=
  omap (λ a, match a with Ok item => item | Err _ => None end) answers.

(** The functions of a recovery that need the consumed view; [None] when it succeeds. *)
Inductive RecoveryUse :=
  | UWriteBytes
  | UOpenBytes (value : StagedObject)
  | UReadNode (value : StagedObject)
  | UPutNode (data : bytes) (children : list StagedObject)
  | UPrepare (transaction operation result : bytes) (roots : list StagedObject)
  | UCheckpoint (data : bytes) (roots : list StagedObject).

Definition failure {A} (r : Result A Failure) : option Failure :=
  match r with Ok _ => None | Err e => Some e end.
Definition use_recovery (r : RecoveryState) (u : RecoveryUse) : prog (option Failure) :=
  match u with
  | UWriteBytes => Done (failure (recovery_write_bytes r))
  | UOpenBytes value => let* x := recovery_open_bytes r value in Done (failure x)
  | UReadNode value => let* x := recovery_read_node r value in Done (failure x)
  | UPutNode data children => let* x := recovery_put_node r data children in Done (failure x)
  | UPrepare t o res roots => let* x := recovery_prepare r t o res roots in Done (failure x)
  | UCheckpoint data roots => let* x := recovery_checkpoint r data roots in Done (failure x)
  end.

Context (log : Log).

(** What was delivered up to a position: the checkpoint the head names, then the commits of
    the tail in order, each authentic. *)
Definition history_upto (tr : list Ev) (view : View) (read : bool) (n : nat) (items : list WalItem) : Prop :=
  ∃ (checkpoint : list (Authenticated CheckpointRecord)) (commits : list (Authenticated CommitRecord)),
    items = wal_item <$> (HistoryCheckpoint <$> checkpoint) ++ (HistoryCommit <$> commits)
    ∧ length checkpoint
      = (if read then match head_checkpoint (view_head view) with Some _ => 1%nat | None => O end else O)
    ∧ Forall (λ a, checkpoint_authentic log tr view (auth_record a)) checkpoint
    ∧ length commits = n
    ∧ ∀ i a, commits !! i = Some a →
        linked_record log tr view i (auth_record a)
        ∧ auth_proofs a = staged_object log view <$> record_objects (auth_record a).

(** The whole recovery history of a view. *)
Definition whole_history (tr : list Ev) (view : View) (items : list WalItem) : Prop :=
  history_upto tr view true (length (head_tail (view_head view))) items.

Lemma checkpoint_authentic_mono tr tr' view record :
  tr ⊆ tr' → checkpoint_authentic log tr view record → checkpoint_authentic log tr' view record.
Proof. intros Hs (cp & o & body & ? & Hg & ?). exists cp, o, body. split; [done|]. split; [by eapply got_mono|done]. Qed.

Lemma history_upto_mono tr tr' view read n items :
  tr ⊆ tr' → history_upto tr view read n items → history_upto tr' view read n items.
Proof.
  intros Hs (cps & cs & -> & Hlen & Hcp & Hn & Hcs). exists cps, cs. split_and!; try done.
  - eapply Forall_impl; [exact Hcp|]. intros a. by apply checkpoint_authentic_mono.
  - intros i a Ha. destruct (Hcs i a Ha) as [Hl Hp]. split; [by eapply linked_record_mono|done].
Qed.

(** Where a recovery stands. *)
Definition recovery_at (tr : list Ev) (view : View) (items : list WalItem) (r : RecoveryState) : Prop :=
  let c := state_value r in
  cursor_ok log tr c ∧ cursor_view c = view ∧ state_log r = log
  ∧ history_upto tr view (checkpoint_read c) (next_commit c) items
  ∧ (checkpoint_read c = false → next_commit c = 0%nat ∧ complete c = false).

Lemma upto_flag tr view n items :
  head_checkpoint (view_head view) = None → history_upto tr view false n items → history_upto tr view true n items.
Proof. intros Hn (cps & cs & Hi & Hlen & Hrest). exists cps, cs. rewrite Hn. done. Qed.

Lemma recovery_next_step past view items r tr a r' :
  recovery_at past view items r → returns (recovery_next r) tr (a, r') →
  recovery_at (past ++ tr) view (items ++ delivered [a]) r'.
Proof.
  intros (Hok & Hview & Hlog & Hup & Hfresh) Hr. unfold recovery_next in Hr.
  apply returns_bind in Hr as (t1 & t2 & [item c'] & -> & Hnext & [-> [= -> ->]]). rewrite app_nil_r.
  destruct (complete (state_value r)) eqn:Hcomp.
  { unfold next in Hnext. rewrite Hcomp in Hnext. destruct Hnext as [-> [= -> ->]]. cbn. rewrite !app_nil_r.
    split_and!; [done..| |]; cbn; [done|]. intros Hf. by apply Hfresh in Hf as [_ ?]. }
  pose proof (next_flag _ _ _ _ Hnext Hcomp) as [Hkeep Hskip].
  apply (next_step log past) in Hnext as (Hok' & Hview' & Hpost); [|done]. rewrite Hview in *.
  assert (past ⊆ past ++ t1) as Hsub by set_solver. apply (history_upto_mono _ _ _ _ _ _ Hsub) in Hup.
  assert (checkpoint_read c' = false → checkpoint_read (state_value r) = false) as Hback.
  { destruct (checkpoint_read (state_value r)); [|done]. intros Hf. rewrite Hkeep in Hf by done. done. }
  assert ((∀ cp, item ≠ Ok (Some (HistoryCheckpoint cp))) →
    history_upto (past ++ t1) view (checkpoint_read c') (next_commit (state_value r)) items) as Hup'.
  { intros Hno. destruct (checkpoint_read (state_value r)) eqn:Hcp; [by rewrite Hkeep|].
    destruct (checkpoint_read c') eqn:Hcp'; [|done]. apply upto_flag; [|done].
    destruct Hskip as [[cp ->]|?]; [done|done|by destruct (Hno cp)|done]. }
  split_and!; cbn [set_value state_value state_log]; [done|done|done| |].
  - destruct item as [[[cp|cm]|]|e]; cbn in Hpost |- *; rewrite ?Hview in Hpost.
    + destruct Hpost as (Hf & -> & -> & Hauth). rewrite Hf in Hup. destruct (Hfresh Hf) as [Hn _].
      rewrite Hn in Hup |- *. destruct Hup as (cps & cs & -> & Hlen & _ & Hcs & _).
      apply nil_length_inv in Hlen as ->. apply nil_length_inv in Hcs as ->.
      exists [cp], []. split_and!; [done| |by apply Forall_singleton|done|by intros i a Ha].
      by destruct Hauth as (k & ? & ? & -> & _).
    + destruct Hpost as (-> & Hcp' & Hl & Hp). destruct Hup' as (cps & cs & -> & Hlen & Hcps & Hcs & Hall); [done|].
      exists cps, (cs ++ [cm]). split_and!; [|done|done|rewrite length_app, Hcs; simpl; lia|].
      * by rewrite !fmap_app, app_assoc.
      * intros i a [[_ Ha]|[-> <-]]%lookup_snoc_Some; [by apply Hall|]. by rewrite Hcs.
    + destruct Hpost as [_ ->]. rewrite app_nil_r. by apply Hup'.
    + destruct Hpost as [-> _]. rewrite app_nil_r. by apply Hup'.
  - intros Hf. destruct (Hfresh (Hback Hf)) as [Hn _].
    destruct item as [[[cp|cm]|]|e]; cbn in Hpost.
    + by rewrite (proj1 (proj2 Hpost)) in Hf.
    + by rewrite (proj1 (proj2 Hpost)) in Hf.
    + destruct Hpost as [Hc _]. destruct Hok' as (_ & _ & _ & Hdone). apply Hdone in Hc as [Hc _]. congruence.
    + destruct Hpost as [-> ?]. done.
Qed.

Lemma recovery_nexts_at n : ∀ past view items r tr answers r',
  recovery_at past view items r → returns (recovery_nexts n r) tr (answers, r') →
  recovery_at (past ++ tr) view (items ++ delivered answers) r'.
Proof.
  induction n as [|n IH]; intros past view items r tr answers r' Hat Hr; cbn [recovery_nexts] in Hr.
  { destruct Hr as [-> [= -> ->]]. by rewrite !app_nil_r. }
  apply returns_bind in Hr as (t1 & t2 & [a r1] & -> & Hnext & Hr).
  apply returns_bind in Hr as (u1 & u2 & [rest r2] & -> & Hrest & [-> [= -> ->]]). rewrite app_nil_r.
  apply (recovery_next_step _ _ _ _ _ _ _ Hat) in Hnext. apply (IH _ _ _ _ _ _ _ Hnext) in Hrest.
  rewrite <-!app_assoc in Hrest. by destruct a as [[item|]|e].
Qed.

(** C27. Nothing is read, staged, prepared or published through a recovery before its
    history was delivered: while it is not, each such function fails without a request,
    and once one gets past that check, [next] has delivered exactly the session's view,
    its checkpoint first and then every commit of its tail in order, each authentic. *)
Theorem recovery_precedes_publication s r0 n tr answers r :
  session_log s = log → session_recover s = Ok r0 → returns (recovery_nexts n r0) tr (answers, r) →
  (∀ view, recovered_view r = Ok view → view = session_view s ∧ whole_history tr view (delivered answers))
  ∧ ∀ u tr' failed, returns (use_recovery r u) tr' failed →
      (failed = Some NOT_CONSUMED ∧ tr' = []) ∨ recovered_view r = Ok (session_view s).
Proof.
  intros Hlog Hrec Hr. unfold session_recover in Hrec. rewrite Hlog in Hrec.
  destruct (history _ _) as [c|e] eqn:Hc; [|done]. injection Hrec as <-.
  assert (recovery_at [] (session_view s) [] (MkLogState log c)) as Hat.
  { unfold history in Hc. inv_ok. split_and!; cbn; [unfold cursor_ok; cbn; split_and!; [done|by intros i x Hx|lia|done]|done..| |done].
    exists [], []. split_and!; try done. }
  apply (recovery_nexts_at _ _ _ _ _ _ _ _ Hat) in Hr as (Hok & Hview & _ & Hup & _).
  assert (∀ view, recovered_view r = Ok view → view = session_view s ∧ whole_history tr view (delivered answers)) as Hwhole.
  { unfold recovered_view. destruct (complete _) eqn:Hcomp; [|done]. intros view [= <-]. rewrite Hview. split; [done|].
    destruct Hok as (_ & _ & _ & Hdone). destruct (Hdone Hcomp) as [Hcp Hn].
    unfold whole_history. by rewrite Hcp, Hn, Hview in Hup. }
  split; [exact Hwhole|]. intros u tr' failed Hu. destruct (recovered_view r) as [view|e] eqn:Hv.
  { right. by destruct (Hwhole view eq_refl) as [-> _]. }
  left. unfold recovered_view in Hv. destruct (negb _) eqn:Hcomp; [|done]. injection Hv as <-.
  destruct u; cbn in Hu;
    unfold recovery_write_bytes, recovery_open_bytes, recovery_read_node, recovery_put_node, recovery_prepare,
      recovery_checkpoint, with_recovered, recovered_view in Hu; rewrite Hcomp in Hu; by destruct Hu as [-> ->].
Qed.
End recoveries.

(** ** Candidates *)

Section candidates.
Context `{Target} `{Blake3} `{CborLaws} `{!DerivedDecode} `{!DerivedDecodeLaws} `{ObjectPath} `{Text}.

Inductive CandidateCall := CToken | CPublish.
Inductive CandidateAnswer :=
  | AToken (r : Result bytes Failure)
  | APublished (r : Result Outcome Failure).

Definition candidate_call (c : CandidateState) (call : CandidateCall) : prog (CandidateAnswer * CandidateState) :=
  match call with
  | CToken => Done (AToken (candidate_token c), c)
  | CPublish => let* '(r, c) := candidate_publish c in Done (APublished r, c)
  end.

Fixpoint candidate_calls (c : CandidateState) (calls : list CandidateCall)
    : prog (list CandidateAnswer * CandidateState) :=
  match calls with
  | [] => Done ([], c)
  | call :: calls =>
      let* '(a, c) := candidate_call c call in
      let* '(rest, c) := candidate_calls c calls in
      Done (a :: rest, c)
  end.

Definition CLOSED : Failure := FOther "published candidate".

(** The answer of a closed candidate. *)
Definition refused (a : CandidateAnswer) : Prop := a = AToken (Err CLOSED) ∨ a = APublished (Err CLOSED).

Context (log : Log) (caller : Caller) (prepared : PreparedCommit).

Local Abbreviation WP := (wp (allowed log caller) (λ _ _ _, True)).

(** What a published outcome says of the prepared commit. *)
Definition outcome_post (o : Outcome) (past : list Ev) : Prop :=
  ∃ c b, encode_prepared log prepared = Ok (c, b) ∧ durable log caller past (commit_immutable_key log c)
    ∧ match o with
      | PublishCommitted => ∃ v, witnessed log caller past v ∧ contains_commit v c = true
      | PublishConflict => ∃ v, loaded log past v ∧ contains_commit v c = false
      | PublishPending token =>
          encode_recovery_token (with_domain prepared (log_staging_domain log)) = Ok token
      end.

Lemma outcome_post_mono o past past' : past ⊆ past' → outcome_post o past → outcome_post o past'.
Proof.
  intros Hs (c & b & He & Hd & Ho). exists c, b. split_and!; [done|by eapply durable_mono|].
  destruct o as [| |token]; [..|done]; destruct Ho as (v & Hv & ?); exists v; split; try done.
  - by eapply witnessed_mono.
  - by eapply loaded_mono.
Qed.

Definition publish_post (past : list Ev) (r : Result Outcome Failure * CandidateState) : Prop :=
  state_log r.2 = log ∧ (state_value r.2 = None ∨ state_value r.2 = Some prepared)
  ∧ ∀ o, r.1 = Ok o → outcome_post o past ∧ state_value r.2 = None.

Lemma closed_call c call : state_value c = None → ∃ a, candidate_call c call = Done (a, c) ∧ refused a.
Proof.
  intros Hc. destruct call; cbn [candidate_call].
  - eexists. split; [done|]. unfold candidate_token, live. rewrite Hc. by left.
  - exists (APublished (Err CLOSED)). split; [|by right]. unfold candidate_publish, live. by rewrite Hc.
Qed.

Lemma closed_calls calls : ∀ c, state_value c = None →
  ∃ answers, candidate_calls c calls = Done (answers, c) ∧ Forall refused answers.
Proof.
  induction calls as [|call calls IH]; intros c Hc; cbn [candidate_calls]; [by exists []; split; [|constructor]|].
  destruct (closed_call c call Hc) as (a & -> & Ha). destruct (IH c Hc) as (answers & Hrest & Hall).
  exists (a :: answers). cbn. rewrite Hrest. by split; [|constructor].
Qed.

Lemma wp_candidate_publish past c :
  witnessed log caller past (prep_view prepared) → prepared_typed prepared →
  prepared_known log caller prepared →
  state_log c = log → state_value c = Some prepared → WP past (candidate_publish c) publish_post.
Proof.
  intros Hw Ht Hi Hlog Hc. unfold candidate_publish, live. rewrite Hc, Hlog. cbn [bind or_fail].
  unfold or_fail at 1, run. apply wp_bind, wp_bind. eapply wp_mono; [by apply wp_commit; [| |apply known_prepared]|].
  intros past' [status|e] Hs Hpost; cbn; [|by split_and!; [|right|]].
  destruct Hpost as (cr & b & He & Hd & Hpost).
  destruct status as [v|v|pending]; cbn in Hpost |- *.
  - split_and!; [done|by left|]. intros o [= <-]. split; [|done]. exists cr, b. eauto.
  - split_and!; [done|by left|]. intros o [= <-]. split; [|done]. exists cr, b. eauto.
  - destruct Hpost as [_ Hp]. destruct (pending_recovery_token pending) as [token|e] eqn:Etok; cbn.
    + split_and!; [done|by left|]. intros o [= <-]. split; [|done]. exists cr, b. split_and!; [done|done|].
      unfold pending_recovery_token in Etok. by rewrite Hp in Etok.
    + by split_and!; [|left|].
Qed.

(** The first outcome closes the candidate. *)
Definition once (past : list Ev) (answers : list CandidateAnswer) : Prop :=
  ∀ i o, answers !! i = Some (APublished (Ok o)) →
    outcome_post o past ∧ Forall refused (drop (S i) answers).

Lemma once_cons past a answers :
  once past answers → (∀ o, a = APublished (Ok o) → outcome_post o past ∧ Forall refused answers) →
  once past (a :: answers).
Proof. intros Hrest Ha [|i] o; cbn; [intros [= ->]; by apply Ha|apply Hrest]. Qed.

Lemma once_refused past answers : Forall refused answers → once past answers.
Proof. intros Hall i o Hi. eapply Forall_lookup_1 in Hall as [?|?]; [..|done]; done. Qed.

Lemma wp_candidate_calls calls :
  prepared_typed prepared → prepared_known log caller prepared → ∀ past c,
  witnessed log caller past (prep_view prepared) → state_log c = log → state_value c = Some prepared →
  WP past (candidate_calls c calls) (λ past' r, once past' r.1).
Proof.
  intros Ht Hi. induction calls as [|call calls IH]; intros past c Hw Hlog Hc; cbn [candidate_calls]; [by intros i o|].
  destruct call; cbn [candidate_call bind].
  - apply wp_bind. eapply wp_mono; [by apply IH|]. intros past' [rest c'] Hs Honce. by apply once_cons.
  - apply wp_bind, wp_bind. eapply wp_mono; [by apply wp_candidate_publish|].
    intros past' [r c'] Hs (Hlog' & Hval & Hout). cbn in Hlog', Hval, Hout |- *.
    destruct Hval as [Hval|Hval].
    + destruct (closed_calls calls c' Hval) as (answers & -> & Hall). cbn.
      apply once_cons; [by apply once_refused|]. intros o [= ->]. by destruct (Hout o eq_refl).
    + apply wp_bind. eapply wp_mono; [apply IH; [by eapply witnessed_mono|done|done]|].
      intros past'' [rest c''] Hs' Honce. cbn. apply once_cons; [done|].
      intros o [= ->]. destruct (Hout o eq_refl). congruence.
Qed.

(** C28. A candidate reports at most one outcome, and that outcome is true of the commit it
    was prepared for: [Committed] and [Conflict] are backed by observed heads that name
    the commit or do not, [Pending] carries its recovery token; every request keeps the
    log's protocol, and after an outcome every call is refused without a request. *)
Theorem candidate_published_once c calls tr answers c' :
  known_view caller (prep_view prepared) → prepared_typed prepared →
  prepared_known log caller prepared →
  state_log c = log → state_value c = Some prepared →
  returns (candidate_calls c calls) tr (answers, c') →
  follows (allowed log caller) [] tr
  ∧ (∀ i o, answers !! i = Some (APublished (Ok o)) → outcome_post o tr ∧ Forall refused (drop (S i) answers))
  ∧ ∀ closed call tr' r, state_value closed = None → returns (candidate_call closed call) tr' r → tr' = [].
Proof.
  intros Hk Ht Hi Hlog Hc Hr.
  eapply (wp_sound _ _ []) in Hr as [Hf Honce]; [|by apply wp_candidate_calls; [| |left| |]|by apply Forall_true].
  split_and!; [done|exact Honce|]. intros closed call tr' r Hclosed Hr.
  destruct (closed_call closed call Hclosed) as (a & Ha & _). rewrite Ha in Hr. by destruct Hr.
Qed.
End candidates.

(** ** Opening *)

Section opening.
Context `{Target} `{Blake3} `{Cbor} `{!DerivedDecode} `{ObjectPath} `{Text}.
Context (build : S3Settings → option string) (path_from : bytes → Path).

(** [open-existing] never creates the log: it only reads. *)
Lemma open_existing_reads settings : reads_only (open_session build path_from settings false).
Proof.
  assert (∀ st opts, reads_only (load_existing_head st opts)) as Hload.
  { intros. unfold load_existing_head. pose proof store_read_reads. solve_reads. }
  assert (∀ backend id opts, reads_only (open_existing_with_view backend id opts)) as Hopen.
  { intros. unfold open_existing_with_view, new_view. solve_reads. }
  unfold open_session, run. solve_reads.
Qed.
End opening.
