(* ===== verification/ByteWriterProps.v ===== *)
(** * Writing byte streams

    The writer's capacity is the largest the limits allow, the children of a finished
    stream are its chunks, and a failed writer stays unusable. *)

From S2P Require Import Prelude Types Head Cbor Wire Format FormatEnvelope FormatNode Prog Wp Store StoreProps.
From S2P Require Import Log LogOps LogMaintain Protocol ProtocolSpecs TailProps ByteStream.

(** ** Geometry *)

Lemma div_ceil_spec a b : 0 < b → b * (div_ceil a b - 1) < a ≤ b * div_ceil a b.
Proof.
  intros Hb. unfold div_ceil. pose proof (Z.div_mod (a + b - 1) b ltac:(lia)).
  pose proof (Z.mod_pos_bound (a + b - 1) b Hb). nia.
Qed.

Lemma div_ceil_unique a b n : 0 < b → b * (n - 1) < a ≤ b * n → div_ceil a b = n.
Proof. intros Hb Hn. pose proof (div_ceil_spec a b Hb). nia. Qed.

(** The bisection finds the last value that fits, for a monotone predicate. *)
Lemma capacity_search_last (fits : Z → bool) :
  (∀ a b, 0 ≤ a ≤ b → fits b = true → fits a = true) →
  ∀ turns low high, 0 ≤ low ≤ high → high - low < 2 ^ Z.of_nat turns → fits low = true →
  let n := capacity_search turns fits low high in
  low ≤ n ≤ high ∧ fits n = true ∧ ∀ k, n < k ≤ high → fits k = false.
Proof.
  intros Hmono. induction turns as [|turns IH]; intros low high Hlh Hd Hlow; cbn [capacity_search].
  { simpl in Hd. split_and!; [lia|lia|done|lia]. }
  rewrite Nat2Z.inj_succ, Z.pow_succ_r in Hd by lia.
  destruct (Z.ltb_spec low high); [|split_and!; [lia|lia|done|lia]].
  pose proof (div_ceil_spec (high - low) 2 ltac:(lia)) as Hmid.
  destruct (fits (low + _)) eqn:Hf.
  - destruct (IH (low + div_ceil (high - low) 2) high) as (Hb & Hn & Hlast); [lia|lia|done|].
    split_and!; [lia|lia|done|done].
  - destruct (IH low (low + div_ceil (high - low) 2 - 1)) as (Hb & Hn & Hlast); [lia|lia|done|].
    split_and!; [lia|lia|done|]. intros k Hk.
    destruct (decide (k ≤ low + div_ceil (high - low) 2 - 1)); [apply Hlast; lia|].
    destruct (fits k) eqn:Hfk; [|done].
    rewrite (Hmono (low + div_ceil (high - low) 2) k) in Hf by (lia || done). done.
Qed.

Lemma u64_checked_mul_Some a b c : u64_checked_mul a b = Some c → c = a * b ∧ a * b ≤ u64_max.
Proof. unfold u64_checked_mul. destruct (Z.leb_spec (a * b) u64_max); [|done]. by intros [= <-]. Qed.

Lemma cbor_head_len_mono a b : a ≤ b → cbor_head_len a ≤ cbor_head_len b.
Proof. intros Hab. unfold cbor_head_len. repeat case_match; lia. Qed.

Section capacity.
Context `{Target} (options : Options) (chunk : Z) (Hrefs : 0 ≤ max_object_refs options).

(** Encoded bytes of a descriptor over [count] full chunks. *)
Definition descriptor_inner (count : Z) : Z :=
  5 + cbor_head_len DESCRIPTOR_BYTES + DESCRIPTOR_BYTES + cbor_head_len count
  + count * (58 + cbor_head_len chunk + 1).
Definition descriptor_encoded (count : Z) : Z :=
  37 + cbor_head_len (descriptor_inner count) + descriptor_inner count.

Definition full_chunk : ObjectRef := MkObjectRef Blob (MkStorageId (MkUuid [])) (MkDigest []) chunk 1.

Lemma full_chunk_sizes n : child_sizes (replicate n full_chunk) = replicate n (chunk, 1).
Proof. unfold child_sizes. by rewrite fmap_replicate. Qed.

Lemma full_chunk_bytes n : children_bytes (replicate n full_chunk) = Z.of_nat n * (58 + cbor_head_len chunk + 1).
Proof.
  induction n as [|n IH]; [done|]. cbn [replicate children_bytes foldr]. fold (children_bytes (replicate n full_chunk)).
  rewrite IH, Nat2Z.inj_succ, Z.mul_succ_l. unfold child_size. cbn [obj_len obj_subtree_objects full_chunk].
  change (cbor_head_len 1) with 1. lia.
Qed.

Lemma full_chunk_inner n :
  inner_bytes DESCRIPTOR_BYTES (replicate n full_chunk) = descriptor_inner (Z.of_nat n).
Proof. unfold inner_bytes, descriptor_inner, len. by rewrite full_chunk_bytes, length_replicate. Qed.

Lemma descriptor_fits_iff count :
  0 ≤ count →
  descriptor_fits options chunk count = true ↔
  count ≤ max_object_refs options ∧ descriptor_encoded count ≤ max_object_bytes options
  ∧ descriptor_encoded count ≤ usize_max.
Proof.
  intros Hc. unfold descriptor_fits. rewrite <-full_chunk_sizes. split.
  - destruct (node_size _ _ _) as [size|] eqn:Hs; [|done]. intros _.
    assert (len (replicate (Z.to_nat count) full_chunk) ≤ max_object_refs options) as Hr.
    { unfold node_size in Hs. inv_ok. destruct x as [c l]. by apply children_size_refs in Hok; [rewrite Z.add_0_l in Hok|]. }
    apply node_size_Ok in Hs as (-> & Hm & Hu). cbn [size_encoded] in *.
    rewrite !full_chunk_inner in *. unfold len in Hr. rewrite length_replicate in Hr.
    rewrite Z2Nat.id in * by lia. done.
  - intros (Hr & Hm & Hu). rewrite node_size_le; rewrite ?full_chunk_inner, ?Z2Nat.id by lia; try done.
    unfold len. rewrite length_replicate. lia.
Qed.

Lemma descriptor_encoded_mono a b : 0 ≤ a ≤ b → descriptor_encoded a ≤ descriptor_encoded b.
Proof.
  intros Hab. assert (descriptor_inner a ≤ descriptor_inner b) as Hi.
  { unfold descriptor_inner. pose proof (cbor_head_len_mono a b ltac:(lia)).
    pose proof (cbor_head_len_bounds chunk). nia. }
  unfold descriptor_encoded. pose proof (cbor_head_len_mono _ _ Hi). lia.
Qed.

Lemma descriptor_fits_mono a b :
  0 ≤ a ≤ b → descriptor_fits options chunk b = true → descriptor_fits options chunk a = true.
Proof.
  intros Hab. rewrite !descriptor_fits_iff by lia. pose proof (descriptor_encoded_mono a b Hab). lia.
Qed.

Lemma descriptor_encoded_pos : 37 < descriptor_encoded 0.
Proof.
  unfold descriptor_encoded. pose proof (cbor_head_len_bounds (descriptor_inner 0)).
  assert (5 < descriptor_inner 0); [|lia]. unfold descriptor_inner, DESCRIPTOR_BYTES.
  pose proof (cbor_head_len_bounds 24). pose proof (cbor_head_len_bounds 0). lia.
Qed.

(** Each reference takes at least 32 bytes, so the search bound loses nothing. *)
Lemma descriptor_fits_bound count :
  0 ≤ count → descriptor_fits options chunk count = true →
  count ≤ Z.min (max_object_refs options) (max_object_bytes options / 32).
Proof.
  intros Hc. rewrite descriptor_fits_iff by done. intros (Hr & Hm & _). apply Z.min_glb; [done|].
  apply Z.div_le_lower_bound; [lia|]. unfold descriptor_encoded, descriptor_inner in Hm.
  pose proof (cbor_head_len_bounds chunk). pose proof (cbor_head_len_bounds count).
  pose proof (cbor_head_len_bounds DESCRIPTOR_BYTES).
  match type of Hm with _ + cbor_head_len ?x + _ ≤ _ => pose proof (cbor_head_len_bounds x) end.
  unfold DESCRIPTOR_BYTES in *. nia.
Qed.
End capacity.

Section stream.
Context `{Target} `{Blake3} `{CborLaws} `{!DerivedDecode} `{ObjectPath} `{Text}.

Lemma byte_writer_chunk log view w :
  options_wf (log_options log) = true → byte_writer log view = Ok w →
  0 < writer_chunk_bytes w ≤ MAX_CHUNK_BYTES
  ∧ descriptor_fits (log_options log) (writer_chunk_bytes w) 0 = true
  ∧ writer_chunk_bytes w = stream_chunk_bytes (log_options log).
Proof.
  intros Hwf Hw. unfold byte_writer in Hw. inv_ok.
  unfold options_wf, in_usize in Hwf. bool_hyps. cbn [writer_chunk_bytes].
  set (chunk := stream_chunk_bytes _) in *.
  assert (descriptor_fits (log_options log) chunk 0 = true) as Hzero.
  { unfold log_node_size in Hok. inv_ok. unfold descriptor_fits.
    change (replicate (Z.to_nat 0) (chunk, 1)) with (@nil (Z * Z)).
    match goal with Hn : node_size _ _ _ = Ok _ |- _ => by setoid_rewrite Hn end. }
  pose proof Hzero as Hsize. rewrite descriptor_fits_iff in Hsize by lia. destruct Hsize as (_ & Hm & _).
  pose proof (descriptor_encoded_pos chunk) as Hpos.
  split_and!; [|unfold chunk, stream_chunk_bytes, MAX_CHUNK_BYTES; lia|done|done].
  unfold chunk, stream_chunk_bytes, MAX_CHUNK_BYTES. lia.
Qed.

(** The capacity of a writer is exact: its chunks are non-empty and bounded, and it
    accepts one chunk for each reference the largest descriptor node within the log's
    limits can hold. *)
Theorem byte_writer_capacity log view w :
  options_wf (log_options log) = true → byte_writer log view = Ok w →
  0 < writer_chunk_bytes w ≤ MAX_CHUNK_BYTES
  ∧ ∃ count, 0 ≤ count ∧ writer_capacity w = count * writer_chunk_bytes w ∧ writer_capacity w ≤ u64_max
    ∧ ∀ n, 0 ≤ n → descriptor_fits (log_options log) (writer_chunk_bytes w) n = true ↔ n ≤ count.
Proof.
  intros Hwf Hw. pose proof (byte_writer_chunk log view w Hwf Hw) as (Hchunk & Hzero & _).
  split; [done|]. unfold byte_writer in Hw. inv_ok. cbn [writer_chunk_bytes writer_capacity] in *.
  unfold options_wf, in_usize in Hwf. bool_hyps.
  set (chunk := stream_chunk_bytes _) in *.
  apply u64_checked_mul_Some in Hok0 as [-> Hmul].
  assert (max_object_bytes (log_options log) / 32 ≤ max_object_bytes (log_options log)) by (apply Z.div_le_upper_bound; lia).
  assert (0 ≤ max_object_bytes (log_options log) / 32) by (apply Z.div_pos; lia).
  set (high := Z.min _ _) in *.
  assert (high - 0 < 2 ^ Z.of_nat USIZE_TURNS) as Hturns.
  { pose proof usize_max_le_u64. change (2 ^ Z.of_nat USIZE_TURNS) with 36893488147419103232.
    unfold u64_max, high in *. lia. }
  destruct (capacity_search_last (descriptor_fits (log_options log) chunk)
    (descriptor_fits_mono (log_options log) chunk ltac:(lia)) USIZE_TURNS 0 high ltac:(lia) Hturns Hzero) as (Hb & Hfit & Hlast).
  eexists. split_and!; [apply Hb|reflexivity|exact Hmul|]. intros n Hn. split.
  - intros Hfn. pose proof (descriptor_fits_bound (log_options log) chunk ltac:(lia) n Hn Hfn).
    destruct (Z.le_gt_cases n (capacity_search USIZE_TURNS (descriptor_fits (log_options log) chunk) 0 high));
      [done|]. by rewrite Hlast in Hfn by lia.
  - intros Hle. apply (descriptor_fits_mono (log_options log) chunk ltac:(lia) n _ ltac:(split; [done|exact Hle]) Hfit).
Qed.
(** ** What a trace stored and fetched *)

Definition written (tr : list Ev) (b : bytes) : Prop :=
  ∃ loc version, MkEv (EPut loc b PutCreate) (Ok version) ∈ tr.

Definition fetched (tr : list Ev) (b : bytes) : Prop :=
  ∃ loc stored, got tr loc stored ∧ stored_bytes stored = b.

(** Storage returned other bytes under the digest of bytes that were stored. *)
Definition collided (tr : list Ev) : Prop :=
  ∃ x y, written tr x ∧ fetched tr y ∧ x ≠ y ∧ digest_of x = digest_of y.

Lemma written_mono tr tr' b : tr ⊆ tr' → written tr b → written tr' b.
Proof. intros Hs (l & v & Hin). exists l, v. eauto. Qed.

Lemma fetched_mono tr tr' b : tr ⊆ tr' → fetched tr b → fetched tr' b.
Proof. intros Hs (l & o & Hg & Hb). exists l, o. split; [by eapply got_mono|done]. Qed.

Lemma collided_mono tr tr' : tr ⊆ tr' → collided tr → collided tr'.
Proof. intros Hs (x & y & Hx & Hy & Hrest). exists x, y. eauto using written_mono, fetched_mono. Qed.

(** ** Staged objects *)

Lemma store_create_written st key b tr : returns (store_create st key b) tr (Ok true) → written tr b.
Proof.
  unfold store_create. intros Hr. returns_inv.
  match type of Hr with returns (match ?r with _ => _ end) _ _ => destruct r as [v|[]]; try (by destruct Hr) end.
  exists (location st key), v. set_solver.
Qed.

(** [o] names the content [b], which the trace stored. *)
Definition stored_as (tr : list Ev) (kind : ObjectKind) (subtree : Z) (o : ObjectRef) (b : bytes) : Prop :=
  obj_kind o = kind ∧ obj_digest o = digest_of b ∧ obj_len o = len b ∧ obj_subtree_objects o = subtree
  ∧ uuid_wf (storage_uuid (obj_storage_id o)) = true ∧ len b ≤ u64_max ∧ written tr b.

Lemma stored_as_mono tr tr' kind subtree o b :
  tr ⊆ tr' → stored_as tr kind subtree o b → stored_as tr' kind subtree o b.
Proof. intros Hs (? & ? & ? & ? & ? & ? & ?). split_and!; eauto using written_mono. Qed.

Lemma fresh_object_returns log kind b subtree blocked o : ∀ attempts tr,
  len b ≤ u64_max → possible_trace uuid_answers tr →
  returns (fresh_object_attempts attempts log kind b (len b) subtree blocked) tr (Ok o) →
  stored_as tr kind subtree o b.
Proof.
  induction attempts as [|attempts IH]; intros tr Hb Hp Hr; cbn [fresh_object_attempts] in Hr; [by destruct Hr|].
  apply returns_bind in Hr as (t1 & tr' & uid & -> & Hid & Hr). destruct Hid as (u & t & -> & -> & ->).
  apply Forall_app in Hp as [Hid Hp]. apply Forall_cons in Hid as [Hid _]. simpl in Hid.
  apply (stored_as_mono tr'); [set_solver|]. destruct (is_blocked _ _); [by apply IH|].
  apply returns_io_bind_Ok in Hr as (t1 & t2 & created & -> & Hc & Hr). apply Forall_app in Hp as [_ Hp].
  destruct created; [|apply (stored_as_mono t2); [set_solver|by apply IH]].
  destruct Hr as [-> [= ->]]. split_and!; try done. eapply written_mono; [|by eapply store_create_written]. set_solver.
Qed.

Lemma create_fresh_object_returns log kind b subtree blocked o tr :
  possible_trace uuid_answers tr →
  returns (create_fresh_object_with log kind b subtree blocked) tr (Ok o) → stored_as tr kind subtree o b.
Proof.
  unfold create_fresh_object_with. intros Hp Hr. apply returns_io_bind_Ok in Hr as (t1 & t2 & l & -> & [-> Hl] & Hr).
  symmetry in Hl. apply ok_or_Ok, u64_try_from_Some in Hl as [-> Hl].
  apply fresh_object_returns in Hr; [done|lia|by apply Forall_app in Hp as [_ ?]].
Qed.

Lemma put_object_returns log view b tr s :
  possible_trace uuid_answers tr → returns (put_object log view b) tr (Ok s) →
  stored_as tr Blob 1 (staged_object_ref s) b ∧ len b ≤ max_object_bytes (log_options log).
Proof.
  unfold put_object. intros Hp Hr. apply returns_io_bind_Ok in Hr as (t1 & t2 & [] & -> & [-> _] & Hr).
  destruct (Z.ltb_spec (max_object_bytes (log_options log)) (len b)); [by destruct Hr|]. split; [|lia].
  apply returns_io_bind_Ok in Hr as (t1 & t3 & blocked & -> & _ & Hr).
  apply returns_io_bind_Ok in Hr as (t4 & t5 & o & -> & Hc & [-> [= ->]]).
  rewrite !app_nil_r in *. apply Forall_app in Hp as [_ Hp]. apply Forall_app in Hp as [_ Hp].
  eapply stored_as_mono; [|by eapply create_fresh_object_returns]. set_solver.
Qed.

Lemma put_node_returns log view payload children tr s :
  possible_trace uuid_answers tr → returns (put_node log view payload children) tr (Ok s) →
  ∃ b subtree, encode_node (MkNodeBody payload (staged_object_ref <$> children)) (log_options log) = Ok b
    ∧ subtree_objects (staged_object_ref <$> children) = Ok subtree
    ∧ stored_as tr Node subtree (staged_object_ref s) b.
Proof.
  unfold put_node. intros Hp Hr. apply returns_io_bind_Ok in Hr as (t1 & t2 & [] & -> & [-> _] & Hr).
  apply returns_io_bind_Ok in Hr as (t1 & t3 & subtree & -> & [-> Hs] & Hr).
  apply returns_io_bind_Ok in Hr as (t1 & t4 & b & -> & [-> Hb] & Hr).
  apply returns_io_bind_Ok in Hr as (t1 & t5 & blocked & -> & _ & Hr).
  apply returns_io_bind_Ok in Hr as (t6 & t7 & o & -> & Hc & [-> [= ->]]).
  rewrite !app_nil_r in *. exists b, subtree. split_and!; [done..|].
  repeat (apply Forall_app in Hp as [_ Hp]).
  eapply stored_as_mono; [|by eapply create_fresh_object_returns]. set_solver.
Qed.

(** ** Writing *)

(** The children hold full chunks of [data], in order, and the buffer the rest. *)
Definition writing (tr : list Ev) (w : ByteWriter) (data : bytes) : Prop :=
  ∃ pieces,
    Forall2 (λ s b, stored_as tr Blob 1 (staged_object_ref s) b) (writer_children w) pieces
    ∧ Forall (λ b, len b = writer_chunk_bytes w) pieces
    ∧ data = concat pieces ++ writer_buffer w
    ∧ len (writer_buffer w) < writer_chunk_bytes w ≤ max_object_bytes (log_options (writer_log w)).

(** What writing leaves alone. *)
Definition same_stream (w w' : ByteWriter) : Prop :=
  writer_log w' = writer_log w ∧ writer_view w' = writer_view w
  ∧ writer_chunk_bytes w' = writer_chunk_bytes w ∧ writer_capacity w' = writer_capacity w
  ∧ writer_len w' = writer_len w ∧ writer_failed w' = writer_failed w.

Lemma writing_mono tr tr' w data : tr ⊆ tr' → writing tr w data → writing tr' w data.
Proof.
  intros Hs (pieces & Hall & Hrest). exists pieces. split; [|done].
  eapply Forall2_impl; [done|]. intros s b. by apply stored_as_mono.
Qed.

(** Full chunk stored: it leaves the buffer and joins the children. *)
Lemma writing_push tr w data s :
  writing tr (set_buffer [] w) data → len (writer_buffer w) = writer_chunk_bytes w →
  stored_as tr Blob 1 (staged_object_ref s) (writer_buffer w) →
  writing tr (push_child s (set_buffer [] w)) (data ++ writer_buffer w).
Proof.
  intros (pieces & Hall & Hfull & -> & Hlt) Hlen Hs. exists (pieces ++ [writer_buffer w]). split_and!.
  - simpl. apply Forall2_app; [done|]. by constructor.
  - simpl. apply Forall_app. split; [done|]. by constructor.
  - simpl. rewrite concat_app. simpl. by rewrite !app_nil_r.
  - apply Hlt.
  - apply Hlt.
Qed.

Lemma write_chunks_writing : ∀ turns w data more tr0 tr w',
  writing tr0 w data → possible_trace uuid_answers tr →
  returns (write_chunks turns w more) tr (Ok (), w') →
  writing (tr0 ++ tr) w' (data ++ more) ∧ same_stream w w'.
Proof.
  induction turns as [|turns IH]; intros w data more tr0 tr w' Hw Hp Hr;
    (destruct more as [|x more]; [destruct Hr as [-> [= ->]]; rewrite !app_nil_r; split; [done|by repeat split]|]).
  { by destruct Hr. }
  cbn [write_chunks] in Hr. set (data1 := x :: more) in *.
  set (n := Z.to_nat _) in Hr. set (w1 := set_buffer _ w) in Hr.
  assert (data ++ data1 = (data ++ take n data1) ++ drop n data1) as ->.
  { by rewrite <-app_assoc, take_drop. }
  destruct Hw as (pieces & Hall & Hfull & -> & Hlt).
  assert (len (writer_buffer w1) ≤ writer_chunk_bytes w) as Hle.
  { unfold w1. simpl. unfold len in *. rewrite length_app, length_take. unfold n, len in *. lia. }
  destruct (Z.eqb_spec (len (writer_buffer w1)) (writer_chunk_bytes w1)) as [Hfl|Hne].
  - apply returns_bind in Hr as (t1 & t2 & [child|e] & -> & Hput & Hr); [|by destruct Hr].
    apply Forall_app in Hp as [Hp1 Hp2]. apply put_object_returns in Hput as [Hst _]; [|done].
    rewrite app_assoc.
    apply (IH _ ((concat pieces ++ writer_buffer w) ++ take n data1) _ (tr0 ++ t1)) in Hr; [done| |done].
    rewrite <-app_assoc. apply (writing_push (tr0 ++ t1) w1 (concat pieces) child); [|done|].
    + exists pieces. simpl. split_and!; [|done|by rewrite app_nil_r| |apply Hlt].
      * eapply Forall2_impl; [done|]. intros s b. apply stored_as_mono. set_solver.
      * unfold len in *. simpl in *. lia.
    + eapply stored_as_mono; [|done]. set_solver.
  - apply (IH w1 ((concat pieces ++ writer_buffer w) ++ take n data1) _ tr0) in Hr; [done| |done]. exists pieces. simpl. rewrite <-app_assoc.
    split_and!; [done..| |apply Hlt]. simpl in *. lia.
Qed.
(** While the buffer is shorter than a chunk, the loop never uses up its turns. *)
Lemma write_chunks_turns {r} : ∀ turns turns' w data tr,
  len (writer_buffer w) < writer_chunk_bytes w → (length data ≤ turns)%nat → (length data ≤ turns')%nat →
  returns (write_chunks turns w data) tr r → returns (write_chunks turns' w data) tr r.
Proof.
  induction turns as [|turns IH]; intros turns' w data tr Hw Ht Ht' Hr.
  { destruct data; [by destruct turns'|simpl in Ht; lia]. }
  destruct data as [|x data]; [by destruct turns'|].
  destruct turns' as [|turns']; [simpl in Ht'; lia|].
  cbn [write_chunks] in *. set (data1 := x :: data) in *. set (n := Z.to_nat _) in *.
  assert (1 ≤ n)%nat as Hn.
  { unfold n, data1. rewrite len_cons. pose proof (len_nonneg data). lia. }
  assert (length (drop n data1) ≤ length data)%nat as Hd by (rewrite length_drop; simpl; lia).
  simpl in Ht, Ht'. destruct (Z.eqb_spec (len (writer_buffer (set_buffer (writer_buffer w ++ take n data1) w)))
    (writer_chunk_bytes (set_buffer (writer_buffer w ++ take n data1) w))) as [Heq|Hne].
  - apply returns_bind in Hr as (t1 & t2 & staged & -> & Hput & Hr). apply returns_bind.
    exists t1, t2, staged. split_and!; [done..|]. destruct staged; [|done].
    eapply IH; [|lia..|done]. pose proof (len_nonneg (writer_buffer w)). simpl. unfold len. simpl. lia.
  - eapply IH; [|lia..|done]. simpl in *. unfold n, len in *. rewrite length_app, length_take in *. lia.
Qed.

(** The loop itself does not touch the failure mark. *)
Lemma write_chunks_failed : ∀ turns w data tr r w',
  returns (write_chunks turns w data) tr (r, w') → writer_failed w = true → writer_failed w' = true.
Proof.
  induction turns as [|turns IH]; intros w data tr r w' Hr Hf;
    (destruct data as [|x data]; [by destruct Hr as [_ [= _ ->]]|]); [by destruct Hr as [_ [= _ ->]]|].
  cbn [write_chunks] in Hr. destruct (_ =? _); [|by eapply IH].
  apply returns_bind in Hr as (t1 & t2 & [child|e] & -> & _ & Hr); [by eapply IH|by destruct Hr as [_ [= _ ->]]].
Qed.

(** The writer has accepted exactly [data]. *)
Definition writer_holds (tr : list Ev) (w : ByteWriter) (data : bytes) : Prop :=
  writing tr w data ∧ writer_failed w = false ∧ writer_len w = len data ∧ len data ≤ u64_max
  ∧ writer_chunk_bytes w = stream_chunk_bytes (log_options (writer_log w)).

Lemma write_holds tr0 w data more tr w' :
  writer_holds tr0 w data → possible_trace uuid_answers tr →
  returns (write w more) tr (Ok (), w') →
  writer_holds (tr0 ++ tr) w' (data ++ more) ∧ writer_log w' = writer_log w ∧ writer_view w' = writer_view w.
Proof.
  intros (Hw & Hf & Hl & Hu & Hc) Hp Hr. unfold write in Hr. rewrite Hf in Hr.
  destruct (u64_checked_add (writer_len _) (len more)) as [l|] eqn:Hadd; [|by destruct Hr].
  apply checked_add_Some in Hadd as [-> Hmax]. destruct (_ <=? _); [|by destruct Hr].
  apply returns_bind in Hr as (t1 & t2 & [r w1] & -> & Hchunks & Hr). destruct r as [[]|e]; [|by destruct Hr].
  destruct Hr as [-> [= ->]]. rewrite app_nil_r in *.
  apply (write_chunks_writing _ _ data more tr0) in Hchunks as [Hw1 Hsame]; [|done|done].
  destruct Hsame as (Hlog & Hview & Hchunk & Hcap & Hlen & Hfl). simpl in *.
  split; [|done]. split_and!; [done|done|simpl; by rewrite len_app, Hl|rewrite len_app; congruence|simpl; congruence].
Qed.

Lemma byte_writer_empty log view w :
  byte_writer log view = Ok w →
  ∃ capacity, w = MkByteWriter log view (stream_chunk_bytes (log_options log)) capacity 0 [] [] false.
Proof.
  unfold byte_writer. generalize (capacity_search USIZE_TURNS
    (descriptor_fits (log_options log) (stream_chunk_bytes (log_options log))) 0
    (Z.min (max_object_refs (log_options log)) (max_object_bytes (log_options log) / 32))).
  intros low Hw. inv_ok. eauto.
Qed.

Lemma byte_writer_holds log view w :
  options_wf (log_options log) = true → byte_writer log view = Ok w →
  writer_holds [] w [] ∧ writer_log w = log ∧ writer_view w = view.
Proof.
  intros Hwf Hw. pose proof (byte_writer_chunk log view w Hwf Hw) as ([Hpos _] & _ & _).
  apply byte_writer_empty in Hw as [capacity ->]. cbn [writer_chunk_bytes] in Hpos.
  split; [|done]. split_and!; try done. exists []. split_and!; try done.
  cbn [writer_chunk_bytes writer_log]. unfold stream_chunk_bytes. lia.
Qed.

(** Writing pieces in order. *)
Fixpoint write_all (w : ByteWriter) (pieces : list bytes) : io ByteWriter :=
  match pieces with
  | [] => ok w
  | piece :: pieces =>
      let* '(r, w) := write w piece in
      match r with Ok _ => write_all w pieces | Err e => fail e end
  end.

Lemma write_all_holds : ∀ pieces tr0 w data tr w',
  writer_holds tr0 w data → possible_trace uuid_answers tr → returns (write_all w pieces) tr (Ok w') →
  writer_holds (tr0 ++ tr) w' (data ++ concat pieces) ∧ writer_log w' = writer_log w ∧ writer_view w' = writer_view w.
Proof.
  induction pieces as [|p pieces IH]; intros tr0 w data tr w' Hw Hp Hr; simpl in Hr.
  { destruct Hr as [-> [= ->]]. simpl. by rewrite !app_nil_r. }
  apply returns_bind in Hr as (t1 & t2 & [r w1] & -> & Hwrite & Hr). apply Forall_app in Hp as [Hp1 Hp2].
  destruct r as [[]|e]; [|by destruct Hr].
  apply (write_holds tr0 w data) in Hwrite as (Hw1 & Hl & Hv); [|done|done].
  apply (IH (tr0 ++ t1) w1 (data ++ p)) in Hr as (? & ? & ?); [|done|done].
  simpl. rewrite !app_assoc. split; [done|]. split; congruence.
Qed.
(** ** Finished streams *)

(** The chunk at [index]. *)
Definition piece_of (chunk : Z) (data : bytes) (index : nat) : bytes :=
  take (Z.to_nat chunk) (drop (index * Z.to_nat chunk) data).

Lemma piece_of_full chunk rest b : ∀ pieces i,
  Forall (λ b, len b = chunk) pieces → pieces !! i = Some b → piece_of chunk (concat pieces ++ rest) i = b.
Proof.
  unfold piece_of. induction pieces as [|p pieces IH]; intros i Hall Hi; [done|].
  apply Forall_cons in Hall as [Hp Hall]. assert (length p = Z.to_nat chunk) as Hlen by (unfold len in Hp; lia).
  destruct i as [|i]; simpl in *.
  - injection Hi as ->. rewrite drop_0, <-app_assoc, take_app_le, take_ge by lia. done.
  - rewrite <-app_assoc, drop_app_add' by done. by apply IH.
Qed.

Lemma piece_of_last chunk rest : ∀ pieces,
  Forall (λ b, len b = chunk) pieces → len rest ≤ chunk →
  piece_of chunk (concat pieces ++ rest) (length pieces) = rest.
Proof.
  unfold piece_of. induction pieces as [|p pieces IH]; intros Hall Hr; simpl.
  - rewrite drop_0, take_ge; [done|]. unfold len in Hr. lia.
  - apply Forall_cons in Hall as [Hp Hall]. assert (length p = Z.to_nat chunk) as Hlen by (unfold len in Hp; lia).
    rewrite <-app_assoc, drop_app_add' by done. by apply IH.
Qed.

Lemma concat_full_len chunk pieces :
  Forall (λ b : bytes, len b = chunk) pieces → len (concat pieces) = len pieces * chunk.
Proof.
  induction 1 as [|p pieces Hp _ IH]; [done|]. simpl. rewrite len_app, len_cons, IH. lia.
Qed.

(** The children are the chunks of [data]. *)
Definition chunk_children (tr : list Ev) (chunk limit : Z) (children : list ObjectRef) (data : bytes) : Prop :=
  len children = div_ceil (len data) chunk
  ∧ ∀ i c, children !! i = Some c → stored_as tr Blob 1 c (piece_of chunk data i) ∧ obj_len c ≤ limit.

(** The root of a stream of [data]: a blob, or a descriptor node over its chunks. *)
Inductive stream_root (tr : list Ev) (options : Options) (root : ObjectRef) (data : bytes) : Prop :=
  | root_blob :
      stored_as tr Blob 1 root data → 0 < len data ≤ stream_chunk_bytes options →
      stream_root tr options root data
  | root_node children b subtree :
      0 < stream_chunk_bytes options → len data ≤ u64_max →
      chunk_children tr (stream_chunk_bytes options) (max_object_bytes options) children data →
      encode_node (MkNodeBody (stream_descriptor (len data) (stream_chunk_bytes options)) children) options = Ok b →
      subtree_objects children = Ok subtree →
      stored_as tr Node subtree root b →
      stream_root tr options root data.

Lemma chunk_children_full tr chunk limit pieces children :
  0 < chunk ≤ limit → Forall (λ b, len b = chunk) pieces →
  Forall2 (λ s b, stored_as tr Blob 1 (staged_object_ref s) b) children pieces →
  chunk_children tr chunk limit (staged_object_ref <$> children) (concat pieces).
Proof.
  intros Hc Hfull Hall. split.
  - rewrite (concat_full_len chunk) by done. symmetry.
    unfold len. rewrite length_fmap, (Forall2_length _ _ _ Hall). apply div_ceil_unique; lia.
  - intros i c Hi. apply list_lookup_fmap_Some_1 in Hi as (s & -> & Hi).
    destruct (Forall2_lookup_l _ _ _ _ _ Hall Hi) as (b & Hb & Hs).
    rewrite <-(app_nil_r (concat pieces)), (piece_of_full chunk [] b) by done. split; [done|].
    destruct Hs as (_ & _ & -> & _). rewrite Forall_lookup in Hfull. specialize (Hfull _ _ Hb). simpl in Hfull. lia.
Qed.

Lemma chunk_children_last tr chunk limit pieces children rest last :
  0 < chunk ≤ limit → Forall (λ b, len b = chunk) pieces → 0 < len rest < chunk →
  Forall2 (λ s b, stored_as tr Blob 1 (staged_object_ref s) b) children pieces →
  stored_as tr Blob 1 (staged_object_ref last) rest →
  chunk_children tr chunk limit (staged_object_ref <$> children ++ [last]) (concat pieces ++ rest).
Proof.
  intros Hc Hfull Hrest Hall Hlast. split.
  - rewrite len_app, (concat_full_len chunk) by done. symmetry.
    unfold len in *. rewrite length_fmap, length_app, (Forall2_length _ _ _ Hall). apply div_ceil_unique; simpl; nia.
  - intros i c Hi. apply list_lookup_fmap_Some_1 in Hi as (s & -> & Hi).
    apply lookup_app_Some in Hi as [Hi|[Hge Hi]].
    + destruct (Forall2_lookup_l _ _ _ _ _ Hall Hi) as (b & Hb & Hs).
      rewrite (piece_of_full chunk rest b) by done. split; [done|].
      destruct Hs as (_ & _ & -> & _). rewrite Forall_lookup in Hfull. specialize (Hfull _ _ Hb). simpl in Hfull. lia.
    + apply list_lookup_singleton_Some in Hi as [Hi ->].
      replace i with (length pieces) by (rewrite <-(Forall2_length _ _ _ Hall); lia).
      rewrite piece_of_last by (done || lia). split; [done|]. destruct Hlast as (_ & _ & -> & _). lia.
Qed.
Lemma chunk_children_mono tr tr' chunk limit children data :
  tr ⊆ tr' → chunk_children tr chunk limit children data → chunk_children tr' chunk limit children data.
Proof. intros Hs [Hl Hc]. split; [done|]. intros i c Hi. destruct (Hc i c Hi). eauto using stored_as_mono. Qed.

Lemma finish_children log view children data tr0 tr s :
  0 < stream_chunk_bytes (log_options log) → len data ≤ u64_max →
  chunk_children tr0 (stream_chunk_bytes (log_options log)) (max_object_bytes (log_options log))
    (staged_object_ref <$> children) data →
  possible_trace uuid_answers tr →
  returns (match children with
           | [child] => ok child
           | _ => put_node log view (stream_descriptor (len data) (stream_chunk_bytes (log_options log))) children
           end) tr (Ok s) →
  stream_root (tr0 ++ tr) (log_options log) (staged_object_ref s) data.
Proof.
  intros Hpos Hu Hc Hp Hr.
  assert (returns (put_node log view (stream_descriptor (len data) (stream_chunk_bytes (log_options log))) children)
    tr (Ok s) → stream_root (tr0 ++ tr) (log_options log) (staged_object_ref s) data) as Hnode.
  { intros (b & subtree & Hb & Hsub & Hs)%put_node_returns; [|done].
    eapply root_node; [done|done| |done|done|]; [eapply chunk_children_mono; [|done]|eapply stored_as_mono; [|done]];
      set_solver. }
  destruct children as [|child [|child2 children]]; [by apply Hnode| |by apply Hnode].
  destruct Hr as [-> [= ->]]. rewrite app_nil_r. destruct Hc as [Hlen Hc].
  destruct (Hc 0%nat _ eq_refl) as [Hst _]. change (1 = div_ceil (len data) (stream_chunk_bytes (log_options log))) in Hlen. symmetry in Hlen.
  pose proof (div_ceil_spec (len data) _ Hpos) as Hd. rewrite Hlen in Hd.
  assert (piece_of (stream_chunk_bytes (log_options log)) data 0 = data) as Hpiece.
  { unfold piece_of. rewrite drop_0. apply take_ge. unfold len in Hd. lia. }
  rewrite Hpiece in Hst. apply root_blob; [done|lia].
Qed.

Lemma finish_root tr0 w data tr s :
  writer_holds tr0 w data → possible_trace uuid_answers tr → returns (finish w) tr (Ok s) →
  stream_root (tr0 ++ tr) (log_options (writer_log w)) (staged_object_ref s) data.
Proof.
  intros ((pieces & Hall & Hfull & -> & Hlt) & Hf & Hl & Hu & Hchunk) Hp Hr.
  unfold finish in Hr. rewrite Hf, Hl, Hchunk in Hr. rewrite Hchunk in Hlt, Hfull.
  apply returns_io_bind_Ok in Hr as (t1 & t2 & children & -> & Hput & Hr). apply Forall_app in Hp as [Hp1 Hp2].
  rewrite app_assoc. pose proof (len_nonneg (writer_buffer w)).
  eapply finish_children; [lia|done| |done|exact Hr].
  destruct (writer_buffer w) as [|x rest] eqn:Hbuf.
  - destruct Hput as [-> [= ->]]. rewrite !app_nil_r. apply chunk_children_full; [lia|done|done].
  - apply returns_io_bind_Ok in Hput as (t3 & t4 & child & -> & Hput & [-> [= ->]]). rewrite app_nil_r in *.
    apply put_object_returns in Hput as [Hst _]; [|done].
    apply chunk_children_last; [lia|done| | |].
    + rewrite len_cons in *. pose proof (len_nonneg rest). lia.
    + eapply Forall2_impl; [done|]. intros s' b. apply stored_as_mono. set_solver.
    + eapply stored_as_mono; [|done]. set_solver.
Qed.

(** A writer that failed stays unusable: a call that does not succeed leaves the writer
    marked failed, a failed writer refuses to write or finish without making a request, a
    write beyond the capacity makes no request, and the chunk loop never runs out of turns. *)
Theorem failed_writer_unusable w data tr e w' :
  returns (write w data) tr (Err e, w') →
  writer_failed w' = true
  ∧ (∀ data' tr' x, returns (write w' data') tr' x → tr' = [] ∧ x = (Err invalid_stream, w'))
  ∧ (∀ tr' x, returns (finish w') tr' x → tr' = [] ∧ x = Err invalid_stream)
  ∧ (writer_failed w = false → writer_capacity w < writer_len w + len data →
       tr = [] ∧ e = LimitExceeded "byte stream length")
  ∧ (∀ turns, writer_failed w = false → len (writer_buffer w) < writer_chunk_bytes w → (length data ≤ turns)%nat →
       ∀ tr' x, returns (write_chunks turns w data) tr' x ↔ returns (write_chunks (length data) w data) tr' x).
Proof.
  intros Hr. assert (writer_failed w' = true) as Hf.
  { unfold write in Hr. destruct (writer_failed w) eqn:Hw; [by destruct Hr as [_ [= _ ->]]|].
    match type of Hr with returns (match ?m with _ => _ end) _ _ =>
      destruct m; [|by destruct Hr as [_ [= _ ->]]] end.
    apply returns_bind in Hr as (t1 & t2 & [r w1] & -> & Hc & Hr). destruct r; [by destruct Hr|].
    destruct Hr as [_ [= _ ->]]. by eapply write_chunks_failed. }
  split_and!; [done|..].
  - intros data' tr' x Hx. unfold write in Hx. by rewrite Hf in Hx.
  - intros tr' x Hx. unfold finish in Hx. by rewrite Hf in Hx.
  - intros Hw Hcap. unfold write in Hr. rewrite Hw in Hr. unfold checked_add_within in Hr.
    cbn [writer_len writer_capacity set_failed] in Hr. destruct (_ <=? u64_max) in Hr; [|by destruct Hr as [-> [= -> _]]].
    rewrite (proj2 (Z.leb_gt _ _)) in Hr by lia. by destruct Hr as [-> [= -> _]].
  - intros turns _ Hb Ht tr' x. split; apply write_chunks_turns; lia || done.
Qed.
End stream.
