(* ===== verification/ByteReaderProps.v ===== *)
(** * Reading byte streams

    The reader neither panics nor returns bytes of the wrong chunk, and a finished stream
    reads back as the bytes that were written. *)

From S2P Require Import Prelude Types Head Cbor Wire Format FormatEnvelope FormatNode Prog Wp Store StoreProps.
From S2P Require Import Log LogOps LogMaintain Protocol ProtocolSpecs TailProps ByteStream ByteWriterProps.

Section stream.
Context `{Target} `{Blake3} `{CborLaws} `{!DerivedDecode} `{ObjectPath} `{Text}.

(** ** Reading *)

(** [b] was fetched and is what [c] declares. *)
Definition authentic (tr : list Ev) (c : ObjectRef) (b : bytes) : Prop :=
  digest_of b = obj_digest c ∧ len b = obj_len c ∧ fetched tr b.

Lemma authentic_mono tr tr' c b : tr ⊆ tr' → authentic tr c b → authentic tr' c b.
Proof. intros Hs (? & ? & ?). split_and!; eauto using fetched_mono. Qed.

Lemma read_immutable_for_view_authentic log view o tr b :
  returns (read_immutable_for_view log view o) tr (Ok b) → authentic tr o b ∧ len b ≤ max_object_bytes (log_options log).
Proof.
  unfold read_immutable_for_view. intros Hr. apply returns_io_bind_Ok in Hr as (t1 & t2 & read & -> & Hread & Hr).
  destruct read as [b'|]; [|by apply missing_read_error_fails in Hr]. destruct Hr as [-> [= ->]].
  unfold read_immutable_optional in Hread. apply returns_io_bind_Ok in Hread as (t3 & t4 & l & -> & [-> Hl] & Hread).
  symmetry in Hl. apply ok_or_Ok, usize_try_from_Some in Hl as [-> Hl].
  destruct (Z.ltb_spec (max_object_bytes (log_options log)) (obj_len o)); [by destruct Hread|].
  apply returns_io_bind_Ok in Hread as (t5 & t6 & stored & -> & Hs & Hread). destruct stored as [stored|]; [|by destruct Hread].
  apply returns_io_bind_Ok in Hread as (t7 & t8 & [] & -> & [-> Hv] & [-> [= ->]]).
  symmetry in Hv. unfold verify_object in Hv. inv_ok. bool_hyps.
  match goal with Hu : u64_try_from _ = Some _ |- _ => apply u64_try_from_Some in Hu as [-> _] end.
  split; [|lia]. split_and!; [done|lia|]. exists (location (log_store log) (object_key log o)), stored.
  split; [|done]. eapply got_mono; [|by eapply store_read_got]. set_solver.
Qed.

Lemma read_object_authentic log view o tr b :
  returns (read_object log view o) tr (Ok b) → authentic tr o b.
Proof.
  unfold read_object. intros Hr. apply returns_io_bind_Ok in Hr as (t1 & t2 & [] & -> & [-> _] & Hr).
  destruct (negb _); [by destruct Hr|]. by apply read_immutable_for_view_authentic in Hr as [? _].
Qed.

(** The children of [r] are chunks of its geometry, and cached chunks are authentic. *)
Definition reader_ok (tr : list Ev) (r : ByteReader) : Prop :=
  (0 < reader_len r → 0 < reader_chunk_bytes r)
  ∧ reader_chunk_bytes r ≤ stream_chunk_bytes (log_options (reader_log r))
  ∧ (∀ i, 0 ≤ i → i * reader_chunk_bytes r < reader_len r → ∃ c, reader_children r !! Z.to_nat i = Some c
       ∧ obj_len c = Z.min (reader_len r - i * reader_chunk_bytes r) (reader_chunk_bytes r))
  ∧ (∀ i b, (reader_cached r).1 = Some (i, b) ∨ (reader_cached r).2 = Some (i, b) →
       ∃ c, reader_children r !! Z.to_nat i = Some c ∧ authentic tr c b).

Definition same_reader (r r' : ByteReader) : Prop :=
  reader_log r' = reader_log r ∧ reader_view r' = reader_view r
  ∧ reader_chunk_bytes r' = reader_chunk_bytes r ∧ reader_len r' = reader_len r
  ∧ reader_children r' = reader_children r.

Lemma reader_ok_mono tr tr' r : tr ⊆ tr' → reader_ok tr r → reader_ok tr' r.
Proof.
  intros Hs (Hpos & Hc & Hg & Hk). do 3 (split; [done|]). intros i b Hb. destruct (Hk i b Hb) as (c & ? & ?).
  exists c. eauto using authentic_mono.
Qed.

Lemma fetch_chunk_ok tr0 r index tr f r' :
  reader_ok tr0 r → 0 ≤ index → index * reader_chunk_bytes r < reader_len r →
  returns (fetch_chunk r index) tr (f, r') →
  reader_ok (tr0 ++ tr) r' ∧ same_reader r r'
  ∧ ((f = Some (Ok ()) ∧ ∃ c b, reader_children r !! Z.to_nat index = Some c
        ∧ (reader_cached r').1 = Some (index, b) ∧ authentic (tr0 ++ tr) c b)
     ∨ ∃ e, f = Some (Err e)).
Proof.
  intros Hok Hi Hlt Hr. pose proof Hok as (Hpos & Hc & Hg & Hk). unfold fetch_chunk in Hr.
  destruct (cached_at index (reader_cached r).1) eqn:Hfst.
  { destruct Hr as [-> [= -> ->]]. rewrite app_nil_r. split; [done|split; [by repeat split|left; split; [done|]]].
    unfold cached_at in Hfst. destruct (reader_cached r).1 as [[i b]|] eqn:E; [|done]. apply Z.eqb_eq in Hfst as ->.
    destruct (Hk index b (or_introl eq_refl)) as (c & ? & ?). eauto. }
  destruct (cached_at index (reader_cached r).2) eqn:Hsnd.
  { destruct Hr as [-> [= -> ->]]. rewrite app_nil_r. unfold cached_at in Hsnd.
    destruct (reader_cached r).2 as [[i b]|] eqn:E; [|done]. apply Z.eqb_eq in Hsnd as ->.
    split; [|split; [by repeat split|left; split; [done|]]].
    - do 3 (split; [done|]). simpl. intros i' b' [?|?]; apply Hk; [right|left]; congruence.
    - destruct (Hk index b (or_intror eq_refl)) as (c & ? & ?). eauto. }
  destruct (Hg index Hi Hlt) as (c & Hchild & _). cbn [reader_children set_cached] in Hr. rewrite Hchild in Hr.
  apply returns_bind in Hr as (t1 & t2 & [b|e] & -> & Hread & [-> [= -> ->]]); rewrite app_nil_r; simpl in Hread.
  - apply read_object_authentic in Hread.
    assert (authentic (tr0 ++ t1) c b) as Ha by (eapply authentic_mono; [|done]; set_solver).
    split; [|split; [by repeat split|left; split; [done|]; by exists c, b]].
    do 3 (split; [done|]). simpl. intros i' b' [[= <- <-]|Hc']; [by exists c|].
    destruct (Hk i' b' (or_introl Hc')) as (c' & ? & ?). exists c'. split; [done|].
    eapply authentic_mono; [|done]. set_solver.
  - split; [|split; [by repeat split|right; by exists e]].
    apply (reader_ok_mono tr0); [set_solver|]. do 3 (split; [done|]). simpl.
    intros i' b' [?|?]; [|done]. apply Hk. by left.
Qed.
(** What one read may return: an error, or the requested bytes of an authentic chunk. *)
Definition read_answer (tr : list Ev) (r : ByteReader) (offset max_len : Z) (a : option (Result bytes Error)) : Prop :=
  (∃ e, a = Some (Err e))
  ∨ ∃ out, a = Some (Ok out)
      ∧ if (max_len =? 0) || (reader_len r <=? offset) then out = []
        else ∃ c b, reader_children r !! Z.to_nat (offset / reader_chunk_bytes r) = Some c ∧ authentic tr c b
               ∧ out = take (Z.to_nat max_len) (drop (Z.to_nat (offset mod reader_chunk_bytes r)) b) ∧ out ≠ [].

Lemma slice_chunk_inside b start max_len :
  0 ≤ start < len b → 0 < max_len →
  slice_chunk b start max_len = Some (take (Z.to_nat max_len) (drop (Z.to_nat start) b))
  ∧ take (Z.to_nat max_len) (drop (Z.to_nat start) b) ≠ [].
Proof.
  intros Hs Hm. unfold slice_chunk. destruct (Z.ltb_spec (len b) start); [lia|].
  assert (length (drop (Z.to_nat start) b) = Z.to_nat (len b - start)) as Hd by (rewrite length_drop; unfold len; lia).
  split.
  - f_equal. destruct (Z.le_gt_cases max_len (len b - start)); [by rewrite Z.min_l by lia|].
    rewrite Z.min_r by lia. by rewrite !take_ge by lia.
  - intros Hnil. apply (f_equal length) in Hnil. rewrite length_take, Hd in Hnil. simpl in Hnil. lia.
Qed.

Lemma read_at_ok tr0 r offset max_len tr a r' :
  reader_ok tr0 r → 0 ≤ offset → 0 ≤ max_len → returns (read_at r offset max_len) tr (a, r') →
  reader_ok (tr0 ++ tr) r' ∧ same_reader r r' ∧ read_answer (tr0 ++ tr) r offset max_len a.
Proof.
  intros Hok Ho Hm Hr. unfold read_at in Hr. unfold read_answer.
  destruct ((max_len =? 0) || (reader_len r <=? offset)) eqn:Hshort.
  { destruct Hr as [-> [= -> ->]]. rewrite app_nil_r. split; [done|]. split; [by repeat split|]. right. by exists []. }
  apply orb_false_iff in Hshort as [Hmax Hlen]. apply Z.eqb_neq in Hmax. apply Z.leb_gt in Hlen.
  pose proof Hok as (Hpos & _ & Hg & _). specialize (Hpos ltac:(lia)). set (chunk := reader_chunk_bytes r) in *.
  pose proof (Z.mod_pos_bound offset chunk Hpos) as Hmod. pose proof (Z.div_mod offset chunk ltac:(lia)) as Hdiv.
  destruct (usize_try_from (offset / chunk)) as [index|] eqn:Hidx.
  2: { destruct Hr as [-> [= -> ->]]. rewrite app_nil_r. split; [done|]. split; [by repeat split|]. left; eauto. }
  apply usize_try_from_Some in Hidx as [-> Hidx].
  apply returns_bind in Hr as (t1 & t2 & [f r1] & -> & Hf & Hr). rewrite app_assoc.
  apply (fetch_chunk_ok tr0) in Hf as (Hok1 & Hsame & Hf); [|done|lia|lia].
  assert (t2 = [] ∧ r' = r1) as [-> ->].
  { repeat (case_match; try done); destruct Hr as [-> [= _ ->]]; done. }
  rewrite app_nil_r. split; [done|]. split; [done|].
  destruct Hf as [(-> & c & b & Hchild & Hcached & Ha)|[e ->]]; [|destruct Hr as [_ [= ->]]; left; eauto].
  rewrite Hcached in Hr. destruct Hsame as (_ & _ & Hchunk & _). rewrite Hchunk in Hr. fold chunk in Hr.
  destruct (usize_try_from (offset mod chunk)) as [start|] eqn:Hstart; [|destruct Hr as [_ [= ->]]; left; eauto].
  apply usize_try_from_Some in Hstart as [-> _].
  destruct (Hg (offset / chunk)) as (c' & Hc' & Hclen); [lia|lia|]. rewrite Hchild in Hc'. injection Hc' as <-.
  pose proof Ha as (_ & Hblen & _).
  destruct (slice_chunk_inside b (offset mod chunk) max_len) as [Hslice Hne]; [lia|lia|].
  rewrite Hslice in Hr. destruct Hr as [_ [= ->]]. right. eexists. split; [done|]. exists c, b. done.
Qed.

(** A sequence of reads. *)
Fixpoint read_all (r : ByteReader) (requests : list (Z * Z)) : prog (list (option (Result bytes Error)) * ByteReader) :=
  match requests with
  | [] => Done ([], r)
  | (offset, max_len) :: requests =>
      let* '(a, r) := read_at r offset max_len in
      let* '(answers, r) := read_all r requests in
      Done (a :: answers, r)
  end.

Definition unsigned (request : Z * Z) : Prop := 0 ≤ request.1 ∧ 0 ≤ request.2.

Lemma read_answer_same tr r r' offset max_len a :
  same_reader r r' → read_answer tr r' offset max_len a → read_answer tr r offset max_len a.
Proof. unfold read_answer. intros (_ & _ & Hc & Hl & Hch) Ha. by rewrite Hc, Hl, Hch in Ha. Qed.

Lemma read_answer_mono tr tr' r offset max_len a :
  tr ⊆ tr' → read_answer tr r offset max_len a → read_answer tr' r offset max_len a.
Proof.
  intros Hs [?|(out & Ha & Hout)]; [by left|right; exists out; split; [done|]].
  destruct (_ || _); [done|]. destruct Hout as (c & b & Hc & Hb & Hrest). exists c, b.
  split_and!; eauto using authentic_mono; apply Hrest.
Qed.

Lemma read_all_ok : ∀ requests tr0 r tr answers r',
  reader_ok tr0 r → Forall unsigned requests → returns (read_all r requests) tr (answers, r') →
  reader_ok (tr0 ++ tr) r' ∧ same_reader r r'
  ∧ Forall2 (λ q a, read_answer (tr0 ++ tr) r q.1 q.2 a) requests answers.
Proof.
  induction requests as [|[offset max_len] requests IH]; intros tr0 r tr answers r' Hok Hq Hr; simpl in Hr.
  { destruct Hr as [-> [= -> ->]]. rewrite app_nil_r. split; [done|]. split; [by repeat split|constructor]. }
  apply Forall_cons in Hq as [[Ho Hm] Hq].
  apply returns_bind in Hr as (t1 & t2 & [a r1] & -> & Hat & Hr).
  apply returns_bind in Hr as (t3 & t4 & [answers' r2] & -> & Hall & [-> [= -> ->]]). rewrite app_nil_r.
  apply (read_at_ok tr0) in Hat as (Hok1 & Hsame & Ha); [|done|done|done].
  apply (IH (tr0 ++ t1)) in Hall as (Hok2 & Hsame2 & Hall); [|done|done]. rewrite app_assoc.
  split; [done|]. split.
  { destruct Hsame as (? & ? & ? & ? & ?), Hsame2 as (? & ? & ? & ? & ?). split_and!; congruence. }
  constructor.
  - eapply read_answer_mono; [|done]. set_solver.
  - eapply Forall2_impl; [done|]. intros q a'. by apply read_answer_same.
Qed.
Lemma Forall2_or {A B} (C : Prop) (R : A → Prop) (P Q : A → B → Prop) l k :
  (∀ x y, R x → P x y → C ∨ Q x y) → Forall R l → Forall2 P l k → C ∨ Forall2 Q l k.
Proof.
  intros Himp HR. induction 1 as [|x y l k Hxy _ IH]; [right; constructor|].
  apply Forall_cons in HR as [Hx HR]. destruct (Himp x y Hx Hxy), (IH HR); auto.
Qed.

(** ** Opening *)

Lemma imap_forallb {A} (f : nat → A → bool) l :
  forallb id (imap f l) = true → ∀ i x, l !! i = Some x → f i x = true.
Proof.
  rewrite forallb_Forall, Forall_lookup. intros Hall i x Hi.
  specialize (Hall i (f i x)). rewrite list_lookup_imap, Hi in Hall. specialize (Hall eq_refl). by destruct (f i x).
Qed.

Lemma open_node_inv log view root tr r :
  obj_kind root ≠ Blob → returns (open_bytes log view root) tr (Ok r) →
  ∃ b node, authentic tr root b ∧ len b ≤ max_object_bytes (log_options log)
    ∧ decode_node b (log_options log) = Ok node
    ∧ let length := descriptor_number (node_payload node) 8 in
      let chunk := descriptor_number (node_payload node) 16 in
      r = MkByteReader log view chunk length (node_children node) (None, None)
      ∧ 0 < chunk ≤ stream_chunk_bytes (log_options log)
      ∧ div_ceil length chunk = len (node_children node)
      ∧ ∀ i c, node_children node !! i = Some c → valid_chunk length chunk i c = true.
Proof.
  intros Hk Hr. unfold open_bytes in Hr. rewrite bool_decide_false in Hr by done.
  apply returns_io_bind_Ok in Hr as (t1 & t2 & ref & -> & Hread & Hr).
  unfold read_node in Hread. apply returns_io_bind_Ok in Hread as (t3 & t4 & [] & -> & [-> _] & Hread).
  destruct (negb _); [by destruct Hread|].
  apply returns_io_bind_Ok in Hread as (t5 & t6 & b & -> & Hb & Hread).
  apply returns_io_bind_Ok in Hread as (t7 & t8 & node & -> & [-> Hd] & [-> [= ->]]).
  apply read_immutable_for_view_authentic in Hb as [Hb Hmax].
  symmetry in Hd. unfold decode_node_reference in Hd. inv_ok. cbn [ref_payload ref_children] in Hr.
  destruct (negb _ || negb _); [by destruct Hr|].
  destruct ((_ =? 0) || _ || _) eqn:Hgeo; [by destruct Hr|]. destruct (negb (forallb _ _)) eqn:Hall; [by destruct Hr|].
  destruct Hr as [-> [= ->]]. bool_hyps.
  exists b, node. split; [eapply authentic_mono; [|done]; set_solver|]. do 2 (split; [done|]).
  split; [done|]. pose proof (of_be_bytes_bounds (take 8 (drop 16 (node_payload node)))) as Hn.
  fold (descriptor_number (node_payload node) 16) in Hn.
  split; [lia|]. split; [lia|]. by apply imap_forallb.
Qed.

Lemma open_blob_inv log view root tr r :
  obj_kind root = Blob → returns (open_bytes log view root) tr (Ok r) →
  ∃ b, authentic tr root b ∧ obj_len root ≤ stream_chunk_bytes (log_options log)
    ∧ r = MkByteReader log view (stream_chunk_bytes (log_options log)) (obj_len root) [root] (Some (0, b), None).
Proof.
  intros Hk Hr. unfold open_bytes in Hr. rewrite bool_decide_true in Hr by done.
  apply returns_io_bind_Ok in Hr as (t1 & t2 & [] & -> & [-> _] & Hr).
  apply returns_io_bind_Ok in Hr as (t3 & t4 & [] & -> & [-> _] & Hr).
  destruct (Z.ltb_spec (stream_chunk_bytes (log_options log)) (obj_len root)); [by destruct Hr|].
  apply returns_io_bind_Ok in Hr as (t5 & t6 & b & -> & Hb & [-> [= ->]]). simpl. rewrite app_nil_r.
  exists b. split; [by eapply read_object_authentic|]. split; [lia|done].
Qed.

Lemma open_bytes_ok log view root tr r :
  returns (open_bytes log view root) tr (Ok r) → reader_ok tr r ∧ reader_log r = log.
Proof.
  intros Hr. destruct (decide (obj_kind root = Blob)) as [Hk|Hk].
  - apply open_blob_inv in Hr as (b & Hb & Hle & ->); [|done]. split; [|done].
    pose proof Hb as (_ & Hlen & _). pose proof (len_nonneg b).
    split; [simpl; lia|]. split; [done|]. split.
    + simpl. intros i Hi Hlt. assert (i = 0) as -> by nia. exists root. split; [done|]. lia.
    + simpl. intros i b' [[= <- <-]|?]; [|done]. by exists root.
  - apply open_node_inv in Hr as (b & node & _ & _ & _ & -> & Hc & Hd & Hall); [|done]. split; [|done].
    set (length := descriptor_number _ 8) in *. set (chunk := descriptor_number _ 16) in *.
    split; [simpl; lia|]. split; [simpl; lia|]. split; [|simpl; by intros i b' [?|?]].
    simpl. intros i Hi Hlt. pose proof (div_ceil_spec length chunk ltac:(lia)) as Hspec. rewrite Hd in Hspec.
    destruct (lookup_lt_is_Some_2 (node_children node) (Z.to_nat i)) as [c Hc'].
    { unfold len in Hspec. nia. }
    exists c. split; [done|]. specialize (Hall _ _ Hc'). unfold valid_chunk in Hall. bool_hyps.
    unfold expected_chunk in *. rewrite Z2Nat.id in * by lia. lia.
Qed.

(** C25. The reader is safe on any root it opens: no request makes it panic, every answer is
    an error or exactly the requested bytes, up to the chunk's end, of a fetched chunk with
    its declared digest and length, non-empty whenever bytes remain, and the cache never
    holds more than one chunk size in either slot. *)
Theorem byte_reader_safe log view root tr0 r requests tr answers r' :
  returns (open_bytes log view root) tr0 (Ok r) → Forall unsigned requests →
  returns (read_all r requests) tr (answers, r') →
  Forall2 (λ q a, read_answer (tr0 ++ tr) r q.1 q.2 a) requests answers
  ∧ ∀ i b, (reader_cached r').1 = Some (i, b) ∨ (reader_cached r').2 = Some (i, b) →
      ∃ c, reader_children r !! Z.to_nat i = Some c ∧ authentic (tr0 ++ tr) c b.
Proof.
  intros Hopen Hq Hr. apply open_bytes_ok in Hopen as [Hok _].
  apply (read_all_ok _ tr0) in Hr as (Hok' & Hsame & Hall); [|done|done]. split; [done|].
  destruct Hok' as (_ & _ & _ & Hk). destruct Hsame as (_ & _ & _ & _ & Hch). by rewrite Hch in Hk.
Qed.

(** ** Round trip *)

Lemma stream_descriptor_number length chunk :
  0 ≤ length ≤ u64_max → 0 ≤ chunk ≤ u64_max →
  descriptor_number (stream_descriptor length chunk) 8 = length
  ∧ descriptor_number (stream_descriptor length chunk) 16 = chunk.
Proof.
  intros Hl Hc. unfold descriptor_number, stream_descriptor.
  change (drop 8 (TAG ++ ?x)) with x. assert (∀ n x, take 8 (be_bytes 8 n ++ x) = be_bytes 8 n) as Htake.
  { intros n x. rewrite take_app_le, take_ge; by rewrite ?length_be_bytes. }
  assert (∀ n, 0 ≤ n ≤ u64_max → of_be_bytes (be_bytes 8 n) = n) as Hbe.
  { intros n Hn. rewrite of_be_bytes_be. apply Z.mod_small. unfold u64_max in Hn. simpl. lia. }
  split.
  - rewrite Htake. by apply Hbe.
  - change 16%nat with (8 + 8)%nat. rewrite drop_app_add' by done.
    rewrite drop_app_length' by (by rewrite length_be_bytes).
    rewrite take_ge by (by rewrite length_be_bytes). by apply Hbe.
Qed.

Lemma stream_descriptor_len length chunk : len (stream_descriptor length chunk) = 24.
Proof. unfold stream_descriptor, len. by rewrite !length_app, !length_be_bytes. Qed.

(** A fetched body is the stored one, or the digests collided. *)
Lemma authentic_stored tr kind subtree c x y :
  stored_as tr kind subtree c x → authentic tr c y → x = y ∨ collided tr.
Proof.
  intros (_ & Hx & _ & _ & _ & _ & Hw) (Hy & _ & Hf). destruct (decide (x = y)); [by left|right].
  exists x, y. split_and!; try done. congruence.
Qed.

Lemma chunk_child_ok tr options data children :
  options_wf options = true → chunk_children tr (stream_chunk_bytes options) (max_object_bytes options) children data →
  forallb (child_ok options) children = true ∧ forallb object_ref_wf children = true.
Proof.
  intros Hwf [_ Hc]. rewrite !forallb_Forall, !Forall_lookup.
  assert (∀ i c, children !! i = Some c → child_ok options c = true) as Hok.
  { intros i c Hi. destruct (Hc i c Hi) as [(Hk & Hd & Hl & Hs & Hu & Hm & _) Hmax].
    unfold child_ok, object_ref_wf, validate_count, in_u64. rewrite Hk, Hd, Hs, Hu, digest_of_wf, Hl in *.
    pose proof (len_nonneg (piece_of (stream_chunk_bytes options) data i)).
    rewrite !(proj2 (Z.leb_le _ _)) by (unfold u64_max in *; lia). done. }
  split; [intros i c Hi; rewrite (Hok i c Hi); done|].
  intros i c Hi. specialize (Hok i c Hi). unfold child_ok in Hok. bool_hyps.
  match goal with Hw : object_ref_wf c = true |- _ => by rewrite Hw end.
Qed.

Lemma open_bytes_stream tr0 log view root data tr r :
  options_wf (log_options log) = true → stream_root tr0 (log_options log) root data →
  returns (open_bytes log view root) tr (Ok r) →
  collided (tr0 ++ tr)
  ∨ (reader_len r = len data ∧ reader_chunk_bytes r = stream_chunk_bytes (log_options log)
     ∧ ∀ i c, reader_children r !! i = Some c → stored_as tr0 Blob 1 c (piece_of (reader_chunk_bytes r) data i)).
Proof.
  intros Hwf Hroot Hr. assert (stream_chunk_bytes (log_options log) ≤ u64_max) as Hcu.
  { unfold stream_chunk_bytes, MAX_CHUNK_BYTES, u64_max. lia. }
  destruct Hroot as [Hst Hlen|children b subtree Hpos Hu Hc Henc Hsub Hst].
  - pose proof Hst as (Hk & _ & Hl & _). apply open_blob_inv in Hr as (b & Hb & Hle & ->); [|done]. right. simpl.
    split_and!; [done|done|]. intros i c Hi. apply list_lookup_singleton_Some in Hi as [-> <-].
    unfold piece_of. rewrite drop_0, take_ge; [done|]. unfold len in *. lia.
  - pose proof Hst as (Hk & _). apply open_node_inv in Hr as (b' & node & Hb & Hbl & Hdec & -> & _); [|by rewrite Hk].
    destruct (authentic_stored (tr0 ++ tr) Node subtree root b b') as [<-|?]; [| |  |by left].
    1: eapply stored_as_mono; [|done]; set_solver. 1: eapply authentic_mono; [|done]; set_solver.
    destruct (chunk_child_ok _ _ _ _ Hwf Hc) as [Hok Href].
    rewrite (node_roundtrip (MkNodeBody (stream_descriptor (len data) (stream_chunk_bytes (log_options log))) children) _ b Hwf) in Hdec; [|unfold node_wf|exact Hok|exact Henc].
    + injection Hdec as <-. right. cbn [node_payload node_children reader_len reader_chunk_bytes reader_children].
      destruct (stream_descriptor_number (len data) (stream_chunk_bytes (log_options log))) as [-> ->];
        [pose proof (len_nonneg data); lia|lia|].
      split_and!; [done|done|]. intros i c Hi. by destruct (proj2 Hc i c Hi).
    + cbn [node_payload node_children]. rewrite Href, stream_descriptor_len. unfold in_usize.
      destruct usize_max_cases as [->| ->]; done.
Qed.
(** What reading at [offset] means for the bytes of a stream. *)
Definition stream_slice (chunk : Z) (data : bytes) (offset max_len : Z) : bytes :=
  take (Z.to_nat (Z.min max_len (chunk - offset mod chunk))) (drop (Z.to_nat offset) data).

Lemma piece_of_slice chunk data offset max_len :
  0 < chunk → 0 ≤ offset → 0 ≤ max_len →
  take (Z.to_nat max_len) (drop (Z.to_nat (offset mod chunk)) (piece_of chunk data (Z.to_nat (offset / chunk))))
  = stream_slice chunk data offset max_len.
Proof.
  intros Hc Ho Hm. unfold piece_of, stream_slice.
  pose proof (Z.mod_pos_bound offset chunk Hc). pose proof (Z.div_mod offset chunk ltac:(lia)).
  pose proof (Z.div_pos offset chunk Ho Hc).
  rewrite skipn_firstn_comm, drop_drop, take_take. f_equal; [lia|].
  f_equal. rewrite <-Z2Nat.inj_mul, <-Z2Nat.inj_add by nia. f_equal. lia.
Qed.

(** Writing a stream from its pieces. *)
Definition stage_stream (log : Log) (view : View) (pieces : list bytes) : io StagedObject :=
  let! w := lift (byte_writer log view) in
  let! w := write_all w pieces in
  finish w.

Lemma stage_stream_root log view pieces tr s :
  options_wf (log_options log) = true → possible_trace uuid_answers tr →
  returns (stage_stream log view pieces) tr (Ok s) →
  stream_root tr (log_options log) (staged_object_ref s) (concat pieces).
Proof.
  intros Hwf Hp Hr. unfold stage_stream in Hr.
  apply returns_io_bind_Ok in Hr as (t1 & t2 & w & -> & [-> Hw] & Hr). symmetry in Hw.
  apply returns_io_bind_Ok in Hr as (t3 & t4 & w' & -> & Hall & Hr). simpl in *.
  apply Forall_app in Hp as [Hp1 Hp2].
  apply byte_writer_holds in Hw as (Hh & Hlog & _); [|done].
  apply (write_all_holds _ [] w []) in Hall as (Hh' & Hlog' & _); [|exact Hh|done].
  apply (finish_root _ _ _ _ _ Hh') in Hr; [|done]. by rewrite Hlog', Hlog in Hr.
Qed.

(** C24. Byte streams round-trip: whatever the pieces, once they are written and the stream
    is finished, a reader that opens its root answers every request with an error or with
    exactly the requested bytes of the concatenated pieces, up to the chunk's end, unless
    storage returned other bytes under the digest of a body that was stored. *)
Theorem byte_stream_roundtrip log view pieces tr0 root log' view' tr1 r requests tr2 answers r' :
  options_wf (log_options log) = true → log_options log' = log_options log →
  possible_trace uuid_answers tr0 → Forall unsigned requests →
  returns (stage_stream log view pieces) tr0 (Ok root) →
  returns (open_bytes log' view' (staged_object_ref root)) tr1 (Ok r) →
  returns (read_all r requests) tr2 (answers, r') →
  let data := concat pieces in
  collided (tr0 ++ tr1 ++ tr2)
  ∨ reader_len r = len data
    ∧ Forall2 (λ q a, (∃ e, a = Some (Err e))
        ∨ a = Some (Ok (if (q.2 =? 0) || (len data <=? q.1) then []
                        else stream_slice (reader_chunk_bytes r) data q.1 q.2))) requests answers.
Proof.
  intros Hwf Hopt Hp Hq Hw Hopen Hr data. apply stage_stream_root in Hw; [|done|done]. fold data in Hw.
  pose proof (open_bytes_ok _ _ _ _ _ Hopen) as [Hok _]. rewrite <-Hopt in Hw, Hwf.
  apply (open_bytes_stream tr0 _ _ _ data) in Hopen as [?|(Hlen & Hchunk & Hch)]; [|  |done|done].
  { left. eapply collided_mono; [|done]. set_solver. }
  apply (read_all_ok _ tr1) in Hr as (_ & _ & Hall); [|done|done].
  assert (collided (tr0 ++ tr1 ++ tr2) ∨ Forall2 (λ q a, (∃ e, a = Some (Err e))
    ∨ a = Some (Ok (if (q.2 =? 0) || (len data <=? q.1) then []
                    else stream_slice (reader_chunk_bytes r) data q.1 q.2))) requests answers) as [?|?]; [|by left|by right].
  eapply Forall2_or; [|exact Hq|exact Hall].
  intros [offset max_len] a [Ho Hm] Ha. simpl in *. destruct Ha as [?|(out & -> & Hout)]; [right; by left|].
  rewrite Hlen in Hout. destruct ((max_len =? 0) || (len data <=? offset)) eqn:Hshort; [subst; right; by right|].
  destruct Hout as (c & b & Hc & Ha & -> & _). apply orb_false_iff in Hshort as [_ Hlt]. apply Z.leb_gt in Hlt.
  destruct (authentic_stored (tr0 ++ tr1 ++ tr2) Blob 1 c (piece_of (reader_chunk_bytes r) data
    (Z.to_nat (offset / reader_chunk_bytes r))) b) as [<-|?]; [| | |by left].
  - eapply stored_as_mono; [|by apply Hch]. set_solver.
  - eapply authentic_mono; [|done]. set_solver.
  - right; right. rewrite piece_of_slice; [done| |done|done]. destruct Hok as (Hpos & _). apply Hpos. lia.
Qed.
End stream.
