(* ===== verification/Memory.v ===== *)
(** * An in-memory backend

    Concrete paths and text codecs, and a handler that answers the requests of a storage
    program from a finite map of versioned objects, as [object_store]'s in-memory store
    does.  Scenarios and witnesses run on it. *)

From Stdlib Require Import Strings.Byte.
From stdpp Require Import pretty.
From S2P Require Import Prelude Types Head Prog Store.

(** ** Paths *)

#[global] Instance part_path : ObjectPath := {|
  Path := list bytes;
  join p part := p ++ [part];
  prefix_match location prefix := strip_prefix prefix location
|}.

Lemma foldl_join (scope : Path) (parts : list bytes) : foldl join scope parts = scope ++ parts.
Proof.
  revert scope. induction parts as [|p parts IH]; intros scope; simpl; [by rewrite app_nil_r|].
  rewrite IH. simpl. by rewrite <-app_assoc.
Qed.

#[global] Instance part_path_laws : ObjectPathLaws.
Proof.
  split.
  - intros scope parts _. rewrite foldl_join. simpl. by apply strip_prefix_Some.
  - intros location scope parts Hm _. rewrite foldl_join. simpl in Hm. by apply strip_prefix_Some in Hm.
  - intros scope part parts _. exists parts. rewrite foldl_join. simpl. by apply strip_prefix_Some.
Qed.

(** ** Text *)

Definition hex_digit (n : Z) : byte :=
  default x00 (Byte.of_N (Z.to_N (if n <? 10 then 48 + n else 87 + n))).

Definition hex_value (b : byte) : option Z :=
  let v := byte_val b in
  if (48 <=? v) && (v <=? 57) then Some (v - 48)
  else if (97 <=? v) && (v <=? 102) then Some (v - 87)
  else None.

Fixpoint to_hex (b : bytes) : bytes :=
  match b with
  | [] => []
  | x :: b => hex_digit (byte_val x / 16) :: hex_digit (byte_val x mod 16) :: to_hex b
  end.

Fixpoint of_hex (s : bytes) : option bytes :=
  match s with
  | [] => Some []
  | hi :: lo :: s =>
      h ← hex_value hi; l ← hex_value lo; rest ← of_hex s;
      b ← Byte.of_N (Z.to_N (16 * h + l));
      Some (b :: rest)
  | [_] => None
  end.

#[global] Instance hex_text : Text := {|
  uuid_simple u := to_hex (uuid_bytes u);
  uuid_parse_str s :=
    b ← of_hex s;
    if len b =? UUID_LEN then Some (MkUuid b) else None;
  hex_encode := to_hex;
  hex_decode := of_hex
|}.

Lemma hex_byte (x : byte) :
  hex_value (hex_digit (byte_val x / 16)) = Some (byte_val x / 16)
  ∧ hex_value (hex_digit (byte_val x mod 16)) = Some (byte_val x mod 16)
  ∧ Byte.of_N (Z.to_N (16 * (byte_val x / 16) + byte_val x mod 16)) = Some x
  ∧ log_id_byte (hex_digit (byte_val x / 16)) = true ∧ log_id_byte (hex_digit (byte_val x mod 16)) = true.
Proof. destruct x; vm_compute; done. Qed.

Lemma of_to_hex b : of_hex (to_hex b) = Some b.
Proof.
  induction b as [|x b IH]; [done|]. cbn [to_hex of_hex].
  destruct (hex_byte x) as (-> & -> & Hb & _). simpl. rewrite IH. simpl. by rewrite Hb.
Qed.

Lemma to_hex_safe b : b ≠ [] → safe_part (to_hex b) = true.
Proof.
  intros Hne. unfold safe_part. assert (forallb log_id_byte (to_hex b) = true) as ->.
  { clear Hne. induction b as [|x b IH]; [done|]. cbn [to_hex forallb].
    destruct (hex_byte x) as (_ & _ & _ & -> & ->). done. }
  destruct b as [|x b]; [done|].
  destruct (hex_byte x) as (Hv & _ & _ & _ & _).
  rewrite !bool_decide_eq_false_2; [done| | |done].
  - intros Heq. injection Heq as Hd _. rewrite Hd in Hv. done.
  - intros Heq. done.
Qed.

#[global] Instance hex_text_laws : TextLaws.
Proof.
  split; simpl.
  - intros u Hu. rewrite of_to_hex. simpl. unfold uuid_wf in Hu. rewrite Hu. by destruct u.
  - intros s u. destruct (of_hex s) as [b|]; simpl; [|done]. destruct (_ =? _) eqn:E; [|done]. by intros [= <-].
  - intros u Hu. apply to_hex_safe. intros Hn. unfold uuid_wf in Hu. by rewrite Hn in Hu.
  - intros b. apply of_to_hex.
  - intros b. apply to_hex_safe.
Qed.

(** ** The store *)

Record Memory := MkMemory {
  mem_objects : gmap Path (bytes * Z);
  mem_clock : Z;
  mem_tails : gmap Z Z;
  mem_candidates : gmap Z (list CollectionCandidate)
}.

Definition mem_empty : Memory := MkMemory ∅ 1 ∅ ∅.

Definition mem_version (n : Z) : UpdateVersion := MkUpdateVersion (Some (str (pretty n))) None.

Definition mem_uuid (n : Z) : Uuid :=
  MkUuid ((λ i, default x00 (Byte.of_N (Z.to_N ((n / 256 ^ (15 - Z.of_nat i)) mod 256)))) <$> seq 0 16).

Definition set_objects (o : gmap Path (bytes * Z)) (m : Memory) : Memory :=
  MkMemory o (mem_clock m) (mem_tails m) (mem_candidates m).
Definition tick (m : Memory) : Memory :=
  MkMemory (mem_objects m) (mem_clock m + 1) (mem_tails m) (mem_candidates m).

(** A write: the object gets the next version. *)
Definition mem_write (loc : Path) (b : bytes) (m : Memory) : Result UpdateVersion StoreError * Memory :=
  (Ok (mem_version (mem_clock m)), tick (set_objects (<[loc := (b, mem_clock m)]> (mem_objects m)) m)).

Definition mem_put (loc : Path) (b : bytes) (mode : PutMode) (m : Memory)
    : Result UpdateVersion StoreError * Memory :=
  match mode, mem_objects m !! loc with
  | PutOverwrite, _ => mem_write loc b m
  | PutCreate, None => mem_write loc b m
  | PutCreate, Some _ => (Err SAlreadyExists, m)
  | PutUpdate v, Some (_, n) => if bool_decide (mem_version n = v) then mem_write loc b m else (Err SPrecondition, m)
  | PutUpdate _, None => (Err SPrecondition, m)
  end.

Definition mem_get (loc : Path) (if_none_match : option bytes) (m : Memory) : Result GetResult StoreError :=
  match mem_objects m !! loc with
  | None => Err SNotFound
  | Some (b, n) =>
      if bool_decide (if_none_match = e_tag (mem_version n)) then Err SNotModified
      else Ok (MkGetResult (len b) (mem_version n) [Ok b])
  end.

Definition mem_list (prefix : Path) (m : Memory) : list (Result (Path * Z) StoreError) :=
  omap (λ '(loc, (b, _)), match prefix_match loc prefix with
    | Some _ => Some (Ok (loc, len b)) | None => None end) (map_to_list (mem_objects m)).

(** [OnceLock::get_or_init]. *)
Definition mem_init_candidates (view : Z) (l : list CollectionCandidate) (m : Memory)
    : list CollectionCandidate * Memory :=
  match mem_candidates m !! view with
  | Some l => (l, m)
  | None => (l, MkMemory (mem_objects m) (mem_clock m) (mem_tails m) (<[view := l]> (mem_candidates m)))
  end.

(** [OnceLock::set] keeps the first value. *)
Definition mem_set_tail (view domain : Z) (m : Memory) : Memory :=
  match mem_tails m !! view with
  | Some _ => m
  | None => MkMemory (mem_objects m) (mem_clock m) (<[view := domain]> (mem_tails m)) (mem_candidates m)
  end.

Definition mem_handle : Handler Memory := λ R e,
  match e in Event R return Memory → R * Memory with
  | EAdmit _ _ => λ m, (true, m)
  | EGet loc if_none_match => λ m, (mem_get loc if_none_match m, m)
  | EPut loc b mode => mem_put loc b mode
  | EDelete loc => λ m, (Ok (), set_objects (delete loc (mem_objects m)) m)
  | EDeleteStream locations => λ m,
      (Ok <$> locations, set_objects (foldr delete (mem_objects m) locations) m)
  | EList prefix => λ m, (mem_list prefix m, m)
  | ENewUuid => λ m, (mem_uuid (mem_clock m), tick m)
  | ENewArc => λ m, (mem_clock m, tick m)
  | EGetTail view => λ m, (mem_tails m !! view, m)
  | ESetTail view domain => λ m, ((), mem_set_tail view domain m)
  | EGetCandidates view => λ m, (mem_candidates m !! view, m)
  | EInitCandidates view l => mem_init_candidates view l
  | ENextRead n => λ m, (0%nat, m)
  end.
