(* ===== verification/MemoryWorld.v ===== *)
(** * The in-memory backend serves a system

    Every answer of the in-memory backend is one that the storage of a system may give, so
    a session of operations run on it is an execution of the system. *)

From stdpp Require Import pretty.
From S2P Require Import Prelude Types Head LogSpec Cbor Wire Format Typed Prog Wp Store StoreProps Log LogOps LogMaintain.
From S2P Require Import Protocol ProtocolSpecs CommitProtocol MaintainProtocol World Memory.

Lemma str_inj s s' : str s = str s' → s = s'.
Proof.
  unfold str. intros Heq. rewrite <-(String.string_of_list_byte_of_string s), Heq.
  apply String.string_of_list_byte_of_string.
Qed.

Lemma mem_version_inj n n' : mem_version n = mem_version n' → n = n'.
Proof. unfold mem_version. intros Heq. injection Heq as Heq%str_inj. by apply (inj pretty). Qed.

Section memory.
Context `{Target}.

Definition mem_object (x : bytes * Z) : bytes * UpdateVersion := (x.1, mem_version x.2).

(** The memory holds the objects of the world, and its clock is ahead of every version. *)
Record mem_rel (m : Memory) (w : World) : Prop := {
  rel_objects : w_objects w = mem_object <$> mem_objects m;
  rel_written loc b v : (loc, b, v) ∈ w_written w → ∃ n, v = mem_version n ∧ n < mem_clock m
}.

Lemma mem_rel_empty : mem_rel mem_empty (MkWorld ∅ [] []).
Proof. split; [simpl; by rewrite fmap_empty|]. by intros loc b v ?%elem_of_nil. Qed.

Lemma collect_whole b v max stored :
  collect_object (MkGetResult (len b) v [Ok b]) max = Ok stored → stored = MkStoredObject b v.
Proof.
  unfold collect_object. intros Hc. inv_ok. simpl in *. inv_ok. done.
Qed.

(** The world after a request was answered; deletions are complete. *)
Definition after (w : World) {R} (e : Event R) : R → World :=
  match e in Event R return R → World with
  | EPut loc b mode => λ r, match r with Ok v => write_object loc b v w | Err _ => leave_late loc b mode w end
  | EDelete loc => λ _, remove_objects [loc] w
  | EDeleteStream locations => λ _, remove_objects locations w
  | _ => λ _, w
  end.

Definition replay (w : World) (tr : list Ev) : World :=
  foldl (λ w ev, match ev with MkEv e r => after w e r end) w tr.

Lemma mem_write_serves m w loc b mode :
  mem_rel m w → admits w loc mode →
  serves w (EPut loc b mode) (mem_write loc b m).1 (after w (EPut loc b mode) (mem_write loc b m).1)
  ∧ mem_rel (mem_write loc b m).2 (after w (EPut loc b mode) (mem_write loc b m).1).
Proof.
  intros [Hobj Hw] Hadm. split.
  - split_and!; [done| |reflexivity]. intros b' (n & Hn & Hlt)%Hw. apply mem_version_inj in Hn. lia.
  - split; simpl.
    + by rewrite Hobj, fmap_insert.
    + intros loc' b' v' [Hin|[= -> -> ->]%list_elem_of_singleton]%elem_of_app.
      * destruct (Hw _ _ _ Hin) as (n & -> & Hlt). exists n. split; [done|lia].
      * exists (mem_clock m). split; [done|lia].
Qed.

Lemma mem_put_serves m w loc b mode :
  mem_rel m w →
  serves w (EPut loc b mode) (mem_put loc b mode m).1 (after w (EPut loc b mode) (mem_put loc b mode m).1)
  ∧ mem_rel (mem_put loc b mode m).2 (after w (EPut loc b mode) (mem_put loc b mode m).1).
Proof.
  intros Hrel. assert (∀ e, serves w (EPut loc b mode) (Err e) (leave_late loc b mode w)
    ∧ mem_rel m (leave_late loc b mode w)) as Hlate.
  { intros e. split; [reflexivity|]. by destruct Hrel. }
  assert (w_objects w !! loc = mem_object <$> mem_objects m !! loc) as Hl.
  { destruct Hrel as [-> _]. apply lookup_fmap. }
  unfold mem_put. destruct mode as [| |v], (mem_objects m !! loc) as [[b' n]|]; simpl in Hl;
    try (by apply Hlate); try (by apply mem_write_serves).
  case_bool_decide as Hv; [|by apply Hlate]. apply mem_write_serves; [done|]. exists b'. rewrite <-Hv. exact Hl.
Qed.

Lemma fmap_foldr_delete (m : gmap Path (bytes * Z)) gone :
  mem_object <$> foldr delete m gone = foldr delete (mem_object <$> m) gone.
Proof. induction gone as [|g gone IH]; simpl; [done|]. rewrite fmap_delete. by f_equal. Qed.

Lemma mem_remove_rel m w gone :
  mem_rel m w → mem_rel (set_objects (foldr delete (mem_objects m) gone) m) (remove_objects gone w).
Proof. intros [Hobj Hw]. split; simpl; [|done]. rewrite Hobj. symmetry. apply fmap_foldr_delete. Qed.

Lemma mem_serves m w R (e : Event R) :
  mem_rel m w →
  serves w e (mem_handle R e m).1 (after w e (mem_handle R e m).1)
  ∧ mem_rel (mem_handle R e m).2 (after w e (mem_handle R e m).1).
Proof.
  intros Hrel. pose proof Hrel as [Hobj Hw].
  assert (mem_rel (tick m) w) as Htick.
  { split; [done|]. intros loc b v (n & -> & Hlt)%Hw. exists n. simpl. split; [done|lia]. }
  destruct e as [g r|loc inm|loc b mode|loc|locations|prefix| | |view|view domain|view|view l|n]; simpl;
    try (split; [reflexivity|done]).
  - split; [|done]. split; [done|]. unfold mem_get.
    destruct (mem_objects m !! loc) as [[b n]|] eqn:E; [|done]. case_bool_decide; [done|].
    exists b, (mem_version n). split; [by rewrite Hobj, lookup_fmap, E|]. apply collect_whole.
  - by apply mem_put_serves.
  - split; [by exists [loc]|]. by apply (mem_remove_rel m w [loc]).
  - split; [by exists locations|]. by apply mem_remove_rel.
  - split; [done|]. unfold mem_set_tail. by destruct (mem_tails m !! view).
  - unfold mem_init_candidates. by destruct (mem_candidates m !! view).
Qed.

Lemma mem_clock_mono m R (e : Event R) : mem_clock m ≤ mem_clock (mem_handle R e m).2.
Proof.
  destruct e as [g r|loc inm|loc b mode|loc|locations|prefix| | |view|view domain|view|view l|n]; simpl; try lia.
  - unfold mem_put, mem_write. destruct mode as [| |v], (mem_objects m !! loc) as [[]|]; try case_bool_decide; simpl; lia.
  - unfold mem_set_tail. destruct (_ !! _); simpl; lia.
  - unfold mem_init_candidates. destruct (_ !! _); simpl; lia.
Qed.

Lemma run_clock_mono {A} (p : prog A) : ∀ m, mem_clock m ≤ mem_clock (run mem_handle p m).2.
Proof.
  induction p as [a|R e k IH]; intros m; simpl; [lia|]. pose proof (mem_clock_mono m R e) as Hc.
  destruct (mem_handle R e m) as [r m1]. simpl in Hc. specialize (IH r m1). lia.
Qed.
End memory.

(** ** Sessions *)

Section sessions.
Context `{Target} `{Blake3} `{CborLaws} `{!DerivedDecode} `{!DerivedDecodeLaws}.

(** Steps that start an operation a caller may start, and that answer a request as the
    environment may. *)
Context (step : System → System → Prop) (ready : Log → list Ev → Operation → Prop).
Context (good : World → ∀ R, Event R → R → Prop).
Context (step_start : ∀ w past tasks log o, ready log past o →
  step (MkSystem w past tasks) (MkSystem w past (tasks ++ [MkTask log o [] (op_prog log o)]))).
Context (step_request : ∀ w w' past tasks tasks' log o tr R (e : Event R) k r,
  serves w e r w' → answers log R e r → good w R e r →
  step (MkSystem w past (tasks ++ MkTask log o tr (Vis e k) :: tasks'))
    (MkSystem w' (past ++ [MkEv e r]) (tasks ++ MkTask log o (tr ++ [MkEv e r]) (k r) :: tasks'))).

Fixpoint good_trace (w : World) (tr : list Ev) : Prop :=
  match tr with
  | [] => True
  | MkEv e r :: tr => good w _ e r ∧ good_trace (after w e r) tr
  end.

Lemma good_trace_app w tr tr' : good_trace w (tr ++ tr') → good_trace w tr ∧ good_trace (replay w tr) tr'.
Proof. revert w. induction tr as [|[R e r] tr IH]; intros w; [done|]. intros [? ?%IH]. naive_solver. Qed.

Lemma mem_answers log m R (e : Event R) :
  log_staging_domain log < mem_clock m → answers log R e (mem_handle R e m).1.
Proof. intros Hd. split; destruct e; simpl; try done; [lia..]. Qed.

(** An operation that runs alone on the memory runs in the system. *)
Lemma task_runs log o past tasks (p : io (outcome o)) : ∀ m w tr,
  mem_rel m w → log_staging_domain log < mem_clock m → good_trace w (run_trace mem_handle p m) →
  let w' := replay w (run_trace mem_handle p m) in
  mem_rel (run mem_handle p m).2 w' ∧ mem_clock m ≤ mem_clock (run mem_handle p m).2
  ∧ rtc step (MkSystem w (past ++ tr) (tasks ++ [MkTask log o tr p]))
      (MkSystem w' (past ++ tr ++ run_trace mem_handle p m)
         (tasks ++ [MkTask log o (tr ++ run_trace mem_handle p m) (Done (run mem_handle p m).1)])).
Proof.
  induction p as [r|R e k IH]; intros m w tr Hrel Hd; simpl.
  { intros _. rewrite !app_nil_r. split_and!; [done|lia|apply rtc_refl]. }
  destruct (mem_serves m w R e Hrel) as [Hs Hrel1].
  pose proof (mem_answers log m R e Hd) as Ha. pose proof (mem_clock_mono m R e) as Hc.
  destruct (mem_handle R e m) as [r m1] eqn:E. simpl in *. intros [Hgood Hrest].
  destruct (IH r m1 (after w e r) (tr ++ [MkEv e r]) Hrel1 ltac:(lia) Hrest) as (Hrel' & Hc' & Hsteps).
  split_and!; [done|lia|]. rewrite <-!(app_assoc tr) in Hsteps. simpl in Hsteps.
  eapply rtc_l; [|exact Hsteps]. rewrite app_assoc. by apply step_request.
Qed.

(** Operations run one after another: the requests and the tasks they leave. *)
Fixpoint session (ops : list (Log * Operation)) (m : Memory) : Memory * list Ev * list Task :=
  match ops with
  | [] => (m, [], [])
  | (log, o) :: ops =>
      let tr := run_trace mem_handle (op_prog log o) m in
      let '(r, m) := run mem_handle (op_prog log o) m in
      let '(m, trs, tasks) := session ops m in
      (m, tr ++ trs, MkTask log o tr (Done r) :: tasks)
  end.

Definition finished_task (log : Log) (o : Operation) (m : Memory) : Task :=
  MkTask log o (run_trace mem_handle (op_prog log o) m) (Done (run mem_handle (op_prog log o) m).1).

Lemma session_cons log o ops m :
  (session ((log, o) :: ops) m).2
  = finished_task log o m :: (session ops (run mem_handle (op_prog log o) m).2).2.
Proof.
  cbn [session]. unfold finished_task. destruct (run mem_handle (op_prog log o) m) as [r m'].
  cbn [fst snd]. by destruct (session ops m') as [[m2 trs] tasks].
Qed.

Lemma session_past log o ops m :
  (session ((log, o) :: ops) m).1.2
  = run_trace mem_handle (op_prog log o) m ++ (session ops (run mem_handle (op_prog log o) m).2).1.2.
Proof.
  cbn [session]. destruct (run mem_handle (op_prog log o) m) as [r m'].
  cbn [fst snd]. by destruct (session ops m') as [[m2 trs] tasks].
Qed.

Fixpoint session_ready (ops : list (Log * Operation)) (m : Memory) (past : list Ev) : Prop :=
  match ops with
  | [] => True
  | (log, o) :: ops =>
      ready log past o ∧ log_staging_domain log < mem_clock m
      ∧ session_ready ops (run mem_handle (op_prog log o) m).2
          (past ++ run_trace mem_handle (op_prog log o) m)
  end.

Lemma session_runs ops : ∀ m w past tasks,
  mem_rel m w → session_ready ops m past → good_trace w (session ops m).1.2 →
  rtc step (MkSystem w past tasks)
    (MkSystem (replay w (session ops m).1.2) (past ++ (session ops m).1.2) (tasks ++ (session ops m).2)).
Proof.
  induction ops as [|[log o] ops IH]; intros m w past tasks Hrel Hready; simpl.
  { intros _. rewrite !app_nil_r. apply rtc_refl. }
  destruct Hready as (Ho & Hd & Hready).
  pose proof (task_runs log o past tasks (op_prog log o) m w [] Hrel Hd) as Htask.
  pose proof (λ w Hrel, IH (run mem_handle (op_prog log o) m).2 w (past ++ run_trace mem_handle (op_prog log o) m)
    (tasks ++ [MkTask log o (run_trace mem_handle (op_prog log o) m) (Done (run mem_handle (op_prog log o) m).1)])
    Hrel Hready) as Hrest. clear IH.
  destruct (run mem_handle (op_prog log o) m) as [r m1]. simpl in *.
  destruct (session ops m1) as [[m' trs] ts]. simpl in *. intros [Hg Hg']%good_trace_app.
  destruct (Htask Hg) as (Hrel1 & _ & Hsteps). specialize (Hrest _ Hrel1 Hg').
  unfold replay in *. rewrite foldl_app. rewrite <-!app_assoc in Hrest. simpl in Hrest.
  eapply rtc_l; [by apply step_start|]. etrans; [|exact Hrest]. by rewrite app_nil_r in Hsteps.
Qed.
End sessions.

(** ** Sessions of the system *)

Section system.
Context `{Target} `{Blake3} `{CborLaws} `{!DerivedDecode} `{!DerivedDecodeLaws}.
Context (scope : Path) (log_id : LogId) (options : Options).

Definition op_started (log : Log) (past : list Ev) (o : Operation) : Prop :=
  handle scope log_id options log ∧ op_ready scope log_id options log past o.

Lemma good_trace_any w tr : good_trace (λ _ _ _ _, True) w tr.
Proof. revert w. by induction tr as [|[R e r] tr IH]; intros w; split; [|apply IH]. Qed.

Lemma system_runs ops m w past tasks :
  mem_rel m w → session_ready op_started ops m past →
  rtc (sys_step scope log_id options) (MkSystem w past tasks)
    (MkSystem (replay w (session ops m).1.2) (past ++ (session ops m).1.2) (tasks ++ (session ops m).2)).
Proof.
  intros Hrel Hready. eapply session_runs; [..|exact Hrel|exact Hready|apply good_trace_any].
  - intros * [? ?]. by apply sys_start.
  - intros * ? ? _. by apply sys_request.
Qed.
End system.
