(* ===== verification/Scenario.v ===== *)
(** * A scenario on the in-memory backend

    One log from its creation through staging, commits, a checkpoint, a retention and a
    collection, run by evaluation; the protocol theorems applied to its operations. *)

From Stdlib Require Import Strings.Byte.
From S2P Require Import Prelude Types Head Samples Cbor Rfc8949 Wire Format Derive FormatHead Typed Prog Wp Store StoreProps.
From S2P Require Import Log LogOps LogMaintain History Protocol ProtocolSpecs Progress CommitProtocol MaintainProtocol.
From S2P Require Import Conclusive GraphProps TailProps CollectProps Memory.

#[local] Existing Instance native64.
#[local] Existing Instance sample_blake3.

(** ** Steps *)

(** Run an operation that is expected to succeed. *)
Definition exec {A} (p : io A) (default : A) (m : Memory) : A * Memory :=
  let '(r, m) := run mem_handle p m in (match r with Ok a => a | Err _ => default end, m).

Definition root : Path := [].
Definition backend : ValidatedBackend := assume_validated root.
Definition no_log : Log := MkLog (unvalidated root sample_log_id) sample_options (sample_uuid x01) 0.
Definition no_view : View := MkView 0 head0 (sample_version x00).
Definition no_object : StagedObject := MkStagedObject sample_blob 0 0.
Definition no_prepared : PreparedCommit :=
  MkPreparedCommit no_view 0 (MkTransactionId (sample_uuid x00)) (MkStorageId (sample_uuid x00)) [] [] [].

Definition committed_view (s : CommitStatus) : View :=
  match s with CommitCommitted v | CommitConflict v => v | CommitPending _ => no_view end.
Definition applied_view (s : RetentionStatus) : View :=
  match s with RetentionApplied v | RetentionActiveCollection v | RetentionConflict v => v | RetentionPending => no_view end.

Definition opened : Log * Memory := exec (log_open backend sample_log_id sample_options) no_log mem_empty.
Definition log : Log := opened.1.
Definition view0 : View * Memory := exec (load log) no_view opened.2.
Definition blob : StagedObject * Memory := exec (put_object log view0.1 [x01; x02]) no_object view0.2.
Definition node : StagedObject * Memory := exec (put_node log view0.1 [x05] [blob.1]) no_object blob.2.
Definition prepared0 : PreparedCommit * Memory :=
  exec (prepare log view0.1 (MkTransactionId (sample_uuid x41)) [x01] [x02] [node.1]) no_prepared node.2.
Definition status0 : CommitStatus * Memory :=
  exec (commit log prepared0.1) (CommitConflict no_view) prepared0.2.
Definition view1 : View := Eval vm_compute in committed_view status0.1.
Definition orphan : StagedObject * Memory := exec (put_object log view1 [x07]) no_object status0.2.
Definition prepared1 : PreparedCommit * Memory :=
  exec (prepare log view1 (MkTransactionId (sample_uuid x42)) [x03] [] []) no_prepared orphan.2.
Definition status1 : CommitStatus * Memory :=
  exec (commit log prepared1.1) (CommitConflict no_view) prepared1.2.
Definition view2 : View := Eval vm_compute in committed_view status1.1.
Definition first_commit : CommitRef := Eval vm_compute in default commit0 (head_tail (view_head view2) !! 0%nat).
Definition second_commit : CommitRef := Eval vm_compute in default commit0 (head_tail (view_head view2) !! 1%nat).
Definition checkpointed : CheckpointStatus * Memory :=
  exec (publish_checkpoint log view2 first_commit [x0a; x0b] [node.1]) (CheckpointConflict no_view) status1.2.
Definition view3 : View := Eval vm_compute in
  match checkpointed.1 with CheckpointPublished v | CheckpointConflict v => v | CheckpointPending _ => no_view end.
Definition sample_retention : RetentionId := MkRetentionId (sample_uuid x51).
Definition retained : RetentionStatus * Memory :=
  exec (retain log view3 sample_retention) RetentionPending checkpointed.2.
Definition view4' : View := Eval vm_compute in applied_view retained.1.
Definition released : RetentionStatus * Memory :=
  exec (release_retention log view4' sample_retention) RetentionPending retained.2.
Definition view5' : View := Eval vm_compute in applied_view released.1.
Definition started : CollectionStart * Memory :=
  exec (start_collection log view5') StartPending released.2.
Definition view6 : View := Eval vm_compute in
  match started.1 with StartInstalled v _ => v | _ => no_view end.
Definition finished : CollectionFinish * Memory :=
  exec (resume_collection log view6) (FinishPending (MkCollectionReport 0 0 0)) started.2.
Definition view7 : View := Eval vm_compute in
  match finished.1 with FinishComplete v _ => v | _ => no_view end.

(** ** The protocol theorems on the scenario *)

(** A caller that has observed one view, stored the contents of [contents], drew every
    identity and staged every object it publishes. *)
Definition caller_with (v : View) (contents : ImmutableKey → bytes → Prop) : Caller :=
  MkCaller (λ v', v' = v ∧ head_encodable (view_head v') = true) contents (λ _ _, True) (λ _ _, True)
    (λ v' Hv, proj2 (head_typed_encodable (view_head v')) (proj2 Hv)).
Definition observer (v : View) : Caller := caller_with v (λ _ _, False).

Lemma observer_knows v : head_encodable (view_head v) = true → known_view (observer v) v.
Proof. by split. Qed.

Lemma caller_prepared v contents prepared : prepared_known log (caller_with v contents) prepared.
Proof. split; [by intros h _|by intros c b _ o _ h _]. Qed.

Definition uuid_answer_b (ev : Ev) : bool :=
  match ev with
  | MkEv e r =>
      match e in Event R return R → bool with
      | ENewUuid => uuid_wf
      | _ => λ _, true
      end r
  end.

Lemma uuid_answers_check tr : forallb uuid_answer_b tr = true → possible_trace uuid_answers tr.
Proof.
  intros Hf%forallb_Forall. eapply Forall_impl; [exact Hf|]. intros [R e r]. by destruct e.
Qed.

Definition answer {A} (p : prog A) (m : Memory) : A := (run mem_handle p m).1.
Definition requests {A} (p : prog A) (m : Memory) : list Ev := run_trace mem_handle p m.

Lemma requests_return {A} (p : prog A) (m : Memory) : returns p (requests p m) (answer p m).
Proof. apply run_trace_returns. Qed.

Definition is_committed (r : Result CommitStatus Error) : bool :=
  match r with Ok (CommitCommitted _) => true | _ => false end.

Lemma commit_follows_protocol_witness :
  is_committed (answer (commit log prepared0.1) prepared0.2) = true
  ∧ follows (allowed log (observer (prep_view prepared0.1))) [] (requests (commit log prepared0.1) prepared0.2)
  ∧ commit_post log (observer (prep_view prepared0.1)) prepared0.1
      (requests (commit log prepared0.1) prepared0.2) (answer (commit log prepared0.1) prepared0.2).
Proof.
  split; [vm_compute; reflexivity|].
  apply (commit_follows_protocol log (observer (prep_view prepared0.1)));
    [apply observer_knows; vm_compute; reflexivity|split; vm_compute; reflexivity|apply caller_prepared|apply requests_return].
Defined.

Definition granted_b (ev : Ev) : bool :=
  match ev with
  | MkEv e r =>
      match e in Event R return R → bool with
      | EAdmit _ _ => λ admitted, admitted
      | EPut _ _ _ => λ r, match r with Ok _ => true | Err _ => false end
      | _ => λ _, true
      end r
  end.

Lemma granted_check tr : forallb granted_b tr = true → possible_trace granted tr.
Proof.
  intros Hf%forallb_Forall. eapply Forall_impl; [exact Hf|]. intros [R e r].
  destruct e; try done. simpl. destruct r as [version|]; [by exists version|done].
Qed.

Definition encoded0 : CommitRef * bytes := Eval vm_compute in
  match encode_prepared log prepared0.1 with Ok x => x | Err _ => (commit0, []) end.
Definition head_bytes0 : bytes := Eval vm_compute in
  match encode_head (view_head view1) with Ok b => b | Err _ => [] end.

Lemma commit_makes_progress_witness :
  ev_puts (requests (commit log prepared0.1) prepared0.2)
    = [(key_path log (commit_immutable_key log encoded0.1), encoded0.2, PutCreate);
       (head_path log, head_bytes0, PutUpdate (view_version (prep_view prepared0.1)))].
Proof.
  assert (candidate_head (view_head (prep_view prepared0.1)) encoded0.1 = Ok (view_head view1)) as Hc
    by (vm_compute; reflexivity).
  apply (commit_makes_progress log prepared0.1 encoded0.1 encoded0.2 (view_head view1) head_bytes0 _
    (answer (commit log prepared0.1) prepared0.2));
    [vm_compute; reflexivity|vm_compute; reflexivity|exact Hc|vm_compute; reflexivity|vm_compute; discriminate
    |vm_compute; reflexivity|vm_compute; reflexivity|apply granted_check; vm_compute; reflexivity|apply requests_return].
Defined.

(** A commit prepared on an old view is refused. *)
Definition stale_prepared : PreparedCommit * Memory :=
  exec (prepare log view0.1 (MkTransactionId (sample_uuid x43)) [] [] []) no_prepared status1.2.

Lemma failures_are_conclusive_witness :
  commit_failed (answer (commit log stale_prepared.1) stale_prepared.2) = true
  ∧ rejected (requests (commit log stale_prepared.1) stale_prepared.2).
Proof.
  assert (commit_failed (answer (commit log stale_prepared.1) stale_prepared.2) = true) as Hf
    by (vm_compute; reflexivity).
  split; [exact Hf|].
  exact (proj1 (failures_are_conclusive log) stale_prepared.1 _ _ (requests_return _ stale_prepared.2) Hf).
Defined.

(** The first commit as uncertain evidence, from this handle and from a token. *)
Definition pending0 : PendingCommit := MkPendingCommit (Some prepared0.1) first_commit None.
Definition token0 : bytes := Eval vm_compute in or_bytes (encode_recovery_token prepared0.1).

Definition is_resolved (r : Result Resolution Error) : bool :=
  match r with Ok (ResCommitted _) => true | _ => false end.

Lemma resolve_follows_protocol_witness :
  is_resolved (answer (resolve log pending0) status1.2) = true
  ∧ resolution_post log (caller_with no_view (λ _ _, True)) (pending_commit_ref pending0)
      (requests (resolve log pending0) status1.2) (answer (resolve log pending0) status1.2).
Proof.
  split; [vm_compute; reflexivity|].
  assert (prepared_typed prepared0.1) as Ht by (split; vm_compute; reflexivity).
  exact (proj2 (resolve_follows_protocol log (caller_with no_view (λ _ _, True)) pending0 prepared0.1 _ _
    eq_refl Ht (λ _ _ _, I) (caller_prepared _ _ _) (requests_return _ status1.2))).
Defined.

Definition fresh_arc_b (ev : Ev) : bool :=
  match ev with
  | MkEv e r =>
      match e in Event R return R → bool with
      | ENewArc => λ id, negb (id =? log_staging_domain log)
      | _ => λ _, true
      end r
  end.

Lemma fresh_arcs_check tr : forallb fresh_arc_b tr = true → possible_trace (fresh_arcs log) tr.
Proof.
  intros Hf%forallb_Forall. eapply Forall_impl; [exact Hf|]. intros [R e r]. simpl.
  destruct e; try done. simpl. intros Hne%negb_true_iff%Z.eqb_neq. done.
Qed.


Definition is_applied (r : Result RetentionStatus Error) : bool :=
  match r with Ok (RetentionApplied _) => true | _ => false end.

Lemma retention_follows_protocol_witness :
  is_applied (answer (change_retention log view3 (Acquire sample_retention)) checkpointed.2) = true
  ∧ retention_post log (observer view3) view3 (Acquire sample_retention)
      (requests (change_retention log view3 (Acquire sample_retention)) checkpointed.2)
      (answer (change_retention log view3 (Acquire sample_retention)) checkpointed.2).
Proof.
  split; [vm_compute; reflexivity|].
  assert (known_view (observer view3) view3) as Hk by (apply observer_knows; vm_compute; reflexivity).
  exact (proj2 (retention_follows_protocol log (observer view3) view3 (Acquire sample_retention) _ _
    Hk eq_refl (requests_return _ checkpointed.2))).
Defined.

Definition is_published (r : Result CheckpointStatus Error) : bool :=
  match r with Ok (CheckpointPublished _) => true | _ => false end.

Lemma checkpoint_follows_protocol_witness :
  is_published (answer (publish_checkpoint log view2 first_commit [x0a; x0b] [node.1]) status1.2) = true
  ∧ checkpoint_status_post log (observer view2) view2 first_commit
      (requests (publish_checkpoint log view2 first_commit [x0a; x0b] [node.1]) status1.2)
      (answer (publish_checkpoint log view2 first_commit [x0a; x0b] [node.1]) status1.2).
Proof.
  split; [vm_compute; reflexivity|].
  assert (known_view (observer view2) view2) as Hk by (apply observer_knows; vm_compute; reflexivity).
  assert (Forall (λ o, object_ref_wf (staged_object_ref o) = true) [node.1]) as Ho
    by (constructor; [vm_compute; reflexivity|constructor]).
  assert (possible_trace uuid_answers
    (requests (publish_checkpoint log view2 first_commit [x0a; x0b] [node.1]) status1.2)) as Hu
    by (apply uuid_answers_check; vm_compute; reflexivity).
  exact (proj2 (checkpoint_follows_protocol log (observer view2) view2 first_commit [x0a; x0b] [node.1] _ _
    Hk Ho (λ _ _ _ _, I) Hu (requests_return _ status1.2))).
Defined.

Definition pending_checkpoint : PendingCheckpoint :=
  MkPendingCheckpoint view2 0 first_commit
    (default (MkCheckpointRef 0 (sample_digest x00) sample_checkpoint_object) (head_checkpoint (view_head view3))).

Definition is_checkpoint_resolved (r : Result CheckpointResolution Error) : bool :=
  match r with Ok (CResPublished _) => true | _ => false end.

Lemma resolve_checkpoint_follows_protocol_witness :
  is_checkpoint_resolved (answer (resolve_checkpoint log pending_checkpoint) checkpointed.2) = true
  ∧ follows (allowed log (observer view2)) [] (requests (resolve_checkpoint log pending_checkpoint) checkpointed.2).
Proof.
  split; [vm_compute; reflexivity|].
  assert (proof_matches log (pc_staging_domain pending_checkpoint) = true → False) as Hforeign
    by (vm_compute; discriminate).
  assert (object_typed (checkpoint_object (pc_checkpoint pending_checkpoint))) as Ho
    by (split; vm_compute; reflexivity).
  exact (proj1 (resolve_checkpoint_follows_protocol log (observer view2) pending_checkpoint _ _
    (λ Hm, False_ind _ (Hforeign Hm)) Ho (λ _ _, I) (requests_return _ checkpointed.2))).
Defined.

Definition is_installed (r : Result CollectionStart Error) : bool :=
  match r with Ok (StartInstalled _ _) => true | _ => false end.


Definition is_complete (r : Result CollectionFinish Error) : bool :=
  match r with Ok (FinishComplete _ report) => delete_attempts report =? 2 | _ => false end.

Lemma resume_collection_follows_protocol_witness :
  is_complete (answer (resume_collection log view6) started.2) = true
  ∧ follows (allowed log (observer view6)) [] (requests (resume_collection log view6) started.2).
Proof.
  split; [vm_compute; reflexivity|].
  assert (head_typed (view_head view6)) as Ht by (apply head_typed_encodable; vm_compute; reflexivity).
  exact (proj1 (resume_collection_follows_protocol log (observer view6) view6 _ _ Ht
    (requests_return _ started.2))).
Defined.

Lemma staging_follows_protocol_witness :
  staged_post log (observer view0.1) view0.1 Blob [x01; x02]
    (requests (put_object log view0.1 [x01; x02]) view0.2) (answer (put_object log view0.1 [x01; x02]) view0.2).
Proof.
  assert (possible_trace uuid_answers (requests (put_object log view0.1 [x01; x02]) view0.2)) as Hu
    by (apply uuid_answers_check; vm_compute; reflexivity).
  exact (proj2 (proj1 (staging_follows_protocol log (observer view0.1) view0.1) [x01; x02] _ _ Hu
    (requests_return _ view0.2))).
Defined.

(** ** The remaining theorems on the scenario *)

Definition is_ok {A} (r : Result A Error) : bool := match r with Ok _ => true | Err _ => false end.
Definition value {A} (r : Result A Error) (d : A) : A := match r with Ok a => a | Err _ => d end.

Lemma returns_value {A} (p : io A) (d : A) (m : Memory) :
  is_ok (answer p m) = true → returns p (requests p m) (Ok (value (answer p m) d)).
Proof. intros Hok. pose proof (requests_return p m) as Hr. destruct (answer p m); [exact Hr|done]. Qed.

Local Abbreviation walk := (mark_object_graph log [staged_object_ref node.1] ∅ None VerifyBlobs).

Lemma graph_walk_complete_witness :
  is_ok (answer walk node.2) = true
  ∧ value (answer walk node.2) ∅ !! object_immutable_key log (staged_object_ref node.1)
    = Some (meta (staged_object_ref node.1)).
Proof.
  assert (is_ok (answer walk node.2) = true) as Hok by (vm_compute; reflexivity). split; [exact Hok|].
  destruct (graph_walk_complete log None VerifyBlobs _ _ _ _ (returns_value walk ∅ node.2 Hok)) as (_ & Hroots & _).
  apply Hroots. left.
Defined.

Definition enqueued : Visited * list ObjectRef :=
  value (enqueue_all log [staged_object_ref node.1] ∅ None []) (∅, []).

Lemma graph_walk_terminates_witness :
  returns (graph_loop (2 * graph_fuel log) log None VerifyBlobs enqueued.1 enqueued.2 [] 0)
    (requests walk node.2) (answer walk node.2).
Proof.
  assert (enqueue_all log [staged_object_ref node.1] ∅ None [] = Ok (enqueued.1, enqueued.2)) as He.
  { assert (is_ok (enqueue_all log [staged_object_ref node.1] ∅ None []) = true) as Hok by (vm_compute; reflexivity).
    unfold enqueued. revert Hok. generalize (enqueue_all log [staged_object_ref node.1] ∅ None []).
    intros [[v p]|e] Hok; [reflexivity|discriminate]. }
  assert (graph_fuel log ≤ 2 * graph_fuel log)%nat as Hn by (generalize (graph_fuel log); lia).
  exact (proj1 (graph_walk_terminates log None VerifyBlobs [staged_object_ref node.1] ∅ _ _ (2 * graph_fuel log) _ _
    He Hn) (requests_return walk node.2)).
Defined.

Lemma read_tail_authentic_witness :
  is_ok (answer (read_tail log view2) status1.2) = true
  ∧ record_reference <$> value (answer (read_tail log view2) status1.2) [] = [first_commit; second_commit].
Proof.
  assert (is_ok (answer (read_tail log view2) status1.2) = true) as Hok by (vm_compute; reflexivity).
  split; [exact Hok|].
  exact (proj2 (proj2 (read_tail_authentic log view2 _ _ (returns_value _ [] status1.2 Hok)))).
Defined.

Definition cursor : HistoryCursor := MkHistoryCursor log view2 false 0 [] false.


Definition started_report : CollectionReport := Eval vm_compute in
  match started.1 with StartInstalled _ report => report | _ => MkCollectionReport 0 0 0 end.

Definition installed (r : Result CollectionStart Error) : option (View * CollectionReport) :=
  match r with Ok (StartInstalled v report) => Some (v, report) | _ => None end.

Lemma collection_spares_live_witness :
  ∃ v report (live : Visited) plan, installed (answer (start_collection_with_limit log view5' 16) released.2) = Some (v, report)
    ∧ candidate_count report = len (plan_candidates plan)
    ∧ is_Some (live !! commit_immutable_key log second_commit)
    ∧ ∀ c, c ∈ plan_candidates plan → live !! candidate_key c = None.
Proof.
  assert (is_installed (answer (start_collection_with_limit log view5' 16) released.2) = true) as Hi
    by (vm_compute; reflexivity).
  assert (second_commit ∈ head_tail (view_head view5')) as Hin by (vm_compute; left).
  pose proof (requests_return (start_collection_with_limit log view5' 16) released.2) as Hr.
  destruct (answer (start_collection_with_limit log view5' 16) released.2) as [[| v report| | | |]|e]; try discriminate Hi.
  destruct (collection_spares_live log view5' 16 _ v report ltac:(lia) Hr)
    as (live & plan & _ & _ & _ & Hlive & _ & _ & _ & _ & _ & Hcount & Hdis).
  exists v, report, live, plan. split; [reflexivity|]. split; [exact Hcount|].
  split; [exact (live_commits log view5' _ live Hlive second_commit Hin)|exact Hdis].
Defined.

(** ** The scoped store *)

Definition sample_immutable : ImmutableKey :=
  MkImmutableKey (sample_uuid x01) KBlob (MkStorageId (sample_uuid x02)) (sample_digest x03).
Definition scoped : ScopedStore := unvalidated root sample_log_id.

(** The key a listing classifies out of a path is the only one that path can hold. *)
Definition listed_key : ImmutableKey :=
  default (MkImmutableKey (sample_uuid x00) KCommit (MkStorageId (sample_uuid x00)) (sample_digest x00))
    (classify_immutable (store_scope scoped) (immutable_location scoped sample_immutable)).

Lemma namespace_isolation_witness :
  sample_log_id = MkLogId (log_id_str sample_log_id) ∧ Immutable listed_key = Immutable sample_immutable.
Proof.
  apply (namespace_isolation root); vm_compute; reflexivity.
Defined.

Lemma classification_exact_witness :
  classify_immutable (store_scope scoped) (immutable_location scoped sample_immutable) = Some sample_immutable.
Proof.
  apply (classification_exact scoped (immutable_location scoped sample_immutable) sample_immutable);
    [vm_compute; reflexivity|reflexivity].
Defined.

Definition sample_get : GetResult := MkGetResult 3 (mem_version 1) [Ok [x01]; Ok [x02; x03]].

Lemma collect_integrity_agrees_witness :
  collect_integrity sample_get 8
  = let? o := collect_object sample_get 8 in Ok (digest_of (stored_bytes o), len (stored_bytes o)).
Proof. apply collect_integrity_agrees; [vm_compute; reflexivity|simpl; lia]. Defined.

Lemma safe_read_bounded_witness :
  read_trace (location scoped HeadKey) SAFE_READ_ATTEMPTS (requests (store_read scoped HeadKey 4096) view0.2).
Proof.
  exact (proj1 (safe_read_bounded scoped HeadKey 4096 _ _ ltac:(lia) (requests_return _ view0.2))).
Defined.

Lemma delete_batch_exact_witness :
  answer (delete_immutable_batch scoped [sample_immutable]) view0.2 = Ok ()
  ∧ ev_puts (requests (delete_immutable_batch scoped [sample_immutable]) view0.2) = [].
Proof.
  split; [vm_compute; reflexivity|].
  exact (proj1 (delete_batch_exact scoped [sample_immutable] _ _ (requests_return _ view0.2))).
Defined.

Lemma requests_are_guarded_witness :
  guarded (store_with_request_guard scoped (UserGuard 1))
    (requests (store_read (store_with_request_guard scoped (UserGuard 1)) HeadKey 4096) view0.2).
Proof.
  exact (proj1 (requests_are_guarded (store_with_request_guard scoped (UserGuard 1))) HeadKey 4096 _ _
    (requests_return _ view0.2)).
Defined.
