(* ===== verification/ByteScenario.v ===== *)
(** * Byte streams on the in-memory backend

    A stream of two chunks written, finished, opened and read; the theorems on byte
    streams applied to it. *)

From Stdlib Require Import Strings.Byte.
From S2P Require Import Prelude Types Head Samples Cbor Rfc8949 Wire Format Derive Prog Wp Store StoreProps.
From S2P Require Import Log LogOps LogMaintain ByteStream Protocol ProtocolSpecs ByteWriterProps ByteReaderProps.
From S2P Require Import Memory Scenario.

#[local] Existing Instance native64.
#[local] Existing Instance sample_blake3.

(** Options that make a chunk 300 bytes. *)
Definition stream_options : Options := MkOptions 4 2 64 64 4 300 1024 4096 2048 2 16 2048.

Definition stream_opened : Log * Memory := exec (log_open backend sample_log_id stream_options) no_log mem_empty.
Definition stream_log : Log := stream_opened.1.
Definition stream_view : View * Memory := exec (load stream_log) no_view stream_opened.2.
Definition pieces : list bytes := [replicate 200 x11; replicate 150 x22].
Abbreviation staged := (stage_stream stream_log stream_view.1 pieces).
Definition stream : StagedObject * Memory := exec staged no_object stream_view.2.
Abbreviation stream_root := (staged_object_ref stream.1).
Abbreviation opening := (open_bytes stream_log stream_view.1 stream_root).
Definition no_reader : ByteReader := MkByteReader stream_log no_view 1 0 [] (None, None).
Definition reader : ByteReader * Memory := exec opening no_reader stream.2.

(** Reads inside the first chunk, across its end, in the second chunk, and past the end. *)
Definition reads : list (Z * Z) := [(0, 4); (298, 10); (300, 10); (199, 3); (350, 5)].
Definition read_back : list (option (Result bytes Error)) * ByteReader := answer (read_all reader.1 reads) reader.2.

Definition ok_bytes (a : option (Result bytes Error)) : bytes :=
  match a with Some (Ok b) => b | _ => [] end.

Lemma stream_options_wf : options_wf (log_options stream_log) = true.
Proof. vm_compute. reflexivity. Qed.

Lemma reads_unsigned : Forall unsigned reads.
Proof. repeat (constructor; [split; discriminate|]). constructor. Qed.

Lemma stream_reads_back :
  ok_bytes <$> read_back.1
  = [replicate 4 x11; replicate 2 x22; replicate 10 x22; [x11; x22; x22]; []]
  ∧ obj_kind stream_root = Node.
Proof. split; vm_compute; reflexivity. Qed.

(** ** The theorems on the stream *)

Lemma exec_value {A} (p : io A) (d : A) (m : Memory) :
  is_ok (answer p m) = true → returns p (requests p m) (Ok (exec p d m).1).
Proof.
  intros Hok. pose proof (requests_return p m) as Hr. unfold exec, answer in *.
  destruct (run mem_handle p m) as [[a|e] m']; [exact Hr|discriminate Hok].
Qed.

Lemma staged_returns : returns staged (requests staged stream_view.2) (Ok stream.1).
Proof. unfold stream. apply (exec_value staged no_object). vm_compute. reflexivity. Qed.

Lemma opening_returns : returns opening (requests opening stream.2) (Ok reader.1).
Proof. unfold reader. apply (exec_value opening no_reader). vm_compute. reflexivity. Qed.

Lemma reading_returns :
  returns (read_all reader.1 reads) (requests (read_all reader.1 reads) reader.2) (read_back.1, read_back.2).
Proof.
  pose proof (requests_return (read_all reader.1 reads) reader.2) as Hr. unfold read_back.
  destruct (answer (read_all reader.1 reads) reader.2) as [answers r']. exact Hr.
Qed.

Definition stream_writer : ByteWriter :=
  value (byte_writer stream_log stream_view.1) (MkByteWriter stream_log no_view 1 0 0 [] [] true).

Lemma byte_writer_capacity_witness :
  writer_capacity stream_writer = 900 ∧ 0 < writer_chunk_bytes stream_writer ≤ MAX_CHUNK_BYTES.
Proof.
  split; [vm_compute; reflexivity|].
  assert (byte_writer stream_log stream_view.1 = Ok stream_writer) as Hw.
  { assert (is_ok (byte_writer stream_log stream_view.1) = true) as Hok by (vm_compute; reflexivity).
    unfold stream_writer. revert Hok. generalize (byte_writer stream_log stream_view.1).
    intros [w|e] Hok; [reflexivity|discriminate]. }
  exact (proj1 (byte_writer_capacity stream_log stream_view.1 stream_writer stream_options_wf Hw)).
Defined.

(** A piece longer than the capacity. *)
Definition overlong : bytes := replicate 901 x00.
Definition refused : Result () Error * ByteWriter := answer (write stream_writer overlong) stream_view.2.

Lemma failed_writer_unusable_witness :
  writer_failed refused.2 = true
  ∧ ∀ tr x, returns (finish refused.2) tr x → tr = [] ∧ x = Err invalid_stream.
Proof.
  assert (refused.1 = Err (LimitExceeded "byte stream length")) as He by (vm_compute; reflexivity).
  pose proof (requests_return (write stream_writer overlong) stream_view.2) as Hr.
  change (answer (write stream_writer overlong) stream_view.2) with refused in Hr.
  destruct refused as [r w']. cbn [fst snd] in *. subst r.
  destruct (failed_writer_unusable _ _ _ _ _ Hr) as (Hf & _ & Hfinish & _). split; [exact Hf|exact Hfinish].
Defined.

Lemma byte_reader_safe_witness :
  Forall2 (λ q a, read_answer (requests opening stream.2 ++ requests (read_all reader.1 reads) reader.2)
    reader.1 q.1 q.2 a) reads read_back.1.
Proof.
  exact (proj1 (byte_reader_safe stream_log stream_view.1 stream_root _ reader.1 reads _ read_back.1 read_back.2
    opening_returns reads_unsigned reading_returns)).
Defined.

Lemma byte_stream_roundtrip_witness :
  collided (requests staged stream_view.2 ++ requests opening stream.2 ++ requests (read_all reader.1 reads) reader.2)
  ∨ reader_len reader.1 = len (concat pieces)
    ∧ Forall2 (λ q a, (∃ e, a = Some (Err e))
        ∨ a = Some (Ok (if (q.2 =? 0) || (len (concat pieces) <=? q.1) then []
                        else stream_slice (reader_chunk_bytes reader.1) (concat pieces) q.1 q.2)))
        reads read_back.1.
Proof.
  assert (possible_trace uuid_answers (requests staged stream_view.2)) as Hu
    by (apply uuid_answers_check; vm_compute; reflexivity).
  exact (byte_stream_roundtrip stream_log stream_view.1 pieces _ stream.1 stream_log stream_view.1 _ reader.1 reads _
    read_back.1 read_back.2 stream_options_wf eq_refl Hu reads_unsigned staged_returns opening_returns reading_returns).
Defined.
