(* ===== verification/SystemScenario.v ===== *)
(** * A system at work

    A session that creates a log, loads its head, commits on it and loads it again, as an execution of a
    system of clients; the guarantees of a system applied to it. *)

From Stdlib Require Import Strings.Byte.
From S2P Require Import Prelude Types Head LogSpec Samples Cbor Rfc8949 Wire Format Derive FormatHead Typed.
From S2P Require Import Prog Wp Store StoreProps Log LogOps LogMaintain.
From S2P Require Import Protocol ProtocolSpecs CommitProtocol MaintainProtocol World Linear Agreement.
From S2P Require Import Memory MemoryWorld Scenario.

#[local] Existing Instance native64.
#[local] Existing Instance sample_blake3.

Definition log_scope : Path := store_scope (unvalidated root sample_log_id).

Definition open_op : Operation := OpOpen backend sample_log_id sample_options.
Definition mem1 : Memory := (run mem_handle (op_prog no_log open_op) mem_empty).2.
Definition mem2 : Memory := (run mem_handle (op_prog log OpLoad) mem1).2.
Definition loaded0 : View := value (answer (load log) mem1) no_view.
Definition prepared_one : PreparedCommit :=
  MkPreparedCommit loaded0 (log_staging_domain log) (MkTransactionId (sample_uuid x41))
    (MkStorageId (sample_uuid x61)) [x01] [x02] [].
Definition commit_one : CommitRef := match encode_prepared log prepared_one with Ok (c, _) => c | Err _ => commit0 end.
Definition mem3 : Memory := (run mem_handle (op_prog log (OpCommit prepared_one)) mem2).2.
Definition loaded1 : View := value (answer (load log) mem3) no_view.

Definition steps : list (Log * Operation) := 
  [(no_log, open_op); (log, OpLoad); (log, OpCommit prepared_one); (log, OpLoad)].

Abbreviation handle0 := (handle log_scope sample_log_id sample_options).
Abbreviation step0 := (sys_step log_scope sample_log_id sample_options).

Lemma log_handle : handle0 log.
Proof. split; vm_compute; reflexivity. Qed.

Lemma load_seen m past :
  is_ok (answer (load log) m) = true → requests (load log) m ⊆ past →
  seen log_scope sample_log_id sample_options past (value (answer (load log) m) no_view).
Proof.
  intros Hok Hs. exists log. split; [apply log_handle|]. right; left. eapply loaded_mono; [exact Hs|].
  by apply load_loaded, returns_value.
Qed.

Lemma steps_ready : session_ready (op_started log_scope sample_log_id sample_options) steps mem_empty [].
Proof.
  split; [split|split; [|split; [split|]]].
  - split; vm_compute; reflexivity.
  - split; [|split]; reflexivity.
  - vm_compute. reflexivity.
  - apply log_handle.
  - exact I.
  - split; [vm_compute; reflexivity|].
    split; [split; [apply log_handle|split; [|split; vm_compute; reflexivity]]|].
    + apply load_seen; [vm_compute; reflexivity|]. intros ev Hev. apply elem_of_app. right. exact Hev.
    + split; [vm_compute; reflexivity|]. split; [split; [apply log_handle|exact I]|].
      split; [vm_compute; reflexivity|exact I].
Qed.

(** The system after the session. *)
Lemma session_reached :
  ∃ w, rtc step0 sys_init (MkSystem w (session steps mem_empty).1.2 (session steps mem_empty).2).
Proof.
  eexists. exact (system_runs log_scope sample_log_id sample_options steps mem_empty _ [] [] mem_rel_empty steps_ready).
Qed.

Lemma commit_reported : ∃ t, t ∈ (session steps mem_empty).2 ∧ reports_commit t commit_one.
Proof.
  assert (is_committed (answer (commit log prepared_one) mem2) = true) as Hc by (vm_compute; reflexivity).
  exists (finished_task log (OpCommit prepared_one) mem2). split.
  - unfold steps. rewrite !session_cons. right. right. left.
  - assert (∃ b, encode_prepared log prepared_one = Ok (commit_one, b)) as [b Hb].
    { unfold commit_one. destruct (encode_prepared log prepared_one) as [[c b]|e] eqn:E; [by exists b|].
      vm_compute in E. discriminate E. }
    unfold finished_task, reports_commit. cbn [task_op task_prog task_log].
    change (run mem_handle (op_prog log (OpCommit prepared_one)) mem2).1 with (answer (commit log prepared_one) mem2).
    destruct (answer (commit log prepared_one) mem2) as [[v|v|p]|e]; try discriminate Hc.
    exists v, b. split; [reflexivity|exact Hb].
Qed.

Lemma loads_seen :
  seen log_scope sample_log_id sample_options (session steps mem_empty).1.2 loaded0
  ∧ seen log_scope sample_log_id sample_options (session steps mem_empty).1.2 loaded1.
Proof.
  unfold steps. rewrite !session_past. split; (apply load_seen; [vm_compute; reflexivity|]); intros ev Hev.
  - apply elem_of_app. right. apply elem_of_app. left. exact Hev.
  - apply elem_of_app. right. apply elem_of_app. right. apply elem_of_app. right.
    apply elem_of_app. left. exact Hev.
Qed.

Lemma sample_wf : log_id_wf sample_log_id = true ∧ options_wf sample_options = true.
Proof. split; vm_compute; reflexivity. Qed.

(** ** The guarantees *)

Lemma one_history_witness :
  ∃ s, rtc step0 sys_init s ∧ linked sample_log_id sample_options (head_history log_scope (sys_world s)).
Proof.
  destruct session_reached as (w & Hs), sample_wf as [Hid Ho].
  eexists. split; [exact Hs|].
  exact (proj1 (proj2 (one_history log_scope sample_log_id sample_options Hid Ho _ _ Hs (rtc_refl _ _)))).
Defined.

Lemma clients_agree_witness :
  rtc head_step (view_head loaded0) (view_head loaded1) ∨ rtc head_step (view_head loaded1) (view_head loaded0).
Proof.
  destruct session_reached as (w & Hs), sample_wf as [Hid Ho], loads_seen as [H0' H1'].
  exact (proj1 (clients_agree log_scope sample_log_id sample_options Hid Ho _ loaded0 loaded1 Hs H0' H1')).
Defined.

Lemma committed_is_permanent_witness :
  ∃ s, rtc step0 sys_init s
    ∧ published (head_history log_scope (sys_world s)) !! Z.to_nat (commit_sequence commit_one) = Some commit_one.
Proof.
  destruct session_reached as (w & Hs), sample_wf as [Hid Ho], commit_reported as (t & Ht & Hr).
  eexists. split; [exact Hs|].
  exact (proj1 (committed_is_permanent log_scope sample_log_id sample_options Hid Ho _ _ t commit_one
    Hs Ht Hr (rtc_refl _ _))).
Defined.

Lemma heads_name_stored_objects_witness :
  ∃ s, rtc step0 sys_init s
    ∧ stored log_scope (sys_world s) (commit_key_of (head_incarnation (view_head loaded1)) commit_one).
Proof.
  destruct session_reached as (w & Hs), sample_wf as [Hid Ho], loads_seen as [_ H1'].
  eexists. split; [exact Hs|].
  assert (names (view_head loaded1) (commit_key_of (head_incarnation (view_head loaded1)) commit_one)) as Hn.
  { constructor. vm_compute. left. }
  pose proof (reachable_ok log_scope sample_log_id sample_options Hid Ho _ Hs) as Hok.
  assert (view_head loaded1 ∈ head_history log_scope w) as Hin.
  { apply (in_history_elem log_scope sample_log_id sample_options); [exact (sys_ok_world _ _ _ _ Hok)|].
    exact (seen_history log_scope sample_log_id sample_options _ _ Hok H1'). }
  exact (heads_name_stored_objects log_scope sample_log_id sample_options Hid Ho _ _ _ Hs Hin Hn).
Defined.
