(* ===== verification/ReclaimScenario.v ===== *)
(** * A system that collects

    A session that creates a log, stages a blob and a node, commits on them, checkpoints the
    commit away and collects it, as an execution of a system of clients in the environment
    of [Reclaim]: the commit's record is gone, and the blob that can be reached from the
    head's checkpoint is in the store. *)

From Stdlib Require Import Strings.Byte.
From S2P Require Import Prelude Types Head LogSpec Samples Cbor Rfc8949 Wire Format Derive FormatHead Typed.
From S2P Require Import Prog Wp Store StoreProps Log LogOps LogMaintain.
From S2P Require Import Protocol ProtocolSpecs CommitProtocol MaintainProtocol World Linear Agreement Fence Reclaim.
From S2P Require Import Memory MemoryWorld Scenario SystemScenario.

#[local] Existing Instance native64.
#[local] Existing Instance sample_blake3.

(** ** Decidable forms of the environment's conditions *)

Section checks.
Context `{Target} (st : ScopedStore).
Local Abbreviation scope := (store_scope st).

Definition used_b (w : World) (u : Uuid) : bool :=
  existsb (λ x : Path * bytes * UpdateVersion, match classify_immutable scope x.1.1 with
    | Some key => bool_decide (storage_uuid (key_storage_id key) = u) | None => false end) (w_written w).

Lemma used_check w u : used_b w u = false → ¬ used scope w u.
Proof.
  intros Hb (key & Hwf & <- & b & v & Hin). apply not_true_iff_false in Hb. apply Hb, existsb_exists.
  exists (key_at scope key, b, v). split; [by apply list_elem_of_In|]. simpl.
  change (key_at scope key) with (immutable_location st key). rewrite classify_location by done.
  by apply bool_decide_eq_true_2.
Qed.

Definition lists_stored_b (w : World) (items : list (Result (Path * Z) StoreError)) : bool :=
  forallb (λ i, match i with
    | Ok (loc, size) => in_u64 size && existsb (λ x : Path * bytes * UpdateVersion, bool_decide (x.1.1 = loc)) (w_written w)
    | Err _ => true end) items.

Lemma lists_stored_check w items : lists_stored_b w items = true → lists_stored w items.
Proof.
  intros Hb loc size Hin. apply forallb_Forall in Hb. rewrite Forall_forall in Hb. apply Hb in Hin. bool_hyps.
  split; [done|]. match goal with He : existsb _ _ = true |- _ => apply existsb_exists in He as ([[l b] v] & Hx & Hl) end.
  apply bool_decide_eq_true_1 in Hl. simpl in Hl. subst l. exists b, v. by apply list_elem_of_In.
Qed.

Definition honest_b (w : World) {R} (e : Event R) : R → bool :=
  match e in Event R return R → bool with
  | ENewUuid => λ u, negb (used_b w u)
  | EList _ => lists_stored_b w
  | _ => λ _, true
  end.

Fixpoint honest_trace_b (w : World) (tr : list Ev) : bool :=
  match tr with
  | [] => true
  | MkEv e r :: tr => honest_b w e r && honest_trace_b (after w e r) tr
  end.

Lemma honest_trace_check tr : ∀ w, honest_trace_b w tr = true → good_trace (λ w R e r, honest scope w e r) w tr.
Proof.
  induction tr as [|[R e r] tr IH]; intros w; [done|]. simpl. intros Hb. bool_hyps. split; [|by apply IH].
  destruct e; try done; simpl in *; [by apply lists_stored_check|by apply used_check, negb_true_iff].
Qed.

Context `{Blake3} `{Cbor} `{!DerivedDecode}.

Definition child_b (options : Options) (w : World) (key key' : ImmutableKey) : bool :=
  immutable_key_wf key && existsb (λ x : Path * bytes * UpdateVersion, bool_decide (x.1.1 = key_at scope key)
    && existsb (λ o, bool_decide (object_key_of (key_incarnation key) o = key')) (content_refs options (key_kind key) x.1.2))
    (w_written w).

Lemma child_check options w key key' : child_b options w key key' = true → child scope options w key key'.
Proof.
  unfold child_b. intros [Hwf Hx]%andb_prop. apply existsb_exists in Hx as ([[loc b] v] & Hin & Ho).
  apply andb_prop in Ho as [Hloc%bool_decide_eq_true_1 Ho]. apply existsb_exists in Ho as (o & Ho & Hk%bool_decide_eq_true_1).
  exists b, v, o. apply list_elem_of_In in Hin, Ho. simpl in Hloc, Ho. subst loc. done.
Qed.

(** Distinct bytes under one digest, and distinct bases under one digest, among a list. *)
Definition digests_distinct (l : list (Digest * bytes)) : bool :=
  forallb (λ x : Digest * bytes, forallb (λ y : Digest * bytes,
    negb (bool_decide (x.1 = y.1)) || bool_decide (x.2 = y.2)) l) l.

Definition bases_distinct (l : list (Result Digest Error * Head)) : bool :=
  forallb (λ x : Result Digest Error * Head, forallb (λ y : Result Digest Error * Head,
    negb (bool_decide (x.1 = y.1)) || has_same_publication_base x.2 y.2) l) l.

Definition collision_free_b (w : World) : bool :=
  digests_distinct ((λ x : Path * bytes * UpdateVersion, (digest_of x.1.2, x.1.2)) <$> w_written w)
  && bases_distinct ((λ h, (publication_base_digest h, h)) <$> head_history scope w).

Lemma collision_free_check w : collision_free_b w = true → collision_free scope w.
Proof.
  assert (∀ {A} (f : A → A → bool) l x y, forallb (λ x, forallb (f x) l) l = true → x ∈ l → y ∈ l → f x y = true) as Hall.
  { intros A f l x y Hl%forallb_Forall Hx Hy. rewrite Forall_forall in Hl. apply Hl, forallb_Forall in Hx.
    rewrite Forall_forall in Hx. by apply Hx. }
  intros Hb. apply andb_prop in Hb as [Hw Hh]. split.
  - intros loc b v loc' b' v' Hin Hin' Hd.
    apply (Hall _ _ _ (digest_of b, b) (digest_of b', b')) in Hw; 
      [|apply list_elem_of_fmap; by eexists (_, _, _)..].
    simpl in Hw. rewrite bool_decide_eq_true_2 in Hw by done. by apply bool_decide_eq_true_1 in Hw.
  - intros h h' d Hin Hin' Hd Hd'.
    apply (Hall _ _ _ (publication_base_digest h, h) (publication_base_digest h', h')) in Hh;
      [|by apply (list_elem_of_fmap_2 (λ h, (publication_base_digest h, h)))..].
    simpl in Hh. by rewrite bool_decide_eq_true_2 in Hh by congruence.
Qed.
End checks.

#[local] Instance view_eq_dec : EqDecision View.
Proof. solve_decision. Defined.

(** ** The session *)

Definition blob_op : Operation := OpPutObject loaded0 [x01; x02].
Definition blob_two : StagedObject := value (answer (put_object log loaded0 [x01; x02]) mem2) no_object.
Definition g1 : Memory := (run mem_handle (op_prog log blob_op) mem2).2.
Definition node_op : Operation := OpPutNode loaded0 [x05] [blob_two].
Definition node_two : StagedObject := value (answer (put_node log loaded0 [x05] [blob_two]) g1) no_object.
Definition g2 : Memory := (run mem_handle (op_prog log node_op) g1).2.
Definition prepare_op : Operation :=
  OpRead PreparedCommit (prepare log loaded0 (MkTransactionId (sample_uuid x41)) [x01] [x02] [node_two]).
Definition g3 : Memory := (run mem_handle (op_prog log prepare_op) g2).2.
Definition prepared_two : PreparedCommit :=
  value (answer (prepare log loaded0 (MkTransactionId (sample_uuid x41)) [x01] [x02] [node_two]) g2) no_prepared.
Definition g4 : Memory := (run mem_handle (op_prog log (OpCommit prepared_two)) g3).2.
Definition g_view1 : View := value (answer (load log) g4) no_view.
Definition g5 : Memory := (run mem_handle (op_prog log OpLoad) g4).2.
Definition commit_two : CommitRef := default commit0 (head_tail (view_head g_view1) !! 0%nat).
Definition checkpoint_op : Operation := OpPublishCheckpoint g_view1 commit_two [x0a] [node_two].
Definition g6 : Memory := (run mem_handle (op_prog log checkpoint_op) g5).2.
Definition g_view2 : View := value (answer (load log) g6) no_view.
Definition g7 : Memory := (run mem_handle (op_prog log OpLoad) g6).2.
Definition g8 : Memory := (run mem_handle (op_prog log (OpStartCollection g_view2 16)) g7).2.
Definition g_view3 : View := value (answer (load log) g8) no_view.
Definition g9 : Memory := (run mem_handle (op_prog log OpLoad) g8).2.
Definition g10 : Memory := (run mem_handle (op_prog log (OpResumeCollection g_view3)) g9).2.
Definition g_view4 : View := value (answer (load log) g10) no_view.

Definition gc_ops : list (Log * Operation) :=
  [(no_log, open_op); (log, OpLoad); (log, blob_op); (log, node_op); (log, prepare_op); (log, OpCommit prepared_two);
   (log, OpLoad);
   (log, checkpoint_op); (log, OpLoad); (log, OpStartCollection g_view2 16); (log, OpLoad);
   (log, OpResumeCollection g_view3); (log, OpLoad)].

Abbreviation gc_step0 := (gc_step log_scope sample_log_id sample_options).

Abbreviation staged0 := (staged log_scope sample_log_id sample_options log).
Abbreviation epoch0 := (head_collection_epoch (view_head loaded0)).

Definition gc_started (l : Log) (past : list Ev) (o : Operation) : Prop :=
  handle0 l ∧ uuid_wf (log_incarnation l) = true ∧ op_ready log_scope sample_log_id sample_options l past o
  ∧ staging_ready log_scope sample_log_id sample_options l past o.

Lemma sub_right {A} (l k : list A) : k ⊆ l ++ k.
Proof. set_solver. Qed.
Lemma sub_left {A} (l k k' : list A) : k ⊆ l → k ⊆ l ++ k'.
Proof. set_solver. Qed.

(** Taking a computed conjunction apart. *)
Lemma and_check (b c : bool) (Q : Prop) : (c = true → Q) → b && c = true → b = true ∧ Q.
Proof. intros HQ Hb. apply andb_prop in Hb as [Hb Hc]. by split; [|apply HQ]. Qed.

Lemma and_decide (P Q : Prop) `{!Decision P} c : (c = true → Q) → bool_decide P && c = true → P ∧ Q.
Proof. intros HQ Hb. apply andb_prop in Hb as [Hb Hc]. by split; [apply bool_decide_eq_true_1 in Hb|apply HQ]. Qed.

(** *** Staged objects *)

Definition drawn_in (tr : list Ev) (u : Uuid) : bool :=
  existsb (λ ev, match ev with MkEv e r =>
    match e in Event R return R → bool with ENewUuid => λ u', bool_decide (u' = u) | _ => λ _, false end r end) tr.

Lemma drawn_in_split tr u : drawn_in tr u = true → ∃ tr1 tr2, tr = tr1 ++ MkEv ENewUuid u :: tr2.
Proof.
  intros ([R e r] & Hin & Hb)%existsb_exists. apply list_elem_of_In, list_elem_of_split in Hin as (tr1 & tr2 & ->).
  exists tr1, tr2. destruct e; try done. by apply bool_decide_eq_true_1 in Hb as ->.
Qed.

Definition created_at (tr : list Ev) (loc : Path) (b : bytes) : bool :=
  existsb (λ ev, match ev with MkEv e r =>
    match e in Event R return R → bool with
    | EPut loc' b' PutCreate => λ r, bool_decide (loc' = loc) && bool_decide (b' = b) && match r with Ok _ => true | Err _ => false end
    | _ => λ _, false
    end r end) tr.

Lemma created_put tr loc b : created_at tr loc b = true → ∃ v, MkEv (EPut loc b PutCreate) (Ok v) ∈ tr.
Proof.
  intros ([R e r] & Hin%list_elem_of_In & Hb)%existsb_exists. destruct e as [| |loc' b' mode| | | | | | | | | |]; try done.
  destruct mode; try done. destruct r as [v|]; [|by rewrite andb_false_r in Hb]. exists v.
  rewrite andb_true_r in Hb. by apply andb_prop in Hb as [->%bool_decide_eq_true_1 ->%bool_decide_eq_true_1].
Qed.

(** The requests create the object, with these references. *)
Definition creates_b (tr : list Ev) (o : ObjectRef) (b : bytes) (refs : list ObjectRef) : bool :=
  drawn_in tr (storage_uuid (obj_storage_id o))
  && (object_ref_wf o
  && (created_at tr (key_path log (object_immutable_key log o)) b
  && (bool_decide (digest_of b = obj_digest o) && bool_decide (refs_of log (object_immutable_key log o) b = refs)))).

Definition stored_bytes_of (m : Memory) (o : ObjectRef) : bytes :=
  match mem_objects m !! key_path log (object_immutable_key log o) with Some (b, _) => b | None => [] end.

Definition blob_ref : ObjectRef := staged_object_ref blob_two.
Definition node_ref : ObjectRef := staged_object_ref node_two.

(** What evaluating the common start of the sessions shows. *)
Definition prepared_refs : list ObjectRef :=
  match encode_prepared log prepared_two with Ok (_, b) => content_refs (log_options log) KCommit b | Err _ => [] end.

Definition start_facts_b : bool :=
  bool_decide (log_staging_domain log < mem_clock mem1)
  && (is_ok (answer (load log) mem1)
  && (uuid_wf (storage_uuid (prep_storage_id prepared_two))
  && (uuid_wf (transaction_uuid (prep_transaction_id prepared_two))
  && (is_ok (answer (load log) g4)
  && (uuid_wf (log_incarnation log)
  && (drawn_in (requests (op_prog log prepare_op) g2) (storage_uuid (prep_storage_id prepared_two))
  && bool_decide (prep_view prepared_two = loaded0))))))).

Lemma start_facts :
  log_staging_domain log < mem_clock mem1 ∧ is_ok (answer (load log) mem1) = true
  ∧ uuid_wf (storage_uuid (prep_storage_id prepared_two)) = true
  ∧ uuid_wf (transaction_uuid (prep_transaction_id prepared_two)) = true ∧ is_ok (answer (load log) g4) = true
  ∧ uuid_wf (log_incarnation log) = true
  ∧ drawn_in (requests (op_prog log prepare_op) g2) (storage_uuid (prep_storage_id prepared_two)) = true
  ∧ prep_view prepared_two = loaded0.
Proof.
  assert (start_facts_b = true) as Hb by (vm_compute; reflexivity). unfold start_facts_b in Hb. revert Hb.
  apply and_decide. do 6 apply and_check. apply bool_decide_eq_true_1.
Qed.

Definition staged_facts_b : bool :=
  creates_b (requests (op_prog log blob_op) mem2) blob_ref (stored_bytes_of g1 blob_ref) []
  && (creates_b (requests (op_prog log node_op) g1) node_ref (stored_bytes_of g2 node_ref) [blob_ref]
  && (bool_decide (prepared_refs = [node_ref])
  && bool_decide (head_collection_epoch (view_head g_view1) = epoch0))).

Lemma staged_facts :
  creates_b (requests (op_prog log blob_op) mem2) blob_ref (stored_bytes_of g1 blob_ref) [] = true
  ∧ creates_b (requests (op_prog log node_op) g1) node_ref (stored_bytes_of g2 node_ref) [blob_ref] = true
  ∧ prepared_refs = [node_ref] ∧ head_collection_epoch (view_head g_view1) = epoch0.
Proof.
  assert (staged_facts_b = true) as Hb by (vm_compute; reflexivity). unfold staged_facts_b in Hb. revert Hb.
  do 2 apply and_check. apply and_decide. apply bool_decide_eq_true_1.
Qed.

Lemma log_incarnation_wf : uuid_wf (log_incarnation log) = true.
Proof. by destruct start_facts as (_ & _ & _ & _ & _ & Hwf & _). Qed.

Lemma started_by_log past o :
  op_ready log_scope sample_log_id sample_options log past o →
  staging_ready log_scope sample_log_id sample_options log past o → gc_started log past o.
Proof. intros Ho Hi. split; [apply log_handle|]. split; [exact log_incarnation_wf|]. exact (conj Ho Hi). Qed.

(** When a commit and a checkpoint may be published. *)
Lemma commit_started past prepared :
  seen log_scope sample_log_id sample_options past (prep_view prepared) → prepared_typed prepared →
  prepared_ready log_scope sample_log_id sample_options log past prepared → gc_started log past (OpCommit prepared).
Proof. intros Hs Ht Hr. apply started_by_log; [exact (conj Hs Ht)|exact Hr]. Qed.

Lemma checkpoint_started past view through snapshot objects :
  seen log_scope sample_log_id sample_options past view → Forall (λ o, object_ref_wf (staged_object_ref o) = true) objects →
  refs_staged log_scope sample_log_id sample_options log past (head_collection_epoch (view_head view)) KCheckpoint
    (encode_checkpoint (checkpoint_body log through snapshot objects)) →
  gc_started log past (OpPublishCheckpoint view through snapshot objects).
Proof. intros Hs Ho Hr. apply started_by_log; [exact (conj Hs Ho)|exact Hr]. Qed.

Lemma drawn_by past tr id :
  requests (load log) mem1 ⊆ past → drawn_in tr (storage_uuid id) = true →
  drawn_after log_scope sample_log_id sample_options (past ++ tr) id loaded0.
Proof.
  intros Hs (tr1 & tr2 & ->)%drawn_in_split. destruct start_facts as (_ & Hok & _). exists (past ++ tr1), tr2.
  split; [by rewrite <-app_assoc|]. apply load_seen; [exact Hok|]. by apply sub_left.
Qed.

Lemma creates_staged past tr o b refs :
  requests (load log) mem1 ⊆ past → creates_b tr o b refs = true → (∀ o', o' ∈ refs → staged0 (past ++ tr) epoch0 o') →
  staged0 (past ++ tr) epoch0 o.
Proof.
  intros Hs [Hd (Hwf & (Hput & [Hdig Hrefs]%andb_prop)%andb_prop)%andb_prop]%andb_prop Hall.
  apply bool_decide_eq_true_1 in Hdig, Hrefs. apply created_put in Hput as [v Hput].
  apply (staged_new _ _ _ _ _ _ o b loaded0);
    [exact (drawn_by _ _ _ Hs Hd)|reflexivity|exact Hwf|exact Hdig| |rewrite Hrefs; exact Hall].
  right; left. exists v. apply elem_of_app. by right.
Qed.

Lemma prepared_drawn past :
  requests (load log) mem1 ⊆ past →
  drawn_after log_scope sample_log_id sample_options (past ++ requests (op_prog log prepare_op) g2)
    (prep_storage_id prepared_two) loaded0.
Proof. intros Hs. apply drawn_by; [exact Hs|]. by destruct start_facts as (_ & _ & _ & _ & _ & _ & Hd & _). Qed.

Lemma prepare_reads : reads_only (prepare log loaded0 (MkTransactionId (sample_uuid x41)) [x01] [x02] [node_two]).
Proof. unfold prepare. solve_reads. Qed.

Lemma ready_cons o ops m past :
  log_staging_domain log < mem_clock m → gc_started log past o →
  (log_staging_domain log < mem_clock (run mem_handle (op_prog log o) m).2 →
   session_ready gc_started ops (run mem_handle (op_prog log o) m).2 (past ++ requests (op_prog log o) m)) →
  session_ready gc_started ((log, o) :: ops) m past.
Proof.
  intros Hd Ho Hrest. split; [exact Ho|]. split; [exact Hd|]. apply Hrest.
  pose proof (run_clock_mono (op_prog log o) m). lia.
Qed.

Lemma load_ready past : gc_started log past OpLoad.
Proof. exact (started_by_log _ OpLoad I I). Qed.

Lemma seen_after m past past' :
  is_ok (answer (load log) m) = true → (requests (op_prog log OpLoad) m ⊆ past) → past ⊆ past' →
  seen log_scope sample_log_id sample_options past' (value (answer (load log) m) no_view).
Proof. intros Hok Hs Hs'. apply load_seen; [exact Hok|]. by etrans. Qed.

(** The start of a session: create the log, stage, prepare and commit. *)
Lemma commit_prefix_ready ops :
  (∀ past, log_staging_domain log < mem_clock g5 → requests (op_prog log OpLoad) g4 ⊆ past → staged0 past epoch0 node_ref →
     session_ready gc_started ops g5 past) →
  session_ready gc_started ([(no_log, open_op); (log, OpLoad); (log, blob_op); (log, node_op); (log, prepare_op);
    (log, OpCommit prepared_two); (log, OpLoad)] ++ ops) mem_empty [].
Proof.
  intros Hops. destruct start_facts as (Hclock & Hok & Hid & Htx & _ & _ & _ & Hview), staged_facts as (Hblob & Hnode & Hrefs & _). cbn [app].
  split; [|split; [reflexivity|]].
  { split; [split; vm_compute; reflexivity|]. split; [vm_compute; reflexivity|]. split; [|exact I].
    split; [|split]; reflexivity. }
  fold mem1. set (p1 := [] ++ _).
  apply ready_cons; [exact Hclock|apply load_ready|]. fold mem2. intros H2'. set (p2 := p1 ++ _).
  assert (requests (load log) mem1 ⊆ p2) as Hp2 by apply sub_right.
  apply ready_cons; [exact H2'|exact (started_by_log _ blob_op I I)|]. fold g1. intros H3'. set (p3 := p2 ++ _).
  assert (staged0 p3 epoch0 blob_ref) as Hs3.
  { exact (creates_staged p2 _ _ _ _ Hp2 Hblob (λ o' Ho, False_ind _ (not_elem_of_nil o' Ho))). }
  apply ready_cons; [exact H3'|exact (started_by_log _ node_op I I)|]. fold g2. intros H4'. set (p4 := p3 ++ _).
  assert (requests (load log) mem1 ⊆ p3) as Hp3 by (apply sub_left; exact Hp2).
  assert (staged0 p4 epoch0 node_ref) as Hs4.
  { apply (creates_staged p3 _ _ _ _ Hp3 Hnode). intros o' ->%list_elem_of_singleton. apply staged_app. exact Hs3. }
  apply ready_cons; [exact H4'|exact (started_by_log _ prepare_op prepare_reads I)|]. fold g3. intros H5'.
  apply ready_cons; [exact H5'|apply commit_started; [|exact (conj Htx Hid)|]|].
  { rewrite Hview. apply load_seen; [exact Hok|]. do 2 apply sub_left. exact Hp3. }
  { split; rewrite Hview; [apply prepared_drawn, sub_left; exact Hp3|]. intros c b He o.
    unfold prepared_refs in Hrefs. rewrite He in Hrefs. rewrite Hrefs. intros ->%list_elem_of_singleton. apply staged_app. exact Hs4. }
  fold g4. intros H6'. apply ready_cons; [exact H6'|apply load_ready|]. fold g5. intros H7'.
  apply Hops; [exact H7'|apply sub_right|]. do 3 apply staged_app. exact Hs4.
Qed.

(** A session that is ready and honest is an execution of the system. *)
Lemma gc_session_reached ops :
  session_ready gc_started ops mem_empty [] →
  honest_trace_b (unvalidated root sample_log_id) (MkWorld ∅ [] []) (session ops mem_empty).1.2 = true →
  rtc gc_step0 sys_init (MkSystem (replay (MkWorld ∅ [] []) (session ops mem_empty).1.2) (session ops mem_empty).1.2
    (session ops mem_empty).2).
Proof.
  intros Hready Hhonest.
  eapply (session_runs gc_step0 gc_started (λ w R e r, honest log_scope w e r) _ _ ops mem_empty _ [] []
    mem_rel_empty Hready).
  unfold log_scope. by apply honest_trace_check.
  Unshelve.
  - intros * (? & ? & ? & ?). by apply gc_start.
  - intros *. apply gc_request.
Qed.

(** The requests of the session and the store it leaves. *)
Definition gc_requests : list Ev := (session gc_ops mem_empty).1.2.
Definition gc_world : World := replay (MkWorld ∅ [] []) gc_requests.

Definition checkpoint_refs (objects : list StagedObject) : list ObjectRef :=
  content_refs (log_options log) KCheckpoint (encode_checkpoint (checkpoint_body log commit_two [x0a] objects)).

Definition cp_two : CheckpointRef :=
  default (MkCheckpointRef 0 (sample_digest x00) sample_checkpoint_object) (head_checkpoint (view_head g_view4)).
Definition object_at (o : ObjectRef) : ImmutableKey := object_key_of (log_incarnation log) o.

(** What evaluating the session shows. *)
Definition gc_facts_b : bool :=
  is_ok (answer (load log) g6) && (is_ok (answer (load log) g8)
  && (honest_trace_b (unvalidated root sample_log_id) (MkWorld ∅ [] []) gc_requests
  && (collision_free_b (unvalidated root sample_log_id) gc_world
  && (object_ref_wf node_ref
  && (child_b (unvalidated root sample_log_id) sample_options gc_world (object_at (checkpoint_object cp_two)) (object_at node_ref)
  && (child_b (unvalidated root sample_log_id) sample_options gc_world (object_at node_ref) (object_at blob_ref)
  && (bool_decide (checkpoint_refs [node_two] = [node_ref])
  && (bool_decide (last (head_history log_scope gc_world) = Some (view_head g_view4))
  && (bool_decide (head_checkpoint (view_head g_view4) = Some cp_two)
  && (bool_decide (head_incarnation (view_head g_view4) = log_incarnation log)
  && bool_decide (w_objects gc_world
       !! key_at log_scope (commit_key_of (log_incarnation log) commit_two) = None))))))))))).

Lemma gc_facts :
  is_ok (answer (load log) g6) = true ∧ is_ok (answer (load log) g8) = true
  ∧ honest_trace_b (unvalidated root sample_log_id) (MkWorld ∅ [] []) gc_requests = true
  ∧ collision_free_b (unvalidated root sample_log_id) gc_world = true
  ∧ object_ref_wf node_ref = true
  ∧ child_b (unvalidated root sample_log_id) sample_options gc_world (object_at (checkpoint_object cp_two)) (object_at node_ref) = true
  ∧ child_b (unvalidated root sample_log_id) sample_options gc_world (object_at node_ref) (object_at blob_ref) = true
  ∧ checkpoint_refs [node_two] = [node_ref]
  ∧ last (head_history log_scope gc_world) = Some (view_head g_view4)
  ∧ head_checkpoint (view_head g_view4) = Some cp_two
  ∧ head_incarnation (view_head g_view4) = log_incarnation log
  ∧ w_objects gc_world !! key_at log_scope (commit_key_of (log_incarnation log) commit_two) = None.
Proof.
  assert (gc_facts_b = true) as Hb by (vm_compute; reflexivity). unfold gc_facts_b in Hb. revert Hb.
  do 7 apply and_check. do 4 apply and_decide. apply bool_decide_eq_true_1.
Qed.

Lemma gc_ops_ready : session_ready gc_started gc_ops mem_empty [].
Proof.
  destruct gc_facts as (Hok6 & Hok8 & _ & _ & Hwf & _ & _ & Hrefs & _), start_facts as (_ & _ & _ & _ & Hok4 & _).
  destruct staged_facts as (_ & _ & _ & Hepoch).
  unfold gc_ops. apply commit_prefix_ready. intros p5 H5' Hp5 Hnode.
  apply ready_cons; [exact H5'|apply (checkpoint_started p5 g_view1 commit_two [x0a] [node_two])|].
  { apply (seen_after g4 p5); [exact Hok4|exact Hp5|reflexivity]. }
  { constructor; [exact Hwf|constructor]. }
  { intros o. fold (checkpoint_refs [node_two]). rewrite Hrefs, Hepoch. intros ->%list_elem_of_singleton. exact Hnode. }
  fold g6. intros H6'. apply ready_cons; [exact H6'|apply load_ready|]. fold g7. intros H7'.
  set (p7 := _ ++ requests (op_prog log OpLoad) g6).
  apply ready_cons; [exact H7'|apply started_by_log; [|exact I]|].
  { apply (seen_after g6 p7); [exact Hok6|apply sub_right|done]. }
  fold g8. intros H8'. apply ready_cons; [exact H8'|apply load_ready|]. fold g9. intros H9'.
  set (p9 := _ ++ requests (op_prog log OpLoad) g8).
  apply ready_cons; [exact H9'|apply started_by_log; [|exact I]|].
  { apply (seen_after g8 p9); [exact Hok8|apply sub_right|done]. }
  fold g10. intros H10'. apply ready_cons; [exact H10'|apply load_ready|]. done.
Qed.

Lemma gc_reached : rtc gc_step0 sys_init (MkSystem gc_world gc_requests (session gc_ops mem_empty).2).
Proof. apply gc_session_reached; [apply gc_ops_ready|exact (proj1 (proj2 (proj2 gc_facts)))]. Qed.


(** ** A retained view *)

(** The same log, with a retention taken before a checkpoint that drops the node: the
    collection is refused, and the blob that can no longer be reached from the head is
    still there. *)
Definition retain_op : Operation := OpRetention g_view1 (Acquire sample_retention).
Definition r6 : Memory := (run mem_handle (op_prog log retain_op) g5).2.
Definition r_view2 : View := value (answer (load log) r6) no_view.
Definition r7 : Memory := (run mem_handle (op_prog log OpLoad) r6).2.
Definition retained_checkpoint_op : Operation := OpPublishCheckpoint r_view2 commit_two [x0a] [].
Definition r8 : Memory := (run mem_handle (op_prog log retained_checkpoint_op) r7).2.
Definition r_view3 : View := value (answer (load log) r8) no_view.
Definition r9 : Memory := (run mem_handle (op_prog log OpLoad) r8).2.

Definition retained_ops : list (Log * Operation) :=
  [(no_log, open_op); (log, OpLoad); (log, blob_op); (log, node_op); (log, prepare_op); (log, OpCommit prepared_two);
   (log, OpLoad);
   (log, retain_op); (log, OpLoad); (log, retained_checkpoint_op); (log, OpLoad);
   (log, OpStartCollection r_view3 16)].

Definition retained_requests : list Ev := (session retained_ops mem_empty).1.2.
Definition retained_world : World := replay (MkWorld ∅ [] []) retained_requests.

(** Every head from index [k] on holds a retention. *)
Definition held_from (k : nat) (hs : list Head) : bool :=
  forallb (λ h, negb (bool_decide (head_retention_ids h = ∅))) (drop k hs).

Lemma held_check hs k :
  held_from k hs = true → ∀ j x, (k ≤ j)%nat → hs !! j = Some x → head_retention_ids x ≠ ∅.
Proof.
  intros Hb%forallb_Forall j x Hj Hx. rewrite Forall_lookup in Hb.
  specialize (Hb (j - k)%nat x). rewrite lookup_drop in Hb. replace (k + (j - k))%nat with j in Hb by lia.
  by apply Hb, negb_true_iff, bool_decide_eq_false in Hx.
Qed.

Definition retained_facts_b : bool :=
  is_ok (answer (load log) r6) && (is_ok (answer (load log) r8)
  && (honest_trace_b (unvalidated root sample_log_id) (MkWorld ∅ [] []) retained_requests
  && (collision_free_b (unvalidated root sample_log_id) retained_world
  && (bool_decide (head_history log_scope retained_world !! 1%nat = Some (view_head g_view1))
  && (bool_decide (head_history log_scope retained_world !! 2%nat = Some (view_head r_view2))
  && (bool_decide (head_collection_epoch (view_head r_view2) = head_collection_epoch (view_head g_view1))
  && (bool_decide (head_tail (view_head g_view1) = [commit_two])
  && (bool_decide (head_tail (view_head r_view3) = [])
  && (held_from 2 (head_history log_scope retained_world)
  && (child_b (unvalidated root sample_log_id) sample_options retained_world
       (commit_key_of (log_incarnation log) commit_two) (object_at node_ref)
  && (child_b (unvalidated root sample_log_id) sample_options retained_world (object_at node_ref) (object_at blob_ref)
  && (bool_decide (checkpoint_refs [] = [])
  && (bool_decide (head_incarnation (view_head g_view1) = log_incarnation log)
  && bool_decide (last (head_history log_scope retained_world) = Some (view_head r_view3))))))))))))))).

Lemma retained_facts :
  is_ok (answer (load log) r6) = true ∧ is_ok (answer (load log) r8) = true
  ∧ honest_trace_b (unvalidated root sample_log_id) (MkWorld ∅ [] []) retained_requests = true
  ∧ collision_free_b (unvalidated root sample_log_id) retained_world = true
  ∧ head_history log_scope retained_world !! 1%nat = Some (view_head g_view1)
  ∧ head_history log_scope retained_world !! 2%nat = Some (view_head r_view2)
  ∧ head_collection_epoch (view_head r_view2) = head_collection_epoch (view_head g_view1)
  ∧ head_tail (view_head g_view1) = [commit_two] ∧ head_tail (view_head r_view3) = []
  ∧ held_from 2 (head_history log_scope retained_world) = true
  ∧ child_b (unvalidated root sample_log_id) sample_options retained_world
      (commit_key_of (log_incarnation log) commit_two) (object_at node_ref) = true
  ∧ child_b (unvalidated root sample_log_id) sample_options retained_world (object_at node_ref) (object_at blob_ref) = true
  ∧ checkpoint_refs [] = [] ∧ head_incarnation (view_head g_view1) = log_incarnation log
  ∧ last (head_history log_scope retained_world) = Some (view_head r_view3).
Proof.
  assert (retained_facts_b = true) as Hb by (vm_compute; reflexivity). unfold retained_facts_b in Hb. revert Hb.
  do 4 apply and_check. do 5 apply and_decide. do 3 apply and_check. do 2 apply and_decide. apply bool_decide_eq_true_1.
Qed.

Lemma retained_ops_ready : session_ready gc_started retained_ops mem_empty [].
Proof.
  destruct retained_facts as (Hok6 & Hok8 & _ & _ & _ & _ & _ & _ & _ & _ & _ & _ & Hrefs & _), start_facts as (_ & _ & _ & _ & Hok4 & _).
  unfold retained_ops. apply commit_prefix_ready. intros p5 H5' Hp5 _.
  apply ready_cons; [exact H5'|apply started_by_log; [split; [|reflexivity]|exact I]|].
  { apply (seen_after g4 p5); [exact Hok4|exact Hp5|reflexivity]. }
  fold r6. intros H6'. apply ready_cons; [exact H6'|apply load_ready|]. fold r7. intros H7'.
  set (p7 := _ ++ requests (op_prog log OpLoad) r6).
  apply ready_cons; [exact H7'|apply (checkpoint_started p7 r_view2 commit_two [x0a] []); [|constructor|]|].
  { apply (seen_after r6 p7); [exact Hok6|apply sub_right|done]. }
  { intros o Ho. fold (checkpoint_refs []) in Ho. rewrite Hrefs in Ho. destruct (not_elem_of_nil o Ho). }
  fold r8. intros H8'. apply ready_cons; [exact H8'|apply load_ready|]. fold r9. intros H9'.
  set (p9 := _ ++ requests (op_prog log OpLoad) r8).
  apply ready_cons; [exact H9'|apply started_by_log; [|exact I]|done].
  apply (seen_after r8 p9); [exact Hok8|apply sub_right|done].
Qed.

Lemma retained_reached : rtc gc_step0 sys_init (MkSystem retained_world retained_requests (session retained_ops mem_empty).2).
Proof. apply gc_session_reached; [apply retained_ops_ready|exact (proj1 (proj2 (proj2 retained_facts)))]. Qed.

Lemma retained_view_stays_readable_witness :
  ∃ s h h', rtc gc_step0 sys_init s ∧ last (head_history log_scope (sys_world s)) = Some h'
    ∧ head_tail h = [commit_two] ∧ head_tail h' = []
    ∧ ∃ b v, w_objects (sys_world s) !! key_at log_scope (object_at blob_ref) = Some (b, v)
        ∧ digest_of b = obj_digest blob_ref.
Proof.
  destruct retained_facts as (_ & _ & _ & Hfree%collision_free_check & Hi & Hk & He & Htail & Hnil & Hheld
    & Hc1%child_check & Hc2%child_check & _ & Hinc & Hlast).
  destruct sample_wf as [Hid Ho]. pose proof (held_check _ _ Hheld) as Hids.
  assert (needed log_scope sample_options retained_world (view_head g_view1) (object_at blob_ref)) as Hl.
  { exists (commit_key_of (log_incarnation log) commit_two). split; [rewrite <-Hinc; apply keeps_commit; rewrite Htail; left|].
    exact (rtc_l _ _ _ _ Hc1 (rtc_l _ _ _ _ Hc2 (rtc_refl _ _))). }
  eexists _, (view_head g_view1), (view_head r_view3). split; [exact retained_reached|]. split; [exact Hlast|].
  split; [exact Htail|]. split; [exact Hnil|].
  exact (retained_view_stays_readable log_scope sample_log_id sample_options Hid Ho _ 1%nat 2%nat _ _ _
    retained_reached Hfree Hi Hk (le_S _ _ (le_n 1)) He Hids Hl).
Defined.
