(* ===== verification/SimScenario.v ===== *)
(** * The fault-injecting store at work

    A store that answers every call, a failure scheduled after the first write, and two
    writes; the theorems on the wrapper applied to the run. *)

From Stdlib Require Import Strings.Byte.
From S2P Require Import Prelude Types Head Prog Sim SimProps SimAccounting Memory.

#[local] Instance unit_api : StoreApi := {|
  PutOptions := (); PutMultipartOptions := (); GetOptions := (); CopyOptions := (); RenameOptions := ();
  PutResult := (); GetReply := (); ListResult := (); ObjectMeta := (); Upload := (); Listing := ();
  get_head _ := false; get_range _ := (0, 3); Foreign := ()
|}.

Definition accept {A} (q : Inner A) : Result A SimError :=
  match q in Inner A return Result A SimError with
  | InnerPut _ _ _ => Ok ()
  | InnerPutMultipart _ _ => Ok ()
  | InnerGet _ _ => Ok ()
  | InnerGetRanges _ _ => Ok []
  | InnerDelete _ => Ok ()
  | InnerListWithDelimiter _ => Ok ()
  | InnerCopy _ _ _ => Ok ()
  | InnerRename _ _ _ => Ok ()
  | InnerPutPart _ _ => Ok ()
  | InnerComplete _ => Ok ()
  | InnerAbort _ => Ok ()
  end.

(** Every call succeeds. *)
Definition accepting : Oracle := λ R e,
  match e in SimEvent R return R with
  | SStart o n => MkRequestTicket 0 o 0 n
  | STakeFailure _ _ => false
  | STakeRejected _ _ => None
  | STakePause _ _ => None
  | SFinish _ _ _ _ => ()
  | SInner q => accept q
  | SList _ => ()
  | SListNext _ => None
  | SEntered _ => ()
  | SReleased _ => ()
  end.

Definition location0 : Path := [str "a"].
Definition write0 : sim (Result PutResult SimError) := put_opts location0 [x01; x02] ().
Definition scheduled : State := schedule (MkFailure SimPut 1 After) state_default.
Definition first_write : Result PutResult SimError * option RequestTicket * State :=
  run_alone accepting write0 None scheduled.
Definition second_write : Result PutResult SimError * option RequestTicket * State :=
  run_alone accepting write0 None first_write.2.

Definition first_task : STask := MkSTask _ first_write.1.2 (Ret first_write.1.1).
Definition second_task : STask := MkSTask _ second_write.1.2 (Ret second_write.1.1).
Definition after_writes : Harness := MkHarness second_write.2 [first_task; second_task] [].

Definition failed_injected (r : Result PutResult SimError) : bool :=
  match r with Err e => is_injected e | Ok _ => false end.

(** The first write fails though it took effect, the second succeeds. *)
Example first_hidden_second_seen :
  failed_injected first_write.1.1 = true ∧ second_write.1.1 = Ok ()
  ∧ visible_mutations (metrics_operation (metrics second_write.2) SimPut) = 2.
Proof. split_and!; vm_compute; reflexivity. Qed.

Lemma writes_reached : rtc (harness_step location0) harness_init after_writes.
Proof.
  eapply rtc_l; [apply harness_control, (control_schedule (MkFailure SimPut 1 After))|].
  eapply rtc_l; [apply harness_call, method_put|].
  etrans; [exact (run_alone_steps location0 accepting write0 None scheduled [] [])|].
  eapply rtc_l; [apply harness_call, method_put|].
  exact (run_alone_steps location0 accepting write0 None first_write.2 [first_task] []).
Qed.

(** ** The theorems on the run *)


Lemma faults_fire_once_witness : NoDup (fault_keys (h_state after_writes)).
Proof.
  exact (proj1 (faults_fire_once location0 after_writes (MkRequestTicket 1 SimPut 1 0) After writes_reached)).
Defined.

Lemma requests_report_their_outcome_witness :
  ∃ tr t, sreturns write0 tr first_write.1.1
    ∧ request_spec t location0 (InnerPut location0 [x01; x02] ()) (λ _, 0) (drop 1 tr) first_write.1.1.
Proof.
  assert (∃ tr, sreturns write0 tr first_write.1.1) as (tr & Hr) by (eexists; apply (run_alone_returns accepting)).
  destruct (proj1 (proj2 requests_report_their_outcome) _ _ _ _ _ Hr) as (t & tr' & Htr & Hspec).
  exists tr, t. split; [exact Hr|]. rewrite Htr. exact Hspec.
Defined.
