(* ===== verification/WalScenario.v ===== *)
(** * The WAL component on the in-memory backend

    A session that retains, releases, collects and refreshes; a recovery consumed to its
    end and used; a candidate published twice; a replayed request. *)

From Stdlib Require Import Strings.Byte.
From S2P Require Import Prelude Types Head Samples Cbor Rfc8949 Wire Format Derive FormatHead Typed Prog Wp Store StoreProps.
From S2P Require Import Log LogOps LogMaintain History Protocol ProtocolSpecs CommitProtocol MaintainProtocol.
From S2P Require Import TailProps Memory Scenario WalTransport WalExchange WalSession WalProps.

#[local] Existing Instance native64.
#[local] Existing Instance sample_blake3.

(** ** Sessions *)

Definition wal_session : SessionState := MkSessionState log view5' 7.
Definition retention_bytes : bytes := uuid_bytes (retention_uuid sample_retention).
Definition wal_script : list SessionCall :=
  [CRetain retention_bytes; CRelease retention_bytes; CCollect 10; CResume [x01]; CRefresh; CCollect 10].

Definition wal_run : prog (list (SessionAnswer * SessionState)) := session_calls wal_session wal_script.

Definition collected (a : SessionAnswer) : option CollectionResult :=
  match a with ACollection (Ok r) => Some r | _ => None end.


(** ** Recoveries *)

(** The view after the checkpoint: the checkpoint, one commit, and the end. *)
Definition wal_recovery : RecoveryState := Eval vm_compute in
  match session_recover (MkSessionState log view3 7) with
  | Ok r => r
  | Err _ => MkLogState log (MkHistoryCursor log no_view false 0 [] false)
  end.
Definition consumed : prog (list (Result (option WalItem) Failure) * RecoveryState) := recovery_nexts 3 wal_recovery.

Lemma recovery_precedes_publication_witness :
  recovered_view wal_recovery = Err NOT_CONSUMED
  ∧ recovered_view (answer consumed checkpointed.2).2 = Ok view3
  ∧ length (delivered (answer consumed checkpointed.2).1) = 2%nat
  ∧ whole_history log (requests consumed checkpointed.2) view3 (delivered (answer consumed checkpointed.2).1).
Proof.
  split; [vm_compute; reflexivity|].
  assert (recovered_view (answer consumed checkpointed.2).2 = Ok view3) as Hv by (vm_compute; reflexivity).
  assert (session_recover (MkSessionState log view3 7) = Ok wal_recovery) as Hrec
    by (vm_cast_no_check (@eq_refl (Result RecoveryState Failure) (Ok wal_recovery))).
  split; [exact Hv|]. split; [vm_compute; reflexivity|].
  pose proof (requests_return consumed checkpointed.2) as Hr.
  destruct (answer consumed checkpointed.2) as [answers r].
  exact (proj2 (proj1 (recovery_precedes_publication log (MkSessionState log view3 7) wal_recovery 3 _ answers r
    eq_refl Hrec Hr) view3 Hv)).
Defined.

(** ** Candidates *)

Definition wal_candidate : CandidateState := MkLogState log (Some prepared0.1).
Definition published_twice : prog (list CandidateAnswer * CandidateState) :=
  candidate_calls wal_candidate [CToken; CPublish; CPublish; CToken].

Lemma candidate_published_once_witness :
  drop 1 (answer published_twice prepared0.2).1
    = [APublished (Ok PublishCommitted); APublished (Err CLOSED); AToken (Err CLOSED)]
  ∧ outcome_post log (observer (prep_view prepared0.1)) prepared0.1 PublishCommitted
      (requests published_twice prepared0.2).
Proof.
  split; [vm_compute; reflexivity|].
  assert (known_view (observer (prep_view prepared0.1)) (prep_view prepared0.1)) as Hk
    by (apply observer_knows; vm_compute; reflexivity).
  assert (prepared_typed prepared0.1) as Ht by (split; vm_compute; reflexivity).
  assert ((answer published_twice prepared0.2).1 !! 1%nat = Some (APublished (Ok PublishCommitted))) as Hi
    by (vm_compute; reflexivity).
  pose proof (requests_return published_twice prepared0.2) as Hr. unfold published_twice at 1 in Hr.
  destruct (answer published_twice prepared0.2) as [answers c'].
  exact (proj1 (proj1 (proj2 (candidate_published_once log (observer (prep_view prepared0.1)) prepared0.1
    wal_candidate [CToken; CPublish; CPublish; CToken] _ answers c' Hk Ht (caller_prepared _ _ _) eq_refl eq_refl Hr)) 1%nat _ Hi)).
Defined.

(** ** Replay *)

Definition head_uri : Uri :=
  MkUri (Some "https"%string) (Some (str "bucket.example")) (str "/head") (Some (str "/head")).
Definition update_request : HttpRequest :=
  MkHttpRequest PUT head_uri [(IF_MATCH, str "'v1'")] [x01].

(** A conditional update whose first attempt is cut off and whose replay is rejected: the
    caller keeps the uncertain error. *)
Definition tagged_request : HttpRequest :=
  MkHttpRequest PUT head_uri [(IF_MATCH, [quote; x76; quote])] [x01].

Lemma replay_is_bounded_witness :
  conditional_put update_request = false
  ∧ conditional_put tagged_request = true
  ∧ (∃ error second, [(tagged_request, Err 7); (tagged_request, Ok 412)]
       = [(tagged_request, Err error); (tagged_request, second)]
     ∧ (Err 7 : Result Z Z) = if is_read tagged_request || match second with Ok r => is_success id r | Err _ => false end
                              then second else Err error).
Proof.
  split; [vm_compute; reflexivity|]. split; [vm_compute; reflexivity|].
  assert (hreturns (retry_request id tagged_request (λ e : Z, e =? 7))
    [(tagged_request, Err 7); (tagged_request, Ok 412)] (Err 7)) as Hr.
  { exists (Err 7), [(tagged_request, Ok 412)]. split; [done|]. exists (Ok 412), []. by split. }
  destruct (replay_is_bounded id _ _ _ _ Hr) as [Hbad|(error & second & Htr & _ & _ & Ha)]; [done|].
  by exists error, second.
Defined.

(** ** Exchanges *)

Definition any_host : Host := MkHost (λ _, None) (λ _, true) (λ _, true) (λ _, true) (λ _, true).

(** The response is lost after the upload; the replay succeeds with a one-byte body. *)
Definition lost_exchange : Exchange :=
  MkExchange any_host [Ok (); Ok ()] (Some 1) [Ok (Some [x01])] [[(Ok 4, Ok ())]] (Ok ()) UploadFirst
    (Err (Code ConnectionTerminated)) (Ok ()) [] (Ok ()).
Definition good_exchange : Exchange :=
  MkExchange any_host [Ok (); Ok ()] (Some 1) [Ok (Some [x01])] [[(Ok 4, Ok ())]] (Ok ()) UploadFirst
    (Ok (200, [])) (Ok ()) [ReadChunk [x05]; ReadClosed] (Ok ()).

Definition wal_service : Service := MkService (Some 5000000000) (Some 30000000000).
Definition wal_budget : Budget := MkBudget 3 10 0 0.
Definition replayed : option (Result HttpResponse HttpError) * list Dispatch * Budget :=
  service_call wal_service [lost_exchange; good_exchange] tagged_request wal_budget.

Lemma transport_is_bounded_witness :
  replayed.1.1 = Some (Ok (MkHttpResponse 200 [] [Ok [x05]])) ∧ length replayed.1.2 = 2%nat
  ∧ replayed.2 = MkBudget 3 10 2 2 ∧ spent 2 wal_budget replayed.2.
Proof.
  split; [vm_compute; reflexivity|]. split; [vm_compute; reflexivity|]. split; [vm_compute; reflexivity|].
  assert (budget_ok wal_budget) as Hb by (vm_compute; split_and!; discriminate).
  assert (service_call wal_service [lost_exchange; good_exchange] tagged_request wal_budget
    = (replayed.1.1, replayed.1.2, replayed.2)) as Hr by (vm_compute; reflexivity).
  exact (proj1 (transport_is_bounded wal_service _ _ _ _ _ _ Hb Hr)).
Defined.
