(* ===== verification/FutureScenario.v ===== *)
(** * The executor at work

    A session's executor with a subscription of an earlier exchange in it runs a chunk's
    write, and an exchange whose host takes three waits to become ready. *)

From Stdlib Require Import Strings.Byte.
From S2P Require Import Prelude Types WalTransport WalExchange WalExecutor WalFutures.

#[local] Existing Instance native64.

(** Slot 0 was dropped, slot 1 is an earlier exchange's. *)
Definition busy : @Executor () () := MkExecutor [None; Some ()] [(0%nat, ()); (1%nat, ())] {[1%nat]}.

Lemma busy_wf : executor_wf busy.
Proof.
  split.
  - vm_compute. repeat constructor; set_solver.
  - repeat constructor.
  - intros [|[|slot]] p; simpl; [done|set_solver|done].
Qed.

Definition some_budget : Budget := MkBudget 10 100 0 0.
Definition sample_script : list (Result Z HttpError * Result () HttpError) :=
  [(Ok 0, Ok ()); (Ok 2, Ok ()); (Ok 0, Ok ()); (Ok 5, Ok ())].
Definition sample_chunk : bytes := [x01; x02; x03].

(** A host whose poll finds the last pollable ready. *)
Definition last_ready {W} (ps : list ()) (w : W) : list Z * W := ([Z.of_nat (length ps) - 1], w).

Lemma last_ready_range {W} (ps : list ()) (w : W) : ps ≠ [] → in_range (length ps) (last_ready ps w).1 = true.
Proof. intros Hps. assert (length ps ≠ 0)%nat by (by destruct ps). simpl. rewrite andb_true_r. lia. Qed.

Local Abbreviation write_run := (run last_ready (λ _ w, w) () (write_future scripted sample_chunk) 5 busy (some_budget, (sample_script, []))).

Lemma run_refines_witness :
  executor_wf write_run.1.2
  ∧ spec_loop last_ready (λ _ w, w) () (write_future scripted sample_chunk) 5 (0%nat, None) (abstract busy)
      (some_budget, (sample_script, []))
    = (Returned (Ok ()), abstract write_run.1.2, (some_budget, ([], [[x01; x02]; [x03]]))).
Proof. refine (run_refines last_ready (λ _ w, w) () (write_future scripted sample_chunk) 5 busy _ _ _ _ busy_wf _). vm_compute. reflexivity. Defined.

Lemma write_chunk_blocks_witness :
  ∃ x' rest, write_run = (Returned (Ok ()), x', (some_budget, (rest, [[x01; x02]; [x03]]))) ∧ executor_wf x'.
Proof.
  assert (write_chunk sample_chunk sample_script = ([[x01; x02]; [x03]], Some (Ok ()))) as Hw by (vm_compute; reflexivity).
  pose proof (write_chunk_blocks last_ready () sample_chunk some_budget sample_script 5 busy) as Hrun.
  rewrite Hw in Hrun. apply Hrun; [| |simpl; lia|apply busy_wf].
  - intros ps w Hps. split; [by apply last_ready_range|done].
  - repeat constructor; intros n [= <-]; lia.
Defined.

(** A host that is ready after a number of waits. *)
Definition countdown : Streams nat () :=
  MkStreams (λ h, (Ok (if decide (h = 0%nat) then 8 else 0), h)) (λ _ h, (Ok (), h)) (pair ()) (pair (Ok ()))
    (λ h, (if decide (h = 0%nat) then Some (Ok (Ok (200, []))) else None, h)) (pair ())
    (λ h, (if decide (h = 0%nat) then ReadClosed else ReadChunk [], h)) (pair ()).

Lemma countdown_law : streams_law countdown id.
Proof.
  split; simpl; intros; (split || idtac); try done; try lia.
  - intros n [= <-]. case_decide; lia.
  - case_decide; [done|lia].
  - case_decide; [done|lia].
Qed.

Definition count_poll (ps : list ()) (w : Budget * nat) : list Z * (Budget * nat) := ([Z.of_nat (length ps) - 1], (w.1, pred w.2)).

Lemma exchange_completes_witness :
  completes id count_poll (λ _ w, w) ()
    (exchange_future (λ r : Z * list (string * bytes), status_success r.1) (pair true)
       (upload_future countdown [async (pair (Ok (Some sample_chunk)))]) (response_future countdown)) busy (some_budget, 3%nat)
  ∧ completes id count_poll (λ _ w, w) () (next_chunk countdown) busy (some_budget, 3%nat).
Proof.
  apply (exchange_completes countdown id count_poll (λ _ w, w) () _ (pair true) busy (some_budget, 3%nat));
    [apply countdown_law| |by intros w|apply Forall_singleton, async_pure_law|apply busy_wf].
  - split; [|done]. intros ps w Hps. split; [by apply (last_ready_range ps w)|done].
Defined.
